(* ===== verification/_CoqProject ===== *)
-Q . S2P
Prelude.v
Float64.v
FloatArith.v
Values.v
Ast.v
Plan.v
Scalars.v
Text.v
IndexCodec.v
Keys.v
Records.v
Storage.v
Catalog.v
Graph.v
Context.v
Functions.v
Params.v
Eval.v
Lexer.v
LexerLaws.v
Parser.v
ParserLaws.v
Printer.v
Roundtrip.v
QueryText.v
ClauseText.v
Sema.v
Planner.v
FreeVars.v
PlannerClaims.v
Shortest.v
Aggregate.v
Expand.v
Write.v
StableSort.v
Tables.v
GraphInv.v
NodeOps.v
NodeUpdates.v
Traversal.v
Lookups.v
RangeScan.v
Ranges.v
IndexOps.v
Ddl.v
Operators.v
QueryLaws.v
OrderBy.v
Grouping.v
EdgeOps.v
History.v
GraphClaims.v
ScanClaims.v
EvalClaims.v
Queries.v
MatchPlan.v
MatchAccess.v
Trails.v
QueryClaims.v
Bolt.v
WriteSet.v
Cluster.v
Pool.v
Node.v
ScansOk.v
Effects.v
Engine.v
EngineStore.v
EffectClaims.v
Badger.v
Conformance.v
Explain.v
Cli.v
EngineClaims.v
Forward.v
