(* ===== verification/Prelude.v ===== *)
(** * A verification development for intreccio

    intreccio is an embeddable graph database in Go that speaks a subset of
    Cypher: nodes and relationships with properties, indexes and unique
    constraints, over an ordered key-value store, optionally replicated with
    Raft.  This library models its Go code from the byte layout of a key to the
    text of a query, and proves what makes each layer correct.  Definitions keep
    the names of the source; the file comment of each file names the Go files it
    translates.  No axioms are used.

    ** The program and how the parts interact

    A query enters through DB.Query (src/intreccio.go).  Its parameters are
    normalised (src/params.go), its text is lexed and parsed (src/query/parser),
    analysed (src/query/sema) and planned (src/query/plan) against the indexes
    of the transaction it runs in; the plan is built into a tree of operators
    that pull rows from one another (src/internal/exec), evaluate expressions
    and call the graph layer (src/internal/graph).  The graph layer keeps
    records, adjacency, label and property indexes and constraint owners as keys
    of an ordered store, with names interned by the catalog
    (src/internal/catalog) and bytes laid out by the codec
    (src/internal/storage/codec).  The store is bbolt or Badger behind the
    interface of src/internal/storage.  In a cluster (src/cluster) a write runs
    on the leader against a recording transaction; its write-set goes through
    the Raft log and every replica applies it; other nodes forward queries over
    pooled connections.  The shell (src/cmd/intreccio) reads statements from a
    terminal, a file or an editor and prints what DB.Query answers.

    ** Files, from the bottom up

    - Prelude: errors and results, bytes and their order, machine widths, shared
      lemmas and hint databases.  Float64, FloatArith: IEEE-754 values by bit
      pattern.  Values: the values of properties and queries (values.go).
    - IndexCodec, Keys, Records: value.go, key.go, record.go of the codec.
    - Storage: transactions as programs ([prog]) of Get, Set, Delete and
      ScanFrom, their run on the reference store (a finite map), and the contract
      of an engine (classes [Txn], [TxnLaws]).  Bolt: the bbolt adapter over an
      abstract bucket.  Badger: the Badger adapter, its retry loop, backup and
      load.  Conformance: the test suite of the engines (storagetest.go).
    - Catalog, Graph, RangeScan, Shortest: dictionaries, counters and registries;
      every operation on nodes, relationships, indexes and constraints; streaming
      scans; shortest paths.
    - Tables, GraphInv, NodeOps, NodeUpdates, EdgeOps, IndexOps, Ddl, Traversal,
      Lookups, Ranges, History, GraphClaims, ScanClaims: the store seen as tables
      ([Rep]), the invariant [consistent], a weakest-precondition calculus for
      programs, each operation's preservation and effect, and databases built by
      histories of operations.
    - Ast, Lexer, Parser, Sema, Planner, Plan: the query language front end, and
      its laws: LexerLaws, ParserLaws (fuel is enough), Printer, Roundtrip,
      QueryText, ClauseText (a printer of queries and the round trip), FreeVars
      and PlannerClaims.
    - Scalars, Text, Context, Functions, Eval, EvalClaims: values of expressions,
      strings, the query context, built-in functions, evaluation.
    - Aggregate, Expand, Write, StableSort, Operators: the operators and Run.
      QueryLaws, OrderBy, Grouping, Trails, Queries, QueryClaims: operators as
      streams of rows and the specification of read plans ([answers]).
    - MatchPlan, MatchAccess: the plan of a node pattern finds the matching nodes.
    - WriteSet, Cluster: recorded write-sets and the replicated state machine, as
      a step relation over logs, replicas, leaders, snapshots and restarts.
      Node: starting and stopping a node.  Pool: the connection pool, as threads
      that interleave.  Forward: queries sent to another node, over a network that
      loses messages.
    - Params, Engine: the public API.  ScansOk: programs that scan what exists, and
      programs that only read.  Effects: what the operators do to the store, by
      one induction over plans (class [Closed]).  EngineStore, EffectClaims,
      EngineClaims: whole queries and transactions on an engine, from text to rows.
    - Explain: plans as text.  Cli: the shell and the cluster flags.

    ** What the theorems show

    - State: every database reachable by write operations and schema statements
      is consistent (each index agrees with the records) and satisfies its unique
      constraints (GraphClaims); each operation's effect and every error branch.
      Queries and transactions only make such databases (EffectClaims).
    - Storage: engines that keep the contract run programs as the reference store
      does; bbolt's write buffer and merged iterator keep it and Update is atomic
      (Bolt); Badger's Update ends, and commits one run or nothing, whatever other
      writers do (Badger); an engine that keeps the contract passes the test suite
      (Conformance); the key space is injective, index keys are ordered as their values,
      records and index values round-trip and decoding terminates on any bytes.
    - Cluster: replicas hold what a sequential execution of the log gives, and
      acknowledged writes are in it (Cluster); a forwarded query runs at most
      twice, and once when nothing is lost (Forward); a pooled connection has one
      owner under every interleaving (Pool); a node that does not start leaves
      nothing open (Node).
    - Language: printing and parsing a query gives it back, parsing ends on any
      bytes (ClauseText); what the analysis accepts can be planned, and an
      expression reads only the variables the planner thinks it reads
      (PlannerClaims).
    - Queries: a read plan returns the rows its specification gives, ORDER BY is
      the stable sort, grouping is the reference group-by, variable-length
      patterns find the trails (QueryClaims); MATCH ... WHERE ... RETURN, from
      the text on, returns a row for each matching node whatever the indexes
      (EngineClaims); DB.Query on an engine refines DB.Query on the reference
      store (EngineStore); the text of Explain is that of the plan that runs
      (Explain); the shell runs the statements it is given (Cli).
    - Evaluation: well-formed values or errors, no writes (EvalClaims), Kleene
      logic, exact integer arithmetic or an overflow error.
    - Departures from the documentation or the language, as theorems on concrete
      inputs: null values claimed under a unique constraint, mixed states after a
      restart, writes in UNION arms refused, MATCH after a write in one query,
      forwarded writes applied twice, partial effects of a failed query committed
      when its error is ignored, and smaller ones.

    ** Bounds and fuel

    Integers are Z with their width as hypotheses ([i64], [u64], ...) and the
    wrap-around or overflow check written where the code has it.  Recursion that
    is not structural takes fuel.  Lexer and parser start with the length of
    their input, which [tokenize_answers] and [parse_total] show to be enough;
    decoders take the buffer length ([decode_total]).  The executor's fuel bounds
    steps, and the theorems say that every sufficiently large fuel gives the
    result.  Recursion over nodes that take one another for the leader (Forward)
    has no bound in the code; the fuel is the length of such a chain.  Badger's
    retries are counted by the code's own bound, and the wait for a leader by the
    time it sleeps.

    ** Parameters

    What Go's runtime and library decide is a parameter with its laws stated in a
    class: float formatting and parsing, case mapping and letters off ASCII,
    regular expressions, the clock and random numbers (Runtime, Unicode), the
    order in which a Go map is ranged over (MapOrder), what gob encodes
    (Forward).  bbolt's B+tree is the class Bucket, Badger's transactions are the
    class BadgerDB with BadgerLaws; Raft is the step relation of Cluster, and what
    it answers while a node starts is the world of Node.  Witnesses instantiate them with concrete functions.

    ** Not modelled

    - Opening and closing files, TLS (src/cluster/tls.go), sockets, the RPC
      library, flags, prompts and the alignment of tables: input and output.
    - Two tests of storagetest.go: who owns a returned buffer (bytes are values
      here) and reopening a directory.
    - Positions in the source text and the wording of messages; an error is its
      sentinel or kind.
    - Releasing cursors, and the memory operators hold.
    - Equality of NaN payloads beyond what the code compares. *)
From stdpp Require Export functions base tactics numbers list gmap sorting strings.
From Stdlib Require Export ZArith Lia.

#[global] Open Scope Z_scope.

(** ** Errors and results

    The Go code returns [(value, error)]; the errors it can build are the
    constructors of [error].  Wrapping with [%w] is transparent to [errors.Is],
    so a wrapped error is the error it wraps. *)
Inductive error : Type :=
| ErrShort                       (* codec: buffer too short *)
| ErrMalformedKey                (* codec: malformed key *)
| ErrBadTag (t : Z)              (* codec: unknown value / record tag *)
| ErrBadEscape (b : Z)           (* codec: invalid escape sequence *)
| ErrNonIndexable                (* codec: non-indexable type *)
| ErrUnsupportedType             (* codec: unsupported property type *)
| ErrImplausible (n : Z)         (* codec: implausible count *)
| ErrNotFound                    (* storage.ErrNotFound *)
| ErrConflict                    (* storage.ErrConflict *)
| ErrTxnTooLarge                 (* storage.ErrTxnTooLarge *)
| ErrReadOnly                    (* bolt: write in a read-only transaction *)
| ErrEmptyKey                    (* bolt: empty key *)
| ErrMalformedId                 (* catalog: malformed dictionary id *)
| ErrMalformedCounter            (* catalog: malformed counter value *)
| ErrMalformedRegistry           (* catalog: malformed registry key or entry *)
| ErrMalformedMarker             (* catalog: malformed format marker *)
| ErrOutOfIDs                    (* catalog: ran out of IDs *)
| ErrFormatVersion (v : Z)       (* catalog.ErrFormatVersion *)
| ErrNodeNotFound                (* graph.ErrNodeNotFound *)
| ErrEdgeNotFound                (* graph.ErrEdgeNotFound *)
| ErrNodeHasEdges                (* graph.ErrNodeHasEdges *)
| ErrMalformedOwner              (* graph: malformed unique owner entry *)
| ErrConstraintViolation         (* graph.ErrConstraintViolation *)
| ErrIndexExists                 (* exec: the index exists under another name *)
| ErrIndexNamed                  (* exec: an index of that name exists *)
| ErrNoIndex                     (* exec: no index of that name *)
| ErrBacksConstraint             (* exec: the index backs a constraint *)
| ErrConstraintExists            (* exec: the constraint exists under another name *)
| ErrConstraintNamed             (* exec: a constraint of that name exists *)
| ErrNoConstraint                (* exec: no constraint of that name *)
| ErrIntegerOverflow             (* exec.ErrIntegerOverflow *)
| ErrDivisionByZero              (* exec: division by zero *)
| ErrType                        (* exec: operand of the wrong type *)
| ErrUnknownOperator             (* exec: unknown operator *)
| ErrMissingParam                (* exec: parameter not provided *)
| ErrUnboundVariable             (* exec: unbound variable *)
| ErrUnknownFunction             (* exec: unknown function *)
| ErrAggregate                   (* exec: aggregate misused or malformed *)
| ErrArity                       (* exec: wrong number of arguments *)
| ErrRegexp                      (* exec: invalid regular expression *)
| ErrRange                       (* exec: range() with a zero step or too long *)
| ErrPattern                     (* exec: a pattern CREATE or MERGE cannot write *)
| ErrAlreadyBound                (* exec: relationship variable already bound *)
| ErrMergeNull                   (* exec: MERGE with a null property *)
| ErrArgument                    (* exec: Argument outside an OuterApply *)
| ErrResultLimit                 (* exec.ErrResultLimit *)
| ErrSyntax                      (* parser.ParseError *)
| ErrEmptyQuery                  (* sema: empty query *)
| ErrSchemaClause                (* sema: schema commands must be the only clause *)
| ErrReturnNotLast               (* sema: RETURN must be the last clause *)
| ErrIncompleteQuery             (* sema: a RETURN or a writing clause is required *)
| ErrUnionColumns                (* sema: UNION arms with different columns *)
| ErrUndefinedVariable (name : list Z)  (* sema: undefined variable *)
| ErrNestedAggregate             (* sema: aggregation inside an aggregation *)
| ErrWithAlias                   (* sema: an expression in WITH without an alias *)
| ErrReturnStar                  (* sema: RETURN * with nothing in scope *)
| ErrShortestForm                (* sema, plan: unsupported form of shortestPath *)
| ErrNoPlan                      (* plan: no plan produced *)
| ErrReadOnlyTx                  (* intreccio.ErrReadOnlyTx *)
| ErrTxDone                      (* intreccio.ErrTxDone *)
| ErrTxNotOnLeader               (* intreccio.ErrTxNotOnLeader *)
| ErrParameter                   (* normalizeParams: no Cypher value *)
| ErrCanceled                    (* context.Context: cancelled or past its deadline *)
| ErrWriteSet                    (* cluster: malformed write-set *)
| ErrNotLeader                   (* cluster: this node is not the leader *)
| ErrNoLeader                    (* cluster: no leader available *)
| ErrNoVoters                    (* cluster: no voters available *)
| ErrForward                     (* cluster: a forwarding call failed *)
| ErrRemote                      (* cluster: an error of another node, by its message *)
| ErrNode                        (* cluster: the node could not be started *)
| ErrNotImplemented              (* cluster.ErrNotImplemented *)
| ErrRaft                        (* cluster: barrier or replication failed *)
| ErrEngine                      (* any other failure of the storage engine *)
| ErrPanic                       (* no Go error: a run-time panic *)
| ErrOutOfFuel.                  (* no Go error: a bounded recursion ran out *)

#[global] Instance error_eq_dec : EqDecision error.
Proof. solve_decision. Defined.

Inductive res (A : Type) : Type :=
| Ok (a : A)
| Err (e : error).
Arguments Ok {A} a.
Arguments Err {A} e.

#[global] Instance res_ret : MRet res := fun A a => Ok a.
#[global] Instance res_bind : MBind res := fun A B f m =>
  match m with Ok a => f a | Err e => Err e end.
#[global] Instance res_fmap : FMap res := fun A B f m =>
  match m with Ok a => Ok (f a) | Err e => Err e end.

(** ** Bytes

    A [[]byte] or a Go [string] is a list of integers; [bytes_ok] says every
    element is a byte. *)
Abbreviation bytes := (list Z).

Definition byte_ok (b : Z) : Prop := 0 <= b < 256.
Definition bytes_ok (l : bytes) : Prop := Forall byte_ok l.

#[global] Instance byte_ok_dec b : Decision (byte_ok b).
Proof. unfold byte_ok; apply _. Defined.
#[global] Instance bytes_ok_dec l : Decision (bytes_ok l).
Proof. unfold bytes_ok; apply _. Defined.

(** Text literal as the bytes of a Go string (used by concrete instances). *)
Definition str (s : String.string) : bytes :=
  (fun a => Z.of_nat (Ascii.nat_of_ascii a)) <$> String.list_ascii_of_string s.

(** [bytes.Compare]. *)
Fixpoint bcmp (a b : bytes) : comparison :=
  match a, b with
  | [], [] => Eq
  | [], _ :: _ => Lt
  | _ :: _, [] => Gt
  | x :: a', y :: b' =>
      match x ?= y with Eq => bcmp a' b' | c => c end
  end.

Definition blt (a b : bytes) : Prop := bcmp a b = Lt.
Definition ble (a b : bytes) : Prop := bcmp a b <> Gt.

#[global] Instance blt_dec : RelDecision blt.
Proof. intros a b. unfold blt. apply _. Defined.
#[global] Instance ble_dec : RelDecision ble.
Proof. intros a b. unfold ble. apply _. Defined.

(** [bytes.HasPrefix k p], with the prefix first. *)
Fixpoint has_prefix (p k : bytes) : bool :=
  match p, k with
  | [], _ => true
  | _ :: _, [] => false
  | x :: p', y :: k' => (x =? y) && has_prefix p' k'
  end.

(** ** The development's tactics and hint databases *)
Create HintDb bytes_db.
Create HintDb codec_db.
Create Rewrite HintDb bytes_rw.

(** Split every [if]/[match] the goal scrutinises on a comparison of [Z]. *)
Ltac zcases :=
  repeat match goal with
  | |- context [?a =? ?b] => destruct (Z.eqb_spec a b)
  | |- context [?a <? ?b] => destruct (Z.ltb_spec a b)
  | |- context [?a <=? ?b] => destruct (Z.leb_spec a b)
  | H : context [?a =? ?b] |- _ => destruct (Z.eqb_spec a b)
  | H : context [?a <? ?b] |- _ => destruct (Z.ltb_spec a b)
  | H : context [?a <=? ?b] |- _ => destruct (Z.leb_spec a b)
  end.

(** ** Lexicographic order *)
Lemma bcmp_refl a : bcmp a a = Eq.
Proof. induction a as [|x a IH]; simpl; [done|]. by rewrite Z.compare_refl. Qed.

Lemma bcmp_eq a b : bcmp a b = Eq <-> a = b.
Proof.
  split; [|intros ->; apply bcmp_refl].
  revert b; induction a as [|x a IH]; intros [|y b]; simpl; try done.
  destruct (Z.compare_spec x y); try done. intros ?%IH. by subst.
Qed.

Lemma bcmp_antisym a b : bcmp b a = CompOpp (bcmp a b).
Proof.
  revert b; induction a as [|x a IH]; intros [|y b]; simpl; try done.
  rewrite (Z.compare_antisym x y). destruct (x ?= y); simpl; auto.
Qed.

Lemma blt_trans a b c : blt a b -> blt b c -> blt a c.
Proof.
  unfold blt; revert b c; induction a as [|x a IH]; intros [|y b] [|z c]; simpl; try done.
  destruct (Z.compare_spec x y), (Z.compare_spec y z); subst; try done; intros Hab Hbc.
  - rewrite Z.compare_refl; eauto.
  - by rewrite (proj2 (Z.compare_lt_iff y z)).
  - by rewrite (proj2 (Z.compare_lt_iff x z)).
  - by rewrite (proj2 (Z.compare_lt_iff x z)) by lia.
Qed.

Lemma blt_irrefl a : ~ blt a a.
Proof. unfold blt. by rewrite bcmp_refl. Qed.

Lemma ble_alt a b : ble a b <-> a = b \/ blt a b.
Proof.
  unfold ble, blt. rewrite <- bcmp_eq.
  destruct (bcmp a b); split; intuition congruence.
Qed.

Lemma ble_blt_trans a b c : ble a b -> blt b c -> blt a c.
Proof. rewrite ble_alt. intros [->|?] ?; [done|]. by eapply blt_trans. Qed.
Lemma blt_ble_trans a b c : blt a b -> ble b c -> blt a c.
Proof. rewrite ble_alt. intros ? [<-|?]; [done|]. by eapply blt_trans. Qed.

Lemma not_ble a b : ~ ble a b <-> blt b a.
Proof.
  unfold ble, blt. rewrite (bcmp_antisym a b).
  destruct (bcmp a b); simpl; split; intuition congruence.
Qed.

#[global] Instance ble_refl : Reflexive ble.
Proof. intros a. apply ble_alt. by left. Qed.
#[global] Instance ble_trans : Transitive ble.
Proof.
  intros a b c Hab Hbc. apply ble_alt in Hab as [->|Hab]; [done|].
  apply ble_alt. right. by eapply blt_ble_trans.
Qed.
#[global] Instance ble_antisymm : AntiSymm (=) ble.
Proof.
  intros a b Hab Hba. apply ble_alt in Hab as [->|Hab]; [done|].
  apply not_ble in Hab. done.
Qed.
#[global] Instance ble_total : Total ble.
Proof.
  intros a b. destruct (decide (ble a b)) as [|H]; [by left|right].
  apply not_ble in H. apply ble_alt. by right.
Qed.

(** A common prefix does not affect the order. *)
Lemma bcmp_app p a b : bcmp (p ++ a) (p ++ b) = bcmp a b.
Proof. induction p as [|x p IH]; simpl; [done|]. by rewrite Z.compare_refl. Qed.

(** Encodings of the same length are compared component by component. *)
Lemma bcmp_app_len p q a b :
  length p = length q ->
  bcmp (p ++ a) (q ++ b) = match bcmp p q with Eq => bcmp a b | c => c end.
Proof.
  revert q; induction p as [|x p IH]; intros [|y q] Hl; simpl in *; try done.
  destruct (x ?= y); auto.
Qed.

Lemma has_prefix_spec p k : has_prefix p k = true <-> exists s, k = p ++ s.
Proof.
  revert k; induction p as [|x p IH]; intros k; simpl.
  - split; eauto.
  - destruct k as [|y k]; [split; [done|by intros [? ?]]|].
    rewrite andb_true_iff, Z.eqb_eq, IH. split.
    + intros [-> [s ->]]. eauto.
    + intros [s [= -> ->]]. eauto.
Qed.

Lemma has_prefix_app p s : has_prefix p (p ++ s) = true.
Proof. apply has_prefix_spec; eauto. Qed.

Lemma has_prefix_app_l p a b : has_prefix (p ++ a) (p ++ b) = has_prefix a b.
Proof. induction p as [|x p IH]; simpl; [done|]. by rewrite Z.eqb_refl. Qed.

Lemma forallb_Forall {A} (f : A -> bool) l : forallb f l = true <-> Forall (fun x => f x = true) l.
Proof.
  induction l as [|x l IH]; simpl; [split; constructor|].
  rewrite andb_true_iff, IH. split; [by intros []; constructor|by inversion 1].
Qed.

Lemma app_eq_len {A} (p q a b : list A) :
  length p = length q -> p ++ a = q ++ b -> p = q /\ a = b.
Proof. intros Hl H. by apply app_inj_1. Qed.

#[export] Hint Resolve bcmp_refl has_prefix_app : bytes_db.
#[export] Hint Rewrite bcmp_refl bcmp_app has_prefix_app : bytes_rw.

(** ** Fixed-width integers

    [uintN] values are integers in range; [u64_of_i64] and [i64_of_u64] are
    Go's conversions between [int64] and [uint64] (two's complement). *)
Definition two32 : Z := 2 ^ 32.
Definition two63 : Z := 2 ^ 63.
Definition two64 : Z := 2 ^ 64.

Definition u32 (z : Z) : Prop := 0 <= z < two32.
Definition u64 (z : Z) : Prop := 0 <= z < two64.
Definition i64 (z : Z) : Prop := - two63 <= z < two63.

#[global] Instance u32_dec z : Decision (u32 z).
Proof. unfold u32; apply _. Defined.
#[global] Instance u64_dec z : Decision (u64 z).
Proof. unfold u64; apply _. Defined.
#[global] Instance i64_dec z : Decision (i64 z).
Proof. unfold i64; apply _. Defined.

Definition u64_of_i64 (z : Z) : Z := z mod two64.
Definition i64_of_u64 (z : Z) : Z := if z <? two63 then z else z - two64.
(** Wrap-around of [int64] arithmetic. *)
Definition wrap_i64 (z : Z) : Z := i64_of_u64 (z mod two64).

Ltac unfold_widths :=
  unfold u32, u64, i64, byte_ok, two32, two63, two64 in *;
  change (2 ^ 32) with 4294967296 in *;
  change (2 ^ 63) with 9223372036854775808 in *;
  change (2 ^ 64) with 18446744073709551616 in *.
Ltac solve_width := unfold_widths; lia.

Lemma wrap_i64_id z : i64 z -> wrap_i64 z = z.
Proof.
  intros H. unfold wrap_i64, i64_of_u64.
  destruct (Z_lt_le_dec z 0).
  - rewrite <- (Z_mod_plus_full z 1 two64), Z.mod_small by solve_width. zcases; solve_width.
  - rewrite Z.mod_small by solve_width. zcases; solve_width.
Qed.

Lemma wrap_i64_range z : i64 (wrap_i64 z).
Proof.
  unfold wrap_i64, i64_of_u64.
  pose proof (Z.mod_pos_bound z two64 ltac:(solve_width)). zcases; solve_width.
Qed.

(** The wrapped result differs from the exact one by a multiple of [2^64]. *)
Lemma wrap_i64_spec z : exists k, wrap_i64 z = z + k * two64.
Proof.
  unfold wrap_i64, i64_of_u64. pose proof (Z.div_mod z two64 ltac:(solve_width)) as H.
  zcases.
  - exists (- (z / two64)). lia.
  - exists (- (z / two64) - 1). lia.
Qed.

Lemma i64_u64_roundtrip z : i64 z -> i64_of_u64 (u64_of_i64 z) = z.
Proof. apply wrap_i64_id. Qed.

Lemma u64_of_i64_range z : u64 (u64_of_i64 z).
Proof. unfold u64, u64_of_i64. apply Z.mod_pos_bound. solve_width. Qed.

(** ** Big-endian integers ([binary.BigEndian]) *)
Fixpoint be (n : nat) (v : Z) : bytes :=
  match n with
  | O => []
  | S n' => Z.land (Z.shiftr v (8 * Z.of_nat n')) 255 :: be n' v
  end.

Definition be_get (l : bytes) : Z := fold_left (fun acc b => acc * 256 + b) l 0.

Lemma be_length n v : length (be n v) = n.
Proof. induction n; simpl; auto. Qed.

Lemma land255 z : Z.land z 255 = z mod 256.
Proof. change 255 with (Z.ones 8). by rewrite Z.land_ones. Qed.

Lemma be_S n v : be (S n) v = (v / 256 ^ Z.of_nat n) mod 256 :: be n v.
Proof.
  cbn [be]. f_equal. rewrite land255, Z.shiftr_div_pow2 by lia.
  f_equal. f_equal. change 256 with (2 ^ 8). by rewrite <- Z.pow_mul_r by lia.
Qed.

Lemma be_ok n v : bytes_ok (be n v).
Proof.
  induction n as [|n IH]; [constructor|]. rewrite be_S. constructor; [|done].
  unfold byte_ok. apply Z.mod_pos_bound. lia.
Qed.

Lemma pow256_pos n : 0 < 256 ^ Z.of_nat n.
Proof. apply Z.pow_pos_nonneg; lia. Qed.

Lemma pow256_S n : 256 ^ Z.of_nat (S n) = 256 * 256 ^ Z.of_nat n.
Proof. rewrite Nat2Z.inj_succ, Z.pow_succ_r; lia. Qed.

(** Only the low [n] bytes matter. *)
Lemma be_mod n m v : (n <= m)%nat -> be n (v mod 256 ^ Z.of_nat m) = be n v.
Proof.
  revert v; induction n as [|n IH]; intros v H; [done|].
  rewrite !be_S, IH by lia. f_equal.
  replace (Z.of_nat m) with (Z.of_nat n + (1 + (Z.of_nat m - Z.of_nat n - 1))) by lia.
  rewrite !Z.pow_add_r by lia.
  set (a := 256 ^ Z.of_nat n). set (b := 256 ^ (Z.of_nat m - Z.of_nat n - 1)).
  assert (0 < a) by (apply Z.pow_pos_nonneg; lia).
  assert (0 < b) by (apply Z.pow_pos_nonneg; lia).
  rewrite Z.rem_mul_r by nia.
  rewrite (Z.mul_comm a (_ mod _)), Z.div_add, Z.div_small, Z.add_0_l
    by (pose proof (Z.mod_pos_bound v a); lia).
  rewrite Z.pow_1_r, Z.rem_mul_r by lia.
  rewrite Z.add_mod, (Z.mul_comm 256), Z.mod_mul, Z.add_0_r by lia.
  by rewrite !Z.mod_mod by lia.
Qed.

Lemma be_get_acc l acc :
  fold_left (fun acc b => acc * 256 + b) l acc = acc * 256 ^ Z.of_nat (length l) + be_get l.
Proof.
  unfold be_get. revert acc. induction l as [|x l IH]; intros acc; cbn [fold_left length].
  - rewrite Z.pow_0_r. lia.
  - rewrite IH, (IH (0 * 256 + x)), pow256_S. lia.
Qed.

Lemma be_get_cons x l : be_get (x :: l) = x * 256 ^ Z.of_nat (length l) + be_get l.
Proof. unfold be_get at 1. cbn [fold_left]. by rewrite be_get_acc. Qed.

Lemma be_get_be n v : be_get (be n v) = v mod 256 ^ Z.of_nat n.
Proof.
  revert v; induction n as [|n IH]; intros v.
  - by rewrite Z.mod_1_r.
  - rewrite be_S, be_get_cons, IH, be_length, pow256_S.
    pose proof (pow256_pos n). rewrite (Z.mul_comm 256), Z.rem_mul_r by lia. lia.
Qed.

Lemma be_get_be_small n v : 0 <= v < 256 ^ Z.of_nat n -> be_get (be n v) = v.
Proof. intros. rewrite be_get_be. by apply Z.mod_small. Qed.

Lemma be_get_range l : bytes_ok l -> 0 <= be_get l < 256 ^ Z.of_nat (length l).
Proof.
  induction 1 as [|x l Hx Hl IH]; [cbn; lia|].
  rewrite be_get_cons. cbn [length]. rewrite pow256_S. unfold byte_ok in Hx. nia.
Qed.

(** Byte order of big-endian encodings is numeric order. *)
Lemma bcmp_be n a b :
  0 <= a < 256 ^ Z.of_nat n -> 0 <= b < 256 ^ Z.of_nat n ->
  bcmp (be n a) (be n b) = (a ?= b).
Proof.
  revert a b; induction n as [|n IH]; intros a b Ha Hb.
  - change (256 ^ Z.of_nat 0) with 1 in *. replace a with b by lia. by rewrite Z.compare_refl.
  - rewrite pow256_S in *. pose proof (pow256_pos n) as Hp.
    rewrite !be_S. cbn [bcmp].
    assert (0 <= a / 256 ^ Z.of_nat n < 256)
      by (split; [apply Z.div_pos|apply Z.div_lt_upper_bound]; lia).
    assert (0 <= b / 256 ^ Z.of_nat n < 256)
      by (split; [apply Z.div_pos|apply Z.div_lt_upper_bound]; lia).
    rewrite !Z.mod_small by lia.
    rewrite <- (be_mod n n a), <- (be_mod n n b), IH by (try apply Z.mod_pos_bound; lia).
    pose proof (Z.div_mod a (256 ^ Z.of_nat n) ltac:(lia)) as Ea.
    pose proof (Z.div_mod b (256 ^ Z.of_nat n) ltac:(lia)) as Eb.
    pose proof (Z.mod_pos_bound a (256 ^ Z.of_nat n) Hp).
    pose proof (Z.mod_pos_bound b (256 ^ Z.of_nat n) Hp).
    destruct (Z.compare_spec (a / 256 ^ Z.of_nat n) (b / 256 ^ Z.of_nat n)) as [E|E|E]; symmetry.
    + destruct (Z.compare_spec (a mod 256 ^ Z.of_nat n) (b mod 256 ^ Z.of_nat n));
        [apply Z.compare_eq_iff|apply Z.compare_lt_iff|apply Z.compare_gt_iff]; nia.
    + apply Z.compare_lt_iff. nia.
    + apply Z.compare_gt_iff. nia.
Qed.

Lemma be_inj n a b :
  0 <= a < 256 ^ Z.of_nat n -> 0 <= b < 256 ^ Z.of_nat n -> be n a = be n b -> a = b.
Proof. intros Ha Hb E%(f_equal be_get). by rewrite !be_get_be_small in E. Qed.

(** The two widths in use. *)
Lemma be8_get v : u64 v -> be_get (be 8 v) = v.
Proof. intros. apply be_get_be_small. change (256 ^ Z.of_nat 8) with (2 ^ 64). solve_width. Qed.
Lemma be4_get v : u32 v -> be_get (be 4 v) = v.
Proof. intros. apply be_get_be_small. change (256 ^ Z.of_nat 4) with (2 ^ 32). solve_width. Qed.
Lemma bcmp_be8 a b : u64 a -> u64 b -> bcmp (be 8 a) (be 8 b) = (a ?= b).
Proof. intros. apply bcmp_be; change (256 ^ Z.of_nat 8) with (2 ^ 64); solve_width. Qed.
Lemma bcmp_be4 a b : u32 a -> u32 b -> bcmp (be 4 a) (be 4 b) = (a ?= b).
Proof. intros. apply bcmp_be; change (256 ^ Z.of_nat 4) with (2 ^ 32); solve_width. Qed.
Lemma be8_inj a b : u64 a -> u64 b -> be 8 a = be 8 b -> a = b.
Proof. intros Ha Hb E%(f_equal be_get). by rewrite !be8_get in E. Qed.
Lemma be4_inj a b : u32 a -> u32 b -> be 4 a = be 4 b -> a = b.
Proof. intros Ha Hb E%(f_equal be_get). by rewrite !be4_get in E. Qed.
Lemma be_get_u64 l : bytes_ok l -> length l = 8%nat -> u64 (be_get l).
Proof. intros H E. apply be_get_range in H. rewrite E in H. exact H. Qed.
Lemma be_get_u32 l : bytes_ok l -> length l = 4%nat -> u32 (be_get l).
Proof. intros H E. apply be_get_range in H. rewrite E in H. exact H. Qed.

(** Byte lists built from constants, encodings and known byte lists. *)
Ltac solve_bytes :=
  unfold bytes_ok in *;
  repeat first
    [ assumption | apply Forall_nil_2 | apply Forall_cons_2 | apply Forall_app_2 | apply be_ok
    | (unfold byte_ok; split; [vm_compute; congruence|vm_compute; reflexivity]) ].

#[global] Opaque be be_get.
#[export] Hint Rewrite be_length : bytes_rw.
#[export] Hint Resolve be_ok be_length : bytes_db.
