(* ===== verification/Float64.v ===== *)
(** * Float64: IEEE-754 binary64 values at the bit level

    The Go code sees a [float64] through [math.Float64bits]: a value is its
    64-bit pattern, an integer in [0, 2^64).  The numeric value of a pattern,
    scaled by [2^1074] so that it is an integer, is [fnum]; comparisons are the
    comparisons of these numbers (NaN excluded), and [of_int] is Go's
    [float64(x)] conversion with round-to-nearest-even.  Infinity keeps the
    value its exponent field would give, above every finite number, so the
    order needs no special case. *)
From S2P Require Import Prelude.

Module Float64.

Definition two52 : Z := 2 ^ 52.
Definition two53 : Z := 2 ^ 53.
(** Pattern of +Inf: exponent field all ones, fraction zero. *)
Definition inf_mag : Z := 2047 * two52.
(** The scale of [fnum]. *)
Definition unit1074 : Z := 2 ^ 1074.

(** Sign bit and magnitude bits of a pattern. *)
Definition sgn (b : Z) : bool := Z.testbit b 63.
Definition mag (b : Z) : Z := Z.land b (Z.ones 63).

(** Scaled value of a magnitude: subnormal below exponent field 1. *)
Definition mag_num (m : Z) : Z :=
  let e := m / two52 in
  let f := m mod two52 in
  if e =? 0 then f else (two52 + f) * 2 ^ (e - 1).

Definition fnum (b : Z) : Z :=
  if sgn b then - mag_num (mag b) else mag_num (mag b).

(** [math.IsNaN], [math.IsInf(x, 0)], [IsInf(x, 1)], [IsInf(x, -1)]. *)
Definition is_nan (b : Z) : bool := inf_mag <? mag b.
Definition is_inf (b : Z) : bool := mag b =? inf_mag.
Definition is_pinf (b : Z) : bool := is_inf b && negb (sgn b).
Definition is_ninf (b : Z) : bool := is_inf b && sgn b.

(** Go's [==], [<], [<=] on float64. *)
Definition feq (a b : Z) : bool := negb (is_nan a) && negb (is_nan b) && (fnum a =? fnum b).
Definition flt (a b : Z) : bool := negb (is_nan a) && negb (is_nan b) && (fnum a <? fnum b).
Definition fle (a b : Z) : bool := negb (is_nan a) && negb (is_nan b) && (fnum a <=? fnum b).

Definition pzero : Z := 0.
Definition nzero : Z := two63.          (* math.Copysign(0, -1) *)
Definition pinf : Z := inf_mag.         (* math.Inf(1) *)
Definition ninf : Z := two63 + inf_mag. (* math.Inf(-1) *)
Definition nan : Z := 0x7FF8000000000001.

(** Unary minus flips the sign bit. *)
Definition fneg (b : Z) : Z := Z.lxor b two63.

(** [float64(n)] for a positive integer: nearest value, ties to even.  A carry
    out of the significand moves into the exponent field by addition. *)
Definition of_pos (n : Z) : Z :=
  let e := Z.log2 n in
  if e <=? 52 then (e + 1023) * two52 + (n * 2 ^ (52 - e) - two52)
  else
    let s := e - 52 in
    let q := n / 2 ^ s in
    let r := n mod 2 ^ s in
    let half := 2 ^ (s - 1) in
    let up := (half <? r) || ((r =? half) && Z.odd q) in
    (e + 1023) * two52 + ((if up then q + 1 else q) - two52).

(** [float64(x)] for an int64. *)
Definition of_int (z : Z) : Z :=
  if z =? 0 then 0
  else if 0 <? z then of_pos z
  else two63 + of_pos (- z).

(** [x == math.Trunc(x)] for a non-NaN [x]. *)
Definition is_integral (b : Z) : bool := fnum b mod unit1074 =? 0.
(** [int64(x)] of a value whose truncation fits an int64. *)
Definition to_int (b : Z) : Z := Z.quot (fnum b) unit1074.
(** [math.Floor] and [math.Ceil], as integers. *)
Definition floor_int (b : Z) : Z := fnum b / unit1074.
Definition ceil_int (b : Z) : Z := - ((- fnum b) / unit1074).

(** [math.Nextafter(x, math.Inf(1))] and [math.Nextafter(x, math.Inf(-1))]:
    the pattern is stepped by one away from or towards zero. *)
Definition next_up (x : Z) : Z :=
  if is_nan x then nan
  else if feq x pinf then x
  else if fnum x =? 0 then 1
  else if 0 <? fnum x then x + 1 else x - 1.
Definition next_down (x : Z) : Z :=
  if is_nan x then nan
  else if feq x ninf then x
  else if fnum x =? 0 then two63 + 1
  else if 0 <? fnum x then x - 1 else x + 1.

(** ** Facts *)

Lemma mag_alt b : mag b = b mod two63.
Proof. unfold mag. by rewrite Z.land_ones. Qed.

Lemma mag_range b : 0 <= mag b < two63.
Proof. rewrite mag_alt. apply Z.mod_pos_bound. solve_width. Qed.

Lemma sgn_spec b : u64 b -> sgn b = (two63 <=? b).
Proof.
  intros H. unfold sgn. rewrite Z.testbit_eqb by lia. fold two63.
  pose proof (Z.div_mod b two63 ltac:(solve_width)) as E.
  pose proof (Z.mod_pos_bound b two63 ltac:(solve_width)).
  destruct (Z.leb_spec two63 b).
  - replace (b / two63) with 1 by (apply Z.div_unique with (b - two63); solve_width). done.
  - by rewrite Z.div_small by solve_width.
Qed.

(** A pattern is its sign and its magnitude. *)
Lemma bits_split b : u64 b -> b = (if sgn b then two63 else 0) + mag b.
Proof.
  intros H. rewrite sgn_spec, mag_alt by done. destruct (Z.leb_spec two63 b).
  - rewrite <- (Z_mod_plus_full b (-1) two63), Z.mod_small by solve_width. lia.
  - rewrite Z.mod_small by solve_width. lia.
Qed.

Lemma mag_pos m : 0 <= m < two63 -> mag m = m.
Proof. intros. rewrite mag_alt. by apply Z.mod_small. Qed.
Lemma mag_neg m : 0 <= m < two63 -> mag (two63 + m) = m.
Proof.
  intros. rewrite mag_alt, <- (Z_mod_plus_full _ (-1)), Z.mod_small by solve_width. lia.
Qed.
Lemma sgn_pos m : 0 <= m < two63 -> sgn m = false.
Proof. intros. rewrite sgn_spec by solve_width. apply Z.leb_gt. lia. Qed.
Lemma sgn_neg m : 0 <= m < two63 -> sgn (two63 + m) = true.
Proof. intros. rewrite sgn_spec by solve_width. apply Z.leb_le. lia. Qed.

Lemma fnum_pos m : 0 <= m < two63 -> fnum m = mag_num m.
Proof. intros. unfold fnum. by rewrite sgn_pos, mag_pos. Qed.
Lemma fnum_neg m : 0 <= m < two63 -> fnum (two63 + m) = - mag_num m.
Proof. intros. unfold fnum. by rewrite sgn_neg, mag_neg. Qed.

Lemma two52_pos : 0 < two52.
Proof. reflexivity. Qed.

Lemma mag_num_nonneg m : 0 <= m -> 0 <= mag_num m.
Proof.
  intros H. unfold mag_num. pose proof (Z.mod_pos_bound m two52 two52_pos).
  zcases; [lia|]. apply Z.mul_nonneg_nonneg; [lia|]. apply Z.pow_nonneg. lia.
Qed.

(** Bounds of a magnitude's value in terms of its exponent field. *)
Lemma mag_num_upper m : 0 <= m -> mag_num m < two52 * 2 ^ (m / two52).
Proof.
  intros H. unfold mag_num. pose proof (Z.mod_pos_bound m two52 two52_pos).
  pose proof (Z.div_pos m two52 H two52_pos). zcases.
  - rewrite e, Z.pow_0_r. lia.
  - replace (m / two52) with (Z.succ (m / two52 - 1)) at 2 by lia.
    rewrite Z.pow_succ_r by lia.
    pose proof (Z.pow_pos_nonneg 2 (m / two52 - 1)). nia.
Qed.

Lemma mag_num_lower m : 1 <= m / two52 -> two52 * 2 ^ (m / two52 - 1) <= mag_num m.
Proof.
  intros H. unfold mag_num. pose proof (Z.mod_pos_bound m two52 two52_pos).
  zcases; [lia|]. pose proof (Z.pow_pos_nonneg 2 (m / two52 - 1)). nia.
Qed.

(** The value grows strictly with the magnitude bits. *)
Lemma mag_num_lt m1 m2 : 0 <= m1 < m2 -> mag_num m1 < mag_num m2.
Proof.
  intros H. assert (m1 / two52 <= m2 / two52) as Hle by (apply Z.div_le_mono; [reflexivity|lia]).
  pose proof (Z.div_pos m1 two52 ltac:(lia) two52_pos).
  destruct (Z.eq_dec (m1 / two52) (m2 / two52)) as [E|NE].
  - unfold mag_num. rewrite <- E.
    pose proof (Z.div_mod m1 two52 ltac:(easy)). pose proof (Z.div_mod m2 two52 ltac:(easy)).
    zcases; [lia|]. pose proof (Z.pow_pos_nonneg 2 (m1 / two52 - 1)). nia.
  - eapply Z.lt_le_trans; [apply mag_num_upper; lia|].
    etransitivity; [|apply mag_num_lower; lia].
    apply Z.mul_le_mono_nonneg_l; [easy|]. apply Z.pow_le_mono_r; lia.
Qed.

Lemma mag_num_compare m1 m2 : 0 <= m1 -> 0 <= m2 -> (mag_num m1 ?= mag_num m2) = (m1 ?= m2).
Proof.
  intros H1 H2. destruct (Z.compare_spec m1 m2) as [->|E|E].
  - apply Z.compare_refl.
  - apply Z.compare_lt_iff, mag_num_lt. lia.
  - apply Z.compare_gt_iff, mag_num_lt. lia.
Qed.

Lemma mag_num_inj m1 m2 : 0 <= m1 -> 0 <= m2 -> mag_num m1 = mag_num m2 -> m1 = m2.
Proof. intros H1 H2 E. apply Z.compare_eq_iff. rewrite <- mag_num_compare, E by done. apply Z.compare_refl. Qed.

Lemma mag_num_lt_inv m1 m2 : 0 <= m1 -> 0 <= m2 -> mag_num m1 < mag_num m2 -> m1 < m2.
Proof. intros H1 H2 H. apply Z.nle_gt. intros Hle.
  destruct (Z.eq_dec m1 m2) as [->|]; [lia|]. pose proof (mag_num_lt m2 m1 ltac:(lia)). lia.
Qed.

Lemma mag_num_0 : mag_num 0 = 0.
Proof. reflexivity. Qed.

Lemma mag_num_pos m : 0 < m -> 0 < mag_num m.
Proof. intros. rewrite <- mag_num_0 at 1. apply mag_num_lt. lia. Qed.

Lemma mag_num_zero m : 0 <= m -> mag_num m = 0 -> m = 0.
Proof. intros H E. apply mag_num_inj; [done|lia|]. by rewrite E. Qed.

(** Two patterns have the same value exactly when they are the same pattern or
    the two zeros. *)
Lemma fnum_eq_iff a b :
  u64 a -> u64 b -> (fnum a = fnum b <-> a = b \/ (mag a = 0 /\ mag b = 0)).
Proof.
  intros Ha Hb. pose proof (bits_split a Ha) as Ea. pose proof (bits_split b Hb) as Eb.
  pose proof (mag_range a). pose proof (mag_range b).
  pose proof (mag_num_nonneg (mag a) ltac:(lia)). pose proof (mag_num_nonneg (mag b) ltac:(lia)).
  split.
  - unfold fnum. destruct (sgn a), (sgn b); intros E.
    + left. rewrite Ea, Eb. f_equal. apply mag_num_inj; lia.
    + right. split; apply mag_num_zero; lia.
    + right. split; apply mag_num_zero; lia.
    + left. rewrite Ea, Eb. f_equal. apply mag_num_inj; lia.
  - intros [->|[E1 E2]]; [done|]. unfold fnum. rewrite E1, E2, mag_num_0. by destruct (sgn a), (sgn b).
Qed.

Lemma fnum_zero a : fnum a = 0 <-> mag a = 0.
Proof.
  pose proof (mag_range a). unfold fnum. split.
  - intros E. apply mag_num_zero; [lia|]. destruct (sgn a); lia.
  - intros ->. rewrite mag_num_0. by destruct (sgn a).
Qed.

(** Zeros: exactly the patterns [pzero] and [nzero]. *)
Lemma mag_zero_iff a : u64 a -> (mag a = 0 <-> a = pzero \/ a = nzero).
Proof.
  intros H. pose proof (bits_split a H) as E. unfold pzero, nzero. split.
  - intros M. rewrite M in E. destruct (sgn a); [right|left]; lia.
  - intros [->| ->]; reflexivity.
Qed.

(** ** Conversion from int64 *)

Lemma mag_num_make e f :
  0 < e -> 0 <= f < two52 -> mag_num (e * two52 + f) = (two52 + f) * 2 ^ (e - 1).
Proof.
  intros He Hf. unfold mag_num.
  rewrite Z.div_add_l, (Z.div_small f), Z.add_0_r by easy.
  rewrite Z.add_comm, Z.mod_add, Z.mod_small by easy. zcases; [lia|done].
Qed.

Lemma log2_significand n :
  0 < n -> Z.log2 n <= 52 -> two52 <= n * 2 ^ (52 - Z.log2 n) < 2 * two52.
Proof.
  intros Hn He. pose proof (Z.log2_spec n Hn) as [H1 H2].
  pose proof (Z.log2_nonneg n).
  replace two52 with (2 ^ Z.log2 n * 2 ^ (52 - Z.log2 n))
    by (rewrite <- Z.pow_add_r by lia; unfold two52; f_equal; lia).
  rewrite Z.pow_succ_r in H2 by lia.
  pose proof (Z.pow_pos_nonneg 2 (52 - Z.log2 n)). nia.
Qed.

(** Integers below [2^53] convert exactly. *)
Lemma of_pos_exact n : 0 < n < two53 -> mag_num (of_pos n) = n * unit1074.
Proof.
  intros [Hn Hb]. pose proof (Z.log2_nonneg n).
  assert (Z.log2 n <= 52) by (assert (Z.log2 n < 53) by (by apply Z.log2_lt_pow2); lia).
  pose proof (log2_significand n Hn ltac:(lia)).
  unfold of_pos. rewrite (proj2 (Z.leb_le _ _)) by lia.
  rewrite mag_num_make by lia.
  replace (two52 + (n * 2 ^ (52 - Z.log2 n) - two52)) with (n * 2 ^ (52 - Z.log2 n)) by lia.
  rewrite <- Z.mul_assoc, <- Z.pow_add_r by lia. unfold unit1074. f_equal. f_equal. lia.
Qed.

(** The rounded significand of a large integer. *)
Lemma of_pos_large n :
  two53 <= n -> exists q,
    of_pos n = (Z.log2 n + 1023) * two52 + (q - two52) /\ two52 <= q <= 2 * two52 /\ 53 <= Z.log2 n.
Proof.
  intros Hn. assert (53 <= Z.log2 n) as He by (apply Z.log2_le_pow2; [unfold two53 in Hn; lia|done]).
  unfold of_pos. rewrite (proj2 (Z.leb_gt _ _)) by lia.
  eexists; split; [reflexivity|]. split; [|done].
  pose proof (Z.log2_spec n ltac:(unfold two53 in Hn; lia)) as [H1 H2].
  set (s := Z.log2 n - 52) in *.
  assert (0 < 2 ^ s) by (apply Z.pow_pos_nonneg; lia).
  assert (two52 <= n / 2 ^ s < 2 * two52).
  { split.
    - apply Z.div_le_lower_bound; [lia|]. unfold two52. rewrite <- Z.pow_add_r by lia.
      by replace (s + 52) with (Z.log2 n) by lia.
    - apply Z.div_lt_upper_bound; [lia|]. unfold two52.
      rewrite Z.mul_comm, <- Z.mul_assoc, <- Z.pow_add_r, <- Z.pow_succ_r by lia.
      by replace (Z.succ (52 + s)) with (Z.succ (Z.log2 n)) by lia. }
  destruct (_ || _); lia.
Qed.

Lemma of_pos_range n : 0 < n < two64 -> two52 <= of_pos n < inf_mag.
Proof.
  intros [Hn Hb]. pose proof (Z.log2_nonneg n).
  assert (Z.log2 n < 64) by (apply Z.log2_lt_pow2; [lia|exact Hb]).
  assert (two52 = 4503599627370496) by reflexivity.
  destruct (Z_lt_le_dec n two53) as [Hs|Hl].
  - assert (Z.log2 n < 53) by (by apply Z.log2_lt_pow2).
    pose proof (log2_significand n Hn ltac:(lia)).
    unfold of_pos. rewrite (proj2 (Z.leb_le _ _)) by lia. unfold inf_mag. nia.
  - destruct (of_pos_large n Hl) as (q & -> & Hq & ?). unfold inf_mag. nia.
Qed.

Lemma of_pos_ge_two53 n : two53 <= n < two64 -> two53 * unit1074 <= mag_num (of_pos n).
Proof.
  intros [Hl Hb]. destruct (of_pos_large n Hl) as (q & -> & Hq & He).
  replace (two53 * unit1074) with (mag_num (1076 * two52)) by (vm_compute; reflexivity).
  apply Z.le_ngt. intros Hlt%Z.compare_lt_iff.
  assert (two52 = 4503599627370496) by reflexivity.
  rewrite mag_num_compare, Z.compare_lt_iff in Hlt by lia. nia.
Qed.

Lemma inf_mag_lt : inf_mag < two63.
Proof. reflexivity. Qed.

Lemma of_int_u64 z : i64 z -> u64 (of_int z).
Proof.
  intros H. unfold of_int. pose proof inf_mag_lt. zcases; [solve_width| |].
  - pose proof (of_pos_range z ltac:(solve_width)). unfold two52 in *. solve_width.
  - pose proof (of_pos_range (- z) ltac:(solve_width)). unfold two52 in *. solve_width.
Qed.

Lemma of_int_not_nan z : i64 z -> is_nan (of_int z) = false.
Proof.
  intros H. unfold of_int, is_nan. pose proof inf_mag_lt. apply Z.ltb_ge.
  zcases; [by vm_compute| |].
  - pose proof (of_pos_range z ltac:(solve_width)).
    rewrite mag_pos by (unfold two52 in *; lia). lia.
  - pose proof (of_pos_range (- z) ltac:(solve_width)).
    rewrite mag_neg by (unfold two52 in *; lia). lia.
Qed.

(** The conversion is exact below [2^53] ... *)
Lemma of_int_exact z : - two53 < z < two53 -> fnum (of_int z) = z * unit1074.
Proof.
  intros H. assert (two53 = 9007199254740992) by reflexivity.
  pose proof inf_mag_lt. assert (0 < two52) by easy.
  unfold of_int. zcases; [by subst| |].
  - pose proof (of_pos_range z ltac:(solve_width)).
    rewrite fnum_pos, of_pos_exact by lia. done.
  - pose proof (of_pos_range (- z) ltac:(solve_width)).
    rewrite fnum_neg, of_pos_exact by lia. lia.
Qed.

(** ... and beyond it never comes back below [2^53]. *)
Lemma of_int_large z : i64 z -> two53 <= z -> two53 * unit1074 <= fnum (of_int z).
Proof.
  intros H Hz. assert (two53 = 9007199254740992) by reflexivity.
  pose proof inf_mag_lt. assert (0 < two52) by easy.
  pose proof (of_pos_range z ltac:(solve_width)).
  pose proof (of_pos_ge_two53 z ltac:(solve_width)).
  unfold of_int. zcases; try lia. by rewrite fnum_pos by lia.
Qed.

Lemma of_int_large_neg z : i64 z -> z <= - two53 -> fnum (of_int z) <= - (two53 * unit1074).
Proof.
  intros H Hz. assert (two53 = 9007199254740992) by reflexivity.
  pose proof inf_mag_lt. assert (0 < two52) by easy.
  pose proof (of_pos_range (- z) ltac:(solve_width)).
  pose proof (of_pos_ge_two53 (- z) ltac:(solve_width)).
  unfold of_int. zcases; try lia. rewrite fnum_neg by lia. lia.
Qed.

Lemma of_int_zero_iff z : i64 z -> (fnum (of_int z) = 0 <-> z = 0).
Proof.
  intros H. assert (0 < unit1074) by easy. assert (two53 = 9007199254740992) by reflexivity.
  destruct (Z_lt_le_dec z two53), (Z_lt_le_dec (- two53) z).
  - rewrite of_int_exact by lia. nia.
  - pose proof (of_int_large_neg z H ltac:(lia)). nia.
  - pose proof (of_int_large z H ltac:(lia)). nia.
  - lia.
Qed.

(** Integral floats below [2^53] are hit by exactly one integer, their truncation. *)
Lemma of_int_eq_iff z b :
  i64 z -> Z.abs (fnum b) < two53 * unit1074 ->
  (fnum (of_int z) = fnum b <-> is_integral b = true /\ z = to_int b).
Proof.
  intros Hz Hb. assert (0 < unit1074) by easy. assert (two53 = 9007199254740992) by reflexivity.
  assert (- two53 < z < two53 <-> Z.abs (fnum (of_int z)) < two53 * unit1074) as Hr.
  { destruct (Z_lt_le_dec z two53), (Z_lt_le_dec (- two53) z); try lia.
    - rewrite of_int_exact by lia. nia.
    - pose proof (of_int_large_neg z Hz ltac:(lia)). lia.
    - pose proof (of_int_large z Hz ltac:(lia)). lia. }
  unfold is_integral, to_int. rewrite Z.eqb_eq. split.
  - intros E. rewrite E in Hr. apply Hr in Hb. rewrite of_int_exact in E by done.
    rewrite <- E, Z.mod_mul, Z.quot_mul by lia. done.
  - intros [Hm ->]. apply Z.mod_divide in Hm as [k Hk]; [|lia].
    rewrite Hk in *. rewrite Z.quot_mul by lia. apply of_int_exact. nia.
Qed.

End Float64.
