(* ===== verification/FloatArith.v ===== *)
(** * FloatArith: IEEE-754 arithmetic on bit patterns

    The float64 operators of Go ([+], [-], [*], [/]) and the functions of
    package math the executor calls.  A pattern is unpacked into the exact
    triple of [SpecFloat], the operation is the correctly rounded one with 53
    bits of precision, and the result is packed again.  The payload of a NaN
    is not specified by Go; [pack] gives that of [math.NaN]. *)
From Corelib Require Import SpecFloat.
From S2P Require Import Prelude Float64.
Import Float64.

Module FloatArith.

Definition prec : Z := 53.
Definition emax : Z := 1024.

(** The value a pattern denotes. *)
Definition unpack (b : Z) : spec_float :=
  let m := mag b in
  let frac := m mod two52 in
  if is_nan b then S754_nan
  else if is_inf b then S754_infinity (sgn b)
  else match (if m / two52 =? 0 then frac else frac + two52) with
  | Zpos p => S754_finite (sgn b) p (if m / two52 =? 0 then -1074 else m / two52 - 1075)
  | _ => S754_zero (sgn b)
  end.

Definition sign_bit (s : bool) : Z := if s then two63 else 0.

(** The pattern of a canonical triple: 63 bits of magnitude under the sign. *)
Definition pack (f : spec_float) : Z :=
  match f with
  | S754_nan => nan
  | S754_zero s => sign_bit s
  | S754_infinity s => sign_bit s + inf_mag
  | S754_finite s m e =>
      let m := Zpos m in
      sign_bit s + Z.land (if m <? two52 then m else (e + 1074) * two52 + m) (Z.ones 63)
  end.

Definition fadd (a b : Z) : Z := pack (SFadd prec emax (unpack a) (unpack b)).
Definition fsub (a b : Z) : Z := pack (SFsub prec emax (unpack a) (unpack b)).
Definition fmul (a b : Z) : Z := pack (SFmul prec emax (unpack a) (unpack b)).
Definition fdiv (a b : Z) : Z := pack (SFdiv prec emax (unpack a) (unpack b)).

(** [math.Sqrt], [math.Abs], [math.Floor] and [math.Ceil]. *)
Definition fsqrt (a : Z) : Z := pack (SFsqrt prec emax (unpack a)).
Definition fabs (a : Z) : Z := mag a.
Definition ffloor (a : Z) : Z :=
  if is_nan a || is_inf a || is_integral a then a else of_int (floor_int a).
Definition fceil (a : Z) : Z := fneg (ffloor (fneg a)).

(** ** Every operation gives a 64-bit pattern *)
Lemma pack_u64 f : u64 (pack f).
Proof.
  unfold pack, sign_bit. destruct f as [[]|[]| |[] m e].
  1-5: vm_compute; split; congruence.
  all: pose proof (Z.mod_pos_bound (if Z.pos m <? two52 then Z.pos m else (e + 1074) * two52 + Z.pos m) (2 ^ 63) ltac:(lia)).
  all: rewrite Z.land_ones by lia; solve_width.
Qed.

Lemma mag_u64 b : u64 (mag b).
Proof.
  unfold mag. rewrite Z.land_ones by lia. pose proof (Z.mod_pos_bound b (2 ^ 63) ltac:(lia)). solve_width.
Qed.

Lemma fneg_u64 b : u64 b -> u64 (fneg b).
Proof.
  intros H. unfold u64, two64 in *. unfold fneg, two63.
  assert (Z.lxor b (2 ^ 63) = Z.lxor b (2 ^ 63) mod 2 ^ 64) as ->; [|apply Z.mod_pos_bound; lia].
  rewrite <- Z.land_ones by lia. apply Z.bits_inj'. intros i Hi. rewrite Z.land_spec, Z.testbit_ones by lia.
  destruct (Z.ltb_spec i 64) as [|Hge]; [by rewrite (proj2 (Z.leb_le 0 i)), andb_true_r by lia|].
  rewrite andb_false_r, andb_false_r, Z.lxor_spec. rewrite Z.pow2_bits_false by lia.
  destruct (decide (b = 0)) as [->|]; [by rewrite Z.testbit_0_l|].
  rewrite Z.bits_above_log2; [done|lia|]. apply Z.lt_le_trans with 64; [|done]. apply Z.log2_lt_pow2; lia.
Qed.

(** A value with a fractional part is below 2^52 in magnitude. *)
Lemma fractional_bound b : is_integral b = false -> Z.abs (fnum b) < two52 * unit1074.
Proof.
  intros Hi. unfold is_integral in Hi. apply Z.eqb_neq in Hi.
  pose proof (mag_range b) as [Hm _]. pose proof (mag_num_nonneg _ Hm) as Hp.
  assert (Z.abs (fnum b) = mag_num (mag b)) as -> by (unfold fnum; destruct (sgn b); lia).
  eapply Z.lt_le_trans; [by apply mag_num_upper|]. apply Z.mul_le_mono_nonneg_l; [vm_compute; congruence|].
  unfold unit1074. apply Z.pow_le_mono_r; [lia|]. destruct (Z_le_gt_dec (mag b / two52) 1074) as [|Hgt]; [done|].
  exfalso. apply Hi. assert (exists k, fnum b = k * unit1074) as [k ->]; [|by apply Z.mod_mul].
  assert (exists k, mag_num (mag b) = k * unit1074) as [k Hk].
  { unfold mag_num. destruct (Z.eqb_spec (mag b / two52) 0); [lia|].
    exists ((two52 + mag b mod two52) * 2 ^ (mag b / two52 - 1075)). rewrite <- Z.mul_assoc. f_equal.
    unfold unit1074. rewrite <- Z.pow_add_r by lia. f_equal. lia. }
  unfold fnum. destruct (sgn b); [exists (- k)|exists k]; lia.
Qed.

Lemma ffloor_u64 b : u64 b -> u64 (ffloor b).
Proof.
  intros Hb. unfold ffloor. destruct (is_nan b || is_inf b || is_integral b) eqn:E; [done|].
  apply orb_false_iff in E as [_ Hi]. apply of_int_u64. unfold floor_int.
  pose proof (fractional_bound b Hi) as Hlt. assert (0 < unit1074) as Hu by done.
  assert (- two52 <= fnum b / unit1074 < two52) as Hr.
  { split; [apply Z.div_le_lower_bound|apply Z.div_lt_upper_bound]; lia. }
  assert (two52 < two63) by done. unfold i64. lia.
Qed.

Lemma fceil_u64 b : u64 b -> u64 (fceil b).
Proof. intros Hb. by apply fneg_u64, ffloor_u64, fneg_u64. Qed.
End FloatArith.
