(* ===== verification/Values.v ===== *)
(** * Values: dynamic values and their equalities

    [value] is the [any] the engine computes with.  A Go map with string keys is
    its list of entries in ascending key order, which is one canonical list per
    map; [value_ok] states that and the ranges of the fixed-width kinds.  The
    functions are those of src/internal/graph/values.go and [uniqueValue] of
    src/internal/graph/unique.go. *)
From S2P Require Import Prelude Float64.
Import Float64.

#[local] Set Warnings "-register-all".

(** ** The dynamic values *)
Inductive value : Type :=
| VNull
| VBool (b : bool)
| VGoInt (z : Z)                      (* Go int, before normalize *)
| VInt (z : Z)                        (* int64 *)
| VFloat (bits : Z)                   (* float64, by its bit pattern *)
| VStr (s : bytes)
| VList (l : list value)              (* []any *)
| VMap (m : list (bytes * value))     (* map[string]any *)
| VNode (id : Z) (labels : list Z) (props : list (Z * value))
| VEdge (id typ src dst : Z) (props : list (Z * value))
| VPath (nodes rels : list value)     (* graph.Path *)
| VEdges (es : list value).           (* []graph.Edge *)

(** Induction with the hypothesis for every element of a nested list. *)
Section value_induction.
Variable P : value -> Prop.
Hypothesis HNull : P VNull.
Hypothesis HBool : forall b, P (VBool b).
Hypothesis HGoInt : forall z, P (VGoInt z).
Hypothesis HInt : forall z, P (VInt z).
Hypothesis HFloat : forall b, P (VFloat b).
Hypothesis HStr : forall s, P (VStr s).
Hypothesis HList : forall l, Forall P l -> P (VList l).
Hypothesis HMap : forall m, Forall (fun kv => P kv.2) m -> P (VMap m).
Hypothesis HNode : forall i ls ps, Forall (fun kv => P kv.2) ps -> P (VNode i ls ps).
Hypothesis HEdge : forall i t s d ps, Forall (fun kv => P kv.2) ps -> P (VEdge i t s d ps).
Hypothesis HPath : forall ns rs, Forall P ns -> Forall P rs -> P (VPath ns rs).
Hypothesis HEdges : forall es, Forall P es -> P (VEdges es).

Fixpoint value_ind' (v : value) : P v :=
  let all := fix all (l : list value) : Forall P l :=
    match l with
    | [] => Forall_nil_2 _
    | x :: l' => Forall_cons_2 _ x l' (value_ind' x) (all l')
    end in
  let alls := fix alls (l : list (bytes * value)) : Forall (fun kv => P kv.2) l :=
    match l with
    | [] => Forall_nil_2 _
    | kv :: l' => Forall_cons_2 (fun kv => P kv.2) kv l' (value_ind' kv.2) (alls l')
    end in
  let allz := fix allz (l : list (Z * value)) : Forall (fun kv => P kv.2) l :=
    match l with
    | [] => Forall_nil_2 _
    | kv :: l' => Forall_cons_2 (fun kv => P kv.2) kv l' (value_ind' kv.2) (allz l')
    end in
  match v with
  | VNull => HNull
  | VBool b => HBool b
  | VGoInt z => HGoInt z
  | VInt z => HInt z
  | VFloat b => HFloat b
  | VStr s => HStr s
  | VList l => HList l (all l)
  | VMap m => HMap m (alls m)
  | VNode i ls ps => HNode i ls ps (allz ps)
  | VEdge i t s d ps => HEdge i t s d ps (allz ps)
  | VPath ns rs => HPath ns rs (all ns) (all rs)
  | VEdges es => HEdges es (all es)
  end.
End value_induction.

#[global] Instance value_eq_dec : EqDecision value.
Proof.
  unshelve refine (fix go (a b : value) : Decision (a = b) :=
    let golist := fix golist (l k : list value) : Decision (l = k) :=
      match l, k with
      | [], [] => left eq_refl
      | x :: l, y :: k => cast_if_and (go x y) (golist l k)
      | _, _ => right _
      end in
    let gomap := fix gomap (l k : list (bytes * value)) : Decision (l = k) :=
      match l, k with
      | [], [] => left eq_refl
      | (i, x) :: l, (j, y) :: k => cast_if_and3 (decide (i = j)) (go x y) (gomap l k)
      | _, _ => right _
      end in
    let goz := fix goz (l k : list (Z * value)) : Decision (l = k) :=
      match l, k with
      | [], [] => left eq_refl
      | (i, x) :: l, (j, y) :: k => cast_if_and3 (decide (i = j)) (go x y) (goz l k)
      | _, _ => right _
      end in
    match a, b with
    | VNull, VNull => left eq_refl
    | VBool x, VBool y => cast_if (decide (x = y))
    | VGoInt x, VGoInt y => cast_if (decide (x = y))
    | VInt x, VInt y => cast_if (decide (x = y))
    | VFloat x, VFloat y => cast_if (decide (x = y))
    | VStr x, VStr y => cast_if (decide (x = y))
    | VList x, VList y => cast_if (golist x y)
    | VMap x, VMap y => cast_if (gomap x y)
    | VNode i l p, VNode j k q => cast_if_and3 (decide (i = j)) (decide (l = k)) (goz p q)
    | VEdge i t s d p, VEdge i' t' s' d' p' =>
        cast_if_and5 (decide (i = i')) (decide (t = t')) (decide (s = s')) (decide (d = d')) (goz p p')
    | VPath n r, VPath n' r' => cast_if_and (golist n n') (golist r r')
    | VEdges x, VEdges y => cast_if (golist x y)
    | _, _ => right _
    end); repeat match goal with f : forall _ _ : _, Decision _ |- _ => clear f end; abstract congruence.
Defined.

(** Strictly ascending keys: the canonical list of a map. *)
Definition keys_sorted {A} (m : list (bytes * A)) : Prop := StronglySorted blt m.*1.

(** Well-formed values: every machine integer in its range, every string made
    of bytes, every map canonical. *)
Fixpoint value_ok (v : value) : Prop :=
  match v with
  | VNull | VBool _ => True
  | VGoInt z | VInt z => i64 z
  | VFloat b => u64 b
  | VStr s => bytes_ok s
  | VList l | VEdges l => foldr (fun x acc => value_ok x /\ acc) True l
  | VMap m =>
      keys_sorted m /\ foldr (fun kv acc => (bytes_ok kv.1 /\ value_ok kv.2) /\ acc) True m
  | VNode i ls ps =>
      u64 i /\ Forall u32 ls /\ foldr (fun kv acc => (u32 kv.1 /\ value_ok kv.2) /\ acc) True ps
  | VEdge i t s d ps =>
      u64 i /\ u32 t /\ u64 s /\ u64 d /\
      foldr (fun kv acc => (u32 kv.1 /\ value_ok kv.2) /\ acc) True ps
  | VPath ns rs =>
      foldr (fun x acc => value_ok x /\ acc) True ns /\
      foldr (fun x acc => value_ok x /\ acc) True rs
  end.

Lemma foldr_and_Forall {A} (P : A -> Prop) l :
  foldr (fun x acc => P x /\ acc) True l <-> Forall P l.
Proof.
  induction l as [|x l IH]; simpl; [split; constructor|].
  rewrite IH. split; [by intros []; constructor|by inversion 1].
Qed.

(** ** src/internal/graph/values.go *)

Definition normalize (v : value) : value :=
  match v with VGoInt z => VInt z | _ => v end.

(** [v == nil]. *)
Definition is_null (v : value) : bool := match v with VNull => true | _ => false end.

Definition IsIndexable (v : value) : bool :=
  match v with
  | VNull | VBool _ | VInt _ | VFloat _ | VStr _ => true
  | _ => false
  end.

Definition isIndexable (v : value) : bool := IsIndexable v.

(** [sameValue]: same stored value, floats by their bits. *)
Definition sameValue (a b : value) : bool :=
  match normalize a, normalize b with
  | VNull, VNull => true
  | VBool x, VBool y => Bool.eqb x y
  | VInt x, VInt y => x =? y
  | VFloat x, VFloat y => x =? y
  | VStr x, VStr y => bool_decide (x = y)
  | _, _ => false
  end.

(** [QueryEqual]: the equality of queries on scalars. *)
Definition QueryEqual (a b : value) : bool :=
  match normalize a, normalize b with
  | VBool x, VBool y => Bool.eqb x y
  | VStr x, VStr y => bool_decide (x = y)
  | VInt x, VInt y => x =? y
  | VInt x, VFloat y => feq (of_int x) y
  | VFloat x, VInt y => feq x (of_int y)
  | VFloat x, VFloat y => feq x y
  | _, _ => false
  end.

(** [maxExactInt] as a float bound: [math.Abs(x) >= 1<<53]. *)
Definition maxExactInt : Z := two53.
Definition abs_ge_exact (x : Z) : bool := maxExactInt * unit1074 <=? Z.abs (fnum x).

(** [equalityProbes]: the stored values whose index keys a lookup must visit. *)
Definition equalityProbes (v : value) : list value * bool :=
  match v with
  | VInt x =>
      let f := of_int x in
      if feq f pzero then ([VInt x; VFloat f; VFloat nzero], true)
      else ([VInt x; VFloat f], true)
  | VFloat x =>
      if is_nan x then ([], true)
      else if feq x pzero then ([VInt 0; VFloat pzero; VFloat nzero], true)
      else if is_inf x then ([VFloat x], true)
      else if abs_ge_exact x then ([], false)
      else if is_integral x then ([VFloat x; VInt (to_int x)], true)
      else ([VFloat x], true)
  | _ => ([v], true)
  end.

(** [uniqueValue] (src/internal/graph/unique.go): the form an owner key is
    built from; [None] for NaN. *)
Definition uniqueValue (v : value) : option value :=
  match v with
  | VFloat f =>
      if is_nan f then None
      else if is_integral f && (- two63 * unit1074 <=? fnum f) && (fnum f <? two63 * unit1074)
      then Some (VInt (to_int f))
      else Some (VFloat f)
  | _ => Some v
  end.

(** ** Facts *)

(** The stored form of a property: normalized and in range. *)
Definition stored_ok (v : value) : Prop := value_ok v /\ normalize v = v.

Lemma is_null_spec v : is_null v = true <-> v = VNull.
Proof. by destruct v. Qed.
Lemma is_null_false v : v <> VNull -> is_null v = false.
Proof. by destruct v. Qed.

Lemma normalize_idem v : normalize (normalize v) = normalize v.
Proof. by destruct v. Qed.

Lemma normalize_ok v : value_ok v -> stored_ok (normalize v).
Proof. destruct v; simpl; split; done. Qed.

(** Tactic for the scalar case analyses below. *)
Ltac scalar_cases :=
  repeat match goal with
  | H : stored_ok _ |- _ => destruct H as [? ?]
  | v : value |- _ => is_var v; destruct v
  end; simplify_eq/=; try done.

Lemma sameValue_eq a b :
  stored_ok a -> stored_ok b -> isIndexable a = true -> (sameValue a b = true <-> a = b).
Proof.
  intros Ha Hb Hi. destruct a, b; simpl in *; try done;
    destruct Ha as [? Ha], Hb as [? Hb]; simpl in *; try done.
  all: unfold sameValue; simpl; rewrite ?eqb_true_iff, ?Z.eqb_eq, ?bool_decide_eq_true;
    split; intros; congruence.
Qed.

Lemma feq_spec a b :
  u64 a -> u64 b ->
  feq a b = true <-> is_nan a = false /\ is_nan b = false /\ (a = b \/ (mag a = 0 /\ mag b = 0)).
Proof.
  intros Ha Hb. unfold feq. rewrite !andb_true_iff, !negb_true_iff, Z.eqb_eq, fnum_eq_iff by done.
  tauto.
Qed.

Lemma feq_sym a b : feq a b = feq b a.
Proof. unfold feq. rewrite (Z.eqb_sym (fnum a)), (andb_comm (negb (is_nan a))). done. Qed.

Lemma QueryEqual_sym a b : QueryEqual a b = QueryEqual b a.
Proof.
  unfold QueryEqual. destruct (normalize a), (normalize b); try done.
  - by destruct b0, b1.
  - apply Z.eqb_sym.
  - apply feq_sym.
  - apply feq_sym.
  - apply feq_sym.
  - apply bool_decide_ext. naive_solver.
Qed.

Lemma is_nan_zero a : mag a = 0 -> is_nan a = false.
Proof. intros E. unfold is_nan. rewrite E. reflexivity. Qed.

Lemma feq_zero x : u64 x -> feq x pzero = true <-> mag x = 0.
Proof.
  intros H. rewrite feq_spec by (done || (unfold pzero; solve_width)). split.
  - intros (_ & _ & [->|[? _]]); [reflexivity|done].
  - intros E. repeat split; [by apply is_nan_zero|by right].
Qed.

(** ** Index lookups visit exactly the equal values *)

Lemma QueryEqual_indexable s v : QueryEqual s v = true -> stored_ok s -> isIndexable s = true.
Proof. intros H [_ Hn]. destruct s; simpl in *; try done. Qed.

(** Kinds that can neither be equal to the value nor be one of its probes. *)
Ltac other_kinds := try (first [done | split; [done | intros; destruct_or?; done]]).

(** Float against float: the same pattern, or two zeros. *)
Lemma feq_nonzero x y : u64 x -> u64 y -> mag y <> 0 -> is_nan y = false -> (feq x y = true <-> x = y).
Proof.
  intros Hx Hy Hz Hn. rewrite feq_spec by done. split.
  - intros (_ & _ & [|[_ ?]]); [done|tauto].
  - intros ->. auto.
Qed.

Lemma feq_zero_iff x y : u64 x -> u64 y -> mag y = 0 -> (feq x y = true <-> x = pzero \/ x = nzero).
Proof.
  intros Hx Hy Hz. rewrite feq_spec, <- mag_zero_iff by done. split.
  - intros (_ & _ & [->|[? _]]); done.
  - intros E. auto using is_nan_zero.
Qed.

Lemma mag_of_int_zero x : i64 x -> (mag (of_int x) = 0 <-> x = 0).
Proof. intros. by rewrite <- fnum_zero, of_int_zero_iff. Qed.

Lemma probes_int s x :
  stored_ok s -> i64 x -> (QueryEqual s (VInt x) = true <-> s ∈ (equalityProbes (VInt x)).1).
Proof.
  intros [Hs Hn] Hx. pose proof (of_int_u64 x Hx) as Hu. pose proof (of_int_not_nan x Hx).
  unfold equalityProbes. destruct (feq (of_int x) pzero) eqn:Ez; simpl;
    rewrite !elem_of_cons, elem_of_nil; destruct s; other_kinds;
    unfold QueryEqual; simpl in *; rewrite ?Z.eqb_eq.
  1,3: naive_solver.
  - apply feq_zero in Ez; [|done]. rewrite feq_zero_iff by done.
    assert (x = 0) as -> by (by apply mag_of_int_zero). change (of_int 0) with pzero.
    naive_solver.
  - assert (mag (of_int x) <> 0) by (intros E%feq_zero; [congruence|done]).
    rewrite feq_nonzero by done. naive_solver.
Qed.

Lemma feq_of_int z x :
  i64 z -> u64 x -> is_nan x = false -> abs_ge_exact x = false ->
  (feq (of_int z) x = true <-> is_integral x = true /\ z = to_int x).
Proof.
  intros Hz Hx Hn Ha. unfold abs_ge_exact in Ha. rewrite Z.leb_gt in Ha.
  unfold feq. rewrite of_int_not_nan, Hn by done. cbn [negb andb]. rewrite Z.eqb_eq.
  rewrite of_int_eq_iff by done. tauto.
Qed.

Lemma feq_of_int_inf z x : i64 z -> is_inf x = true -> feq (of_int z) x = false.
Proof.
  intros Hz Hi. unfold is_inf in Hi. rewrite Z.eqb_eq in Hi.
  destruct (feq (of_int z) x) eqn:E; [|done]. unfold feq in E.
  rewrite !andb_true_iff, Z.eqb_eq in E. destruct E as [_ E]. exfalso.
  pose proof inf_mag_lt. assert (0 < two52) by easy.
  assert (mag_num inf_mag <= Z.abs (fnum x)) as Hx.
  { unfold fnum. rewrite Hi. destruct (sgn x); lia. }
  rewrite <- E in Hx. revert Hx. apply Z.lt_nge.
  unfold of_int. zcases; [by vm_compute| |].
  - pose proof (of_pos_range z ltac:(solve_width)).
    rewrite fnum_pos, Z.abs_eq by (try apply mag_num_nonneg; lia). apply mag_num_lt. lia.
  - pose proof (of_pos_range (- z) ltac:(solve_width)).
    rewrite fnum_neg, Z.abs_opp, Z.abs_eq by (try apply mag_num_nonneg; lia). apply mag_num_lt. lia.
Qed.

Lemma probes_float s x ps :
  stored_ok s -> u64 x -> equalityProbes (VFloat x) = (ps, true) ->
  (QueryEqual s (VFloat x) = true <-> s ∈ ps).
Proof.
  intros [Hs Hn] Hx. unfold equalityProbes.
  destruct (is_nan x) eqn:Enan; [|destruct (feq x pzero) eqn:Ez;
    [|destruct (is_inf x) eqn:Einf; [|destruct (abs_ge_exact x) eqn:Eb; [|destruct (is_integral x) eqn:Ei]]]];
    intros [= <-]; rewrite ?elem_of_cons, elem_of_nil; destruct s; other_kinds;
    unfold QueryEqual; simpl in *.
  1,2: unfold feq; rewrite Enan, ?andb_false_r; naive_solver.
  1,2: apply feq_zero in Ez; [|done].
  3-8: assert (mag x <> 0) by (intros E%feq_zero; [congruence|done]).
  - rewrite feq_zero_iff, <- mag_zero_iff, mag_of_int_zero by auto using of_int_u64.
    naive_solver.
  - rewrite feq_zero_iff by done. naive_solver.
  - rewrite feq_of_int_inf by done. naive_solver.
  - rewrite feq_nonzero by done. naive_solver.
  - rewrite feq_of_int by done. naive_solver.
  - rewrite feq_nonzero by done. naive_solver.
  - rewrite feq_of_int by done. split; [intros []; congruence|intros [|]; done].
  - rewrite feq_nonzero by done. naive_solver.
Qed.

(** The general form: membership among the probes. *)
Lemma probes_exact s v ps :
  stored_ok s -> stored_ok v -> isIndexable v = true -> v <> VNull ->
  equalityProbes v = (ps, true) -> (QueryEqual s v = true <-> s ∈ ps).
Proof.
  intros Hs Hv Hi Hnull E. destruct v; try done; destruct Hv as [Hv _]; simpl in Hv.
  - injection E as <-. rewrite elem_of_cons, elem_of_nil. destruct Hs as [? Hn].
    destruct s; other_kinds. unfold QueryEqual; simpl.
    rewrite eqb_true_iff. naive_solver.
  - rewrite probes_int by done. by rewrite E.
  - by apply probes_float.
  - injection E as <-. rewrite elem_of_cons, elem_of_nil. destruct Hs as [? Hn].
    destruct s; other_kinds. unfold QueryEqual; simpl.
    rewrite bool_decide_eq_true. naive_solver.
Qed.

Lemma probes_ok v ps b :
  stored_ok v -> equalityProbes v = (ps, b) -> isIndexable v = true ->
  Forall (fun p => stored_ok p /\ isIndexable p = true) ps.
Proof.
  intros [Hv Hn] E Hi. assert (stored_ok (VInt 0)) by (split; [simpl; solve_width|done]).
  assert (stored_ok (VFloat pzero)) by (split; [unfold pzero; simpl; solve_width|done]).
  assert (stored_ok (VFloat nzero)) by (split; [unfold nzero; simpl; solve_width|done]).
  destruct v; try done; simpl in E, Hv; repeat case_match; simplify_eq;
    repeat (apply Forall_cons_2; [split; [first [done|(split; [try done|done])]|done]|]);
    try apply Forall_nil_2; simpl.
  - by apply of_int_u64.
  - by apply of_int_u64.
  - unfold abs_ge_exact, to_int, maxExactInt in *. rewrite Z.leb_gt in *.
    assert (two53 = 9007199254740992) by reflexivity. assert (0 < unit1074) by easy.
    assert (Z.abs (Z.quot (fnum bits) unit1074) < two53).
    { rewrite <- Z.quot_abs by lia. rewrite (Z.abs_eq unit1074) by lia.
      apply Z.quot_lt_upper_bound; lia. }
    solve_width.
Qed.

(** ** Owner keys and query equality *)

(** Integers that a float64 represents exactly. *)
Definition exact_int (v : value) : Prop :=
  match v with VInt z => - two53 < z < two53 | _ => True end.

(** The integral floats of the int64 range, for which the owner is an integer. *)
Definition int_valued (f : Z) : bool :=
  is_integral f && (- two63 * unit1074 <=? fnum f) && (fnum f <? two63 * unit1074).

Lemma int_valued_num f : int_valued f = true -> fnum f = to_int f * unit1074.
Proof.
  unfold int_valued, is_integral, to_int. rewrite !andb_true_iff, Z.eqb_eq. intros [[H _] _].
  assert (unit1074 <> 0) by easy. apply Z.mod_divide in H as [k ->]; [|done].
  by rewrite Z.quot_mul.
Qed.

Lemma int_valued_fnum f g : fnum f = fnum g -> int_valued f = int_valued g /\ to_int f = to_int g.
Proof. intros E. unfold int_valued, is_integral, to_int. by rewrite E. Qed.

Lemma int_valued_exact f z : - two53 < z < two53 -> fnum f = z * unit1074 -> int_valued f = true /\ to_int f = z.
Proof.
  intros Hz E. unfold int_valued, is_integral, to_int. rewrite E.
  assert (0 < unit1074) by easy. assert (two53 = 9007199254740992) by reflexivity.
  rewrite Z.mod_mul, Z.quot_mul, Z.eqb_refl by lia.
  rewrite (proj2 (Z.leb_le _ _)), (proj2 (Z.ltb_lt _ _)); [done| |]; unfold two63; nia.
Qed.

Lemma uniqueValue_float f :
  uniqueValue (VFloat f) =
  if is_nan f then None else if int_valued f then Some (VInt (to_int f)) else Some (VFloat f).
Proof. reflexivity. Qed.

Lemma unique_int_float z f :
  - two53 < z < two53 -> is_nan f = false ->
  (uniqueValue (VFloat f) = Some (VInt z) <-> feq (of_int z) f = true).
Proof.
  intros Hz Hn. rewrite uniqueValue_float, Hn. unfold feq.
  assert (i64 z) by (assert (two53 = 9007199254740992) by reflexivity; solve_width).
  rewrite of_int_not_nan, Hn by done. cbn [negb andb]. rewrite Z.eqb_eq, of_int_exact by done. split.
  - destruct (int_valued f) eqn:Ef; intros [= <-]. by rewrite int_valued_num.
  - intros E. by destruct (int_valued_exact f z Hz (eq_sym E)) as [-> ->].
Qed.

Lemma unique_float_float f g :
  u64 f -> u64 g ->
  ((exists c, uniqueValue (VFloat f) = Some c /\ uniqueValue (VFloat g) = Some c) <-> feq f g = true).
Proof.
  intros Hf Hg. rewrite !uniqueValue_float. unfold feq.
  destruct (is_nan f) eqn:Ef, (is_nan g) eqn:Eg; try (split; [by intros (? & ? & ?)|done]).
  cbn [negb andb]. rewrite Z.eqb_eq. split.
  - intros (c & H1 & H2). destruct (int_valued f) eqn:If, (int_valued g) eqn:Ig; simplify_eq.
    + rewrite (int_valued_num f), (int_valued_num g) by done. congruence.
    + done.
  - intros E. destruct (int_valued_fnum f g E) as [-> ->]. destruct (int_valued g) eqn:Ig; [eauto|].
    apply fnum_eq_iff in E as [->|[Mf Mg]]; [eauto| |done|done].
    assert (fnum g = 0) as E0 by (by apply fnum_zero).
    assert (int_valued g = true); [|congruence].
    apply (int_valued_exact g 0); [split; reflexivity|done].
Qed.

Lemma unique_same (a b : value) :
  stored_ok a -> stored_ok b -> isIndexable a = true -> isIndexable b = true ->
  a <> VNull -> b <> VNull -> exact_int a -> exact_int b ->
  ((exists c, uniqueValue a = Some c /\ uniqueValue b = Some c) <-> QueryEqual a b = true).
Proof.
  intros [Ha _] [Hb _] Ia Ib Na Nb Ea Eb.
  destruct a, b; try done; simpl in Ha, Hb, Ea, Eb; unfold QueryEqual; cbn [normalize].
  all: try (simpl; split; [intros (? & ? & ?); congruence|done]).
  all: try (simpl; split; [intros (? & ? & H); repeat case_match; simplify_eq; done|done]).
  all: try (rewrite ?eqb_true_iff, ?Z.eqb_eq, ?bool_decide_eq_true; simpl;
    split; [intros (? & ? & ?); congruence|intros ->; by eexists]).
  - destruct (is_nan bits) eqn:En.
    + unfold feq. rewrite En, uniqueValue_float, En. rewrite andb_false_r. naive_solver.
    + rewrite <- unique_int_float by done. split; [intros (c & [= <-] & ?); done|eauto].
  - rewrite feq_sym. destruct (is_nan bits) eqn:En.
    + unfold feq. rewrite En, uniqueValue_float, En. rewrite andb_false_r. naive_solver.
    + rewrite <- unique_int_float by done. split; [intros (c & ? & [= <-]); done|eauto].
  - by apply unique_float_float.
Qed.

(** under a unique constraint two stored values collide on the same owner
    key exactly when a query considers them equal, for every pair of scalar
    values whose integers are below 2^53 in magnitude. *)
Theorem uniqueValue_iff_QueryEqual (a b : value) :
  stored_ok a -> stored_ok b -> isIndexable a = true -> isIndexable b = true ->
  a <> VNull -> b <> VNull -> exact_int a -> exact_int b ->
  ((exists c, uniqueValue a = Some c /\ uniqueValue b = Some c) <-> QueryEqual a b = true).
Proof. exact (unique_same a b). Qed.


(** beyond 2^53 the owner keys are finer than the query equality: the
    integer 2^53+1 and the float 2^53 are equal for a query and claim
    different owner keys, so a unique constraint admits both. *)
Theorem uniqueValue_splits_equal_values :
  QueryEqual (VInt (two53 + 1)) (VFloat (of_int two53)) = true /\
  uniqueValue (VInt (two53 + 1)) <> uniqueValue (VFloat (of_int two53)).
Proof. split; [vm_compute; reflexivity|vm_compute; congruence]. Qed.

(** an index lookup visits exactly the stored values a query considers
    equal to the sought value: whenever the probes are declared exact, a stored
    value is query-equal to [v] if and only if it is the same stored value as
    one of the probes (so a lookup through the index and a scan with the query
    equality agree; 1 finds 1.0, 0 finds -0.0, NaN finds nothing). *)
Theorem equalityProbes_exact (s v : value) (ps : list value) :
  stored_ok s -> stored_ok v -> isIndexable v = true -> v <> VNull ->
  equalityProbes v = (ps, true) ->
  (QueryEqual s v = true <-> exists p, p ∈ ps /\ sameValue p s = true).
Proof.
  intros Hs Hv Hi Hn E. rewrite (probes_exact s v ps) by done.
  pose proof (probes_ok v ps true Hv E Hi) as Hps. rewrite Forall_forall in Hps. split.
  - intros Hin. exists s. split; [done|]. destruct (Hps s Hin). by apply sameValue_eq.
  - intros (p & Hin & Hp). destruct (Hps p Hin). by apply sameValue_eq in Hp as <-.
Qed.


#[export] Hint Resolve normalize_ok : codec_db.
