(* ===== verification/Ast.v ===== *)
(** * Ast: the syntax of the query language

    The expression, pattern and clause types of src/query/ast/ast.go.  The position
    each node carries for error messages is left out; a map of expressions is
    its list of entries, one per key; an optional expression and a pointer that
    may be nil are an [option]; the empty name stands for an absent variable,
    as in the code. *)
From S2P Require Import Prelude Values.

Module Ast.

Inductive Expr : Type :=
| Literal (Value : value)
| Param (Name : bytes)
| Variable_ (Name : bytes)
| PropertyAccess (Target : Expr) (Key : bytes)
| Unary (Op : bytes) (E : Expr)
| Binary (Op : bytes) (Left_ Right_ : Expr)
| FunctionCall (Name : bytes) (Distinct Star : bool) (Args : list Expr)
| LabelsPredicate (E : Expr) (Labels : list bytes)
| ListLiteral (Elements : list Expr)
| MapLiteral (Entries : list (bytes * Expr))
| Case (Operand : option Expr) (Whens : list (Expr * Expr)) (Else : option Expr)
| Subscript (Target Index : Expr)
| ListComprehension (Var : bytes) (List_ : Expr) (Where Map_ : option Expr)
| Quantifier (Kind Var : bytes) (List_ Where : Expr)
| Slice (Target : Expr) (From To : option Expr).

(** ** Patterns and the items of SET and REMOVE *)
Inductive Direction := DirOut | DirIn | DirBoth.
Inductive ShortestKind := NotShortest | ShortestOne | ShortestAll.

Record NodePattern := mkNodePattern {
  np_Variable : bytes;
  np_Labels : list bytes;
  np_Props : list (bytes * Expr)
}.

Record RelPattern := mkRelPattern {
  rp_Variable : bytes;
  rp_Types : list bytes;
  rp_Props : list (bytes * Expr);
  rp_Direction : Direction;
  rp_VarLength : bool;
  rp_MinHops : Z;
  rp_MaxHops : Z
}.

Record PatternChain := mkPatternChain { ch_Rel : RelPattern; ch_Node : NodePattern }.

Record PatternPart := mkPatternPart {
  pp_Variable : bytes;
  pp_Start : NodePattern;
  pp_Chain : list PatternChain;
  pp_Shortest : ShortestKind
}.

(** The target of an assignment is a property access, its target and key. *)
Inductive SetClause :=
| SetPropertyItem (Target : option (Expr * bytes)) (Value : Expr)
| SetLabelsItem (Var : bytes) (Labels : list bytes)
| SetMapItem (Var : bytes) (Value : Expr) (Replace : bool).

Inductive RemoveClause :=
| RemovePropertyItem (Target : option (Expr * bytes))
| RemoveLabelsItem (Var : bytes) (Labels : list bytes).

(** A projection element and a sort criterion (also ProjItem and SortKey of
    src/query/plan/op.go). *)
Record ProjItem := mkProjItem { pi_Column : bytes; pi_Expr : Expr }.
Record SortKey := mkSortKey { sk_Expr : Expr; sk_Desc : bool }.

(** ** Clauses and queries *)
Record ReturnItem := mkReturnItem { ri_Expr : Expr; ri_Alias : bytes }.

Inductive Clause :=
| CMatch (Optional : bool) (Parts : list PatternPart) (Where : option Expr)
| CWith (Distinct Star : bool) (Items : list ReturnItem) (OrderBy : list SortKey) (Skip Limit Where : option Expr)
| CReturn (Distinct Star : bool) (Items : list ReturnItem) (OrderBy : list SortKey) (Skip Limit : option Expr)
| CCreate (Parts : list PatternPart)
| CMerge (Part : PatternPart) (OnCreate OnMatch : list SetClause)
| CSet (Items : list SetClause)
| CRemove (Items : list RemoveClause)
| CUnwind (E : Expr) (Alias : bytes)
| CDelete (Detach : bool) (Exprs : list Expr)
| CCreateIndex (Name Label Property : bytes) (Rel : bool)
| CDropIndex (Name : bytes) (IfExists : bool)
| CShowIndexes
| CCreateConstraint (Name Label Property : bytes)
| CDropConstraint (Name : bytes) (IfExists : bool)
| CShowConstraints.

Record QueryUnion := mkQueryUnion { qu_All : bool; qu_Clauses : list Clause }.
Record Query := mkQuery { q_Clauses : list Clause; q_Unions : list QueryUnion }.

(** Induction with the hypothesis for every sub-expression. *)
Section expr_induction.
Variable P : Expr -> Prop.
Hypothesis HLiteral : forall v, P (Literal v).
Hypothesis HParam : forall n, P (Param n).
Hypothesis HVariable : forall n, P (Variable_ n).
Hypothesis HProperty : forall t k, P t -> P (PropertyAccess t k).
Hypothesis HUnary : forall o e, P e -> P (Unary o e).
Hypothesis HBinary : forall o l r, P l -> P r -> P (Binary o l r).
Hypothesis HCall : forall n d s args, Forall P args -> P (FunctionCall n d s args).
Hypothesis HLabels : forall e ls, P e -> P (LabelsPredicate e ls).
Hypothesis HList : forall l, Forall P l -> P (ListLiteral l).
Hypothesis HMap : forall m, Forall (fun kv => P kv.2) m -> P (MapLiteral m).
Hypothesis HCase : forall o ws e, (forall x, o = Some x -> P x) -> Forall (fun w => P w.1 /\ P w.2) ws ->
  (forall x, e = Some x -> P x) -> P (Case o ws e).
Hypothesis HSubscript : forall t i, P t -> P i -> P (Subscript t i).
Hypothesis HComp : forall v l w m, P l -> (forall x, w = Some x -> P x) -> (forall x, m = Some x -> P x) ->
  P (ListComprehension v l w m).
Hypothesis HQuant : forall k v l w, P l -> P w -> P (Quantifier k v l w).
Hypothesis HSlice : forall t f o, P t -> (forall x, f = Some x -> P x) -> (forall x, o = Some x -> P x) -> P (Slice t f o).

Fixpoint expr_ind' (e : Expr) : P e :=
  let all := fix all (l : list Expr) : Forall P l :=
    match l with
    | [] => Forall_nil_2 _
    | x :: l' => Forall_cons_2 _ x l' (expr_ind' x) (all l')
    end in
  let alls := fix alls (l : list (bytes * Expr)) : Forall (fun kv => P kv.2) l :=
    match l with
    | [] => Forall_nil_2 _
    | kv :: l' => Forall_cons_2 (fun kv => P kv.2) kv l' (expr_ind' kv.2) (alls l')
    end in
  let allw := fix allw (l : list (Expr * Expr)) : Forall (fun w => P w.1 /\ P w.2) l :=
    match l with
    | [] => Forall_nil_2 _
    | w :: l' => Forall_cons_2 (fun w => P w.1 /\ P w.2) w l' (conj (expr_ind' w.1) (expr_ind' w.2)) (allw l')
    end in
  let opt (o : option Expr) : forall x, o = Some x -> P x :=
    match o with
    | None => fun x H => match H in _ = y return match y with None => True | Some x => P x end with eq_refl => I end
    | Some y => fun x H =>
        match H in _ = z return match z with None => True | Some x => P x end with eq_refl => expr_ind' y end
    end in
  match e with
  | Literal v => HLiteral v
  | Param n => HParam n
  | Variable_ n => HVariable n
  | PropertyAccess t k => HProperty t k (expr_ind' t)
  | Unary o x => HUnary o x (expr_ind' x)
  | Binary o l r => HBinary o l r (expr_ind' l) (expr_ind' r)
  | FunctionCall n d s args => HCall n d s args (all args)
  | LabelsPredicate x ls => HLabels x ls (expr_ind' x)
  | ListLiteral l => HList l (all l)
  | MapLiteral m => HMap m (alls m)
  | Case o ws x => HCase o ws x (opt o) (allw ws) (opt x)
  | Subscript t i => HSubscript t i (expr_ind' t) (expr_ind' i)
  | ListComprehension v l w m => HComp v l w m (expr_ind' l) (opt w) (opt m)
  | Quantifier k v l w => HQuant k v l w (expr_ind' l) (expr_ind' w)
  | Slice t f o => HSlice t f o (expr_ind' t) (opt f) (opt o)
  end.
End expr_induction.

(** The literals of an expression are well-formed values. *)
Fixpoint expr_ok (e : Expr) : Prop :=
  let opt (o : option Expr) := match o with Some x => expr_ok x | None => True end in
  match e with
  | Literal v => value_ok v
  | Param _ | Variable_ _ => True
  | PropertyAccess t _ | Unary _ t | LabelsPredicate t _ => expr_ok t
  | Binary _ l r | Subscript l r | Quantifier _ _ l r => expr_ok l /\ expr_ok r
  | FunctionCall _ _ _ l | ListLiteral l => foldr (fun x acc => expr_ok x /\ acc) True l
  | MapLiteral m => foldr (fun kv acc => (bytes_ok kv.1 /\ expr_ok kv.2) /\ acc) True m
  | Case o ws x => opt o /\ foldr (fun w acc => (expr_ok w.1 /\ expr_ok w.2) /\ acc) True ws /\ opt x
  | ListComprehension _ l w m => expr_ok l /\ opt w /\ opt m
  | Slice t f o => expr_ok t /\ opt f /\ opt o
  end.
End Ast.
