(* ===== verification/Plan.v ===== *)
(** * Plan: the operators of a query plan

    src/query/plan/op.go, one constructor per operator type, with the fields of
    the source in their order.  A nil input (a query without a scan) is
    [Nothing]. *)
From S2P Require Import Prelude Values Ast.
Import Ast.

Module Plan.

Inductive Op : Type :=
| Nothing
(* access methods *)
| AllNodesScan (Var : bytes)
| NodeByLabelScan (Var Label : bytes)
| NodeByProperty (Var Label Key : bytes) (Value : Expr)
| NodeByPropertyRange (Var Label Key : bytes) (Lower Upper : option Expr)
    (LowerInclusive UpperInclusive : bool) (Prefix : option Expr)
| RelByProperty (Rel From To : bytes) (Dir : Direction) (Type_ Key : bytes) (Value : Expr)
(* internal operators *)
| Expand (Input : Op) (From Rel To : bytes) (Types : list bytes) (Dir : Direction) (VarLength : bool)
    (MinHops MaxHops : Z) (ToBound ToUnused RelUnused : bool)
| ShortestPath (Input : Op) (From To PathVar RelVar : bytes) (Types : list bytes) (Dir : Direction)
    (MinHops MaxHops : Z) (All : bool)
| Filter (Input : Op) (Pred : Expr)
| Project (Input : Op) (Items : list ProjItem) (Distinct : bool)
| Aggregate (Input : Op) (GroupKeys Aggs : list ProjItem) (Distinct : bool)
| Sort (Input : Op) (Keys : list SortKey)
| Skip (Input : Op) (Count : Expr)
| Limit (Input : Op) (Count : Expr)
| CartesianProduct (Left_ Right_ : Op)
| Unwind (Input : Op) (E : Expr) (Alias : bytes)
| Argument
| OuterApply (Outer Inner : Op) (NewVars : list bytes)
| Apply (Outer Inner : Op)
| Union (Parts : list Op) (Columns : list bytes) (All : bool)
(* write operators *)
| Create (Input : Op) (Parts : list PatternPart)
| Merge (Input : Op) (Part : PatternPart) (OnCreate OnMatch : list SetClause)
| SetItems (Input : Op) (Items : list SetClause)
| Remove (Input : Op) (Items : list RemoveClause)
| Delete (Input : Op) (Exprs : list Expr) (Detach : bool)
(* schema statements *)
| CreateIndex (Name Label Property : bytes) (Rel : bool)
| DropIndex (Name : bytes) (IfExists : bool)
| ShowIndexes
| CreateConstraint (Name Label Property : bytes)
| DropConstraint (Name : bytes) (IfExists : bool)
| ShowConstraints.

(** Induction with the hypothesis for every part of a union. *)
Section op_induction.
Variable P : Op -> Prop.
Hypothesis HNothing : P Nothing.
Hypothesis HAll : forall v, P (AllNodesScan v).
Hypothesis HLabel : forall v l, P (NodeByLabelScan v l).
Hypothesis HProp : forall v l k e, P (NodeByProperty v l k e).
Hypothesis HRange : forall v l k lo up li ui pre, P (NodeByPropertyRange v l k lo up li ui pre).
Hypothesis HRel : forall r f t d ty k e, P (RelByProperty r f t d ty k e).
Hypothesis HExpand : forall i f r t ts d vl mn mx tb tu ru, P i -> P (Expand i f r t ts d vl mn mx tb tu ru).
Hypothesis HShortest : forall i f t pv rv ts d mn mx a, P i -> P (ShortestPath i f t pv rv ts d mn mx a).
Hypothesis HFilter : forall i e, P i -> P (Filter i e).
Hypothesis HProject : forall i its d, P i -> P (Project i its d).
Hypothesis HAggregate : forall i g a d, P i -> P (Aggregate i g a d).
Hypothesis HSort : forall i ks, P i -> P (Sort i ks).
Hypothesis HSkip : forall i e, P i -> P (Skip i e).
Hypothesis HLimit : forall i e, P i -> P (Limit i e).
Hypothesis HProduct : forall l r, P l -> P r -> P (CartesianProduct l r).
Hypothesis HUnwind : forall i e a, P i -> P (Unwind i e a).
Hypothesis HArgument : P Argument.
Hypothesis HOuter : forall o i vs, P o -> P i -> P (OuterApply o i vs).
Hypothesis HApply : forall o i, P o -> P i -> P (Apply o i).
Hypothesis HUnion : forall ps cs a, Forall P ps -> P (Union ps cs a).
Hypothesis HCreate : forall i ps, P i -> P (Create i ps).
Hypothesis HMerge : forall i p c m, P i -> P (Merge i p c m).
Hypothesis HSet : forall i its, P i -> P (SetItems i its).
Hypothesis HRemove : forall i its, P i -> P (Remove i its).
Hypothesis HDelete : forall i es d, P i -> P (Delete i es d).
Hypothesis HCreateIndex : forall n l p r, P (CreateIndex n l p r).
Hypothesis HDropIndex : forall n e, P (DropIndex n e).
Hypothesis HShowIndexes : P ShowIndexes.
Hypothesis HCreateConstraint : forall n l p, P (CreateConstraint n l p).
Hypothesis HDropConstraint : forall n e, P (DropConstraint n e).
Hypothesis HShowConstraints : P ShowConstraints.

Fixpoint op_ind' (p : Op) : P p :=
  match p with
  | Nothing => HNothing
  | AllNodesScan v => HAll v
  | NodeByLabelScan v l => HLabel v l
  | NodeByProperty v l k e => HProp v l k e
  | NodeByPropertyRange v l k lo up li ui pre => HRange v l k lo up li ui pre
  | RelByProperty r f t d ty k e => HRel r f t d ty k e
  | Expand i f r t ts d vl mn mx tb tu ru => HExpand i f r t ts d vl mn mx tb tu ru (op_ind' i)
  | ShortestPath i f t pv rv ts d mn mx a => HShortest i f t pv rv ts d mn mx a (op_ind' i)
  | Filter i e => HFilter i e (op_ind' i)
  | Project i its d => HProject i its d (op_ind' i)
  | Aggregate i g a d => HAggregate i g a d (op_ind' i)
  | Sort i ks => HSort i ks (op_ind' i)
  | Skip i e => HSkip i e (op_ind' i)
  | Limit i e => HLimit i e (op_ind' i)
  | CartesianProduct l r => HProduct l r (op_ind' l) (op_ind' r)
  | Unwind i e a => HUnwind i e a (op_ind' i)
  | Argument => HArgument
  | OuterApply o i vs => HOuter o i vs (op_ind' o) (op_ind' i)
  | Apply o i => HApply o i (op_ind' o) (op_ind' i)
  | Union ps cs a => HUnion ps cs a
      ((fix all (l : list Op) : Forall P l :=
          match l with
          | [] => Forall_nil_2 _
          | x :: l' => Forall_cons_2 _ x l' (op_ind' x) (all l')
          end) ps)
  | Create i ps => HCreate i ps (op_ind' i)
  | Merge i p c m => HMerge i p c m (op_ind' i)
  | SetItems i its => HSet i its (op_ind' i)
  | Remove i its => HRemove i its (op_ind' i)
  | Delete i es d => HDelete i es d (op_ind' i)
  | CreateIndex n l p r => HCreateIndex n l p r
  | DropIndex n e => HDropIndex n e
  | ShowIndexes => HShowIndexes
  | CreateConstraint n l p => HCreateConstraint n l p
  | DropConstraint n e => HDropConstraint n e
  | ShowConstraints => HShowConstraints
  end.
End op_induction.
End Plan.
