(* ===== verification/Scalars.v ===== *)
(** * Scalars: the operators of expressions on evaluated operands

    The part of src/internal/exec/eval.go that works on values only: equality
    and comparison with three-valued logic, arithmetic on int64 and float64,
    the string predicates, [IN], and the identity string of a path
    (src/internal/exec/shortest.go).  Operators are Go strings. *)
From S2P Require Import Prelude Float64 FloatArith Values.
Import Float64 FloatArith.

(** A Go string compared with a literal. *)
Notation "a =s b" := (bool_decide (a = str b%string)) (at level 70, b at level 0).

Module Scalars.

(** ** [strconv.FormatInt] in base ten, the [%d] of package fmt *)
Fixpoint digits (u : Decimal.uint) : bytes :=
  match u with
  | Decimal.Nil => []
  | Decimal.D0 u => 48 :: digits u | Decimal.D1 u => 49 :: digits u
  | Decimal.D2 u => 50 :: digits u | Decimal.D3 u => 51 :: digits u
  | Decimal.D4 u => 52 :: digits u | Decimal.D5 u => 53 :: digits u
  | Decimal.D6 u => 54 :: digits u | Decimal.D7 u => 55 :: digits u
  | Decimal.D8 u => 56 :: digits u | Decimal.D9 u => 57 :: digits u
  end.

Definition dec (z : Z) : bytes :=
  match Z.to_int z with
  | Decimal.Pos u => digits u
  | Decimal.Neg u => 45 :: digits u
  end.

(** The identity of a node or relationship held in a path. *)
Definition entity_id (v : value) : Z :=
  match v with VNode i _ _ => i | VEdge i _ _ _ _ => i | _ => 0 end.

(** [pathIDs]: a path has one node more than relationships, so both indexings
    of the source are in range. *)
Definition pathIDs (nodes rels : list value) : bytes :=
  match nodes with
  | [] => []
  | n0 :: ns =>
      foldl (fun s '(r, n) => s ++ str ",E" ++ dec (entity_id r) ++ str ",N" ++ dec (entity_id n))
        (str "N" ++ dec (entity_id n0)) (zip rels ns)
  end.

(** ** Truth and comparison *)
Definition truthy (v : value) : bool := match v with VBool b => b | _ => false end.

Definition isNaN (v : value) : bool := match v with VFloat f => is_nan f | _ => false end.

Definition cmpInt64 (a b : Z) : Z := if a <? b then -1 else if b <? a then 1 else 0.
Definition cmpFloat64 (a b : Z) : Z := if flt a b then -1 else if flt b a then 1 else 0.
Definition cmpBool (a b : bool) : Z := if Bool.eqb a b then 0 else if negb a then -1 else 1.
(** [strings.Compare]. *)
Definition cmpString (a b : bytes) : Z := match bcmp a b with Lt => -1 | Eq => 0 | Gt => 1 end.

(** [compareValues]; [None] is "not comparable". *)
Definition compareValues (a b : value) : option Z :=
  match normalize a, normalize b with
  | VInt x, VInt y => Some (cmpInt64 x y)
  | VInt x, VFloat y => Some (cmpFloat64 (of_int x) y)
  | VFloat x, VInt y => Some (cmpFloat64 x (of_int y))
  | VFloat x, VFloat y => Some (cmpFloat64 x y)
  | VStr x, VStr y => Some (cmpString x y)
  | VBool x, VBool y => Some (cmpBool x y)
  | _, _ => None
  end.

Definition compareOp (op : bytes) (a b : value) : value :=
  let a := normalize a in
  let b := normalize b in
  if is_null a || is_null b then VNull
  else if isNaN a || isNaN b then VBool false
  else match compareValues a b with
  | None => VNull
  | Some c =>
      if op =s "<" then VBool (c <? 0)
      else if op =s "<=" then VBool (c <=? 0)
      else if op =s ">" then VBool (0 <? c)
      else if op =s ">=" then VBool (0 <=? c)
      else VNull
  end.

(** ** Equality: [(eq, known)] *)
Definition map_get (m : list (bytes * value)) (k : bytes) : option value :=
  snd <$> find (fun e => bool_decide (e.1 = k)) m.

Fixpoint equality (a b : value) : bool * bool :=
  match a, b with
  | VNull, _ | _, VNull => (false, false)
  | VList av, VList bv =>
      if negb (Nat.eqb (length av) (length bv)) then (false, true)
      else (fix loop (av bv : list value) (known : bool) : bool * bool :=
        match av, bv with
        | x :: av', y :: bv' =>
            let '(e, k) := equality x y in
            if k && negb e then (false, true) else loop av' bv' (known && k)
        | _, _ => (known, known)
        end) av bv true
  | VMap av, VMap bv =>
      if negb (Nat.eqb (length av) (length bv)) then (false, true)
      else (fix loop (av : list (bytes * value)) (known : bool) : bool * bool :=
        match av with
        | (key, x) :: av' =>
            match map_get bv key with
            | None => (false, true)
            | Some y =>
                let '(e, k) := equality x y in
                if k && negb e then (false, true) else loop av' (known && k)
            end
        | [] => (known, known)
        end) av true
  | VList _, _ | VMap _, _ => (false, true)
  | VNode i _ _, VNode j _ _ => (i =? j, true)
  | VEdge i _ _ _ _, VEdge j _ _ _ _ => (i =? j, true)
  | VPath ns rs, VPath ns' rs' => (bool_decide (pathIDs ns rs = pathIDs ns' rs'), true)
  | VNode _ _ _, _ | VEdge _ _ _ _ _, _ | VPath _ _, _ => (false, true)
  | _, _ => (QueryEqual a b, true)
  end.

Definition equals (a b : value) : bool := let '(eq, known) := equality a b in known && eq.

Definition equalityOp (a b : value) (negate : bool) : value :=
  let '(eq, known) := equality a b in
  if negb known then VNull else VBool (xorb eq negate).

(** [IN]. *)
Fixpoint in_loop (needle : value) (list : list value) (unknown : bool) : value :=
  match list with
  | [] => if unknown then VNull else VBool false
  | item :: list' =>
      let '(eq, known) := equality needle item in
      if known && eq then VBool true
      else in_loop needle list' (unknown || negb known)
  end.

Definition inList (needle haystack : value) : res value :=
  match haystack with
  | VNull => Ok VNull
  | VList l => Ok (in_loop needle l false)
  | _ => Err ErrType
  end.

(** ** The string predicates *)
Definition HasPrefix (s p : bytes) : bool := has_prefix p s.
Definition HasSuffix (s p : bytes) : bool := has_prefix (rev p) (rev s).
Fixpoint Contains (s p : bytes) : bool :=
  has_prefix p s || match s with [] => false | _ :: s' => Contains s' p end.

Definition stringPredicate (l r : value) (fn : bytes -> bytes -> bool) : value :=
  match l, r with
  | VStr ls, VStr rs => VBool (fn ls rs)
  | _, _ => VNull
  end.

(** ** Three-valued AND and OR on evaluated operands (the end of [boolOp]) *)
Definition bool_result (isOr : bool) (l r : value) : value :=
  if (negb (is_null l) && Bool.eqb (truthy l) isOr) || (negb (is_null r) && Bool.eqb (truthy r) isOr)
  then VBool isOr
  else if is_null l || is_null r then VNull
  else VBool (negb isOr).

(** ** Arithmetic *)
Definition MinInt64 : Z := - two63.

Definition addInt (a b : Z) : res Z :=
  let c := wrap_i64 (a + b) in
  if Z.land (Z.lxor a c) (Z.lxor b c) <? 0 then Err ErrIntegerOverflow else Ok c.

Definition negateInt (n : Z) : res Z :=
  if n =? MinInt64 then Err ErrIntegerOverflow else Ok (- n).

Definition intArithmetic (op : bytes) (a b : Z) : res Z :=
  if op =s "+" then addInt a b
  else if op =s "-" then
    let c := wrap_i64 (a - b) in
    if Z.land (Z.lxor a b) (Z.lxor a c) <? 0 then Err ErrIntegerOverflow else Ok c
  else if op =s "*" then
    if (a =? 0) || (b =? 0) then Ok 0
    else
      let c := wrap_i64 (a * b) in
      if negb (wrap_i64 (Z.quot c b) =? a) || ((a =? -1) && (b =? MinInt64))
         || ((b =? -1) && (a =? MinInt64))
      then Err ErrIntegerOverflow
      else Ok c
  else if op =s "/" then
    if b =? 0 then Err ErrDivisionByZero
    else if (a =? MinInt64) && (b =? -1) then Err ErrIntegerOverflow
    else Ok (Z.quot a b)
  else if op =s "%" then
    if b =? 0 then Err ErrDivisionByZero else Ok (Z.rem a b)
  else Err ErrUnknownOperator.

Definition floatArithmetic (op : bytes) (a b : Z) : res Z :=
  if op =s "+" then Ok (fadd a b)
  else if op =s "-" then Ok (fsub a b)
  else if op =s "*" then Ok (fmul a b)
  else if op =s "/" then (if feq b pzero then Err ErrDivisionByZero else Ok (fdiv a b))
  else if op =s "%" then Err ErrType
  else Err ErrUnknownOperator.

Definition toFloat (v : value) : option Z :=
  match v with VInt n => Some (of_int n) | VFloat n => Some n | _ => None end.

Definition arithmetic (op : bytes) (a b : value) : res value :=
  let a := normalize a in
  let b := normalize b in
  let numbers :=
    match a, b with
    | VInt x, VInt y => VInt <$> intArithmetic op x y
    | _, _ =>
        match toFloat a with
        | None => Err ErrType
        | Some x =>
            match toFloat b with
            | None => Err ErrType
            | Some y => VFloat <$> floatArithmetic op x y
            end
        end
    end in
  if op =s "+" then
    match a, b with VStr x, VStr y => Ok (VStr (x ++ y)) | _, _ => numbers end
  else numbers.

(** ** Integer arithmetic is exact or fails *)

(** The sign test [(x ^ z) & (y ^ z) < 0] of the source. *)
Lemma sign_test x y z :
  (Z.land (Z.lxor x z) (Z.lxor y z) <? 0) = Bool.eqb (x <? 0) (y <? 0) && xorb (x <? 0) (z <? 0).
Proof.
  assert (forall p q, (Z.lxor p q <? 0) = xorb (p <? 0) (q <? 0)) as Hx.
  { intros p q. pose proof (Z.lxor_nonneg p q). destruct (Z.ltb_spec (Z.lxor p q) 0), (Z.ltb_spec p 0), (Z.ltb_spec q 0); cbn; lia. }
  assert (forall p q, (Z.land p q <? 0) = (p <? 0) && (q <? 0)) as Ha.
  { intros p q. pose proof (Z.land_neg p q). destruct (Z.ltb_spec (Z.land p q) 0), (Z.ltb_spec p 0), (Z.ltb_spec q 0); cbn; lia. }
  rewrite Ha, !Hx. by destruct (x <? 0), (y <? 0), (z <? 0).
Qed.

(** The result the operators are meant to give. *)
Definition exact (z : Z) : res Z := if decide (i64 z) then Ok z else Err ErrIntegerOverflow.

(** A wrapped sum or difference in terms of the exact one. *)
Lemma wrap_near z : - two64 <= z < two64 ->
  wrap_i64 z = if decide (i64 z) then z else if z <? 0 then z + two64 else z - two64.
Proof.
  intros Hz. destruct (decide (i64 z)) as [|Hn]; [by apply wrap_i64_id|].
  destruct (wrap_i64_spec z) as [k Hk]. pose proof (wrap_i64_range z) as Hr. zcases; solve_width.
Qed.

Lemma addInt_exact a b : i64 a -> i64 b -> addInt a b = exact (a + b).
Proof.
  intros Ha Hb. unfold addInt, exact. rewrite sign_test, wrap_near by solve_width.
  destruct (decide (i64 (a + b))).
  - destruct (Z.ltb_spec a 0), (Z.ltb_spec b 0), (Z.ltb_spec (a + b) 0); try done; lia.
  - destruct (Z.ltb_spec a 0), (Z.ltb_spec b 0), (Z.ltb_spec (a + b) 0); cbn; try done;
      zcases; cbn; try done; solve_width.
Qed.

Lemma negateInt_exact a : i64 a -> negateInt a = exact (- a).
Proof.
  intros Ha. unfold negateInt, exact, MinInt64. destruct (decide (i64 (- a))); zcases; try done; solve_width.
Qed.

Lemma sub_exact a b : i64 a -> i64 b ->
  (if Z.land (Z.lxor a b) (Z.lxor a (wrap_i64 (a - b))) <? 0 then Err ErrIntegerOverflow
   else Ok (wrap_i64 (a - b))) = exact (a - b).
Proof.
  intros Ha Hb. unfold exact. rewrite (Z.lxor_comm a b), (Z.lxor_comm a (wrap_i64 _)), sign_test, wrap_near by solve_width.
  destruct (decide (i64 (a - b))).
  - destruct (Z.ltb_spec a 0), (Z.ltb_spec b 0), (Z.ltb_spec (a - b) 0); try done; lia.
  - destruct (Z.ltb_spec a 0), (Z.ltb_spec b 0), (Z.ltb_spec (a - b) 0); cbn; try done;
      zcases; cbn; try done; solve_width.
Qed.

(** The check [c/b != a] detects every wrapped product. *)
Lemma mul_exact a b : i64 a -> i64 b ->
  (if (a =? 0) || (b =? 0) then Ok 0
   else if negb (wrap_i64 (Z.quot (wrap_i64 (a * b)) b) =? a) || ((a =? -1) && (b =? MinInt64))
           || ((b =? -1) && (a =? MinInt64))
        then Err ErrIntegerOverflow else Ok (wrap_i64 (a * b))) = exact (a * b).
Proof.
  intros Ha Hb. unfold exact.
  destruct (Z.eqb_spec a 0) as [->|Ha0]; [cbn; by rewrite decide_True by solve_width|].
  destruct (Z.eqb_spec b 0) as [->|Hb0]; [cbn; rewrite Z.mul_0_r; by rewrite decide_True by solve_width|].
  cbn [orb]. destruct (decide (i64 (a * b))) as [Hi|Hi].
  - rewrite (wrap_i64_id (a * b)), Z.quot_mul, wrap_i64_id, Z.eqb_refl by done. cbn [negb orb].
    destruct (Z.eqb_spec a (-1)), (Z.eqb_spec b MinInt64), (Z.eqb_spec b (-1)), (Z.eqb_spec a MinInt64);
      cbn; try done; exfalso; subst; unfold MinInt64 in *; solve_width.
  - destruct (Z.eqb_spec b (-1)) as [->|Hb1].
    { assert (a = MinInt64) as -> by (unfold MinInt64; solve_width). cbn. by rewrite orb_true_r. }
    destruct (wrap_i64_spec (a * b)) as [k Hk]. pose proof (wrap_i64_range (a * b)) as Hr.
    set (c := wrap_i64 (a * b)) in *.
    pose proof (Z.quot_rem c b Hb0) as Hq. pose proof (Z.rem_bound_abs c b Hb0) as Hrem.
    assert (i64 (Z.quot c b)) as Hqr.
    { assert (Z.abs (Z.quot c b) <= Z.abs c) as Habs.
      { rewrite <- Z.quot_abs by done. apply Z.quot_le_upper_bound; nia. }
      destruct (decide (Z.quot c b = two63)) as [E|]; [|solve_width].
      rewrite E in Hq. exfalso. assert (Z.abs b >= 2) by (destruct (decide (b = 1)); solve_width). solve_width. }
    rewrite (wrap_i64_id (Z.quot c b)) by done.
    destruct (Z.eqb_spec (Z.quot c b) a) as [E|]; [|done]. exfalso.
    assert (k = 0) by (rewrite E in Hq; solve_width). subst k. apply Hi. by replace (a * b) with c by lia.
Qed.

Lemma quot_exact a b : i64 a -> i64 b -> b <> 0 ->
  (if (a =? MinInt64) && (b =? -1) then Err ErrIntegerOverflow else Ok (Z.quot a b)) = exact (Z.quot a b).
Proof.
  intros Ha Hb H0. unfold exact, MinInt64.
  destruct (Z.eqb_spec a (- two63)) as [Ea|Ea], (Z.eqb_spec b (-1)) as [Eb|Eb]; cbn [andb].
  1: subst; by rewrite decide_False by (vm_compute; intros [? [=]]).
  all: rewrite decide_True; [done|].
  all: pose proof (Z.quot_rem a b H0) as Hq; pose proof (Z.rem_bound_abs a b H0) as Hr.
  all: assert (Z.abs (Z.quot a b) <= Z.abs a) as Habs
    by (rewrite <- Z.quot_abs by done; apply Z.quot_le_upper_bound; nia).
  all: destruct (decide (Z.quot a b = two63)) as [E|]; [|solve_width].
  all: rewrite E in Hq; exfalso; try subst b; solve_width.
Qed.

(** Go's remainder takes the sign of the dividend and always fits. *)
Lemma rem_i64 a b : i64 a -> i64 b -> b <> 0 -> i64 (Z.rem a b).
Proof.
  intros Ha Hb H0. pose proof (Z.rem_bound_abs a b H0). pose proof (Z.rem_sign_nz a b H0). solve_width.
Qed.

(** C35: integer arithmetic never wraps: on any two int64 operands each of [+],
    [-], [*] and [/] gives the exact (for [/] truncated) result when it fits
    in 64 bits and ErrIntegerOverflow otherwise, [%] always fits, a zero divisor
    is an error, and so is an unknown operator; unary minus likewise. *)
Theorem int_arithmetic_exact (a b : Z) (Ha : i64 a) (Hb : i64 b) :
  intArithmetic (str "+") a b = exact (a + b) /\
  intArithmetic (str "-") a b = exact (a - b) /\
  intArithmetic (str "*") a b = exact (a * b) /\
  intArithmetic (str "/") a b = (if b =? 0 then Err ErrDivisionByZero else exact (Z.quot a b)) /\
  intArithmetic (str "%") a b = (if b =? 0 then Err ErrDivisionByZero else Ok (Z.rem a b)) /\
  negateInt a = exact (- a) /\
  (forall op c, intArithmetic op a b = Ok c -> i64 c) /\
  (forall op, op ∉ str <$> ["+"; "-"; "*"; "/"; "%"]%string -> intArithmetic op a b = Err ErrUnknownOperator).
Proof.
  assert (intArithmetic (str "/") a b = (if b =? 0 then Err ErrDivisionByZero else exact (Z.quot a b))) as Hdiv.
  { unfold intArithmetic. cbn -[Z.mul Z.quot]. destruct (Z.eqb_spec b 0); [done|]. by apply quot_exact. }
  split_and!; [by apply addInt_exact|by apply sub_exact|by apply mul_exact|done|done|by apply negateInt_exact| |].
  - intros op c. assert (forall z, exact z = Ok c -> i64 c) as He
      by (intros z; unfold exact; case_decide; [by intros [= <-]|done]).
    unfold intArithmetic. repeat case_bool_decide; subst.
    + rewrite addInt_exact by done. apply He.
    + rewrite sub_exact by done. apply He.
    + rewrite mul_exact by done. apply He.
    + destruct (Z.eqb_spec b 0); [done|]. rewrite quot_exact by done. apply He.
    + destruct (Z.eqb_spec b 0); [done|]. intros [= <-]. by apply rem_i64.
    + done.
  - intros op Hop. unfold intArithmetic. rewrite !bool_decide_false; [done|..]; intros ->; apply Hop; set_solver.
Qed.

Lemma int_arithmetic_exact_witness :
  intArithmetic (str "*") 3037000500 3037000500 = Err ErrIntegerOverflow /\
  intArithmetic (str "-") (-5) 7 = Ok (-12).
Proof.
  destruct (int_arithmetic_exact 3037000500 3037000500 ltac:(solve_width) ltac:(solve_width)) as (_ & _ & -> & _).
  split; [by vm_compute|]. by destruct (int_arithmetic_exact (-5) 7 ltac:(solve_width) ltac:(solve_width)) as (_ & -> & _).
Defined.

(** ** Equality is symmetric *)

(** Outcome of a conjunction of comparisons, whatever their order: one known
    difference decides, then one unknown. *)
Definition eq_all (l : list (bool * bool)) : bool * bool :=
  if existsb (fun '(e, k) => k && negb e) l then (false, true)
  else (forallb snd l, forallb snd l).

Lemma equality_list av bv : equality (VList av) (VList bv) =
  if negb (Nat.eqb (length av) (length bv)) then (false, true) else eq_all (zip_with equality av bv).
Proof.
  cbn [equality]. destruct (Nat.eqb_spec (length av) (length bv)) as [E|]; [cbn [negb]|done].
  match goal with |- ?f av bv true = _ => assert (forall k, f av bv k =
    if existsb (fun '(e, k) => k && negb e) (zip_with equality av bv) then (false, true)
    else (k && forallb snd (zip_with equality av bv), k && forallb snd (zip_with equality av bv))) as Hloop; [|apply Hloop] end.
  clear E. revert bv. induction av as [|x av IH]; intros [|y bv] k; cbn; try (by rewrite andb_true_r).
  destruct (equality x y) as [[] []]; cbn; rewrite ?IH; rewrite ?andb_true_r, ?andb_false_r; try done.
Qed.

(** The entry of [av] against the map [bv]. *)
Definition eq_entry (bv : list (bytes * value)) (e : bytes * value) : bool * bool :=
  match map_get bv e.1 with None => (false, true) | Some y => equality e.2 y end.

Lemma equality_map av bv : equality (VMap av) (VMap bv) =
  if negb (Nat.eqb (length av) (length bv)) then (false, true) else eq_all (eq_entry bv <$> av).
Proof.
  cbn [equality]. destruct (Nat.eqb_spec (length av) (length bv)) as [E|]; [cbn [negb]|done].
  match goal with |- ?f av true = _ => assert (forall k, f av k =
    if existsb (fun '(e, k) => k && negb e) (eq_entry bv <$> av) then (false, true)
    else (k && forallb snd (eq_entry bv <$> av), k && forallb snd (eq_entry bv <$> av))) as Hloop; [|apply Hloop] end.
  clear E. induction av as [|[key x] av IH]; intros k; cbn; [by rewrite andb_true_r|].
  unfold eq_entry at 1 3 5. cbn [fst snd].
  destruct (map_get bv key) as [y|]; [|done]. destruct (equality x y) as [[] []]; cbn; rewrite ?IH; rewrite ?andb_true_r, ?andb_false_r; try done.
Qed.

(** The order in which a map is ranged over does not matter. *)
Lemma eq_all_perm l l' : l ≡ₚ l' -> eq_all l = eq_all l'.
Proof.
  intros H. unfold eq_all.
  assert (existsb (fun '(e, k) => k && negb e) l = existsb (fun '(e, k) => k && negb e) l') as ->.
  { induction H; cbn; [done|by f_equal|rewrite !orb_assoc; f_equal; apply orb_comm|congruence]. }
  assert (forallb snd l = forallb snd l') as ->; [|done].
  induction H; cbn; [done|by f_equal|rewrite !andb_assoc; f_equal; apply andb_comm|congruence].
Qed.

Lemma keys_sorted_nodup {A} (m : list (bytes * A)) : keys_sorted m -> NoDup m.*1.
Proof.
  unfold keys_sorted. induction 1 as [|k ks Hs IH Hf]; constructor; [|done].
  intros Hin. rewrite Forall_forall in Hf. by apply (blt_irrefl k), Hf.
Qed.

Lemma map_get_some m k v : NoDup m.*1 -> map_get m k = Some v <-> (k, v) ∈ m.
Proof.
  unfold map_get. induction m as [|[k' v'] m IH]; cbn; intros Hnd; [split; [done|set_solver]|].
  inversion Hnd as [|? ? Hni Hnd']; subst. case_bool_decide as Hk; cbn.
  - subst. split; [intros [= ->]; left|]. intros [[= ->]|Hin]%elem_of_cons; [done|].
    destruct Hni. apply list_elem_of_fmap. by exists (k, v).
  - rewrite (IH Hnd'), elem_of_cons. split; [by right|]. by intros [[= -> ->]|].
Qed.

Lemma map_get_none m k : map_get m k = None <-> k ∉ m.*1.
Proof.
  unfold map_get. induction m as [|[k' v'] m IH]; cbn; [split; [set_solver|done]|].
  case_bool_decide; cbn; [set_solver|]. rewrite IH. set_solver.
Qed.

(** Two canonical maps of one size have the same keys or one has a key the
    other lacks. *)
Lemma keys_eq_or_missing {A} (m n : list (bytes * A)) :
  keys_sorted m -> keys_sorted n -> length m = length n -> m.*1 = n.*1 \/ exists k, k ∈ m.*1 /\ k ∉ n.*1.
Proof.
  intros Hm Hn El. destruct (decide (Forall (fun k => k ∈ n.*1) m.*1)) as [Hall|Hno].
  - left. assert (m.*1 ≡ₚ n.*1) as Hp.
    { apply submseteq_length_Permutation; [|rewrite !length_fmap; lia].
      apply NoDup_submseteq; [by apply keys_sorted_nodup|]. intros k Hk. by rewrite Forall_forall in Hall; apply Hall. }
    assert (forall l : list (bytes * A), keys_sorted l -> StronglySorted ble l.*1) as Hle.
    { intros l. unfold keys_sorted. induction 1 as [|k ks Hs IH Hf]; constructor; [done|].
      eapply Forall_impl; [exact Hf|]. intros x Hx. apply ble_alt. by right. }
    apply (StronglySorted_unique ble); auto.
  - right. apply not_Forall_Exists in Hno; [|apply _]. by apply Exists_exists in Hno.
Qed.

Lemma eq_all_missing av bv k : k ∈ av.*1 -> k ∉ bv.*1 -> eq_all (eq_entry bv <$> av) = (false, true).
Proof.
  intros Hin Hno. unfold eq_all.
  assert (existsb (fun '(e, k) => k && negb e) (eq_entry bv <$> av) = true) as ->; [|done].
  apply existsb_exists. apply list_elem_of_fmap in Hin as ([k' v] & -> & Hin). exists (false, true). split; [|done].
  apply list_elem_of_In, list_elem_of_fmap. exists (k', v). split; [|done]. unfold eq_entry. cbn [fst] in *.
  by rewrite (proj2 (map_get_none bv k')).
Qed.

Lemma eq_entries_zip av bv : NoDup bv.*1 -> av.*1 = bv.*1 -> eq_entry bv <$> av = zip_with equality av.*2 bv.*2.
Proof.
  intros Hnd.
  assert (forall bv', (forall e, e ∈ bv' -> e ∈ bv) -> av.*1 = bv'.*1 -> eq_entry bv <$> av = zip_with equality av.*2 bv'.*2) as H.
  { induction av as [|[k x] av IH]; intros [|[k' y] bv'] Hsub E; cbn in *; try done. injection E as -> E.
    f_equal; [|by apply IH; [intros; apply Hsub; right|]]. unfold eq_entry; cbn.
    by rewrite (proj2 (map_get_some bv k' y Hnd)) by (apply Hsub; left). }
  by apply H.
Qed.

Lemma zip_equality_sym l k :
  Forall (fun x => forall b, value_ok x -> value_ok b -> equality x b = equality b x) l ->
  Forall value_ok l -> Forall value_ok k -> length l = length k -> zip_with equality l k = zip_with equality k l.
Proof.
  intros HI. revert k. induction HI as [|x l Hx HI IH]; intros [|y k] Hl Hk E; cbn in *; try done.
  inversion Hl; inversion Hk; subst. rewrite Hx, IH by (try done; lia). done.
Qed.

Lemma map_ok_values m : value_ok (VMap m) -> keys_sorted m /\ Forall value_ok m.*2.
Proof.
  cbn. rewrite (foldr_and_Forall (fun kv => bytes_ok kv.1 /\ value_ok kv.2)). intros [Hs Hf]. split; [done|].
  rewrite Forall_fmap. eapply Forall_impl; [exact Hf|]. by intros ? [].
Qed.

Lemma equality_sym a b : value_ok a -> value_ok b -> equality a b = equality b a.
Proof.
  revert b. induction a using value_ind'; intros b' Ha Hb.
  7: { destruct b'; try done. rewrite !equality_list, (Nat.eqb_sym (length l0)).
    destruct (Nat.eqb_spec (length l) (length l0)) as [E|]; [cbn [negb]|done]. f_equal.
    cbn in Ha, Hb. rewrite foldr_and_Forall in Ha, Hb. by apply zip_equality_sym. }
  7: { destruct b'; try done. rewrite !equality_map, (Nat.eqb_sym (length m0)).
    destruct (Nat.eqb_spec (length m) (length m0)) as [E|]; [cbn [negb]|done].
    apply map_ok_values in Ha as [Hs Hf], Hb as [Hs0 Hf0].
    destruct (keys_eq_or_missing m m0 Hs Hs0 E) as [Ek|(k & Hk & Hnk)].
    - rewrite !eq_entries_zip by (auto using keys_sorted_nodup). f_equal. apply zip_equality_sym; [|done|done|].
      + by rewrite Forall_fmap.
      + by rewrite !length_fmap.
    - destruct (keys_eq_or_missing m0 m Hs0 Hs (eq_sym E)) as [Ek|(k' & Hk' & Hnk')]; [by rewrite Ek in Hnk|].
      by rewrite (eq_all_missing m m0 k), (eq_all_missing m0 m k'). }
  all: destruct b'; cbn [equality]; try done; try (by rewrite QueryEqual_sym); try (by rewrite Z.eqb_sym).
  f_equal. by apply bool_decide_ext.
Qed.

(** ** The order of queries *)

(** Comparison of two floats that are numbers follows their exact values. *)
Lemma cmpFloat64_fnum x y : is_nan x = false -> is_nan y = false -> cmpFloat64 x y = cmpInt64 (fnum x) (fnum y).
Proof. intros Hx Hy. unfold cmpFloat64, cmpInt64, flt. by rewrite Hx, Hy. Qed.
Lemma feq_fnum x y : is_nan x = false -> is_nan y = false -> feq x y = (fnum x =? fnum y).
Proof. intros Hx Hy. unfold feq. by rewrite Hx, Hy. Qed.

(** The sign of [b - a] is the opposite of the sign of [a - b], and zero is
    equality, on values that are comparable and not NaN. *)
Definition sign_ok (c : Z) : Prop := c = -1 \/ c = 0 \/ c = 1.

Lemma cmpInt64_laws x y : sign_ok (cmpInt64 x y) /\ cmpInt64 y x = - cmpInt64 x y /\ (cmpInt64 x y =? 0) = (x =? y).
Proof. unfold cmpInt64, sign_ok. zcases; cbn; lia. Qed.

Lemma compareValues_laws a b c :
  value_ok a -> value_ok b -> isNaN (normalize a) = false -> isNaN (normalize b) = false -> compareValues a b = Some c ->
  sign_ok c /\ compareValues b a = Some (- c) /\ equality a b = (c =? 0, true).
Proof.
  intros Ha Hb Hna Hnb. unfold compareValues.
  destruct a, b; cbn in *; try done; intros [= <-]; unfold QueryEqual; cbn [normalize];
    rewrite ?cmpFloat64_fnum, ?feq_fnum by auto using of_int_not_nan;
    try match goal with |- context [cmpInt64 ?x ?y] => destruct (cmpInt64_laws x y) as (? & -> & ->); done end.
  - unfold cmpBool, sign_ok. by destruct b0, b; cbn; split_and!; auto.
  - unfold cmpString, sign_ok. rewrite (bcmp_antisym s s0).
    destruct (bcmp s s0) eqn:E; cbn; split_and!; auto; f_equal.
    + apply bcmp_eq in E. by rewrite bool_decide_true.
    + rewrite bool_decide_false; [done|]. intros ->. by rewrite bcmp_refl in E.
    + rewrite bool_decide_false; [done|]. intros ->. by rewrite bcmp_refl in E.
Qed.

Lemma compareValues_none_sym a b : compareValues a b = None -> compareValues b a = None.
Proof. unfold compareValues. by destruct (normalize a), (normalize b). Qed.

Lemma compareValues_normalize a b : compareValues (normalize a) (normalize b) = compareValues a b.
Proof. by destruct a, b. Qed.

(** [op a b] as the reading of one sign. *)
Lemma compareOp_sign op a b : compareOp op a b =
  if is_null (normalize a) || is_null (normalize b) then VNull
  else if isNaN (normalize a) || isNaN (normalize b) then VBool false
  else match compareValues a b with
  | None => VNull
  | Some c => if op =s "<" then VBool (c <? 0) else if op =s "<=" then VBool (c <=? 0)
              else if op =s ">" then VBool (0 <? c) else if op =s ">=" then VBool (0 <=? c) else VNull
  end.
Proof. unfold compareOp. by rewrite compareValues_normalize. Qed.

(** the comparisons of queries are coherent: equality is symmetric; [a < b]
    is [b > a] and [a <= b] is [b >= a]; and whenever two values are comparable
    and neither is NaN, exactly one of [a < b], [a = b] and [a > b] is true and
    [<=], [>=] and [<>] are the negations of [>], [<] and [=]. *)
Theorem comparison_laws (a b : value) (Ha : value_ok a) (Hb : value_ok b) :
  equality a b = equality b a /\
  compareOp (str "<") a b = compareOp (str ">") b a /\
  compareOp (str "<=") a b = compareOp (str ">=") b a /\
  (isNaN (normalize a) = false -> isNaN (normalize b) = false -> compareOp (str "<") a b <> VNull ->
   exists lt eq gt : bool,
     compareOp (str "<") a b = VBool lt /\ equalityOp a b false = VBool eq /\ compareOp (str ">") a b = VBool gt /\
     compareOp (str "<=") a b = VBool (negb gt) /\ compareOp (str ">=") a b = VBool (negb lt) /\
     equalityOp a b true = VBool (negb eq) /\
     (if lt then negb eq && negb gt else xorb eq gt) = true).
Proof.
  split; [by apply equality_sym|]. rewrite !compareOp_sign, (orb_comm (is_null (normalize b))), (orb_comm (isNaN (normalize b))).
  destruct (is_null (normalize a) || is_null (normalize b)) eqn:En; [done|].
  destruct (isNaN (normalize a)) eqn:Ena; [done|]. destruct (isNaN (normalize b)) eqn:Enb; [done|]. cbn [orb].
  destruct (compareValues a b) as [c|] eqn:E; [|by rewrite (compareValues_none_sym a b)].
  destruct (compareValues_laws a b c Ha Hb Ena Enb E) as (Hs & -> & Heq). unfold equalityOp. rewrite Heq.
  destruct Hs as [-> | [-> | ->]]; (split; [done|split; [done|]]); intros _ _ _;
    [exists true, false, false|exists false, true, false|exists false, false, true]; done.
Qed.


(** ** Kleene's three-valued logic *)
Definition tv (o : option bool) : value := match o with Some b => VBool b | None => VNull end.
Definition knot (p : option bool) : option bool := negb <$> p.
Definition kand (p q : option bool) : option bool :=
  match p, q with
  | Some false, _ | _, Some false => Some false
  | Some true, Some true => Some true
  | _, _ => None
  end.
Definition kor (p q : option bool) : option bool := knot (kand (knot p) (knot q)).

(** The truth value of an operand of AND and OR: a non-boolean is false. *)
Definition tri (v : value) : option bool := if is_null v then None else Some (truthy v).

Lemma tri_tv o : tri (tv o) = o.
Proof. by destruct o as [[]|]. Qed.

Lemma bool_result_kleene isOr l r :
  bool_result isOr l r = tv (if isOr then kor (tri l) (tri r) else kand (tri l) (tri r)).
Proof.
  unfold bool_result, tri. destruct (is_null l), (is_null r), (truthy l), (truthy r), isOr; done.
Qed.

(** The truth value of [a = b]. *)
Definition eq3 (a b : value) : option bool := let '(e, k) := equality a b in if k then Some e else None.

Lemma equalityOp_tv a b n : equalityOp a b n = tv (if n then knot (eq3 a b) else eq3 a b).
Proof. unfold equalityOp, eq3. by destruct (equality a b) as [[] []], n. Qed.

(** Folding Kleene's disjunction keeps only three facts. *)
Lemma fold_kor ps : foldr kor (Some false) ps =
  if existsb (fun p => bool_decide (p = Some true)) ps then Some true
  else if existsb (fun p => bool_decide (p = None)) ps then None else Some false.
Proof.
  induction ps as [|p ps IH]; [done|]. cbn [foldr]. rewrite IH.
  destruct p as [[]|]; cbn; repeat case_match; done.
Qed.
Lemma fold_kand ps : foldr kand (Some true) ps = knot (foldr kor (Some false) (knot <$> ps)).
Proof. induction ps as [|p ps IH]; [done|]. cbn [foldr fmap list_fmap]. rewrite IH. by destruct p as [[]|], (foldr kor _ _) as [[]|]. Qed.

Lemma in_loop_kleene x l u : in_loop x l u = tv (kor (if u then None else Some false) (foldr kor (Some false) (eq3 x <$> l))).
Proof.
  revert u. induction l as [|y l IH]; intros u; cbn [in_loop]; [by destruct u|].
  cbn [fmap list_fmap foldr]. unfold eq3 at 1.
  destruct (equality x y) as [[] []]; cbn [andb orb negb]; rewrite ?IH; destruct u, (foldr kor _ _) as [[]|]; done.
Qed.
End Scalars.
