(* ===== verification/Text.v ===== *)
(** * Text: the string operations the scalar functions use

    Go strings are bytes; [[]rune(s)] decodes UTF-8 (an invalid byte is
    U+FFFD) and [string(runes)] encodes it.  The functions of packages
    strings, unicode and strconv that src/internal/exec/functions.go calls
    follow their documentation. *)
From S2P Require Import Prelude.

Module Text.

(** ** UTF-8 *)
Definition RuneError : Z := 0xFFFD.
Definition cont (b : Z) : bool := (0x80 <=? b) && (b <=? 0xBF).

Definition between (lo b hi : Z) : bool := (lo <=? b) && (b <=? hi).

(** [utf8.DecodeRuneInString] on a non-empty string: the rune and its width. *)
Definition decode_rune (s : bytes) : Z * nat :=
  match s with
  | [] => (RuneError, 0%nat)
  | b0 :: t =>
      if b0 <? 0x80 then (b0, 1%nat)
      else match t with
      | b1 :: t1 =>
          if between 0xC2 b0 0xDF && cont b1 then ((b0 - 0xC0) * 64 + (b1 - 0x80), 2%nat)
          else match t1 with
          | b2 :: t2 =>
              if between 0xE0 b0 0xEF && cont b2
                 && between (if b0 =? 0xE0 then 0xA0 else 0x80) b1 (if b0 =? 0xED then 0x9F else 0xBF)
              then ((b0 - 0xE0) * 4096 + (b1 - 0x80) * 64 + (b2 - 0x80), 3%nat)
              else match t2 with
              | b3 :: _ =>
                  if between 0xF0 b0 0xF4 && cont b2 && cont b3
                     && between (if b0 =? 0xF0 then 0x90 else 0x80) b1 (if b0 =? 0xF4 then 0x8F else 0xBF)
                  then ((b0 - 0xF0) * 262144 + (b1 - 0x80) * 4096 + (b2 - 0x80) * 64 + (b3 - 0x80), 4%nat)
                  else (RuneError, 1%nat)
              | [] => (RuneError, 1%nat)
              end
          | [] => (RuneError, 1%nat)
          end
      | [] => (RuneError, 1%nat)
      end
  end.

Definition valid_rune (r : Z) : Prop := 0 <= r < 0xD800 \/ 0xE000 <= r < 0x110000.
#[global] Instance valid_rune_dec r : Decision (valid_rune r).
Proof. unfold valid_rune. apply _. Defined.

Definition encode_rune (r : Z) : bytes :=
  let r := if between 0 r 0xD7FF || between 0xE000 r 0x10FFFF then r else RuneError in
  if r <? 0x80 then [r]
  else if r <? 0x800 then [0xC0 + r / 64; 0x80 + r mod 64]
  else if r <? 0x10000 then [0xE0 + r / 4096; 0x80 + r / 64 mod 64; 0x80 + r mod 64]
  else [0xF0 + r / 262144; 0x80 + r / 4096 mod 64; 0x80 + r / 64 mod 64; 0x80 + r mod 64].

(** The runes of a string, each with the bytes it was read from. *)
Fixpoint split_runes (fuel : nat) (s : bytes) : list (Z * bytes) :=
  match fuel, s with
  | S fuel, _ :: _ => let '(r, w) := decode_rune s in (r, take w s) :: split_runes fuel (drop w s)
  | _, _ => []
  end.
Definition pieces (s : bytes) : list (Z * bytes) := split_runes (length s) s.

Definition runes (s : bytes) : list Z := (pieces s).*1.
Definition of_runes (rs : list Z) : bytes := concat (encode_rune <$> rs).

(** ** White space and case *)
Definition IsSpace (r : Z) : bool :=
  between 9 r 13 || bool_decide (r ∈ [0x20; 0x85; 0xA0; 0x1680; 0x2028; 0x2029; 0x202F; 0x205F; 0x3000])
  || between 0x2000 r 0x200A.

Fixpoint drop_spaces (l : list (Z * bytes)) : list (Z * bytes) :=
  match l with
  | (r, b) :: l' => if IsSpace r then drop_spaces l' else l
  | [] => []
  end.
Definition TrimSpace (s : bytes) : bytes :=
  concat (rev (drop_spaces (rev (drop_spaces (pieces s))))).*2.

Definition ascii_lower (b : Z) : Z := if between 65 b 90 then b + 32 else b.
Definition ascii_upper (b : Z) : Z := if between 97 b 122 then b - 32 else b.
Definition is_ascii (s : bytes) : bool := forallb (fun b => b <? 0x80) s.

(** ** strings.Split and strings.ReplaceAll *)

(** The text before the first [sep] and the text after it. *)
Fixpoint cut (sep s : bytes) : option (bytes * bytes) :=
  if has_prefix sep s then Some ([], drop (length sep) s)
  else match s with
  | [] => None
  | b :: s' => '(l, r) ← cut sep s'; Some (b :: l, r)
  end.

Fixpoint split_loop (fuel : nat) (sep s : bytes) : list bytes :=
  match fuel with
  | O => [s]
  | S fuel => match cut sep s with Some (l, r) => l :: split_loop fuel sep r | None => [s] end
  end.
Definition Split (s sep : bytes) : list bytes :=
  match sep with [] => (pieces s).*2 | _ => split_loop (length s) sep s end.

Fixpoint join (sep : bytes) (l : list bytes) : bytes :=
  match l with [] => [] | [x] => x | x :: l' => x ++ sep ++ join sep l' end.
Definition ReplaceAll (s old new : bytes) : bytes :=
  match old with
  | [] => join new ([] :: (pieces s).*2 ++ [[]])
  | _ => join new (Split s old)
  end.

(** ** strconv.ParseInt in base ten *)
Fixpoint parse_digits (acc : Z) (s : bytes) : option Z :=
  match s with
  | [] => Some acc
  | b :: s' => if between 48 b 57 then parse_digits (acc * 10 + (b - 48)) s' else None
  end.
Definition ParseInt (s : bytes) : option Z :=
  let '(neg, ds) := match s with 45 :: t => (true, t) | 43 :: t => (false, t) | _ => (false, s) end in
  match ds with
  | [] => None
  | _ => n ← parse_digits 0 ds; let z := if neg : bool then - n else n in
      if decide (i64 z) then Some z else None
  end.

(** ** Decoding inverts encoding *)
Ltac bool_cases :=
  unfold between, cont in *;
  repeat match goal with
  | |- context [?a =? ?b] => destruct (Z.eqb_spec a b); try lia
  end;
  repeat match goal with
  | |- context [?a <=? ?b] => destruct (Z.leb_spec a b); try lia
  | |- context [?a <? ?b] => destruct (Z.ltb_spec a b); try lia
  end.

Lemma encode_rune_invalid r : ~ valid_rune r -> encode_rune r = encode_rune RuneError.
Proof. intros H. unfold encode_rune, valid_rune in *. bool_cases; done. Qed.

(** Decomposition of a number in base 64. *)
Lemma base64 r : r = 64 * (r / 64) + r mod 64 /\ 0 <= r mod 64 < 64.
Proof. split; [apply Z.div_mod; lia|apply Z.mod_pos_bound; lia]. Qed.

Lemma decode_encode r t : valid_rune r ->
  decode_rune (encode_rune r ++ t) = (r, length (encode_rune r)).
Proof.
  intros Hr. unfold encode_rune.
  assert (between 0 r 0xD7FF || between 0xE000 r 0x10FFFF = true) as -> by (unfold valid_rune in Hr; bool_cases; done).
  assert (r / 4096 = r / 64 / 64) as E1 by (rewrite Z.div_div by lia; f_equal).
  assert (r / 262144 = r / 64 / 64 / 64) as E2 by (rewrite !Z.div_div by lia; f_equal).
  destruct (base64 r) as [Ea Ha], (base64 (r / 64)) as [Eb Hb], (base64 (r / 64 / 64)) as [Ec Hc].
  rewrite E1, E2. revert Ea Ha Eb Hb Ec Hc. generalize (r mod 64) (r / 64 mod 64) (r / 64 / 64 mod 64).
  generalize (r / 64 / 64 / 64) (r / 64 / 64) (r / 64). intros q3 q2 q1 m0 m1 m2 Ea Ha Eb Hb Ec Hc. clear E1 E2.
  unfold valid_rune in Hr.
  destruct (Z.ltb_spec r 0x80); cbn [app decode_rune length]; [bool_cases; f_equal; lia|].
  destruct (Z.ltb_spec r 0x800); cbn [app decode_rune length]; [bool_cases; cbn; f_equal; lia|].
  destruct (Z.ltb_spec r 0x10000); cbn [app decode_rune length]; bool_cases; cbn [andb]; f_equal; lia.
Qed.

Lemma encode_rune_len r : (1 <= length (encode_rune r))%nat.
Proof. unfold encode_rune. repeat case_match; cbn; lia. Qed.

Lemma decode_rune_width s : s <> [] -> (1 <= (decode_rune s).2 <= length s)%nat.
Proof.
  destruct s as [|b0 t]; [done|intros _]. unfold decode_rune. destruct (_ <? _); [cbn; lia|].
  destruct t as [|b1 t1]; [cbn; lia|]. destruct (_ && _); [cbn; lia|]. destruct t1 as [|b2 t2]; [cbn; lia|].
  destruct (_ && _); [cbn; lia|]. destruct t2 as [|b3 t3]; [cbn; lia|]. destruct (_ && _); cbn; lia.
Qed.

Lemma decode_rune_valid s : bytes_ok s -> valid_rune (decode_rune s).1.
Proof.
  intros Hs. unfold decode_rune, valid_rune, RuneError, between, cont.
  destruct s as [|b0 t]; [cbn; lia|]. inversion Hs as [|? ? H0 _]; subst. unfold byte_ok in H0.
  destruct (Z.ltb_spec b0 0x80); [cbn; lia|].
  destruct t as [|b1 t1]; [cbn; lia|]. case_match; [cbn; lia|]. destruct t1 as [|b2 t2]; [cbn; lia|].
  case_match; [cbn; repeat case_match; lia|]. destruct t2 as [|b3 t3]; [cbn; lia|].
  clear H1 H2. destruct (Z.eqb_spec b0 240), (Z.eqb_spec b0 244); case_match; cbn; lia.
Qed.

Lemma split_runes_S f s : (length s <= f)%nat -> split_runes f s = pieces s.
Proof.
  unfold pieces. revert s. induction f as [f IH] using lt_wf_ind. intros s Hf.
  destruct s as [|b s]; [by destruct f|]. destruct f as [|f]; [cbn in Hf; lia|]. cbn [length split_runes] in *.
  pose proof (decode_rune_width (b :: s) ltac:(done)) as Hw. destruct (decode_rune (b :: s)) as [r w]; cbn in Hw. f_equal.
  assert (length (drop w (b :: s)) <= length s)%nat by (rewrite length_drop; cbn; lia).
  rewrite (IH f) by lia. destruct (decide (length s = f)) as [->|]; [by rewrite (IH f) by lia|].
  by rewrite (IH (length s)) by lia.
Qed.

Lemma pieces_cons s : s <> [] ->
  pieces s = ((decode_rune s).1, take (decode_rune s).2 s) :: pieces (drop (decode_rune s).2 s).
Proof.
  intros Hs. pose proof (decode_rune_width s Hs) as Hw. unfold pieces at 1. destruct s as [|b s]; [done|].
  cbn [length split_runes]. destruct (decode_rune (b :: s)) as [r w]; cbn in *. f_equal.
  apply split_runes_S. rewrite length_drop. cbn. lia.
Qed.

(** Induction on the runes of a string. *)
Lemma pieces_ind (P : bytes -> Prop) :
  P [] -> (forall s, s <> [] -> P (drop (decode_rune s).2 s) -> P s) -> forall s, P s.
Proof.
  intros H0 Hs s. induction s as [s IH] using (induction_ltof1 _ (@length Z)). unfold ltof in IH.
  destruct (decide (s = [])) as [->|Hne]; [done|]. apply Hs; [done|]. apply IH.
  pose proof (decode_rune_width s Hne). rewrite length_drop. lia.
Qed.

Lemma pieces_concat s : concat (pieces s).*2 = s.
Proof.
  induction s as [|s Hs IH] using pieces_ind; [done|]. rewrite pieces_cons by done. cbn. by rewrite IH, take_drop.
Qed.

Lemma runes_valid s : bytes_ok s -> Forall valid_rune (runes s).
Proof.
  unfold runes. induction s as [|s Hs IH] using pieces_ind; intros Hb; [constructor|]. rewrite pieces_cons by done. cbn.
  constructor; [by apply decode_rune_valid|]. by apply IH, Forall_drop.
Qed.

Lemma runes_of_runes rs : Forall valid_rune rs -> runes (of_runes rs) = rs.
Proof.
  unfold runes, of_runes. induction 1 as [|r rs Hr _ IH]; [done|]. cbn [fmap list_fmap concat].
  pose proof (encode_rune_len r) as Hl.
  rewrite pieces_cons by (destruct (encode_rune r); [cbn in Hl; lia|done]).
  rewrite decode_encode by done. cbn [fst snd fmap list_fmap]. by rewrite drop_app_length, IH.
Qed.

Lemma encode_rune_ok r : bytes_ok (encode_rune r).
Proof.
  assert (forall r, valid_rune r -> bytes_ok (encode_rune r)) as Hv.
  { clear r. intros r Hr. unfold encode_rune.
    assert (between 0 r 0xD7FF || between 0xE000 r 0x10FFFF = true) as -> by (unfold valid_rune in Hr; bool_cases; done).
    unfold valid_rune in Hr.
    assert (forall q, 0 <= q mod 64 < 64) as Hm by (intros; apply Z.mod_pos_bound; lia).
    pose proof (Hm r). pose proof (Hm (r / 64)). pose proof (Hm (r / 4096)).
    pose proof (Z.div_pos r 64). pose proof (Z.div_pos r 4096). pose proof (Z.div_pos r 262144).
    pose proof (Z.div_lt_upper_bound r 64 32). pose proof (Z.div_lt_upper_bound r 4096 16).
    pose proof (Z.div_lt_upper_bound r 262144 5).
    bool_cases; unfold bytes_ok; rewrite ?Forall_cons, Forall_nil; unfold byte_ok; lia. }
  destruct (decide (valid_rune r)) as [|Hn]; [by apply Hv|]. rewrite encode_rune_invalid by done.
  apply Hv. unfold valid_rune, RuneError. lia.
Qed.

Lemma of_runes_ok rs : bytes_ok (of_runes rs).
Proof. unfold of_runes. induction rs as [|r rs IH]; cbn; [constructor|]. apply Forall_app; split; [apply encode_rune_ok|exact IH]. Qed.
End Text.
