(* ===== verification/IndexCodec.v ===== *)
(** * IndexCodec: the order-preserving encoding of indexed values

    src/internal/storage/codec/value.go.  [AppendIndexValue] writes the bytes
    of a value after a buffer, [DecodeIndexValue] reads one value back and says
    how many bytes it took.  The specification is [index_cmp], the logical
    order of indexed values; the theorems say that the encoding is a round trip,
    delimits itself, and that byte order is [index_cmp]. *)
From S2P Require Import Prelude Float64 Values.
Import Float64.

(** ** The encoder and the decoder *)
Definition tagNull : Z := 0x00.
Definition tagBool : Z := 0x01.
Definition tagInt : Z := 0x02.
Definition tagFloat : Z := 0x03.
Definition tagStr : Z := 0x04.

Definition strEsc : Z := 0x00.
Definition strFF : Z := 0xFF.
Definition strTerm : Z := 0x00.

Definition BandBool : Z := tagBool.
Definition BandInt : Z := tagInt.
Definition BandFloat : Z := tagFloat.
Definition BandString : Z := tagStr.

(** The loop of [appendOrderedString]: each 0x00 becomes 0x00 0xFF. *)
Fixpoint escape (s : bytes) : bytes :=
  match s with
  | [] => []
  | c :: s' => if c =? strEsc then strEsc :: strFF :: escape s' else c :: escape s'
  end.

Definition appendOrderedString (dst s : bytes) : bytes :=
  dst ++ escape s ++ [strTerm; strTerm].

(** [AppendStringPrefix]: the string band and the escaped prefix, without the
    terminator ([enc[:len(enc)-2]]). *)
Definition AppendStringPrefix (dst s : bytes) : bytes :=
  let enc := appendOrderedString (dst ++ [tagStr]) s in
  take (length enc - 2) enc.

(** The 64 bits a float is stored as. *)
Definition float_key (bits : Z) : Z :=
  if negb (Z.land bits two63 =? 0) then Z.lxor bits (two64 - 1)
  else Z.lor bits two63.

Definition AppendIndexValue (dst : bytes) (v : value) : res bytes :=
  match v with
  | VNull => Ok (dst ++ [tagNull])
  | VBool x => Ok (dst ++ [tagBool; if x then 1 else 0])
  | VInt x => Ok (dst ++ [tagInt] ++ be 8 (Z.lxor (u64_of_i64 x) two63))
  | VFloat x => Ok (dst ++ [tagFloat] ++ be 8 (float_key x))
  | VStr x => Ok (appendOrderedString (dst ++ [tagStr]) x)
  | _ => Err ErrNonIndexable
  end.

(** The loop of [decodeOrderedString] at index [i], with the output so far. *)
Fixpoint decode_string_loop (src b : bytes) (i : nat) : res (bytes * nat) :=
  match src with
  | [] => Err ErrShort
  | c :: rest =>
      if negb (c =? strEsc) then decode_string_loop rest (b ++ [c]) (i + 1)
      else match rest with
      | [] => Err ErrShort
      | d :: rest' =>
          if d =? strTerm then Ok (b, (i + 2)%nat)
          else if d =? strFF then decode_string_loop rest' (b ++ [strEsc]) (i + 2)
          else Err (ErrBadEscape d)
      end
  end.

Definition decodeOrderedString (src : bytes) : res (bytes * nat) :=
  decode_string_loop src [] 0.

(** The inverse of [float_key]. *)
Definition float_unkey (bits : Z) : Z :=
  if negb (Z.land bits two63 =? 0) then Z.ldiff bits two63
  else Z.lxor bits (two64 - 1).

Definition DecodeIndexValue (src : bytes) : res (value * nat) :=
  match src with
  | [] => Err ErrShort
  | t :: rest =>
      if t =? tagNull then Ok (VNull, 1%nat)
      else if t =? tagBool then
        match rest with
        | [] => Err ErrShort
        | b :: _ => Ok (VBool (negb (b =? 0)), 2%nat)
        end
      else if t =? tagInt then
        if (length src <? 9)%nat then Err ErrShort
        else Ok (VInt (i64_of_u64 (Z.lxor (be_get (take 8 rest)) two63)), 9%nat)
      else if t =? tagFloat then
        if (length src <? 9)%nat then Err ErrShort
        else Ok (VFloat (float_unkey (be_get (take 8 rest))), 9%nat)
      else if t =? tagStr then
        '(s, n) ← decodeOrderedString rest; Ok (VStr s, (1 + n)%nat)
      else Err (ErrBadTag t)
  end.

(** ** Specification: the logical order *)

(** Order of float patterns: numeric, with -0.0 just below 0.0 and the NaNs at
    the ends. *)
Definition float_rank (b : Z) : Z := if sgn b then - 1 - mag b else mag b.

Definition kind_rank (v : value) : Z :=
  match v with
  | VNull => 0 | VBool _ => 1 | VInt _ => 2 | VFloat _ => 3 | _ => 4
  end.

Definition index_cmp (a b : value) : comparison :=
  match a, b with
  | VBool x, VBool y => Z.compare (Z.b2z x) (Z.b2z y)
  | VInt x, VInt y => Z.compare x y
  | VFloat x, VFloat y => Z.compare (float_rank x) (float_rank y)
  | VStr x, VStr y => bcmp x y
  | _, _ => Z.compare (kind_rank a) (kind_rank b)
  end.

(** The encoding of an indexable value on its own. *)
Definition enc_value (v : value) : bytes :=
  match AppendIndexValue [] v with Ok b => b | Err _ => [] end.

(** ** Bit tricks *)

Lemma lxor_two63 u : u64 u -> Z.lxor u two63 = if u <? two63 then u + two63 else u - two63.
Proof.
  intros H. destruct (Z.ltb_spec u two63).
  - rewrite <- Z.add_nocarry_lxor; [done|].
    apply Z.bits_inj_0. intros n. rewrite Z.land_spec. unfold two63 in *.
    rewrite Z.pow2_bits_eqb by lia. destruct (Z.eqb_spec 63 n) as [<-|]; [|apply andb_false_r].
    rewrite andb_true_r, Z.testbit_eqb, Z.div_small by solve_width. done.
  - replace u with (u - two63 + two63) at 1 by lia. set (v := u - two63) in *.
    assert (Z.land v two63 = 0).
    { apply Z.bits_inj_0. intros n. rewrite Z.land_spec. unfold two63 in *.
      rewrite Z.pow2_bits_eqb by lia. destruct (Z.eqb_spec 63 n) as [<-|]; [|apply andb_false_r].
      rewrite andb_true_r, Z.testbit_eqb, Z.div_small by solve_width. done. }
    rewrite Z.add_nocarry_lxor, Z.lxor_assoc, Z.lxor_nilpotent, Z.lxor_0_r by done. done.
Qed.

Lemma lxor_two63_u64 u : u64 u -> u64 (Z.lxor u two63).
Proof. intros H. rewrite lxor_two63 by done. zcases; solve_width. Qed.

(** The stored integer key is the value shifted by [2^63]. *)
Lemma int_key x : i64 x -> Z.lxor (u64_of_i64 x) two63 = x + two63.
Proof.
  intros H. rewrite lxor_two63 by apply u64_of_i64_range.
  pose proof (i64_u64_roundtrip x H) as E. pose proof (u64_of_i64_range x).
  unfold i64_of_u64 in E. zcases; solve_width.
Qed.

Lemma lxor_ones b : u64 b -> Z.lxor b (two64 - 1) = two64 - 1 - b.
Proof.
  intros H. replace (two64 - 1) with (Z.ones 64) by reflexivity.
  rewrite (Z.sub_nocarry_ldiff (Z.ones 64) b).
  - apply Z.bits_inj. intros n. rewrite Z.lxor_spec, Z.ldiff_spec.
    destruct (Z_lt_le_dec n 0); [by rewrite !Z.testbit_neg_r by lia|].
    destruct (Z_lt_le_dec n 64).
    + rewrite Z.ones_spec_low by lia. by destruct (Z.testbit b n).
    + rewrite Z.ones_spec_high by lia. rewrite (Z.bits_above_log2 b n); [done|solve_width|].
      destruct (Z.eq_dec b 0) as [->|]; [cbn; lia|]. apply Z.log2_lt_pow2; [solve_width|].
      eapply Z.lt_le_trans; [apply H|]. apply Z.pow_le_mono_r; lia.
  - apply Z.bits_inj_0. intros n. rewrite Z.ldiff_spec.
    destruct (Z_lt_le_dec n 0); [by rewrite !Z.testbit_neg_r by lia|].
    destruct (Z_lt_le_dec n 64).
    + rewrite Z.ones_spec_low by lia. apply andb_false_r.
    + rewrite (Z.bits_above_log2 b n); [done|solve_width|].
      destruct (Z.eq_dec b 0) as [->|]; [cbn; lia|]. apply Z.log2_lt_pow2; [solve_width|].
      eapply Z.lt_le_trans; [apply H|]. apply Z.pow_le_mono_r; lia.
Qed.

Lemma land_two63 b : u64 b -> negb (Z.land b two63 =? 0) = sgn b.
Proof.
  intros H. unfold sgn. destruct (Z.testbit b 63) eqn:E.
  - apply negb_true_iff, Z.eqb_neq. intros E0.
    apply (f_equal (fun z => Z.testbit z 63)) in E0.
    rewrite Z.land_spec, E, Z.bits_0 in E0. done.
  - apply negb_false_iff, Z.eqb_eq, Z.bits_inj_0. intros n. rewrite Z.land_spec.
    unfold two63. rewrite Z.pow2_bits_eqb by lia.
    destruct (Z.eqb_spec 63 n) as [<-|]; [by rewrite E|apply andb_false_r].
Qed.

Lemma lor_two63 b : u64 b -> sgn b = false -> Z.lor b two63 = b + two63.
Proof.
  intros H Hs.
  assert (Z.land b two63 = 0) as E
    by (pose proof (land_two63 b H) as E; rewrite Hs, negb_false_iff, Z.eqb_eq in E; done).
  by rewrite Z.add_nocarry_lxor, Z.lxor_lor.
Qed.

(** The stored float key is the rank shifted by [2^63]. *)
Lemma float_key_rank b : u64 b -> float_key b = float_rank b + two63.
Proof.
  intros H. unfold float_key, float_rank. rewrite land_two63 by done.
  pose proof (bits_split b H) as E. destruct (sgn b) eqn:Es.
  - rewrite lxor_ones by done. solve_width.
  - rewrite lor_two63 by done. lia.
Qed.

Lemma float_rank_range b : - two63 <= float_rank b < two63.
Proof. pose proof (mag_range b). unfold float_rank. destruct (sgn b); lia. Qed.

Lemma float_key_u64 b : u64 b -> u64 (float_key b).
Proof. intros H. rewrite float_key_rank by done. pose proof (float_rank_range b). solve_width. Qed.

Lemma float_unkey_key b : u64 b -> float_unkey (float_key b) = b.
Proof.
  intros H. pose proof (float_key_u64 b H) as Hk. unfold float_unkey. rewrite land_two63 by done.
  rewrite sgn_spec by done. rewrite float_key_rank in * by done.
  pose proof (bits_split b H) as E. pose proof (mag_range b). unfold float_rank in *.
  destruct (sgn b).
  - rewrite (proj2 (Z.leb_gt _ _)) by lia. rewrite lxor_ones by done. solve_width.
  - rewrite (proj2 (Z.leb_le _ _)) by lia.
    rewrite <- Z.sub_nocarry_ldiff; [lia|].
    replace (mag b + two63) with (Z.lor (mag b) two63)
      by (apply lor_two63; [solve_width|by apply sgn_pos]).
    apply Z.bits_inj_0. intros n. rewrite Z.ldiff_spec, Z.lor_spec. by destruct (Z.testbit two63 n), (Z.testbit (mag b) n).
Qed.

(** ** Strings *)

Lemma decode_string_spec s b i rest :
  bytes_ok s ->
  decode_string_loop (escape s ++ [strTerm; strTerm] ++ rest) b i
  = Ok (b ++ s, (i + length (escape s) + 2)%nat).
Proof.
  intros Hs. revert b i. induction Hs as [|c s Hc Hs IH]; intros b i; simpl.
  - rewrite app_nil_r. do 2 f_equal. lia.
  - destruct (Z.eqb_spec c strEsc) as [->|Hne]; simpl.
    + rewrite IH, <- app_assoc. do 2 f_equal. lia.
    + rewrite (proj2 (Z.eqb_neq c strEsc)) by done. simpl. rewrite IH, <- app_assoc.
      do 2 f_equal. lia.
Qed.

Lemma escape_ok s : bytes_ok s -> bytes_ok (escape s).
Proof.
  induction 1 as [|c s Hc Hs IH]; simpl; [constructor|].
  destruct (c =? strEsc); solve_bytes.
Qed.

(** Escaped strings compare as the strings do, whatever follows them. *)
Lemma bcmp_escape s t x y :
  bytes_ok s -> bytes_ok t ->
  bcmp (escape s ++ [strTerm; strTerm] ++ x) (escape t ++ [strTerm; strTerm] ++ y)
  = match bcmp s t with Eq => bcmp x y | c => c end.
Proof.
  intros Hs. revert t. induction Hs as [|c s Hc Hs IH]; intros t Ht.
  - destruct Ht as [|d t Hd Ht]; [done|]. cbn [escape].
    destruct (Z.eqb_spec d strEsc) as [->|Hne]; [reflexivity|]. cbn [app bcmp].
    unfold byte_ok, strEsc, strTerm in *. by destruct (Z.compare_spec 0 d); try lia.
  - destruct Ht as [|d t Hd Ht]; cbn [escape].
    + destruct (Z.eqb_spec c strEsc) as [->|Hne]; [reflexivity|]. cbn [app bcmp].
      unfold byte_ok, strEsc, strTerm in *. by destruct (Z.compare_spec c 0); try lia.
    + specialize (IH t Ht).
      destruct (Z.eqb_spec c strEsc) as [->|Hc0], (Z.eqb_spec d strEsc) as [->|Hd0];
        cbn [app bcmp]; rewrite ?Z.compare_refl; try exact IH.
      * unfold byte_ok, strEsc in *. by destruct (Z.compare_spec 0 d); try lia.
      * unfold byte_ok, strEsc in *. by destruct (Z.compare_spec c 0); try lia.
      * destruct (c ?= d); [apply IH|done|done].
Qed.

Lemma has_prefix_escape p s rest :
  bytes_ok p -> bytes_ok s ->
  has_prefix (escape p) (escape s ++ [strTerm; strTerm] ++ rest) = has_prefix p s.
Proof.
  intros Hp. revert s. induction Hp as [|c p Hc Hp IH]; intros s Hs; [done|].
  cbn [escape]. destruct Hs as [|d s Hd Hs]; cbn [escape].
  - destruct (Z.eqb_spec c strEsc) as [->|Hc0]; [done|]. cbn [app has_prefix].
    by rewrite (proj2 (Z.eqb_neq c strTerm)).
  - specialize (IH s Hs).
    destruct (Z.eqb_spec c strEsc) as [->|Hc0], (Z.eqb_spec d strEsc) as [->|Hd0];
      cbn [app has_prefix].
    + rewrite !Z.eqb_refl. exact IH.
    + by rewrite (proj2 (Z.eqb_neq strEsc d)) by congruence.
    + by rewrite (proj2 (Z.eqb_neq c strEsc)).
    + f_equal. exact IH.
Qed.

(** ** Values *)

(** [AppendIndexValue] only appends. *)
Lemma AppendIndexValue_app dst v :
  isIndexable v = true -> AppendIndexValue dst v = Ok (dst ++ enc_value v).
Proof.
  unfold enc_value. destruct v; simpl; try done; unfold appendOrderedString.
  intros _. by rewrite <- app_assoc.
Qed.

Lemma AppendIndexValue_err dst v :
  isIndexable v = false -> AppendIndexValue dst v = Err ErrNonIndexable.
Proof. by destruct v. Qed.

Lemma enc_value_ok v : value_ok v -> bytes_ok (enc_value v).
Proof.
  destruct v; simpl; intros H; unfold enc_value; simpl; unfold appendOrderedString;
    try apply escape_ok in H; try destruct b; solve_bytes.
Qed.

(** Every encoding starts with its kind's tag. *)
Lemma enc_value_head v :
  isIndexable v = true -> exists e, enc_value v = kind_rank v :: e.
Proof. destruct v; simpl; try done; intros _; unfold enc_value; simpl; eauto. Qed.

Lemma enc_value_length_pos v : isIndexable v = true -> (1 <= length (enc_value v))%nat.
Proof. intros H. destruct (enc_value_head v H) as [e ->]. simpl. lia. Qed.

Lemma decode_enc_value v rest :
  stored_ok v -> isIndexable v = true ->
  DecodeIndexValue (enc_value v ++ rest) = Ok (v, length (enc_value v)).
Proof.
  intros [Hv _] Hi. destruct v; try done; unfold enc_value; simpl in Hv |- *.
  - by destruct b.
  - rewrite be_length. simpl. rewrite take_app_length' by (by rewrite be_length).
    rewrite be8_get by (apply lxor_two63_u64, u64_of_i64_range).
    rewrite Z.lxor_assoc, Z.lxor_nilpotent, Z.lxor_0_r. by rewrite i64_u64_roundtrip.
  - rewrite be_length. simpl. rewrite take_app_length' by (by rewrite be_length).
    rewrite be8_get by (by apply float_key_u64). by rewrite float_unkey_key.
  - unfold decodeOrderedString, appendOrderedString. rewrite <- !app_assoc. simpl.
    pose proof (decode_string_spec s [] 0 rest Hv) as E. simpl in E. rewrite E. simpl.
    do 2 f_equal. rewrite length_app. simpl. lia.
Qed.

Lemma compare_shift x y k : (x + k ?= y + k) = (x ?= y).
Proof. rewrite (Z.add_comm x), (Z.add_comm y). apply Zcompare_plus_compat. Qed.

(** The byte order of encodings, whatever follows them, is [index_cmp]. *)
Lemma bcmp_enc_value a b x y :
  stored_ok a -> stored_ok b -> isIndexable a = true -> isIndexable b = true ->
  bcmp (enc_value a ++ x) (enc_value b ++ y)
  = match index_cmp a b with Eq => bcmp x y | c => c end.
Proof.
  intros [Ha _] [Hb _] Ia Ib.
  destruct a, b; try done; unfold enc_value; simpl in Ha, Hb |- *; try done; try (by destruct b, b0).
  - rewrite bcmp_app_len by (by rewrite !be_length).
    rewrite bcmp_be8 by (apply lxor_two63_u64, u64_of_i64_range).
    by rewrite !int_key, compare_shift by done.
  - rewrite bcmp_app_len by (by rewrite !be_length).
    rewrite bcmp_be8 by (by apply float_key_u64).
    by rewrite !float_key_rank, compare_shift by done.
  - unfold appendOrderedString. simpl. rewrite <- !app_assoc. by apply bcmp_escape.
Qed.

Lemma index_cmp_eq a b :
  stored_ok a -> stored_ok b -> isIndexable a = true -> isIndexable b = true ->
  index_cmp a b = Eq -> a = b.
Proof.
  intros Ha Hb Ia Ib E.
  pose proof (bcmp_enc_value a b [] [] Ha Hb Ia Ib) as Hc. rewrite E in Hc.
  apply bcmp_eq in Hc. rewrite !app_nil_r in Hc.
  pose proof (decode_enc_value a [] Ha Ia) as Da. pose proof (decode_enc_value b [] Hb Ib) as Db.
  rewrite Hc in Da. congruence.
Qed.

(** An encoding is never a proper prefix of another. *)
Lemma enc_value_prefix_free a b x y :
  stored_ok a -> stored_ok b -> isIndexable a = true -> isIndexable b = true ->
  enc_value a ++ x = enc_value b ++ y -> a = b /\ x = y.
Proof.
  intros Ha Hb Ia Ib E.
  pose proof (decode_enc_value a x Ha Ia) as Da. pose proof (decode_enc_value b y Hb Ib) as Db.
  rewrite E in Da. rewrite Da in Db. injection Db as ->. split; [done|].
  by apply app_inv_head in E.
Qed.

(** On non-NaN floats the logical order refines Go's [<]. *)
Lemma float_rank_flt a b : u64 a -> u64 b -> flt a b = true -> float_rank a < float_rank b.
Proof.
  intros Ha Hb. unfold flt. rewrite !andb_true_iff, Z.ltb_lt. intros [_ H].
  pose proof (mag_range a) as Ma. pose proof (mag_range b) as Mb. unfold fnum, float_rank in *.
  pose proof (mag_num_nonneg (mag a) ltac:(lia)). pose proof (mag_num_nonneg (mag b) ltac:(lia)).
  destruct (sgn a), (sgn b); try lia.
  - assert (mag b < mag a); [|lia]. apply mag_num_lt_inv; lia.
  - apply mag_num_lt_inv; lia.
Qed.

(** ** Properties *)

(** Encoding a storable value and decoding it back is the identity, and the
    decoder consumes exactly the encoding, whatever bytes follow it (in an index
    key the node ID follows). *)
Theorem index_value_roundtrip (v : value) (dst rest : bytes) :
  stored_ok v -> isIndexable v = true ->
  exists e, AppendIndexValue dst v = Ok (dst ++ e) /\
            DecodeIndexValue (e ++ rest) = Ok (v, length e).
Proof.
  intros Hv Hi. exists (enc_value v). split; [by apply AppendIndexValue_app|by apply decode_enc_value].
Qed.

Lemma index_value_roundtrip_witness :
  exists e, AppendIndexValue [112] (VStr [97; 0; 98]) = Ok ([112] ++ e) /\
            DecodeIndexValue (e ++ [7; 7]) = Ok (VStr [97; 0; 98], length e).
Proof.
  apply (index_value_roundtrip (VStr [97; 0; 98]) [112] [7; 7]); [|reflexivity].
  split; [|reflexivity]. apply (bool_decide_unpack (bytes_ok [97; 0; 98])). vm_compute. exact I.
Defined.

(** C28: byte order is logical order.  Two encoded values, each followed by
    arbitrary bytes, compare as [index_cmp] says (integers numerically, floats
    as IEEE numbers, strings bytewise, kinds in the order of their bands) and
    the bytes that follow decide only between equal values. *)
Theorem index_value_order (a b : value) (ea eb x y : bytes) :
  stored_ok a -> stored_ok b ->
  AppendIndexValue [] a = Ok ea -> AppendIndexValue [] b = Ok eb ->
  bcmp (ea ++ x) (eb ++ y) = match index_cmp a b with Eq => bcmp x y | c => c end.
Proof.
  intros Ha Hb Ea Eb.
  destruct (isIndexable a) eqn:Ia; [|by rewrite AppendIndexValue_err in Ea].
  destruct (isIndexable b) eqn:Ib; [|by rewrite AppendIndexValue_err in Eb].
  rewrite AppendIndexValue_app in Ea, Eb by done. injection Ea as <-. injection Eb as <-.
  by apply bcmp_enc_value.
Qed.

Lemma index_value_order_witness :
  bcmp ([2; 127; 255; 255; 255; 255; 255; 255; 255] ++ [9]) ([2; 128; 0; 0; 0; 0; 0; 0; 5] ++ [1]) = Lt.
Proof.
  apply (index_value_order (VInt (-1)) (VInt 5)); try (vm_compute; reflexivity);
    repeat split; vm_compute; congruence.
Defined.

(** Go's [<] on floats is the order of their index keys: for non-NaN
    patterns, [a < b] makes the key of [a] come before the key of [b]. *)
Theorem index_float_order (a b : Z) (x y : bytes) :
  u64 a -> u64 b -> flt a b = true ->
  exists ea eb, AppendIndexValue [] (VFloat a) = Ok ea /\ AppendIndexValue [] (VFloat b) = Ok eb /\
    blt (ea ++ x) (eb ++ y).
Proof.
  intros Ha Hb H. exists (enc_value (VFloat a)), (enc_value (VFloat b)). repeat split.
  unfold blt. rewrite bcmp_enc_value by (done || by split). simpl.
  by rewrite (proj2 (Z.compare_lt_iff _ _) (float_rank_flt a b Ha Hb H)).
Qed.


(** The scan for [STARTS WITH p] visits exactly the strings that start with
    [p]: an indexed string's encoding begins with [AppendStringPrefix dst p] if
    and only if the string begins with [p]. *)
Lemma string_prefix_exact (dst p s rest e : bytes) :
  bytes_ok p -> bytes_ok s -> AppendIndexValue dst (VStr s) = Ok e ->
  has_prefix (AppendStringPrefix dst p) (e ++ rest) = has_prefix p s.
Proof.
  intros Hp Hs [= <-]. unfold AppendStringPrefix, appendOrderedString.
  replace (take _ _) with ((dst ++ [tagStr]) ++ escape p).
  - rewrite <- (has_prefix_escape p s rest) by done.
    rewrite <- !app_assoc, !has_prefix_app_l.
    done.
  - rewrite !app_assoc, take_app_length'; [done|]. rewrite !length_app. simpl. lia.
Qed.
