(* ===== verification/Keys.v ===== *)
(** * Keys: the key layout of the ordered store

    src/internal/storage/codec/key.go, and the key builders of
    src/internal/catalog/catalog.go and format.go.  Every key starts with a
    table tag; identifiers follow in big-endian, so that byte order is numeric
    order and a table's hot lookups are prefix scans.  [skey] is the set of
    keys the engine ever writes, as data, with its encoding [key_of]. *)
From S2P Require Import Prelude Float64 Values IndexCodec.

(** ** Table tags (codec) *)
Definition KeyNode : Z := 110.    (* 'n' *)
Definition KeyEdge : Z := 101.    (* 'e' *)
Definition KeyOut : Z := 111.     (* 'o' *)
Definition KeyIn : Z := 105.      (* 'i' *)
Definition KeyLabel : Z := 108.   (* 'l' *)
Definition KeyProp : Z := 112.    (* 'p' *)
Definition KeyUnique : Z := 117.  (* 'u' *)
Definition KeyRelProp : Z := 114. (* 'r' *)

Definition appendU32 (dst : bytes) (v : Z) : bytes := dst ++ be 4 v.
Definition appendU64 (dst : bytes) (v : Z) : bytes := dst ++ be 8 v.

Definition NodeKey (id : Z) : bytes := appendU64 [KeyNode] id.
Definition EdgeKey (id : Z) : bytes := appendU64 [KeyEdge] id.
Definition NodePrefix : bytes := [KeyNode].
Definition EdgePrefix : bytes := [KeyEdge].

Definition OutKey (src typeID dst edge : Z) : bytes :=
  appendU64 (appendU64 (appendU32 (appendU64 [KeyOut] src) typeID) dst) edge.
Definition InKey (dst typeID src edge : Z) : bytes :=
  appendU64 (appendU64 (appendU32 (appendU64 [KeyIn] dst) typeID) src) edge.
Definition OutPrefix (src typeID : Z) : bytes := appendU32 (appendU64 [KeyOut] src) typeID.
Definition OutPrefixAll (src : Z) : bytes := appendU64 [KeyOut] src.
Definition InPrefix (dst typeID : Z) : bytes := appendU32 (appendU64 [KeyIn] dst) typeID.
Definition InPrefixAll (dst : Z) : bytes := appendU64 [KeyIn] dst.

Definition LabelKey (label node : Z) : bytes := appendU64 (appendU32 [KeyLabel] label) node.
Definition LabelPrefix (label : Z) : bytes := appendU32 [KeyLabel] label.

Definition PropPrefix (label propKey : Z) (v : value) : res bytes :=
  AppendIndexValue (appendU32 (appendU32 [KeyProp] label) propKey) v.
Definition PropKey (label propKey : Z) (v : value) (node : Z) : res bytes :=
  k ← AppendIndexValue (appendU32 (appendU32 [KeyProp] label) propKey) v;
  Ok (appendU64 k node).
Definition PropIndexPrefix (label propKey : Z) : bytes :=
  appendU32 (appendU32 [KeyProp] label) propKey.
Definition PropBandPrefix (label propKey band : Z) : bytes :=
  appendU32 (appendU32 [KeyProp] label) propKey ++ [band].

Definition RelPropPrefix (typeID propKey : Z) (v : value) : res bytes :=
  AppendIndexValue (appendU32 (appendU32 [KeyRelProp] typeID) propKey) v.
Definition RelPropKey (typeID propKey : Z) (v : value) (edge : Z) : res bytes :=
  k ← RelPropPrefix typeID propKey v; Ok (appendU64 k edge).
Definition RelPropIndexPrefix (typeID propKey : Z) : bytes :=
  appendU32 (appendU32 [KeyRelProp] typeID) propKey.

Definition UniqueKey (label propKey : Z) (v : value) : res bytes :=
  AppendIndexValue (appendU32 (appendU32 [KeyUnique] label) propKey) v.
Definition UniquePrefix (label propKey : Z) : bytes :=
  appendU32 (appendU32 [KeyUnique] label) propKey.

(** ** Parsers *)

(** [binary.BigEndian.UintN(key[i:i+n])]. *)
Definition field (i n : nat) (key : bytes) : Z := be_get (take n (drop i key)).

(** [len(key) == n && key[0] == tag]. *)
Definition is_key (n : nat) (tag : Z) (key : bytes) : bool :=
  (length key =? n)%nat && match key with t :: _ => t =? tag | [] => false end.

Definition NodeIDFromKey (key : bytes) : res Z :=
  if is_key 9 KeyNode key then Ok (field 1 8 key) else Err ErrMalformedKey.
Definition EdgeIDFromKey (key : bytes) : res Z :=
  if is_key 9 KeyEdge key then Ok (field 1 8 key) else Err ErrMalformedKey.
Definition ParseOutKey (key : bytes) : res (Z * Z * Z * Z) :=
  if is_key 29 KeyOut key
  then Ok (field 1 8 key, field 9 4 key, field 13 8 key, field 21 8 key)
  else Err ErrMalformedKey.
Definition ParseInKey (key : bytes) : res (Z * Z * Z * Z) :=
  if is_key 29 KeyIn key
  then Ok (field 1 8 key, field 9 4 key, field 13 8 key, field 21 8 key)
  else Err ErrMalformedKey.
Definition ParseLabelKey (key : bytes) : res (Z * Z) :=
  if is_key 13 KeyLabel key then Ok (field 1 4 key, field 5 8 key) else Err ErrMalformedKey.

(** [len(key) >= n && key[0] == tag]. *)
Definition is_long_key (n : nat) (tag : Z) (key : bytes) : bool :=
  (n <=? length key)%nat && match key with t :: _ => t =? tag | [] => false end.

Definition last8 (key : bytes) : Z := be_get (drop (length key - 8) key).

Definition ParsePropKeyNode (key : bytes) : res Z :=
  if is_long_key 18 KeyProp key then Ok (last8 key) else Err ErrMalformedKey.

(** The common body of [ParsePropKey] and [ParseRelPropKey]. *)
Definition parse_value_key (tag : Z) (key : bytes) : res (value * Z) :=
  if is_long_key 18 tag key then
    '(v, n) ← DecodeIndexValue (drop 9 key);
    if (length key =? 9 + n + 8)%nat then Ok (v, last8 key) else Err ErrMalformedKey
  else Err ErrMalformedKey.
Definition ParsePropKey (key : bytes) : res (value * Z) := parse_value_key KeyProp key.
Definition ParseRelPropKey (key : bytes) : res (value * Z) := parse_value_key KeyRelProp key.

(** ** Catalog keys *)
Definition tagCounter : Z := 99.     (* 'c' *)
Definition tagLabelFwd : Z := 76.    (* 'L' *)
Definition tagTypeFwd : Z := 84.     (* 'T' *)
Definition tagKeyFwd : Z := 75.      (* 'K' *)
Definition tagReverse : Z := 82.     (* 'R' *)
Definition tagIndexReg : Z := 88.    (* 'X' *)
Definition tagConstraint : Z := 85.  (* 'U' *)
Definition tagRelIndex : Z := 89.    (* 'Y' *)
Definition tagFormat : Z := 70.      (* 'F' *)

Definition kindLabel : Z := 76.
Definition kindType : Z := 84.
Definition kindKey : Z := 75.
Definition kindNode : Z := 110.
Definition kindEdge : Z := 101.

Definition indexKey (label propKey : Z) : bytes := [tagIndexReg] ++ be 4 label ++ be 4 propKey.
Definition constraintKey (label propKey : Z) : bytes := [tagConstraint] ++ be 4 label ++ be 4 propKey.
Definition relIndexKey (typeID propKey : Z) : bytes := [tagRelIndex] ++ be 4 typeID ++ be 4 propKey.
Definition formatKey : bytes := [tagFormat].
(** Keys that [internDict], [revName] and [nextCounter] build in place. *)
Definition fwdKey (fwdTag : Z) (name : bytes) : bytes := [fwdTag] ++ name.
Definition revKey (kind id : Z) : bytes := [tagReverse; kind] ++ be 4 id.
Definition counterKey (kind : Z) : bytes := [tagCounter; kind].

(** ** The key space as data *)
Inductive dict := DLabel | DType | DKey.
Inductive counter := CNode | CEdge | CDict (d : dict).

#[global] Instance dict_eq_dec : EqDecision dict.
Proof. solve_decision. Defined.
#[global] Instance counter_eq_dec : EqDecision counter.
Proof. solve_decision. Defined.

Definition dict_kind (d : dict) : Z :=
  match d with DLabel => kindLabel | DType => kindType | DKey => kindKey end.
Definition dict_tag (d : dict) : Z :=
  match d with DLabel => tagLabelFwd | DType => tagTypeFwd | DKey => tagKeyFwd end.
Definition counter_kind (c : counter) : Z :=
  match c with CNode => kindNode | CEdge => kindEdge | CDict d => dict_kind d end.

Inductive skey : Type :=
| KNode (id : Z)
| KEdge (id : Z)
| KOut (src typ dst edge : Z)
| KIn (dst typ src edge : Z)
| KLabel (label node : Z)
| KProp (label key : Z) (v : value) (node : Z)
| KUnique (label key : Z) (v : value)
| KRel (typ key : Z) (v : value) (edge : Z)
| KFwd (d : dict) (name : bytes)
| KRev (d : dict) (id : Z)
| KCounter (c : counter)
| KIndex (label key : Z)
| KConstraint (label key : Z)
| KRelIndex (typ key : Z)
| KFormat.

#[global] Instance skey_eq_dec : EqDecision skey.
Proof. solve_decision. Defined.

Definition value_key_ok (v : value) : Prop := stored_ok v /\ isIndexable v = true.

Definition skey_ok (k : skey) : Prop :=
  match k with
  | KNode id | KEdge id => u64 id
  | KOut s t d e | KIn d t s e => u64 s /\ u32 t /\ u64 d /\ u64 e
  | KLabel l n => u32 l /\ u64 n
  | KProp l k v n | KRel l k v n => u32 l /\ u32 k /\ value_key_ok v /\ u64 n
  | KUnique l k v => u32 l /\ u32 k /\ value_key_ok v
  | KFwd _ _ | KCounter _ | KFormat => True
  | KRev _ id => u32 id
  | KIndex l k | KConstraint l k | KRelIndex l k => u32 l /\ u32 k
  end.

Definition key_of (k : skey) : bytes :=
  match k with
  | KNode id => NodeKey id
  | KEdge id => EdgeKey id
  | KOut s t d e => OutKey s t d e
  | KIn d t s e => InKey d t s e
  | KLabel l n => LabelKey l n
  | KProp l k v n => appendU64 (PropIndexPrefix l k ++ enc_value v) n
  | KUnique l k v => UniquePrefix l k ++ enc_value v
  | KRel t k v e => appendU64 (RelPropIndexPrefix t k ++ enc_value v) e
  | KFwd d name => fwdKey (dict_tag d) name
  | KRev d id => revKey (dict_kind d) id
  | KCounter c => counterKey (counter_kind c)
  | KIndex l k => indexKey l k
  | KConstraint l k => constraintKey l k
  | KRelIndex t k => relIndexKey t k
  | KFormat => formatKey
  end.

(** The builders that can fail return the key of the key space. *)
Lemma PropKey_key l k v n : isIndexable v = true -> PropKey l k v n = Ok (key_of (KProp l k v n)).
Proof. intros H. unfold PropKey. by rewrite AppendIndexValue_app. Qed.
Lemma RelPropKey_key t k v e : isIndexable v = true -> RelPropKey t k v e = Ok (key_of (KRel t k v e)).
Proof. intros H. unfold RelPropKey, RelPropPrefix. by rewrite AppendIndexValue_app. Qed.
Lemma UniqueKey_key l k v : isIndexable v = true -> UniqueKey l k v = Ok (key_of (KUnique l k v)).
Proof. intros H. unfold UniqueKey. by rewrite AppendIndexValue_app. Qed.

(** Put every component of a key after its tag. *)
Ltac norm_key :=
  unfold key_of, NodeKey, EdgeKey, OutKey, InKey, OutPrefix, OutPrefixAll, InPrefix, InPrefixAll,
    LabelKey, LabelPrefix, PropIndexPrefix, PropBandPrefix, UniquePrefix, RelPropIndexPrefix,
    fwdKey, revKey, counterKey, indexKey, constraintKey, relIndexKey, formatKey,
    NodePrefix, EdgePrefix, appendU32, appendU64 in *;
  rewrite <- ?app_assoc in *; cbn [app] in *.

(** Peel equal-width components off an equation between keys. *)
Ltac peel_fields :=
  repeat match goal with
  | H : be ?n _ ++ _ = be ?n _ ++ _ |- _ =>
      let E := fresh "E" in apply app_eq_len in H as [E H]; [|by rewrite !be_length]
  | H : be 8 ?a = be 8 ?b |- _ => apply be8_inj in H; [|done|done]
  | H : be 4 ?a = be 4 ?b |- _ => apply be4_inj in H; [|done|done]
  | H : enc_value ?a ++ _ = enc_value ?b ++ _ |- _ =>
      apply enc_value_prefix_free in H as [? H]; [|done..]
  end.

Lemma enc_value_inj a b : value_key_ok a -> value_key_ok b -> enc_value a = enc_value b -> a = b.
Proof.
  intros [Ha Ia] [Hb Ib] E. apply (enc_value_prefix_free a b [] []); try done. by rewrite E.
Qed.

Lemma dict_tag_inj d d' : dict_tag d = dict_tag d' -> d = d'.
Proof. by destruct d, d'. Qed.
Lemma dict_kind_inj d d' : dict_kind d = dict_kind d' -> d = d'.
Proof. by destruct d, d'. Qed.
Lemma counter_kind_inj c c' : counter_kind c = counter_kind c' -> c = c'.
Proof. destruct c as [| |[]], c' as [| |[]]; done. Qed.

Lemma app_cons_inj {A} (x y : A) a b : x :: a = y :: b -> x = y /\ a = b.
Proof. by intros [= -> ->]. Qed.

(** Distinct keys of the key space have distinct bytes. *)
Lemma key_of_inj a b : skey_ok a -> skey_ok b -> key_of a = key_of b -> a = b.
Proof.
  intros Ha Hb E.
  destruct a, b; try (destruct d); try (destruct d0); norm_key;
    apply app_cons_inj in E as [Ht E]; try discriminate Ht; clear Ht;
    simpl in Ha, Hb; destruct_and?; unfold value_key_ok in *; destruct_and?;
    peel_fields; subst; try done.
  { f_equal. by apply enc_value_inj. }
  1-3: apply app_cons_inj in E as [_ E]; f_equal; by apply be4_inj.
  apply app_cons_inj in E as [E _]; f_equal; by apply counter_kind_inj.
Qed.

(** ** Prefix scans select the intended keys *)

Lemma has_prefix_be n a b rest :
  0 <= a < 256 ^ Z.of_nat n -> 0 <= b < 256 ^ Z.of_nat n ->
  has_prefix (be n a) (be n b ++ rest) = true <-> a = b.
Proof.
  intros Ha Hb. rewrite has_prefix_spec. split.
  - intros [s E]. symmetry in E. apply app_eq_len in E as [E _]; [|by rewrite !be_length].
    by eapply be_inj.
  - intros ->. eauto.
Qed.

Lemma has_prefix_cut p q k rest :
  length p = length k -> has_prefix (p ++ q) (k ++ rest) = bool_decide (p = k) && has_prefix q rest.
Proof.
  revert k. induction p as [|x p IH]; intros [|y k] Hl; try done. cbn [app has_prefix].
  rewrite IH by (simpl in Hl; lia). destruct (Z.eqb_spec x y) as [->|Hne].
  - rewrite andb_true_l. f_equal. apply bool_decide_ext.
    split; [by intros ->|by intros [= ->]].
  - by rewrite (bool_decide_false (x :: p = y :: k)) by congruence.
Qed.

Ltac destruct_exists := repeat match goal with H : exists _, _ |- _ => destruct H end.

(** Reduce a prefix test on a key to equalities of its components. *)
Ltac prefix_fields :=
  repeat first
    [ rewrite has_prefix_cut by (by rewrite !be_length)
    | match goal with |- context [has_prefix (be ?n ?a) (be ?n ?b ++ ?r)] =>
        rewrite <- (app_nil_r (be n a)), has_prefix_cut by (by rewrite !be_length)
      end ].

Ltac prefix_crush :=
  simpl skey_ok in *; destruct_and?; prefix_fields;
  rewrite ?andb_true_iff, ?bool_decide_eq_true, ?andb_true_r;
  split; [intros; destruct_and?; peel_fields; subst; eauto|intros; destruct_exists; simplify_eq; done].

(** A scan lemma: other tables have another tag; in the scanned table the
    components of the prefix are compared. *)
Ltac scan_table :=
  match goal with |- context [key_of ?sk] => destruct sk end;
  try match goal with d : dict |- _ => destruct d end;
  unfold PropPrefix, RelPropPrefix; norm_key; cbn [has_prefix];
  try (split; intros; destruct_exists; discriminate);
  rewrite ?Z.eqb_refl, ?andb_true_l; prefix_crush.

Lemma scan_label l sk :
  u32 l -> skey_ok sk -> has_prefix (LabelPrefix l) (key_of sk) = true <-> exists n, sk = KLabel l n.
Proof. intros Hl Hk. scan_table. Qed.

Lemma scan_nodes sk :
  skey_ok sk -> has_prefix NodePrefix (key_of sk) = true <-> exists n, sk = KNode n.
Proof. intros Hk. scan_table. Qed.

Lemma scan_edges sk :
  skey_ok sk -> has_prefix EdgePrefix (key_of sk) = true <-> exists e, sk = KEdge e.
Proof. intros Hk. scan_table. Qed.

Lemma scan_out_all s sk :
  u64 s -> skey_ok sk ->
  has_prefix (OutPrefixAll s) (key_of sk) = true <-> exists t d e, sk = KOut s t d e.
Proof. intros Hs Hk. scan_table. Qed.

Lemma scan_out s t sk :
  u64 s -> u32 t -> skey_ok sk ->
  has_prefix (OutPrefix s t) (key_of sk) = true <-> exists d e, sk = KOut s t d e.
Proof. intros Hs Ht Hk. scan_table. Qed.

Lemma scan_in_all d sk :
  u64 d -> skey_ok sk ->
  has_prefix (InPrefixAll d) (key_of sk) = true <-> exists t s e, sk = KIn d t s e.
Proof. intros Hs Hk. scan_table. Qed.

Lemma scan_in d t sk :
  u64 d -> u32 t -> skey_ok sk ->
  has_prefix (InPrefix d t) (key_of sk) = true <-> exists s e, sk = KIn d t s e.
Proof. intros Hs Ht Hk. scan_table. Qed.

Lemma scan_prop_index l k sk :
  u32 l -> u32 k -> skey_ok sk ->
  has_prefix (PropIndexPrefix l k) (key_of sk) = true <-> exists v n, sk = KProp l k v n.
Proof. intros Hl Hk' Hk. scan_table. Qed.

Lemma scan_unique l k sk :
  u32 l -> u32 k -> skey_ok sk ->
  has_prefix (UniquePrefix l k) (key_of sk) = true <-> exists v, sk = KUnique l k v.
Proof. intros Hl Hk' Hk. scan_table. Qed.

Lemma scan_rel_index t k sk :
  u32 t -> u32 k -> skey_ok sk ->
  has_prefix (RelPropIndexPrefix t k) (key_of sk) = true <-> exists v e, sk = KRel t k v e.
Proof. intros Hl Hk' Hk. scan_table. Qed.

Lemma has_prefix_enc_value v w rest :
  value_key_ok v -> value_key_ok w ->
  has_prefix (enc_value v) (enc_value w ++ rest) = true <-> v = w.
Proof.
  intros [Hv Iv] [Hw Iw]. rewrite has_prefix_spec. split.
  - intros [s E]. symmetry. by apply (enc_value_prefix_free w v rest s).
  - intros ->. eauto.
Qed.

Lemma scan_prop l k v p sk :
  u32 l -> u32 k -> value_key_ok v -> skey_ok sk -> PropPrefix l k v = Ok p ->
  has_prefix p (key_of sk) = true <-> exists n, sk = KProp l k v n.
Proof.
  intros Hl Hk' [Hv Iv] Hk E. unfold PropPrefix in E. rewrite AppendIndexValue_app in E by done.
  injection E as <-. destruct sk; try (destruct d); norm_key; cbn [has_prefix];
    try (split; intros; destruct_exists; discriminate).
  rewrite Z.eqb_refl, andb_true_l. simpl skey_ok in Hk. destruct_and?. prefix_fields.
  rewrite !andb_true_iff, !bool_decide_eq_true, has_prefix_enc_value by (done || by split).
  split; [intros; destruct_and?; peel_fields; subst; eauto|intros [? [= -> -> ->]]; done].
Qed.

Lemma scan_rel t k v p sk :
  u32 t -> u32 k -> value_key_ok v -> skey_ok sk -> RelPropPrefix t k v = Ok p ->
  has_prefix p (key_of sk) = true <-> exists e, sk = KRel t k v e.
Proof.
  intros Hl Hk' [Hv Iv] Hk E. unfold RelPropPrefix in E. rewrite AppendIndexValue_app in E by done.
  injection E as <-. destruct sk; try (destruct d); norm_key; cbn [has_prefix];
    try (split; intros; destruct_exists; discriminate).
  rewrite Z.eqb_refl, andb_true_l. simpl skey_ok in Hk. destruct_and?. prefix_fields.
  rewrite !andb_true_iff, !bool_decide_eq_true, has_prefix_enc_value by (done || by split).
  split; [intros; destruct_and?; peel_fields; subst; eauto|intros [? [= -> -> ->]]; done].
Qed.

(** ** Parsing *)

(** Read a fixed-width field out of a key given by its components. *)
Lemma field_at i n p v rest :
  length p = i -> 0 <= v < 256 ^ Z.of_nat n -> field i n (p ++ be n v ++ rest) = v.
Proof.
  intros <- Hv. unfold field. rewrite drop_app_length, take_app_length' by (by rewrite be_length).
  by apply be_get_be_small.
Qed.

Lemma last8_at p n : u64 n -> last8 (p ++ be 8 n) = n.
Proof.
  intros H. unfold last8. rewrite length_app, be_length.
  replace (length p + 8 - 8)%nat with (length p) by lia. rewrite drop_app_length. by apply be8_get.
Qed.

Lemma u64_pow n : u64 n -> 0 <= n < 256 ^ Z.of_nat 8.
Proof. done. Qed.
Lemma u32_pow n : u32 n -> 0 <= n < 256 ^ Z.of_nat 4.
Proof. done. Qed.
#[export] Hint Resolve u64_pow u32_pow : codec_db.

Definition parsed (sk : skey) : Prop :=
  match sk with
  | KNode id => NodeIDFromKey (key_of sk) = Ok id
  | KEdge id => EdgeIDFromKey (key_of sk) = Ok id
  | KOut s t d e => ParseOutKey (key_of sk) = Ok (s, t, d, e)
  | KIn d t s e => ParseInKey (key_of sk) = Ok (d, t, s, e)
  | KLabel l n => ParseLabelKey (key_of sk) = Ok (l, n)
  | KProp l k v n =>
      ParsePropKey (key_of sk) = Ok (v, n) /\ ParsePropKeyNode (key_of sk) = Ok n
  | KRel t k v e => ParseRelPropKey (key_of sk) = Ok (v, e)
  | _ => True
  end.

Lemma parse_adjacency tag a t b e :
  u64 a -> u32 t -> u64 b -> u64 e ->
  let key := tag :: be 8 a ++ be 4 t ++ be 8 b ++ be 8 e in
  is_key 29 tag key = true /\
  (field 1 8 key, field 9 4 key, field 13 8 key, field 21 8 key) = (a, t, b, e).
Proof.
  intros Ha Ht Hb He key. subst key. split.
  - unfold is_key. cbn [length]. rewrite !length_app, !be_length, Z.eqb_refl. done.
  - assert (forall i n p v r, length p = i -> 0 <= v < 256 ^ Z.of_nat n ->
      forall k, k = p ++ be n v ++ r -> field i n k = v) as F by (intros; subst k; by apply field_at).
    rewrite (F 1%nat 8%nat [tag] a (be 4 t ++ be 8 b ++ be 8 e)),
      (F 9%nat 4%nat (tag :: be 8 a) t (be 8 b ++ be 8 e)),
      (F 13%nat 8%nat (tag :: be 8 a ++ be 4 t) b (be 8 e)),
      (F 21%nat 8%nat (tag :: be 8 a ++ be 4 t ++ be 8 b) e []); try done;
      cbn [length app]; rewrite ?length_app, ?be_length, ?app_nil_r, <- ?app_assoc; done.
Qed.

Lemma parse_value_key_at tag l k v n :
  value_key_ok v -> u64 n ->
  let key := tag :: be 4 l ++ be 4 k ++ enc_value v ++ be 8 n in
  is_long_key 18 tag key = true /\ parse_value_key tag key = Ok (v, n) /\ last8 key = n.
Proof.
  intros [Hv Iv] Hn key. pose proof (enc_value_length_pos v Iv) as Hlen.
  assert (length key = 9 + length (enc_value v) + 8)%nat as Hl.
  { subst key. cbn [length]. rewrite !length_app, !be_length. lia. }
  assert (is_long_key 18 tag key = true) as Hk.
  { unfold is_long_key. rewrite Hl, (proj2 (Nat.leb_le 18 _)) by lia. subst key. apply Z.eqb_refl. }
  assert (last8 key = n) as H8.
  { subst key. replace (tag :: _) with ((tag :: be 4 l ++ be 4 k ++ enc_value v) ++ be 8 n)
      by (cbn; by rewrite <- !app_assoc). by apply last8_at. }
  split; [done|]. split; [|done]. unfold parse_value_key. rewrite Hk.
  replace (drop 9 key) with (enc_value v ++ be 8 n).
  - rewrite decode_enc_value by done. cbn [mbind res_bind]. by rewrite Hl, Nat.eqb_refl, H8.
  - subst key. replace (tag :: _) with ((tag :: be 4 l ++ be 4 k) ++ enc_value v ++ be 8 n)
      by (cbn; by rewrite <- !app_assoc).
    rewrite drop_app_length'; [done|]. cbn. by rewrite length_app, !be_length.
Qed.

Lemma parse_key sk : skey_ok sk -> parsed sk.
Proof.
  intros Hk. destruct sk; simpl in Hk; destruct_and?; unfold parsed; try done; norm_key.
  - unfold NodeIDFromKey, is_key. cbn [length]. rewrite be_length. simpl. f_equal.
    rewrite <- (app_nil_r (be 8 id)). apply (field_at 1 8 [KeyNode]); auto with codec_db.
  - unfold EdgeIDFromKey, is_key. cbn [length]. rewrite be_length. simpl. f_equal.
    rewrite <- (app_nil_r (be 8 id)). apply (field_at 1 8 [KeyEdge]); auto with codec_db.
  - unfold ParseOutKey. destruct (parse_adjacency KeyOut src typ dst edge) as [-> ->]; done.
  - unfold ParseInKey. destruct (parse_adjacency KeyIn dst typ src edge) as [-> ->]; done.
  - unfold ParseLabelKey, is_key. cbn [length]. rewrite length_app, !be_length. simpl.
    pose proof (field_at 1 4 [KeyLabel] label (be 8 node)) as F1.
    pose proof (field_at 5 8 (KeyLabel :: be 4 label) node []) as F2.
    rewrite app_nil_r in F2. cbn [app] in F1, F2. cbn [length] in F2. rewrite be_length in F2.
    by rewrite F1, F2.
  - destruct (parse_value_key_at KeyProp label key v node) as (A & B & C); [done..|].
    unfold ParsePropKey, ParsePropKeyNode. by rewrite A, C.
  - by destruct (parse_value_key_at KeyRelProp typ key v edge) as (A & B & C).
Qed.

(** every key parser inverts its key builder: the components read from an
    `n`, `e`, `o`, `i`, `l`, `p` or `r` key are those it was built from, the
    indexed value of a `p` or `r` key included. *)
Theorem parse_key_roundtrip (sk : skey) : skey_ok sk -> parsed sk.
Proof. apply parse_key. Qed.


(** C29: the key space is unambiguous: two different keys of the database never
    have the same bytes, whatever tables, identifiers, names or indexed values
    they are built from. *)
Theorem key_space_injective (a b : skey) : skey_ok a -> skey_ok b -> key_of a = key_of b -> a = b.
Proof. apply key_of_inj. Qed.

Lemma key_space_injective_witness : KUnique 1 2 (VStr []) = KUnique 1 2 (VStr []).
Proof.
  apply (key_space_injective (KUnique 1 2 (VStr [])) (KUnique 1 2 (VStr []))); [| |reflexivity].
  - repeat split; try (vm_compute; congruence); constructor.
  - repeat split; try (vm_compute; congruence); constructor.
Defined.

(** a prefix scan for an equality lookup is exact: among all the keys of the
    database, those that begin with the prefix of (label, property, value) are
    the index entries of exactly that label, property and value; in particular
    a string value never matches the entries of a longer string. *)
Theorem equality_scan_exact (l k : Z) (v : value) (p : bytes) (sk : skey) :
  u32 l -> u32 k -> value_key_ok v -> skey_ok sk -> PropPrefix l k v = Ok p ->
  (has_prefix p (key_of sk) = true <-> exists n, sk = KProp l k v n).
Proof. apply scan_prop. Qed.

