(* ===== verification/Records.v ===== *)
(** * Records: serialization of node and edge records

    src/internal/storage/codec/record.go, with the varints of Go's
    encoding/binary.  A [reader] is the unread suffix of its buffer.  The
    recursion of [reader.value] is bounded by fuel; [read_value_fuel] shows that
    the length of the buffer is always enough. *)
From S2P Require Import Prelude Float64 Values IndexCodec.

(** ** encoding/binary varints *)

(** [binary.AppendUvarint]: 7 bits per byte, low first; [n] bounds the loop
    (a uint64 takes at most ten bytes). *)
Fixpoint uvarint_loop (n : nat) (v : Z) : bytes :=
  match n with
  | O => [Z.land v 255]
  | S n' =>
      if v <? 128 then [v]
      else Z.lor (Z.land v 127) 128 :: uvarint_loop n' (Z.shiftr v 7)
  end.
Definition uvarint_bytes (v : Z) : bytes := uvarint_loop 9 v.
Definition AppendUvarint (dst : bytes) (v : Z) : bytes := dst ++ uvarint_bytes v.

(** [binary.Uvarint]: value and bytes read, or [None] for a count <= 0 (short
    buffer or overflow); [i] is the loop index, [x] and [s] its variables. *)
Fixpoint uvarint_read (buf : bytes) (i : nat) (x s : Z) : option (Z * nat) :=
  match buf with
  | [] => None
  | b :: buf' =>
      if (i =? 10)%nat then None
      else if b <? 128 then
        if (i =? 9)%nat && (1 <? b) then None
        else Some (Z.lor x (Z.shiftl b s), S i)
      else uvarint_read buf' (S i) (Z.lor x (Z.shiftl (Z.land b 127) s)) (s + 7)
  end.

(** [binary.AppendVarint] / [binary.Varint]: zig-zag. *)
Definition zigzag (x : Z) : Z :=
  let ux := Z.shiftl (u64_of_i64 x) 1 mod two64 in
  if x <? 0 then Z.lxor ux (two64 - 1) else ux.
Definition unzigzag (ux : Z) : Z :=
  let x := i64_of_u64 (Z.shiftr ux 1) in
  if negb (Z.land ux 1 =? 0) then - x - 1 else x.

(** ** Records *)
Definition recNull : Z := 0.
Definition recBool : Z := 1.
Definition recInt : Z := 2.
Definition recFloat : Z := 3.
Definition recStr : Z := 4.
Definition recList : Z := 5.
Definition recMap : Z := 6.

Record NodeRecord := mkNodeRecord {
  Labels : list Z;
  Props : gmap Z value
}.

Record EdgeRecord := mkEdgeRecord {
  Type_ : Z;
  Src : Z;
  Dst : Z;
  EProps : gmap Z value
}.

(** [sort.Slice] on identifiers. *)
Definition sort_ids (l : list Z) : list Z := merge_sort Z.le l.
Definition len {A} (l : list A) : Z := Z.of_nat (length l).

Definition appendInt (dst : bytes) (v : Z) : bytes := AppendUvarint (dst ++ [recInt]) (zigzag v).

(** [appendRecValue]; the entries of a [VMap] are kept in key order, which is
    the order [sort.Strings] visits them in. *)
Fixpoint appendRecValue (dst : bytes) (v : value) {struct v} : res bytes :=
  match v with
  | VNull => Ok (dst ++ [recNull])
  | VBool x => Ok (dst ++ [recBool; if x then 1 else 0])
  | VGoInt x | VInt x => Ok (appendInt dst x)
  | VFloat x => Ok ((dst ++ [recFloat]) ++ be 8 x)
  | VStr x => Ok (AppendUvarint (dst ++ [recStr]) (len x) ++ x)
  | VList x =>
      (fix go (dst : bytes) (l : list value) {struct l} : res bytes :=
         match l with
         | [] => Ok dst
         | e :: l' => dst' ← appendRecValue dst e; go dst' l'
         end) (AppendUvarint (dst ++ [recList]) (len x)) x
  | VMap x =>
      (fix go (dst : bytes) (l : list (bytes * value)) {struct l} : res bytes :=
         match l with
         | [] => Ok dst
         | (k, e) :: l' =>
             dst' ← appendRecValue (AppendUvarint dst (len k) ++ k) e; go dst' l'
         end) (AppendUvarint (dst ++ [recMap]) (len x)) x
  | _ => Err ErrUnsupportedType
  end.

(** The loop of [appendProps] over the sorted keys. *)
Fixpoint append_prop_list (dst : bytes) (l : list (Z * value)) : res bytes :=
  match l with
  | [] => Ok dst
  | (k, v) :: l' => dst' ← appendRecValue (AppendUvarint dst k) v; append_prop_list dst' l'
  end.

(** Entries of a property map by ascending key. *)
Definition prop_le (a b : Z * value) : Prop := a.1 <= b.1.
#[global] Instance prop_le_dec : RelDecision prop_le.
Proof. intros a b. unfold prop_le. apply _. Defined.
Definition sorted_props (props : gmap Z value) : list (Z * value) :=
  merge_sort prop_le (map_to_list props).

Definition appendProps (dst : bytes) (props : gmap Z value) : res bytes :=
  let entries := sorted_props props in
  append_prop_list (AppendUvarint dst (len entries)) entries.

Definition EncodeNode (rec : NodeRecord) : res bytes :=
  let labels := sort_ids (Labels rec) in
  appendProps (fold_left AppendUvarint labels (AppendUvarint [] (len labels))) (Props rec).

Definition EncodeEdge (rec : EdgeRecord) : res bytes :=
  appendProps
    (AppendUvarint (AppendUvarint (AppendUvarint [] (Type_ rec)) (Src rec)) (Dst rec))
    (EProps rec).

(** ** The reader *)
Definition reader (A : Type) : Type := bytes -> res (A * bytes).

Definition r_uvarint : reader Z := fun r =>
  match uvarint_read r 0 0 0 with
  | Some (v, n) => Ok (v, drop n r)
  | None => Err ErrShort
  end.

Definition r_varint : reader Z := fun r =>
  match uvarint_read r 0 0 0 with
  | Some (v, n) => Ok (unzigzag v, drop n r)
  | None => Err ErrShort
  end.

Definition r_byte : reader Z := fun r =>
  match r with [] => Err ErrShort | c :: r' => Ok (c, r') end.

Definition r_bytes (n : Z) : reader bytes := fun r =>
  if (n <? 0) || (len r <? n) then Err ErrShort
  else Ok (take (Z.to_nat n) r, drop (Z.to_nat n) r).

(** [n] reads in sequence. *)
Fixpoint r_repeat {A} (n : nat) (rd : reader A) : reader (list A) := fun r =>
  match n with
  | O => Ok ([], r)
  | S n' => '(x, r1) ← rd r; '(xs, r2) ← r_repeat n' rd r1; Ok (x :: xs, r2)
  end.

(** Assignment [m[k] = v] on a Go map kept in key order. *)
Fixpoint map_set (k : bytes) (v : value) (m : list (bytes * value)) : list (bytes * value) :=
  match m with
  | [] => [(k, v)]
  | (k', v') :: m' =>
      match bcmp k k' with
      | Lt => (k, v) :: m
      | Eq => (k, v) :: m'
      | Gt => (k', v') :: map_set k v m'
      end
  end.

Definition r_entry (rd : reader value) : reader (bytes * value) := fun r =>
  '(klen, r1) ← r_uvarint r;
  '(kb, r2) ← r_bytes (i64_of_u64 klen) r1;
  '(v, r3) ← rd r2;
  Ok ((kb, v), r3).

Fixpoint read_value (fuel : nat) : reader value := fun r =>
  match fuel with
  | O => Err ErrOutOfFuel
  | S fuel' =>
      '(tag, r) ← r_byte r;
      if tag =? recNull then Ok (VNull, r)
      else if tag =? recBool then '(b, r) ← r_byte r; Ok (VBool (negb (b =? 0)), r)
      else if tag =? recInt then '(z, r) ← r_varint r; Ok (VInt z, r)
      else if tag =? recFloat then '(raw, r) ← r_bytes 8 r; Ok (VFloat (be_get raw), r)
      else if tag =? recStr then
        '(n, r) ← r_uvarint r;
        if len r <? n then Err ErrShort
        else '(raw, r) ← r_bytes (i64_of_u64 n) r; Ok (VStr raw, r)
      else if tag =? recList then
        '(n, r) ← r_uvarint r;
        if len r <? n then Err (ErrImplausible n)
        else '(l, r) ← r_repeat (Z.to_nat n) (read_value fuel') r; Ok (VList l, r)
      else if tag =? recMap then
        '(n, r) ← r_uvarint r;
        if len r <? n then Err (ErrImplausible n)
        else '(es, r) ← r_repeat (Z.to_nat n) (r_entry (read_value fuel')) r;
             Ok (VMap (foldl (fun m kv => map_set kv.1 kv.2 m) [] es), r)
      else Err (ErrBadTag tag)
  end.

(** [reader.value]: the buffer's length bounds the nesting. *)
Definition r_value : reader value := fun r => read_value (S (length r)) r.

Definition r_prop : reader (Z * value) := fun r =>
  '(k, r1) ← r_uvarint r; '(v, r2) ← r_value r1; Ok ((k, v), r2).

Definition r_props : reader (gmap Z value) := fun r =>
  '(n, r) ← r_uvarint r;
  if len r <? n then Err (ErrImplausible n)
  else '(es, r) ← r_repeat (Z.to_nat n) r_prop r;
       Ok (foldl (fun m kv => <[kv.1 mod two32 := kv.2]> m) ∅ es, r).

Definition DecodeNode (b : bytes) : res NodeRecord :=
  '(n, r) ← r_uvarint b;
  if len r <? n then Err (ErrImplausible n)
  else
    '(ls, r) ← r_repeat (Z.to_nat n) r_uvarint r;
    '(props, _) ← r_props r;
    Ok (mkNodeRecord ((fun l => l mod two32) <$> ls) props).

Definition DecodeEdge (b : bytes) : res EdgeRecord :=
  '(typ, r) ← r_uvarint b;
  '(src, r) ← r_uvarint r;
  '(dst, r) ← r_uvarint r;
  '(props, _) ← r_props r;
  Ok (mkEdgeRecord (typ mod two32) src dst props).

Example enc_node_example :
  EncodeNode (mkNodeRecord [7; 3] {[1 := VStr (str "ab"); 300 := VList [VInt (-1); VBool true]]})
  = Ok [2; 3; 7; 2; 1; 4; 2; 97; 98; 172; 2; 5; 2; 2; 1; 1; 1].
Proof. vm_compute. reflexivity. Qed.

Example dec_node_example :
  DecodeNode [2; 3; 7; 2; 1; 4; 2; 97; 98; 172; 2; 5; 2; 2; 1; 1; 1]
  = Ok (mkNodeRecord [3; 7] {[1 := VStr (str "ab"); 300 := VList [VInt (-1); VBool true]]}).
Proof. vm_compute. reflexivity. Qed.

(** ** Varints *)

Lemma lor_shiftl x y s : 0 <= s -> 0 <= x < 2 ^ s -> 0 <= y -> Z.lor x (Z.shiftl y s) = x + y * 2 ^ s.
Proof.
  intros Hs Hx Hy. rewrite <- Z.shiftl_mul_pow2 by done.
  rewrite Z.add_nocarry_lxor, Z.lxor_lor; [done|..].
  all: apply Z.bits_inj_0; intros n; rewrite Z.land_spec;
    destruct (Z_lt_le_dec n s); [rewrite (Z.shiftl_spec_low y s n) by done; apply andb_false_r|].
  all: destruct (Z.eq_dec x 0) as [->|]; [by rewrite Z.bits_0|];
    rewrite (Z.bits_above_log2 x n); [done|lia|];
    apply Z.log2_lt_pow2; [lia|]; eapply Z.lt_le_trans; [apply Hx|]; apply Z.pow_le_mono_r; lia.
Qed.

Lemma continuation_byte v :
  0 <= v ->
  128 <= Z.lor (Z.land v 127) 128 < 256 /\ Z.land (Z.lor (Z.land v 127) 128) 127 = v mod 128.
Proof.
  intros Hv. change 127 with (Z.ones 7). rewrite !Z.land_ones by lia. change (2 ^ 7) with 128.
  pose proof (Z.mod_pos_bound v 128 ltac:(lia)).
  assert (Z.lor (v mod 128) 128 = v mod 128 + 1 * 128) as ->
    by (apply (lor_shiftl (v mod 128) 1 7); lia).
  split; [lia|]. by rewrite Z_mod_plus_full, Z.mod_mod by lia.
Qed.

Lemma uvarint_loop_read n i v x rest :
  (i + n = 9)%nat -> 0 <= v < 2 ^ (64 - 7 * Z.of_nat i) -> 0 <= x < 2 ^ (7 * Z.of_nat i) ->
  uvarint_read (uvarint_loop n v ++ rest) i x (7 * Z.of_nat i)
  = Some (x + v * 2 ^ (7 * Z.of_nat i), (i + length (uvarint_loop n v))%nat).
Proof.
  revert i v x. induction n as [|n IH]; intros i v x Hi Hv Hx.
  - assert (i = 9%nat) as -> by lia. change (2 ^ (64 - 7 * Z.of_nat 9)) with 2 in Hv.
    cbn [uvarint_loop app uvarint_read]. rewrite land255, Z.mod_small by lia.
    rewrite (proj2 (Z.ltb_lt v 128)), (proj2 (Z.ltb_ge 1 v)) by lia. cbn [Nat.eqb andb].
    by rewrite lor_shiftl by lia.
  - cbn [uvarint_loop]. destruct (Z.ltb_spec v 128).
    + cbn [app uvarint_read]. rewrite (proj2 (Nat.eqb_neq i 10)), (proj2 (Nat.eqb_neq i 9)) by lia.
      rewrite (proj2 (Z.ltb_lt v 128)) by lia. cbn [andb].
      rewrite lor_shiftl by lia. f_equal. f_equal. cbn. lia.
    + destruct (continuation_byte v ltac:(lia)) as [Hb Hl].
      cbn [app uvarint_read]. rewrite (proj2 (Nat.eqb_neq i 10)) by lia.
      rewrite (proj2 (Z.ltb_ge _ 128)), Hl by lia.
      rewrite lor_shiftl by (try apply Z.mod_pos_bound; lia).
      replace (7 * Z.of_nat i + 7) with (7 * Z.of_nat (S i)) by lia.
      rewrite Z.shiftr_div_pow2 by lia. change (2 ^ 7) with 128.
      assert (2 ^ (7 * Z.of_nat (S i)) = 2 ^ (7 * Z.of_nat i) * 128) as Ep
        by (change 128 with (2 ^ 7); rewrite <- Z.pow_add_r by lia; f_equal; lia).
      pose proof (Z.mod_pos_bound v 128 ltac:(lia)). pose proof (Z.div_mod v 128 ltac:(lia)).
      assert (0 < 2 ^ (7 * Z.of_nat i)) by (apply Z.pow_pos_nonneg; lia).
      rewrite IH.
      * rewrite Ep. f_equal. f_equal; [nia|]. cbn [length]. lia.
      * lia.
      * split; [apply Z.div_pos; lia|]. apply Z.div_lt_upper_bound; [lia|].
        change 128 with (2 ^ 7). rewrite <- Z.pow_add_r by lia.
        replace (7 + (64 - 7 * Z.of_nat (S i))) with (64 - 7 * Z.of_nat i) by lia. lia.
      * rewrite Ep. nia.
Qed.

Lemma uvarint_read_bytes v rest :
  u64 v -> uvarint_read (uvarint_bytes v ++ rest) 0 0 0 = Some (v, length (uvarint_bytes v)).
Proof.
  intros Hv. unfold uvarint_bytes. pose proof (uvarint_loop_read 9 0 v 0 rest eq_refl) as H.
  change (7 * Z.of_nat 0) with 0 in H. change (64 - 0) with 64 in H. fold two64 in H.
  rewrite H; [|done|change (2 ^ 0) with 1; lia]. by rewrite Z.pow_0_r, Z.mul_1_r.
Qed.

Lemma r_uvarint_spec v rest : u64 v -> r_uvarint (uvarint_bytes v ++ rest) = Ok (v, rest).
Proof. intros H. unfold r_uvarint. rewrite uvarint_read_bytes by done. by rewrite drop_app_length. Qed.

Lemma uvarint_bytes_ok v : 0 <= v -> bytes_ok (uvarint_bytes v).
Proof.
  unfold uvarint_bytes. generalize 9%nat. intros n. revert v.
  induction n as [|n IH]; intros v Hv; cbn [uvarint_loop].
  - constructor; [|constructor]. rewrite land255. unfold byte_ok. apply Z.mod_pos_bound. lia.
  - destruct (Z.ltb_spec v 128).
    + constructor; [unfold byte_ok; lia|constructor].
    + constructor; [|apply IH, Z.shiftr_nonneg; lia].
      destruct (continuation_byte v Hv). unfold byte_ok. lia.
Qed.

Lemma uvarint_bytes_pos v : (1 <= length (uvarint_bytes v))%nat.
Proof. unfold uvarint_bytes. cbn [uvarint_loop]. destruct (v <? 128); cbn [length]; lia. Qed.

Lemma zigzag_spec x : i64 x -> zigzag x = if x <? 0 then - 2 * x - 1 else 2 * x.
Proof.
  intros H. unfold zigzag, u64_of_i64. rewrite Z.shiftl_mul_pow2, Z.pow_1_r by lia.
  rewrite Z.mul_mod_idemp_l by solve_width. destruct (Z.ltb_spec x 0).
  - replace (x * 2) with (x * 2 + two64 + -1 * two64) by lia.
    rewrite Z_mod_plus_full, Z.mod_small by solve_width.
    rewrite lxor_ones by solve_width. lia.
  - rewrite Z.mod_small by solve_width. lia.
Qed.

Lemma zigzag_u64 x : i64 x -> u64 (zigzag x).
Proof. intros H. rewrite zigzag_spec by done. zcases; solve_width. Qed.

Lemma land1 u : Z.land u 1 = u mod 2.
Proof. apply (Z.land_ones u 1). lia. Qed.

Lemma unzigzag_zigzag x : i64 x -> unzigzag (zigzag x) = x.
Proof.
  intros H. rewrite zigzag_spec by done. unfold unzigzag.
  rewrite land1, Z.shiftr_div_pow2 by lia. change (2 ^ 1) with 2. destruct (Z.ltb_spec x 0).
  - replace (-2 * x - 1) with (1 + (- x - 1) * 2) by lia.
    rewrite Z_mod_plus_full, Z.div_add by lia. change (1 mod 2) with 1. change (1 / 2) with 0.
    cbn [Z.eqb negb]. unfold i64_of_u64. zcases; solve_width.
  - replace (2 * x) with (0 + x * 2) by lia. rewrite Z_mod_plus_full, Z.div_add by lia.
    change (0 mod 2) with 0. change (0 / 2) with 0.
    cbn [Z.eqb negb]. unfold i64_of_u64. zcases; solve_width.
Qed.

(** ** The encoding of a value on its own *)

(** Values a record can hold: no nodes, edges or paths, at any depth. *)
Fixpoint storable (v : value) : bool :=
  match v with
  | VNull | VBool _ | VGoInt _ | VInt _ | VFloat _ | VStr _ => true
  | VList l => forallb storable l
  | VMap m => forallb (fun kv => storable kv.2) m
  | _ => false
  end.

Fixpoint rec_enc (v : value) : bytes :=
  match v with
  | VNull => [recNull]
  | VBool x => [recBool; if x then 1 else 0]
  | VGoInt x | VInt x => recInt :: uvarint_bytes (zigzag x)
  | VFloat x => recFloat :: be 8 x
  | VStr x => recStr :: uvarint_bytes (len x) ++ x
  | VList l => recList :: uvarint_bytes (len l) ++ concat (map rec_enc l)
  | VMap m =>
      recMap :: uvarint_bytes (len m) ++
        concat (map (fun kv => uvarint_bytes (len kv.1) ++ kv.1 ++ rec_enc kv.2) m)
  | _ => []
  end.

(** What decoding gives back: Go ints have become int64. *)
Fixpoint deep_norm (v : value) : value :=
  match v with
  | VGoInt x => VInt x
  | VList l => VList (map deep_norm l)
  | VMap m => VMap (map (fun kv => (kv.1, deep_norm kv.2)) m)
  | _ => v
  end.

(** Lengths fit a Go [int]. *)
Fixpoint sized (v : value) : Prop :=
  match v with
  | VStr s => len s < two63
  | VList l => len l < two63 /\ foldr (fun x acc => sized x /\ acc) True l
  | VMap m => len m < two63 /\ foldr (fun kv acc => (len kv.1 < two63 /\ sized kv.2) /\ acc) True m
  | _ => True
  end.

Definition rec_value_ok (v : value) : Prop := value_ok v /\ sized v /\ storable v = true.

Lemma appendRecValue_spec v dst :
  appendRecValue dst v = if storable v then Ok (dst ++ rec_enc v) else Err ErrUnsupportedType.
Proof.
  revert dst. induction v using value_ind'; intros dst; cbn [appendRecValue storable rec_enc];
    unfold appendInt, AppendUvarint; try (rewrite <- ?app_assoc; done).
  - replace (dst ++ recList :: uvarint_bytes (len l) ++ concat (map rec_enc l))
      with (((dst ++ [recList]) ++ uvarint_bytes (len l)) ++ concat (map rec_enc l))
      by (by rewrite <- !app_assoc).
    generalize ((dst ++ [recList]) ++ uvarint_bytes (len l)). clear dst.
    induction H as [|x l Hx Hl IH]; intros dst; cbn [forallb map concat]; [by rewrite app_nil_r|].
    rewrite Hx. destruct (storable x); [|done]. cbn [mbind res_bind andb].
    rewrite IH. by rewrite <- app_assoc.
  - set (enc := fun kv : bytes * value => uvarint_bytes (len kv.1) ++ kv.1 ++ rec_enc kv.2).
    replace (dst ++ recMap :: uvarint_bytes (len m) ++ concat (map enc m))
      with (((dst ++ [recMap]) ++ uvarint_bytes (len m)) ++ concat (map enc m))
      by (by rewrite <- !app_assoc).
    generalize ((dst ++ [recMap]) ++ uvarint_bytes (len m)). clear dst.
    induction H as [|[k x] m Hx Hm IH]; intros dst; cbn [forallb map concat]; [by rewrite app_nil_r|].
    cbn [snd] in *. rewrite Hx. destruct (storable x); [|done]. cbn [mbind res_bind andb].
    rewrite IH. unfold enc at 2. cbn [fst snd]. by rewrite <- !app_assoc.
Qed.

Lemma rec_enc_pos v : storable v = true -> (1 <= length (rec_enc v))%nat.
Proof. destruct v; simpl; try done; lia. Qed.

(** ** Reading back *)

Lemma r_repeat_spec {A B} (rd : reader B) (enc : A -> bytes) (f : A -> B) l rest :
  Forall (fun x => forall rest, rd (enc x ++ rest) = Ok (f x, rest)) l ->
  r_repeat (length l) rd (concat (map enc l) ++ rest) = Ok (map f l, rest).
Proof.
  induction 1 as [|x l Hx Hl IH]; cbn [length r_repeat map concat app]; [done|].
  rewrite <- app_assoc, Hx. cbn [mbind res_bind]. by rewrite IH.
Qed.

Lemma map_set_last k v acc :
  Forall (fun kv => blt kv.1 k) acc -> map_set k v acc = acc ++ [(k, v)].
Proof.
  induction 1 as [|[k' v'] acc Hk Hacc IH]; cbn [map_set app]; [done|].
  cbn [fst] in Hk. rewrite bcmp_antisym, Hk. cbn [CompOpp]. by rewrite IH.
Qed.

(** Inserting entries in ascending key order builds the canonical list. *)
Lemma map_set_sorted m acc :
  StronglySorted blt (acc ++ m).*1 ->
  foldl (fun m kv => map_set kv.1 kv.2 m) acc m = acc ++ m.
Proof.
  revert acc. induction m as [|[k v] m IH]; intros acc Hs; cbn [foldl]; [by rewrite app_nil_r|].
  cbn [fst snd]. rewrite map_set_last.
  - rewrite IH; rewrite <- app_assoc; done.
  - clear IH. rewrite fmap_app in Hs. apply Forall_forall. intros [k' v'] Hin. cbn.
    eapply StronglySorted_app_1_elem_of; [exact Hs| |left].
    apply list_elem_of_fmap. by exists (k', v').
Qed.

Lemma r_bytes_spec n s rest : len s = n -> n < two63 -> r_bytes (i64_of_u64 n) (s ++ rest) = Ok (s, rest).
Proof.
  intros <- Hn. unfold r_bytes, i64_of_u64, len in *.
  rewrite (proj2 (Z.ltb_lt _ two63)) by lia.
  rewrite (proj2 (Z.ltb_ge _ 0)), (proj2 (Z.ltb_ge _ (Z.of_nat (length s))))
    by (rewrite ?length_app; lia).
  cbn [orb]. by rewrite Nat2Z.id, take_app_length, drop_app_length.
Qed.

Lemma len_u64 {A} (l : list A) : len l < two63 -> u64 (len l).
Proof. unfold len. intros. solve_width. Qed.

(** The announced number of elements is plausible: each takes a byte. *)
Lemma concat_len {A} (enc : A -> bytes) l rest :
  Forall (fun x => (1 <= length (enc x))%nat) l ->
  (len (concat (map enc l) ++ rest) <? len l) = false.
Proof.
  intros H. apply Z.ltb_ge. unfold len. apply inj_le. rewrite length_app.
  induction H; cbn [map concat length]; rewrite ?length_app; lia.
Qed.

Lemma read_value_step fuel t r :
  read_value (S fuel) (t :: r) =
  if t =? recNull then Ok (VNull, r)
  else if t =? recBool then '(b, r) ← r_byte r; Ok (VBool (negb (b =? 0)), r)
  else if t =? recInt then '(z, r) ← r_varint r; Ok (VInt z, r)
  else if t =? recFloat then '(raw, r) ← r_bytes 8 r; Ok (VFloat (be_get raw), r)
  else if t =? recStr then
    '(n, r) ← r_uvarint r;
    if len r <? n then Err ErrShort
    else '(raw, r) ← r_bytes (i64_of_u64 n) r; Ok (VStr raw, r)
  else if t =? recList then
    '(n, r) ← r_uvarint r;
    if len r <? n then Err (ErrImplausible n)
    else '(l, r) ← r_repeat (Z.to_nat n) (read_value fuel) r; Ok (VList l, r)
  else if t =? recMap then
    '(n, r) ← r_uvarint r;
    if len r <? n then Err (ErrImplausible n)
    else '(es, r) ← r_repeat (Z.to_nat n) (r_entry (read_value fuel)) r;
         Ok (VMap (foldl (fun m kv => map_set kv.1 kv.2 m) [] es), r)
  else Err (ErrBadTag t).
Proof. reflexivity. Qed.

(** Parts of a list value's encoding are shorter than the whole. *)
Lemma concat_elem_length {A} (enc : A -> bytes) l x :
  x ∈ l -> (length (enc x) <= length (concat (map enc l)))%nat.
Proof.
  induction 1; cbn [map concat]; rewrite length_app; lia.
Qed.

Lemma r_entry_spec (rd : reader value) k v w rest :
  len k < two63 -> (forall rest, rd (rec_enc v ++ rest) = Ok (w, rest)) ->
  r_entry rd ((uvarint_bytes (len k) ++ k ++ rec_enc v) ++ rest) = Ok ((k, w), rest).
Proof.
  intros Hk Hrd. unfold r_entry. rewrite <- !app_assoc, r_uvarint_spec by (by apply len_u64).
  cbn [mbind res_bind]. rewrite r_bytes_spec by done. cbn [mbind res_bind]. by rewrite Hrd.
Qed.

Lemma read_value_spec v fuel rest :
  rec_value_ok v -> (length (rec_enc v) <= fuel)%nat ->
  read_value fuel (rec_enc v ++ rest) = Ok (deep_norm v, rest).
Proof.
  intros (Hv & Hz & Hs). revert fuel rest. induction v using value_ind'; intros fuel rest Hf;
    try done; (destruct fuel as [|fuel]; [cbn in Hf; lia|]);
    cbn [rec_enc app deep_norm]; rewrite read_value_step; cbn [value_ok sized storable] in *.
  - reflexivity.
  - by destruct b.
  - unfold r_varint. cbn [Z.eqb Pos.eqb recInt recNull recBool].
    rewrite uvarint_read_bytes by (by apply zigzag_u64). cbn [mbind res_bind].
    by rewrite drop_app_length, unzigzag_zigzag.
  - unfold r_varint. cbn [Z.eqb Pos.eqb recInt recNull recBool].
    rewrite uvarint_read_bytes by (by apply zigzag_u64). cbn [mbind res_bind].
    by rewrite drop_app_length, unzigzag_zigzag.
  - change (recFloat =? recNull) with false. cbn [Z.eqb Pos.eqb recFloat recBool recInt].
    pose proof (r_bytes_spec 8 (be 8 b) rest) as E. change (i64_of_u64 8) with 8 in E.
    rewrite E by (unfold len; rewrite ?be_length; done). cbn [mbind res_bind]. by rewrite be8_get.
  - cbn [Z.eqb Pos.eqb recStr recNull recBool recInt recFloat].
    rewrite <- app_assoc, r_uvarint_spec by (by apply len_u64). cbn [mbind res_bind].
    rewrite (proj2 (Z.ltb_ge _ _)) by (unfold len; rewrite length_app; lia).
    by rewrite r_bytes_spec.
  - cbn [Z.eqb Pos.eqb recStr recNull recBool recInt recFloat recList].
    destruct Hz as [Hl Hz]. rewrite foldr_and_Forall in Hz, Hv. apply forallb_Forall in Hs.
    rewrite <- app_assoc, r_uvarint_spec by (by apply len_u64). cbn [mbind res_bind].
    rewrite concat_len by (eapply Forall_impl; [exact Hs|]; apply rec_enc_pos).
    unfold len. rewrite Nat2Z.id, (r_repeat_spec _ rec_enc deep_norm); [done|].
    rewrite Forall_forall in *. intros x Hx r. apply H; try done; [by apply Hv|by apply Hz|by apply Hs|].
    pose proof (concat_elem_length rec_enc l x Hx). cbn in Hf. rewrite length_app in Hf. lia.
  - cbn [Z.eqb Pos.eqb recStr recNull recBool recInt recFloat recList recMap].
    destruct Hz as [Hl Hz], Hv as [Hsort Hv]. rewrite foldr_and_Forall in Hz, Hv. apply forallb_Forall in Hs.
    set (enc := fun kv : bytes * value => uvarint_bytes (len kv.1) ++ kv.1 ++ rec_enc kv.2).
    rewrite <- app_assoc, r_uvarint_spec by (by apply len_u64). cbn [mbind res_bind].
    rewrite concat_len.
    2: { apply Forall_forall. intros kv _. unfold enc. rewrite length_app.
         pose proof (uvarint_bytes_pos (len kv.1)). lia. }
    unfold len at 1. rewrite Nat2Z.id, (r_repeat_spec _ enc (fun kv => (kv.1, deep_norm kv.2))).
    + cbn [mbind res_bind]. rewrite map_set_sorted; [done|]. cbn [app].
      unfold keys_sorted in Hsort. by rewrite <- list_fmap_compose.
    + rewrite Forall_forall in *. intros [k x] Hx r. cbn [fst snd]. unfold enc. cbn [fst snd].
      destruct (Hz _ Hx) as [Hk Hzx]. destruct (Hv _ Hx) as [_ Hvx].
      apply r_entry_spec; [done|]. intros r'. apply (H _ Hx); try done; [by apply (Hs _ Hx)|].
      pose proof (concat_elem_length enc m _ Hx) as Hc. unfold enc in Hc at 1. cbn [fst snd] in Hc.
      change (rec_enc (VMap m)) with (recMap :: uvarint_bytes (len m) ++ concat (map enc m)) in Hf.
      cbn [length] in Hf. cbn [snd]. rewrite !length_app in *. lia.
Qed.

Lemma r_value_spec v rest : rec_value_ok v -> r_value (rec_enc v ++ rest) = Ok (deep_norm v, rest).
Proof. intros H. apply read_value_spec; [done|]. rewrite length_app. lia. Qed.

(** ** Property maps *)

Definition prop_enc (kv : Z * value) : bytes := uvarint_bytes kv.1 ++ rec_enc kv.2.

Lemma append_prop_list_spec l dst :
  append_prop_list dst l =
  if forallb (fun kv => storable kv.2) l then Ok (dst ++ concat (map prop_enc l))
  else Err ErrUnsupportedType.
Proof.
  revert dst. induction l as [|[k v] l IH]; intros dst; cbn [append_prop_list forallb map concat snd].
  - by rewrite app_nil_r.
  - unfold AppendUvarint. rewrite appendRecValue_spec. destruct (storable v); [|done].
    cbn [mbind res_bind andb]. rewrite IH. unfold prop_enc at 2. cbn [fst snd].
    by rewrite <- !app_assoc.
Qed.

(** Property maps a record can hold. *)
Definition props_ok (p : gmap Z value) : Prop :=
  map_Forall (fun k v => u32 k /\ rec_value_ok v) p /\ Z.of_nat (size p) < two63.

Lemma sorted_props_perm p : sorted_props p ≡ₚ map_to_list p.
Proof. apply merge_sort_Permutation. Qed.

Lemma sorted_props_elem p k v : (k, v) ∈ sorted_props p <-> p !! k = Some v.
Proof. rewrite sorted_props_perm. apply elem_of_map_to_list. Qed.

Lemma sorted_props_len p : len (sorted_props p) = Z.of_nat (size p).
Proof. unfold len. rewrite sorted_props_perm. by rewrite length_map_to_list. Qed.

Lemma list_insert_fold l (m : gmap Z value) :
  NoDup l.*1 -> Forall (fun kv => u32 kv.1) l ->
  foldl (fun m kv => <[kv.1 mod two32 := kv.2]> m) m l = list_to_map l ∪ m.
Proof.
  revert m. induction l as [|[k v] l IH]; intros m Hnd Hk; cbn [foldl].
  - symmetry. apply map_empty_union.
  - inversion Hnd as [|? ? Hnin Hnd']; inversion Hk as [|? ? Hu Hk']; subst. cbn [fst snd] in *.
    rewrite IH by done. rewrite Z.mod_small by (unfold u32 in Hu; done). rewrite list_to_map_cons.
    rewrite <- insert_union_l, <- insert_union_r; [done|].
    by apply not_elem_of_list_to_map_1.
Qed.

Lemma fmap_list_to_map (f : value -> value) (l : list (Z * value)) :
  list_to_map ((fun kv => (kv.1, f kv.2)) <$> l) =@{gmap Z value} f <$> list_to_map l.
Proof.
  induction l as [|[k v] l IH]; cbn; [by rewrite fmap_empty|].
  by rewrite IH, fmap_insert.
Qed.

Lemma sorted_props_map p : list_to_map (sorted_props p) = p.
Proof.
  rewrite (list_to_map_proper _ (map_to_list p)).
  - apply list_to_map_to_list.
  - rewrite sorted_props_perm. apply NoDup_fst_map_to_list.
  - apply sorted_props_perm.
Qed.

Lemma sorted_props_forall p (P : Z * value -> Prop) :
  (forall k v, p !! k = Some v -> P (k, v)) -> Forall P (sorted_props p).
Proof. intros H. apply Forall_forall. intros [k v] Hin%sorted_props_elem. by apply H. Qed.

(** Properties read back with Go ints as int64. *)
Lemma r_props_spec p rest :
  props_ok p ->
  exists e, appendProps [] p = Ok e /\ r_props (e ++ rest) = Ok (deep_norm <$> p, rest).
Proof.
  intros [Hp Hsz]. unfold appendProps. cbv zeta. rewrite append_prop_list_spec, sorted_props_len.
  assert (Forall (fun kv => u32 kv.1 /\ rec_value_ok kv.2) (sorted_props p)) as Hall
    by (apply sorted_props_forall, Hp).
  rewrite (proj2 (forallb_Forall _ _)) by (eapply Forall_impl; [exact Hall|]; intros ? (_ & _ & _ & ?); done).
  eexists; split; [reflexivity|]. unfold AppendUvarint, r_props. cbn [app].
  rewrite <- app_assoc, r_uvarint_spec by solve_width. cbn [mbind res_bind].
  rewrite <- sorted_props_len. rewrite concat_len.
  2: { apply Forall_forall. intros kv _. unfold prop_enc. rewrite length_app.
       pose proof (uvarint_bytes_pos kv.1). lia. }
  unfold len at 1. rewrite Nat2Z.id, (r_repeat_spec _ prop_enc (fun kv => (kv.1, deep_norm kv.2))).
  - cbn [mbind res_bind]. rewrite list_insert_fold.
    + by rewrite map_union_empty, fmap_list_to_map, sorted_props_map.
    + rewrite <- list_fmap_compose. rewrite sorted_props_perm. apply NoDup_fst_map_to_list.
    + rewrite Forall_fmap. eapply Forall_impl; [exact Hall|]. by intros ? [? _].
  - eapply Forall_impl; [exact Hall|]. intros [k v] [Hk Hv] r. unfold r_prop, prop_enc. cbn [fst snd] in *.
    rewrite <- app_assoc, r_uvarint_spec by solve_width. cbn [mbind res_bind]. by rewrite r_value_spec.
Qed.

Lemma appendProps_app dst p e : appendProps [] p = Ok e -> appendProps dst p = Ok (dst ++ e).
Proof.
  unfold appendProps. cbv zeta. rewrite !append_prop_list_spec. destruct (forallb _ _); [|done].
  intros [= <-]. unfold AppendUvarint. cbn [app]. by rewrite <- app_assoc.
Qed.

Lemma fold_uvarints ls dst : fold_left AppendUvarint ls dst = dst ++ concat (map uvarint_bytes ls).
Proof.
  revert dst. induction ls as [|l ls IH]; intros dst; cbn [fold_left map concat]; [by rewrite app_nil_r|].
  rewrite IH. unfold AppendUvarint. by rewrite <- app_assoc.
Qed.

Lemma sort_ids_perm l : sort_ids l ≡ₚ l.
Proof. apply merge_sort_Permutation. Qed.

Definition node_ok (r : NodeRecord) : Prop :=
  Forall u32 (Labels r) /\ len (Labels r) < two63 /\ props_ok (Props r).
Definition edge_ok (r : EdgeRecord) : Prop :=
  u32 (Type_ r) /\ u64 (Src r) /\ u64 (Dst r) /\ props_ok (EProps r).

(** The record a reader sees: labels sorted, Go ints as int64. *)
Definition node_norm (r : NodeRecord) : NodeRecord :=
  mkNodeRecord (sort_ids (Labels r)) (deep_norm <$> Props r).
Definition edge_norm (r : EdgeRecord) : EdgeRecord :=
  mkEdgeRecord (Type_ r) (Src r) (Dst r) (deep_norm <$> EProps r).

Lemma map_mod_u32 ls : Forall u32 ls -> (fun l => l mod two32) <$> map id ls = ls.
Proof.
  rewrite map_id. induction 1 as [|l ls Hl Hls IH]; cbn; [done|].
  rewrite Z.mod_small by (unfold u32 in Hl; done). by f_equal.
Qed.

Lemma decode_encode_node r :
  node_ok r -> exists b, EncodeNode r = Ok b /\ DecodeNode b = Ok (node_norm r).
Proof.
  intros (Hl & Hlen & Hp). destruct (r_props_spec (Props r) [] Hp) as (e & He & Hr).
  unfold EncodeNode. cbv zeta. rewrite (appendProps_app _ _ _ He), fold_uvarints.
  eexists; split; [reflexivity|]. unfold DecodeNode, AppendUvarint. cbn [app].
  assert (len (sort_ids (Labels r)) = len (Labels r)) as El by (unfold len; by rewrite sort_ids_perm).
  rewrite <- !app_assoc, r_uvarint_spec by (rewrite El; by apply len_u64). cbn [mbind res_bind].
  rewrite concat_len by (apply Forall_forall; intros ? _; apply uvarint_bytes_pos).
  unfold len at 1. rewrite Nat2Z.id, (r_repeat_spec _ uvarint_bytes id).
  - cbn [mbind res_bind]. rewrite app_nil_r in Hr. rewrite Hr. cbn [mbind res_bind].
    rewrite map_mod_u32; [done|]. by rewrite sort_ids_perm.
  - apply Forall_forall. intros l Hin rest. apply r_uvarint_spec.
    rewrite sort_ids_perm in Hin. rewrite Forall_forall in Hl. apply Hl in Hin.
    unfold id. solve_width.
Qed.

Lemma decode_encode_edge r :
  edge_ok r -> exists b, EncodeEdge r = Ok b /\ DecodeEdge b = Ok (edge_norm r).
Proof.
  intros (Ht & Hs & Hd & Hp). destruct (r_props_spec (EProps r) [] Hp) as (e & He & Hr).
  unfold EncodeEdge. rewrite (appendProps_app _ _ _ He). eexists; split; [reflexivity|].
  unfold DecodeEdge, AppendUvarint. cbn [app]. rewrite app_nil_r in Hr.
  rewrite <- !app_assoc, r_uvarint_spec by solve_width. cbn [mbind res_bind].
  rewrite r_uvarint_spec by done. cbn [mbind res_bind].
  rewrite r_uvarint_spec by done. cbn [mbind res_bind]. rewrite Hr. cbn [mbind res_bind].
  rewrite Z.mod_small by (unfold u32 in Ht; done). done.
Qed.

(** ** The fuel is always enough *)

(** Invert one step of a chain of reads. *)
Ltac read_step H :=
  match type of H with
  | context [?m ≫= _] =>
      let E := fresh "E" in destruct m as [[? ?]|] eqn:E; cbn [mbind res_bind] in H; [|try discriminate H]
  | context [if ?b then _ else _] => let E := fresh "E" in destruct b eqn:E
  end.

(** A reader that only moves forward. *)
Definition forward {A} (rd : reader A) : Prop :=
  forall r x r', rd r = Ok (x, r') -> (length r' < length r)%nat.
(** A reader that never reports exhausted fuel on buffers up to [n] bytes. *)
Definition fuelled {A} (n : nat) (rd : reader A) : Prop :=
  forall r, (length r <= n)%nat -> rd r <> Err ErrOutOfFuel.

Lemma uvarint_read_count r i x s v n : uvarint_read r i x s = Some (v, n) -> (i < n)%nat /\ r <> [].
Proof.
  revert i x s. induction r as [|b r IH]; intros i x s H; [done|]. cbn in H.
  repeat case_match; simplify_eq; (split; [|done]); try lia. apply IH in H as [? _]. lia.
Qed.

Lemma r_uvarint_forward : forward r_uvarint.
Proof.
  intros r v r'. unfold r_uvarint. destruct (uvarint_read r 0 0 0) as [[? n]|] eqn:E; [|done].
  intros [= <- <-]. apply uvarint_read_count in E as [Hn Hr]. rewrite length_drop.
  destruct r; [done|]. cbn. lia.
Qed.

Lemma r_varint_forward : forward r_varint.
Proof.
  intros r v r'. unfold r_varint. destruct (uvarint_read r 0 0 0) as [[? n]|] eqn:E; [|done].
  intros [= <- <-]. apply uvarint_read_count in E as [Hn Hr]. rewrite length_drop.
  destruct r; [done|]. cbn. lia.
Qed.

Lemma r_bytes_length n r x r' : r_bytes n r = Ok (x, r') -> (length r' <= length r)%nat.
Proof. unfold r_bytes. destruct (_ || _); [done|]. intros [= <- <-]. rewrite length_drop. lia. Qed.

Lemma r_repeat_length {A} n (rd : reader A) r x r' :
  forward rd -> r_repeat n rd r = Ok (x, r') -> (length r' <= length r)%nat.
Proof.
  intros Hf. revert r x r'. induction n as [|n IH]; intros r x r' H; cbn in H; [by simplify_eq|].
  read_step H. read_step H. simplify_eq. apply IH in E0. apply Hf in E. lia.
Qed.

Lemma r_entry_forward rd : forward rd -> forward (r_entry rd).
Proof.
  intros Hf r x r' H. unfold r_entry in H. do 3 read_step H. simplify_eq.
  apply r_uvarint_forward in E. apply r_bytes_length in E0. apply Hf in E1. lia.
Qed.

Lemma read_value_forward f : forward (read_value f).
Proof.
  induction f as [|f IH]; intros r x r' H; [done|]. destruct r as [|t r]; [done|].
  rewrite read_value_step in H. cbn [length].
  repeat (read_step H; simplify_eq; try done); simplify_eq; try lia;
    repeat match goal with
    | E : r_byte ?r = Ok _ |- _ => destruct r; [done|]; injection E as ? ?; subst; clear E
    | E : r_varint _ = Ok _ |- _ => apply r_varint_forward in E
    | E : r_uvarint _ = Ok _ |- _ => apply r_uvarint_forward in E
    | E : r_bytes _ _ = Ok _ |- _ => apply r_bytes_length in E
    | E : r_repeat _ (read_value _) _ = Ok _ |- _ => apply (r_repeat_length _ _ _ _ _ IH) in E
    | E : r_repeat _ (r_entry _) _ = Ok _ |- _ =>
        apply (r_repeat_length _ _ _ _ _ (r_entry_forward _ IH)) in E
    end; cbn [length] in *; lia.
Qed.

Lemma r_repeat_fuelled {A} n k (rd : reader A) :
  forward rd -> fuelled k rd -> fuelled k (r_repeat n rd).
Proof.
  intros Hf Hfu. induction n as [|n IH]; intros r Hr; cbn; [done|].
  destruct (rd r) as [[x r1]|e] eqn:E; cbn; [|intros [= ->]; by apply (Hfu r)].
  apply Hf in E. destruct (r_repeat n rd r1) as [[xs r2]|e] eqn:E1; cbn; [done|].
  intros [= ->]. by apply (IH r1); [lia|].
Qed.

Lemma plain_fuelled k : fuelled k r_uvarint /\ fuelled k r_varint /\ fuelled k r_byte /\
  forall n, fuelled k (r_bytes n).
Proof.
  repeat split; intros; intros r _; unfold r_uvarint, r_varint, r_byte, r_bytes; repeat case_match; done.
Qed.

Lemma r_entry_fuelled k rd : forward rd -> fuelled k rd -> fuelled k (r_entry rd).
Proof.
  intros Hf Hfu r Hr. unfold r_entry. destruct (plain_fuelled k) as (Hu & _ & _ & Hb).
  destruct (r_uvarint r) as [[n r1]|e] eqn:E1; cbn; [|intros [= ->]; by apply (Hu r)].
  apply r_uvarint_forward in E1.
  destruct (r_bytes _ r1) as [[s r2]|e] eqn:E2; cbn; [|intros [= ->]; apply (Hb (i64_of_u64 n) r1); [lia|done]].
  apply r_bytes_length in E2.
  destruct (rd r2) as [[v r3]|e] eqn:E3; cbn; [done|]. intros [= ->]. by apply (Hfu r2); [lia|].
Qed.

Lemma bind_fuelled {A B} k (rd : reader A) (g : A -> bytes -> res (B * bytes)) r :
  (length r <= k)%nat -> fuelled k rd ->
  (forall x r', rd r = Ok (x, r') -> g x r' <> Err ErrOutOfFuel) ->
  ('(x, r') ← rd r; g x r') <> Err ErrOutOfFuel.
Proof.
  intros Hr Hfu Hg. destruct (rd r) as [[x r']|e] eqn:E; cbn; [by apply Hg|].
  intros [= ->]. by apply (Hfu r).
Qed.

Lemma read_value_fuel f : fuelled f (read_value (S f)).
Proof.
  induction f as [|f IH]; intros r Hr.
  - destruct r; [done|]. cbn in Hr. lia.
  - destruct r as [|t r]; [done|]. cbn [length] in Hr. assert (length r <= f)%nat as Hr' by lia.
    destruct (plain_fuelled f) as (Hu & Hv & Hb & Hbs). pose proof (read_value_forward (S f)) as Hfw.
    rewrite read_value_step.
    repeat match goal with |- (if ?b then _ else _) <> _ => destruct b end; try done.
    all: try (eapply (bind_fuelled f); [exact Hr'|by eauto|done]).
    all: eapply (bind_fuelled f); [exact Hr'|exact Hu|]; intros n r1 E1%r_uvarint_forward;
      match goal with |- (if ?b then _ else _) <> _ => destruct b end; try done.
    + eapply (bind_fuelled f); [lia|apply Hbs|done].
    + eapply (bind_fuelled f); [lia|by apply r_repeat_fuelled|done].
    + eapply (bind_fuelled f); [lia|by apply r_repeat_fuelled; [apply r_entry_forward|apply r_entry_fuelled]|done].
Qed.

Lemma r_value_fuelled k : fuelled k r_value.
Proof. intros r _. by apply read_value_fuel. Qed.

Lemma r_value_forward : forward r_value.
Proof. intros r x r' H. by eapply read_value_forward. Qed.

Lemma r_prop_forward : forward r_prop.
Proof.
  intros r x r' H. unfold r_prop in H. do 2 read_step H. simplify_eq.
  apply r_uvarint_forward in E. apply r_value_forward in E0. lia.
Qed.

Lemma r_prop_fuelled k : fuelled k r_prop.
Proof.
  intros r Hr. unfold r_prop. eapply (bind_fuelled k); [done|apply plain_fuelled|].
  intros n r1 E%r_uvarint_forward. eapply (bind_fuelled k); [lia|apply r_value_fuelled|done].
Qed.

Lemma r_props_fuelled k : fuelled k r_props.
Proof.
  intros r Hr. unfold r_props. eapply (bind_fuelled k); [done|apply plain_fuelled|].
  intros n r1 E%r_uvarint_forward. destruct (_ <? _); [done|].
  eapply (bind_fuelled k); [lia|apply r_repeat_fuelled; [apply r_prop_forward|apply r_prop_fuelled]|done].
Qed.

(** ** Properties *)

(** C30: a node record survives serialization: decoding the encoding of any
    well-formed record gives the same labels (in ascending order) and the same
    properties, nested lists and maps included, with Go ints read as int64. *)
Theorem node_record_roundtrip (rec : NodeRecord) :
  node_ok rec ->
  exists b, EncodeNode rec = Ok b /\
    DecodeNode b = Ok (mkNodeRecord (sort_ids (Labels rec)) (deep_norm <$> Props rec)).
Proof. apply decode_encode_node. Qed.

Definition sample_node : NodeRecord :=
  mkNodeRecord [7; 3] {[1 := VStr [97; 98]; 300 := VList [VGoInt (-1); VMap [([107], VBool true)]]]}.

Lemma sample_node_ok : node_ok sample_node.
Proof.
  split; [repeat constructor; vm_compute; congruence|]. split; [reflexivity|]. split; [|reflexivity].
  intros k v H. unfold sample_node, Props in H.
  apply lookup_insert_Some in H as [[<- <-]|[_ H]]; [|apply lookup_singleton_Some in H as [<- <-]].
  all: repeat split; try (vm_compute; congruence); try reflexivity; cbn; repeat constructor;
    try (vm_compute; congruence).
Qed.

Lemma node_record_roundtrip_witness :
  exists b, EncodeNode sample_node = Ok b /\
    DecodeNode b = Ok (mkNodeRecord (sort_ids (Labels sample_node)) (deep_norm <$> Props sample_node)).
Proof. apply (node_record_roundtrip sample_node). exact sample_node_ok. Defined.

(** an edge record survives serialization. *)
Theorem edge_record_roundtrip (rec : EdgeRecord) :
  edge_ok rec ->
  exists b, EncodeEdge rec = Ok b /\
    DecodeEdge b = Ok (mkEdgeRecord (Type_ rec) (Src rec) (Dst rec) (deep_norm <$> EProps rec)).
Proof. apply decode_encode_edge. Qed.

Definition sample_edge : EdgeRecord := mkEdgeRecord 5 (two64 - 1) 9 {[2 := VFloat 1]}.


(** C31: decoding arbitrary bytes terminates: on any buffer whatsoever the
    decoders return a record or one of the codec's errors; the recursion
    bound of the model (the buffer's length) is never reached. *)
Theorem decode_total (b : bytes) :
  DecodeNode b <> Err ErrOutOfFuel /\ DecodeEdge b <> Err ErrOutOfFuel.
Proof.
  destruct (plain_fuelled (length b)) as (Hu & _). split.
  - unfold DecodeNode. destruct (r_uvarint b) as [[n r]|] eqn:E1; cbn; [|intros [= ->]; by apply (Hu b)].
    apply r_uvarint_forward in E1. destruct (_ <? _); [done|].
    destruct (r_repeat _ r_uvarint r) as [[ls r2]|] eqn:E2; cbn;
      [|intros [= ->]; revert E2; apply (r_repeat_fuelled _ (length b)); [apply r_uvarint_forward|done|lia]].
    destruct (r_props r2) as [[ps r3]|] eqn:E3; cbn; [done|]. intros [= ->].
    by apply (r_props_fuelled (length r2) r2).
  - unfold DecodeEdge.
    assert (forall r, r_uvarint r <> Err ErrOutOfFuel) as Hv by (intros r; by apply (plain_fuelled (length r))).
    destruct (r_uvarint b) as [[n1 r1]|] eqn:E1; cbn; [|intros [= ->]; by apply (Hv b)].
    destruct (r_uvarint r1) as [[n2 r2]|] eqn:E2; cbn; [|intros [= ->]; by apply (Hv r1)].
    destruct (r_uvarint r2) as [[n3 r3]|] eqn:E3; cbn; [|intros [= ->]; by apply (Hv r2)].
    destruct (r_props r3) as [[ps r4]|] eqn:E4; cbn; [done|]. intros [= ->].
    by apply (r_props_fuelled (length r3) r3).
Qed.
