(* ===== verification/Storage.v ===== *)
(** * Storage: transactions over an ordered key-value store

    src/internal/storage/store.go.  Code that runs inside a transaction is a
    [prog]: a finite tree of the calls it makes on the [storage.Txn] it is
    given, ending with a result or an error.  (Every error of [Set], [Delete]
    and [Scan] is returned at once by the callers, and of [Get] only
    ErrNotFound is examined, so a failed call ends the program.)

    [run] executes a program on the reference store, a finite map scanned in
    byte order.  The class [Txn] is the interface an engine implements and
    [TxnLaws] what it promises; [exec_refines] is the one theorem that carries
    every statement about [run] over to any engine that keeps the promise. *)
From S2P Require Import Prelude.

Abbreviation store := (gmap (list Z) (list Z)).
Abbreviation kv := (list Z * list Z)%type.

(** ** Programs *)
Inductive prog (A : Type) : Type :=
| PRet (a : A)
| PThrow (e : error)
| PGet (key : bytes) (k : option bytes -> prog A)
| PSet (key val : bytes) (k : prog A)
| PDelete (key : bytes) (k : prog A)
| PScan (prefix start : bytes) (k : list kv -> prog A).
Arguments PRet {A} a.
Arguments PThrow {A} e.
Arguments PGet {A} key k.
Arguments PSet {A} key val k.
Arguments PDelete {A} key k.
Arguments PScan {A} prefix start k.

#[global] Instance prog_ret : MRet prog := fun A a => PRet a.
#[global] Instance prog_bind : MBind prog := fun A B f =>
  fix go (p : prog A) : prog B :=
    match p with
    | PRet a => f a
    | PThrow e => PThrow e
    | PGet key k => PGet key (fun o => go (k o))
    | PSet key val k => PSet key val (go k)
    | PDelete key k => PDelete key (go k)
    | PScan prefix start k => PScan prefix start (fun l => go (k l))
    end.

(** The methods of [storage.Txn]; an iterator is the list it will yield, fixed
    when it is created. *)
Definition Get (key : bytes) : prog (option bytes) := PGet key PRet.
Definition Set_ (key val : bytes) : prog unit := PSet key val (PRet tt).
Definition Delete (key : bytes) : prog unit := PDelete key (PRet tt).
Definition ScanFrom (prefix start : bytes) : prog (list kv) := PScan prefix start PRet.
Definition Scan (prefix : bytes) : prog (list kv) := ScanFrom prefix prefix.

(** [return nil, err] and the pure codec calls. *)
Definition throw {A} (e : error) : prog A := PThrow e.
Definition lift {A} (r : res A) : prog A :=
  match r with Ok a => PRet a | Err e => PThrow e end.

(** [for _, x := range l { if err := f(x) ... }]. *)
Fixpoint for_each {A} (f : A -> prog unit) (l : list A) : prog unit :=
  match l with
  | [] => PRet tt
  | x :: l' => f x ≫= fun _ => for_each f l'
  end.

(** Collect the results of [f] over [l]. *)
Fixpoint map_prog {A B} (f : A -> prog B) (l : list A) : prog (list B) :=
  match l with
  | [] => PRet []
  | x :: l' => f x ≫= fun y => map_prog f l' ≫= fun ys => PRet (y :: ys)
  end.

(** Thread a value through a loop. *)
Fixpoint fold_prog {A B} (f : B -> A -> prog B) (b : B) (l : list A) : prog B :=
  match l with
  | [] => PRet b
  | x :: l' => f b x ≫= fun b' => fold_prog f b' l'
  end.

(** ** The reference store *)
Definition kv_le (a b : kv) : Prop := ble a.1 b.1.
#[global] Instance kv_le_dec : RelDecision kv_le.
Proof. intros a b. unfold kv_le. apply _. Defined.

Definition in_scan (prefix start : bytes) (e : kv) : Prop :=
  has_prefix prefix e.1 = true /\ ble start e.1.
#[global] Instance in_scan_dec prefix start e : Decision (in_scan prefix start e).
Proof. unfold in_scan. apply _. Defined.

(** Entries with the prefix, from [start] on, in ascending key order. *)
Definition scan_store (prefix start : bytes) (m : store) : list kv :=
  merge_sort kv_le (filter (in_scan prefix start) (map_to_list m)).

Fixpoint run {A} (p : prog A) (m : store) : res A * store :=
  match p with
  | PRet a => (Ok a, m)
  | PThrow e => (Err e, m)
  | PGet key k => run (k (m !! key)) m
  | PSet key val k => run k (<[key := val]> m)
  | PDelete key k => run k (delete key m)
  | PScan prefix start k => run (k (scan_store prefix start m)) m
  end.

(** ** The engine interface *)
Class Txn (T : Type) := {
  t_get : T -> bytes -> option bytes;
  t_set : T -> bytes -> bytes -> option error * T;
  t_delete : T -> bytes -> option error * T;
  t_scan : T -> bytes -> bytes -> list kv
}.

Fixpoint exec {T} `{Txn T} {A} (p : prog A) (t : T) : res A * T :=
  match p with
  | PRet a => (Ok a, t)
  | PThrow e => (Err e, t)
  | PGet key k => exec (k (t_get t key)) t
  | PSet key val k =>
      match t_set t key val with (None, t') => exec k t' | (Some e, t') => (Err e, t') end
  | PDelete key k =>
      match t_delete t key with (None, t') => exec k t' | (Some e, t') => (Err e, t') end
  | PScan prefix start k => exec (k (t_scan t prefix start)) t
  end.

(** Errors an engine raises on its own account. *)
Definition engine_error (e : error) : Prop :=
  match e with ErrReadOnly | ErrEmptyKey | ErrTxnTooLarge | ErrEngine => True | _ => False end.

(** What an engine promises of a transaction in a state satisfying [ok]: reads
    see the map [view], writes update it (or fail and leave it), scans yield
    the selected entries in byte order. *)
Class TxnLaws (T : Type) `{Txn T} (ok : T -> Prop) (view : T -> store) := {
  get_law : forall t k, ok t -> t_get t k = view t !! k;
  set_law : forall t k v, ok t ->
    match t_set t k v with
    | (None, t') => ok t' /\ view t' = <[k := v]> (view t)
    | (Some e, t') => ok t' /\ view t' = view t /\ engine_error e
    end;
  delete_law : forall t k, ok t ->
    match t_delete t k with
    | (None, t') => ok t' /\ view t' = delete k (view t)
    | (Some e, t') => ok t' /\ view t' = view t /\ engine_error e
    end;
  scan_law : forall t p s, ok t -> ble p s -> t_scan t p s = scan_store p s (view t)
}.

(** Programs whose scans start at or after their prefix, as every caller does. *)
Fixpoint scans_ok {A} (p : prog A) : Prop :=
  match p with
  | PRet _ | PThrow _ => True
  | PGet _ k => forall o, scans_ok (k o)
  | PSet _ _ k | PDelete _ k => scans_ok k
  | PScan prefix start k => ble prefix start /\ forall l, scans_ok (k l)
  end.

(** The reference store is an engine. *)
#[global] Instance store_txn : Txn store := {
  t_get m k := m !! k;
  t_set m k v := (None, <[k := v]> m);
  t_delete m k := (None, delete k m);
  t_scan m p s := scan_store p s m
}.

#[global] Instance store_laws : TxnLaws store (fun _ => True) id.
Proof. split; done. Qed.

(** ** Running *)

Lemma run_bind {A B} (p : prog A) (f : A -> prog B) m :
  run (p ≫= f) m = match run p m with (Ok a, m') => run (f a) m' | (Err e, m') => (Err e, m') end.
Proof. revert m. induction p; intros m; cbn; auto. Qed.

Lemma run_lift {A} (r : res A) m : run (lift r) m = (r, m).
Proof. by destruct r. Qed.

Lemma run_ret {A} (a : A) m : run (mret a) m = (Ok a, m).
Proof. done. Qed.

#[export] Hint Rewrite @run_bind @run_lift @run_ret : bytes_rw.

(** ** Programs that only read *)
Definition read_only {A} (p : prog A) : Prop := forall s, snd (run p s) = s.

Lemma read_only_run {A} (p : prog A) s : read_only p -> run p s = (fst (run p s), s).
Proof. intros Hp. rewrite <- (Hp s) at 3. by destruct (run p s). Qed.
Lemma read_only_ret {A} (a : A) : read_only (mret a).
Proof. done. Qed.
Lemma read_only_throw {A} e : read_only (throw (A := A) e).
Proof. done. Qed.
Lemma read_only_lift {A} (r : res A) : read_only (lift r).
Proof. intros s. by destruct r. Qed.
Lemma read_only_Get key : read_only (Get key).
Proof. done. Qed.
Lemma read_only_ScanFrom p s : read_only (ScanFrom p s).
Proof. done. Qed.
Lemma read_only_bind {A B} (p : prog A) (f : A -> prog B) :
  read_only p -> (forall a, read_only (f a)) -> read_only (p ≫= f).
Proof. intros Hp Hf s. rewrite run_bind, (read_only_run p s Hp). by destruct (run p s).1; [apply Hf|]. Qed.
Lemma read_only_map_prog {A B} (f : A -> prog B) l : (forall x, read_only (f x)) -> read_only (map_prog f l).
Proof.
  intros Hf. induction l as [|x l IH]; cbn [map_prog]; [done|].
  apply read_only_bind; [done|]. intros y. by apply read_only_bind.
Qed.

Create HintDb read_db.
#[export] Hint Resolve read_only_ret read_only_throw read_only_lift read_only_Get read_only_ScanFrom
  read_only_bind read_only_map_prog : read_db.

(** ** Sorted entry lists *)
Definition key_sorted (l : list kv) : Prop := StronglySorted blt l.*1.

Lemma key_sorted_cons e l : key_sorted (e :: l) <-> key_sorted l /\ Forall (fun x => blt e.1 x.1) l.
Proof.
  unfold key_sorted. cbn. split.
  - inversion 1 as [|? ? Hs Hf]; subst. split; [done|]. by rewrite Forall_fmap in Hf.
  - intros [Hs Hf]. constructor; [done|]. by rewrite Forall_fmap.
Qed.

(** A strictly sorted list is determined by its elements. *)
Lemma key_sorted_unique l1 l2 :
  key_sorted l1 -> key_sorted l2 -> (forall e, e ∈ l1 <-> e ∈ l2) -> l1 = l2.
Proof.
  revert l2. induction l1 as [|e l1 IH]; intros [|e' l2] H1 H2 He.
  - done.
  - exfalso. apply (not_elem_of_nil e'). apply He. left.
  - exfalso. apply (not_elem_of_nil e). apply He. left.
  - apply key_sorted_cons in H1 as [H1 F1]. apply key_sorted_cons in H2 as [H2 F2].
    rewrite Forall_forall in F1, F2.
    assert (e = e') as ->.
    { assert (e ∈ e' :: l2) as [->|Hin]%elem_of_cons by (apply He; left); [done|].
      assert (e' ∈ e :: l1) as [->|Hin']%elem_of_cons by (apply He; left); [done|].
      apply F1 in Hin'. apply F2 in Hin. by destruct (blt_irrefl e.1 (blt_trans _ _ _ Hin' Hin)). }
    f_equal. apply IH; [done|done|]. intros x. split; intros Hx.
    + assert (x ∈ e' :: l2) as [->|]%elem_of_cons by (apply He; by right); [|done].
      by destruct (blt_irrefl _ (F1 _ Hx)).
    + assert (x ∈ e' :: l1) as [->|]%elem_of_cons by (apply He; by right); [|done].
      by destruct (blt_irrefl _ (F2 _ Hx)).
Qed.

Lemma scan_store_elem p s m e : e ∈ scan_store p s m <-> m !! e.1 = Some e.2 /\ in_scan p s e.
Proof.
  unfold scan_store. rewrite merge_sort_Permutation, list_elem_of_filter.
  destruct e as [k v]. rewrite elem_of_map_to_list. cbn. tauto.
Qed.

#[global] Instance kv_le_total : Total kv_le.
Proof. intros a b. unfold kv_le. apply (total ble). Qed.
#[global] Instance kv_le_trans : Transitive kv_le.
Proof. intros a b c. unfold kv_le. apply transitivity. Qed.

Lemma scan_store_sorted p s m : key_sorted (scan_store p s m).
Proof.
  assert (StronglySorted kv_le (scan_store p s m)) as Hs by (apply StronglySorted_merge_sort; apply _).
  assert (NoDup (scan_store p s m).*1) as Hnd.
  { unfold scan_store. rewrite merge_sort_Permutation.
    assert (NoDup (map_to_list m).*1) as Hnd by apply NoDup_fst_map_to_list. revert Hnd.
    generalize (map_to_list m). clear. intros l.
    induction l as [|e l IH]; rewrite ?fmap_cons; [done|].
    intros [Hn Hnd]%NoDup_cons. rewrite filter_cons. case_decide; [|by apply IH].
    rewrite fmap_cons. constructor; [|by apply IH]. intros Hin. apply Hn.
    apply list_elem_of_fmap in Hin as (x & -> & Hx). apply list_elem_of_fmap. exists x.
    apply list_elem_of_filter in Hx. naive_solver. }
  unfold key_sorted. induction Hs as [|e l Hl IH Hf]; cbn; [constructor|].
  cbn in Hnd. apply NoDup_cons in Hnd as [Hn Hnd]. constructor; [by apply IH|].
  rewrite Forall_fmap. rewrite Forall_forall in *. intros x Hx. cbn.
  specialize (Hf x Hx). unfold kv_le in Hf. apply ble_alt in Hf as [E|]; [|done].
  exfalso. apply Hn. rewrite E. apply list_elem_of_fmap. by exists x.
Qed.

(** A list that is sorted and has the right elements is the scan. *)
Lemma scan_store_unique p s m l :
  key_sorted l -> (forall e, e ∈ l <-> m !! e.1 = Some e.2 /\ in_scan p s e) -> scan_store p s m = l.
Proof.
  intros Hs He. apply key_sorted_unique; [apply scan_store_sorted|done|].
  intros e. by rewrite scan_store_elem, He.
Qed.

(** ** Refinement *)

Section refinement.
Context {T : Type} `{Txn T} (ok : T -> Prop) (view : T -> store) `{!TxnLaws T ok view}.

Lemma exec_simulates {A} (p : prog A) t :
  ok t -> scans_ok p ->
  ok (exec p t).2 /\
  (run p (view t) = ((exec p t).1, view (exec p t).2) \/
   exists e, (exec p t).1 = Err e /\ engine_error e).
Proof.
  revert t. induction p as [a|e|key k IH|key val k IH|key k IH|pr st k IH]; intros t Ht Hs; cbn in *.
  - auto.
  - auto.
  - rewrite (get_law t key Ht). apply IH; [done|apply Hs].
  - pose proof (set_law t key val Ht) as Hl. destruct (t_set t key val) as [[e|] t'].
    + cbn. destruct Hl as (? & ? & ?). eauto.
    + destruct Hl as [Ht' <-]. by apply IH.
  - pose proof (delete_law t key Ht) as Hl. destruct (t_delete t key) as [[e|] t'].
    + cbn. destruct Hl as (? & ? & ?). eauto.
    + destruct Hl as [Ht' <-]. by apply IH.
  - destruct Hs as [Hp Hs]. rewrite (scan_law t pr st Ht Hp). apply IH; [done|apply Hs].
Qed.
End refinement.

(** Any engine that keeps the transaction laws behaves as the reference
    store: when a program succeeds on it, the reference run gives the same
    result and the engine's final contents are the reference's; and a program
    fails on it either as the reference run does or with an error the engine
    itself raised. *)
Theorem exec_refines {T : Type} `{Txn T} (ok : T -> Prop) (view : T -> store) `{!TxnLaws T ok view}
    {A} (p : prog A) (t t' : T) (r : res A) :
  ok t -> scans_ok p -> exec p t = (r, t') ->
  ok t' /\ (run p (view t) = (r, view t') \/ exists e, r = Err e /\ engine_error e).
Proof. intros Ht Hs E. pose proof (exec_simulates ok view p t Ht Hs) as H1. by rewrite E in H1. Qed.

Definition sample_prog : prog (list kv) :=
  Set_ [1; 2] [9] ≫= fun _ => Delete [1; 3] ≫= fun _ => Scan [1].

Lemma exec_refines_witness :
  let m : store := {[ [1; 3] := [7]; [1; 1] := [8]; [2] := [] ]} in
  True /\ (run sample_prog (id m) = (Ok [([1; 1], [8]); ([1; 2], [9])], id (<[ [1; 2] := [9] ]> (delete [1; 3] m)))
    \/ exists e, @Ok (list kv) [([1; 1], [8]); ([1; 2], [9])] = Err e /\ engine_error e).
Proof.
  intros m. apply (exec_refines (fun _ : store => True) id sample_prog m).
  - exact I.
  - cbn. split; [vm_compute; congruence|done].
  - vm_compute. reflexivity.
Defined.
