(* ===== verification/Catalog.v ===== *)
(** * Catalog: dictionaries, counters and registries

    src/internal/catalog/catalog.go and format.go, as programs over a
    transaction: names are interned to 32-bit identifiers through a forward
    (name to id) and a reverse (id to name) table, identifiers come from
    monotonic counters, and three registries list the active indexes and
    constraints.  The properties are in Tables.v, where the keys of these
    programs are read as tables. *)
From S2P Require Import Prelude Values Keys Storage.

(** ** Decoding *)
Definition decodeU32 (v : bytes) : res Z :=
  if (length v =? 4)%nat then Ok (be_get v) else Err ErrMalformedId.
Definition decodeU64 (v : bytes) : res Z :=
  if (length v =? 8)%nat then Ok (be_get v) else Err ErrMalformedCounter.

(** ** Counters and dictionaries *)

(** [next := cur + 1] is uint64 arithmetic. *)
Definition nextCounter (kind : Z) : prog Z :=
  v ← Get (counterKey kind);
  cur ← match v with Some v => lift (decodeU64 v) | None => mret 0 end;
  let next := (cur + 1) mod two64 in
  Set_ (counterKey kind) (be 8 next) ≫= fun _ => mret next.

Definition internDict (fwdTag kind : Z) (name : bytes) : prog Z :=
  v ← Get (fwdKey fwdTag name);
  match v with
  | Some v => lift (decodeU32 v)
  | None =>
      id64 ← nextCounter kind;
      if 0xFFFFFFFF <? id64 then throw ErrOutOfIDs
      else
        Set_ (fwdKey fwdTag name) (be 4 id64) ≫= fun _ =>
        Set_ (revKey kind id64) name ≫= fun _ => mret id64
  end.

Definition lookupDict (fwdTag : Z) (name : bytes) : prog (option Z) :=
  v ← Get (fwdKey fwdTag name);
  match v with
  | Some v => id ← lift (decodeU32 v); mret (Some id)
  | None => mret None
  end.

Definition revName (kind id : Z) : prog bytes :=
  v ← Get (revKey kind id);
  match v with Some v => mret v | None => throw ErrNotFound end.

Definition InternLabel (name : bytes) : prog Z := internDict tagLabelFwd kindLabel name.
Definition InternType (name : bytes) : prog Z := internDict tagTypeFwd kindType name.
Definition InternKey (name : bytes) : prog Z := internDict tagKeyFwd kindKey name.
Definition LookupLabel (name : bytes) : prog (option Z) := lookupDict tagLabelFwd name.
Definition LookupType (name : bytes) : prog (option Z) := lookupDict tagTypeFwd name.
Definition LookupKey (name : bytes) : prog (option Z) := lookupDict tagKeyFwd name.
Definition LabelName (id : Z) : prog bytes := revName kindLabel id.
Definition TypeName (id : Z) : prog bytes := revName kindType id.
Definition KeyName (id : Z) : prog bytes := revName kindKey id.
Definition NextNodeID : prog Z := nextCounter kindNode.
Definition NextEdgeID : prog Z := nextCounter kindEdge.

(** ** Index registry *)
Record IndexDef := mkIndexDef { ix_Label : Z; ix_PropKey : Z; ix_Name : bytes }.

Definition AddNamedIndex (label propKey : Z) (name : bytes) : prog unit :=
  Set_ (indexKey label propKey) name.
Definition AddIndex (label propKey : Z) : prog unit := AddNamedIndex label propKey [].

Definition GetIndex (label propKey : Z) : prog (option IndexDef) :=
  v ← Get (indexKey label propKey);
  mret (match v with Some v => Some (mkIndexDef label propKey v) | None => None end).

Definition RemoveIndex (label propKey : Z) : prog unit := Delete (indexKey label propKey).

(** [name] or, when empty, the generated one. *)
Definition default_name (kind label prop name : bytes) : bytes :=
  match name with [] => kind ++ label ++ str "_" ++ prop | _ => name end.

Definition IndexName (d : IndexDef) : prog (bytes * bytes * bytes) :=
  label ← LabelName (ix_Label d);
  prop ← KeyName (ix_PropKey d);
  mret (label, prop, default_name (str "index_") label prop (ix_Name d)).

Definition HasIndex (label propKey : Z) : prog bool :=
  v ← Get (indexKey label propKey);
  mret (match v with Some _ => true | None => false end).

(** One entry of a registry scan. *)
Definition registry_ids (k : bytes) : res (Z * Z) :=
  if (length k =? 9)%nat then Ok (field 1 4 k, field 5 4 k) else Err ErrMalformedRegistry.

Definition ListIndexes : prog (list IndexDef) :=
  l ← Scan [tagIndexReg];
  map_prog (fun e => '(lb, k) ← lift (registry_ids e.1); mret (mkIndexDef lb k e.2)) l.

(** ** Constraint registry *)
Record ConstraintDef := mkConstraintDef {
  cd_Label : Z; cd_PropKey : Z; cd_Name : bytes; cd_OwnsIndex : bool
}.

Definition AddConstraint (d : ConstraintDef) : prog unit :=
  Set_ (constraintKey (cd_Label d) (cd_PropKey d)) ((if cd_OwnsIndex d then 1 else 0) :: cd_Name d).

Definition decodeConstraint (label propKey : Z) (v : bytes) : res ConstraintDef :=
  match v with
  | [] => Err ErrMalformedRegistry
  | f :: name => Ok (mkConstraintDef label propKey name (negb (Z.land f 1 =? 0)))
  end.

Definition GetConstraint (label propKey : Z) : prog (option ConstraintDef) :=
  v ← Get (constraintKey label propKey);
  match v with
  | Some v => d ← lift (decodeConstraint label propKey v); mret (Some d)
  | None => mret None
  end.

Definition HasUnique (label propKey : Z) : prog bool :=
  d ← GetConstraint label propKey;
  mret (match d with Some _ => true | None => false end).

Definition RemoveConstraint (label propKey : Z) : prog unit := Delete (constraintKey label propKey).

Definition ListConstraints : prog (list ConstraintDef) :=
  l ← Scan [tagConstraint];
  map_prog (fun e => '(lb, k) ← lift (registry_ids e.1); lift (decodeConstraint lb k e.2)) l.

Definition ConstraintName (d : ConstraintDef) : prog (bytes * bytes * bytes) :=
  label ← LabelName (cd_Label d);
  prop ← KeyName (cd_PropKey d);
  mret (label, prop, default_name (str "constraint_") label prop (cd_Name d)).

(** ** Relationship index registry *)
Record RelIndexDef := mkRelIndexDef { ri_Type : Z; ri_PropKey : Z; ri_Name : bytes }.

Definition AddRelIndex (typeID propKey : Z) (name : bytes) : prog unit :=
  Set_ (relIndexKey typeID propKey) name.
Definition HasRelIndex (typeID propKey : Z) : prog bool :=
  v ← Get (relIndexKey typeID propKey);
  mret (match v with Some _ => true | None => false end).
Definition GetRelIndex (typeID propKey : Z) : prog (option RelIndexDef) :=
  v ← Get (relIndexKey typeID propKey);
  mret (match v with Some v => Some (mkRelIndexDef typeID propKey v) | None => None end).
Definition RemoveRelIndex (typeID propKey : Z) : prog unit := Delete (relIndexKey typeID propKey).
Definition ListRelIndexes : prog (list RelIndexDef) :=
  l ← Scan [tagRelIndex];
  map_prog (fun e => '(t, k) ← lift (registry_ids e.1); mret (mkRelIndexDef t k e.2)) l.
Definition RelIndexName (d : RelIndexDef) : prog (bytes * bytes * bytes) :=
  typ ← TypeName (ri_Type d);
  prop ← KeyName (ri_PropKey d);
  mret (typ, prop, default_name (str "rel_index_") typ prop (ri_Name d)).

(** ** Format marker (format.go) *)
Definition formatVersion : Z := 1.
Definition formatUnique : Z := 2.
Definition formatRelIndex : Z := 3.
Definition maxFormat : Z := formatRelIndex.

Definition EnsureFormat : prog unit :=
  cur ← Get formatKey;
  match cur with
  | None => Set_ formatKey (be 4 formatVersion)
  | Some cur =>
      if negb (length cur =? 4)%nat then throw ErrMalformedMarker
      else let v := be_get cur in
        if (v <? formatVersion) || (maxFormat <? v) then throw (ErrFormatVersion v) else mret tt
  end.

Definition requireFormat (v : Z) : prog unit :=
  cur ← Get formatKey;
  let cur := default [] cur in
  if (length cur =? 4)%nat && (v <=? be_get cur) then mret tt
  else Set_ formatKey (be 4 v).

Definition RequireUniqueFormat : prog unit := requireFormat formatUnique.
Definition RequireRelIndexFormat : prog unit := requireFormat formatRelIndex.
