(* ===== verification/Graph.v ===== *)
(** * Graph: nodes, edges and their indexes

    src/internal/graph: model.go, crud.go, unique.go, relindex.go and the list
    scans of traversal.go, as programs over a transaction.  Every function that
    changes a base record changes its index entries (`l`, `p`, `u`, `o`, `i`,
    `r`) too; GraphInv.v states and proves what that amounts to. *)
From S2P Require Import Prelude Float64 Values IndexCodec Keys Records Storage Catalog.

(** The order in which Go visits a map is unspecified: it is a parameter, and
    only that each entry is visited once is known of it. *)
Class MapOrder := {
  range_props : gmap Z value -> list (Z * value);
  range_names : list (bytes * value) -> list (bytes * value);
  range_set : gset Z -> list Z;
  range_props_perm : forall p, range_props p ≡ₚ map_to_list p;
  range_names_perm : forall p, range_names p ≡ₚ p;
  range_set_perm : forall s, range_set s ≡ₚ elements s
}.

Record Node := mkNode { n_ID : Z; n_rec : NodeRecord }.
Record Edge := mkEdge { e_ID : Z; e_rec : EdgeRecord }.
Record EdgeRef := mkEdgeRef { er_ID : Z; er_Type : Z; er_Src : Z; er_Dst : Z }.

(** ** Reading (crud.go, traversal.go) *)
Definition GetNode (id : Z) : prog Node :=
  b ← Get (NodeKey id);
  match b with
  | None => throw ErrNodeNotFound
  | Some b => rec ← lift (DecodeNode b); mret (mkNode id rec)
  end.

Definition GetEdge (id : Z) : prog Edge :=
  b ← Get (EdgeKey id);
  match b with
  | None => throw ErrEdgeNotFound
  | Some b => rec ← lift (DecodeEdge b); mret (mkEdge id rec)
  end.

Definition AllNodes : prog (list Z) :=
  l ← Scan NodePrefix; map_prog (fun e => lift (NodeIDFromKey e.1)) l.

Definition NodesByLabel (labelID : Z) : prog (list Z) :=
  l ← Scan (LabelPrefix labelID);
  map_prog (fun e => '(_, node) ← lift (ParseLabelKey e.1); mret node) l.

Definition OutEdges (nodeID typeID : Z) : prog (list EdgeRef) :=
  l ← Scan (if negb (typeID =? 0) then OutPrefix nodeID typeID else OutPrefixAll nodeID);
  map_prog (fun e => '(src, typ, dst, edge) ← lift (ParseOutKey e.1); mret (mkEdgeRef edge typ src dst)) l.

Definition InEdges (nodeID typeID : Z) : prog (list EdgeRef) :=
  l ← Scan (if negb (typeID =? 0) then InPrefix nodeID typeID else InPrefixAll nodeID);
  map_prog (fun e => '(dst, typ, src, edge) ← lift (ParseInKey e.1); mret (mkEdgeRef edge typ src dst)) l.

Definition appendIndexMatches (out : list Z) (prefix : bytes) : prog (list Z) :=
  l ← Scan prefix;
  ids ← map_prog (fun e => lift (ParsePropKeyNode e.1)) l;
  mret (out ++ ids).

(** [sort.Slice] on identifiers, as in the record encoder. *)
Definition NodesByProperty (labelID keyID : Z) (v : value) : prog (list Z) :=
  let v := normalize v in
  has ← HasIndex labelID keyID;
  let '(probes, exact) := equalityProbes v in
  if has && exact && isIndexable v then
    out ← fold_prog (fun out p => prefix ← lift (PropPrefix labelID keyID p); appendIndexMatches out prefix) [] probes;
    mret (sort_ids out)
  else
    nodes ← NodesByLabel labelID;
    fold_prog (fun out n =>
      node ← GetNode n;
      match Props (n_rec node) !! keyID with
      | Some w => mret (if QueryEqual w v then out ++ [n] else out)
      | None => mret out
      end) [] nodes.

(** ** Property index entries (unique.go) *)
Definition valueOwner (uk : bytes) : prog (option Z) :=
  v ← Get uk;
  match v with
  | None => mret None
  | Some v => if (length v =? 8)%nat then mret (Some (be_get v)) else throw ErrMalformedOwner
  end.

Definition violation {A} (label propKey : Z) : prog A :=
  _ ← LabelName label;
  _ ← KeyName propKey;
  throw ErrConstraintViolation.

Definition claimValue (label propKey : Z) (v : value) (nodeID : Z) : prog unit :=
  match uniqueValue v with
  | None => mret tt
  | Some canon =>
      uk ← lift (UniqueKey label propKey canon);
      owner ← valueOwner uk;
      match owner with
      | Some o => if negb (o =? nodeID) then violation label propKey else mret tt
      | None => Set_ uk (be 8 nodeID)
      end
  end.

Definition putPropEntry (label propKey : Z) (v : value) (nodeID : Z) : prog unit :=
  if negb (isIndexable v) then mret tt
  else
    has ← HasIndex label propKey;
    if negb has then mret tt
    else
      pk ← lift (PropKey label propKey v nodeID);
      Set_ pk [] ≫= fun _ =>
      unique ← HasUnique label propKey;
      if negb unique then mret tt else claimValue label propKey v nodeID.

Definition delPropEntry (label propKey : Z) (v : value) (nodeID : Z) : prog unit :=
  if negb (isIndexable v) then mret tt
  else
    has ← HasIndex label propKey;
    if negb has then mret tt
    else
      pk ← lift (PropKey label propKey v nodeID);
      Delete pk ≫= fun _ =>
      unique ← HasUnique label propKey;
      if negb unique then mret tt
      else
        match uniqueValue v with
        | None => mret tt
        | Some canon =>
            uk ← lift (UniqueKey label propKey canon);
            owner ← valueOwner uk;
            match owner with
            | Some o => if o =? nodeID then Delete uk else mret tt
            | None => mret tt
            end
        end.

(** ** Relationship index entries (relindex.go) *)
Definition putRelPropEntry (typeID propKey : Z) (v : value) (edge : Z) : prog unit :=
  if negb (isIndexable v) then mret tt
  else
    has ← HasRelIndex typeID propKey;
    if negb has then mret tt
    else k ← lift (RelPropKey typeID propKey v edge); Set_ k [].

Definition delRelPropEntry (typeID propKey : Z) (v : value) (edge : Z) : prog unit :=
  if negb (isIndexable v) then mret tt
  else
    has ← HasRelIndex typeID propKey;
    if negb has then mret tt
    else k ← lift (RelPropKey typeID propKey v edge); Delete k.

(** ** Writing (crud.go) *)
Definition putNodeRecord (id : Z) (rec : NodeRecord) : prog unit :=
  b ← lift (EncodeNode rec); Set_ (NodeKey id) b.

(** [seen]/[existing] and the new identifiers, in order of first mention. *)
Fixpoint intern_new (existing added : list Z) (names : list bytes) : prog (list Z) :=
  match names with
  | [] => mret added
  | name :: names' =>
      id ← InternLabel name;
      if bool_decide (id ∈ existing) then intern_new existing added names'
      else intern_new (id :: existing) (added ++ [id]) names'
  end.

Definition hasIncidentEdges (nodeID : Z) : prog bool :=
  l ← Scan (OutPrefixAll nodeID);
  match l with
  | _ :: _ => mret true
  | [] => l ← Scan (InPrefixAll nodeID);
          mret (match l with _ :: _ => true | [] => false end)
  end.

Definition deletePrefix (prefix : bytes) : prog unit :=
  l ← Scan prefix; for_each Delete l.*1.

Definition DropIndexEntries (labelID keyID : Z) : prog unit :=
  deletePrefix (PropIndexPrefix labelID keyID) ≫= fun _ => RemoveIndex labelID keyID.

Section crud.
Context `{MapOrder}.

Definition put_entries (label : Z) (props : gmap Z value) (nodeID : Z) : prog unit :=
  for_each (fun kv => putPropEntry label kv.1 kv.2 nodeID) (range_props props).
Definition del_entries (label : Z) (props : gmap Z value) (nodeID : Z) : prog unit :=
  for_each (fun kv => delPropEntry label kv.1 kv.2 nodeID) (range_props props).

Definition putNodeIndexes (nodeID : Z) (rec : NodeRecord) : prog unit :=
  for_each (fun l => Set_ (LabelKey l nodeID) [] ≫= fun _ => put_entries l (Props rec) nodeID) (Labels rec).
Definition delNodeIndexes (nodeID : Z) (rec : NodeRecord) : prog unit :=
  for_each (fun l => Delete (LabelKey l nodeID) ≫= fun _ => del_entries l (Props rec) nodeID) (Labels rec).

Definition internProps (props : list (bytes * value)) : prog (gmap Z value) :=
  fold_prog (fun out kv =>
    if is_null kv.2 then mret out
    else id ← InternKey kv.1; mret (<[id := normalize kv.2]> out)) ∅ (range_names props).

Definition CreateNode (labels : list bytes) (props : list (bytes * value)) : prog Z :=
  labelIDs ← intern_new [] [] labels;
  p ← internProps props;
  id ← NextNodeID;
  let rec := mkNodeRecord labelIDs p in
  putNodeRecord id rec ≫= fun _ =>
  putNodeIndexes id rec ≫= fun _ => mret id.

Definition CreateEdge (typ : bytes) (src dst : Z) (props : list (bytes * value)) : prog Z :=
  _ ← GetNode src;
  _ ← GetNode dst;
  typeID ← InternType typ;
  p ← internProps props;
  id ← NextEdgeID;
  b ← lift (EncodeEdge (mkEdgeRecord typeID src dst p));
  Set_ (EdgeKey id) b ≫= fun _ =>
  Set_ (OutKey src typeID dst id) [] ≫= fun _ =>
  Set_ (InKey dst typeID src id) [] ≫= fun _ =>
  for_each (fun kv => putRelPropEntry typeID kv.1 kv.2 id) (range_props p) ≫= fun _ =>
  mret id.

Definition SetProperty (nodeID : Z) (key : bytes) (v : value) : prog unit :=
  node ← GetNode nodeID;
  keyID ← InternKey key;
  let v := normalize v in
  let rec := n_rec node in
  for_each (fun l =>
    match Props rec !! keyID with
    | Some old => delPropEntry l keyID old nodeID
    | None => mret tt
    end ≫= fun _ => putPropEntry l keyID v nodeID) (Labels rec) ≫= fun _ =>
  putNodeRecord nodeID (mkNodeRecord (Labels rec)
    (if is_null v then delete keyID (Props rec) else <[keyID := v]> (Props rec))).

Definition RemoveProperty (nodeID : Z) (key : bytes) : prog unit :=
  node ← GetNode nodeID;
  found ← LookupKey key;
  match found with
  | None => mret tt
  | Some keyID =>
      let rec := n_rec node in
      match Props rec !! keyID with
      | None => mret tt
      | Some old =>
          for_each (fun l => delPropEntry l keyID old nodeID) (Labels rec) ≫= fun _ =>
          putNodeRecord nodeID (mkNodeRecord (Labels rec) (delete keyID (Props rec)))
      end
  end.

Definition AddLabels (nodeID : Z) (labels : list bytes) : prog unit :=
  match labels with
  | [] => mret tt
  | _ =>
      node ← GetNode nodeID;
      let rec := n_rec node in
      added ← intern_new (Labels rec) [] labels;
      match added with
      | [] => mret tt
      | _ =>
          for_each (fun l => Set_ (LabelKey l nodeID) [] ≫= fun _ => put_entries l (Props rec) nodeID) added ≫= fun _ =>
          putNodeRecord nodeID (mkNodeRecord (Labels rec ++ added) (Props rec))
      end
  end.

Definition lookup_labels (names : list bytes) : prog (list Z) :=
  fold_prog (fun ids name => id ← LookupLabel name; mret (match id with Some id => id :: ids | None => ids end)) [] names.

Definition RemoveLabels (nodeID : Z) (labels : list bytes) : prog unit :=
  match labels with
  | [] => mret tt
  | _ =>
      node ← GetNode nodeID;
      let rec := n_rec node in
      toRemove ← lookup_labels labels;
      match toRemove with
      | [] => mret tt
      | _ =>
          kept ← fold_prog (fun kept id =>
            if bool_decide (id ∈ toRemove) then
              Delete (LabelKey id nodeID) ≫= fun _ =>
              del_entries id (Props rec) nodeID ≫= fun _ => mret kept
            else mret (kept ++ [id])) [] (Labels rec);
          putNodeRecord nodeID (mkNodeRecord kept (Props rec))
      end
  end.

Definition intern_desired (props : list (bytes * value)) : prog (gmap Z value) :=
  fold_prog (fun out kv => id ← InternKey kv.1; mret (<[id := normalize kv.2]> out)) ∅ (range_names props).

(** Remove the entries of a property under every label of the node. *)
Definition del_value (nodeID : Z) (labels : list Z) (keyID : Z) (old : value) : prog unit :=
  for_each (fun l => delPropEntry l keyID old nodeID) labels.

(** [props] without the nil values. *)
Definition set_props (props : gmap Z value) : gmap Z value := filter (fun kv => kv.2 <> VNull) props.

Definition replace_props (nodeID : Z) (rec : NodeRecord) (desired : gmap Z value) : prog (gmap Z value) :=
  for_each (fun kv =>
    match desired !! kv.1 with
    | Some newVal => if sameValue newVal kv.2 then mret tt else del_value nodeID (Labels rec) kv.1 kv.2
    | None => del_value nodeID (Labels rec) kv.1 kv.2
    end) (range_props (Props rec)) ≫= fun _ =>
  mret (set_props desired).

Definition merge_props (nodeID : Z) (rec : NodeRecord) (desired : gmap Z value) : prog (gmap Z value) :=
  fold_prog (fun props kv =>
    match props !! kv.1 with
    | Some old => if sameValue old kv.2 then mret tt else del_value nodeID (Labels rec) kv.1 old
    | None => mret tt
    end ≫= fun _ =>
    mret (if is_null kv.2 then delete kv.1 props else <[kv.1 := kv.2]> props))
    (Props rec) (range_props desired).

Definition SetNodeProperties (nodeID : Z) (props : list (bytes * value)) (replace : bool) : prog unit :=
  node ← GetNode nodeID;
  let rec := n_rec node in
  desired ← intern_desired props;
  new ← (if replace then replace_props nodeID rec desired else merge_props nodeID rec desired);
  for_each (fun kv => for_each (fun l => putPropEntry l kv.1 kv.2 nodeID) (Labels rec)) (range_props new) ≫= fun _ =>
  putNodeRecord nodeID (mkNodeRecord (Labels rec) new).

Definition DeleteEdge (id : Z) : prog unit :=
  e ← GetEdge id;
  let r := e_rec e in
  Delete (OutKey (Src r) (Type_ r) (Dst r) id) ≫= fun _ =>
  Delete (InKey (Dst r) (Type_ r) (Src r) id) ≫= fun _ =>
  for_each (fun kv => delRelPropEntry (Type_ r) kv.1 kv.2 id) (range_props (EProps r)) ≫= fun _ =>
  Delete (EdgeKey id).

Definition DeleteNode (id : Z) : prog unit :=
  node ← GetNode id;
  has ← hasIncidentEdges id;
  if has : bool then throw ErrNodeHasEdges
  else delNodeIndexes id (n_rec node) ≫= fun _ => Delete (NodeKey id).

Definition DetachDeleteNode (id : Z) : prog unit :=
  _ ← GetNode id;
  out ← OutEdges id 0;
  in_ ← InEdges id 0;
  let edgeIDs : gset Z := list_to_set (er_ID <$> out) ∪ list_to_set (er_ID <$> in_) in
  for_each DeleteEdge (range_set edgeIDs) ≫= fun _ => DeleteNode id.
End crud.

(** ** Building and dropping indexes (unique.go, relindex.go) *)
Definition forEachLabelValue (label propKey : Z) (fn : Z -> value -> prog unit) : prog unit :=
  nodeIDs ← NodesByLabel label;
  for_each (fun id =>
    node ← GetNode id;
    match Props (n_rec node) !! propKey with
    | Some v => if isIndexable v then fn id v else mret tt
    | None => mret tt
    end) nodeIDs.

Definition BuildIndex (label propKey : Z) (name : bytes) : prog unit :=
  AddNamedIndex label propKey name ≫= fun _ =>
  forEachLabelValue label propKey (fun nodeID v =>
    pk ← lift (PropKey label propKey v nodeID); Set_ pk []).

Definition AddUniqueConstraint (label propKey : Z) (name : bytes) : prog unit :=
  hasIndex ← HasIndex label propKey;
  (if hasIndex : bool then mret tt else BuildIndex label propKey []) ≫= fun _ =>
  RequireUniqueFormat ≫= fun _ =>
  AddConstraint (mkConstraintDef label propKey name (negb hasIndex)) ≫= fun _ =>
  forEachLabelValue label propKey (fun nodeID v => claimValue label propKey v nodeID).

Definition DropUniqueConstraint (label propKey : Z) : prog unit :=
  def ← GetConstraint label propKey;
  match def with
  | None => mret tt
  | Some def =>
      deletePrefix (UniquePrefix label propKey) ≫= fun _ =>
      RemoveConstraint label propKey ≫= fun _ =>
      if cd_OwnsIndex def then DropIndexEntries label propKey else mret tt
  end.

(** One record of [ScanEdgesOfType]: a record of another type is not kept. *)
Definition edge_of_type (typeID : Z) (e : kv) : res (list Edge) :=
  rec ← DecodeEdge e.2;
  if Type_ rec =? typeID then id ← EdgeIDFromKey e.1; Ok [mkEdge id rec] else Ok [].

Definition ScanEdgesOfType (typeID : Z) (fn : Edge -> prog unit) : prog unit :=
  l ← Scan EdgePrefix;
  edges ← map_prog (fun e => lift (edge_of_type typeID e)) l;
  for_each fn (concat edges).

Definition BuildRelIndex (typeID propKey : Z) (name : bytes) : prog unit :=
  RequireRelIndexFormat ≫= fun _ =>
  AddRelIndex typeID propKey name ≫= fun _ =>
  ScanEdgesOfType typeID (fun e =>
    match EProps (e_rec e) !! propKey with
    | Some v => if isIndexable v then k ← lift (RelPropKey typeID propKey v (e_ID e)); Set_ k [] else mret tt
    | None => mret tt
    end).

Definition DropRelIndexEntries (typeID propKey : Z) : prog unit :=
  deletePrefix (RelPropIndexPrefix typeID propKey) ≫= fun _ => RemoveRelIndex typeID propKey.

(** [edgesByScan]: the callback appends to [ids]. *)
Definition edgesByScan (typeID propKey : Z) (v : value) : prog (list Z) :=
  l ← Scan EdgePrefix;
  edges ← map_prog (fun e => lift (edge_of_type typeID e)) l;
  mret (concat ((fun e => match EProps (e_rec e) !! propKey with
                          | Some w => if QueryEqual w v then [e_ID e] else []
                          | None => []
                          end) <$> concat edges)).

Definition EdgesByProperty (typeID propKey : Z) (v : value) : prog (list Z) :=
  let v := normalize v in
  if is_null v then mret []
  else
    has ← HasRelIndex typeID propKey;
    let '(probes, exact) := equalityProbes v in
    if negb has || negb exact || negb (isIndexable v) then edgesByScan typeID propKey v
    else
      ids ← fold_prog (fun ids p =>
        prefix ← lift (RelPropPrefix typeID propKey p);
        l ← Scan prefix;
        new ← map_prog (fun e => '(_, id) ← lift (ParseRelPropKey e.1); mret id) l;
        mret (ids ++ new)) [] probes;
      mret (sort_ids ids).
