(* ===== verification/Context.v ===== *)
(** * Context: the state of one query execution

    src/internal/exec/exec.go, type Context.  An executor function is a
    computation that threads the context and calls the transaction: [M A].
    An error is a value of the result, because ORDER BY swallows the errors of
    its keys; [txn] turns a failed transaction program into such a value.

    [Runtime] collects what the executor takes from outside the repository and
    whose tables are not reproduced here: the regular expressions of package
    regexp, the clock, the random source, the shortest decimal form of a
    float, case mapping off ASCII, and the order in which [range] visits a map. *)
From S2P Require Import Prelude Float64 FloatArith Values Scalars Keys Records Storage Catalog Graph.
Import Float64 Scalars.

Class Runtime := {
  Regexp : Type;
  Compile : bytes -> option Regexp;            (* regexp.Compile *)
  MatchString : Regexp -> bytes -> bool;       (* (Regexp).MatchString *)
  UnixMilli : nat -> Z;                        (* the n-th reading of the clock *)
  RandFloat64 : nat -> Z;                      (* the n-th draw of rand.Float64 *)
  FormatG : Z -> bytes;                        (* strconv.FormatFloat(f, 'g', -1, 64) *)
  ParseFloat : bytes -> option Z;              (* strconv.ParseFloat(s, 64) *)
  unicodeLower : bytes -> bytes;               (* strings.ToLower off ASCII *)
  unicodeUpper : bytes -> bytes;               (* strings.ToUpper off ASCII *)
  convertOverflow : Z -> Z;                    (* int64(f) when f does not fit *)
  order_keys : list bytes -> list bytes;       (* range over a map[string]any *)
  order_ids : list Z -> list Z                 (* range over a map[uint32]any *)
}.

(** The documented ranges of those results. *)
Class RuntimeLaws `{Runtime} : Prop := {
  UnixMilli_ok n : i64 (UnixMilli n);
  RandFloat64_ok n : u64 (RandFloat64 n);
  FormatG_ok f : bytes_ok (FormatG f);
  ParseFloat_ok s f : ParseFloat s = Some f -> u64 f;
  unicodeLower_ok s : bytes_ok s -> bytes_ok (unicodeLower s);
  unicodeUpper_ok s : bytes_ok s -> bytes_ok (unicodeUpper s);
  convertOverflow_ok f : i64 (convertOverflow f);
  order_keys_perm l : order_keys l ≡ₚ l;
  order_ids_perm l : order_ids l ≡ₚ l
}.

Module Context.
(** One row of execution: variable or column name to value. *)
Abbreviation binding := (gmap (list Z) value).

Section context.
Context `{Runtime}.

(** The fields that computations read or change.  [Ctx] is the cancellation
    context: absent, or done after a number of further polls (once done it
    stays done).  [ticks] and [draws] count the readings of the clock and of
    the random source. *)
Record Context := mkContext {
  Params : gmap (list Z) value;
  Ctx : option nat;
  MaxRows : Z;
  keyIDs : gmap (list Z) Z;
  labelIDs : gmap (list Z) Z;
  regexps : gmap (list Z) Regexp;
  now : Z;
  ticks : nat;
  draws : nat
}.

Definition set_Ctx (o : option nat) (c : Context) : Context :=
  mkContext (Params c) o (MaxRows c) (keyIDs c) (labelIDs c) (regexps c) (now c) (ticks c) (draws c).
Definition set_keyIDs (m : gmap (list Z) Z) (c : Context) : Context :=
  mkContext (Params c) (Ctx c) (MaxRows c) m (labelIDs c) (regexps c) (now c) (ticks c) (draws c).
Definition set_labelIDs (m : gmap (list Z) Z) (c : Context) : Context :=
  mkContext (Params c) (Ctx c) (MaxRows c) (keyIDs c) m (regexps c) (now c) (ticks c) (draws c).
Definition set_regexps (m : gmap (list Z) Regexp) (c : Context) : Context :=
  mkContext (Params c) (Ctx c) (MaxRows c) (keyIDs c) (labelIDs c) m (now c) (ticks c) (draws c).
Definition set_now (t : Z) (c : Context) : Context :=
  mkContext (Params c) (Ctx c) (MaxRows c) (keyIDs c) (labelIDs c) (regexps c) t (S (ticks c)) (draws c).
Definition set_draws (n : nat) (c : Context) : Context :=
  mkContext (Params c) (Ctx c) (MaxRows c) (keyIDs c) (labelIDs c) (regexps c) (now c) (ticks c) n.

(** ** Computations *)
Definition M (A : Type) : Type := Context -> prog (res A * Context).

#[global] Instance M_ret : MRet M := fun A a c => PRet (Ok a, c).
#[global] Instance M_bind : MBind M := fun A B f m c =>
  m c ≫= fun '(r, c') => match r with Ok a => f a c' | Err e => PRet (Err e, c') end.
Definition fail {A} (e : error) : M A := fun c => PRet (Err e, c).
Definition of_res {A} (r : res A) : M A := fun c => PRet (r, c).
Definition get_ctx : M Context := fun c => PRet (Ok c, c).
Definition put_ctx (f : Context -> Context) : M unit := fun c => PRet (Ok tt, f c).

(** A transaction program with its error as a value. *)
Fixpoint try {A} (p : prog A) : prog (res A) :=
  match p with
  | PRet a => PRet (Ok a)
  | PThrow e => PRet (Err e)
  | PGet key k => PGet key (fun o => try (k o))
  | PSet key val k => PSet key val (try k)
  | PDelete key k => PDelete key (try k)
  | PScan prefix start k => PScan prefix start (fun l => try (k l))
  end.
Definition txn {A} (p : prog A) : M A := fun c => try p ≫= fun r => PRet (r, c).

(** [for _, x := range l] collecting results, and threading a value. *)
Definition mapM {A B} (f : A -> M B) : list A -> M (list B) :=
  fix go (l : list A) : M (list B) :=
    match l with
    | [] => mret []
    | x :: l' => y ← f x; ys ← go l'; mret (y :: ys)
    end.

Definition foldM {A B} (f : B -> A -> M B) : B -> list A -> M B :=
  fix go (acc : B) (l : list A) : M B :=
    match l with
    | [] => mret acc
    | x :: l' => f acc x ≫= fun acc' => go acc' l'
    end.

(** ** The methods of Context *)

(** [check]: poll the cancellation context. *)
Definition poll (c : Context) : res unit * Context :=
  match Ctx c with
  | None => (Ok tt, c)
  | Some 0%nat => (Err ErrCanceled, c)
  | Some (S n) => (Ok tt, set_Ctx (Some n) c)
  end.
Definition check : M unit := fun c => PRet (poll c).

Definition lookupKey (name : bytes) : M (option Z) :=
  c ← get_ctx;
  match keyIDs c !! name with
  | Some id => mret (Some id)
  | None =>
      found ← txn (LookupKey name);
      match found with
      | Some id => put_ctx (fun c => set_keyIDs (<[name := id]> (keyIDs c)) c) ≫= fun _ => mret (Some id)
      | None => mret None
      end
  end.

Definition lookupLabel (name : bytes) : M (option Z) :=
  c ← get_ctx;
  match labelIDs c !! name with
  | Some id => mret (Some id)
  | None =>
      found ← txn (LookupLabel name);
      match found with
      | Some id => put_ctx (fun c => set_labelIDs (<[name := id]> (labelIDs c)) c) ≫= fun _ => mret (Some id)
      | None => mret None
      end
  end.

(** [Context.regexp]: the pattern anchored at both ends, compiled once. *)
Definition anchored (pattern : bytes) : bytes := str "^(?:" ++ pattern ++ str ")$".

Definition regexp (pattern : bytes) : M Regexp :=
  c ← get_ctx;
  match regexps c !! pattern with
  | Some re => mret re
  | None =>
      match Compile (anchored pattern) with
      | None => fail ErrRegexp
      | Some re => put_ctx (fun c => set_regexps (<[pattern := re]> (regexps c)) c) ≫= fun _ => mret re
      end
  end.

(** [ctx.Params[name]]. *)
Definition param (name : bytes) : M (option value) := fun c => PRet (Ok (Params c !! name), c).

Definition timestamp : M Z :=
  c ← get_ctx;
  (if now c =? 0 then put_ctx (fun c => set_now (UnixMilli (ticks c)) c) else mret tt) ≫= fun _ =>
  c ← get_ctx; mret (now c).

Definition draw : M Z :=
  c ← get_ctx;
  put_ctx (fun c => set_draws (S (draws c)) c) ≫= fun _ => mret (RandFloat64 (draws c)).

(** A node or relationship as a value. *)
Definition node_value (n : Node) : value :=
  VNode (n_ID n) (Labels (n_rec n)) (map_to_list (Props (n_rec n))).
Definition edge_value (e : Edge) : value :=
  VEdge (e_ID e) (Type_ (e_rec e)) (Src (e_rec e)) (Dst (e_rec e)) (map_to_list (EProps (e_rec e))).

(** ** Reading computations

    Two contexts are interchangeable on a store when they belong to the same
    query and everything either has cached is what the store would answer. *)
Definition cached {K} (lookup : bytes -> prog (option K)) (s : store) (m : gmap (list Z) K) : Prop :=
  forall name id, m !! name = Some id -> run (lookup name) s = (Ok (Some id), s).

Record valid (s : store) (c : Context) : Prop := {
  valid_keys : cached LookupKey s (keyIDs c);
  valid_labels : cached LookupLabel s (labelIDs c);
  valid_regexps : forall p re, regexps c !! p = Some re -> Compile (anchored p) = Some re;
  valid_params : forall n v, Params c !! n = Some v -> value_ok v;
  valid_now : i64 (now c)
}.

Definition same_query (c1 c2 : Context) : Prop :=
  Params c1 = Params c2 /\ Ctx c1 = Ctx c2 /\ MaxRows c1 = MaxRows c2 /\
  now c1 = now c2 /\ ticks c1 = ticks c2 /\ draws c1 = draws c2.

Definition ctx_rel (s : store) (c1 c2 : Context) : Prop := valid s c1 /\ valid s c2 /\ same_query c1 c2.

(** What the graph layer promises of the values it decodes. *)
Record store_typed (s : store) : Prop := {
  typed_node id n : u64 id -> fst (run (GetNode id) s) = Ok n -> value_ok (node_value n);
  typed_name d id name : u32 id -> fst (run (revName (dict_kind d) id) s) = Ok name -> bytes_ok name
}.

(** [m] only reads, cannot tell the two contexts apart, and delivers a [P]. *)
Definition reads {A} (P : A -> Prop) (m : M A) : Prop :=
  forall s c1 c2, store_typed s -> ctx_rel s c1 c2 -> exists r c1' c2',
    run (m c1) s = (Ok (r, c1'), s) /\ run (m c2) s = (Ok (r, c2'), s) /\
    ctx_rel s c1' c2' /\ (forall a, r = Ok a -> P a).

(** *** Rules *)
Lemma run_try {A} (p : prog A) s : run (try p) s = (Ok (fst (run p s)), snd (run p s)).
Proof. revert s. induction p; intros s; cbn; auto. Qed.

Lemma run_M_bind {A B} (m : M A) (f : A -> M B) c s r c' :
  run (m c) s = (Ok (r, c'), s) ->
  run ((m ≫= f) c) s = match r with Ok a => run (f a c') s | Err e => (Ok (Err e, c'), s) end.
Proof. intros E. unfold mbind at 1, M_bind. rewrite run_bind, E. by destruct r. Qed.

Lemma reads_ret {A} (P : A -> Prop) a : P a -> reads P (mret a).
Proof. intros Ha s c1 c2 _ Hc. exists (Ok a), c1, c2. split_and!; [done..|]. by intros ? [= <-]. Qed.

Lemma reads_of_res {A} (P : A -> Prop) r : (forall a, r = Ok a -> P a) -> reads P (of_res r).
Proof. intros Ha s c1 c2 _ Hc. by exists r, c1, c2. Qed.

Lemma reads_fail {A} (P : A -> Prop) e : reads P (fail e).
Proof. intros s c1 c2 _ Hc. by exists (Err e), c1, c2. Qed.

Lemma reads_bind {A B} (P : A -> Prop) (Q : B -> Prop) (m : M A) (f : A -> M B) :
  reads P m -> (forall a, P a -> reads Q (f a)) -> reads Q (m ≫= f).
Proof.
  intros Hm Hf s c1 c2 Hs Hc. destruct (Hm s c1 c2 Hs Hc) as (r & d1 & d2 & E1 & E2 & Hd & HP).
  rewrite (run_M_bind _ _ _ _ _ _ E1), (run_M_bind _ _ _ _ _ _ E2). destruct r as [a|e].
  - by apply (Hf a (HP a eq_refl)).
  - by exists (Err e), d1, d2.
Qed.

Lemma reads_weaken {A} (P Q : A -> Prop) m : reads P m -> (forall a, P a -> Q a) -> reads Q m.
Proof.
  intros Hm HPQ s c1 c2 Hs Hc. destruct (Hm s c1 c2 Hs Hc) as (r & d1 & d2 & E1 & E2 & Hd & HP).
  exists r, d1, d2. split_and!; auto.
Qed.

Lemma reads_txn {A} (P : A -> Prop) (p : prog A) :
  read_only p -> (forall s a, store_typed s -> fst (run p s) = Ok a -> P a) -> reads P (txn p).
Proof.
  intros Hro HP s c1 c2 Hs Hc. unfold txn. exists (fst (run p s)), c1, c2.
  rewrite !run_bind, !run_try, Hro. split_and!; [done..|]. intros a. by apply HP.
Qed.

Lemma reads_mapM {A B} (P : B -> Prop) (f : A -> M B) l :
  Forall (fun x => reads P (f x)) l -> reads (Forall P) (mapM f l).
Proof.
  induction 1 as [|x l Hx _ IH]; cbn; [by apply reads_ret; constructor|].
  eapply reads_bind; [exact Hx|]. intros y Hy. eapply reads_bind; [exact IH|]. intros ys Hys.
  apply reads_ret. by constructor.
Qed.

(** A step on both contexts that leaves them interchangeable. *)
Lemma reads_direct {A} (P : A -> Prop) (m : M A) :
  (forall s c1 c2, store_typed s -> ctx_rel s c1 c2 -> exists r d1 d2,
    run (m c1) s = (Ok (r, d1), s) /\ run (m c2) s = (Ok (r, d2), s) /\ ctx_rel s d1 d2 /\ (forall a, r = Ok a -> P a)) ->
  reads P m.
Proof. done. Qed.

Lemma valid_set_Ctx s c o : valid s c -> valid s (set_Ctx o c).
Proof. intros []; by constructor. Qed.

Lemma reads_check : reads (fun _ => True) check.
Proof.
  intros s c1 c2 _ Hc. pose proof Hc as (H1 & H2 & Hp & Hx & Hr). unfold check, poll. rewrite Hx.
  destruct (Ctx c2) as [[|n]|] eqn:E.
  - by exists (Err ErrCanceled), c1, c2.
  - exists (Ok tt), (set_Ctx (Some n) c1), (set_Ctx (Some n) c2). split_and!; try done.
    split; [by apply valid_set_Ctx|]. split; [by apply valid_set_Ctx|done].
  - by exists (Ok tt), c1, c2.
Qed.

Lemma reads_param name : reads (fun o => forall v, o = Some v -> value_ok v) (param name).
Proof.
  intros s c1 c2 _ Hc. exists (Ok (Params c1 !! name)), c1, c2. pose proof Hc as (H1 & H2 & Hp & _).
  unfold param. cbn [run]. rewrite <- Hp. split_and!; try done. intros o [= <-] v. by apply H1.
Qed.

Lemma read_only_lookup tag name : read_only (lookupDict tag name).
Proof. intros s. unfold lookupDict. cbn. destruct (s !! _); [|done]. by destruct (decodeU32 _). Qed.
Lemma read_only_revName kind id : read_only (revName kind id).
Proof. intros s. unfold revName. cbn. by destruct (s !! _). Qed.
Lemma read_only_GetNode id : read_only (GetNode id).
Proof. intros s. unfold GetNode. cbn. destruct (s !! _); [|done]. by destruct (DecodeNode _). Qed.

(** Both caches, once: a hit is what the lookup answers, a miss is filled. *)
Lemma run_cached {K} (get : Context -> gmap (list Z) K) (set : gmap (list Z) K -> Context -> Context)
    (lookup : bytes -> prog (option K)) name s c :
  cached lookup s (get c) -> read_only (lookup name) ->
  exists c', run ((c ← get_ctx;
    match get c !! name with
    | Some id => mret (Some id)
    | None => found ← txn (lookup name);
        match found with
        | Some id => put_ctx (fun c => set (<[name := id]> (get c)) c) ≫= fun _ => mret (Some id)
        | None => mret None
        end
    end) c) s = (Ok (fst (run (lookup name) s), c'), s) /\
   (c' = c \/ exists id, c' = set (<[name := id]> (get c)) c /\ cached lookup s (<[name := id]> (get c))).
Proof.
  intros Hc Hro. erewrite run_M_bind by done. cbn beta. destruct (get c !! name) as [id|] eqn:E.
  { exists c. rewrite E, (Hc _ _ E). split; [done|by left]. }
  rewrite E.
  assert (run (txn (lookup name) c) s = (Ok (fst (run (lookup name) s), c), s)) as Et
    by (unfold txn; by rewrite run_bind, run_try, Hro).
  rewrite (run_M_bind _ _ _ _ _ _ Et). destruct (fst (run (lookup name) s)) as [[id|]|e] eqn:Er; cbn.
  - exists (set (<[name := id]> (get c)) c). split; [done|]. right. exists id. split; [done|].
    intros n i [[-> ->]|[_ Hi]]%lookup_insert_Some; [|by apply Hc].
    rewrite (surjective_pairing (run _ _)), Er, Hro. done.
  - exists c. by split; [|left].
  - exists c. by split; [|left].
Qed.

Lemma reads_lookupKey name : reads (fun _ => True) (lookupKey name).
Proof.
  intros s c1 c2 _ (H1 & H2 & Hq).
  destruct (run_cached keyIDs set_keyIDs LookupKey name s c1 (valid_keys _ _ H1) (read_only_lookup _ _)) as (d1 & E1 & Hd1).
  destruct (run_cached keyIDs set_keyIDs LookupKey name s c2 (valid_keys _ _ H2) (read_only_lookup _ _)) as (d2 & E2 & Hd2).
  exists (fst (run (LookupKey name) s)), d1, d2. split_and!; [done|done| |done].
  destruct H1, H2. destruct Hd1 as [->|(i & -> & Hi)], Hd2 as [->|(j & -> & Hj)]; split; [|split| |split| |split| |split]; done.
Qed.

Lemma reads_lookupLabel name : reads (fun _ => True) (lookupLabel name).
Proof.
  intros s c1 c2 _ (H1 & H2 & Hq).
  destruct (run_cached labelIDs set_labelIDs LookupLabel name s c1 (valid_labels _ _ H1) (read_only_lookup _ _)) as (d1 & E1 & Hd1).
  destruct (run_cached labelIDs set_labelIDs LookupLabel name s c2 (valid_labels _ _ H2) (read_only_lookup _ _)) as (d2 & E2 & Hd2).
  exists (fst (run (LookupLabel name) s)), d1, d2. split_and!; [done|done| |done].
  destruct H1, H2. destruct Hd1 as [->|(i & -> & Hi)], Hd2 as [->|(j & -> & Hj)]; split; [|split| |split| |split| |split]; done.
Qed.

Lemma run_regexp s c pattern : valid s c -> exists c',
  run (regexp pattern c) s =
    (Ok (match Compile (anchored pattern) with Some re => Ok re | None => Err ErrRegexp end, c'), s) /\
  valid s c' /\ same_query c c'.
Proof.
  intros [Hk Hl Hr Hp Hn]. unfold regexp. erewrite run_M_bind by done. cbn beta.
  destruct (regexps c !! pattern) as [re|] eqn:E; rewrite E; [exists c; rewrite (Hr _ _ E); by split_and!|].
  destruct (Compile (anchored pattern)) as [re|] eqn:Ec; [|exists c; by split_and!].
  exists (set_regexps (<[pattern := re]> (regexps c)) c). split_and!; [done| |done]. constructor; try done.
  cbn. intros p r [[<- <-]|[_ Hp']]%lookup_insert_Some; [done|by apply Hr].
Qed.

Lemma reads_regexp pattern : reads (fun _ => True) (regexp pattern).
Proof.
  intros s c1 c2 _ (H1 & H2 & Hq).
  destruct (run_regexp s c1 pattern H1) as (d1 & E1 & Hd1 & Hq1), (run_regexp s c2 pattern H2) as (d2 & E2 & Hd2 & Hq2).
  eexists _, d1, d2. split_and!; [exact E1|exact E2| |done]. split_and!; [done|done|].
  unfold same_query in *. destruct_and!. by split_and!; congruence.
Qed.

Lemma run_timestamp s c : run (timestamp c) s =
  (Ok (Ok (if now c =? 0 then UnixMilli (ticks c) else now c),
       if now c =? 0 then set_now (UnixMilli (ticks c)) c else c), s).
Proof. unfold timestamp, get_ctx, put_ctx, mbind, M_bind. cbn. destruct (now c =? 0) eqn:E; cbn; by rewrite ?E. Qed.

Lemma reads_timestamp `{!RuntimeLaws} : reads i64 timestamp.
Proof.
  intros s c1 c2 _ Hc. pose proof Hc as (H1 & H2 & Hp & Hx & Hm & Hn & Ht & Hd).
  rewrite !run_timestamp, <- Hn, <- Ht. destruct (now c1 =? 0) eqn:E; eexists (Ok _), _, _.
  - split_and!; [done|done| |intros ? [= <-]; apply UnixMilli_ok].
    destruct H1, H2. split; [|split]; [split; try done; apply UnixMilli_ok..|].
    unfold same_query; cbn. by rewrite Ht.
  - split_and!; [done|done|done|]. intros ? [= <-]. apply H1.
Qed.

Lemma run_draw s c : run (draw c) s = (Ok (Ok (RandFloat64 (draws c)), set_draws (S (draws c)) c), s).
Proof. done. Qed.

Lemma reads_draw `{!RuntimeLaws} : reads u64 draw.
Proof.
  intros s c1 c2 _ (H1 & H2 & Hp & Hx & Hm & Hn & Ht & Hd). rewrite !run_draw, <- Hd.
  eexists (Ok _), _, _. split_and!; [done|done| |intros ? [= <-]; apply RandFloat64_ok].
  destruct H1, H2. split; [by split|]. split; [by split|]. by unfold same_query; cbn; rewrite ?Hd.
Qed.
End context.

(** A concrete runtime for evaluating examples: patterns are literal text, the
    clock and the random source are constant, maps are visited in key order. *)
Definition plain_runtime : Runtime := {|
  Regexp := bytes;
  Compile := Some;
  MatchString re s := bool_decide (re = anchored s);
  UnixMilli _ := 1;
  RandFloat64 _ := pzero;
  FormatG f := dec (to_int f);
  ParseFloat s := None;
  unicodeLower s := s;
  unicodeUpper s := s;
  convertOverflow _ := MinInt64;
  order_keys l := l;
  order_ids l := l
|}.

Lemma dec_bytes z : bytes_ok (dec z).
Proof.
  assert (forall u, bytes_ok (digits u)) as Hd by (intros u; induction u; cbn; repeat constructor; unfold byte_ok; try lia; done).
  unfold dec. destruct (Z.to_int z); [|constructor; [unfold byte_ok; lia|]]; apply Hd.
Qed.

#[global] Instance plain_laws : @RuntimeLaws plain_runtime.
Proof. split; cbn; try done; intros; apply dec_bytes. Qed.

Definition new_context `{Runtime} (params : gmap (list Z) value) (max : Z) : Context :=
  mkContext params None max ∅ ∅ ∅ 0 0 0.

Create HintDb reads_db.
#[export] Hint Resolve reads_check reads_param reads_lookupKey reads_lookupLabel reads_regexp
  reads_timestamp reads_draw reads_fail read_only_lookup read_only_revName read_only_GetNode : reads_db.
End Context.
