(* ===== verification/Functions.v ===== *)
(** * Functions: the scalar functions of queries

    src/internal/exec/functions.go, one definition per function, and the
    formatting of [fmt.Sprintf("%v", v)] it and the grouping operators use.
    Arguments are already evaluated.  The name a function passes to its
    helpers only appears in error messages and is left out. *)
From Stdlib Require DecimalPos DecimalZ.
From S2P Require Import Prelude Float64 FloatArith Values Scalars Text Keys Records Storage Catalog Graph Context.
Import Float64 FloatArith Scalars Text Context.

Module Functions.
Section functions.
Context `{Runtime}.

Definition scalarFunc : Type := list value -> M value.

(** ** Helpers *)

(** [strings.ToLower] and [strings.ToUpper]. *)
Definition ToLower (s : bytes) : bytes := if is_ascii s then ascii_lower <$> s else unicodeLower s.
Definition ToUpper (s : bytes) : bytes := if is_ascii s then ascii_upper <$> s else unicodeUpper s.

(** [int64(f)]: truncation towards zero. *)
Definition float_to_int64 (f : Z) : Z :=
  if negb (is_nan f) && negb (is_inf f) && bool_decide (i64 (to_int f)) then to_int f else convertOverflow f.

(** A map visited in the order [range] takes. *)
Definition range_over {K A} `{EqDecision K} (order : list K -> list K) (m : list (K * A)) : list (K * A) :=
  omap (fun k => find (fun e => bool_decide (e.1 = k)) m) (order m.*1).

Definition needArgs (args : list value) (min max : Z) : res unit :=
  if (len args <? min) || ((0 <=? max) && (max <? len args)) then Err ErrArity else Ok tt.

Definition intArg (v : value) : res Z :=
  match v with
  | VInt n => Ok n
  | VFloat n => Ok (float_to_int64 n)
  | _ => Err ErrType
  end.

(** The arguments after [needArgs]: a missing one cannot be reached. *)
Definition arg (args : list value) (i : nat) : value := nth i args VNull.

(** ** [%v] *)
Definition spaced (l : list bytes) : bytes := join (str " ") l.

(** Package fmt prints the entries of a map in key order. *)
Definition id_le (a b : Z * bytes) : Prop := a.1 <= b.1.
#[local] Instance id_le_dec a b : Decision (id_le a b).
Proof. unfold id_le. apply _. Defined.
Definition print_props (ps : list (Z * bytes)) : bytes :=
  str "map[" ++ spaced ((fun e => dec e.1 ++ str ":" ++ e.2) <$> merge_sort id_le ps) ++ str "]".

Fixpoint sprint_v (v : value) : bytes :=
  match v with
  | VNull => str "<nil>"
  | VBool b => if b then str "true" else str "false"
  | VGoInt z | VInt z => dec z
  | VFloat f => FormatG f
  | VStr s => s
  | VList l | VEdges l => str "[" ++ spaced (sprint_v <$> l) ++ str "]"
  | VMap m => str "map[" ++ spaced ((fun e => e.1 ++ str ":" ++ sprint_v e.2) <$> m) ++ str "]"
  | VNode i ls ps =>
      str "{" ++ dec i ++ str " {[" ++ spaced (dec <$> ls) ++ str "] "
      ++ print_props ((fun e => (e.1, sprint_v e.2)) <$> ps) ++ str "}}"
  | VEdge i t s d ps =>
      str "{" ++ dec i ++ str " {" ++ dec t ++ str " " ++ dec s ++ str " " ++ dec d ++ str " "
      ++ print_props ((fun e => (e.1, sprint_v e.2)) <$> ps) ++ str "}}"
  | VPath ns rs =>
      str "{[" ++ spaced (sprint_v <$> ns) ++ str "] [" ++ spaced (sprint_v <$> rs) ++ str "]}"
  end.

(** ** Lists and numbers *)
Definition maxRangeLen : Z := 10000000.
Definition MaxInt64 : Z := two63 - 1.

Fixpoint range_loop (fuel : nat) (i end_ step : Z) : list Z :=
  match fuel with
  | O => []
  | S fuel =>
      if ((0 <? step) && (i <=? end_)) || ((step <? 0) && (end_ <=? i)) then
        i :: (if ((0 <? step) && (MaxInt64 - step <? i)) || ((step <? 0) && (i <? MinInt64 - step))
              then [] else range_loop fuel (wrap_i64 (i + step)) end_ step)
      else []
  end.

(** One iteration per element, and one to leave. *)
Definition range_fuel (start end_ step : Z) : nat := Z.to_nat ((end_ - start) / step + 2).

Definition fnRange : scalarFunc := fun args =>
  _ ← of_res (needArgs args 2 3);
  nums ← mapM (fun a => match normalize a with VInt n => mret n | _ => fail ErrType end) args;
  let start := nth 0 nums 0 in
  let end_ := nth 1 nums 0 in
  let step := match nums with [_; _; s] => s | _ => 1 end in
  if step =? 0 then fail ErrRange
  else
    let n := fadd (fdiv (fsub (of_int end_) (of_int start)) (of_int step)) (of_int 1) in
    if flt (of_int maxRangeLen) n then fail ErrRange
    else mret (VList (VInt <$> range_loop (range_fuel start end_ step) start end_ step)).

Definition fnCoalesce : scalarFunc := fun args =>
  _ ← of_res (needArgs args 1 (-1));
  mret (default VNull (find (fun a => negb (is_null a)) args)).

Definition edgeEnd (args : list value) (start : bool) : M value :=
  _ ← of_res (needArgs args 1 1);
  match arg args 0 with
  | VNull => mret VNull
  | VEdge _ _ src dst _ => n ← txn (GetNode (if start then src else dst)); mret (node_value n)
  | _ => fail ErrType
  end.
Definition fnStartNode : scalarFunc := fun args => edgeEnd args true.
Definition fnEndNode : scalarFunc := fun args => edgeEnd args false.

Definition numericFunc (args : list value) (f : Z -> Z) : M value :=
  _ ← of_res (needArgs args 1 1);
  match normalize (arg args 0) with
  | VNull => mret VNull
  | VInt v => mret (VFloat (f (of_int v)))
  | VFloat v => mret (VFloat (f v))
  | _ => fail ErrType
  end.
Definition half : Z := 0x3FE0000000000000. (* 0.5 *)
Definition fnRound : scalarFunc := fun args => numericFunc args (fun x => ffloor (fadd x half)).
Definition fnFloor : scalarFunc := fun args => numericFunc args ffloor.
Definition fnCeil : scalarFunc := fun args => numericFunc args fceil.
Definition fnSqrt : scalarFunc := fun args => numericFunc args fsqrt.

Definition fnSign : scalarFunc := fun args =>
  _ ← of_res (needArgs args 1 1);
  match normalize (arg args 0) with
  | VNull => mret VNull
  | VInt v => mret (VInt (cmpInt64 v 0))
  | VFloat v => mret (VInt (if flt pzero v then 1 else if flt v pzero then -1 else 0))
  | _ => fail ErrType
  end.

Definition fnRand : scalarFunc := fun args =>
  _ ← of_res (needArgs args 0 0); f ← draw; mret (VFloat f).

Definition fnTimestamp : scalarFunc := fun args =>
  _ ← of_res (needArgs args 0 0); t ← timestamp; mret (VInt t).

Definition fnAbs : scalarFunc := fun args =>
  _ ← of_res (needArgs args 1 1);
  match arg args 0 with
  | VNull => mret VNull
  | VInt v => if v <? 0 then of_res (VInt <$> negateInt v) else mret (VInt v)
  | VFloat v => mret (VFloat (fabs v))
  | _ => fail ErrType
  end.

(** The argument of head, last and tail. *)
Definition list_arg (args : list value) (f : list value -> value) : M value :=
  _ ← of_res (needArgs args 1 1);
  match arg args 0 with
  | VNull => mret VNull
  | VList l => mret (f l)
  | _ => fail ErrType
  end.
Definition fnHead : scalarFunc := fun args => list_arg args (fun l => hd VNull l).
Definition fnLast : scalarFunc := fun args => list_arg args (fun l => List.last l VNull).
Definition fnTail : scalarFunc := fun args => list_arg args (fun l => VList (tail l)).

(** ** Identity and introspection *)
Definition fnID : scalarFunc := fun args =>
  _ ← of_res (needArgs args 1 1);
  match arg args 0 with
  | VNull => mret VNull
  | VNode id _ _ => mret (VInt (i64_of_u64 id))
  | VEdge id _ _ _ _ => mret (VInt (i64_of_u64 id))
  | _ => fail ErrType
  end.

Definition fnLabels : scalarFunc := fun args =>
  _ ← of_res (needArgs args 1 1);
  match arg args 0 with
  | VNull => mret VNull
  | VNode _ labels _ => out ← mapM (fun id => name ← txn (LabelName id); mret (VStr name)) labels; mret (VList out)
  | _ => fail ErrType
  end.

Definition fnType : scalarFunc := fun args =>
  _ ← of_res (needArgs args 1 1);
  match arg args 0 with
  | VNull => mret VNull
  | VEdge _ typ _ _ _ => name ← txn (TypeName typ); mret (VStr name)
  | _ => fail ErrType
  end.

Definition keyNames (props : list (Z * value)) : M value :=
  out ← mapM (fun e => name ← txn (KeyName e.1); mret (VStr name)) (range_over order_ids props);
  mret (VList out).

Definition fnKeys : scalarFunc := fun args =>
  _ ← of_res (needArgs args 1 1);
  match arg args 0 with
  | VNull => mret VNull
  | VNode _ _ props => keyNames props
  | VEdge _ _ _ _ props => keyNames props
  | VMap m => mret (VList ((fun e => VStr e.1) <$> range_over order_keys m))
  | _ => fail ErrType
  end.

Definition propsMap (props : list (Z * value)) : M value :=
  entries ← mapM (fun e => name ← txn (KeyName e.1); mret (name, e.2)) (range_over order_ids props);
  mret (VMap (foldl (fun m e => map_set e.1 e.2 m) [] entries)).

Definition fnProperties : scalarFunc := fun args =>
  _ ← of_res (needArgs args 1 1);
  match arg args 0 with
  | VNull => mret VNull
  | VNode _ _ props => propsMap props
  | VEdge _ _ _ _ props => propsMap props
  | VMap m => mret (VMap m)
  | _ => fail ErrType
  end.

(** ** Sizes *)
Definition len64 {A} (l : list A) : Z := wrap_i64 (len l). (* int64(len(l)) *)

Definition sizeOf (is_length : bool) (v : value) : res value :=
  match v with
  | VNull => Ok VNull
  | VStr s => Ok (VInt (len64 (runes s)))
  | VList l => Ok (VInt (len64 l))
  | VEdges l => Ok (VInt (len64 l))
  | VPath _ rels => if is_length then Ok (VInt (len64 rels)) else Err ErrType
  | _ => Err ErrType
  end.
Definition fnSize : scalarFunc := fun args =>
  _ ← of_res (needArgs args 1 1); of_res (sizeOf false (arg args 0)).
Definition fnLength : scalarFunc := fun args =>
  _ ← of_res (needArgs args 1 1); of_res (sizeOf true (arg args 0)).

(** src/internal/exec/shortest.go. *)
Definition fnNodes : scalarFunc := fun args =>
  _ ← of_res (needArgs args 1 1);
  match arg args 0 with
  | VNull => mret VNull
  | VPath nodes _ => mret (VList nodes)
  | _ => fail ErrType
  end.
Definition fnRelationships : scalarFunc := fun args =>
  _ ← of_res (needArgs args 1 1);
  match arg args 0 with
  | VNull => mret VNull
  | VPath _ rels => mret (VList rels)
  | _ => fail ErrType
  end.

(** ** Conversions *)
Definition fnToInteger : scalarFunc := fun args =>
  _ ← of_res (needArgs args 1 1);
  match arg args 0 with
  | VNull => mret VNull
  | VInt v => mret (VInt v)
  | VFloat v => if is_nan v || is_inf v then mret VNull else mret (VInt (float_to_int64 v))
  | VStr s => mret (match ParseInt (TrimSpace s) with Some n => VInt n | None => VNull end)
  | VBool b => mret (VInt (if b then 1 else 0))
  | _ => fail ErrType
  end.

Definition fnToFloat : scalarFunc := fun args =>
  _ ← of_res (needArgs args 1 1);
  match arg args 0 with
  | VNull => mret VNull
  | VFloat v => mret (VFloat v)
  | VInt v => mret (VFloat (of_int v))
  | VStr s => mret (match ParseFloat (TrimSpace s) with Some f => VFloat f | None => VNull end)
  | _ => fail ErrType
  end.

Definition fnToString : scalarFunc := fun args =>
  _ ← of_res (needArgs args 1 1);
  match arg args 0 with
  | VNull => mret VNull
  | VStr s => mret (VStr s)
  | VInt v => mret (VStr (dec v))
  | VFloat v => mret (VStr (FormatG v))
  | VBool b => mret (VStr (if b then str "true" else str "false"))
  | v => mret (VStr (sprint_v v))
  end.

(** ** Strings *)
Definition stringFn (v : value) (fn : bytes -> bytes) : res value :=
  match v with
  | VNull => Ok VNull
  | VStr s => Ok (VStr (fn s))
  | _ => Err ErrType
  end.
Definition fnToUpper : scalarFunc := fun args =>
  _ ← of_res (needArgs args 1 1); of_res (stringFn (arg args 0) ToUpper).
Definition fnToLower : scalarFunc := fun args =>
  _ ← of_res (needArgs args 1 1); of_res (stringFn (arg args 0) ToLower).
Definition fnTrim : scalarFunc := fun args =>
  _ ← of_res (needArgs args 1 1); of_res (stringFn (arg args 0) TrimSpace).

(** [runes[i:j]] for [0 <= i <= j <= len(runes)]. *)
Definition rune_slice (rs : list Z) (i j : Z) : list Z := take (Z.to_nat (j - i)) (drop (Z.to_nat i) rs).

Definition fnSubstring : scalarFunc := fun args =>
  _ ← of_res (needArgs args 2 3);
  match arg args 0 with
  | VNull => mret VNull
  | VStr s =>
      startIdx ← of_res (intArg (arg args 1));
      let rs := runes s in
      let startIdx := if startIdx <? 0 then 0 else startIdx in
      if len rs <? startIdx then mret (VStr [])
      else if len args =? 2 then mret (VStr (of_runes (rune_slice rs startIdx (len rs))))
      else
        length ← of_res (intArg (arg args 2));
        let end_ := wrap_i64 (startIdx + length) in
        let end_ := if end_ <? startIdx then startIdx else end_ in
        let end_ := if len rs <? end_ then len rs else end_ in
        mret (VStr (of_runes (rune_slice rs startIdx end_)))
  | _ => fail ErrType
  end.

Definition fnReplace : scalarFunc := fun args =>
  _ ← of_res (needArgs args 3 3);
  match arg args 0, arg args 1, arg args 2 with
  | VNull, _, _ | _, VNull, _ | _, _, VNull => mret VNull
  | VStr s, VStr from, VStr to => mret (VStr (ReplaceAll s from to))
  | _, _, _ => fail ErrType
  end.

Definition fnSplit : scalarFunc := fun args =>
  _ ← of_res (needArgs args 2 2);
  match arg args 0, arg args 1 with
  | VNull, _ | _, VNull => mret VNull
  | VStr s, VStr sep => mret (VList (VStr <$> Split s sep))
  | _, _ => fail ErrType
  end.

(** ** The registry *)
Definition scalarFuncs : list (bytes * scalarFunc) :=
  [(str "id", fnID); (str "labels", fnLabels); (str "type", fnType); (str "keys", fnKeys);
   (str "properties", fnProperties); (str "size", fnSize); (str "length", fnLength);
   (str "nodes", fnNodes); (str "relationships", fnRelationships); (str "tointeger", fnToInteger);
   (str "tofloat", fnToFloat); (str "tostring", fnToString); (str "toupper", fnToUpper);
   (str "tolower", fnToLower); (str "trim", fnTrim); (str "substring", fnSubstring);
   (str "replace", fnReplace); (str "split", fnSplit); (str "abs", fnAbs); (str "head", fnHead);
   (str "last", fnLast); (str "tail", fnTail); (str "range", fnRange); (str "coalesce", fnCoalesce);
   (str "startnode", fnStartNode); (str "endnode", fnEndNode); (str "round", fnRound);
   (str "floor", fnFloor); (str "ceil", fnCeil); (str "sqrt", fnSqrt); (str "sign", fnSign);
   (str "rand", fnRand); (str "timestamp", fnTimestamp)].

Definition lookup_func (name : bytes) : option scalarFunc :=
  snd <$> find (fun e => bool_decide (e.1 = name)) scalarFuncs.

Definition isAggregateName (name : bytes) : bool :=
  bool_decide (ToLower name ∈ str <$> ["count"; "sum"; "avg"; "min"; "max"; "collect"]%string).

(** ** Every function reads, and returns a well-formed value *)
Context `{!RuntimeLaws}.

Lemma bytes_ok_str s : bytes_ok (str s).
Proof.
  unfold str, bytes_ok. apply Forall_fmap, Forall_true. intros a. cbn. unfold byte_ok.
  pose proof (Ascii.nat_ascii_bounded a). lia.
Qed.

Lemma bytes_ok_concat l : Forall bytes_ok l -> bytes_ok (concat l).
Proof. induction 1; cbn; [constructor|]. by apply Forall_app. Qed.

Lemma bytes_ok_join sep l : bytes_ok sep -> Forall bytes_ok l -> bytes_ok (join sep l).
Proof.
  intros Hs. induction 1 as [|x l Hx Hl IH]; [constructor|]. destruct l as [|y l]; [done|].
  change (join sep (x :: y :: l)) with (x ++ sep ++ join sep (y :: l)).
  unfold bytes_ok in *. by rewrite !Forall_app.
Qed.


Lemma bytes_ok_app a b : bytes_ok a -> bytes_ok b -> bytes_ok (a ++ b).
Proof. intros. by apply Forall_app. Qed.

(** The parts of a printed value. *)
Ltac bytes_parts :=
  repeat match goal with |- bytes_ok (_ ++ _) => apply bytes_ok_app end; auto using bytes_ok_str, dec_bytes.

Lemma pieces_ok s : bytes_ok s -> Forall bytes_ok (pieces s).*2.
Proof.
  induction s as [|s Hs IH] using pieces_ind; intros Hb; [constructor|]. rewrite pieces_cons by done. cbn.
  constructor; [by apply Forall_take|by apply IH, Forall_drop].
Qed.

Lemma drop_spaces_sub l x : x ∈ drop_spaces l -> x ∈ l.
Proof. induction l as [|[r b] l IH]; cbn; [done|]. destruct (IsSpace r); [|done]. intros Hx. right. auto. Qed.

Lemma TrimSpace_ok s : bytes_ok s -> bytes_ok (TrimSpace s).
Proof.
  intros Hs. unfold TrimSpace. apply bytes_ok_concat. apply Forall_fmap, Forall_forall. intros e He. cbn.
  pose proof (pieces_ok s Hs) as Hp. rewrite Forall_fmap, Forall_forall in Hp. apply Hp.
  assert (forall l : list (Z * bytes), e ∈ rev l -> e ∈ l) as Hrev
    by (intros l; rewrite !list_elem_of_In; apply in_rev).
  by apply drop_spaces_sub, Hrev, drop_spaces_sub, Hrev.
Qed.

Lemma cut_ok sep s l r : bytes_ok s -> cut sep s = Some (l, r) -> bytes_ok l /\ bytes_ok r.
Proof.
  revert l r. induction s as [|b s IH]; intros l r Hs; cbn [cut].
  - destruct (has_prefix sep []); [|done]. intros [= <- <-]. split; [constructor|by apply Forall_drop].
  - destruct (has_prefix sep (b :: s)); [intros [= <- <-]; split; [constructor|by apply Forall_drop]|].
    inversion Hs; subst. destruct (cut sep s) as [[l' r']|] eqn:E; [|done]. cbn. intros [= <- <-].
    destruct (IH l' r') as [? ?]; [done..|]. split; [by constructor|done].
Qed.

Lemma Split_ok s sep : bytes_ok s -> Forall bytes_ok (Split s sep).
Proof.
  intros Hs. unfold Split. destruct sep as [|b sep]; [by apply pieces_ok|]. generalize (length s) as f. intros f.
  revert s Hs. induction f as [|f IH]; intros s Hs; cbn [split_loop]; [by repeat constructor|].
  destruct (cut _ s) as [[l r]|] eqn:E; [|by repeat constructor].
  apply cut_ok in E as [Hl Hr]; [|done]. constructor; auto.
Qed.

Lemma ReplaceAll_ok s old new : bytes_ok s -> bytes_ok new -> bytes_ok (ReplaceAll s old new).
Proof.
  intros Hs Hn. unfold ReplaceAll. destruct old; apply bytes_ok_join; [done| |done|by apply Split_ok].
  constructor; [constructor|]. apply Forall_app. split; [by apply pieces_ok|by repeat constructor].
Qed.

Lemma ToLower_ok s : bytes_ok s -> bytes_ok (ToLower s).
Proof.
  intros Hs. unfold ToLower. destruct (is_ascii s); [|by apply unicodeLower_ok]. apply Forall_fmap.
  eapply Forall_impl; [exact Hs|]. intros b. unfold byte_ok, ascii_lower, between. cbn. case_match; lia.
Qed.
Lemma ToUpper_ok s : bytes_ok s -> bytes_ok (ToUpper s).
Proof.
  intros Hs. unfold ToUpper. destruct (is_ascii s); [|by apply unicodeUpper_ok]. apply Forall_fmap.
  eapply Forall_impl; [exact Hs|]. intros b. unfold byte_ok, ascii_upper, between. cbn. case_match; lia.
Qed.

Lemma float_to_int64_ok f : i64 (float_to_int64 f).
Proof.
  unfold float_to_int64. destruct (_ && bool_decide _) eqn:E; [|apply convertOverflow_ok].
  apply andb_true_iff in E as [_ E]. by apply bool_decide_eq_true in E.
Qed.

(** Entries of a map in range. *)
Definition entry_ok (e : bytes * value) : Prop := bytes_ok e.1 /\ value_ok e.2.

Lemma value_ok_list l : value_ok (VList l) <-> Forall value_ok l.
Proof. apply foldr_and_Forall. Qed.
Lemma value_ok_map m : value_ok (VMap m) <-> keys_sorted m /\ Forall entry_ok m.
Proof. cbn. by rewrite (foldr_and_Forall entry_ok). Qed.
Lemma value_ok_node i ls ps :
  value_ok (VNode i ls ps) <-> u64 i /\ Forall u32 ls /\ Forall (fun e => u32 e.1 /\ value_ok e.2) ps.
Proof. cbn. by rewrite (foldr_and_Forall (fun e => u32 e.1 /\ value_ok e.2)). Qed.
Lemma value_ok_edge i t s d ps :
  value_ok (VEdge i t s d ps) <-> u64 i /\ u32 t /\ u64 s /\ u64 d /\ Forall (fun e => u32 e.1 /\ value_ok e.2) ps.
Proof. cbn. by rewrite (foldr_and_Forall (fun e => u32 e.1 /\ value_ok e.2)). Qed.
Lemma value_ok_path ns rs : value_ok (VPath ns rs) <-> Forall value_ok ns /\ Forall value_ok rs.
Proof. cbn. by rewrite !(foldr_and_Forall value_ok). Qed.

Lemma map_set_keys k v m x : x ∈ (map_set k v m).*1 -> x = k \/ x ∈ m.*1.
Proof.
  induction m as [|[k' v'] m IH]; cbn; [set_solver|]. destruct (bcmp k k') eqn:E; cbn; [|set_solver..].
  apply bcmp_eq in E. set_solver.
Qed.

Lemma map_set_ok k v m :
  keys_sorted m -> Forall entry_ok m -> bytes_ok k -> value_ok v ->
  keys_sorted (map_set k v m) /\ Forall entry_ok (map_set k v m).
Proof.
  intros Hs Hm Hk Hv. assert (entry_ok (k, v)) as He by done. split.
  - clear Hm. unfold keys_sorted in *. induction m as [|[k' v'] m IH]; cbn; [by repeat constructor|].
    cbn in Hs. inversion Hs as [|? ? Hs' Hf]; subst. destruct (bcmp k k') eqn:E; cbn.
    + apply bcmp_eq in E as ->. by constructor.
    + constructor; [done|]. constructor; [done|]. eapply Forall_impl; [exact Hf|]. intros x. by apply blt_trans.
    + constructor; [by apply IH|]. apply Forall_forall. intros x [->|Hx]%map_set_keys.
      * unfold blt. by rewrite (bcmp_antisym k k'), E.
      * by rewrite Forall_forall in Hf; apply Hf.
  - clear Hs. induction Hm as [|[k' v'] m Hh Hm IH]; cbn; [by repeat constructor|].
    destruct (bcmp k k'); [by constructor|by do 2 constructor|by constructor].
Qed.

Lemma map_of_entries_ok l : Forall entry_ok l -> value_ok (VMap (foldl (fun m e => map_set e.1 e.2 m) [] l)).
Proof.
  intros Hl. apply value_ok_map.
  assert (forall acc, keys_sorted acc -> Forall entry_ok acc ->
    let m := foldl (fun m e => map_set e.1 e.2 m) acc l in keys_sorted m /\ Forall entry_ok m) as Hfold.
  { induction Hl as [|e l [Hk Hv] _ IH]; intros acc Hs Hm; cbn; [done|].
    destruct (map_set_ok e.1 e.2 acc Hs Hm Hk Hv). by apply IH. }
  by apply Hfold; constructor.
Qed.

Lemma range_over_elem {K A} `{EqDecision K} (order : list K -> list K) (m : list (K * A)) e :
  e ∈ range_over order m -> e ∈ m.
Proof.
  unfold range_over. rewrite list_elem_of_omap. intros (k & _ & E). apply find_some in E as [Hin _].
  by apply list_elem_of_In.
Qed.

Lemma sprint_v_ok v : value_ok v -> bytes_ok (sprint_v v).
Proof.
  assert (forall l, Forall bytes_ok l -> bytes_ok (spaced l)) as Hsp
    by (intros l Hl; apply bytes_ok_join; [apply bytes_ok_str|done]).
  assert (forall ps : list (Z * bytes), Forall (fun e => bytes_ok e.2) ps -> bytes_ok (print_props ps)) as Hpp.
  { intros ps Hps. unfold print_props. bytes_parts. apply Hsp, Forall_fmap.
    rewrite (merge_sort_Permutation id_le ps). eapply Forall_impl; [exact Hps|]. intros e He. unfold compose.
    bytes_parts. }
  assert (forall (l : list value), Forall (fun v => value_ok v -> bytes_ok (sprint_v v)) l -> Forall value_ok l ->
    Forall bytes_ok (sprint_v <$> l)) as Hl.
  { intros l HI Hok. apply Forall_fmap. rewrite Forall_forall in *. cbn. auto. }
  assert (forall ps : list (Z * value), Forall (fun kv => value_ok kv.2 -> bytes_ok (sprint_v kv.2)) ps ->
    Forall (fun e => u32 e.1 /\ value_ok e.2) ps ->
    Forall (fun e : Z * bytes => bytes_ok e.2) ((fun e => (e.1, sprint_v e.2)) <$> ps)) as Hps.
  { intros ps HI Hok. apply Forall_fmap. rewrite Forall_forall in *. cbn. intros e He. apply HI; [done|]. by apply Hok. }
  induction v using value_ind'; intros Hv.
  1-6: cbn [sprint_v]; try destruct b; auto using bytes_ok_str, dec_bytes, FormatG_ok.
  - apply value_ok_list in Hv. cbn [sprint_v]. bytes_parts.
  - apply value_ok_map in Hv as [_ Hv]. cbn [sprint_v]. bytes_parts.
    apply Hsp, Forall_fmap. rewrite Forall_forall in *. intros e He. unfold compose. destruct (Hv e He).
    bytes_parts.
  - apply value_ok_node in Hv as (_ & _ & Hv). cbn [sprint_v]. bytes_parts.
    apply Hsp, Forall_fmap, Forall_true. intros. apply dec_bytes.
  - apply value_ok_edge in Hv as (_ & _ & _ & _ & Hv). cbn [sprint_v].
    bytes_parts.
  - apply value_ok_path in Hv as [Hns Hrs]. cbn [sprint_v]. bytes_parts.
  - apply (foldr_and_Forall value_ok) in Hv. cbn [sprint_v]. bytes_parts.
Qed.

Lemma arg_ok args i : Forall value_ok args -> value_ok (arg args i).
Proof.
  intros Ha. unfold arg. destruct (nth_in_or_default i args VNull) as [Hin| ->]; [|done].
  rewrite Forall_forall in Ha. by apply Ha, list_elem_of_In.
Qed.

Lemma intArg_ok v n : value_ok v -> intArg v = Ok n -> i64 n.
Proof. destruct v; cbn; intros Hv; try done; intros [= <-]; [done|apply float_to_int64_ok]. Qed.

(** After the arity check. *)
Lemma reads_needArgs {B} (P : B -> Prop) args lo hi (m : M B) :
  reads P m -> reads P (of_res (needArgs args lo hi) ≫= fun _ => m).
Proof. intros Hm. eapply (reads_bind (fun _ => True)); [by apply reads_of_res|done]. Qed.

(** The names the dictionary returns are byte strings. *)
Lemma reads_name d id : u32 id -> reads bytes_ok (txn (revName (dict_kind d) id)).
Proof. intros Hid. apply reads_txn; [apply read_only_revName|]. intros s a Hs. by apply typed_name. Qed.

Ltac reads_step :=
  match goal with
  | |- reads _ (of_res (needArgs _ _ _) ≫= _) => apply reads_needArgs
  | |- reads _ (mret _) => apply reads_ret
  | |- reads _ (fail _) => apply reads_fail
  | |- reads _ (match ?x with _ => _ end) => destruct x eqn:?
  | |- reads _ (if ?b then _ else _) => destruct b
  | |- value_ok (if ?b then _ else _) => destruct b
  end.

(** Functions of one argument. *)
Ltac reads_fn f :=
  unfold f; repeat reads_step; try done;
  match goal with Ha : Forall value_ok ?args, E : arg ?args ?i = _ |- _ =>
    pose proof (arg_ok args i Ha) as Hok; rewrite E in Hok | _ => idtac end;
  try done.

Definition well_typed (f : scalarFunc) : Prop := forall args, Forall value_ok args -> reads value_ok (f args).

Lemma fnID_typed : well_typed fnID.
Proof.
  intros args Ha. reads_fn fnID.
  - apply value_ok_node in Hok as (Hi & _). cbn. unfold i64_of_u64. zcases; solve_width.
  - apply value_ok_edge in Hok as (Hi & _). cbn. unfold i64_of_u64. zcases; solve_width.
Qed.

Lemma reads_names {A} (f : A -> Z) d l :
  Forall (fun x => u32 (f x)) l ->
  reads value_ok (mapM (fun x => name ← txn (revName (dict_kind d) (f x)); mret (VStr name)) l ≫= fun out => mret (VList out)).
Proof.
  intros Hl. eapply (reads_bind (Forall value_ok)).
  - apply reads_mapM. eapply Forall_impl; [exact Hl|]. intros x Hx. eapply reads_bind; [by apply reads_name|]. intros name Hn. by apply reads_ret.
  - intros out Hout. apply reads_ret. by apply value_ok_list.
Qed.

Lemma fnLabels_typed : well_typed fnLabels.
Proof. intros args Ha. reads_fn fnLabels. apply (reads_names (fun x => x) DLabel). by apply value_ok_node in Hok as (_ & ? & _). Qed.

Lemma fnType_typed : well_typed fnType.
Proof.
  intros args Ha. reads_fn fnType. apply value_ok_edge in Hok as (_ & Ht & _).
  eapply reads_bind; [by apply (reads_name DType)|]. intros name Hn. by apply reads_ret.
Qed.

Lemma fnKeys_typed : well_typed fnKeys.
Proof.
  assert (forall ps : list (Z * value), Forall (fun e => u32 e.1 /\ value_ok e.2) ps -> reads value_ok (keyNames ps)) as Hk.
  { intros ps Hps. apply (reads_names fst DKey), Forall_forall. intros e He%range_over_elem.
    rewrite Forall_forall in Hps. by apply Hps. }
  intros args Ha. reads_fn fnKeys.
  - apply value_ok_list, Forall_fmap, Forall_forall. intros e He%range_over_elem. cbn.
    apply value_ok_map in Hok as [_ Hm]. rewrite Forall_forall in Hm. by apply Hm.
  - apply value_ok_node in Hok as (_ & _ & Hp). by apply Hk.
  - apply value_ok_edge in Hok as (_ & _ & _ & _ & Hp). by apply Hk.
Qed.

Lemma propsMap_typed props : Forall (fun e => u32 e.1 /\ value_ok e.2) props -> reads value_ok (propsMap props).
Proof.
  intros Hp. eapply (reads_bind (Forall entry_ok)).
  - apply reads_mapM, Forall_forall. intros e He%range_over_elem. rewrite Forall_forall in Hp.
    destruct (Hp e He) as [Hk Hv]. eapply reads_bind; [by apply (reads_name DKey)|]. intros name Hn. by apply reads_ret.
  - intros out Hout. apply reads_ret. by apply map_of_entries_ok.
Qed.

Lemma fnProperties_typed : well_typed fnProperties.
Proof.
  intros args Ha. reads_fn fnProperties; apply propsMap_typed.
  - by apply value_ok_node in Hok as (_ & _ & Hp).
  - by apply value_ok_edge in Hok as (_ & _ & _ & _ & Hp).
Qed.

Lemma sizeOf_typed b v r : sizeOf b v = Ok r -> value_ok r.
Proof. destruct v; cbn; try done; try destruct b; intros [= <-]; try done; apply wrap_i64_range. Qed.

Lemma fnSize_typed : well_typed fnSize.
Proof. intros args Ha. reads_fn fnSize. apply reads_of_res. intros r. apply sizeOf_typed. Qed.
Lemma fnLength_typed : well_typed fnLength.
Proof. intros args Ha. reads_fn fnLength. apply reads_of_res. intros r. apply sizeOf_typed. Qed.

Lemma fnNodes_typed : well_typed fnNodes.
Proof. intros args Ha. reads_fn fnNodes. apply value_ok_path in Hok as [? ?]. by apply value_ok_list. Qed.
Lemma fnRelationships_typed : well_typed fnRelationships.
Proof. intros args Ha. reads_fn fnRelationships. apply value_ok_path in Hok as [? ?]. by apply value_ok_list. Qed.

Lemma ParseInt_ok s n : ParseInt s = Some n -> i64 n.
Proof.
  unfold ParseInt. destruct (match s with 45 :: t => _ | _ => _ end) as [neg ds]. destruct ds as [|d ds]; [done|].
  destruct (parse_digits 0 (d :: ds)) as [z|]; [|done]. cbn. case_decide; [|done]. by intros [= <-].
Qed.

Lemma fnToInteger_typed : well_typed fnToInteger.
Proof.
  intros args Ha. reads_fn fnToInteger.
  - by case_match.
  - apply float_to_int64_ok.
  - destruct (ParseInt _) eqn:E; [|done]. by eapply ParseInt_ok.
Qed.

Lemma fnToFloat_typed : well_typed fnToFloat.
Proof.
  intros args Ha. reads_fn fnToFloat.
  - by apply of_int_u64.
  - destruct (ParseFloat _) eqn:E; [|done]. by eapply ParseFloat_ok.
Qed.

Lemma fnToString_typed : well_typed fnToString.
Proof.
  intros args Ha. reads_fn fnToString; try (by apply sprint_v_ok); try apply dec_bytes; try apply FormatG_ok; try done.
  destruct b; apply bytes_ok_str.
Qed.

Lemma stringFn_typed v fn r :
  (forall s, bytes_ok s -> bytes_ok (fn s)) -> value_ok v -> stringFn v fn = Ok r -> value_ok r.
Proof. intros Hf. destruct v; cbn; try done; intros Hv [= <-]; [done|by apply Hf]. Qed.

Lemma fnToUpper_typed : well_typed fnToUpper.
Proof. intros args Ha. reads_fn fnToUpper. apply reads_of_res. intros r. apply stringFn_typed; auto using ToUpper_ok, arg_ok. Qed.
Lemma fnToLower_typed : well_typed fnToLower.
Proof. intros args Ha. reads_fn fnToLower. apply reads_of_res. intros r. apply stringFn_typed; auto using ToLower_ok, arg_ok. Qed.
Lemma fnTrim_typed : well_typed fnTrim.
Proof. intros args Ha. reads_fn fnTrim. apply reads_of_res. intros r. apply stringFn_typed; auto using TrimSpace_ok, arg_ok. Qed.

Lemma fnSubstring_typed : well_typed fnSubstring.
Proof.
  intros args Ha. unfold fnSubstring. repeat reads_step; try done.
  eapply (reads_bind (fun _ => True)); [by apply reads_of_res|]. intros i _. repeat reads_step; [constructor|apply of_runes_ok|].
  eapply (reads_bind (fun _ => True)); [by apply reads_of_res|]. intros n _. reads_step. apply of_runes_ok.
Qed.

Lemma fnReplace_typed : well_typed fnReplace.
Proof.
  intros args Ha. unfold fnReplace. apply reads_needArgs.
  pose proof (arg_ok args 0 Ha). pose proof (arg_ok args 2 Ha).
  repeat reads_step; try done. by apply ReplaceAll_ok.
Qed.

Lemma fnSplit_typed : well_typed fnSplit.
Proof.
  intros args Ha. unfold fnSplit. apply reads_needArgs. pose proof (arg_ok args 0 Ha).
  repeat reads_step; try done. apply value_ok_list, Forall_fmap. eapply Forall_impl; [by apply Split_ok|done].
Qed.

Lemma fnAbs_typed : well_typed fnAbs.
Proof.
  intros args Ha. reads_fn fnAbs; [|apply mag_u64].
  apply reads_of_res. intros r. rewrite negateInt_exact by done. unfold exact. case_decide; [|done]. by intros [= <-].
Qed.

Lemma list_arg_typed f args :
  (forall l, Forall value_ok l -> value_ok (f l)) -> Forall value_ok args -> reads value_ok (list_arg args f).
Proof. intros Hf Ha. reads_fn list_arg. apply Hf. by apply value_ok_list. Qed.

Lemma fnHead_typed : well_typed fnHead.
Proof. intros args Ha. apply list_arg_typed; [|done]. by intros l [|x k]. Qed.
Lemma fnLast_typed : well_typed fnLast.
Proof.
  intros args Ha. apply list_arg_typed; [|done]. intros l Hl. induction Hl as [|x l Hx Hl IH]; [done|].
  by destruct l.
Qed.
Lemma fnTail_typed : well_typed fnTail.
Proof. intros args Ha. apply list_arg_typed; [|done]. intros l Hl. apply value_ok_list. by destruct Hl. Qed.

Lemma fnCoalesce_typed : well_typed fnCoalesce.
Proof.
  intros args Ha. reads_fn fnCoalesce. destruct (find _ args) as [v|] eqn:E; [|done]. cbn.
  apply find_some in E as [Hin _]. rewrite Forall_forall in Ha. by apply Ha, list_elem_of_In.
Qed.

Lemma edgeEnd_typed start args : Forall value_ok args -> reads value_ok (edgeEnd args start).
Proof.
  intros Ha. reads_fn edgeEnd. eapply (reads_bind (fun n => value_ok (node_value n))).
  - apply reads_txn; [apply read_only_GetNode|]. intros s n Hs. apply typed_node; [done|].
    apply value_ok_edge in Hok as (_ & _ & ? & ? & _). by destruct start.
  - intros n Hn. by apply reads_ret.
Qed.

Lemma numericFunc_typed f args :
  (forall x, u64 x -> u64 (f x)) -> Forall value_ok args -> reads value_ok (numericFunc args f).
Proof.
  intros Hf Ha. unfold numericFunc. apply reads_needArgs. pose proof (arg_ok args 0 Ha).
  repeat reads_step; try done; destruct (arg args 0); try done; cbn in *; simplify_eq; apply Hf; auto using of_int_u64.
Qed.

Lemma fnSign_typed : well_typed fnSign.
Proof.
  intros args Ha. unfold fnSign. repeat reads_step; try done; cbn.
  - unfold cmpInt64. zcases; solve_width.
  - repeat case_match; solve_width.
Qed.

Lemma fnRand_typed : well_typed fnRand.
Proof. intros args _. reads_fn fnRand. eapply reads_bind; [apply reads_draw|]. intros f Hf. by apply reads_ret. Qed.
Lemma fnTimestamp_typed : well_typed fnTimestamp.
Proof. intros args _. reads_fn fnTimestamp. eapply reads_bind; [apply reads_timestamp|]. intros t Ht. by apply reads_ret. Qed.

(** ** range() is the arithmetic progression, without wrap-around *)

(** Number of elements of the progression. *)
Definition range_count (start end_ step : Z) : Z := Z.max 0 ((end_ - start) / step + 1).
Definition progression (start step : Z) (n : nat) : list Z := (fun k => start + Z.of_nat k * step) <$> seq 0 n.

Lemma progression_S start step n : progression start step (S n) = start :: progression (start + step) step n.
Proof.
  unfold progression. cbn [seq fmap list_fmap]. f_equal; [lia|]. rewrite <- seq_shift, <- list_fmap_compose.
  apply list_fmap_ext. intros i k _. unfold compose. lia.
Qed.

Lemma range_count_step start end_ step :
  step <> 0 -> (0 < step /\ start <= end_ \/ step < 0 /\ end_ <= start) ->
  range_count start end_ step = range_count (start + step) end_ step + 1 /\
  range_count start end_ step = (end_ - start) / step + 1.
Proof.
  intros Hnz Hin. unfold range_count.
  assert (0 <= (end_ - start) / step) as Hq.
  { destruct Hin; [apply Z.div_pos; lia|]. rewrite <- (Z.div_opp_opp (end_ - start)) by lia. apply Z.div_pos; lia. }
  assert ((end_ - (start + step)) / step = (end_ - start) / step - 1) as ->.
  { replace (end_ - (start + step)) with (end_ - start + (-1) * step) by lia. rewrite Z.div_add by lia. lia. }
  lia.
Qed.

Lemma range_count_out start end_ step :
  step <> 0 -> ~ (0 < step /\ start <= end_ \/ step < 0 /\ end_ <= start) -> range_count start end_ step = 0.
Proof.
  intros Hnz Hout. unfold range_count. assert ((end_ - start) / step < 0); [|lia].
  destruct (Z_lt_le_dec 0 step).
  - apply Z.div_lt_upper_bound; lia.
  - rewrite <- (Z.div_opp_opp (end_ - start)) by lia. apply Z.div_lt_upper_bound; lia.
Qed.

Lemma range_loop_exact fuel start end_ step :
  i64 start -> i64 end_ -> i64 step -> step <> 0 -> range_count start end_ step < Z.of_nat fuel ->
  range_loop fuel start end_ step = progression start step (Z.to_nat (range_count start end_ step)).
Proof.
  intros Hs He Hst Hnz. revert start Hs. induction fuel as [|fuel IH]; intros start Hs Hf.
  { unfold range_count in *. lia. }
  cbn [range_loop].
  destruct (((0 <? step) && (start <=? end_)) || ((step <? 0) && (end_ <=? start))) eqn:Ein.
  - destruct (range_count_step start end_ step Hnz ltac:(lia)) as [Ec Ec'].
    replace (Z.to_nat (range_count start end_ step)) with (S (Z.to_nat (range_count (start + step) end_ step)))
      by (unfold range_count in *; lia).
    rewrite progression_S. f_equal.
    destruct (((0 <? step) && (MaxInt64 - step <? start)) || ((step <? 0) && (start <? MinInt64 - step))) eqn:Ebrk.
    + rewrite range_count_out; [done|done|]. unfold MaxInt64, MinInt64 in Ebrk. solve_width.
    + assert (i64 (start + step)) as Hn by (unfold MaxInt64, MinInt64 in Ebrk; solve_width).
      rewrite wrap_i64_id by done. apply IH; [done|lia].
  - rewrite range_count_out; [done|done|lia].
Qed.

Lemma range_fuel_enough start end_ step : step <> 0 -> range_count start end_ step < Z.of_nat (range_fuel start end_ step) \/ range_count start end_ step = 0.
Proof. unfold range_count, range_fuel. lia. Qed.

Lemma range_loop_progression start end_ step :
  i64 start -> i64 end_ -> i64 step -> step <> 0 ->
  range_loop (range_fuel start end_ step) start end_ step = progression start step (Z.to_nat (range_count start end_ step)).
Proof.
  intros Hs He Hst Hnz. destruct (range_fuel_enough start end_ step Hnz) as [Hf|Hz]; [by apply range_loop_exact|].
  destruct (range_fuel start end_ step) as [|f] eqn:Ef; [by rewrite Hz|]. apply range_loop_exact; try done. lia.
Qed.

Lemma progression_i64 start end_ step :
  i64 start -> i64 end_ -> step <> 0 ->
  Forall (fun x => i64 x /\ (0 < step -> start <= x <= end_) /\ (step < 0 -> end_ <= x <= start))
    (progression start step (Z.to_nat (range_count start end_ step))).
Proof.
  intros Hs He Hnz. unfold progression. apply Forall_fmap, Forall_forall. intros k Hk%elem_of_seq. unfold compose.
  unfold range_count in Hk. pose proof (Z.div_mod (end_ - start) step Hnz) as Hd.
  destruct (Z_lt_le_dec 0 step).
  - pose proof (Z.mod_pos_bound (end_ - start) step). split_and!; [unfold i64 in *|..]; nia.
  - pose proof (Z.mod_neg_bound (end_ - start) step). split_and!; [unfold i64 in *|..]; nia.
Qed.

Lemma fnRange_typed : well_typed fnRange.
Proof.
  intros args Ha. unfold fnRange. apply reads_needArgs. eapply (reads_bind (Forall i64)).
  - apply reads_mapM. eapply Forall_impl; [exact Ha|]. intros v Hv. cbn. destruct v; cbn; try apply reads_fail; by apply reads_ret.
  - intros nums Hn. assert (forall i, i64 (nth i nums 0)) as Hnth.
    { intros i. destruct (nth_in_or_default i nums 0) as [Hin| ->]; [|solve_width].
      rewrite Forall_forall in Hn. by apply Hn, list_elem_of_In. }
    set (step := match nums with [_; _; s] => s | _ => 1 end).
    assert (i64 step) as Hst.
    { unfold step. destruct nums as [|a [|b [|c [|d nums]]]]; try solve_width. by inversion Hn as [|? ? _ [|? ? _ [|]]]; subst. }
    clearbody step. destruct (Z.eqb_spec step 0) as [|Hnz]; [apply reads_fail|]. repeat reads_step.
    apply value_ok_list, Forall_fmap. rewrite range_loop_progression by done.
    eapply Forall_impl; [by apply progression_i64|]. by intros x [? _].
Qed.

Lemma scalarFuncs_typed : Forall (fun e => well_typed e.2) scalarFuncs.
Proof.
  unfold scalarFuncs. rewrite ?Forall_cons, Forall_nil. cbn [snd].
  split_and!; auto using fnID_typed, fnLabels_typed, fnType_typed, fnKeys_typed, fnProperties_typed, fnSize_typed,
    fnLength_typed, fnNodes_typed, fnRelationships_typed, fnToInteger_typed, fnToFloat_typed, fnToString_typed,
    fnToUpper_typed, fnToLower_typed, fnTrim_typed, fnSubstring_typed, fnReplace_typed, fnSplit_typed, fnAbs_typed,
    fnHead_typed, fnLast_typed, fnTail_typed, fnRange_typed, fnCoalesce_typed, fnSign_typed, fnRand_typed,
    fnTimestamp_typed.
  1-2: intros args; apply edgeEnd_typed.
  all: intros args; apply numericFunc_typed; intros x Hx.
  - apply ffloor_u64, pack_u64.
  - by apply ffloor_u64.
  - by apply fceil_u64.
  - apply pack_u64.
Qed.

Lemma lookup_func_typed name f : lookup_func name = Some f -> well_typed f.
Proof.
  unfold lookup_func. destruct (find _ scalarFuncs) as [e|] eqn:E; [|done]. cbn. intros [= <-].
  apply find_some in E as [Hin _]. pose proof scalarFuncs_typed as Ht. rewrite Forall_forall in Ht.
  by apply Ht, list_elem_of_In.
Qed.

Lemma fnRange_three start end_ step c : fnRange [VInt start; VInt end_; VInt step] c =
  (if step =? 0 then fail ErrRange
   else if flt (of_int maxRangeLen) (fadd (fdiv (fsub (of_int end_) (of_int start)) (of_int step)) (of_int 1))
   then fail ErrRange
   else mret (VList (VInt <$> range_loop (range_fuel start end_ step) start end_ step))) c.
Proof. reflexivity. Qed.

(** Range(start, end, step) on any int64 arguments either fails (zero step,
    or an estimated length above maxRangeLen) or returns exactly the
    progression start, start+step, ... up to end: the loop ends, no element
    wraps around and all lie between the bounds, also at the ends of int64. *)
Theorem range_exact (start end_ step : Z) (c : Context) (Hs : i64 start) (He : i64 end_) (Hst : i64 step) :
  (step = 0 /\ fnRange [VInt start; VInt end_; VInt step] c = PRet (Err ErrRange, c)) \/
  (step <> 0 /\ fnRange [VInt start; VInt end_; VInt step] c = PRet (Err ErrRange, c) /\
   flt (of_int maxRangeLen) (fadd (fdiv (fsub (of_int end_) (of_int start)) (of_int step)) (of_int 1)) = true) \/
  (step <> 0 /\
   let l := progression start step (Z.to_nat (range_count start end_ step)) in
   fnRange [VInt start; VInt end_; VInt step] c = PRet (Ok (VList (VInt <$> l)), c) /\
   Forall (fun x => i64 x /\ (0 < step -> start <= x <= end_) /\ (step < 0 -> end_ <= x <= start)) l).
Proof.
  rewrite fnRange_three. destruct (Z.eqb_spec step 0) as [|Hnz]; [by left|right]. destruct (flt _ _) eqn:Ef; [by left|right].
  rewrite range_loop_progression by done. split; [done|]. cbv zeta. split; [done|by apply progression_i64].
Qed.

(** ** toInteger and toString *)
Lemma parse_digits_acc u p : parse_digits (Zpos p) (digits u) = Some (Zpos (Pos.of_uint_acc u p)).
Proof.
  revert p. induction u; intros p; cbn [digits parse_digits between Z.leb Z.compare Pos.compare Pos.compare_cont andb];
    [done|..]; cbn [Pos.of_uint_acc]; rewrite <- IHu; f_equal; lia.
Qed.
Lemma parse_digits_uint u : parse_digits 0 (digits u) = Some (Z.of_uint u).
Proof.
  induction u as [|u IH|u _|u _|u _|u _|u _|u _|u _|u _|u _]; [done|exact IH|..].
  all: exact (parse_digits_acc u _).
Qed.

Lemma dec_head z : exists b t, dec z = b :: t /\ (b = 45 /\ z < 0 /\ t <> [] \/ between 48 b 57 = true).
Proof.
  assert (forall u, u <> Decimal.Nil -> exists b t, digits u = b :: t /\ between 48 b 57 = true) as Hd
    by (intros [] Hu; [done|..]; eexists _, _; done).
  unfold dec. destruct z as [|p|p]; cbn [Z.to_int].
  - exists 48, []. split; [done|by right].
  - destruct (Hd (Pos.to_uint p)) as (b & t & -> & Hb); [apply DecimalPos.Unsigned.to_uint_nonnil|]. eauto.
  - destruct (Hd (Pos.to_uint p)) as (b & t & E & Hb); [apply DecimalPos.Unsigned.to_uint_nonnil|].
    eexists 45, _. split; [done|]. left. by rewrite E.
Qed.

Lemma ParseInt_dec z : i64 z -> ParseInt (dec z) = Some z.
Proof.
  intros Hz. pose proof (DecimalZ.of_to z) as Hof. unfold dec in *. destruct (dec_head z) as (b & t & E & Hb).
  unfold dec in E. destruct (Z.to_int z) as [u|u] eqn:Ei; cbn [Z.of_int] in Hof.
  - assert (ParseInt (digits u) = n ← parse_digits 0 (digits u); if decide (i64 n) then Some n else None) as ->.
    { rewrite E. unfold ParseInt. destruct Hb as [(_ & Hneg & _)|Hb].
      - exfalso. destruct z; cbn in Ei; try done; lia.
      - unfold between in Hb. destruct b as [|q|q]; try done. do 6 (destruct q as [q|q|]; try done; try lia). }
    rewrite parse_digits_uint. cbn. by rewrite Hof, decide_True.
  - injection E as <- <-. unfold ParseInt. destruct Hb as [(_ & _ & Hne)|]; [|done].
    pose proof (parse_digits_uint u) as Hp. destruct (digits u) as [|d ds]; [done|]. rewrite Hp. cbn.
    by rewrite Hof, decide_True.
Qed.

Lemma pieces_ascii s : is_ascii s = true -> pieces s = (fun b => (b, [b])) <$> s.
Proof.
  unfold is_ascii. induction s as [|b s IH]; [done|]. cbn [forallb]. intros [Hb Hs]%andb_true_iff.
  rewrite pieces_cons by done. unfold decode_rune. rewrite Hb. cbn [fst snd take drop fmap list_fmap]. by rewrite ?drop_0, ?IH.
Qed.

Lemma dec_chars z : Forall (fun b => (b <? 0x80) = true /\ IsSpace b = false) (dec z).
Proof.
  assert (forall u, Forall (fun b => (b <? 0x80) = true /\ IsSpace b = false) (digits u)) as Hd
    by (intros u; induction u; cbn; repeat constructor; done).
  unfold dec. destruct (Z.to_int z); [|constructor; [done|]]; apply Hd.
Qed.

Lemma TrimSpace_dec z : TrimSpace (dec z) = dec z.
Proof.
  pose proof (dec_chars z) as Hc. unfold TrimSpace. rewrite pieces_ascii.
  2: { unfold is_ascii. apply forallb_Forall. eapply Forall_impl; [exact Hc|]. by intros b [? _]. }
  assert (forall l, Forall (fun b => IsSpace b = false) l ->
    drop_spaces ((fun b => (b, [b])) <$> l) = (fun b => (b, [b])) <$> l) as Hds.
  { intros l [|b k Hb _]; cbn; [done|]. by rewrite Hb. }
  assert (Forall (fun b => IsSpace b = false) (dec z)) as Hns by (eapply Forall_impl; [exact Hc|]; by intros b [_ ?]).
  rewrite Hds by done. rewrite <- !map_rev, Hds, <- map_rev, rev_involutive.
  - generalize (dec z). intros l. induction l as [|b l IH]; [done|]. cbn. by rewrite IH.
  - by apply Forall_rev.
Qed.

(** toInteger(toString(n)) is n for every int64, the two extremes included. *)
Theorem integer_text_roundtrip (z : Z) (c : Context) (Hz : i64 z) :
  exists t, fnToString [VInt z] c = PRet (Ok (VStr t), c) /\ fnToInteger [VStr t] c = PRet (Ok (VInt z), c).
Proof.
  exists (dec z). split; [done|].
  change (fnToInteger [VStr (dec z)] c) with
    (PRet (Ok (match ParseInt (TrimSpace (dec z)) with Some n => VInt n | None => VNull end), c)).
  by rewrite TrimSpace_dec, ParseInt_dec.
Qed.

(** ** substring() *)
Lemma fnSubstring_three s i n c : fnSubstring [VStr s; VInt i; VInt n] c =
  (let rs := runes s in
   let i := if i <? 0 then 0 else i in
   if len rs <? i then mret (VStr [])
   else
     let e := wrap_i64 (i + n) in
     let e := if e <? i then i else e in
     let e := if len rs <? e then len rs else e in
     mret (VStr (of_runes (rune_slice rs i e))) : M value) c.
Proof. reflexivity. Qed.

(** substring(s, i, n) selects characters: for a non-negative start and
    length whose sum fits an int64, its runes are the n runes of s from i on
    (fewer at the end of s, none beyond it). *)
Theorem substring_exact (s : bytes) (i n : Z) (c : Context) :
  bytes_ok s -> 0 <= i -> 0 <= n -> i + n < two63 ->
  exists t, fnSubstring [VStr s; VInt i; VInt n] c = PRet (Ok (VStr t), c) /\
    runes t = take (Z.to_nat n) (drop (Z.to_nat i) (runes s)).
Proof.
  intros Hs Hi Hn Hsum. rewrite fnSubstring_three. cbv zeta.
  rewrite (proj2 (Z.ltb_ge i 0)) by done. destruct (Z.ltb_spec (len (runes s)) i) as [Hlt|Hle].
  { exists []. split; [done|]. rewrite drop_ge, take_nil by (unfold len in *; lia). done. }
  rewrite wrap_i64_id by solve_width. eexists. split; [done|].
  rewrite runes_of_runes by (by apply Forall_take, Forall_drop, runes_valid). unfold rune_slice, len in *.
  zcases; try lia.
  - rewrite !take_ge; [done|rewrite length_drop; lia..].
  - f_equal. lia.
Qed.

(** The sum of start and length wraps around: asking for everything after the
    first character returns nothing. *)
Theorem substring_length_wraps (c : Context) :
  fnSubstring [VStr (str "abc"); VInt 1; VInt (two63 - 1)] c = PRet (Ok (VStr []), c).
Proof. vm_compute. reflexivity. Qed.
End functions.

#[local] Existing Instance plain_runtime.
Lemma range_exact_witness :
  fnRange [VInt (two63 - 3); VInt (two63 - 1); VInt 2] (new_context ∅ 0) =
  PRet (Ok (VList [VInt (two63 - 3); VInt (two63 - 1)]), new_context ∅ 0).
Proof.
  destruct (range_exact (two63 - 3) (two63 - 1) 2 (new_context ∅ 0)) as [[E _]|[(_ & _ & E)|(_ & E & _)]];
    [solve_width|solve_width|solve_width|done|vm_compute in E; done|].
  assert (progression (two63 - 3) 2 (Z.to_nat (range_count (two63 - 3) (two63 - 1) 2)) = [two63 - 3; two63 - 1]) as El
    by (vm_compute; reflexivity).
  rewrite El in E. exact E.
Defined.


End Functions.
