(* ===== verification/Params.v ===== *)
(** * Params: query parameters from Go values

    src/params.go.  A Go value as reflect shows it ([goval], one constructor per
    kind) is turned into a value of the engine, or refused. *)
From S2P Require Import Prelude Float64 FloatArith Values Ast Scalars Text Keys Records Storage Catalog Graph Context Functions.
Import Scalars Context Functions.

Module Params.

Inductive goval : Type :=
| GNil
| GBool (b : bool)
| GInt (z : Z)                                   (* every signed integer type *)
| GUint (z : Z)                                  (* every unsigned integer type *)
| GFloat (bits : Z)                              (* float64, or float32 widened *)
| GString (s : bytes)
| GEntity (v : value)                            (* graph.Node, graph.Edge *)
| GPointer (o : option goval)
| GSlice (o : option (list goval))               (* a slice may be nil *)
| GArray (l : list goval)
| GMap (o : option (list (bytes * goval)))       (* string keys; may be nil *)
| GOtherMap                                      (* other keys *)
| GOther.                                        (* struct, chan, func, ... *)

Definition MaxInt64 : Z := two63 - 1.

Fixpoint normalizeParam (v : goval) : res value :=
  let list_ := fix list_ (l : list goval) : res (list value) :=
    match l with
    | [] => Ok []
    | x :: l' => y ← normalizeParam x; ys ← list_ l'; Ok (y :: ys)
    end in
  let entries := fix entries (l : list (bytes * goval)) : res (list (bytes * value)) :=
    match l with
    | [] => Ok []
    | (k, x) :: l' => y ← normalizeParam x; ys ← entries l'; Ok ((k, y) :: ys)
    end in
  match v with
  | GNil => Ok VNull
  | GBool b => Ok (VBool b)
  | GInt z => Ok (VInt z)
  | GUint u => if MaxInt64 <? u then Err ErrParameter else Ok (VInt u)
  | GFloat f => Ok (VFloat f)
  | GString s => Ok (VStr s)
  | GEntity v => Ok v
  | GPointer None => Ok VNull
  | GPointer (Some x) => normalizeParam x
  | GSlice None => Ok VNull
  | GSlice (Some l) | GArray l => ys ← list_ l; Ok (VList ys)
  | GMap None => Ok VNull
  | GMap (Some l) => es ← entries l; Ok (VMap (foldl (fun m e => map_set e.1 e.2 m) [] es))
  | GOtherMap | GOther => Err ErrParameter
  end.

Fixpoint normalizeParams (params : list (bytes * goval)) : res (gmap (list Z) value) :=
  match params with
  | [] => Ok ∅
  | (name, v) :: rest => nv ← normalizeParam v; out ← normalizeParams rest; Ok (<[name := nv]> out)
  end.

(** ** What a Go program can hold *)
Fixpoint go_ok (v : goval) : Prop :=
  match v with
  | GNil | GBool _ | GOtherMap | GOther => True
  | GInt z => i64 z
  | GUint z => u64 z
  | GFloat f => u64 f
  | GString s => bytes_ok s
  | GEntity v => match v with VNode _ _ _ | VEdge _ _ _ _ _ => value_ok v | _ => False end
  | GPointer o => match o with Some x => go_ok x | None => True end
  | GSlice o => match o with Some l => foldr (fun x acc => go_ok x /\ acc) True l | None => True end
  | GArray l => foldr (fun x acc => go_ok x /\ acc) True l
  | GMap o => match o with Some m => foldr (fun e acc => (bytes_ok e.1 /\ go_ok e.2) /\ acc) True m | None => True end
  end.

(** A value with a kind the language has no value for, or an integer above the
    64-bit range. *)
Fixpoint refused (v : goval) : bool :=
  match v with
  | GOtherMap | GOther => true
  | GUint u => MaxInt64 <? u
  | GPointer (Some x) => refused x
  | GSlice (Some l) | GArray l => existsb refused l
  | GMap (Some m) => existsb (fun e => refused e.2) m
  | _ => false
  end.

(** Induction with the hypothesis for nested values. *)
Fixpoint goval_ind' (P : goval -> Prop) (H0 : forall v, match v with GPointer (Some _) | GSlice (Some _) | GArray _ | GMap (Some _) => True | _ => P v end)
    (Hp : forall x, P x -> P (GPointer (Some x))) (Hs : forall l, Forall P l -> P (GSlice (Some l))) (Ha : forall l, Forall P l -> P (GArray l))
    (Hm : forall m, Forall (fun e => P e.2) m -> P (GMap (Some m))) (v : goval) : P v :=
  let all := fix all (l : list goval) : Forall P l :=
    match l with [] => Forall_nil_2 _ | x :: l' => Forall_cons_2 _ x l' (goval_ind' P H0 Hp Hs Ha Hm x) (all l') end in
  let alls := fix alls (l : list (bytes * goval)) : Forall (fun e => P e.2) l :=
    match l with [] => Forall_nil_2 _ | e :: l' => Forall_cons_2 (fun e => P e.2) e l' (goval_ind' P H0 Hp Hs Ha Hm e.2) (alls l') end in
  match v with
  | GPointer (Some x) => Hp x (goval_ind' P H0 Hp Hs Ha Hm x)
  | GSlice (Some l) => Hs l (all l)
  | GArray l => Ha l (all l)
  | GMap (Some m) => Hm m (alls m)
  | v => H0 v
  end.

Definition param_spec (v : goval) : Prop :=
  go_ok v -> match normalizeParam v with Ok w => value_ok w /\ refused v = false | Err e => e = ErrParameter /\ refused v = true end.

Lemma list_spec l : Forall param_spec l -> foldr (fun x acc => go_ok x /\ acc) True l ->
  match normalizeParam (GArray l) with Ok w => value_ok w /\ existsb refused l = false | Err e => e = ErrParameter /\ existsb refused l = true end.
Proof.
  intros Hl Hok. cbn [normalizeParam].
  match goal with |- context [mbind _ (?f l)] => set (go := f) end.
  assert (match go l with Ok ys => Forall value_ok ys /\ existsb refused l = false | Err e => e = ErrParameter /\ existsb refused l = true end) as Hgo.
  { induction Hl as [|x l Hx _ IH]; [by split|]. cbn [foldr] in Hok. destruct Hok as [Hxok Hok]. specialize (Hx Hxok). specialize (IH Hok). cbn [existsb].
    change (go (x :: l)) with (y ← normalizeParam x; ys ← go l; Ok (y :: ys)).
    destruct (normalizeParam x) as [y|e]; cbn [mbind res_bind]; [|by destruct Hx as [-> ->]]. destruct Hx as [Hy ->].
    destruct (go l) as [ys|e]; cbn; [|done]. destruct IH as [Hys ->]. by split; [constructor|]. }
  destruct (go l) as [ys|e]; cbn [mbind res_bind]; [|done]. destruct Hgo as [Hys E]. split; [by apply value_ok_list|done].
Qed.
Lemma map_spec m : Forall (fun e => param_spec e.2) m -> foldr (fun e acc => (bytes_ok e.1 /\ go_ok e.2) /\ acc) True m ->
  match normalizeParam (GMap (Some m)) with Ok w => value_ok w /\ existsb (fun e => refused e.2) m = false | Err e => e = ErrParameter /\ existsb (fun e => refused e.2) m = true end.
Proof.
  intros Hl Hok. cbn [normalizeParam].
  match goal with |- context [mbind _ (?f m)] => set (go := f) end.
  assert (match go m with Ok es => Forall entry_ok es /\ existsb (fun e => refused e.2) m = false | Err e => e = ErrParameter /\ existsb (fun e => refused e.2) m = true end) as Hgo.
  { induction Hl as [|[k x] m Hx _ IH]; [by split|]. cbn [foldr fst snd] in *. destruct Hok as [[Hk Hxok] Hok]. specialize (Hx Hxok). specialize (IH Hok). cbn [existsb snd].
    change (go ((k, x) :: m)) with (y ← normalizeParam x; ys ← go m; Ok ((k, y) :: ys)).
    destruct (normalizeParam x) as [y|e]; cbn [mbind res_bind]; [|by destruct Hx as [-> ->]]. destruct Hx as [Hy ->].
    destruct (go m) as [ys|e]; cbn; [|done]. destruct IH as [Hys ->]. by split; [constructor|]. }
  destruct (go m) as [es|e]; cbn [mbind res_bind]; [|done]. destruct Hgo as [Hes E]. split; [by apply (@map_of_entries_ok plain_runtime _)|done].
Qed.
Lemma param_specs v : param_spec v.
Proof.
  revert v. apply (goval_ind' param_spec).
  - intros v. destruct v as [| | |z| | |[]|[]|[]| |[]| |]; try exact I; intros Hok; cbn in *; try done. destruct (Z.ltb_spec MaxInt64 z); [done|]. split; [|done].
    cbn. unfold MaxInt64, two63 in *. solve_width.
  - intros x Hx Hok. by apply Hx.
  - intros l Hl Hok. by apply list_spec.
  - intros l Hl Hok. by apply list_spec.
  - intros m Hm Hok. by apply map_spec.
Qed.
Lemma params_ok ps params : Forall (fun p => go_ok p.2) ps -> normalizeParams ps = Ok params -> forall name w, params !! name = Some w -> value_ok w.
Proof.
  intros Hps. revert params. induction Hps as [|[name v] ps Hv _ IH]; intros params; cbn [normalizeParams]; [by intros [= <-]|].
  pose proof (param_specs v Hv) as Hs. destruct (normalizeParam v) as [nv|]; [|done]. destruct (normalizeParams ps) as [rest|]; [|done].
  intros [= <-] name' w. rewrite lookup_insert_Some. intros [[_ <-]|[_ Hw]]; [apply Hs|by eapply IH].
Qed.
End Params.

(** C20: parameters enter the engine well formed or not at all: for every Go value
    (integers of any width, floats, strings, pointers, nested slices, arrays and
    string-keyed maps, nodes and relationships), normalizing it either gives a
    value of the engine (integers in int64, maps canonical) or the parameter
    error, and it is refused exactly when it contains a kind the language has no
    value for or an unsigned integer above the 64-bit signed range. *)
Theorem normalize_param_correct (v : Params.goval) : Params.go_ok v ->
  match Params.normalizeParam v with
  | Ok w => value_ok w /\ Params.refused v = false
  | Err e => e = ErrParameter /\ Params.refused v = true
  end.
Proof. apply Params.param_specs. Qed.

Lemma normalize_param_correct_witness :
  Params.normalizeParam (Params.GMap (Some [(str "xs", Params.GSlice (Some [Params.GUint 7; Params.GPointer None])); (str "k", Params.GString (str "v"))]))
  = Ok (VMap [(str "k", VStr (str "v")); (str "xs", VList [VInt 7; VNull])]) /\
  (let v := Params.GArray [Params.GInt 1; Params.GUint (2 ^ 63)] in
   match Params.normalizeParam v with Ok w => value_ok w /\ Params.refused v = false | Err e => e = ErrParameter /\ Params.refused v = true end).
Proof.
  split; [vm_compute; reflexivity|]. refine (normalize_param_correct (Params.GArray [Params.GInt 1; Params.GUint (2 ^ 63)]) _).
  cbn. split; [solve_width|split; [solve_width|exact I]].
Defined.
