(* ===== verification/Eval.v ===== *)
(** * Eval: evaluation of expressions

    src/internal/exec/eval.go and evalFunctionCall of functions.go.  Each
    [evalX] of the source takes the evaluations of its sub-expressions as
    computations (a computation that is not run is a sub-expression that is not
    evaluated); [eval] ties them together by recursion on the expression. *)
From S2P Require Import Prelude Float64 FloatArith Values Ast Scalars Records Storage Catalog Graph Context Functions.
Import Float64 FloatArith Ast Scalars Context Functions.

Module Eval.
Section eval.
Context `{Runtime}.

(** ** Properties and labels *)

(** [props[keyID]]: a missing property is null. *)
Definition prop_get (props : list (Z * value)) (k : Z) : value :=
  default VNull (snd <$> find (fun e => e.1 =? k) props).

Definition propValue (props : list (Z * value)) (key : bytes) : M value :=
  keyID ← lookupKey key;
  mret (match keyID with Some id => prop_get props id | None => VNull end).

Definition evalProperty (target : M value) (key : bytes) : M value :=
  t ← target;
  match t with
  | VNull => mret VNull
  | VNode _ _ props => propValue props key
  | VEdge _ _ _ _ props => propValue props key
  | VMap m => mret (default VNull (map_get m key))
  | _ => fail ErrType
  end.

Definition hasLabel (labels : list Z) (labelID : Z) : bool := existsb (Z.eqb labelID) labels.

Fixpoint labels_loop (node_labels : list Z) (names : list bytes) : M value :=
  match names with
  | [] => mret (VBool true)
  | name :: names' =>
      id ← lookupLabel name;
      match id with
      | None => mret (VBool false)
      | Some id => if hasLabel node_labels id then labels_loop node_labels names' else mret (VBool false)
      end
  end.

Definition evalLabels (target : M value) (labels : list bytes) : M value :=
  t ← target;
  match t with
  | VNode _ ls _ => labels_loop ls labels
  | _ => mret (VBool false)
  end.

(** ** CASE *)
Fixpoint whens_loop (test : value -> bool) (whens : list (M value * M value)) (els : M value) : M value :=
  match whens with
  | [] => els
  | (cond, result) :: whens' => c ← cond; if test c then result else whens_loop test whens' els
  end.

Definition evalCase (operand : option (M value)) (whens : list (M value * M value)) (els : option (M value)) : M value :=
  let els := default (mret VNull) els in
  match operand with
  | Some operand => o ← operand; whens_loop (equals o) whens els
  | None => whens_loop truthy whens els
  end.

(** ** Comprehensions and quantifiers *)

(** The loop of [iterList]; [fn] returns whether to stop and what it has
    accumulated. *)
Fixpoint iter_loop {A : Type} (fn : binding -> value -> A -> M (bool * A)) (variable : bytes) (row : binding)
    (list : list value) (acc : A) : M A :=
  match list with
  | [] => mret acc
  | item :: list' =>
      _ ← check;
      let row := <[variable := item]> row in
      r ← fn row item acc;
      if (fst r : bool) then mret (snd r) else iter_loop fn variable row list' (snd r)
  end.

(** [None] when the list is null. *)
Definition iterList {A : Type} (listExpr : M value) (variable : bytes) (b : binding)
    (fn : binding -> value -> A -> M (bool * A)) (acc : A) : M (option A) :=
  v ← listExpr;
  match v with
  | VNull => mret None
  | VList l => r ← iter_loop fn variable b l acc; mret (Some r)
  | _ => fail ErrType
  end.

Definition evalListComprehension (list : M value) (variable : bytes) (b : binding)
    (where_ map_ : option (binding -> M value)) : M value :=
  out ← iterList list variable b (fun row item (out : Datatypes.list value) =>
    keep ← match where_ with Some w => v ← w row; mret (truthy v) | None => mret true end;
    if (keep : bool) then
      item ← match map_ with Some m => m row | None => mret item end;
      mret (false, out ++ [item])
    else mret (false, out)) [];
  mret (match out with None => VNull | Some out => VList out end).

(** Counts of true, false and null outcomes. *)
Record counts := mkCounts { trues : Z; falses : Z; unknowns : Z }.

Definition count_outcome (v : value) (n : counts) : counts :=
  if is_null v then mkCounts (trues n) (falses n) (unknowns n + 1)
  else if truthy v then mkCounts (trues n + 1) (falses n) (unknowns n)
  else mkCounts (trues n) (falses n + 1) (unknowns n).

(** Whether the answer is already decided. *)
Definition decided (kind : bytes) (n : counts) : bool :=
  if (kind =s "any") || (kind =s "none") then 0 <? trues n
  else if kind =s "all" then 0 <? falses n
  else 1 <? trues n.

Definition quantifier_result (kind : bytes) (n : counts) : value :=
  let rest := if 0 <? unknowns n then VNull else VBool (negb (kind =s "any")) in
  if kind =s "any" then (if 0 <? trues n then VBool true else rest)
  else if kind =s "none" then (if 0 <? trues n then VBool false else rest)
  else if kind =s "all" then (if 0 <? falses n then VBool false else rest)
  else if 1 <? trues n then VBool false
  else if unknowns n =? 0 then VBool (trues n =? 1)
  else VNull.

Definition evalQuantifier (kind : bytes) (list : M value) (variable : bytes) (b : binding)
    (where_ : binding -> M value) : M value :=
  n ← iterList list variable b (fun row _ n =>
    v ← where_ row;
    let n := count_outcome v n in
    mret (decided kind n, n)) (mkCounts 0 0 0);
  mret (match n with None => VNull | Some n => quantifier_result kind n end).

(** ** Subscripts and slices *)
Definition list_index (l : list value) (i : Z) : value :=
  let i := if i <? 0 then i + len l else i in
  if (i <? 0) || (len l <=? i) then VNull else nth (Z.to_nat i) l VNull.

Definition evalSubscript (target index : M value) : M value :=
  t ← target;
  i ← index;
  if is_null t || is_null i then mret VNull
  else match t with
  | VList l => match normalize i with VInt i => mret (list_index l i) | _ => fail ErrType end
  | VMap m => match i with VStr key => mret (default VNull (map_get m key)) | _ => fail ErrType end
  | VNode _ _ props => match i with VStr key => propValue props key | _ => fail ErrType end
  | VEdge _ _ _ _ props => match i with VStr key => propValue props key | _ => fail ErrType end
  | _ => fail ErrType
  end.

(** A slice bound: [None] when it is null. *)
Definition slice_bound (n : Z) (e : option (M value)) (open_ : Z) : M (option Z) :=
  match e with
  | None => mret (Some open_)
  | Some m =>
      v ← m;
      if is_null v then mret None
      else match normalize v with
      | VInt i => let i := if i <? 0 then i + n else i in mret (Some (Z.min (Z.max i 0) n))
      | _ => fail ErrType
      end
  end.

Definition evalSlice (target : M value) (from to_ : option (M value)) : M value :=
  t ← target;
  match t with
  | VNull => mret VNull
  | VList l =>
      let n := len l in
      from ← slice_bound n from 0;
      match from with
      | None => mret VNull
      | Some from =>
          to_ ← slice_bound n to_ n;
          match to_ with
          | None => mret VNull
          | Some to_ =>
              if to_ <=? from then mret (VList [])
              else mret (VList (take (Z.to_nat (to_ - from)) (drop (Z.to_nat from) l)))
          end
      end
  | _ => fail ErrType
  end.

(** ** Operators *)
Definition evalUnary (op : bytes) (operand : M value) : M value :=
  v ← operand;
  if op =s "NOT" then
    match v with VNull => mret VNull | VBool b => mret (VBool (negb b)) | _ => fail ErrType end
  else if op =s "-" then
    match v with
    | VInt n => of_res (VInt <$> negateInt n)
    | VFloat n => mret (VFloat (fneg n))
    | _ => fail ErrType
    end
  else if op =s "IS NULL" then mret (VBool (is_null v))
  else if op =s "IS NOT NULL" then mret (VBool (negb (is_null v)))
  else fail ErrUnknownOperator.

Definition boolOp (left_ right_ : M value) (isOr : bool) : M value :=
  l ← left_; r ← right_; mret (bool_result isOr l r).

Definition regexMatch (l r : value) : M value :=
  match l, r with
  | VStr s, VStr pattern => re ← regexp pattern; mret (VBool (MatchString re s))
  | _, _ => mret VNull
  end.

Definition evalBinary (op : bytes) (left_ right_ : M value) : M value :=
  if op =s "AND" then boolOp left_ right_ false
  else if op =s "OR" then boolOp left_ right_ true
  else
    l ← left_;
    r ← right_;
    if op =s "=" then mret (equalityOp l r false)
    else if op =s "<>" then mret (equalityOp l r true)
    else if (op =s "<") || (op =s "<=") || (op =s ">") || (op =s ">=") then mret (compareOp op l r)
    else if (op =s "+") || (op =s "-") || (op =s "*") || (op =s "/") || (op =s "%") then of_res (arithmetic op l r)
    else if op =s "=~" then regexMatch l r
    else if op =s "STARTS WITH" then mret (stringPredicate l r HasPrefix)
    else if op =s "ENDS WITH" then mret (stringPredicate l r HasSuffix)
    else if op =s "CONTAINS" then mret (stringPredicate l r Contains)
    else if op =s "IN" then of_res (inList l r)
    else fail ErrUnknownOperator.

Definition evalFunctionCall (name : bytes) (args : list (M value)) : M value :=
  if isAggregateName name then fail ErrAggregate
  else match lookup_func (ToLower name) with
  | None => fail ErrUnknownFunction
  | Some fn => vs ← mapM id args; fn vs
  end.

(** ** eval *)
Fixpoint eval (e : Expr) (b : binding) {struct e} : M value :=
  match e with
  | Literal v => mret v
  | Param name => o ← param name; match o with None => fail ErrMissingParam | Some v => mret (normalize v) end
  | Variable_ name => match b !! name with None => fail ErrUnboundVariable | Some v => mret v end
  | PropertyAccess target key => evalProperty (eval target b) key
  | ListComprehension v l w m =>
      evalListComprehension (eval l b) v b
        (match w with Some w => Some (eval w) | None => None end)
        (match m with Some m => Some (eval m) | None => None end)
  | Quantifier kind v l w => evalQuantifier kind (eval l b) v b (eval w)
  | Subscript target index => evalSubscript (eval target b) (eval index b)
  | Slice target from to_ =>
      evalSlice (eval target b)
        (match from with Some x => Some (eval x b) | None => None end)
        (match to_ with Some x => Some (eval x b) | None => None end)
  | Unary op x => evalUnary op (eval x b)
  | Binary op l r => evalBinary op (eval l b) (eval r b)
  | LabelsPredicate x labels => evalLabels (eval x b) labels
  | ListLiteral l => vs ← mapM id ((fun x => eval x b) <$> l); mret (VList vs)
  | MapLiteral m =>
      entries ← mapM (fun e : bytes * M value => v ← e.2; mret (e.1, v))
        (range_over order_keys ((fun e => (e.1, eval e.2 b)) <$> m));
      mret (VMap (foldl (fun m e => map_set e.1 e.2 m) [] entries))
  | Case operand whens els =>
      evalCase (match operand with Some x => Some (eval x b) | None => None end)
        ((fun w => (eval w.1 b, eval w.2 b)) <$> whens)
        (match els with Some x => Some (eval x b) | None => None end)
  | FunctionCall name _ _ args => evalFunctionCall name ((fun x => eval x b) <$> args)
  end.

(** ** Evaluation reads, and yields well-formed values *)
Context `{!RuntimeLaws}.

Definition binding_ok (b : binding) : Prop := map_Forall (fun _ v => value_ok v) b.

Ltac reads_auto :=
  repeat match goal with
  | |- reads _ (mret _) => apply reads_ret
  | |- reads _ (fail _) => apply reads_fail
  | |- reads _ (of_res _) => apply reads_of_res; intros ? ?
  | |- reads _ (match ?x with _ => _ end) => destruct x eqn:?
  | |- reads _ (if ?b then _ else _) => destruct b
  | |- value_ok (if ?b then _ else _) => destruct b
  end; try done.

Lemma prop_get_ok props k : Forall (fun e => u32 e.1 /\ value_ok e.2) props -> value_ok (prop_get props k).
Proof.
  intros Hp. unfold prop_get. destruct (find _ props) as [e|] eqn:E; [|done].
  apply find_some in E as [Hin _]. rewrite Forall_forall in Hp. by apply Hp, list_elem_of_In.
Qed.

Lemma map_get_ok m k : Forall entry_ok m -> value_ok (default VNull (map_get m k)).
Proof.
  intros Hm. unfold map_get. destruct (find _ m) as [e|] eqn:E; [|done].
  apply find_some in E as [Hin _]. rewrite Forall_forall in Hm. by apply Hm, list_elem_of_In.
Qed.

Lemma propValue_reads props key :
  Forall (fun e => u32 e.1 /\ value_ok e.2) props -> reads value_ok (propValue props key).
Proof.
  intros Hp. eapply reads_bind; [apply reads_lookupKey|]. intros o _. apply reads_ret. destruct o; [by apply prop_get_ok|done].
Qed.

Lemma evalProperty_reads t key : reads value_ok t -> reads value_ok (evalProperty t key).
Proof.
  intros Ht. eapply reads_bind; [exact Ht|]. intros v Hv. reads_auto.
  - apply value_ok_map in Hv as [_ Hm]. by apply map_get_ok.
  - apply value_ok_node in Hv as (_ & _ & Hp). by apply propValue_reads.
  - apply value_ok_edge in Hv as (_ & _ & _ & _ & Hp). by apply propValue_reads.
Qed.

Lemma labels_loop_reads ls names : reads value_ok (labels_loop ls names).
Proof.
  induction names as [|n names IH]; cbn; [by apply reads_ret|].
  eapply reads_bind; [apply reads_lookupLabel|]. intros o _. reads_auto.
Qed.

Lemma evalLabels_reads t ls : reads value_ok t -> reads value_ok (evalLabels t ls).
Proof. intros Ht. eapply reads_bind; [exact Ht|]. intros v _. reads_auto. apply labels_loop_reads. Qed.

Lemma whens_loop_reads test whens els :
  Forall (fun w => reads value_ok w.1 /\ reads value_ok w.2) whens -> reads value_ok els ->
  reads value_ok (whens_loop test whens els).
Proof.
  intros Hw He. induction Hw as [|[cond result] whens [Hc Hr] _ IH]; cbn; [done|].
  eapply reads_bind; [exact Hc|]. intros v _. by destruct (test v).
Qed.

(** A sub-expression that may be absent. *)
Definition opt_reads (o : option (M value)) : Prop := forall m, o = Some m -> reads value_ok m.

Lemma evalCase_reads operand whens els :
  opt_reads operand -> Forall (fun w => reads value_ok w.1 /\ reads value_ok w.2) whens -> opt_reads els ->
  reads value_ok (evalCase operand whens els).
Proof.
  intros Ho Hw He. assert (reads value_ok (default (mret VNull) els)) as He'
    by (destruct els as [m|]; [by apply He|by apply reads_ret]).
  unfold evalCase. destruct operand as [m|]; [|by apply whens_loop_reads].
  eapply reads_bind; [by apply Ho|]. intros v _. by apply whens_loop_reads.
Qed.

Lemma iter_loop_reads {A : Type} (P : A -> Prop) fn variable row l acc :
  (forall row item a, binding_ok row -> value_ok item -> P a -> reads (fun r => P (snd r)) (fn row item a)) ->
  binding_ok row -> Forall value_ok l -> P acc -> reads P (iter_loop fn variable row l acc).
Proof.
  intros Hfn Hrow Hl. revert row acc Hrow. induction Hl as [|item l Hi Hl IH]; intros row acc Hrow Ha; cbn; [by apply reads_ret|].
  eapply reads_bind; [apply reads_check|]. intros _ _.
  assert (binding_ok (<[variable := item]> row)) as Hrow' by (by apply map_Forall_insert_2).
  eapply reads_bind; [by apply Hfn|]. intros [stop a] Ha'. cbn in *. destruct stop; [by apply reads_ret|by apply IH].
Qed.

Lemma iterList_reads {A : Type} (P : A -> Prop) list variable b fn acc :
  reads value_ok list ->
  (forall row item a, binding_ok row -> value_ok item -> P a -> reads (fun r => P (snd r)) (fn row item a)) ->
  binding_ok b -> P acc -> reads (fun o => forall a, o = Some a -> P a) (iterList list variable b fn acc).
Proof.
  intros Hl Hfn Hb Ha. eapply reads_bind; [exact Hl|]. intros v Hv. destruct v; try apply reads_fail.
  - by apply reads_ret.
  - apply value_ok_list in Hv. eapply reads_bind; [by apply (iter_loop_reads P)|]. intros r Hr. apply reads_ret. by intros ? [= <-].
Qed.

Lemma evalListComprehension_reads list variable b where_ map_ :
  reads value_ok list -> binding_ok b ->
  (forall w row, where_ = Some w -> binding_ok row -> reads value_ok (w row)) ->
  (forall m row, map_ = Some m -> binding_ok row -> reads value_ok (m row)) ->
  reads value_ok (evalListComprehension list variable b where_ map_).
Proof.
  intros Hl Hb Hw Hm. eapply reads_bind.
  - apply (iterList_reads (Forall value_ok)); [done| |done|constructor]. intros row item out Hrow Hi Hout.
    eapply (reads_bind (fun _ => True)).
    + destruct where_ as [w|]; [|by apply reads_ret]. eapply reads_bind; [by apply Hw|]. intros v _. by apply reads_ret.
    + intros keep _. destruct keep; [|by apply reads_ret]. eapply (reads_bind value_ok).
      * destruct map_ as [m|]; [by apply Hm|by apply reads_ret].
      * intros v Hv. apply reads_ret. cbn. apply Forall_app. by repeat constructor.
  - intros o Ho. apply reads_ret. destruct o as [out|]; [|done]. apply value_ok_list. by apply Ho.
Qed.

Lemma quantifier_result_ok kind n : value_ok (quantifier_result kind n).
Proof. unfold quantifier_result. repeat case_match; done. Qed.

Lemma evalQuantifier_reads kind list variable b where_ :
  reads value_ok list -> binding_ok b -> (forall row, binding_ok row -> reads value_ok (where_ row)) ->
  reads value_ok (evalQuantifier kind list variable b where_).
Proof.
  intros Hl Hb Hw. eapply (reads_bind (fun _ => True)).
  - eapply reads_weaken; [apply (iterList_reads (fun _ => True)); try done|done].
    intros row item n Hrow _ _. eapply reads_bind; [by apply Hw|]. intros v _. by apply reads_ret.
  - intros o _. apply reads_ret. destruct o; [apply quantifier_result_ok|done].
Qed.

Lemma evalSubscript_reads t i : reads value_ok t -> reads value_ok i -> reads value_ok (evalSubscript t i).
Proof.
  intros Ht Hi. eapply reads_bind; [exact Ht|]. intros v Hv. eapply reads_bind; [exact Hi|]. intros k Hk. reads_auto.
  - unfold list_index. case_match; [done|]. apply value_ok_list in Hv. apply (arg_ok l); done.
  - apply value_ok_map in Hv as [_ Hm]. by apply map_get_ok.
  - apply value_ok_node in Hv as (_ & _ & Hp). by apply propValue_reads.
  - apply value_ok_edge in Hv as (_ & _ & _ & _ & Hp). by apply propValue_reads.
Qed.

Lemma slice_bound_reads n e o : opt_reads e -> reads (fun _ => True) (slice_bound n e o).
Proof.
  intros He. unfold slice_bound. destruct e as [m|]; [|by apply reads_ret].
  eapply reads_bind; [by apply He|]. intros v _. reads_auto.
Qed.

Lemma evalSlice_reads t f o : reads value_ok t -> opt_reads f -> opt_reads o -> reads value_ok (evalSlice t f o).
Proof.
  intros Ht Hf Ho. eapply reads_bind; [exact Ht|]. intros v Hv. reads_auto. apply value_ok_list in Hv.
  eapply reads_bind; [by apply slice_bound_reads|]. intros from _. reads_auto.
  eapply reads_bind; [by apply slice_bound_reads|]. intros to_ _. reads_auto.
  by apply value_ok_list, Forall_take, Forall_drop.
Qed.

Lemma evalUnary_reads op m : reads value_ok m -> reads value_ok (evalUnary op m).
Proof.
  intros Hm. eapply reads_bind; [exact Hm|]. intros v Hv. reads_auto.
  - rename select (_ = Ok _) into E. rewrite negateInt_exact in E by done. unfold exact in E.
    case_decide; [|done]. by injection E as <-.
  - by apply fneg_u64.
Qed.

Lemma exact_ok z v : VInt <$> exact z = Ok v -> value_ok v.
Proof. unfold exact. case_decide; [|done]. by intros [= <-]. Qed.

Lemma arithmetic_ok op a b v : value_ok a -> value_ok b -> arithmetic op a b = Ok v -> value_ok v.
Proof.
  intros Ha Hb. unfold arithmetic.
  assert (forall x y r, i64 x -> i64 y -> VInt <$> intArithmetic op x y = Ok r -> value_ok r) as Hint.
  { intros x y r Hx Hy. unfold intArithmetic. repeat case_bool_decide; subst.
    - rewrite addInt_exact by done. apply exact_ok.
    - rewrite sub_exact by done. apply exact_ok.
    - rewrite mul_exact by done. apply exact_ok.
    - destruct (Z.eqb_spec y 0); [done|]. rewrite quot_exact by done. apply exact_ok.
    - destruct (Z.eqb_spec y 0); [done|]. intros [= <-]. by apply rem_i64.
    - done. }
  assert (forall x y r, VFloat <$> floatArithmetic op x y = Ok r -> value_ok r) as Hfl.
  { intros x y r. unfold floatArithmetic. repeat case_match; try done; intros [= <-]; apply pack_u64. }
  destruct a, b; cbn [normalize toFloat]; try (case_match; done); case_match; eauto; try done.
  intros [= <-]. by apply Forall_app.
Qed.

Lemma equalityOp_ok a b n : value_ok (equalityOp a b n).
Proof. unfold equalityOp. destruct (equality a b). by case_match. Qed.
Lemma compareOp_ok op a b : value_ok (compareOp op a b).
Proof. unfold compareOp. repeat case_match; done. Qed.
Lemma in_loop_ok x l u : value_ok (in_loop x l u).
Proof. rewrite in_loop_kleene. by destruct (kor _ _). Qed.

Lemma evalBinary_reads op l r : reads value_ok l -> reads value_ok r -> reads value_ok (evalBinary op l r).
Proof.
  intros Hl Hr. unfold evalBinary.
  assert (forall b, reads value_ok (boolOp l r b)) as Hbool.
  { intros b. eapply reads_bind; [exact Hl|]. intros x _. eapply reads_bind; [exact Hr|]. intros y _. apply reads_ret.
    unfold bool_result. repeat case_match; done. }
  case_match; [apply Hbool|]. case_match; [apply Hbool|].
  eapply reads_bind; [exact Hl|]. intros x Hx. eapply reads_bind; [exact Hr|]. intros y Hy.
  assert (forall fn, value_ok (stringPredicate x y fn)) as Hsp by (intros; unfold stringPredicate; repeat case_match; done).
  case_match; [apply reads_ret, equalityOp_ok|]. case_match; [apply reads_ret, equalityOp_ok|].
  case_match; [apply reads_ret, compareOp_ok|].
  case_match; [apply reads_of_res; intros v Ev; exact (arithmetic_ok op x y v Hx Hy Ev)|].
  case_match. { unfold regexMatch. reads_auto. eapply reads_bind; [apply reads_regexp|]. intros. by apply reads_ret. }
  case_match; [by apply reads_ret|]. case_match; [by apply reads_ret|]. case_match; [by apply reads_ret|].
  case_match; [|apply reads_fail]. apply reads_of_res. intros v. unfold inList.
  destruct y; try done; intros [= <-]; [done|apply in_loop_ok].
Qed.

Lemma evalFunctionCall_reads name args :
  Forall (reads value_ok) args -> reads value_ok (evalFunctionCall name args).
Proof.
  intros Ha. unfold evalFunctionCall. case_match; [apply reads_fail|].
  destruct (lookup_func _) as [fn|] eqn:E; [|apply reads_fail].
  eapply reads_bind; [by apply reads_mapM|]. intros vs Hvs. by apply (lookup_func_typed _ _ E).
Qed.

Lemma eval_reads e b : expr_ok e -> binding_ok b -> reads value_ok (eval e b).
Proof.
  revert b. induction e using expr_ind'; intros b He Hb; cbn [eval] in *; cbn [expr_ok] in He.
  - by apply reads_ret.
  - eapply reads_bind; [apply reads_param|]. intros o Ho. destruct o as [v|]; [|apply reads_fail].
    apply reads_ret, normalize_ok, Ho. done.
  - destruct (b !! n) as [v|] eqn:E; [|apply reads_fail]. apply reads_ret. by apply (Hb n).
  - by apply evalProperty_reads, IHe.
  - by apply evalUnary_reads, IHe.
  - destruct He. apply evalBinary_reads; auto.
  - apply evalFunctionCall_reads. rewrite (foldr_and_Forall expr_ok) in He. apply Forall_fmap.
    rewrite Forall_forall in *. unfold compose. auto.
  - by apply evalLabels_reads, IHe.
  - rewrite (foldr_and_Forall expr_ok) in He. eapply reads_bind.
    + apply reads_mapM, Forall_fmap. rewrite Forall_forall in *. unfold compose, id. auto.
    + intros vs Hvs. apply reads_ret. by apply value_ok_list.
  - rewrite (foldr_and_Forall (fun kv => bytes_ok kv.1 /\ expr_ok kv.2)) in He. eapply (reads_bind (Forall entry_ok)).
    + apply reads_mapM, Forall_forall. intros [k m'] Hin%range_over_elem.
      apply list_elem_of_fmap in Hin as ([k' x] & [= -> ->] & Hin). rewrite Forall_forall in *.
      destruct (He _ Hin) as [Hk Hx]. eapply reads_bind; [by apply (H1 _ Hin)|]. intros v Hv. by apply reads_ret.
    + intros entries Hes. apply reads_ret. by apply map_of_entries_ok.
  - destruct He as (Ho & Hws & Hx). apply evalCase_reads.
    + intros m' E. destruct o; [|done]. injection E as <-. by apply H1.
    + rewrite (foldr_and_Forall (fun w => expr_ok w.1 /\ expr_ok w.2)) in Hws. apply Forall_fmap.
      rewrite Forall_forall in *. intros w Hw. cbn. destruct (H2 w Hw), (Hws w Hw). auto.
    + intros m' E. destruct e; [|done]. injection E as <-. by apply H3.
  - destruct He. apply evalSubscript_reads; auto.
  - destruct He as (Hl & Hw & Hm). apply evalListComprehension_reads; [by apply IHe|done|..].
    + intros w' row E Hrow. destruct w; [|done]. injection E as <-. by apply H1.
    + intros m' row E Hrow. destruct m; [|done]. injection E as <-. by apply H2.
  - destruct He. apply evalQuantifier_reads; auto.
  - destruct He as (Ht & Hf & Ho). apply evalSlice_reads; [by apply IHe|..].
    + intros m' E. destruct f; [|done]. injection E as <-. by apply H1.
    + intros m' E. destruct o; [|done]. injection E as <-. by apply H2.
Qed.

(** ** Three-valued logic

    [evaluates s m a]: in a query that is not cancelled, [m] delivers [a]. *)
Definition live (s : store) (c : Context) : Prop := valid s c /\ Ctx c = None.

Definition evaluates {A : Type} (s : store) (m : M A) (a : A) : Prop :=
  forall c, live s c -> exists c', run (m c) s = (Ok (Ok a, c'), s) /\ live s c' /\ MaxRows c' = MaxRows c.

Lemma evaluates_ret {A : Type} s (a : A) : evaluates s (mret a) a.
Proof. intros c Hc. by exists c. Qed.

Lemma evaluates_bind {A B : Type} s (m : M A) (f : A -> M B) a b :
  evaluates s m a -> evaluates s (f a) b -> evaluates s (m ≫= f) b.
Proof.
  intros Hm Hf c Hc. destruct (Hm c Hc) as (c1 & E1 & H1 & M1). destruct (Hf c1 H1) as (c2 & E2 & H2 & M2).
  exists c2. split; [by rewrite (run_M_bind _ _ _ _ _ _ E1)|]. split; [done|congruence].
Qed.

Lemma evaluates_check s : evaluates s check tt.
Proof. intros c [Hv Hc]. exists c. unfold check, poll. rewrite Hc. by split. Qed.

(** A loop that is decided early gives the fold over the whole list, when
    further elements cannot change the answer. *)
Lemma iter_loop_evaluates {A : Type} (s : store) (fn : binding -> value -> A -> M (bool * A)) (step : value -> A -> A) (stop : A -> bool)
    (answer : A -> value) (variable : bytes) (b row : binding) (l : list value) (acc : A) :
  (forall x, x ∈ l -> forall a, evaluates s (fn (<[variable := x]> b) x a) (stop (step x a), step x a)) ->
  (forall x a, stop a = true -> stop (step x a) = true /\ answer (step x a) = answer a) ->
  (forall x, <[variable := x]> row = <[variable := x]> b) ->
  exists a, evaluates s (iter_loop fn variable row l acc) a /\ answer a = answer (foldl (fun a x => step x a) acc l).
Proof.
  intros Hfn Hstop. revert row acc. induction l as [|x l IH]; intros row acc Hrow; cbn [iter_loop foldl].
  { exists acc. split; [apply evaluates_ret|done]. }
  assert (forall y, <[variable := y]> (<[variable := x]> row) = <[variable := y]> b) as Hrow'
    by (intros y; by rewrite insert_insert_eq).
  destruct (stop (step x acc)) eqn:Es.
  - exists (step x acc). split.
    + eapply evaluates_bind; [apply evaluates_check|]. eapply evaluates_bind; [rewrite Hrow; apply Hfn; left|].
      cbn. rewrite Es. apply evaluates_ret.
    + clear IH Hfn. revert Es. generalize (step x acc). induction l as [|y l IH]; intros a Ha; [done|].
      cbn. destruct (Hstop y a Ha) as [Ha' <-]. by apply IH.
  - destruct (IH ltac:(intros; apply Hfn; by right) (<[variable := x]> row) (step x acc) Hrow') as (a & He & Ea).
    exists a. split; [|done]. eapply evaluates_bind; [apply evaluates_check|].
    eapply evaluates_bind; [rewrite Hrow; apply Hfn; left|]. cbn. rewrite Es. exact He.
Qed.

(** What the counters hold at the end. *)
Definition tally (ps : list (option bool)) : counts :=
  mkCounts (Z.of_nat (length (filter (fun p => p = Some true) ps)))
    (Z.of_nat (length (filter (fun p => p = Some false) ps))) (Z.of_nat (length (filter (fun p => p = None) ps))).

Definition add_counts (a b : counts) : counts :=
  mkCounts (trues a + trues b) (falses a + falses b) (unknowns a + unknowns b).

Lemma add_counts_0 n : add_counts (mkCounts 0 0 0) n = n.
Proof. by destruct n. Qed.

Lemma fold_counts (f : value -> value) l n :
  foldl (fun n x => count_outcome (f x) n) n l = add_counts n (tally ((fun x => tri (f x)) <$> l)).
Proof.
  revert n. induction l as [|x l IH]; intros n.
  { destruct n; unfold add_counts; cbn. by rewrite !Z.add_0_r. }
  cbn [foldl]. rewrite IH. unfold add_counts, tally, count_outcome, tri.
  cbn [fmap list_fmap]. rewrite !filter_cons.
  destruct n, (is_null (f x)), (truthy (f x)); cbn [trues falses unknowns];
    repeat case_decide; try done; cbn [length]; f_equal; lia.
Qed.

(** The quantifiers as folds of Kleene's connectives; [single] counts. *)
Definition quantifier (kind : bytes) (ps : list (option bool)) : option bool :=
  if kind =s "any" then foldr kor (Some false) ps
  else if kind =s "none" then knot (foldr kor (Some false) ps)
  else if kind =s "all" then foldr kand (Some true) ps
  else
    let t := length (filter (fun p => p = Some true) ps) in
    if (1 <? t)%nat then Some false
    else if bool_decide (None ∈ ps) then None else Some (t =? 1)%nat.

Lemma filter_len_pos {A : Type} (P : A -> Prop) `{forall x, Decision (P x)} (l : list A) :
  (0 <? Z.of_nat (length (filter P l))) = existsb (fun y => bool_decide (P y)) l.
Proof.
  induction l as [|y l IH]; [done|]. rewrite filter_cons. cbn [existsb].
  case_decide; [rewrite bool_decide_true by done|rewrite bool_decide_false by done]; cbn [length orb];
    [apply Z.ltb_lt; lia|done].
Qed.

Lemma existsb_elem {A : Type} `{EqDecision A} (x : A) `{forall y, Decision (y = x)} (l : list A) :
  existsb (fun y => bool_decide (y = x)) l = bool_decide (x ∈ l).
Proof.
  induction l as [|y l IH]; [done|]. cbn. rewrite IH. repeat case_bool_decide; cbn; try done; set_solver.
Qed.

Lemma quantifier_result_kleene kind ps : quantifier_result kind (tally ps) = tv (quantifier kind ps).
Proof.
  unfold quantifier_result, quantifier. cbn [trues falses unknowns tally].
  rewrite !filter_len_pos, fold_kor, fold_kand, fold_kor.
  assert (existsb (fun p => bool_decide (p = Some true)) (knot <$> ps) = existsb (fun p => bool_decide (p = Some false)) ps) as ->
    by (clear; induction ps as [|[[]|] ps IH]; cbn; by rewrite ?IH).
  assert (existsb (fun p => bool_decide (p = None)) (knot <$> ps) = existsb (fun p => bool_decide (p = None)) ps) as ->
    by (clear; induction ps as [|[[]|] ps IH]; cbn; by rewrite ?IH).
  case_bool_decide as Hany; [repeat case_match; done|]. cbn [negb].
  case_bool_decide as Hnone; [repeat case_match; done|].
  case_bool_decide as Hall; [repeat case_match; done|].
  pose proof (filter_len_pos (fun p => p = None) ps) as Hn. rewrite (existsb_elem None ps) in Hn.
  replace (1 <? Z.of_nat (length (filter (fun p => p = Some true) ps))) with
    (1 <? length (filter (fun p => p = Some true) ps))%nat
    by (destruct (Nat.ltb_spec 1 (length (filter (fun p => p = Some true) ps))); lia).
  replace (Z.of_nat (length (filter (fun p => p = Some true) ps)) =? 1) with
    (length (filter (fun p => p = Some true) ps) =? 1)%nat
    by (destruct (Nat.eqb_spec (length (filter (fun p => p = Some true) ps)) 1); lia).
  case_match; [done|]. rewrite <- Hn. zcases; try lia; done.
Qed.

(** An answer that is decided stays decided. *)
Definition counts_pos (n : counts) : Prop := 0 <= trues n /\ 0 <= falses n /\ 0 <= unknowns n.

Lemma decided_stays kind v n :
  decided kind n = true ->
  decided kind (count_outcome v n) = true /\ quantifier_result kind (count_outcome v n) = quantifier_result kind n.
Proof.
  unfold decided, quantifier_result, count_outcome.
  destruct (kind =s "any"), (kind =s "none"), (kind =s "all"); cbn [orb]; intros Hd;
    destruct (is_null v), (truthy v); cbn [trues falses unknowns];
    repeat match goal with |- context [?a <? ?b] => destruct (Z.ltb_spec a b); try lia end; done.
Qed.

Lemma evalQuantifier_evaluates (s : store) (kind : bytes) (lm : M value) (variable : bytes) (b : binding)
    (where_ : binding -> M value) (l : list value) (f : value -> value) :
  evaluates s lm (VList l) -> (forall x, x ∈ l -> evaluates s (where_ (<[variable := x]> b)) (f x)) ->
  evaluates s (evalQuantifier kind lm variable b where_) (tv (quantifier kind ((fun x => tri (f x)) <$> l))).
Proof.
  intros Hl Hw. rewrite <- quantifier_result_kleene.
  destruct (iter_loop_evaluates s (fun row _ n => v ← where_ row; let n := count_outcome v n in mret (decided kind n, n))
    (fun x n => count_outcome (f x) n) (decided kind) (quantifier_result kind) variable b b l (mkCounts 0 0 0)) as (n & He & En).
  - intros x Hx n. eapply evaluates_bind; [by apply Hw|]. apply evaluates_ret.
  - intros x n. apply decided_stays.
  - done.
  - rewrite fold_counts, add_counts_0 in En. eapply evaluates_bind.
    + eapply evaluates_bind; [exact Hl|]. eapply evaluates_bind; [exact He|]. apply evaluates_ret.
    + cbn beta iota. rewrite En. apply evaluates_ret.
Qed.

(** The logical operators of queries compute Kleene's three-valued logic.
    For operands that evaluate, AND, OR and NOT are the connectives (a
    non-boolean operand of AND or OR counts as false); IN is the disjunction of
    the equalities with the elements; any, all and none are the disjunction, the
    conjunction and the negated disjunction of the predicate over the whole
    list, although evaluation stops once the answer is decided, and single
    tells exactly one. *)
Theorem three_valued_logic (s : store) (b : binding) (e1 e2 : Expr) (v1 v2 : value) (x : bytes) (le w : Expr)
    (l : list value) (f : value -> value) (H1 : evaluates s (eval e1 b) v1) (H2 : evaluates s (eval e2 b) v2)
    (Hl : evaluates s (eval le b) (VList l))
    (Hw : forall v, v ∈ l -> evaluates s (eval w (<[x := v]> b)) (f v)) :
  evaluates s (eval (Binary (str "AND") e1 e2) b) (tv (kand (tri v1) (tri v2))) /\
  evaluates s (eval (Binary (str "OR") e1 e2) b) (tv (kor (tri v1) (tri v2))) /\
  (forall p, v1 = tv p -> evaluates s (eval (Unary (str "NOT") e1) b) (tv (knot p))) /\
  evaluates s (eval (Binary (str "IN") e1 le) b) (tv (foldr kor (Some false) (eq3 v1 <$> l))) /\
  (forall kind, evaluates s (eval (Quantifier kind x le w) b) (tv (quantifier kind ((fun v => tri (f v)) <$> l)))).
Proof.
  split_and!.
  - rewrite <- (bool_result_kleene false). eapply evaluates_bind; [exact H1|]. eapply evaluates_bind; [exact H2|]. apply evaluates_ret.
  - rewrite <- (bool_result_kleene true). eapply evaluates_bind; [exact H1|]. eapply evaluates_bind; [exact H2|]. apply evaluates_ret.
  - intros p ->. eapply evaluates_bind; [exact H1|]. destruct p as [[]|]; apply evaluates_ret.
  - eapply evaluates_bind; [exact H1|]. eapply evaluates_bind; [exact Hl|].
    pose proof (in_loop_kleene v1 l false) as Hin. cbv iota in Hin. intros c Hc. exists c. split; [|done].
    assert (kor (Some false) (foldr kor (Some false) (eq3 v1 <$> l)) = foldr kor (Some false) (eq3 v1 <$> l)) as E
      by (destruct (foldr kor _ _) as [[]|]; done).
    rewrite E in Hin. rewrite <- Hin. reflexivity.
  - intros kind. by apply evalQuantifier_evaluates.
Qed.
End eval.

#[local] Existing Instance plain_runtime.
Lemma three_valued_logic_witness :
  evaluates ∅ (eval (Quantifier (str "all") (str "x") (ListLiteral [Literal (VInt 1); Literal VNull; Literal (VInt 3)])
    (Binary (str "<") (Variable_ (str "x")) (Literal (VInt 3)))) ∅) (VBool false).
Proof.
  assert (forall (e : Expr) b v, (forall c, eval e b c = PRet (Ok v, c)) -> evaluates ∅ (eval e b) v) as Hpure.
  { intros e b v E c Hc. exists c. rewrite E. by split. }
  eapply (three_valued_logic ∅ ∅ (Literal VNull) (Literal VNull) VNull VNull (str "x")
    (ListLiteral [Literal (VInt 1); Literal VNull; Literal (VInt 3)]) _ [VInt 1; VNull; VInt 3]
    (fun v => compareOp (str "<") v (VInt 3))).
  - by apply Hpure.
  - by apply Hpure.
  - by apply Hpure.
  - intros v Hv. apply Hpure. intros c. set_unfold in Hv. by destruct_or! Hv; subst v.
Defined.
End Eval.
