(* ===== verification/Lexer.v ===== *)
(** * Lexer: from text to tokens

    src/query/parser/lexer.go and token.go.  The lexer is its remaining input;
    positions, and the text of messages, are left out.  The token list leaves
    out the final EOF: the parser reads the end of the list as EOF.  Which
    runes off ASCII are letters and digits is a parameter ([Unicode]). *)
From S2P Require Import Prelude Float64 FloatArith Values Scalars Text Keys Records Storage Catalog Graph Context.
Import Scalars Text Context.

Class Unicode := {
  unicode_letter : Z -> bool;     (* unicode.IsLetter off ASCII *)
  unicode_digit : Z -> bool       (* unicode.IsDigit off ASCII *)
}.

Module Lexer.

Inductive token :=
| tIdent (text : bytes)
| tInt (text : bytes) (val : Z)
| tFloat (val : Z)
| tString (val : bytes)
| tLParen | tRParen | tLBracket | tRBracket | tLBrace | tRBrace
| tColon | tComma | tDot | tDotDot | tPipe | tDollar | tSemi
| tPlus | tMinus | tStar | tSlash | tPercent
| tEq | tNeq | tLt | tLe | tGt | tGe | tRegex.
#[global] Instance token_eq_dec : EqDecision token.
Proof. solve_decision. Defined.

Section lexer.
Context `{Runtime, Unicode}.

Definition IsLetter (r : Z) : bool := if r <? 0x80 then between 65 r 90 || between 97 r 122 else unicode_letter r.
Definition IsDigit (r : Z) : bool := if r <? 0x80 then between 48 r 57 else unicode_digit r.
Definition isIdentStart (r : Z) : bool := (r =? 95) || IsLetter r.
Definition isIdentPart (r : Z) : bool := (r =? 95) || IsLetter r || IsDigit r.

(** The current rune (0 at the end), and the input after it. *)
Definition peekRune (s : bytes) : Z := match s with [] => 0 | _ => (decode_rune s).1 end.
Definition advance (s : bytes) : bytes := match s with [] => [] | _ => drop (decode_rune s).2 s end.
Definition peekAhead (n : nat) (s : bytes) : Z := default 0 (s !! n).
(** The text consumed between two positions. *)
Definition consumed (s rest : bytes) : bytes := take (length s - length rest) s.

(** ** Trivia *)
Fixpoint skip_line (fuel : nat) (s : bytes) : bytes :=
  match fuel, s with
  | S fuel, _ :: _ => if peekRune s =? 10 then s else skip_line fuel (advance s)
  | _, _ => s
  end.
Fixpoint skip_block (fuel : nat) (s : bytes) : res bytes :=
  match fuel, s with
  | S fuel, _ :: _ =>
      if (peekRune s =? 42) && (peekAhead 1 s =? 47) then Ok (advance (advance s))
      else skip_block fuel (advance s)
  | O, _ :: _ => Err ErrOutOfFuel
  | _, [] => Err ErrSyntax
  end.
Fixpoint skip_trivia (fuel : nat) (s : bytes) : res bytes :=
  match fuel, s with
  | S fuel, _ :: _ =>
      let r := peekRune s in
      if (r =? 32) || (r =? 9) || (r =? 13) || (r =? 10) then skip_trivia fuel (advance s)
      else if (r =? 47) && (peekAhead 1 s =? 47) then skip_trivia fuel (skip_line (length s) s)
      else if (r =? 47) && (peekAhead 1 s =? 42) then
        s ← skip_block (length s) (advance (advance s)); skip_trivia fuel s
      else Ok s
  | O, _ :: _ => Err ErrOutOfFuel
  | _, [] => Ok []
  end.
Definition skipTrivia (s : bytes) : res bytes := skip_trivia (length s) s.

(** ** Identifiers *)
Fixpoint skip_while (fuel : nat) (p : Z -> bool) (s : bytes) : bytes :=
  match fuel, s with
  | S fuel, _ :: _ => if p (peekRune s) then skip_while fuel p (advance s) else s
  | _, _ => s
  end.
Definition lexIdent (s : bytes) : token * bytes :=
  let rest := skip_while (length s) isIdentPart s in (tIdent (consumed s rest), rest).

Fixpoint lex_backtick (fuel : nat) (s text : bytes) : res (token * bytes) :=
  match fuel, s with
  | S fuel, _ :: _ =>
      let r := peekRune s in
      if r =? 96 then Ok (tIdent text, advance s) else lex_backtick fuel (advance s) (text ++ encode_rune r)
  | O, _ :: _ => Err ErrOutOfFuel
  | _, [] => Err ErrSyntax
  end.
Definition lexBacktickIdent (s : bytes) : res (token * bytes) := lex_backtick (length s) (advance s) [].

(** ** Numbers *)
Fixpoint lex_number (fuel : nat) (s : bytes) (isFloat : bool) : bool * bytes :=
  match fuel, s with
  | S fuel, _ :: _ =>
      let r := peekRune s in
      if IsDigit r then lex_number fuel (advance s) isFloat
      else if (r =? 46) && negb (peekAhead 1 s =? 46) then lex_number fuel (advance s) true
      else if (r =? 101) || (r =? 69) then
        let s := advance s in
        let c := peekRune s in
        lex_number fuel (if (c =? 43) || (c =? 45) then advance s else s) true
      else (isFloat, s)
  | _, _ => (isFloat, s)
  end.
Definition lexNumber (s : bytes) : res (token * bytes) :=
  let '(isFloat, rest) := lex_number (length s) s false in
  let text := consumed s rest in
  if isFloat then match ParseFloat text with Some f => Ok (tFloat f, rest) | None => Err ErrSyntax end
  else match ParseInt text with Some n => Ok (tInt text n, rest) | None => Err ErrSyntax end.

Definition lexDotOrNumber (s : bytes) : res (token * bytes) :=
  if peekAhead 1 s =? 46 then Ok (tDotDot, advance (advance s))
  else if between 48 (peekAhead 1 s) 57 then lexNumber s
  else Ok (tDot, advance s).

(** ** Strings *)
Definition escape (r : Z) : option Z :=
  if r =? 110 then Some 10 else if r =? 116 then Some 9 else if r =? 114 then Some 13
  else if r =? 92 then Some 92 else if r =? 39 then Some 39 else if r =? 34 then Some 34
  else if r =? 48 then Some 0 else None.
Fixpoint lex_string (fuel : nat) (quote : Z) (s text : bytes) : res (token * bytes) :=
  match fuel, s with
  | S fuel, _ :: _ =>
      let r := peekRune s in
      let s := advance s in
      if r =? quote then Ok (tString text, s)
      else if r =? 92 then
        match s with
        | [] => Err ErrSyntax
        | _ => match escape (peekRune s) with
               | Some b => lex_string fuel quote (advance s) (text ++ [b])
               | None => Err ErrSyntax
               end
        end
      else lex_string fuel quote s (text ++ encode_rune r)
  | O, _ :: _ => Err ErrOutOfFuel
  | _, [] => Err ErrSyntax
  end.
Definition lexString (s : bytes) : res (token * bytes) := lex_string (length s) (peekRune s) (advance s) [].

(** ** Operators *)
Definition punctuation : list (Z * token) :=
  [(40, tLParen); (41, tRParen); (91, tLBracket); (93, tRBracket); (123, tLBrace); (125, tRBrace); (58, tColon);
   (44, tComma); (124, tPipe); (36, tDollar); (59, tSemi); (43, tPlus); (45, tMinus); (42, tStar); (47, tSlash); (37, tPercent)].
Definition lexOperator (s : bytes) : res (token * bytes) :=
  let r := peekRune s in
  let rest := advance s in
  let c := peekRune rest in
  if r =? 61 then if c =? 126 then Ok (tRegex, advance rest) else Ok (tEq, rest)
  else if r =? 60 then
    if c =? 62 then Ok (tNeq, advance rest) else if c =? 61 then Ok (tLe, advance rest) else Ok (tLt, rest)
  else if r =? 62 then if c =? 61 then Ok (tGe, advance rest) else Ok (tGt, rest)
  else match find (fun e => e.1 =? r) punctuation with Some e => Ok (e.2, rest) | None => Err ErrSyntax end.

(** ** Tokens *)

(** [next] on input that is not empty and does not start with trivia. *)
Definition next (s : bytes) : res (token * bytes) :=
  let r := peekRune s in
  if r =? 96 then lexBacktickIdent s
  else if isIdentStart r then Ok (lexIdent s)
  else if IsDigit r then lexNumber s
  else if r =? 46 then lexDotOrNumber s
  else if (r =? 39) || (r =? 34) then lexString s
  else lexOperator s.

Fixpoint tokens (fuel : nat) (s : bytes) : res (list token) :=
  match fuel with
  | O => Err ErrOutOfFuel
  | S fuel =>
      s ← skipTrivia s;
      match s with
      | [] => Ok []
      | _ => '(t, s) ← next s; ts ← tokens fuel s; Ok (t :: ts)
      end
  end.
Definition tokenize (s : bytes) : res (list token) := tokens (S (length s)) s.
End lexer.
End Lexer.
