(* ===== verification/LexerLaws.v ===== *)
(** * LexerLaws: the lexer always answers, and reads back spelled tokens

    The fuel of Lexer.v is enough on every text, and a list of tokens written
    out with blanks between them is read as those tokens. *)
From S2P Require Import Prelude Float64 FloatArith Values Scalars Text Keys Records Storage Catalog Graph Context Lexer.
Import Scalars Text Context Lexer.

Module LexerLaws.
Section laws.
Context `{Runtime, Unicode}.

(** ** The lexer always answers *)
Lemma advance_shorter s : s <> [] -> (length (advance s) < length s)%nat.
Proof. intros Hs. pose proof (decode_rune_width s Hs). destruct s; [done|]. unfold advance. rewrite length_drop. lia. Qed.
Lemma advance_le s : (length (advance s) <= length s)%nat.
Proof. destruct s; [done|]. apply Nat.lt_le_incl, advance_shorter. done. Qed.

(** An answer that is not lack of fuel and leaves fewer than [n] bytes. *)
Definition answers {A : Type} (size : A -> nat) (n : nat) (r : res A) : Prop :=
  match r with Ok x => (size x < n)%nat | Err e => e <> ErrOutOfFuel end.
Abbreviation leaves := (answers (length : bytes -> nat)).
Abbreviation lexes := (answers (fun x : token * bytes => length x.2)).
Lemma answers_mono {A : Type} (size : A -> nat) n n' r : answers size n r -> (n <= n')%nat -> answers size n' r.
Proof. destruct r; cbn; [lia|done]. Qed.

Lemma skip_line_le fuel s : (length (skip_line fuel s) <= length s)%nat.
Proof.
  revert s. induction fuel as [|fuel IH]; intros [|b s]; cbn [skip_line]; try done. case_match; [done|].
  etrans; [apply IH|apply advance_le].
Qed.
Lemma skip_while_le fuel p s : (length (skip_while fuel p s) <= length s)%nat.
Proof.
  revert s. induction fuel as [|fuel IH]; intros [|b s]; cbn [skip_while]; try done. case_match; [|done].
  etrans; [apply IH|apply advance_le].
Qed.
Lemma skip_block_answers fuel s : (length s <= fuel)%nat -> leaves (S (length s)) (skip_block fuel s).
Proof.
  revert s. induction fuel as [|fuel IH]; intros [|b s] Hf; cbn [skip_block]; try (done || (cbn in Hf; lia)).
  pose proof (advance_shorter (b :: s) ltac:(done)). case_match.
  - cbn [answers]. pose proof (advance_le (advance (b :: s))). lia.
  - eapply answers_mono; [apply IH|]; lia.
Qed.
Lemma skip_trivia_answers fuel s : (length s <= fuel)%nat -> leaves (S (length s)) (skip_trivia fuel s).
Proof.
  revert s. induction fuel as [|fuel IH]; intros [|b s] Hf; cbn [skip_trivia]; try (cbn in *; lia).
  pose proof (advance_shorter (b :: s) ltac:(done)) as Ha. destruct (_ || _); [eapply answers_mono; [apply IH|]; lia|].
  destruct (_ && (_ =? 47)) eqn:E1; [|destruct (_ && (_ =? 42)); [|cbn [answers]; lia]].
  - assert (length (skip_line (length (b :: s)) (b :: s)) <= length (advance (b :: s)))%nat.
    { cbn [length skip_line]. apply andb_true_iff in E1 as [E1%Z.eqb_eq _]. rewrite E1. apply skip_line_le. }
    eapply answers_mono; [apply IH|]; lia.
  - pose proof (advance_le (advance (b :: s))).
    pose proof (skip_block_answers (length (b :: s)) (advance (advance (b :: s))) ltac:(lia)) as Hb.
    destruct (skip_block _ _) as [s'|]; [|done]. cbn [answers] in Hb. change (mbind (M := res) ?f (Ok ?x)) with (f x). cbv beta.
    eapply answers_mono; [apply IH|]; lia.
Qed.
Lemma lex_backtick_answers fuel s text : (length s <= fuel)%nat -> lexes (S (length s)) (lex_backtick fuel s text).
Proof.
  revert s text. induction fuel as [|fuel IH]; intros [|b s] text Hf; cbn [lex_backtick]; try (done || (cbn in *; lia)).
  pose proof (advance_shorter (b :: s) ltac:(done)). case_match; [cbn [answers snd]; lia|]. eapply answers_mono; [apply IH|]; lia.
Qed.
Lemma lex_string_answers fuel q s text : (length s <= fuel)%nat -> lexes (S (length s)) (lex_string fuel q s text).
Proof.
  revert s text. induction fuel as [|fuel IH]; intros [|b s] text Hf; cbn [lex_string]; try (done || (cbn in *; lia)).
  pose proof (advance_shorter (b :: s) ltac:(done)) as Ha. pose proof (advance_le (advance (b :: s))).
  destruct (_ =? q); [cbn [answers snd]; lia|]. destruct (_ =? 92); [|eapply answers_mono; [apply IH|]; lia].
  destruct (advance (b :: s)) eqn:E; [done|]. rewrite <- E in *. destruct (escape _); [|done]. eapply answers_mono; [apply IH|]; lia.
Qed.
Lemma lex_number_le fuel s f : (length (lex_number fuel s f).2 <= length s)%nat.
Proof.
  revert s f. induction fuel as [|fuel IH]; intros [|b s] f; cbn [lex_number]; try done.
  pose proof (advance_le (b :: s)). pose proof (advance_le (advance (b :: s))).
  repeat case_match; cbn [snd]; try done; (etrans; [apply IH|]); lia.
Qed.

Lemma lexNumber_answers s : s <> [] -> IsDigit (peekRune s) = true \/ (peekRune s = 46 /\ peekAhead 1 s <> 46) -> lexes (length s) (lexNumber s).
Proof.
  intros Hs Hd. unfold lexNumber. assert (length (lex_number (length s) s false).2 < length s)%nat as Hl.
  { destruct s as [|b s]; [done|]. cbn [length lex_number]. pose proof (advance_shorter (b :: s) ltac:(done)) as Ha. cbn [length] in Ha.
    destruct (IsDigit (peekRune (b :: s))) eqn:E; [eapply Nat.le_lt_trans; [apply lex_number_le|done]|].
    destruct Hd as [|[-> Hd%Z.eqb_neq]]; [done|]. rewrite Hd, Z.eqb_refl. cbn [andb negb]. eapply Nat.le_lt_trans; [apply lex_number_le|done]. }
  destruct (lex_number _ _ _) as [isFloat rest]. cbn [snd] in Hl. repeat case_match; done || exact Hl.
Qed.
Lemma lexIdent_shorter s : s <> [] -> isIdentStart (peekRune s) = true -> (length (lexIdent s).2 < length s)%nat.
Proof.
  intros Hs Hi. unfold lexIdent. cbn [snd]. destruct s as [|b s]; [done|]. cbn [length skip_while].
  pose proof (advance_shorter (b :: s) ltac:(done)). assert (isIdentPart (peekRune (b :: s)) = true) as ->.
  { unfold isIdentPart. unfold isIdentStart in Hi. by rewrite Hi. }
  eapply Nat.le_lt_trans; [apply skip_while_le|done].
Qed.
Lemma next_answers s : s <> [] -> lexes (length s) (next s).
Proof.
  intros Hs. pose proof (advance_shorter s Hs). pose proof (advance_le (advance s)). unfold next.
  destruct (_ =? 96); [eapply answers_mono; [apply lex_backtick_answers|]; lia|].
  destruct (isIdentStart _) eqn:Ei; [by apply lexIdent_shorter|]. destruct (IsDigit _) eqn:Ed; [apply lexNumber_answers; auto|].
  destruct (Z.eqb_spec (peekRune s) 46) as [E46|].
  { unfold lexDotOrNumber. destruct (Z.eqb_spec (peekAhead 1 s) 46); [cbn [answers snd]; lia|]. case_match; [apply lexNumber_answers; auto|cbn [answers snd]; lia]. }
  destruct (_ || _); [eapply answers_mono; [apply lex_string_answers|]; lia|].
  unfold lexOperator. pose proof (advance_le (advance s)). repeat case_match; cbn [answers snd]; done || lia.
Qed.
Lemma tokens_answer fuel s : (length s < fuel)%nat -> tokens fuel s <> Err ErrOutOfFuel.
Proof.
  revert s. induction fuel as [|fuel IH]; intros s Hf; [lia|]. cbn [tokens].
  pose proof (skip_trivia_answers (length s) s ltac:(lia)) as Ht. fold (skipTrivia s) in Ht.
  destruct (skipTrivia s) as [[|b s']|]; [done| |intros [= ->]; by apply Ht]. cbn [answers] in Ht. change (mbind (M := res) ?f (Ok ?x)) with (f x). cbv beta iota.
  pose proof (next_answers (b :: s') ltac:(done)) as Hn. destruct (next (b :: s')) as [[t s'']|]; [|intros [= ->]; by apply Hn]. cbn [answers snd] in Hn.
  change (mbind (M := res) ?f (Ok ?x)) with (f x). cbv beta iota. specialize (IH s'' ltac:(lia)). by destruct (tokens fuel s'').
Qed.
Lemma tokenize_answers s : tokenize s <> Err ErrOutOfFuel.
Proof. apply tokens_answer. lia. Qed.

(** ** Spelling tokens *)
Definition plain_name (text : bytes) : bool :=
  match text with [] => false | b :: _ => isIdentStart b && forallb (fun b => (b <? 0x80) && isIdentPart b) text end.
Definition utf8 (s : bytes) : bool := forallb (fun b => between 0 b 255) s && bool_decide (of_runes (runes s) = s).
Definition spell_rune (r : Z) : bytes := if (r =? 39) || (r =? 92) then [92; r] else encode_rune r.
Definition spell (t : token) : bytes :=
  match t with
  | tIdent text => if plain_name text then text else 96 :: text ++ [96]
  | tInt text _ => text
  | tString s => 39 :: concat (spell_rune <$> runes s) ++ [39]
  | tLParen => str "(" | tRParen => str ")" | tLBracket => str "[" | tRBracket => str "]" | tLBrace => str "{" | tRBrace => str "}"
  | tColon => str ":" | tComma => str "," | tDot => str "." | tDotDot => str ".." | tPipe => str "|" | tDollar => str "$" | tSemi => str ";"
  | tPlus => str "+" | tMinus => str "-" | tStar => str "*" | tSlash => str "/" | tPercent => str "%"
  | tEq => str "=" | tNeq => str "<>" | tLt => str "<" | tLe => str "<=" | tGt => str ">" | tGe => str ">=" | tRegex => str "=~"
  | tFloat _ => []
  end.
(** The tokens that have a spelling here: any name and any string that is
    UTF-8 (a name without a backtick), numbers without a sign; floats have
    none, their syntax is a parameter. *)
Definition spellable (t : token) : bool :=
  match t with
  | tIdent text => plain_name text || (utf8 text && forallb (fun r => negb (r =? 96)) (runes text))
  | tInt text n => negb (bool_decide (text = [])) && forallb (fun b => between 48 b 57) text && bool_decide (ParseInt text = Some n)
  | tString s => utf8 s
  | tFloat _ => false
  | _ => true
  end.
Definition text_of (ts : list token) : bytes := concat ((fun t => spell t ++ [32]) <$> ts).

Lemma ascii_step b s : b < 0x80 -> peekRune (b :: s) = b /\ advance (b :: s) = s.
Proof. intros Hb. unfold peekRune, advance, decode_rune. by rewrite (proj2 (Z.ltb_lt b 0x80)). Qed.
Lemma rune_step r s : valid_rune r -> encode_rune r ++ s <> [] /\ peekRune (encode_rune r ++ s) = r /\ advance (encode_rune r ++ s) = s.
Proof.
  intros Hr. pose proof (encode_rune_len r) as Hl. pose proof (decode_encode r s Hr) as E. destruct (encode_rune r) as [|b bs]; [cbn in Hl; lia|].
  cbn [app] in *. unfold peekRune, advance. rewrite E. cbn [fst snd]. split_and!; [done|done|]. exact (drop_app_length (b :: bs) s).
Qed.
Lemma consumed_app l rest : consumed (l ++ rest) rest = l.
Proof. unfold consumed. rewrite length_app, Nat.add_sub. by rewrite take_app_length. Qed.

Lemma skip_while_ascii p l rest : Forall (fun b => b < 0x80 /\ p b = true) l -> p 32 = false -> forall fuel, (length (l ++ 32%Z :: rest) <= fuel)%nat ->
  skip_while fuel p (l ++ 32 :: rest) = 32 :: rest.
Proof.
  intros Hl Hp. induction Hl as [|b l [Hb Hpb] Hl IH]; intros [|fuel] Hf; cbn in Hf; try lia.
  - cbn [app skip_while]. destruct (ascii_step 32 rest ltac:(lia)) as [-> _]. by rewrite Hp.
  - cbn [app skip_while]. destruct (ascii_step b (l ++ 32 :: rest) Hb) as [-> ->]. rewrite Hpb. apply IH. lia.
Qed.
Lemma lexIdent_plain text rest : plain_name text = true -> next (text ++ 32 :: rest) = Ok (tIdent text, 32 :: rest).
Proof.
  unfold plain_name. destruct text as [|b text]; [done|]. intros [Hs Hall]%andb_true_iff.
  assert (Forall (fun b => b < 0x80 /\ isIdentPart b = true) (b :: text)) as Hp.
  { apply Forall_forall. intros x Hx. rewrite forallb_forall in Hall. specialize (Hall x (proj1 (list_elem_of_In _ _) Hx)).
    apply andb_true_iff in Hall as [?%Z.ltb_lt ?]. done. }
  inversion Hp as [|? ? [Hb _] _]; subst. unfold next. cbn [app]. destruct (ascii_step b (text ++ 32 :: rest) Hb) as [-> _]. rewrite Hs.
  assert (b =? 96 = false) as ->.
  { apply Z.eqb_neq. intros ->. done. }
  unfold lexIdent. change (b :: text ++ 32 :: rest) with ((b :: text) ++ 32 :: rest). rewrite skip_while_ascii by (done || lia).
  by rewrite consumed_app.
Qed.
Lemma lex_backtick_runes rs : Forall valid_rune rs -> forallb (fun r => negb (r =? 96)) rs = true -> forall fuel text rest,
  (length (of_runes rs ++ 96%Z :: rest) <= fuel)%nat -> lex_backtick fuel (of_runes rs ++ 96 :: rest) text = Ok (tIdent (text ++ of_runes rs), rest).
Proof.
  induction 1 as [|r rs Hr Hrs IH]; intros Hall [|fuel] text rest Hf.
  - cbn in Hf. lia.
  - cbn [of_runes fmap list_fmap concat app lex_backtick]. destruct (ascii_step 96 rest ltac:(lia)) as [-> ->]. by rewrite app_nil_r.
  - change (of_runes (r :: rs)) with (encode_rune r ++ of_runes rs) in *. rewrite !length_app in Hf. pose proof (encode_rune_len r). lia.
  - change (of_runes (r :: rs)) with (encode_rune r ++ of_runes rs) in *. rewrite <- app_assoc in *. cbn [forallb] in Hall. apply andb_true_iff in Hall as [H96 Hall].
    pose proof (encode_rune_len r). rewrite length_app in Hf.
    destruct (rune_step r (of_runes rs ++ 96 :: rest) Hr) as (Hne & Hp & Ha). cbn [lex_backtick].
    destruct (encode_rune r ++ of_runes rs ++ 96 :: rest) eqn:E; [done|]. rewrite Hp, Ha. apply negb_true_iff in H96. rewrite H96.
    rewrite IH by (done || lia). by rewrite <- app_assoc.
Qed.
Lemma spell_rune_len r : (1 <= length (spell_rune r))%nat.
Proof. unfold spell_rune. pose proof (encode_rune_len r). case_match; [cbn; lia|done]. Qed.
Lemma spell_rune_step fuel r s text : valid_rune r ->
  lex_string (S fuel) 39 (spell_rune r ++ s) text = lex_string fuel 39 s (text ++ encode_rune r).
Proof.
  intros Hr. unfold spell_rune. destruct (Z.eqb_spec r 39) as [->|H39]; [done|]. destruct (Z.eqb_spec r 92) as [->|H92]; [done|]. cbn [orb].
  destruct (rune_step r s Hr) as (Hne & Hp & Ha). cbn [lex_string]. destruct (encode_rune r ++ s); [done|].
  rewrite Hp, Ha. by rewrite (proj2 (Z.eqb_neq _ _) H39), (proj2 (Z.eqb_neq _ _) H92).
Qed.
Lemma lex_string_runes rs : Forall valid_rune rs -> forall fuel text rest, (length (concat (spell_rune <$> rs) ++ 39%Z :: rest) <= fuel)%nat ->
  lex_string fuel 39 (concat (spell_rune <$> rs) ++ 39 :: rest) text = Ok (tString (text ++ of_runes rs), rest).
Proof.
  induction 1 as [|r rs Hr Hrs IH]; intros [|fuel] text rest Hf.
  - cbn in Hf. lia.
  - cbn [fmap list_fmap concat app lex_string]. destruct (ascii_step 39 rest ltac:(lia)) as [-> ->]. by rewrite app_nil_r.
  - cbn [fmap list_fmap concat] in Hf. rewrite !length_app in Hf. pose proof (spell_rune_len r). lia.
  - cbn [fmap list_fmap concat] in *. rewrite <- app_assoc in *. rewrite spell_rune_step by done. rewrite length_app in Hf. pose proof (spell_rune_len r).
    rewrite IH by lia. change (of_runes (r :: rs)) with (encode_rune r ++ of_runes rs). by rewrite <- app_assoc.
Qed.
Lemma lex_number_digits ds rest : Forall (fun b => between 48 b 57 = true) ds -> forall fuel, (length (ds ++ 32%Z :: rest) <= fuel)%nat ->
  lex_number fuel (ds ++ 32 :: rest) false = (false, 32 :: rest).
Proof.
  induction 1 as [|b ds Hb Hds IH]; intros [|fuel] Hf; cbn in Hf; try lia; cbn [app lex_number].
  - by destruct (ascii_step 32 rest ltac:(lia)) as [-> ->].
  - assert (b < 0x80) as Hlt by (unfold between in Hb; lia). destruct (ascii_step b (ds ++ 32 :: rest) Hlt) as [-> ->].
    assert (IsDigit b = true) as -> by (unfold IsDigit; by rewrite (proj2 (Z.ltb_lt b 0x80))). apply IH. lia.
Qed.
Lemma next_digits ds n rest : ds <> [] -> Forall (fun b => between 48 b 57 = true) ds -> ParseInt ds = Some n -> next (ds ++ 32 :: rest) = Ok (tInt ds n, 32 :: rest).
Proof.
  intros Hne Hds Hn. destruct ds as [|b ds]; [done|]. inversion Hds as [|? ? Hb _]; subst. pose proof Hb as Hb'. unfold between in Hb'.
  unfold next. cbn [app]. destruct (ascii_step b (ds ++ 32 :: rest) ltac:(lia)) as [-> _].
  assert (b =? 96 = false /\ isIdentStart b = false /\ IsDigit b = true) as (-> & -> & ->).
  { unfold isIdentStart, IsLetter, IsDigit. rewrite (proj2 (Z.ltb_lt b 0x80)) by lia. split_and!; [lia| |done]. unfold between. lia. }
  unfold lexNumber. change (b :: ds ++ 32 :: rest) with ((b :: ds) ++ 32 :: rest). rewrite lex_number_digits by (done || lia).
  rewrite consumed_app. by rewrite Hn.
Qed.

Lemma utf8_runes s : utf8 s = true -> Forall valid_rune (runes s) /\ of_runes (runes s) = s.
Proof.
  unfold utf8. intros [Hb E%bool_decide_eq_true]%andb_true_iff. split; [|done]. apply runes_valid, Forall_forall. intros b Hin.
  rewrite forallb_forall in Hb. specialize (Hb b (proj1 (list_elem_of_In _ _) Hin)). unfold between, byte_ok in *. lia.
Qed.
Lemma next_spell t rest : spellable t = true -> next (spell t ++ 32 :: rest) = Ok (t, 32 :: rest).
Proof.
  destruct t as [text|text n|x|s| | | | | | | | | | | | | | | | | | | | | | | | |]; try done; cbn [spellable spell].
  - destruct (plain_name text) eqn:Hp; [intros _; by apply lexIdent_plain|]. cbn [orb]. intros [[Hv E]%utf8_runes H96]%andb_true_iff.
    cbn [app]. unfold next. destruct (ascii_step 96 ((text ++ [96]) ++ 32 :: rest) ltac:(lia)) as [-> Ha]. cbn [Z.eqb Pos.eqb]. unfold lexBacktickIdent. rewrite Ha.
    rewrite <- app_assoc. cbn [app]. rewrite <- E at 1 2. rewrite lex_backtick_runes; [by rewrite E|done|done|cbn; lia].
  - intros [[Hne%negb_true_iff Hds]%andb_true_iff Hn%bool_decide_eq_true]%andb_true_iff. apply bool_decide_eq_false in Hne.
    apply next_digits; [done| |done]. apply Forall_forall. intros b Hb. rewrite forallb_forall in Hds. by apply Hds, list_elem_of_In.
  - intros [Hv E]%utf8_runes. cbn [app]. unfold next.
    destruct (ascii_step 39 ((concat (spell_rune <$> runes s) ++ [39]) ++ 32 :: rest) ltac:(lia)) as [Hp Ha]. rewrite Hp.
    change (lexString (39 :: (concat (spell_rune <$> runes s) ++ [39]) ++ 32 :: rest) = Ok (tString s, 32 :: rest)).
    unfold lexString. rewrite Hp, Ha, <- app_assoc. cbn [app]. rewrite lex_string_runes; [by rewrite E|done|cbn; lia].
Qed.
(** A spelled token does not start with a blank or a comment. *)
Definition trivial_start (s : bytes) : bool :=
  let r := peekRune s in
  (r =? 32) || (r =? 9) || (r =? 13) || (r =? 10) || ((r =? 47) && ((peekAhead 1 s =? 47) || (peekAhead 1 s =? 42))).
Lemma skipTrivia_none s : trivial_start s = false -> skipTrivia s = Ok s.
Proof.
  unfold trivial_start, skipTrivia. intros Ht. apply orb_false_iff in Ht as [Hb Hc]. destruct s as [|b s]; [done|]. cbn [length skip_trivia]. rewrite Hb.
  destruct (_ =? 47); [|done]. cbn [andb] in *. by apply orb_false_iff in Hc as [-> ->].
Qed.
Lemma spell_start t rest : spellable t = true -> trivial_start (spell t ++ 32 :: rest) = false /\ spell t <> [].
Proof.
  destruct t as [text|text n|x|s| | | | | | | | | | | | | | | | | | | | | | | | |]; try done; cbn [spellable spell].
  - destruct (plain_name text) eqn:Hp; [intros _|done]. unfold plain_name in Hp. destruct text as [|b text]; [done|]. split; [|done].
    cbn [forallb] in Hp. rewrite !andb_true_iff in Hp. destruct Hp as [Hs [[Hb%Z.ltb_lt _] _]]. unfold trivial_start. cbn [app].
    destruct (ascii_step b (text ++ 32 :: rest) Hb) as [-> _]. unfold isIdentStart, IsLetter in Hs. rewrite (proj2 (Z.ltb_lt b 0x80)) in Hs by done. unfold between in Hs. lia.
  - intros [[Hne%negb_true_iff Hds]%andb_true_iff _]%andb_true_iff. apply bool_decide_eq_false in Hne. destruct text as [|b text]; [done|]. split; [|done].
    cbn [forallb] in Hds. apply andb_true_iff in Hds as [Hb _]. unfold between in Hb. unfold trivial_start. cbn [app].
    destruct (ascii_step b (text ++ 32 :: rest) ltac:(lia)) as [-> _]. lia.
Qed.
Lemma tokens_text ts : forallb spellable ts = true -> forall fuel, (length (text_of ts) < fuel)%nat ->
  tokens fuel (text_of ts) = Ok ts /\ (tokens fuel (32 :: text_of ts) = Ok ts).
Proof.
  induction ts as [|t ts IH]; intros Hts [|fuel] Hf; try lia; [done|]. cbn [forallb] in Hts. apply andb_true_iff in Hts as [Ht Hts].
  destruct (spell_start t (text_of ts) Ht) as [Hstart Hne]. assert (1 <= length (spell t))%nat by (destruct (spell t); [done|cbn; lia]).
  assert (text_of (t :: ts) = spell t ++ 32 :: text_of ts) as E by (unfold text_of; cbn [fmap list_fmap concat]; by rewrite <- app_assoc).
  rewrite E in *. rewrite length_app in Hf. cbn [length] in Hf. pose proof (skipTrivia_none _ Hstart) as Hskip.
  assert (tokens (S fuel) (spell t ++ 32 :: text_of ts) = Ok (t :: ts)) as Hok.
  { cbn [tokens]. rewrite Hskip. change (mbind (M := res) ?f (Ok ?x)) with (f x). cbv beta. destruct (spell t ++ 32 :: text_of ts) eqn:El; [by destruct (spell t)|].
    rewrite <- El, (next_spell t _ Ht). change (mbind (M := res) ?f (Ok ?x)) with (f x). cbv beta iota. by rewrite (proj2 (IH Hts fuel ltac:(lia))). }
  split; [done|]. by rewrite <- Hok.
Qed.
Lemma tokenize_text ts : forallb spellable ts = true -> tokenize (text_of ts) = Ok ts.
Proof. intros Hts. apply tokens_text; [done|lia]. Qed.
End laws.
End LexerLaws.
