(* ===== verification/Parser.v ===== *)
(** * Parser: from tokens to queries

    src/query/parser/parser.go.  A parsing function maps the remaining tokens to
    a result and the tokens after it; the end of the list is EOF, which is never
    consumed.  The recursion of the source is bounded by fuel: expressions nest
    at most as deep as there are tokens, and a loop runs at most once per token
    ([ParserLaws.v] shows that this is enough on every input). *)
From S2P Require Import Prelude Float64 FloatArith Values Ast Scalars Text Keys Records Storage Catalog Graph Context Functions Lexer.
Import Ast Scalars Text Context Functions Lexer.

Module Parser.

(** ** The parser as a monad *)
Definition P (A : Type) : Type := list token -> res (A * list token).
#[global] Instance P_ret : MRet P := fun A x l => Ok (x, l).
#[global] Instance P_bind : MBind P := fun A B f p l => '(x, l) ← p l; f x l.
Definition err {A : Type} : P A := fun _ => Err ErrSyntax.

(** [peek n], [None] for EOF. *)
Definition peek (n : nat) (l : list token) : option token := l !! n.
Definition at_ (t : token) (l : list token) : bool := bool_decide (peek 0 l = Some t).
Definition peek_is (n : nat) (t : token) (l : list token) : bool := bool_decide (peek n l = Some t).
Definition is_ident (o : option token) : bool := match o with Some (tIdent _) => true | _ => false end.
Definition at_ident (l : list token) : bool := is_ident (peek 0 l).

(** [strings.EqualFold] with an ASCII keyword: besides the ASCII letters, the
    long s and the Kelvin sign fold to ASCII. *)
Definition fold_rune (r : Z) : Z :=
  if between 65 r 90 then r + 32 else if r =? 0x17F then 115 else if r =? 0x212A then 107 else r.
Definition EqualFold (s kw : bytes) : bool := bool_decide (fold_rune <$> runes s = fold_rune <$> runes kw).

Definition peekKw (n : nat) (kw : String.string) (l : list token) : bool :=
  match peek n l with Some (tIdent text) => EqualFold text (str kw) | _ => false end.
Definition atKw (kw : String.string) (l : list token) : bool := peekKw 0 kw l.

Definition skip (n : nat) : P unit := fun l => Ok (tt, drop n l).
Definition advance : P unit := skip 1.
Definition look {A : Type} (f : list token -> P A) : P A := fun l => f l l.

Definition expect (t : token) : P unit := look (fun l => if at_ t l then advance else err).
Definition expectKw (kw : String.string) : P unit := look (fun l => if atKw kw l then advance else err).
Definition identName : P bytes := fun l => match l with tIdent text :: l' => Ok (text, l') | _ => Err ErrSyntax end.

(** If the next token is [t] (or the keyword), consume it and go on. *)
Definition when_ {A : Type} (t : token) (yes no : P A) : P A := look (fun l => if at_ t l then advance ≫= fun _ => yes else no).
Definition whenKw {A : Type} (kw : String.string) (yes no : P A) : P A := look (fun l => if atKw kw l then advance ≫= fun _ => yes else no).

(** [for { item; if !p.at(tComma) { break }; p.advance() }]. *)
Fixpoint comma_loop {A : Type} (fuel : nat) (item : P A) : P (list A) :=
  match fuel with
  | O => fun _ => Err ErrOutOfFuel
  | S fuel => x ← item; xs ← when_ tComma (comma_loop fuel item) (mret []); mret (x :: xs)
  end.
Definition comma_list {A : Type} (item : P A) : P (list A) := look (fun l => comma_loop (S (length l)) item).

(** ** Patterns *)
Fixpoint labels_loop (fuel : nat) : P (list bytes) :=
  match fuel with
  | O => fun _ => Err ErrOutOfFuel
  | S fuel => when_ tColon (name ← identName; rest ← labels_loop fuel; mret (name :: rest)) (mret [])
  end.
Definition parseLabels : P (list bytes) := look (fun l => labels_loop (S (length l))).

(** [m[key] = v]. *)
Fixpoint entry_set {A : Type} (k : bytes) (v : A) (m : list (bytes * A)) : list (bytes * A) :=
  match m with
  | [] => [(k, v)]
  | (k', v') :: m' => if bool_decide (k = k') then (k, v) :: m' else (k', v') :: entry_set k v m'
  end.

Section expressions.
Context `{Runtime}.

Section step.
Variable pexpr : Z -> P Expr.

Definition map_entry : P (bytes * Expr) := k ← identName; _ ← expect tColon; v ← pexpr 0; mret (k, v).
Definition parsePropertyMap : P (list (bytes * Expr)) :=
  _ ← expect tLBrace;
  es ← look (fun l => if at_ tRBrace l then mret [] else comma_list map_entry);
  _ ← expect tRBrace;
  mret (foldl (fun m e => entry_set e.1 e.2 m) [] es).

Definition parseInClause : P (bytes * Expr) := v ← identName; _ ← expectKw "IN"; e ← pexpr 0; mret (v, e).

Definition optKw (kw : String.string) : P (option Expr) := whenKw kw (e ← pexpr 0; mret (Some e)) (mret None).

Definition parseListComprehension : P Expr :=
  _ ← advance;
  '(v, l) ← parseInClause;
  w ← optKw "WHERE";
  m ← when_ tPipe (e ← pexpr 0; mret (Some e)) (mret None);
  _ ← expect tRBracket;
  mret (ListComprehension v l w m).
Definition parseListLiteral : P Expr := look (fun l =>
  if is_ident (peek 1 l) && peekKw 2 "IN" l then parseListComprehension
  else
    _ ← advance;
    es ← look (fun l => if at_ tRBracket l then mret [] else comma_list (pexpr 0));
    _ ← expect tRBracket;
    mret (ListLiteral es)).

Fixpoint whens (fuel : nat) : P (list (Expr * Expr)) :=
  match fuel with
  | O => fun _ => Err ErrOutOfFuel
  | S fuel => whenKw "WHEN" (c ← pexpr 0; _ ← expectKw "THEN"; r ← pexpr 0; rest ← whens fuel; mret ((c, r) :: rest)) (mret [])
  end.
Definition parseCase : P Expr :=
  _ ← advance;
  operand ← look (fun l => if atKw "WHEN" l then mret None else e ← pexpr 0; mret (Some e));
  ws ← look (fun l => whens (S (length l)));
  if bool_decide (ws = []) then err
  else els ← optKw "ELSE"; _ ← expectKw "END"; mret (Case operand ws els).

Definition is_quantifier (kind : bytes) : bool := bool_decide (kind ∈ str <$> ["any"; "all"; "none"; "single"]%string).
Definition call_args (name : bytes) : P Expr :=
  distinct ← whenKw "DISTINCT" (mret true) (mret false);
  '(star, args) ← when_ tStar (mret (true, [])) (look (fun l =>
    if at_ tRParen l then mret (false, []) else es ← comma_list (pexpr 0); mret (false, es)));
  _ ← expect tRParen;
  mret (FunctionCall name distinct star args).
Definition parseFunctionCall : P Expr :=
  name ← identName;
  _ ← expect tLParen;
  look (fun l =>
    if is_quantifier (ToLower name) && at_ident l && peekKw 1 "IN" l then
      '(v, e) ← parseInClause;
      _ ← expectKw "WHERE";
      w ← pexpr 0;
      _ ← expect tRParen;
      mret (Quantifier (ToLower name) v e w)
    else call_args name).

Definition paramName : P bytes := fun l =>
  match l with tIdent text :: l' | tInt text _ :: l' => Ok (text, l') | _ => Err ErrSyntax end.

Definition parseIdent (text : bytes) : P Expr :=
  if EqualFold text (str "true") then _ ← advance; mret (Literal (VBool true))
  else if EqualFold text (str "false") then _ ← advance; mret (Literal (VBool false))
  else if EqualFold text (str "null") then _ ← advance; mret (Literal VNull)
  else if EqualFold text (str "case") then parseCase
  else look (fun l => if peek_is 1 tLParen l then parseFunctionCall else _ ← advance; mret (Variable_ text)).

Definition parsePrimary : P Expr := look (fun l =>
  match peek 0 l with
  | Some (tInt _ n) => _ ← advance; mret (Literal (VInt n))
  | Some (tFloat f) => _ ← advance; mret (Literal (VFloat f))
  | Some (tString s) => _ ← advance; mret (Literal (VStr s))
  | Some tDollar => _ ← advance; name ← paramName; mret (Param name)
  | Some tLParen => _ ← advance; e ← pexpr 0; _ ← expect tRParen; mret e
  | Some tLBracket => parseListLiteral
  | Some tLBrace => m ← parsePropertyMap; mret (MapLiteral m)
  | Some (tIdent text) => parseIdent text
  | _ => err
  end).

Definition parseSubscript (target : Expr) : P Expr :=
  _ ← advance;
  let slice (from : option Expr) : P Expr :=
    _ ← advance;
    to_ ← look (fun l => if at_ tRBracket l then mret None else e ← pexpr 0; mret (Some e));
    _ ← expect tRBracket;
    mret (Slice target from to_) in
  look (fun l =>
    if at_ tDotDot l then slice None
    else
      e ← pexpr 0;
      look (fun l => if at_ tDotDot l then slice (Some e) else _ ← expect tRBracket; mret (Subscript target e))).

Fixpoint parsePostfix (fuel : nat) (left_ : Expr) : P Expr :=
  match fuel with
  | O => fun _ => Err ErrOutOfFuel
  | S fuel => look (fun l =>
      if at_ tLBracket l then e ← parseSubscript left_; parsePostfix fuel e
      else if at_ tDot l then _ ← advance; k ← identName; parsePostfix fuel (PropertyAccess left_ k)
      else if at_ tColon l then labels ← parseLabels; mret (LabelsPredicate left_ labels)
      else mret left_)
  end.
Definition postfix (e : Expr) : P Expr := look (fun l => parsePostfix (S (length l)) e).

Definition bpCompare : Z := 4.
Definition bpNot : Z := 3.
Definition bpUnaryMinus : Z := 7.

Definition parsePrefix : P Expr := look (fun l =>
  if atKw "NOT" l then _ ← advance; e ← pexpr bpNot; mret (Unary (str "NOT") e)
  else if at_ tMinus l then _ ← advance; e ← pexpr bpUnaryMinus; mret (Unary (str "-") e)
  else e ← parsePrimary; postfix e).

(** The binding power and the name of the infix operator at hand. *)
Definition infixBP (l : list token) : option (Z * bytes) :=
  match peek 0 l with
  | Some tStar => Some (6, str "*")
  | Some tSlash => Some (6, str "/")
  | Some tPercent => Some (6, str "%")
  | Some tPlus => Some (5, str "+")
  | Some tMinus => Some (5, str "-")
  | Some tEq => Some (4, str "=")
  | Some tNeq => Some (4, str "<>")
  | Some tLt => Some (4, str "<")
  | Some tLe => Some (4, str "<=")
  | Some tGt => Some (4, str ">")
  | Some tGe => Some (4, str ">=")
  | Some tRegex => Some (4, str "=~")
  | _ => if atKw "AND" l then Some (2, str "AND") else if atKw "OR" l then Some (1, str "OR") else None
  end.
Definition matchKeywordInfix (l : list token) : option (bytes * nat) :=
  if atKw "STARTS" l && peekKw 1 "WITH" l then Some (str "STARTS WITH", 2%nat)
  else if atKw "ENDS" l && peekKw 1 "WITH" l then Some (str "ENDS WITH", 2%nat)
  else if atKw "CONTAINS" l then Some (str "CONTAINS", 1%nat)
  else if atKw "IN" l then Some (str "IN", 1%nat)
  else None.
(** IS NULL and IS NOT NULL: the operator and its length in tokens. *)
Definition isNull (l : list token) : option (bytes * nat) :=
  if atKw "IS" l then
    if peekKw 1 "NULL" l then Some (str "IS NULL", 2%nat)
    else if peekKw 1 "NOT" l && peekKw 2 "NULL" l then Some (str "IS NOT NULL", 3%nat)
    else None
  else None.

Fixpoint infix_loop (fuel : nat) (minBP : Z) (left_ : Expr) : P Expr :=
  match fuel with
  | O => fun _ => Err ErrOutOfFuel
  | S fuel => look (fun l =>
      match (if minBP <=? bpCompare then isNull l else None) with
      | Some (op, n) => _ ← skip n; infix_loop fuel minBP (Unary op left_)
      | None =>
          match (if minBP <=? bpCompare then matchKeywordInfix l else None) with
          | Some (op, n) => _ ← skip n; r ← pexpr (bpCompare + 1); infix_loop fuel minBP (Binary op left_ r)
          | None =>
              match infixBP l with
              | Some (bp, op) =>
                  if bp <? minBP then mret left_
                  else _ ← advance; r ← pexpr (bp + 1); infix_loop fuel minBP (Binary op left_ r)
              | None => mret left_
              end
          end
      end)
  end.
Definition expr_body (minBP : Z) : P Expr := e ← parsePrefix; look (fun l => infix_loop (S (length l)) minBP e).
End step.

Fixpoint parse_expr (fuel : nat) (minBP : Z) : P Expr :=
  match fuel with
  | O => fun _ => Err ErrOutOfFuel
  | S fuel => expr_body (parse_expr fuel) minBP
  end.
Definition parseExpr (minBP : Z) : P Expr := look (fun l => parse_expr (S (length l)) minBP).

(** ** Patterns, continued *)
Definition opt_props : P (list (bytes * Expr)) :=
  look (fun l => if at_ tLBrace l then parsePropertyMap parseExpr else mret []).
Definition opt_ident : P bytes := look (fun l => if at_ident l then identName else mret []).

Definition parseNodePattern : P NodePattern :=
  _ ← expect tLParen;
  v ← opt_ident;
  labels ← parseLabels;
  props ← opt_props;
  _ ← expect tRParen;
  mret (mkNodePattern v labels props).

Fixpoint types_loop (fuel : nat) : P (list bytes) :=
  match fuel with
  | O => fun _ => Err ErrOutOfFuel
  | S fuel => when_ tPipe (name ← identName; rest ← types_loop fuel; mret (name :: rest)) (mret [])
  end.
Definition opt_int : P Z := fun l => match l with tInt _ n :: l' => Ok (n, l') | _ => Ok (-1, l) end.
Definition hops : P (bool * Z * Z) :=
  when_ tStar
    (mn ← opt_int; mx ← when_ tDotDot opt_int (mret mn); mret (true, mn, mx))
    (mret (false, -1, -1)).
Definition parseRelDetail (dir : Direction) : P RelPattern :=
  _ ← advance;
  v ← opt_ident;
  types ← when_ tColon (name ← identName; rest ← look (fun l => types_loop (S (length l))); mret (name :: rest)) (mret []);
  '(varLen, mn, mx) ← hops;
  props ← opt_props;
  _ ← expect tRBracket;
  mret (mkRelPattern v types props dir varLen mn mx).
Definition set_direction (d : Direction) (r : RelPattern) : RelPattern :=
  mkRelPattern (rp_Variable r) (rp_Types r) (rp_Props r) d (rp_VarLength r) (rp_MinHops r) (rp_MaxHops r).
Definition parseRelPattern : P RelPattern :=
  leftArrow ← when_ tLt (mret true) (mret false);
  _ ← expect tMinus;
  rel ← look (fun l => if at_ tLBracket l then parseRelDetail DirBoth else mret (mkRelPattern [] [] [] DirBoth false (-1) (-1)));
  _ ← expect tMinus;
  rightArrow ← when_ tGt (mret true) (mret false);
  match leftArrow, rightArrow with
  | true, true => err
  | true, false => mret (set_direction DirIn rel)
  | false, true => mret (set_direction DirOut rel)
  | false, false => mret rel
  end.

Fixpoint chain_loop (fuel : nat) : P (list PatternChain) :=
  match fuel with
  | O => fun _ => Err ErrOutOfFuel
  | S fuel => look (fun l =>
      if at_ tMinus l || at_ tLt l then
        r ← parseRelPattern; n ← parseNodePattern; rest ← chain_loop fuel; mret (mkPatternChain r n :: rest)
      else mret [])
  end.

Definition path_variable : P bytes := look (fun l =>
  if at_ident l && peek_is 1 tEq l then v ← identName; _ ← advance; mret v else mret []).
Definition shortest_kind (l : list token) : ShortestKind :=
  if peek_is 1 tLParen l then
    if atKw "allShortestPaths" l then ShortestAll else if atKw "shortestPath" l then ShortestOne else NotShortest
  else NotShortest.
Fixpoint pattern_part (fuel : nat) : P PatternPart :=
  match fuel with
  | O => fun _ => Err ErrOutOfFuel
  | S fuel =>
      v ← path_variable;
      look (fun l =>
        match shortest_kind l with
        | NotShortest =>
            start ← parseNodePattern;
            chain ← look (fun l => chain_loop (S (length l)));
            mret (mkPatternPart v start chain NotShortest)
        | kind =>
            _ ← skip 2;
            inner ← pattern_part fuel;
            match pp_Variable inner, pp_Shortest inner with
            | [], NotShortest => _ ← expect tRParen; mret (mkPatternPart v (pp_Start inner) (pp_Chain inner) kind)
            | _, _ => err
            end
        end)
  end.
Definition parsePatternPart : P PatternPart := look (fun l => pattern_part (S (length l))).
Definition parsePattern : P (list PatternPart) := comma_list parsePatternPart.

(** ** Projections *)
Definition opt_expr (kw : String.string) : P (option Expr) := optKw parseExpr kw.

Definition parseReturnItem : P ReturnItem :=
  e ← parseExpr 0; alias ← whenKw "AS" identName (mret []); mret (mkReturnItem e alias).
Definition parseReturnItems : P (list ReturnItem) := comma_list parseReturnItem.
Definition parseSortItem : P SortKey :=
  e ← parseExpr 0;
  desc ← look (fun l =>
    if atKw "DESC" l || atKw "DESCENDING" l then _ ← advance; mret true
    else if atKw "ASC" l || atKw "ASCENDING" l then _ ← advance; mret false
    else mret false);
  mret (mkSortKey e desc).
Definition parseSortItems : P (list SortKey) := comma_list parseSortItem.

Record projection := mkProjection {
  pj_distinct : bool; pj_star : bool; pj_items : list ReturnItem;
  pj_orderBy : list SortKey; pj_skip : option Expr; pj_limit : option Expr
}.
Definition parseProjection : P projection :=
  distinct ← whenKw "DISTINCT" (mret true) (mret false);
  '(star, items) ← when_ tStar
    (items ← when_ tComma parseReturnItems (mret []); mret (true, items))
    (items ← parseReturnItems; mret (false, items));
  orderBy ← whenKw "ORDER" (_ ← expectKw "BY"; parseSortItems) (mret []);
  skip_ ← opt_expr "SKIP";
  limit ← opt_expr "LIMIT";
  mret (mkProjection distinct star items orderBy skip_ limit).

(** ** Clauses *)
Definition matchBody (optional : bool) : P Clause :=
  parts ← parsePattern; w ← opt_expr "WHERE"; mret (CMatch optional parts w).
Definition parseReturn : P Clause :=
  _ ← advance; p ← parseProjection;
  mret (CReturn (pj_distinct p) (pj_star p) (pj_items p) (pj_orderBy p) (pj_skip p) (pj_limit p)).
Definition parseWith : P Clause :=
  _ ← advance; p ← parseProjection; w ← opt_expr "WHERE";
  mret (CWith (pj_distinct p) (pj_star p) (pj_items p) (pj_orderBy p) (pj_skip p) (pj_limit p) w).

Definition empty_node (n : NodePattern) : bool :=
  bool_decide (np_Variable n = []) && bool_decide (np_Labels n = []) && bool_decide (np_Props n = []).
Definition relIndexPattern : P bytes :=
  start ← parseNodePattern;
  r ← parseRelPattern;
  end_ ← parseNodePattern;
  if negb (empty_node start && empty_node end_) then err
  else match rp_Types r with
  | [typ] => if bool_decide (rp_Variable r = []) || rp_VarLength r || negb (bool_decide (rp_Props r = [])) then err else mret typ
  | _ => err
  end.
(** [(v:Label)]: the variable and the label. *)
Definition labelled_node : P (bytes * bytes) :=
  _ ← expect tLParen; v ← identName; _ ← expect tColon; label ← identName; _ ← expect tRParen; mret (v, label).
Definition createIndexBody : P Clause :=
  _ ← advance;
  name ← look (fun l => if negb (atKw "FOR" l) && at_ident l then identName else mret []);
  _ ← expectKw "FOR";
  '(label, rel) ← look (fun l =>
    if at_ tLParen l && peek_is 1 tRParen l then typ ← relIndexPattern; mret (typ, true)
    else '(_, label) ← labelled_node; mret (label, false));
  _ ← expectKw "ON";
  _ ← expect tLParen;
  _ ← identName;
  _ ← expect tDot;
  prop ← identName;
  _ ← expect tRParen;
  mret (CCreateIndex name label prop rel).
Definition createConstraintBody : P Clause :=
  _ ← advance;
  name ← look (fun l => if negb (atKw "FOR" l) && negb (atKw "IF" l) && at_ident l then identName else mret []);
  _ ← whenKw "IF" (_ ← expectKw "NOT"; expectKw "EXISTS") (mret tt);
  _ ← expectKw "FOR";
  '(v, label) ← labelled_node;
  _ ← expectKw "REQUIRE";
  ref ← identName;
  if negb (bool_decide (ref = v)) then err
  else
    _ ← expect tDot;
    prop ← identName;
    _ ← expectKw "IS";
    _ ← expectKw "UNIQUE";
    mret (CCreateConstraint name label prop).
Definition parseCreate : P Clause :=
  _ ← advance;
  look (fun l =>
    if atKw "INDEX" l then createIndexBody
    else if atKw "CONSTRAINT" l then createConstraintBody
    else parts ← parsePattern; mret (CCreate parts)).

Definition if_exists : P bool := whenKw "IF" (_ ← expectKw "EXISTS"; mret true) (mret false).
Definition parseDropConstraint : P Clause := _ ← skip 2; name ← identName; e ← if_exists; mret (CDropConstraint name e).
Definition parseDropIndex : P Clause := _ ← advance; _ ← expectKw "INDEX"; name ← identName; e ← if_exists; mret (CDropIndex name e).

(** [n.prop]: the target of an assignment. *)
Definition parseSetTarget : P (Expr * bytes) :=
  e ← parsePrimary parseExpr; e ← postfix parseExpr e;
  match e with PropertyAccess t k => mret (t, k) | _ => err end.
(** [n:Label1:Label2]: the variable and its labels. *)
Definition labelled_var : P (bytes * list bytes) :=
  v ← identName; labels ← parseLabels; if bool_decide (labels = []) then err else mret (v, labels).
Definition parseSetItem : P SetClause := look (fun l =>
  if negb (at_ident l) then err
  else match peek 1 l with
  | Some tColon => '(v, labels) ← labelled_var; mret (SetLabelsItem v labels)
  | Some tEq => v ← identName; _ ← advance; e ← parseExpr 0; mret (SetMapItem v e true)
  | Some tPlus =>
      if negb (peek_is 2 tEq l) then err
      else v ← identName; _ ← skip 2; e ← parseExpr 0; mret (SetMapItem v e false)
  | Some tDot => t ← parseSetTarget; _ ← expect tEq; e ← parseExpr 0; mret (SetPropertyItem (Some t) e)
  | _ => err
  end).
Definition parseSetItems : P (list SetClause) := comma_list parseSetItem.
Definition parseSet : P Clause := _ ← advance; items ← parseSetItems; mret (CSet items).

Definition parseRemoveItem : P RemoveClause := look (fun l =>
  if negb (at_ident l) then err
  else match peek 1 l with
  | Some tColon => '(v, labels) ← labelled_var; mret (RemoveLabelsItem v labels)
  | Some tDot => t ← parseSetTarget; mret (RemovePropertyItem (Some t))
  | _ => err
  end).
Definition parseRemove : P Clause := _ ← advance; items ← comma_list parseRemoveItem; mret (CRemove items).

Fixpoint on_loop (fuel : nat) : P (list SetClause * list SetClause) :=
  match fuel with
  | O => fun _ => Err ErrOutOfFuel
  | S fuel =>
      whenKw "ON" (look (fun l =>
        if atKw "CREATE" l then
          _ ← advance; _ ← expectKw "SET"; items ← parseSetItems; '(c, m) ← on_loop fuel; mret (items ++ c, m)
        else if atKw "MATCH" l then
          _ ← advance; _ ← expectKw "SET"; items ← parseSetItems; '(c, m) ← on_loop fuel; mret (c, items ++ m)
        else err))
      (mret ([], []))
  end.
Definition parseMerge : P Clause :=
  _ ← advance; part ← parsePatternPart; '(c, m) ← look (fun l => on_loop (S (length l))); mret (CMerge part c m).

Definition parseUnwind : P Clause :=
  _ ← advance; e ← parseExpr 0; _ ← expectKw "AS"; alias ← identName; mret (CUnwind e alias).
Definition deleteBody (detach : bool) : P Clause := es ← comma_list (parseExpr 0); mret (CDelete detach es).

Definition parseClause : P Clause := look (fun l =>
  if atKw "OPTIONAL" l then _ ← advance; _ ← expectKw "MATCH"; matchBody true
  else if atKw "MATCH" l then _ ← advance; matchBody false
  else if atKw "WITH" l then parseWith
  else if atKw "RETURN" l then parseReturn
  else if atKw "CREATE" l then parseCreate
  else if atKw "MERGE" l then parseMerge
  else if atKw "SET" l then parseSet
  else if atKw "REMOVE" l then parseRemove
  else if atKw "UNWIND" l then parseUnwind
  else if atKw "DETACH" l then _ ← advance; _ ← expectKw "DELETE"; deleteBody true
  else if atKw "DROP" l then if peekKw 1 "CONSTRAINT" l then parseDropConstraint else parseDropIndex
  else if atKw "SHOW" l then
    _ ← advance;
    look (fun l =>
      if atKw "INDEX" l || atKw "INDEXES" l then _ ← advance; mret CShowIndexes
      else if atKw "CONSTRAINT" l || atKw "CONSTRAINTS" l then _ ← advance; mret CShowConstraints
      else err)
  else if atKw "DELETE" l then _ ← advance; deleteBody false
  else err).

(** ** Queries *)
Definition arm_ends (l : list token) : bool := bool_decide (l = []) || at_ tSemi l || atKw "UNION" l.
Fixpoint clause_loop (fuel : nat) : P (list Clause) :=
  match fuel with
  | O => fun _ => Err ErrOutOfFuel
  | S fuel => look (fun l => if arm_ends l then mret [] else c ← parseClause; cs ← clause_loop fuel; mret (c :: cs))
  end.
Definition parseClauseList : P (list Clause) := look (fun l => clause_loop (S (length l))).

Fixpoint union_loop (fuel : nat) : P (list QueryUnion) :=
  match fuel with
  | O => fun _ => Err ErrOutOfFuel
  | S fuel =>
      whenKw "UNION"
        (all ← whenKw "ALL" (mret true) (mret false);
         cs ← parseClauseList;
         if bool_decide (length cs = 0%nat) then err
         else us ← union_loop fuel; mret (mkQueryUnion all cs :: us))
        (mret [])
  end.
Definition parseQuery : P Query :=
  cs ← parseClauseList;
  if bool_decide (length cs = 0%nat) then err
  else us ← look (fun l => union_loop (S (length l))); mret (mkQuery cs us).

Definition Parse `{Unicode} (src : bytes) : res Query :=
  toks ← tokenize src;
  '(q, l) ← parseQuery toks;
  let l := if at_ tSemi l then drop 1 l else l in
  if bool_decide (l = []) then Ok q else Err ErrSyntax.
End expressions.
End Parser.
