(* ===== verification/ParserLaws.v ===== *)
(** * ParserLaws: the parser always answers

    Every parsing function consumes tokens and nests no deeper than there are
    tokens, so the fuel of Parser.v is enough: on any text the parser returns a
    query or a syntax error.  [fine k l p]: on the tokens [l], [p] does not run
    out of fuel, and when it succeeds it has consumed at least [k] tokens. *)
From S2P Require Import Prelude Float64 FloatArith Values Ast Scalars Text Keys Records Storage Catalog Graph Context Functions Lexer Parser.
Import Ast Scalars Text Context Functions Lexer Parser.

Module ParserLaws.

Definition fine {A : Type} (k : nat) (l : list token) (p : P A) : Prop :=
  match p l with Err e => e <> ErrOutOfFuel | Ok (_, l') => (length l' + k <= length l)%nat end.

Lemma fine_weaken {A : Type} k k' l (p : P A) : (k' <= k)%nat -> fine k l p -> fine k' l p.
Proof. unfold fine. destruct (p l) as [[x l']|]; [lia|done]. Qed.
Lemma fine_ret {A : Type} l (x : A) : fine 0 l (mret x).
Proof. unfold fine. cbn. lia. Qed.
Lemma fine_err {A : Type} k l : fine k l (@err A).
Proof. done. Qed.
Lemma fine_bind {A B : Type} k1 k l (p : P A) (f : A -> P B) :
  fine k1 l p -> (forall x l', (length l' + k1 <= length l)%nat -> fine (k - k1) l' (f x)) -> fine k l (p ≫= f).
Proof.
  unfold fine, mbind, P_bind. intros Hp Hf. destruct (p l) as [[x l']|e]; [|exact Hp]. specialize (Hf x l' Hp).
  cbn [mbind res_bind]. destruct (f x l') as [[y l'']|]; [lia|done].
Qed.
Lemma fine_look {A : Type} k l (f : list token -> P A) : fine k l (f l) -> fine k l (look f).
Proof. done. Qed.
Lemma fine_skip n l : (n <= length l)%nat -> fine n l (skip n).
Proof. unfold fine. cbn. rewrite length_drop. lia. Qed.
Lemma fine_skip0 n l : fine 0 l (skip n).
Proof. unfold fine. cbn. rewrite length_drop. lia. Qed.

(** ** Tokens that are there *)
Lemma peek_length n l t : peek n l = Some t -> (S n <= length l)%nat.
Proof. intros Hp%lookup_lt_Some. lia. Qed.
Lemma at_length t l : at_ t l = true -> (1 <= length l)%nat.
Proof. unfold at_. intros Hp%bool_decide_eq_true. by apply peek_length in Hp. Qed.
Lemma peek_is_length n t l : peek_is n t l = true -> (S n <= length l)%nat.
Proof. unfold peek_is. intros Hp%bool_decide_eq_true. by apply peek_length in Hp. Qed.
Lemma peekKw_length n kw l : peekKw n kw l = true -> (S n <= length l)%nat.
Proof. unfold peekKw. destruct (peek n l) eqn:E; [|done]. intros _. by apply peek_length in E. Qed.
Lemma at_ident_length l : at_ident l = true -> (1 <= length l)%nat.
Proof. unfold at_ident. destruct (peek 0 l) eqn:E; [|done]. intros _. by apply peek_length in E. Qed.

Ltac lengths :=
  repeat match goal with
  | H : (_ && _)%bool = true |- _ => apply andb_true_iff in H as [? ?]
  | H : negb _ = false |- _ => apply negb_false_iff in H
  | H : at_ _ _ = true |- _ => apply at_length in H
  | H : peek_is _ _ _ = true |- _ => apply peek_is_length in H
  | H : atKw _ _ = true |- _ => apply peekKw_length in H
  | H : peekKw _ _ _ = true |- _ => apply peekKw_length in H
  | H : at_ident _ = true |- _ => apply at_ident_length in H
  | H : peek _ _ = Some _ |- _ => apply peek_length in H
  end.

Lemma fine_identName l : fine 1 l identName.
Proof. unfold fine, identName. destruct l as [|[] l]; try done. cbn. lia. Qed.
Lemma fine_expect t l : fine 1 l (expect t).
Proof. apply fine_look. destruct (at_ t l) eqn:E; [|done]. lengths. by apply fine_skip. Qed.
Lemma fine_expectKw kw l : fine 1 l (expectKw kw).
Proof. apply fine_look. destruct (atKw kw l) eqn:E; [|done]. lengths. by apply fine_skip. Qed.
Lemma fine_when {A : Type} k l t (yes no : P A) :
  (forall l', (length l' + 1 <= length l)%nat -> fine (k - 1) l' yes) -> fine k l no -> fine k l (when_ t yes no).
Proof.
  intros Hy Hn. apply fine_look. destruct (at_ t l) eqn:E; [|done]. lengths.
  eapply fine_bind; [by apply (fine_skip 1)|]. intros _ l' Hl. by apply Hy.
Qed.
Lemma fine_whenKw {A : Type} k l kw (yes no : P A) :
  (forall l', (length l' + 1 <= length l)%nat -> fine (k - 1) l' yes) -> fine k l no -> fine k l (whenKw kw yes no).
Proof.
  intros Hy Hn. apply fine_look. destruct (atKw kw l) eqn:E; [|done]. lengths.
  eapply fine_bind; [by apply (fine_skip 1)|]. intros _ l' Hl. by apply Hy.
Qed.

(** Loops: an iteration consumes a token, so the fuel lasts. *)
Lemma fine_comma_loop {A : Type} fuel (item : P A) l : (length l < fuel)%nat ->
  (forall l', (length l' <= length l)%nat -> fine 1 l' item) -> fine 1 l (comma_loop fuel item).
Proof.
  revert l. induction fuel as [|fuel IH]; intros l Hf Hi; [lia|]. cbn [comma_loop].
  eapply fine_bind; [by apply Hi|]. intros x l1 H1. cbn [Nat.sub].
  eapply (fine_bind 0); [|intros; apply fine_ret]. apply fine_when; [|apply fine_ret].
  intros l2 H2. apply fine_weaken with 1%nat; [lia|]. apply IH; [lia|]. intros; apply Hi; lia.
Qed.
Lemma fine_comma {A : Type} (item : P A) l :
  (forall l', (length l' <= length l)%nat -> fine 1 l' item) -> fine 1 l (comma_list item).
Proof. intros Hi. apply fine_look, fine_comma_loop; [lia|done]. Qed.

Create HintDb parser_db.
#[export] Hint Resolve fine_ret fine_err fine_identName fine_expect fine_expectKw fine_comma : parser_db.
#[export] Hint Extern 1 (_ <= _)%nat => lia : parser_db.
#[export] Hint Extern 1 (_ < _)%nat => lia : parser_db.

(** Walk through a parsing function: each step is one of the combinators, a
    choice, or a function already shown fine; what is left is arithmetic. *)
Ltac walk :=
  repeat first
    [ progress cbn [Nat.sub]
    | progress lengths
    | match goal with
      | |- fine _ _ (look _) => apply fine_look
      | |- fine _ _ (when_ _ _ _) => apply fine_when; [intros ? ?|]
      | |- fine _ _ (whenKw _ _ _) => apply fine_whenKw; [intros ? ?|]
      | |- fine _ _ (mbind _ advance) => eapply fine_bind; [first [apply (fine_skip 1); lia|apply fine_skip0]|intros ? ? ?]
      | |- fine _ _ (mbind _ (skip ?n)) => eapply fine_bind; [first [apply (fine_skip n); lia|apply fine_skip0]|intros ? ? ?]
      | |- fine _ _ (mbind _ _) => eapply fine_bind; [solve [eauto with parser_db]|intros ? ? ?]
      | |- fine _ _ (mbind _ (when_ _ _ _)) => eapply (fine_bind 0); [|intros ? ? ?]
      | |- fine _ _ (mbind _ (whenKw _ _ _)) => eapply (fine_bind 0); [|intros ? ? ?]
      | |- fine _ _ (mbind _ (look _)) => eapply (fine_bind 0); [|intros ? ? ?]
      | |- fine _ _ (let '(_, _) := ?x in _) => destruct x
      | |- fine _ _ (if ?b then _ else _) => destruct b eqn:?
      | |- fine _ _ (match ?x with _ => _ end) => destruct x eqn:?
      | |- fine _ _ err => apply fine_err
      | |- fine 0 _ (mret _) => apply fine_ret
      end
    | solve [eauto with parser_db]
    | solve [eapply fine_weaken; [|eauto with parser_db]; lia] ].

Lemma fine_labels_loop fuel l : (length l < fuel)%nat -> fine 0 l (labels_loop fuel).
Proof. revert l. induction fuel as [|fuel IH]; intros l Hf; [lia|]. cbn [labels_loop]. walk. Qed.
Lemma fine_parseLabels l : fine 0 l parseLabels.
Proof. apply fine_look, fine_labels_loop. lia. Qed.
#[export] Hint Resolve fine_parseLabels : parser_db.

(** ** Expressions *)
Section expressions.
Context `{Runtime}.

Section step.
Context (pexpr : Z -> P Expr) (n : nat).
Hypothesis Hexpr : forall bp l, (length l < n)%nat -> fine 1 l (pexpr bp).
#[local] Hint Resolve Hexpr : parser_db.

Lemma fine_map_entry l : (length l <= n)%nat -> fine 1 l (map_entry pexpr).
Proof. intros Hn. unfold map_entry. walk. Qed.
#[local] Hint Resolve fine_map_entry : parser_db.
Lemma fine_parsePropertyMap l : (length l <= n)%nat -> fine 1 l (parsePropertyMap pexpr).
Proof. intros Hn. unfold parsePropertyMap. walk. Qed.
Lemma fine_parseInClause l : (length l <= n)%nat -> fine 1 l (parseInClause pexpr).
Proof. intros Hn. unfold parseInClause. walk. Qed.
#[local] Hint Resolve fine_parsePropertyMap fine_parseInClause : parser_db.
Lemma fine_optKw kw l : (length l <= n)%nat -> fine 0 l (optKw pexpr kw).
Proof. intros Hn. unfold optKw. walk. Qed.
#[local] Hint Resolve fine_optKw : parser_db.
Lemma fine_parseListComprehension l : (1 <= length l <= n)%nat -> fine 1 l (parseListComprehension pexpr).
Proof. intros Hn. unfold parseListComprehension. walk. Qed.
#[local] Hint Resolve fine_parseListComprehension : parser_db.
Lemma fine_parseListLiteral l : (1 <= length l <= n)%nat -> fine 1 l (parseListLiteral pexpr).
Proof. intros Hn. unfold parseListLiteral. walk. Qed.
Lemma fine_whens fuel l : (length l < fuel)%nat -> (length l <= n)%nat -> fine 0 l (whens pexpr fuel).
Proof. revert l. induction fuel as [|fuel IH]; intros l Hf Hn; [lia|]. cbn [whens]. walk. Qed.
#[local] Hint Resolve fine_parseListLiteral fine_whens : parser_db.
Lemma fine_parseCase l : (1 <= length l <= n)%nat -> fine 1 l (parseCase pexpr).
Proof. intros Hn. unfold parseCase. walk. Qed.
Lemma fine_call_args name l : (length l < n)%nat -> fine 1 l (call_args pexpr name).
Proof. intros Hn. unfold call_args. walk. Qed.
#[local] Hint Resolve fine_parseCase fine_call_args : parser_db.
Lemma fine_parseFunctionCall l : (length l <= n)%nat -> fine 1 l (parseFunctionCall pexpr).
Proof. intros Hn. unfold parseFunctionCall. walk. Qed.
#[local] Hint Resolve fine_parseFunctionCall : parser_db.
Lemma fine_paramName l : fine 1 l paramName.
Proof. unfold fine, paramName. destruct l as [|[] l]; try done; cbn; lia. Qed.
#[local] Hint Resolve fine_paramName : parser_db.
Lemma fine_parseIdent text l : (1 <= length l <= n)%nat -> fine 1 l (parseIdent pexpr text).
Proof. intros Hn. unfold parseIdent. walk. Qed.
#[local] Hint Resolve fine_parseIdent : parser_db.
Lemma fine_parsePrimary l : (length l <= n)%nat -> fine 1 l (parsePrimary pexpr).
Proof. intros Hn. unfold parsePrimary. apply fine_look. destruct (peek 0 l) as [[]|] eqn:E; walk. Qed.
#[local] Hint Resolve fine_parsePrimary : parser_db.
Lemma fine_parseSubscript e l : (1 <= length l <= n)%nat -> fine 1 l (parseSubscript pexpr e).
Proof. intros Hn. unfold parseSubscript. walk. Qed.
#[local] Hint Resolve fine_parseSubscript : parser_db.
Lemma fine_parsePostfix fuel e l : (length l < fuel)%nat -> (length l <= n)%nat -> fine 0 l (parsePostfix pexpr fuel e).
Proof. revert e l. induction fuel as [|fuel IH]; intros e l Hf Hn; [lia|]. cbn [parsePostfix]. walk. Qed.
#[local] Hint Resolve fine_parsePostfix : parser_db.
Lemma fine_postfix e l : (length l <= n)%nat -> fine 0 l (postfix pexpr e).
Proof. intros Hn. apply fine_look, fine_parsePostfix; [lia|done]. Qed.
#[local] Hint Resolve fine_postfix : parser_db.
Lemma fine_parsePrefix l : (length l <= n)%nat -> fine 1 l (parsePrefix pexpr).
Proof. intros Hn. unfold parsePrefix. walk. Qed.
#[local] Hint Resolve fine_parsePrefix : parser_db.

Lemma infixBP_length l x : infixBP l = Some x -> (1 <= length l)%nat.
Proof. unfold infixBP. destruct l as [|t l]; [done|]. cbn. lia. Qed.
Lemma matchKeywordInfix_length l op k : matchKeywordInfix l = Some (op, k) -> (1 <= k <= length l)%nat.
Proof. unfold matchKeywordInfix. repeat case_match; intros [= <- <-]; lengths; lia. Qed.
Lemma isNull_length l op k : isNull l = Some (op, k) -> (1 <= k <= length l)%nat.
Proof. unfold isNull. repeat case_match; intros [= <- <-]; lengths; lia. Qed.

Lemma fine_infix_loop fuel bp e l : (length l < fuel)%nat -> (length l <= n)%nat -> fine 0 l (infix_loop pexpr fuel bp e).
Proof.
  revert e l. induction fuel as [|fuel IH]; intros e l Hf Hn; [lia|]. cbn [infix_loop]. apply fine_look.
  destruct (if bp <=? bpCompare then isNull l else None) as [[op k]|] eqn:E1.
  { assert (1 <= k <= length l)%nat by (destruct (bp <=? bpCompare); [by eapply isNull_length|done]). walk. }
  destruct (if bp <=? bpCompare then matchKeywordInfix l else None) as [[op k]|] eqn:E2.
  { assert (1 <= k <= length l)%nat by (destruct (bp <=? bpCompare); [by eapply matchKeywordInfix_length|done]). walk. }
  destruct (infixBP l) as [[bp' op]|] eqn:E3; [apply infixBP_length in E3|]; walk.
Qed.
#[local] Hint Resolve fine_infix_loop : parser_db.
Lemma fine_expr_body bp l : (length l <= n)%nat -> fine 1 l (expr_body pexpr bp).
Proof. intros Hn. unfold expr_body. walk. Qed.
End step.

Lemma fine_parse_expr fuel bp l : (length l < fuel)%nat -> fine 1 l (parse_expr fuel bp).
Proof.
  revert bp l. induction fuel as [|fuel IH]; intros bp l Hf; [lia|]. cbn [parse_expr].
  apply fine_expr_body with fuel; [done|lia].
Qed.
Lemma fine_parseExpr bp l : fine 1 l (parseExpr bp).
Proof. apply fine_look, fine_parse_expr. lia. Qed.
#[local] Hint Resolve fine_parseExpr : parser_db.

(** ** Patterns and clauses *)
Lemma fine_props l : fine 1 l (parsePropertyMap parseExpr).
Proof. by apply fine_parsePropertyMap with (length l); [intros; apply fine_parseExpr|]. Qed.
Lemma fine_opt_expr kw l : fine 0 l (opt_expr kw).
Proof. by apply fine_optKw with (length l); [intros; apply fine_parseExpr|]. Qed.
Lemma fine_primary l : fine 1 l (parsePrimary parseExpr).
Proof. by apply fine_parsePrimary with (length l); [intros; apply fine_parseExpr|]. Qed.
Lemma fine_postfix_expr e l : fine 0 l (postfix parseExpr e).
Proof. by apply fine_postfix with (length l); [intros; apply fine_parseExpr|]. Qed.
#[local] Hint Resolve fine_props fine_opt_expr fine_primary fine_postfix_expr : parser_db.
Lemma fine_opt_props l : fine 0 l opt_props.
Proof. unfold opt_props. walk. Qed.
Lemma fine_opt_ident l : fine 0 l opt_ident.
Proof. unfold opt_ident. walk. Qed.
Lemma fine_opt_int l : fine 0 l opt_int.
Proof. unfold fine, opt_int. destruct l as [|[] l]; cbn; lia. Qed.
#[local] Hint Resolve fine_opt_props fine_opt_ident fine_opt_int : parser_db.
Lemma fine_parseNodePattern l : fine 1 l parseNodePattern.
Proof. unfold parseNodePattern. walk. Qed.
Lemma fine_types_loop fuel l : (length l < fuel)%nat -> fine 0 l (types_loop fuel).
Proof. revert l. induction fuel as [|fuel IH]; intros l Hf; [lia|]. cbn [types_loop]. walk. Qed.
Lemma fine_hops l : fine 0 l hops.
Proof. unfold hops. walk. Qed.
#[local] Hint Resolve fine_parseNodePattern fine_types_loop fine_hops : parser_db.
Lemma fine_parseRelDetail d l : (1 <= length l)%nat -> fine 1 l (parseRelDetail d).
Proof. intros Hl. unfold parseRelDetail. walk. Qed.
#[local] Hint Resolve fine_parseRelDetail : parser_db.
Lemma fine_parseRelPattern l : fine 1 l parseRelPattern.
Proof. unfold parseRelPattern. walk. Qed.
#[local] Hint Resolve fine_parseRelPattern : parser_db.
Lemma fine_chain_loop fuel l : (length l < fuel)%nat -> fine 0 l (chain_loop fuel).
Proof. revert l. induction fuel as [|fuel IH]; intros l Hf; [lia|]. cbn [chain_loop]. walk. Qed.
Lemma fine_path_variable l : fine 0 l path_variable.
Proof. unfold path_variable. walk. Qed.
#[local] Hint Resolve fine_chain_loop fine_path_variable : parser_db.
Lemma shortest_kind_length l : shortest_kind l <> NotShortest -> (2 <= length l)%nat.
Proof. unfold shortest_kind. destruct (peek_is 1 tLParen l) eqn:E; [|done]. by lengths. Qed.
Lemma fine_pattern_part fuel l : (length l < fuel)%nat -> fine 1 l (pattern_part fuel).
Proof.
  revert l. induction fuel as [|fuel IH]; intros l Hf; [lia|]. cbn [pattern_part].
  eapply fine_bind; [apply fine_path_variable|]. intros v l1 H1. apply fine_look.
  pose proof (shortest_kind_length l1) as Hk. destruct (shortest_kind l1); [walk|specialize (Hk ltac:(done)); walk..].
Qed.
Lemma fine_parsePatternPart l : fine 1 l parsePatternPart.
Proof. apply fine_look, fine_pattern_part. lia. Qed.
#[local] Hint Resolve fine_parsePatternPart : parser_db.
Lemma fine_parsePattern l : fine 1 l parsePattern.
Proof. unfold parsePattern. walk. Qed.
Lemma fine_parseReturnItem l : fine 1 l parseReturnItem.
Proof. unfold parseReturnItem. walk. Qed.
Lemma fine_parseSortItem l : fine 1 l parseSortItem.
Proof. unfold parseSortItem. walk. Qed.
#[local] Hint Resolve fine_parsePattern fine_parseReturnItem fine_parseSortItem : parser_db.
Lemma fine_parseReturnItems l : fine 1 l parseReturnItems.
Proof. unfold parseReturnItems. walk. Qed.
Lemma fine_parseSortItems l : fine 1 l parseSortItems.
Proof. unfold parseSortItems. walk. Qed.
#[local] Hint Resolve fine_parseReturnItems fine_parseSortItems : parser_db.
Lemma fine_parseProjection l : fine 0 l parseProjection.
Proof. unfold parseProjection. walk. Qed.
#[local] Hint Resolve fine_parseProjection : parser_db.
Lemma fine_matchBody b l : fine 1 l (matchBody b).
Proof. unfold matchBody. walk. Qed.
Lemma fine_relIndexPattern l : fine 1 l relIndexPattern.
Proof. unfold relIndexPattern. walk. Qed.
Lemma fine_labelled_node l : fine 1 l labelled_node.
Proof. unfold labelled_node. walk. Qed.
#[local] Hint Resolve fine_matchBody fine_relIndexPattern fine_labelled_node : parser_db.
Lemma fine_createIndexBody l : (1 <= length l)%nat -> fine 1 l createIndexBody.
Proof. intros Hl. unfold createIndexBody. walk. Qed.
Lemma fine_createConstraintBody l : (1 <= length l)%nat -> fine 1 l createConstraintBody.
Proof. intros Hl. unfold createConstraintBody. walk. Qed.
Lemma fine_if_exists l : fine 0 l if_exists.
Proof. unfold if_exists. walk. Qed.
Lemma fine_parseSetTarget l : fine 1 l parseSetTarget.
Proof. unfold parseSetTarget. walk. Qed.
Lemma fine_labelled_var l : fine 1 l labelled_var.
Proof. unfold labelled_var. walk. Qed.
#[local] Hint Resolve fine_createIndexBody fine_createConstraintBody fine_if_exists fine_parseSetTarget fine_labelled_var : parser_db.
Lemma fine_parseSetItem l : fine 1 l parseSetItem.
Proof. unfold parseSetItem. walk. Qed.
Lemma fine_parseRemoveItem l : fine 1 l parseRemoveItem.
Proof. unfold parseRemoveItem. walk. Qed.
#[local] Hint Resolve fine_parseSetItem fine_parseRemoveItem : parser_db.
Lemma fine_parseSetItems l : fine 1 l parseSetItems.
Proof. unfold parseSetItems. walk. Qed.
#[local] Hint Resolve fine_parseSetItems : parser_db.
Lemma fine_on_loop fuel l : (length l < fuel)%nat -> fine 0 l (on_loop fuel).
Proof. revert l. induction fuel as [|fuel IH]; intros l Hf; [lia|]. cbn [on_loop]. walk. Qed.
#[local] Hint Resolve fine_on_loop : parser_db.
Lemma fine_deleteBody b l : fine 1 l (deleteBody b).
Proof. unfold deleteBody. walk. Qed.
#[local] Hint Resolve fine_deleteBody : parser_db.

Lemma fine_parseClause l : fine 1 l parseClause.
Proof.
  unfold parseClause, parseWith, parseReturn, parseCreate, parseMerge, parseSet, parseRemove, parseUnwind, parseDropConstraint, parseDropIndex.
  walk.
Qed.
#[local] Hint Resolve fine_parseClause : parser_db.
Lemma fine_clause_loop fuel l : (length l < fuel)%nat -> fine 0 l (clause_loop fuel).
Proof. revert l. induction fuel as [|fuel IH]; intros l Hf; [lia|]. cbn [clause_loop]. walk. Qed.
Lemma fine_parseClauseList l : fine 0 l parseClauseList.
Proof. apply fine_look, fine_clause_loop. lia. Qed.
#[local] Hint Resolve fine_parseClauseList : parser_db.
Lemma fine_union_loop fuel l : (length l < fuel)%nat -> fine 0 l (union_loop fuel).
Proof. revert l. induction fuel as [|fuel IH]; intros l Hf; [lia|]. cbn [union_loop]. walk. Qed.
#[local] Hint Resolve fine_union_loop : parser_db.
Lemma fine_parseQuery l : fine 0 l parseQuery.
Proof. unfold parseQuery. walk. Qed.
End expressions.
End ParserLaws.
