(* ===== verification/Printer.v ===== *)
(** * Printer: expressions as token lists, and back

    A printer of expressions with parentheses only where the precedences ask
    for them, as the specification of the expression grammar: the operators from
    OR (loosest) over AND, NOT, comparisons, sums and products to the unary
    minus, binary operators associating to the left, and property access,
    subscripts and slices binding tightest.  The parser of
    src/query/parser/parser.go reads back every printed expression. *)
From S2P Require Import Prelude Float64 FloatArith Values Ast Scalars Text Keys Records Storage Catalog Graph Context Functions Lexer Parser ParserLaws.
Import Ast Scalars Text Context Functions Lexer Parser ParserLaws.

Module Printer.

(** ** Printing *)
Definition kw (s : String.string) : token := tIdent (str s).

(** The binary operators: precedence and tokens. *)
Definition binops : list (bytes * (Z * list token)) :=
  [ (str "OR", (1, [kw "OR"])); (str "AND", (2, [kw "AND"]));
    (str "=", (4, [tEq])); (str "<>", (4, [tNeq])); (str "<", (4, [tLt])); (str "<=", (4, [tLe]));
    (str ">", (4, [tGt])); (str ">=", (4, [tGe])); (str "=~", (4, [tRegex]));
    (str "STARTS WITH", (4, [kw "STARTS"; kw "WITH"])); (str "ENDS WITH", (4, [kw "ENDS"; kw "WITH"]));
    (str "CONTAINS", (4, [kw "CONTAINS"])); (str "IN", (4, [kw "IN"]));
    (str "+", (5, [tPlus])); (str "-", (5, [tMinus]));
    (str "*", (6, [tStar])); (str "/", (6, [tSlash])); (str "%", (6, [tPercent])) ].
Definition binop (op : bytes) : option (Z * list token) := snd <$> find (fun e => bool_decide (e.1 = op)) binops.

(** The precedence of an expression: 8 for what a postfix can follow. *)
Definition level (e : Expr) : Z :=
  match e with
  | Binary op _ _ => default 0 (fst <$> binop op)
  | Unary op _ => if op =s "NOT" then 3 else if op =s "-" then 7 else 4
  | LabelsPredicate _ _ => 7
  | _ => 8
  end.

Definition paren (l : list token) : list token := tLParen :: l ++ [tRParen].
Definition comma_sep (ls : list (list token)) : list token :=
  match ls with [] => [] | l :: ls => l ++ concat ((fun l => tComma :: l) <$> ls) end.
Definition show_labels (ls : list bytes) : list token := concat ((fun l => [tColon; tIdent l]) <$> ls).

Definition literal_token (v : value) : token :=
  match v with
  | VInt n => tInt (dec n) n
  | VFloat f => tFloat f
  | VStr s => tString s
  | VBool b => if b then kw "true" else kw "false"
  | _ => kw "null"
  end.

(** [raw e] is the expression without parentheses around it; [show b] puts them
    where an operator of precedence [b] would take it apart. *)
Fixpoint raw (e : Expr) : list token :=
  let show (b : Z) (x : Expr) := if level x <? b then paren (raw x) else raw x in
  let opt (k : token) (o : option Expr) := match o with Some x => k :: raw x | None => [] end in
  match e with
  | Literal v => [literal_token v]
  | Param name => [tDollar; tIdent name]
  | Variable_ name => [tIdent name]
  | PropertyAccess t k => show 8 t ++ [tDot; tIdent k]
  | Unary op x =>
      if op =s "NOT" then kw "NOT" :: show 3 x
      else if op =s "-" then tMinus :: show 7 x
      else show 4 x ++ (if op =s "IS NULL" then [kw "IS"; kw "NULL"] else [kw "IS"; kw "NOT"; kw "NULL"])
  | Binary op l r =>
      let '(p, toks) := default (0, []) (binop op) in show p l ++ toks ++ show (p + 1) r
  | FunctionCall name distinct star args =>
      [tIdent name; tLParen] ++ (if distinct then [kw "DISTINCT"] else [])
      ++ (if star then [tStar] else comma_sep ((fun x => paren (raw x)) <$> args)) ++ [tRParen]
  | LabelsPredicate x ls => show 8 x ++ show_labels ls
  | ListLiteral l => tLBracket :: comma_sep ((fun x => paren (raw x)) <$> l) ++ [tRBracket]
  | MapLiteral m => tLBrace :: comma_sep ((fun e => [tIdent e.1; tColon] ++ raw e.2) <$> m) ++ [tRBrace]
  | Case operand whens els =>
      kw "CASE" :: (match operand with Some x => paren (raw x) | None => [] end)
      ++ concat ((fun w => kw "WHEN" :: raw w.1 ++ kw "THEN" :: raw w.2) <$> whens)
      ++ opt (kw "ELSE") els ++ [kw "END"]
  | Subscript t i => show 8 t ++ tLBracket :: raw i ++ [tRBracket]
  | ListComprehension v l w m =>
      [tLBracket; tIdent v; kw "IN"] ++ raw l ++ opt (kw "WHERE") w ++ opt tPipe m ++ [tRBracket]
  | Quantifier kind v l w => [tIdent kind; tLParen; tIdent v; kw "IN"] ++ raw l ++ kw "WHERE" :: raw w ++ [tRParen]
  | Slice t f o => show 8 t ++ tLBracket :: (match f with Some x => raw x | None => [] end) ++ tDotDot
      :: (match o with Some x => raw x | None => [] end) ++ [tRBracket]
  end.
Definition show (b : Z) (e : Expr) : list token := if level e <? b then paren (raw e) else raw e.

(** ** Expressions that have a printed form *)
Section printable.
Context `{Runtime}.

(** Names that start an expression of another kind. *)
Definition reserved (name : bytes) : bool :=
  existsb (fun k => EqualFold name (str k)) ["true"; "false"; "null"; "case"; "NOT"]%string.
Definition literal_ok (v : value) : Prop :=
  match v with VInt _ | VFloat _ | VStr _ | VBool _ | VNull => True | _ => False end.
Definition all_true {A : Type} (f : A -> Prop) (l : list A) : Prop := foldr (fun x acc => f x /\ acc) True l.

Fixpoint printable (e : Expr) : Prop :=
  let opt (o : option Expr) := match o with Some x => printable x | None => True end in
  match e with
  | Literal v => literal_ok v
  | Param _ => True
  | Variable_ name => reserved name = false
  | PropertyAccess t _ => printable t
  | Unary op x => op ∈ str <$> ["NOT"; "-"; "IS NULL"; "IS NOT NULL"]%string /\ printable x
  | Binary op l r => is_Some (binop op) /\ printable l /\ printable r
  | FunctionCall name _ star args =>
      reserved name = false /\ (star = true -> args = []) /\ foldr (fun x acc => printable x /\ acc) True args
  | LabelsPredicate x ls => ls <> [] /\ printable x
  | ListLiteral l => foldr (fun x acc => printable x /\ acc) True l
  | MapLiteral m => NoDup m.*1 /\ foldr (fun e acc => printable e.2 /\ acc) True m
  | Case operand whens els =>
      whens <> [] /\ opt operand /\ foldr (fun w acc => (printable w.1 /\ printable w.2) /\ acc) True whens /\ opt els
  | Subscript t i => printable t /\ printable i
  | ListComprehension _ l w m => printable l /\ opt w /\ opt m
  | Quantifier kind _ l w => kind ∈ str <$> ["any"; "all"; "none"; "single"]%string /\ printable l /\ printable w
  | Slice t f o => printable t /\ opt f /\ opt o
  end.

(** ** What may follow an expression *)
Definition no_postfix (l : list token) : Prop :=
  match l with (tLBracket | tDot | tColon | tLParen) :: _ => False | _ => True end.
Record stops (b : Z) (l : list token) : Prop := {
  st_postfix : no_postfix l;
  st_null : isNull l = None \/ 4 < b;
  st_keyword : matchKeywordInfix l = None \/ 4 < b;
  st_infix p op : infixBP l = Some (p, op) -> p < b
}.

Lemma stops_mono b b' l : b <= b' -> stops b l -> stops b' l.
Proof. intros Hb [? [|] [|] Hi]; (split; [done|tauto || (right; lia)|tauto || (right; lia)|]); intros p op E; specialize (Hi p op E); lia. Qed.

(** The tokens that close something, and the keywords that continue a clause or
    start the next one. *)
Definition closing : list token := [tRParen; tRBracket; tRBrace; tComma; tPipe; tDotDot; tSemi].
Definition closing_kw : list String.string :=
  ["THEN"; "ELSE"; "END"; "WHEN"; "WHERE"; "AS"; "DESC"; "ASC"; "ORDER"; "SKIP"; "LIMIT"; "UNION"; "OPTIONAL"; "MATCH"; "WITH";
   "RETURN"; "CREATE"; "MERGE"; "SET"; "REMOVE"; "UNWIND"; "DETACH"; "DELETE"; "ON"; "DROP"; "SHOW"]%string.
Lemma stops_close t l : t ∈ closing -> stops 0 (t :: l).
Proof. intros Ht. unfold closing in Ht. set_unfold in Ht. destruct_or! Ht; subst t; (split; [done|by left|by left|done]). Qed.
Lemma stops_kw k l : k ∈ closing_kw -> stops 0 (kw k :: l).
Proof. intros Hk. unfold closing_kw in Hk. set_unfold in Hk. destruct_or! Hk; subst k; (split; [done|left; vm_compute; reflexivity|left; vm_compute; reflexivity|vm_compute; done]). Qed.
Lemma stops_nil b : 0 <= b -> stops b [].
Proof. intros Hb. split; [done|by left|by left|done]. Qed.

(** ** Single steps *)
Lemma bind_ok {A B : Type} (p : P A) (f : A -> P B) l x l' : p l = Ok (x, l') -> (p ≫= f) l = f x l'.
Proof. intros E. unfold mbind, P_bind. by rewrite E. Qed.
Lemma expect_ok t l : expect t (t :: l) = Ok (tt, l).
Proof. unfold expect, look, at_, peek. cbn. by rewrite bool_decide_true. Qed.
Lemma when_yes {A : Type} t (yes no : P A) l : when_ t yes no (t :: l) = yes l.
Proof. unfold when_, look, at_, peek. cbn. by rewrite bool_decide_true. Qed.
Lemma at_cons t l : at_ t l = true -> exists l', l = t :: l'.
Proof. unfold at_, peek. intros E%bool_decide_eq_true. destruct l; [done|]. cbn in E. simplify_eq. eauto. Qed.
Lemma at_same t l : at_ t (t :: l) = true.
Proof. unfold at_, peek. cbn. by rewrite bool_decide_true. Qed.

Ltac op_cases H := unfold binops in H; set_unfold in H; destruct_or! H; simplify_eq.

Lemma binop_in op p toks : binop op = Some (p, toks) -> (op, (p, toks)) ∈ binops.
Proof.
  unfold binop. destruct (find _ binops) as [[op' [p' toks']]|] eqn:E; [|done]. cbn. intros [= -> ->].
  apply find_some in E as [Hin Heq]. apply bool_decide_eq_true in Heq. cbn in Heq. subst op'. by apply list_elem_of_In.
Qed.
Lemma binop_level op p toks : (op, (p, toks)) ∈ binops -> 1 <= p <= 6.
Proof. intros Hin. op_cases Hin; lia. Qed.
Lemma op_length op p toks : (op, (p, toks)) ∈ binops -> (1 <= length toks)%nat.
Proof. intros Hin. op_cases Hin; cbn; lia. Qed.
Lemma op_reads op p toks tail : (op, (p, toks)) ∈ binops -> isNull (toks ++ tail) = None /\
  ((matchKeywordInfix (toks ++ tail) = Some (op, length toks) /\ p = 4 /\ infixBP (toks ++ tail) = None) \/
   (matchKeywordInfix (toks ++ tail) = None /\ infixBP (toks ++ tail) = Some (p, op) /\ length toks = 1%nat)).
Proof. intros Hin. op_cases Hin; (split; [reflexivity|]); solve [left; repeat split|right; repeat split]. Qed.

Lemma infix_step pexpr fuel minBP l op p toks tail : (op, (p, toks)) ∈ binops -> minBP <= p ->
  infix_loop pexpr (S fuel) minBP l (toks ++ tail) = (r ← pexpr (p + 1); infix_loop pexpr fuel minBP (Binary op l r)) tail.
Proof.
  intros Hin Hle. cbn [infix_loop]. unfold look. destruct (op_reads op p toks tail Hin) as [-> [(-> & -> & _)|(-> & -> & El)]].
  - rewrite (proj2 (Z.leb_le minBP bpCompare)) by (unfold bpCompare; lia). erewrite bind_ok; [reflexivity|].
    unfold skip. by rewrite drop_app_length.
  - assert (forall A, (if minBP <=? bpCompare then None else None) = @None A) as E by (intros; by destruct (minBP <=? bpCompare)).
    rewrite !E, (proj2 (Z.ltb_ge p minBP)) by (done || lia). erewrite bind_ok; [reflexivity|]. unfold advance, skip.
    destruct toks as [|t [|]]; done.
Qed.
Lemma no_postfix_op op p toks tail : (op, (p, toks)) ∈ binops -> no_postfix (toks ++ tail).
Proof. intros Hin. by op_cases Hin. Qed.
Lemma stops_op op p toks tail : (op, (p, toks)) ∈ binops -> stops (p + 1) (toks ++ tail).
Proof.
  intros Hin. pose proof (binop_level _ _ _ Hin). pose proof (no_postfix_op _ _ _ tail Hin).
  destruct (op_reads op p toks tail Hin) as [E1 [(E2 & -> & E3)|(E2 & E3 & _)]]; (split; [done|by left|(by left) || (right; lia)|]);
    rewrite E3; intros ? ? [=]; lia.
Qed.

Definition null_tokens (op : bytes) : list token :=
  if op =s "IS NULL" then [kw "IS"; kw "NULL"] else [kw "IS"; kw "NOT"; kw "NULL"].
Lemma null_reads op tail : op ∈ str <$> ["IS NULL"; "IS NOT NULL"]%string ->
  isNull (null_tokens op ++ tail) = Some (op, length (null_tokens op)) /\ stops 5 (null_tokens op ++ tail).
Proof. intros Hop. cbn [fmap list_fmap] in Hop. set_unfold in Hop. destruct_or! Hop; subst op; (split; [reflexivity|split; [done|right; lia|right; lia|done]]). Qed.
Lemma null_step pexpr fuel minBP l op tail : op ∈ str <$> ["IS NULL"; "IS NOT NULL"]%string -> minBP <= 4 ->
  infix_loop pexpr (S fuel) minBP l (null_tokens op ++ tail) = infix_loop pexpr fuel minBP (Unary op l) tail.
Proof.
  intros Hop Hle. cbn [infix_loop]. unfold look. rewrite (proj2 (Z.leb_le minBP bpCompare)) by (unfold bpCompare; lia).
  rewrite (proj1 (null_reads op tail Hop)). erewrite bind_ok; [reflexivity|]. unfold skip. by rewrite drop_app_length.
Qed.
Lemma loop_stops pexpr fuel b e l : stops b l -> infix_loop pexpr (S fuel) b e l = Ok (e, l).
Proof.
  intros [_ Hn Hk Hi]. cbn [infix_loop]. unfold look.
  assert ((if b <=? bpCompare then isNull l else None) = None) as -> by (destruct (Z.leb_spec b bpCompare); [unfold bpCompare in *; destruct Hn; [done|lia]|done]).
  assert ((if b <=? bpCompare then matchKeywordInfix l else None) = None) as -> by (destruct (Z.leb_spec b bpCompare); [unfold bpCompare in *; destruct Hk; [done|lia]|done]).
  destruct (infixBP l) as [[p op]|]; [|done]. specialize (Hi p op eq_refl). by rewrite (proj2 (Z.ltb_lt p b)).
Qed.
Lemma postfix_stops pexpr fuel e l : no_postfix l -> parsePostfix pexpr (S fuel) e l = Ok (e, l).
Proof. destruct l as [|[] l]; try done. Qed.

(** ** Reading back *)

(** What follows a list [l] of tokens of an expression [e], by the loop that
    reads the postfixes, respectively the infix operators, of [e]. *)
Definition posts (f : nat) (e : Expr) (rest : list token) (r : res (Expr * list token)) : Prop :=
  forall fuel, (length rest < fuel)%nat -> parsePostfix (parse_expr f) fuel e rest = r.
Definition loops (f : nat) (b : Z) (e : Expr) (rest : list token) (r : res (Expr * list token)) : Prop :=
  forall fuel, (length rest < fuel)%nat -> infix_loop (parse_expr f) fuel b e rest = r.
Definition no_call (rest : list token) : Prop := match rest with tLParen :: _ => False | _ => True end.

(** The expression is read where it stands: as a whole, before postfixes, and
    as the left operand of operators. *)
Definition reads (e : Expr) : Prop := forall b f rest,
  0 <= b <= 8 -> (length (show b e ++ rest) < f)%nat -> stops b rest -> parse_expr f b (show b e ++ rest) = Ok (e, rest).
Definition heads (e : Expr) : Prop := forall f rest r,
  (length (show 8 e ++ rest) <= f)%nat -> no_call rest -> posts f e rest r -> parsePrefix (parse_expr f) (show 8 e ++ rest) = r.
Definition leads (e : Expr) : Prop := forall b minBP f rest r,
  0 <= minBP <= b -> b <= 8 -> (length (show b e ++ rest) <= f)%nat -> stops (b + 1) rest -> loops f minBP e rest r ->
  expr_body (parse_expr f) minBP (show b e ++ rest) = r.

(** The same without the parentheses. *)
Definition heads_raw (e : Expr) : Prop := forall f rest r,
  (length (raw e ++ rest) <= f)%nat -> no_call rest -> posts f e rest r -> parsePrefix (parse_expr f) (raw e ++ rest) = r.
Definition leads_raw (e : Expr) : Prop := forall minBP f rest r,
  0 <= minBP <= level e -> (length (raw e ++ rest) <= f)%nat -> stops (level e + 1) rest -> loops f minBP e rest r ->
  expr_body (parse_expr f) minBP (raw e ++ rest) = r.

Lemma show_raw b e : b <= level e -> show b e = raw e.
Proof. intros Hb. unfold show. by rewrite (proj2 (Z.ltb_ge _ _)). Qed.
Lemma show_paren b e : level e < b -> show b e = paren (raw e).
Proof. intros Hb. unfold show. by rewrite (proj2 (Z.ltb_lt _ _)). Qed.
Lemma paren_app l rest : paren l ++ rest = tLParen :: l ++ tRParen :: rest.
Proof. unfold paren. cbn. by rewrite <- app_assoc. Qed.

Lemma prefix_paren f e l rest r : parse_expr f 0 (l ++ tRParen :: rest) = Ok (e, tRParen :: rest) -> posts f e rest r ->
  parsePrefix (parse_expr f) (paren l ++ rest) = r.
Proof.
  intros E Hr. rewrite paren_app. transitivity (postfix (parse_expr f) e rest).
  - change (parsePrefix (parse_expr f) (tLParen :: l ++ tRParen :: rest))
      with ((e ← parsePrimary (parse_expr f); postfix (parse_expr f) e) (tLParen :: l ++ tRParen :: rest)).
    erewrite bind_ok; [reflexivity|].
    change (parsePrimary (parse_expr f) (tLParen :: l ++ tRParen :: rest))
      with ((e ← parse_expr f 0; _ ← expect tRParen; mret e) (l ++ tRParen :: rest)).
    erewrite bind_ok; [|exact E]. erewrite bind_ok; [|apply expect_ok]. reflexivity.
  - unfold postfix, look. apply Hr. lia.
Qed.

Lemma body_of_prefix f b l e rest r : parsePrefix (parse_expr f) l = Ok (e, rest) -> loops f b e rest r -> expr_body (parse_expr f) b l = r.
Proof. intros E Hr. unfold expr_body. erewrite bind_ok; [|exact E]. unfold look. apply Hr. lia. Qed.

Lemma posts_stop f e rest : no_postfix rest -> posts f e rest (Ok (e, rest)).
Proof. intros Hn [|fuel] Hf; [lia|]. by apply postfix_stops. Qed.
Lemma loops_stop f b e rest : stops b rest -> loops f b e rest (Ok (e, rest)).
Proof. intros Hs [|fuel] Hf; [lia|]. by apply loop_stops. Qed.
Lemma no_postfix_call rest : no_postfix rest -> no_call rest.
Proof. by destruct rest as [|[] rest]. Qed.

(** An expression read without its parentheses is read in every place. *)
Lemma raw_reads e : 0 <= level e -> leads_raw e -> forall f rest,
  (length (raw e ++ rest) < f)%nat -> stops 0 rest -> parse_expr f 0 (raw e ++ rest) = Ok (e, rest).
Proof.
  intros Hlev Hl [|f] rest Hf Hs; [lia|]. cbn [parse_expr]. apply Hl; [lia|lia|by eapply stops_mono; [|exact Hs]; lia|by apply loops_stop].
Qed.

Lemma leads_all e : 0 <= level e -> leads_raw e -> leads e.
Proof.
  intros Hlev Hl b minBP f rest r Hb Hb8 Hf Hs Hr. destruct (Z.le_gt_cases b (level e)) as [Hle|Hgt].
  - rewrite show_raw in * by done. apply Hl; [lia|done|by eapply stops_mono; [|exact Hs]; lia|done].
  - rewrite show_paren in * by lia. eapply body_of_prefix; [|exact Hr]. eapply prefix_paren; [|by apply posts_stop, Hs].
    apply raw_reads; [done|done| |by apply stops_close; unfold closing; set_solver]. rewrite paren_app in Hf. cbn in Hf. lia.
Qed.
Lemma reads_all e : leads e -> reads e.
Proof.
  intros Hl b [|f] rest Hb Hf Hs; [lia|]. cbn [parse_expr]. apply (Hl b); [lia|lia|lia|by eapply stops_mono; [|exact Hs]; lia|by apply loops_stop].
Qed.

(** What the induction carries: every place an expression may stand in. *)
Record readable (e : Expr) : Prop := { rd_leads : leads e; rd_heads : heads e }.
Lemma rd_show e b f rest : readable e -> 0 <= b <= 8 -> (length (show b e ++ rest) < f)%nat -> stops b rest ->
  parse_expr f b (show b e ++ rest) = Ok (e, rest).
Proof. intros [Hl _]. by apply reads_all. Qed.
Lemma show_0 e : 0 <= level e -> show 0 e = raw e.
Proof. apply show_raw. Qed.

Lemma readable_leads e : 0 <= level e < 8 -> leads_raw e -> readable e.
Proof.
  intros Hlev Hl. split; [apply leads_all; [lia|done]|]. intros f rest r Hf Hn Hr. rewrite show_paren in * by lia.
  eapply prefix_paren; [|exact Hr]. apply raw_reads; [lia|done| |by apply stops_close; unfold closing; set_solver]. rewrite paren_app in Hf. cbn in Hf. lia.
Qed.
Lemma readable_heads e : level e = 8 -> heads_raw e -> readable e.
Proof.
  intros Hlev Hh. split.
  - apply leads_all; [lia|]. intros minBP f rest r Hb Hf Hs Hr. eapply body_of_prefix; [|exact Hr].
    apply Hh; [done|apply no_postfix_call, Hs|apply posts_stop, Hs].
  - intros f rest r. rewrite show_raw by lia. apply Hh.
Qed.

(** Printed expressions have a level, and do not start with a closing token. *)
Lemma printable_level e : printable e -> 0 <= level e <= 8.
Proof.
  destruct e; cbn; try lia.
  - intros _. repeat case_match; lia.
  - intros [[[p toks] E] _]. rewrite E. apply binop_in, binop_level in E. cbn. lia.
Qed.
Lemma read_starts f b l x t : parse_expr f b l = Ok x -> t ∈ [tDotDot; tRBracket; tRParen; tStar; tRBrace] -> at_ t l = false.
Proof.
  intros E Ht. apply not_true_is_false. intros [l' ->]%at_cons. destruct f; [done|]. revert E. set_unfold in Ht.
  by destruct_or! Ht; subst t.
Qed.

Lemma prefix_primary f l e rest r : atKw "NOT" l = false -> at_ tMinus l = false ->
  parsePrimary (parse_expr f) l = Ok (e, rest) -> posts f e rest r -> parsePrefix (parse_expr f) l = r.
Proof.
  intros E1 E2 E Hr. unfold parsePrefix, look. rewrite E1, E2. erewrite bind_ok; [|exact E]. unfold postfix, look. apply Hr. lia.
Qed.
End printable.
End Printer.
