(* ===== verification/Roundtrip.v ===== *)
(** * Roundtrip: the parser reads back what the printer writes

    One lemma per form of expression, put together by induction on the
    expression: [parse_expr] reads [show b e] as [e] before any tokens that do
    not continue an expression of precedence [b]. *)
From S2P Require Import Prelude Float64 FloatArith Values Ast Scalars Text Keys Records Storage Catalog Graph Context Functions Lexer Parser ParserLaws Printer.
Import Ast Scalars Text Context Functions Lexer Parser ParserLaws Printer.

Module Roundtrip.
Section roundtrip.
Context `{Runtime}.

Ltac len := repeat (rewrite ?length_app, ?length_drop in *; cbn [length app paren] in *); lia.
Ltac closes :=
  lazymatch goal with
  | |- stops 0 (kw _ :: _) => apply stops_kw; apply (bool_decide_unpack _); vm_compute; exact I
  | |- _ => apply stops_close; apply (bool_decide_unpack _); vm_compute; exact I
  end.

(** ** Operators *)
Lemma readable_binary op l r p toks : binop op = Some (p, toks) -> readable l -> readable r -> readable (Binary op l r).
Proof.
  intros E Hl Hr. pose proof (binop_in _ _ _ E) as Hin. pose proof (binop_level _ _ _ Hin).
  assert (level (Binary op l r) = p) as Elev by (unfold level; by rewrite E).
  assert (raw (Binary op l r) = show p l ++ toks ++ show (p + 1) r) as Eraw by (cbn [raw]; by rewrite E).
  apply readable_leads; [lia|]. intros minBP f rest res Hb Hf Hs Hres. rewrite Elev, Eraw in *. rewrite <- !app_assoc in Hf |- *.
  assert (1 <= length toks)%nat by by eapply op_length.
  apply (rd_leads l Hl p); [lia|lia|len|by eapply stops_op|]. intros [|fuel] Hfuel; [lia|]. rewrite (infix_step _ _ _ _ _ _ _ _ Hin) by lia.
  erewrite bind_ok; [|apply rd_show; [done|lia|len|done]]. apply Hres. len.
Qed.

Lemma readable_null op x : op ∈ str <$> ["IS NULL"; "IS NOT NULL"]%string -> readable x -> readable (Unary op x).
Proof.
  intros Hop Hx. assert (level (Unary op x) = 4 /\ raw (Unary op x) = show 4 x ++ null_tokens op) as [Elev Eraw].
  { cbn [fmap list_fmap] in Hop. set_unfold in Hop. by destruct_or! Hop; subst op. }
  apply readable_leads; [lia|]. intros minBP f rest res Hb Hf Hs Hres. rewrite Elev, Eraw in *. rewrite <- !app_assoc in Hf |- *.
  apply (rd_leads x Hx 4); [lia|lia|done|by apply null_reads|]. intros [|fuel] Hfuel; [lia|]. rewrite null_step by (done || lia).
  apply Hres. assert (1 <= length (null_tokens op))%nat by (unfold null_tokens; case_match; cbn; lia). len.
Qed.

Lemma stops_4_3 l : stops 4 l -> stops 3 l.
Proof.
  intros [Hn [Hi|] [Hk|] Hx]; try lia. split; [done|by left|by left|]. intros p op E. specialize (Hx p op E).
  enough (p <> 3) by lia. intros ->. clear -E. unfold infixBP in E. by repeat case_match.
Qed.
Lemma stops_any b l : stops b l -> stops 7 l.
Proof.
  intros [Hn _ _ _]. split; [done|right; lia|right; lia|]. intros p op E. unfold infixBP in E.
  repeat case_match; injection E as <- _ || discriminate E; lia.
Qed.
Lemma readable_not x : readable x -> readable (Unary (str "NOT") x).
Proof.
  intros Hx. apply readable_leads; [change (0 <= 3 < 8); lia|]. intros minBP f rest r Hb Hf Hs Hr.
  change (raw (Unary (str "NOT") x)) with (kw "NOT" :: show 3 x) in *. eapply body_of_prefix; [|exact Hr]. cbn [app] in *.
  change (parsePrefix (parse_expr f) (kw "NOT" :: show 3 x ++ rest)) with ((e ← parse_expr f 3; mret (Unary (str "NOT") e)) (show 3 x ++ rest)).
  erewrite bind_ok; [reflexivity|]. apply rd_show; [done|lia|len|by apply stops_4_3].
Qed.
Lemma readable_minus x : readable x -> readable (Unary (str "-") x).
Proof.
  intros Hx. apply readable_leads; [change (0 <= 7 < 8); lia|]. intros minBP f rest r Hb Hf Hs Hr.
  change (raw (Unary (str "-") x)) with (tMinus :: show 7 x) in *. eapply body_of_prefix; [|exact Hr]. cbn [app] in *.
  change (parsePrefix (parse_expr f) (tMinus :: show 7 x ++ rest)) with ((e ← parse_expr f 7; mret (Unary (str "-") e)) (show 7 x ++ rest)).
  erewrite bind_ok; [reflexivity|]. apply rd_show; [done|lia|len|by eapply stops_any].
Qed.
Lemma readable_unary op x : op ∈ str <$> ["NOT"; "-"; "IS NULL"; "IS NOT NULL"]%string -> readable x -> readable (Unary op x).
Proof.
  intros Hop Hx. cbn [fmap list_fmap] in Hop. set_unfold in Hop.
  destruct_or! Hop; subst op; [by apply readable_not|by apply readable_minus|apply readable_null; set_solver..].
Qed.

(** ** Leaves *)
Lemma readable_primary e : level e = 8 ->
  (forall rest, atKw "NOT" (raw e ++ rest) = false /\ at_ tMinus (raw e ++ rest) = false) ->
  (forall f rest, (length (raw e ++ rest) <= f)%nat -> no_call rest -> parsePrimary (parse_expr f) (raw e ++ rest) = Ok (e, rest)) -> readable e.
Proof.
  intros Hlev Hs Hp. apply readable_heads; [done|]. intros f rest r Hf Hn Hr. destruct (Hs rest). eapply prefix_primary; eauto.
Qed.
Lemma readable_literal v : literal_ok v -> readable (Literal v).
Proof. intros Hv. apply readable_primary; [done|..]; destruct v; try done; by case_match || (destruct b). Qed.
Lemma readable_param n : readable (Param n).
Proof. by apply readable_primary. Qed.

(** A name that is not reserved. *)
Lemma reserved_parts name : reserved name = false -> EqualFold name (str "true") = false /\ EqualFold name (str "false") = false /\
  EqualFold name (str "null") = false /\ EqualFold name (str "case") = false /\ EqualFold name (str "NOT") = false.
Proof. unfold reserved. cbn [existsb]. rewrite !orb_false_iff. tauto. Qed.
Lemma primary_ident pexpr name l : reserved name = false ->
  parsePrimary pexpr (tIdent name :: l)
  = (if peek_is 0 tLParen l then parseFunctionCall pexpr (tIdent name :: l) else Ok (Variable_ name, l)).
Proof.
  intros (E1 & E2 & E3 & E4 & _)%reserved_parts. change (parsePrimary pexpr (tIdent name :: l)) with (parseIdent pexpr name (tIdent name :: l)).
  unfold parseIdent. rewrite E1, E2, E3, E4. unfold look. change (peek_is 1 tLParen (tIdent name :: l)) with (peek_is 0 tLParen l). by case_match.
Qed.
Lemma prefix_ident name l : reserved name = false -> atKw "NOT" (tIdent name :: l) = false /\ at_ tMinus (tIdent name :: l) = false.
Proof. by intros (_ & _ & _ & _ & E)%reserved_parts. Qed.
Lemma readable_variable name : reserved name = false -> readable (Variable_ name).
Proof.
  intros Hr. apply readable_primary; [done|intros rest; by apply prefix_ident|]. intros f rest Hf Hn. cbn [raw app]. rewrite primary_ident by done.
  by destruct rest as [|[] rest].
Qed.

(** ** Postfixes *)
Lemma readable_postfix e t l : level e = 8 -> readable t -> raw e = show 8 t ++ l -> no_call l -> l <> [] ->
  (forall f rest r, (length (l ++ rest) <= f)%nat -> posts f e rest r -> posts f t (l ++ rest) r) -> readable e.
Proof.
  intros Hlev Ht E Hl Hne Hp. apply readable_heads; [done|]. intros f rest r Hf Hn Hr. rewrite E, <- app_assoc in *.
  apply (rd_heads t Ht); [done|by destruct l|]. apply Hp; [len|done].
Qed.
Lemma readable_property t k : readable t -> readable (PropertyAccess t k).
Proof.
  intros Ht. eapply (readable_postfix _ t [tDot; tIdent k]); [done..|]. intros f rest r Hf Hr [|fuel] Hfuel; [len|].
  change (parsePostfix (parse_expr f) fuel (PropertyAccess t k) rest = r). apply Hr. len.
Qed.

(** What is read between two delimiters. *)
Lemma read_raw f e t rest : printable e -> readable e -> (length (raw e ++ t :: rest) < f)%nat -> stops 0 (t :: rest) ->
  parse_expr f 0 (raw e ++ t :: rest) = Ok (e, t :: rest).
Proof. intros Hp He Hf Hs. rewrite <- (show_0 e) in * by apply printable_level, Hp. apply rd_show; [done|lia|done|done]. Qed.
Lemma raw_starts e t rest : printable e -> readable e -> t ∈ [tDotDot; tRBracket; tRParen; tStar; tRBrace] -> at_ t (raw e ++ rest) = false.
Proof.
  intros Hp He Ht. assert (forall t', t' ∈ [tDotDot; tRBracket; tRParen; tStar; tRBrace] -> at_ t' (raw e ++ [tRParen]) = false) as Hs.
  { intros t' Ht'. eapply read_starts; [|done]. apply (read_raw (S (length (raw e ++ [tRParen])))); [done|done|lia|closes]. }
  destruct (raw e) as [|u us]; [by specialize (Hs tRParen ltac:(set_solver))|]. exact (Hs t Ht).
Qed.

Lemma advance_cons t l : Parser.advance (t :: l) = Ok (tt, l).
Proof. done. Qed.
Lemma posts_bracket f e t l rest r fuel : parseSubscript (parse_expr f) t (tLBracket :: l) = Ok (e, rest) ->
  (length rest < fuel)%nat -> posts f e rest r -> parsePostfix (parse_expr f) (S fuel) t (tLBracket :: l) = r.
Proof.
  intros E Hf Hr. cbn [parsePostfix]. unfold look at 1. rewrite at_same. erewrite bind_ok; [|exact E]. by apply Hr.
Qed.
Lemma readable_subscript t i : printable i -> readable t -> readable i -> readable (Subscript t i).
Proof.
  intros Hpi Ht Hi. eapply (readable_postfix _ t (tLBracket :: raw i ++ [tRBracket])); [done..|].
  intros f rest r Hf Hr [|fuel] Hfuel; [len|]. cbn [app] in *. rewrite <- app_assoc in *.
  apply (posts_bracket f (Subscript t i) t _ rest); [|len|exact Hr]. unfold parseSubscript. rewrite (bind_ok _ _ _ _ _ (advance_cons _ _)). unfold look at 1.
  rewrite raw_starts by (done || set_solver). erewrite bind_ok; [|apply read_raw; [done|done|len|closes]].
  unfold look. change (at_ tDotDot (tRBracket :: rest)) with false. cbv iota. erewrite bind_ok; [reflexivity|apply expect_ok].
Qed.

(** The end of a slice. *)
Definition slice_end (pexpr : Z -> P Expr) (t : Expr) (from : option Expr) : P Expr :=
  to_ ← look (fun l => if at_ tRBracket l then mret None else e ← pexpr 0; mret (Some e)); _ ← expect tRBracket; mret (Slice t from to_).
Definition opt_raw (o : option Expr) : list token := match o with Some x => raw x | None => [] end.
Definition good (e : Expr) : Prop := printable e /\ readable e.
Definition good_opt (o : option Expr) : Prop := forall x, o = Some x -> good x.
Lemma slice_end_ok f t from o rest : good_opt o -> (length (opt_raw o ++ tRBracket :: rest) < f)%nat ->
  slice_end (parse_expr f) t from (opt_raw o ++ tRBracket :: rest) = Ok (Slice t from o, rest).
Proof.
  intros Ho Hf. unfold slice_end. destruct o as [x|]; cbn [opt_raw app] in *.
  - destruct (Ho x eq_refl) as [Hp Hx]. erewrite bind_ok; [erewrite bind_ok; [reflexivity|apply expect_ok]|].
    unfold look. rewrite raw_starts by (done || set_solver). erewrite bind_ok; [reflexivity|]. apply read_raw; [done|done|done|closes].
  - erewrite bind_ok; [erewrite bind_ok; [reflexivity|apply expect_ok]|]. unfold look. by rewrite at_same.
Qed.
Lemma readable_slice t from o : readable t -> good_opt from -> good_opt o -> readable (Slice t from o).
Proof.
  intros Ht Hfrom Ho. eapply (readable_postfix _ t (tLBracket :: opt_raw from ++ tDotDot :: opt_raw o ++ [tRBracket])); [done..|].
  intros f rest r Hf Hr [|fuel] Hfuel; [len|]. cbn [app] in *. rewrite <- app_assoc in *. cbn [app] in *. rewrite <- app_assoc in *. cbn [app] in *.
  apply (posts_bracket f (Slice t from o) t _ rest); [|len|exact Hr]. unfold parseSubscript. rewrite (bind_ok _ _ _ _ _ (advance_cons _ _)).
  transitivity (slice_end (parse_expr f) t from (opt_raw o ++ tRBracket :: rest)); [|apply slice_end_ok; [done|len]].
  destruct from as [x|]; cbn [opt_raw app] in *; [|unfold look at 1; rewrite at_same; reflexivity].
  destruct (Hfrom x eq_refl) as [Hp Hx]. unfold look at 1. rewrite raw_starts by (done || set_solver).
  erewrite bind_ok; [|apply read_raw; [done|done|len|closes]]. unfold look at 1. rewrite at_same. reflexivity.
Qed.

(** ** Label predicates *)
Lemma labels_read ls : forall fuel rest, (length (show_labels ls ++ rest) < fuel)%nat -> no_postfix rest -> labels_loop fuel (show_labels ls ++ rest) = Ok (ls, rest).
Proof.
  induction ls as [|n ls IH]; intros [|fuel] rest Hf Hn; try lia.
  - cbn. unfold when_, look. by destruct rest as [|[] rest].
  - change (show_labels (n :: ls) ++ rest) with (tColon :: tIdent n :: show_labels ls ++ rest) in *. cbn [labels_loop]. rewrite when_yes.
    erewrite bind_ok; [|reflexivity]. erewrite bind_ok; [reflexivity|]. apply IH; [len|done].
Qed.
Lemma readable_labels x ls : ls <> [] -> readable x -> readable (LabelsPredicate x ls).
Proof.
  intros Hne Hx. apply readable_leads; [change (0 <= 7 < 8); lia|]. intros minBP f rest r Hb Hf Hs Hr.
  change (raw (LabelsPredicate x ls)) with (show 8 x ++ show_labels ls) in *. rewrite <- app_assoc in Hf |- *.
  eapply body_of_prefix; [|exact Hr]. destruct ls as [|n ls]; [done|]. apply (rd_heads x Hx); [done|done|].
  intros [|fuel] Hfuel; [lia|]. pose proof (labels_read (n :: ls) _ rest (Nat.lt_succ_diag_r _) (st_postfix _ _ Hs)) as E.
  change (show_labels (n :: ls) ++ rest) with (tColon :: tIdent n :: show_labels ls ++ rest) in *. cbn [parsePostfix]. unfold look at 1.
  change (at_ tLBracket _) with false. change (at_ tDot _) with false. rewrite at_same. erewrite bind_ok; [reflexivity|]. exact E.
Qed.

(** ** Lists between brackets *)
Lemma read_paren f e t rest : good e -> (length (paren (raw e) ++ t :: rest) < f)%nat -> stops 0 (t :: rest) ->
  parse_expr f 0 (paren (raw e) ++ t :: rest) = Ok (e, t :: rest).
Proof.
  intros [Hp He] Hf Hs. destruct f as [|f]; [lia|]. cbn [parse_expr]. eapply body_of_prefix; [|by apply loops_stop].
  eapply prefix_paren; [|by apply posts_stop, Hs]. rewrite paren_app in Hf. apply read_raw; [done|done|len|closes].
Qed.

Section lists.
Context {A : Type} (item : P A) (sh : A -> list token) (c : token) (n : nat).
Hypothesis Hc : c <> tComma.
Definition item_reads (x : A) : Prop := forall t rest, t = tComma \/ t = c -> (length (sh x ++ t :: rest) <= n)%nat ->
  item (sh x ++ t :: rest) = Ok (x, t :: rest).

Lemma comma_read xs : forall x fuel rest, Forall item_reads (x :: xs) ->
  (length (comma_sep (sh <$> x :: xs) ++ c :: rest) <= n)%nat -> (length (comma_sep (sh <$> x :: xs) ++ c :: rest) < fuel)%nat ->
  comma_loop fuel item (comma_sep (sh <$> x :: xs) ++ c :: rest) = Ok (x :: xs, c :: rest).
Proof.
  induction xs as [|y ys IH]; intros x [|fuel] rest Hall Hn Hf; try lia; apply Forall_cons in Hall as [Hx Hxs].
  - cbn [fmap list_fmap comma_sep concat] in *. rewrite app_nil_r in *. cbn [comma_loop]. erewrite bind_ok; [|apply Hx; [by right|done]].
    erewrite bind_ok; [reflexivity|]. unfold when_, look, at_, peek. cbn. by rewrite bool_decide_false by congruence.
  - change (comma_sep (sh <$> x :: y :: ys)) with (sh x ++ tComma :: comma_sep (sh <$> y :: ys)) in *. rewrite <- app_assoc in *.
    cbn [comma_loop]. erewrite bind_ok; [|apply Hx; [by left|done]]. cbn [app] in *. erewrite bind_ok; [reflexivity|].
    rewrite when_yes. apply IH; [done|len|len].
Qed.
Lemma comma_list_read x xs rest : Forall item_reads (x :: xs) -> (length (comma_sep (sh <$> x :: xs) ++ c :: rest) <= n)%nat ->
  comma_list item (comma_sep (sh <$> x :: xs) ++ c :: rest) = Ok (x :: xs, c :: rest).
Proof. intros Hall Hn. unfold comma_list, look. apply comma_read; [done|done|lia]. Qed.
End lists.

Definition paren_raw (x : Expr) : list token := paren (raw x).
Lemma parens_read f c l : c ∈ [tRParen; tRBracket] -> Forall good l -> Forall (item_reads (parse_expr f 0) paren_raw c (f - 1)) l.
Proof.
  intros Hc Hl. eapply Forall_impl; [exact Hl|]. intros x Hx t rest Ht Hn.
  apply read_paren; [done|unfold paren_raw in *; len|]. destruct Ht as [->| ->]; [closes|]. apply stops_close. unfold closing. set_solver.
Qed.

Lemma readable_list l : Forall good l -> readable (ListLiteral l).
Proof.
  intros Hl. apply readable_primary; [done..|]. intros f rest Hf _.
  change (raw (ListLiteral l)) with (tLBracket :: comma_sep (paren_raw <$> l) ++ [tRBracket]) in *. cbn [app] in *. rewrite <- app_assoc in *. cbn [app] in *.
  set (body := comma_sep (paren_raw <$> l) ++ tRBracket :: rest) in *.
  change (parsePrimary (parse_expr f) (tLBracket :: body)) with (parseListLiteral (parse_expr f) (tLBracket :: body)).
  unfold parseListLiteral. unfold look at 1. change (is_ident (peek 1 (tLBracket :: body))) with (is_ident (peek 0 body)).
  assert (is_ident (peek 0 body) = false) as -> by by destruct l. cbn [andb]. rewrite (bind_ok _ _ _ _ _ (advance_cons _ _)).
  erewrite bind_ok; [erewrite bind_ok; [reflexivity|apply expect_ok]|]. unfold look. destruct l as [|x xs]; [done|].
  change (at_ tRBracket body) with false. cbv iota. apply (comma_list_read _ _ _ (f - 1)); [done|apply parens_read; [set_solver|done]|].
  fold body. len.
Qed.

(** ** Maps *)
Lemma entry_set_new {A : Type} (k : bytes) (v : A) m : k ∉ m.*1 -> entry_set k v m = m ++ [(k, v)].
Proof.
  induction m as [|[k' v'] m IH]; [done|]. cbn [fmap list_fmap entry_set]. intros Hk. apply not_elem_of_cons in Hk as [Hne Hk].
  rewrite bool_decide_false by done. by rewrite IH.
Qed.
Lemma entry_set_all {A : Type} (es acc : list (bytes * A)) : NoDup (acc ++ es).*1 -> foldl (fun m e => entry_set e.1 e.2 m) acc es = acc ++ es.
Proof.
  revert acc. induction es as [|[k v] es IH]; intros acc Hnd; cbn [foldl]; [by rewrite app_nil_r|].
  assert (acc ++ (k, v) :: es = (acc ++ [(k, v)]) ++ es) as E by by rewrite <- app_assoc.
  pose proof Hnd as Hnd'. rewrite fmap_app in Hnd'. apply NoDup_app in Hnd' as (_ & Hk & _).
  cbn [fst snd]. rewrite entry_set_new by (intros Hin; apply (Hk _ Hin); cbn; set_solver). rewrite E. apply IH. by rewrite <- E.
Qed.
Definition show_entry (e : bytes * Expr) : list token := [tIdent e.1; tColon] ++ raw e.2.
(** Reading expressions before a delimiter, up to [n] tokens. *)
Definition reader (pexpr : Z -> P Expr) (n : nat) : Prop := forall e t rest, good e -> stops 0 (t :: rest) ->
  (length (raw e ++ t :: rest) <= n)%nat -> pexpr 0 (raw e ++ t :: rest) = Ok (e, t :: rest).
Lemma parse_expr_reader f : reader (parse_expr f) (f - 1).
Proof. intros e t rest [Hp He] Hs Hn. apply read_raw; [done|done|len|done]. Qed.
Lemma entries_read pexpr n es : reader pexpr n -> Forall (fun e : bytes * Expr => good e.2) es -> Forall (item_reads (map_entry pexpr) show_entry tRBrace n) es.
Proof.
  intros Hread Hl. eapply Forall_impl; [exact Hl|]. intros [k x] Hx t rest Ht Hn. cbn [fst snd] in *. unfold map_entry.
  cbn [show_entry app fst snd] in *. erewrite bind_ok; [|reflexivity]. erewrite bind_ok; [|apply expect_ok].
  erewrite bind_ok; [reflexivity|]. apply Hread; [done| |len]. by destruct Ht as [->| ->]; closes.
Qed.
Definition show_map (m : list (bytes * Expr)) : list token := tLBrace :: comma_sep (show_entry <$> m) ++ [tRBrace].
Lemma map_read pexpr n m rest : reader pexpr n -> NoDup m.*1 -> Forall (fun e : bytes * Expr => good e.2) m -> (length (show_map m ++ rest) <= S n)%nat ->
  parsePropertyMap pexpr (show_map m ++ rest) = Ok (m, rest).
Proof.
  intros Hread Hnd Hm Hn. unfold show_map in *. cbn [app] in *. rewrite <- app_assoc in *. cbn [app] in *.
  set (body := comma_sep (show_entry <$> m) ++ tRBrace :: rest) in *. unfold parsePropertyMap. erewrite bind_ok; [|apply expect_ok].
  erewrite bind_ok; [erewrite bind_ok; [|apply expect_ok]; unfold mret, P_ret; by rewrite (entry_set_all m [])|]. unfold look.
  destruct m as [|x xs]; [done|]. change (at_ tRBrace body) with false. cbv iota.
  apply (comma_list_read _ _ _ n); [done|by apply entries_read|]. fold body. len.
Qed.
Lemma readable_map m : NoDup m.*1 -> Forall (fun e : bytes * Expr => good e.2) m -> readable (MapLiteral m).
Proof.
  intros Hnd Hm. apply readable_primary; [done..|]. intros f rest Hf _. change (raw (MapLiteral m)) with (show_map m) in *.
  transitivity ((m ← parsePropertyMap (parse_expr f); mret (MapLiteral m)) (show_map m ++ rest)); [reflexivity|].
  erewrite bind_ok; [reflexivity|]. apply (map_read _ (f - 1)); [apply parse_expr_reader|done|done|lia].
Qed.

(** ** Calls and quantifiers *)
Lemma primary_call f name l r : reserved name = false ->
  parseFunctionCall (parse_expr f) (tIdent name :: tLParen :: l) = r -> parsePrimary (parse_expr f) (tIdent name :: tLParen :: l) = r.
Proof. intros Hn E. by rewrite primary_ident. Qed.
Lemma star_args_read f (star : bool) args rest : (star = true -> args = []) -> Forall good args ->
  (length ((if star then [tStar] else comma_sep (paren_raw <$> args)) ++ tRParen :: rest) < f)%nat ->
  when_ tStar (mret (true, [])) (look (fun l => if at_ tRParen l then mret (false, []) else es ← comma_list (parse_expr f 0); mret (false, es)))
    ((if star then [tStar] else comma_sep (paren_raw <$> args)) ++ tRParen :: rest) = Ok (star, args, tRParen :: rest).
Proof.
  intros Hstar Hargs Hf. destruct star; [by rewrite Hstar|]. destruct args as [|x xs]; [done|]. unfold when_, look.
  change (at_ tStar _) with false. cbv iota beta. change (at_ tRParen _) with false. cbv iota. erewrite bind_ok; [reflexivity|].
  apply (comma_list_read _ _ _ (f - 1)); [done|apply parens_read; [set_solver|done]|]. len.
Qed.
Lemma readable_call name distinct star args : reserved name = false -> (star = true -> args = []) -> Forall good args ->
  readable (FunctionCall name distinct star args).
Proof.
  intros Hn Hstar Hargs. apply readable_primary; [done|intros rest; by apply prefix_ident|]. intros f rest Hf _.
  set (inner := if star then [tStar] else comma_sep (paren_raw <$> args)).
  assert (raw (FunctionCall name distinct star args) ++ rest
    = tIdent name :: tLParen :: (if distinct then [kw "DISTINCT"] else []) ++ inner ++ tRParen :: rest) as E.
  { cbn [raw app]. do 2 f_equal. by rewrite <- !app_assoc. }
  rewrite E in *. apply primary_call; [done|]. unfold parseFunctionCall. erewrite bind_ok; [|reflexivity]. erewrite bind_ok; [|apply expect_ok].
  assert (at_ident ((if distinct then [kw "DISTINCT"] else []) ++ inner ++ tRParen :: rest) &&
          peekKw 1 "IN" ((if distinct then [kw "DISTINCT"] else []) ++ inner ++ tRParen :: rest) = false) as Hno.
  { unfold inner. by destruct distinct, star, args. }
  unfold look at 1. rewrite <- andb_assoc, Hno, andb_false_r. cbv iota. unfold call_args.
  assert (whenKw "DISTINCT" (mret true) (mret false) ((if distinct then [kw "DISTINCT"] else []) ++ inner ++ tRParen :: rest) = Ok (distinct, inner ++ tRParen :: rest)) as Ed.
  { unfold inner. by destruct distinct, star, args. }
  erewrite bind_ok; [|exact Ed]. erewrite bind_ok; [|apply star_args_read; [done|done|destruct distinct; fold inner; len]].
  cbv beta iota. erewrite bind_ok; [reflexivity|apply expect_ok].
Qed.

Definition is_kw (k : String.string) : Prop := forall l, atKw k (kw k :: l) = true.
Lemma expectKw_ok k l : is_kw k -> expectKw k (kw k :: l) = Ok (tt, l).
Proof. intros Hk. unfold expectKw, look. by rewrite Hk. Qed.
Lemma whenKw_yes {A : Type} k (yes no : P A) l : is_kw k -> whenKw k yes no (kw k :: l) = yes l.
Proof. intros Hk. unfold whenKw, look. by rewrite Hk. Qed.
Lemma in_clause_read f v l t rest : good l -> stops 0 (t :: rest) -> (length (raw l ++ t :: rest) < f)%nat ->
  parseInClause (parse_expr f) (tIdent v :: kw "IN" :: raw l ++ t :: rest) = Ok (v, l, t :: rest).
Proof.
  intros [Hp Hl] Hs Hf. unfold parseInClause. erewrite bind_ok; [|reflexivity]. erewrite bind_ok; [|by apply expectKw_ok].
  erewrite bind_ok; [reflexivity|]. by apply read_raw.
Qed.
Lemma readable_quantifier kind v l w : kind ∈ str <$> ["any"; "all"; "none"; "single"]%string -> good l -> good w -> readable (Quantifier kind v l w).
Proof.
  intros Hk Hl [Hpw Hw]. assert (reserved kind = false /\ is_quantifier (ToLower kind) = true /\ ToLower kind = kind) as (Hr & Hq & Hlow).
  { cbn [fmap list_fmap] in Hk. set_unfold in Hk. by destruct_or! Hk; subst kind. }
  apply readable_primary; [done|intros rest; by apply prefix_ident|]. intros f rest Hf _.
  assert (raw (Quantifier kind v l w) ++ rest = tIdent kind :: tLParen :: tIdent v :: kw "IN" :: raw l ++ kw "WHERE" :: raw w ++ tRParen :: rest) as E.
  { cbn [raw app]. do 4 f_equal. rewrite <- !app_assoc. cbn [app]. by rewrite <- app_assoc. }
  rewrite E in *. apply primary_call; [done|]. unfold parseFunctionCall. erewrite bind_ok; [|reflexivity]. erewrite bind_ok; [|apply expect_ok].
  unfold look at 1. rewrite Hq. change (at_ident _) with true. change (peekKw 1 "IN" _) with true. cbn [andb]. cbv iota.
  erewrite bind_ok; [|apply in_clause_read; [done|closes|len]]. cbv beta iota. erewrite bind_ok; [|by apply expectKw_ok].
  erewrite bind_ok; [|apply read_raw; [done|done|len|closes]]. erewrite bind_ok; [|apply expect_ok]. by rewrite Hlow.
Qed.

(** ** Comprehensions and CASE *)
Lemma optKw_read f k o t rest : is_kw k -> good_opt o -> atKw k (t :: rest) = false -> stops 0 (t :: rest) ->
  (length (match o with Some x => kw k :: raw x | None => [] end ++ t :: rest) < f)%nat ->
  optKw (parse_expr f) k (match o with Some x => kw k :: raw x | None => [] end ++ t :: rest) = Ok (o, t :: rest).
Proof.
  intros Hk Ho Hn Hs Hf. unfold optKw. destruct o as [x|]; cbn [app] in *.
  - destruct (Ho x eq_refl) as [Hp Hx]. rewrite whenKw_yes by done. erewrite bind_ok; [reflexivity|]. apply read_raw; [done|done|len|done].
  - unfold whenKw, look. by rewrite Hn.
Qed.
Lemma readable_comprehension v l w m : good l -> good_opt w -> good_opt m -> readable (ListComprehension v l w m).
Proof.
  intros Hl Hw Hm. apply readable_primary; [done..|]. intros f rest Hf _.
  set (mp := match m with Some x => tPipe :: raw x | None => [] end). set (wh := match w with Some x => kw "WHERE" :: raw x | None => [] end).
  assert (raw (ListComprehension v l w m) ++ rest = tLBracket :: tIdent v :: kw "IN" :: raw l ++ wh ++ mp ++ tRBracket :: rest) as E.
  { cbn [raw app]. do 3 f_equal. by rewrite <- !app_assoc. }
  rewrite E in *. change (parsePrimary (parse_expr f) _) with (parseListComprehension (parse_expr f) (tLBracket :: tIdent v :: kw "IN" :: raw l ++ wh ++ mp ++ tRBracket :: rest)).
  unfold parseListComprehension. rewrite (bind_ok _ _ _ _ _ (advance_cons _ _)).
  assert (exists t rest', mp ++ tRBracket :: rest = t :: rest' /\ (t = tPipe \/ t = tRBracket)) as (t & rest' & Et & Ht).
  { destruct m; cbn; eauto. }
  assert (stops 0 (t :: rest') /\ atKw "WHERE" (t :: rest') = false) as [Hs Hk] by (by destruct Ht as [->| ->]; (split; [closes|])).
  assert (exists t' rest'', wh ++ t :: rest' = t' :: rest'' /\ stops 0 (t' :: rest'')) as (t' & rest'' & Et' & Hs').
  { destruct w; cbn; [eexists _, _; split; [done|closes]|eauto]. }
  rewrite Et, Et' in *. erewrite bind_ok; [|apply in_clause_read; [done|done|len]]. cbv beta iota. rewrite <- Et' in *.
  erewrite bind_ok; [|apply optKw_read; [done|done|done|done|fold wh; len]]. rewrite <- Et in *. unfold mp in *. clear Et Et'.
  destruct m as [x|]; cbn [app] in *.
  - destruct (Hm x eq_refl) as [Hp Hx]. erewrite bind_ok; [|rewrite when_yes; erewrite bind_ok; [reflexivity|apply read_raw; [done|done|len|closes]]].
    erewrite bind_ok; [reflexivity|apply expect_ok].
  - erewrite bind_ok; [|reflexivity]. erewrite bind_ok; [reflexivity|apply expect_ok].
Qed.

Definition show_when (w : Expr * Expr) : list token := kw "WHEN" :: raw w.1 ++ kw "THEN" :: raw w.2.
Definition good_when (w : Expr * Expr) : Prop := good w.1 /\ good w.2.
Lemma whens_read f ws : forall fuel t rest, Forall good_when ws -> atKw "WHEN" (t :: rest) = false -> stops 0 (t :: rest) ->
  (length (concat (show_when <$> ws) ++ t :: rest) < fuel)%nat -> (length (concat (show_when <$> ws) ++ t :: rest) < f)%nat ->
  whens (parse_expr f) fuel (concat (show_when <$> ws) ++ t :: rest) = Ok (ws, t :: rest).
Proof.
  induction ws as [|[c r] ws IH]; intros [|fuel] t rest Hws Hn Hs Hfuel Hf; try lia.
  { cbn. unfold whenKw, look. by rewrite Hn. }
  apply Forall_cons in Hws as [[[Hpc Hc] [Hpr Hr]] Hws]. cbn [fst snd] in *.
  assert (concat (show_when <$> (c, r) :: ws) ++ t :: rest = kw "WHEN" :: raw c ++ kw "THEN" :: raw r ++ concat (show_when <$> ws) ++ t :: rest) as E.
  { cbn [fmap list_fmap concat show_when fst snd app]. repeat (rewrite <- ?app_assoc; cbn [app]); done. }
  rewrite E in *. cbn [whens]. rewrite whenKw_yes by done. erewrite bind_ok; [|apply read_raw; [done|done|len|closes]].
  erewrite bind_ok; [|by apply expectKw_ok].
  assert (exists t' rest', concat (show_when <$> ws) ++ t :: rest = t' :: rest' /\ stops 0 (t' :: rest')) as (t' & rest' & Et & Hs').
  { destruct ws; cbn; [eauto|]. eexists _, _. split; [done|closes]. }
  rewrite Et in *. erewrite bind_ok; [|apply read_raw; [done|done|len|done]]. rewrite <- Et in *.
  erewrite bind_ok; [reflexivity|]. apply IH; [done|done|done|len|len].
Qed.
Lemma readable_case o ws els : ws <> [] -> good_opt o -> Forall good_when ws -> good_opt els -> readable (Case o ws els).
Proof.
  intros Hne Ho Hws Hels. apply readable_primary; [done..|]. intros f rest Hf _.
  set (op := match o with Some x => paren (raw x) | None => [] end). set (el := match els with Some x => kw "ELSE" :: raw x | None => [] end).
  assert (raw (Case o ws els) ++ rest = kw "CASE" :: op ++ concat (show_when <$> ws) ++ el ++ kw "END" :: rest) as E.
  { cbn [raw app]. f_equal. by rewrite <- !app_assoc. }
  rewrite E in *. change (parsePrimary (parse_expr f) _) with (parseCase (parse_expr f) (kw "CASE" :: op ++ concat (show_when <$> ws) ++ el ++ kw "END" :: rest)).
  unfold parseCase. rewrite (bind_ok _ _ _ _ _ (advance_cons _ _)).
  assert (exists t rest', el ++ kw "END" :: rest = t :: rest' /\ (t = kw "ELSE" \/ t = kw "END")) as (t & rest' & Et & Ht).
  { destruct els; cbn; eauto. }
  assert (stops 0 (t :: rest') /\ atKw "WHEN" (t :: rest') = false) as [Hs Hk] by (by destruct Ht as [->| ->]; (split; [closes|])).
  erewrite (bind_ok _ _ _ o (concat (show_when <$> ws) ++ el ++ kw "END" :: rest)); [|unfold op in *; destruct o as [x|]; [|by destruct ws as [|[] ws]]].
  2:{ unfold look. change (atKw "WHEN" _) with false. cbv iota. destruct ws as [|[c r] ws]; [done|].
      change (concat (show_when <$> (c, r) :: ws)) with (kw "WHEN" :: (raw c ++ kw "THEN" :: raw r) ++ concat (show_when <$> ws)) in *. cbn [app] in *.
      erewrite bind_ok; [reflexivity|]. apply read_paren; [by apply Ho|len|closes]. }
  rewrite Et in *. erewrite bind_ok; [|unfold look; apply whens_read; [done|done|done|lia|len]]. rewrite bool_decide_false by done.
  rewrite <- Et in *. cbv iota. erewrite bind_ok; [|apply optKw_read; [done|done|done|closes|fold el; len]].
  erewrite bind_ok; [reflexivity|by apply expectKw_ok].
Qed.

(** ** Every printable expression *)
Lemma foldr_and {A : Type} (f : A -> Prop) l : foldr (fun x acc => f x /\ acc) True l -> Forall f l.
Proof. induction l as [|x l IH]; cbn; [done|]. intros [Hx Hl]. constructor; auto. Qed.
Lemma good_forall {A : Type} (f : A -> Expr) l : Forall (fun x => printable (f x) -> readable (f x)) l ->
  foldr (fun x acc => printable (f x) /\ acc) True l -> Forall (fun x => good (f x)) l.
Proof.
  intros Hr Hp. apply foldr_and in Hp. rewrite Forall_forall in *. intros x Hx. split; [by apply Hp|by apply Hr; [|apply Hp]].
Qed.
Lemma good_option o : (forall x, o = Some x -> printable x -> readable x) -> match o with Some x => printable x | None => True end -> good_opt o.
Proof. intros Hr Hp x ->. split; [done|by apply Hr]. Qed.

Lemma printable_readable e : printable e -> readable e.
Proof.
  induction e using expr_ind'; cbn [printable].
  - apply readable_literal.
  - intros _. apply readable_param.
  - apply readable_variable.
  - intros Ht. by apply readable_property, IHe.
  - intros [Hop Hx]. by apply readable_unary; [|apply IHe].
  - intros ([[p toks] E] & Hl & Hr). by eapply readable_binary; [exact E|apply IHe1|apply IHe2].
  - intros (Hn & Hs & Ha). apply readable_call; [done|done|]. by apply (good_forall id).
  - intros [Hne Hx]. by apply readable_labels; [|apply IHe].
  - intros Hl. apply readable_list. by apply (good_forall id).
  - intros [Hnd Hm]. apply readable_map; [done|]. by apply good_forall.
  - intros (Hne & Ho & Hws & He). apply readable_case; [done|by apply good_option| |by apply good_option].
    apply foldr_and in Hws. rewrite Forall_forall in *. intros w Hw. destruct (Hws w Hw), (H1 w Hw). by split; (split; auto).
  - intros [Ht Hi]. by apply readable_subscript; [|apply IHe1|apply IHe2].
  - intros (Hl & Hw & Hm). apply readable_comprehension; [split; auto|by apply good_option|by apply good_option].
  - intros (Hk & Hl & Hw). apply readable_quantifier; [done|split; auto|split; auto].
  - intros (Ht & Hf & Ho). apply readable_slice; [auto|by apply good_option|by apply good_option].
Qed.

(** The parser reads the printed form, up to what stops it. *)
Lemma parse_show b e rest : printable e -> 0 <= b <= 8 -> stops b rest -> parseExpr b (show b e ++ rest) = Ok (e, rest).
Proof. intros Hp Hb Hs. unfold parseExpr, look. apply rd_show; [by apply printable_readable|done|lia|done]. Qed.
End roundtrip.
End Roundtrip.
