(* ===== verification/QueryText.v ===== *)
(** * QueryText: whole queries as text, and back

    A printer of patterns, projections, clauses and queries, and the round trip
    through the parser of src/query/parser/parser.go: tokens first, then text. *)
From S2P Require Import Prelude Float64 FloatArith Values Ast Scalars Text Keys Records Storage Catalog Graph Context Functions Lexer LexerLaws Parser ParserLaws Printer Roundtrip.
Import Ast Scalars Text Context Functions Lexer LexerLaws Parser ParserLaws Printer Roundtrip.

Module QueryText.

(** ** Printing patterns *)
Definition opt_name (v : bytes) : list token := if bool_decide (v = []) then [] else [tIdent v].
Definition show_props (m : list (bytes * Expr)) : list token := if bool_decide (m.*1 = []) then [] else show_map m.
Definition show_node (n : NodePattern) : list token :=
  tLParen :: opt_name (np_Variable n) ++ show_labels (np_Labels n) ++ show_props (np_Props n) ++ [tRParen].
Definition show_types (ts : list bytes) : list token :=
  match ts with [] => [] | t :: ts => [tColon; tIdent t] ++ concat ((fun t => [tPipe; tIdent t]) <$> ts) end.
Definition show_bound (n : Z) : list token := if n =? -1 then [] else [tInt (dec n) n].
Definition show_hops (r : RelPattern) : list token :=
  if rp_VarLength r then tStar :: show_bound (rp_MinHops r) ++ tDotDot :: show_bound (rp_MaxHops r) else [].
Definition show_detail (r : RelPattern) : list token :=
  tLBracket :: opt_name (rp_Variable r) ++ show_types (rp_Types r) ++ show_hops r ++ show_props (rp_Props r) ++ [tRBracket].
Definition show_rel (r : RelPattern) : list token :=
  (match rp_Direction r with DirIn => [tLt] | _ => [] end) ++ tMinus :: show_detail r ++ tMinus
  :: (match rp_Direction r with DirOut => [tGt] | _ => [] end).
Definition show_chain (c : PatternChain) : list token := show_rel (ch_Rel c) ++ show_node (ch_Node c).
Definition show_path (start : NodePattern) (chain : list PatternChain) : list token := show_node start ++ concat (show_chain <$> chain).
Definition show_part (p : PatternPart) : list token :=
  (if bool_decide (pp_Variable p = []) then [] else [tIdent (pp_Variable p); tEq]) ++
  match pp_Shortest p with
  | NotShortest => show_path (pp_Start p) (pp_Chain p)
  | k => [kw (match k with ShortestAll => "allShortestPaths" | _ => "shortestPath" end); tLParen] ++ show_path (pp_Start p) (pp_Chain p) ++ [tRParen]
  end.

Section roundtrip.
Context `{Runtime}.

Ltac len := repeat (rewrite ?length_app, ?length_drop in *; cbn [length app paren] in *); lia.
Ltac closes :=
  lazymatch goal with
  | |- stops 0 (kw _ :: _) => apply stops_kw; apply (bool_decide_unpack _); vm_compute; exact I
  | |- _ => apply stops_close; apply (bool_decide_unpack _); vm_compute; exact I
  end.

(** ** Reading tokens *)
Lemma printable_good e : printable e -> good e.
Proof. intros Hp. split; [done|by apply printable_readable]. Qed.
Lemma parseExpr_reader n : reader parseExpr n.
Proof. intros e t rest [Hp He] Hs _. unfold parseExpr, look. apply read_raw; [done|done|lia|done]. Qed.
Lemma parseExpr_paren e t rest : good e -> stops 0 (t :: rest) -> parseExpr 0 (paren (raw e) ++ t :: rest) = Ok (e, t :: rest).
Proof. intros He Hs. unfold parseExpr, look. apply read_paren; [done|lia|done]. Qed.
Lemma at_other t u l : t <> u -> at_ t (u :: l) = false.
Proof. intros Hne. unfold at_, peek. cbn. apply bool_decide_eq_false. congruence. Qed.

Definition props_ok (m : list (bytes * Expr)) : Prop := NoDup m.*1 /\ Forall (fun e => printable e.2) m.
Lemma props_good m : props_ok m -> Forall (fun e : bytes * Expr => good e.2) m.
Proof. intros [_ Hm]. eapply Forall_impl; [exact Hm|]. intros e. apply printable_good. Qed.
Lemma opt_props_read m t rest : props_ok m -> t <> tLBrace -> opt_props (show_props m ++ t :: rest) = Ok (m, t :: rest).
Proof.
  intros Hm Ht. unfold opt_props, look, show_props. destruct m as [|e m]; [cbn [fmap list_fmap app]; rewrite bool_decide_true by done; cbn [app]; by rewrite at_other|].
  rewrite bool_decide_false by done. unfold show_map at 1. cbn [app]. rewrite at_same. fold (show_map (e :: m)).
  change (tLBrace :: (comma_sep (show_entry <$> e :: m) ++ [tRBrace]) ++ t :: rest) with (show_map (e :: m) ++ t :: rest).
  eapply (map_read _ (length (show_map (e :: m) ++ t :: rest))); [apply parseExpr_reader|apply Hm|by apply props_good|lia].
Qed.
Lemma opt_ident_read v t rest : is_ident (Some t) = false -> opt_ident (opt_name v ++ t :: rest) = Ok (v, t :: rest).
Proof.
  intros Ht. unfold opt_ident, look, opt_name. case_bool_decide as E; [subst v|done]. cbn [app]. unfold at_ident, peek. cbn [lookup list_lookup].
  change (is_ident ((t :: rest) !! 0%nat)) with (is_ident (Some t)). by rewrite Ht.
Qed.
Lemma parseLabels_read ls rest : no_postfix rest -> parseLabels (show_labels ls ++ rest) = Ok (ls, rest).
Proof. intros Hn. unfold parseLabels, look. apply labels_read; [lia|done]. Qed.

Definition node_ok (n : NodePattern) : Prop := props_ok (np_Props n).
(** What follows the name of a node or relationship: labels, properties or the
    closing token. *)
Lemma props_head m t rest : exists u l, show_props m ++ t :: rest = u :: l /\ (u = tLBrace \/ u = t).
Proof. unfold show_props. case_bool_decide; [|unfold show_map]; cbn [app]; eauto. Qed.
Lemma node_read n rest : node_ok n -> parseNodePattern (show_node n ++ rest) = Ok (n, rest).
Proof.
  intros Hn. destruct n as [v ls ps]. unfold node_ok in Hn. cbn [np_Props] in Hn. unfold parseNodePattern, show_node. cbn [np_Variable np_Labels np_Props app].
  rewrite <- !app_assoc. cbn [app]. erewrite bind_ok; [|apply expect_ok]. destruct (props_head ps tRParen rest) as (u & l & E & Hu).
  assert (exists u' l', show_labels ls ++ show_props ps ++ tRParen :: rest = u' :: l' /\ is_ident (Some u') = false) as (u' & l' & E' & Hu').
  { rewrite E. destruct ls as [|x ls]; cbn [show_labels fmap list_fmap concat app]; eexists _, _; split; try done. by destruct Hu as [->| ->]. }
  rewrite E'. erewrite bind_ok; [|by apply opt_ident_read]. rewrite <- E'.
  erewrite bind_ok; [|apply parseLabels_read; rewrite E; by destruct Hu as [->| ->]].
  erewrite bind_ok; [|by apply opt_props_read]. erewrite bind_ok; [reflexivity|apply expect_ok].
Qed.

(** ** Relationships and paths *)
Definition rel_ok (r : RelPattern) : Prop :=
  props_ok (rp_Props r) /\ (rp_VarLength r = false -> rp_MinHops r = -1 /\ rp_MaxHops r = -1).
Lemma types_read ts : forall fuel t rest, t <> tPipe -> (length (concat ((fun t => [tPipe; tIdent t]) <$> ts) ++ t :: rest) < fuel)%nat ->
  types_loop fuel (concat ((fun t => [tPipe; tIdent t]) <$> ts) ++ t :: rest) = Ok (ts, t :: rest).
Proof.
  induction ts as [|x ts IH]; intros [|fuel] t rest Ht Hf; try lia.
  - cbn [fmap list_fmap concat app types_loop]. unfold when_, look. by rewrite at_other.
  - cbn [fmap list_fmap concat app types_loop] in *. rewrite when_yes. erewrite bind_ok; [|reflexivity]. erewrite bind_ok; [reflexivity|].
    apply IH; [done|len].
Qed.
Lemma opt_types_read ts t rest : t <> tPipe -> t <> tColon ->
  when_ tColon (name ← identName; rest ← look (fun l => types_loop (S (length l))); mret (name :: rest)) (mret []) (show_types ts ++ t :: rest) = Ok (ts, t :: rest).
Proof.
  intros Ht Hc. destruct ts as [|x ts]; cbn [show_types app].
  - unfold when_, look. by rewrite at_other.
  - rewrite when_yes. erewrite bind_ok; [|reflexivity]. erewrite bind_ok; [reflexivity|]. unfold look. apply types_read; [done|lia].
Qed.
Lemma opt_int_read n t rest : match t with tInt _ _ => False | _ => True end -> opt_int (show_bound n ++ t :: rest) = Ok (n, t :: rest).
Proof. intros Ht. unfold show_bound. destruct (Z.eqb_spec n (-1)) as [->|]; [by destruct t|done]. Qed.
Lemma hops_read r t rest : rel_ok r -> t = tLBrace \/ t = tRBracket ->
  hops (show_hops r ++ t :: rest) = Ok (rp_VarLength r, rp_MinHops r, rp_MaxHops r, t :: rest).
Proof.
  intros [_ Hr] Ht. unfold hops, show_hops. destruct (rp_VarLength r).
  - cbn [app]. rewrite <- app_assoc. cbn [app]. rewrite when_yes. erewrite bind_ok; [|by apply opt_int_read].
    erewrite bind_ok; [|rewrite when_yes; apply opt_int_read; by destruct Ht as [->| ->]]. done.
  - destruct (Hr eq_refl) as [-> ->]. cbn [app]. unfold when_, look. rewrite at_other by (destruct Ht; congruence). done.
Qed.
Lemma detail_read r dir rest : rel_ok r -> parseRelDetail dir (show_detail r ++ rest) = Ok (set_direction dir r, rest).
Proof.
  intros Hr. pose proof Hr as [Hp _]. unfold parseRelDetail, show_detail. cbn [app]. rewrite <- !app_assoc. cbn [app].
  rewrite (bind_ok _ _ _ _ _ (advance_cons _ _)). destruct (props_head (rp_Props r) tRBracket rest) as (u & l & E & Hu).
  assert (exists u1 l1, show_hops r ++ show_props (rp_Props r) ++ tRBracket :: rest = u1 :: l1 /\ (u1 = tStar \/ u1 = tLBrace \/ u1 = tRBracket)) as (u1 & l1 & E1 & Hu1).
  { rewrite E. unfold show_hops. case_match; cbn [app]; eexists _, _; split; [done|tauto|done|tauto]. }
  assert (exists u2 l2, show_types (rp_Types r) ++ u1 :: l1 = u2 :: l2 /\ is_ident (Some u2) = false) as (u2 & l2 & E2 & Hu2).
  { destruct (rp_Types r); cbn [show_types app]; eexists _, _; split; [done| |done|done]. by destruct Hu1 as [->|[->| ->]]. }
  rewrite E1, E2. erewrite bind_ok; [|by apply opt_ident_read]. rewrite <- E2.
  erewrite bind_ok; [|apply opt_types_read; destruct Hu1 as [->|[->| ->]]; done]. rewrite <- E1, E.
  erewrite bind_ok; [|apply hops_read; done]. cbv beta iota. rewrite <- E. erewrite bind_ok; [|by apply opt_props_read].
  erewrite bind_ok; [reflexivity|apply expect_ok].
Qed.
Lemma rel_read r t rest : rel_ok r -> t <> tGt -> parseRelPattern (show_rel r ++ t :: rest) = Ok (r, t :: rest).
Proof.
  intros Hr Ht. unfold parseRelPattern, show_rel.
  set (arrow := match rp_Direction r with DirOut => [tGt] | _ => [] end).
  assert (((match rp_Direction r with DirIn => [tLt] | _ => [] end) ++ tMinus :: show_detail r ++ tMinus :: arrow) ++ t :: rest
    = (match rp_Direction r with DirIn => [tLt] | _ => [] end) ++ tMinus :: show_detail r ++ tMinus :: arrow ++ t :: rest) as ->.
  { rewrite <- app_assoc. cbn [app]. by rewrite <- app_assoc. }
  erewrite (bind_ok _ _ _ (match rp_Direction r with DirIn => true | _ => false end) (tMinus :: show_detail r ++ tMinus :: arrow ++ t :: rest)) by by destruct (rp_Direction r).
  erewrite bind_ok; [|apply expect_ok]. erewrite bind_ok; [|unfold look; unfold show_detail at 1; cbn [app]; rewrite at_same; by apply detail_read].
  erewrite bind_ok; [|apply expect_ok].
  assert (when_ tGt (mret true) (mret false) (arrow ++ t :: rest) = Ok (match rp_Direction r with DirOut => true | _ => false end, t :: rest)) as Ea.
  { unfold arrow. destruct (rp_Direction r); cbn [app]; [by rewrite when_yes|unfold when_, look; by rewrite at_other..]. }
  erewrite bind_ok; [|exact Ea]. destruct r as [v ts ps [] vl mn mx]; done.
Qed.

Definition chain_ok (c : PatternChain) : Prop := rel_ok (ch_Rel c) /\ node_ok (ch_Node c).
Lemma chain_read cs : forall fuel t rest, Forall chain_ok cs -> t <> tMinus -> t <> tLt -> (length (concat (show_chain <$> cs) ++ t :: rest) < fuel)%nat ->
  chain_loop fuel (concat (show_chain <$> cs) ++ t :: rest) = Ok (cs, t :: rest).
Proof.
  induction cs as [|c cs IH]; intros [|fuel] t rest Hcs Ht Hl Hf; try lia.
  - cbn [fmap list_fmap concat app chain_loop]. unfold look. by rewrite !at_other.
  - apply Forall_cons in Hcs as [[Hr Hn] Hcs].
    assert (concat (show_chain <$> c :: cs) ++ t :: rest = show_rel (ch_Rel c) ++ show_node (ch_Node c) ++ concat (show_chain <$> cs) ++ t :: rest) as E.
    { cbn [fmap list_fmap concat]. unfold show_chain at 1. by rewrite <- !app_assoc. }
    rewrite E in *. cbn [chain_loop]. unfold look.
    assert (forall l, at_ tMinus (show_rel (ch_Rel c) ++ l) || at_ tLt (show_rel (ch_Rel c) ++ l) = true) as ->.
    { intros l. unfold show_rel. destruct (rp_Direction (ch_Rel c)); cbn [app]; rewrite at_same; [done|apply orb_true_r|done]. }
    erewrite bind_ok; [|by apply rel_read]. change (tLParen :: ?a ++ concat ?b ++ ?d) with ((tLParen :: a) ++ concat b ++ d).
    erewrite bind_ok; [|by apply (node_read (ch_Node c))]. erewrite bind_ok; [by destruct c|].
    apply IH; [done|done|done|]. rewrite length_app in Hf. unfold show_node in Hf. len.
Qed.

Definition part_ok (p : PatternPart) : Prop := node_ok (pp_Start p) /\ Forall chain_ok (pp_Chain p).
Lemma path_read p t rest : part_ok p -> t <> tMinus -> t <> tLt ->
  (start ← parseNodePattern; chain ← look (fun l => chain_loop (S (length l))); mret (mkPatternPart (pp_Variable p) start chain NotShortest))
    (show_path (pp_Start p) (pp_Chain p) ++ t :: rest) = Ok (mkPatternPart (pp_Variable p) (pp_Start p) (pp_Chain p) NotShortest, t :: rest).
Proof.
  intros [Hn Hc] Ht Hl. unfold show_path. rewrite <- app_assoc. erewrite bind_ok; [|by apply node_read].
  erewrite bind_ok; [reflexivity|]. unfold look. apply chain_read; [done|done|done|lia].
Qed.
Lemma path_variable_read p rest : path_variable (show_part p ++ rest)
  = Ok (pp_Variable p, show_part (mkPatternPart [] (pp_Start p) (pp_Chain p) (pp_Shortest p)) ++ rest).
Proof.
  unfold path_variable, show_part. cbn [pp_Variable pp_Start pp_Chain pp_Shortest]. rewrite (bool_decide_true ([] = [])) by done.
  case_bool_decide as E; [rewrite E|done]. by destruct (pp_Shortest p).
Qed.
Lemma plain_part_read fuel p t rest : part_ok p -> pp_Shortest p = NotShortest -> t <> tMinus -> t <> tLt ->
  pattern_part (S fuel) (show_part p ++ t :: rest) = Ok (p, t :: rest).
Proof.
  intros Hp Hs Ht Hl. cbn [pattern_part]. erewrite bind_ok; [|apply path_variable_read]. rewrite Hs.
  change (show_part (mkPatternPart [] (pp_Start p) (pp_Chain p) NotShortest)) with (show_path (pp_Start p) (pp_Chain p)). unfold look at 1.
  assert (forall l, shortest_kind (show_path (pp_Start p) (pp_Chain p) ++ l) = NotShortest) as ->.
  { intros l. unfold shortest_kind. by case_match. }
  rewrite path_read by done. by destruct p as [? ? ? []].
Qed.
Definition shortest_word (k : ShortestKind) : String.string := match k with ShortestAll => "allShortestPaths" | _ => "shortestPath" end.
Lemma show_shortest p l : pp_Shortest p <> NotShortest -> show_part (mkPatternPart [] (pp_Start p) (pp_Chain p) (pp_Shortest p)) ++ l
  = kw (shortest_word (pp_Shortest p)) :: tLParen :: show_part (mkPatternPart [] (pp_Start p) (pp_Chain p) NotShortest) ++ tRParen :: l.
Proof.
  intros Hs. unfold show_part. cbn [pp_Variable pp_Start pp_Chain pp_Shortest]. rewrite bool_decide_true by done.
  destruct (pp_Shortest p); [done|..]; cbn [app]; by rewrite <- app_assoc.
Qed.
Lemma part_read p t rest : part_ok p -> t <> tMinus -> t <> tLt -> parsePatternPart (show_part p ++ t :: rest) = Ok (p, t :: rest).
Proof.
  intros Hp Ht Hl. unfold parsePatternPart, look. assert (pp_Shortest p = NotShortest \/ pp_Shortest p <> NotShortest) as [Hs|Hs] by (destruct (pp_Shortest p); auto); [by apply plain_part_read|].
  assert (exists f, length (show_part p ++ t :: rest) = S f) as [f ->] by (rewrite length_app; cbn; eexists; apply Nat.add_succ_r).
  cbn [pattern_part]. erewrite bind_ok; [|apply path_variable_read]. rewrite show_shortest by done. fold (pattern_part (S f)). unfold look at 1.
  set (inner := mkPatternPart [] (pp_Start p) (pp_Chain p) NotShortest).
  assert (forall l, shortest_kind (kw (shortest_word (pp_Shortest p)) :: tLParen :: l) = pp_Shortest p) as -> by (intros l; by destruct (pp_Shortest p)).
  assert (pattern_part (S f) (show_part inner ++ tRParen :: t :: rest) = Ok (inner, tRParen :: t :: rest)) as E by by apply plain_part_read.
  destruct p as [v n c []]; [done|..]; cbn [pp_Shortest]; (erewrite bind_ok; [|reflexivity]); cbn [drop]; rewrite drop_0;
    (erewrite bind_ok; [|exact E]); cbn [pp_Variable pp_Shortest inner]; (erewrite bind_ok; [|apply expect_ok]); done.
Qed.
End roundtrip.
End QueryText.
