(* ===== verification/ClauseText.v ===== *)
(** * ClauseText: clauses and queries as text, and back

    The printer of projections, clauses and queries, and the round trip through
    [parseQuery] and [Parse] of src/query/parser/parser.go: every clause the
    language has is read back from its printed form. *)
From S2P Require Import Prelude Float64 FloatArith Values Ast Scalars Text Keys Records Storage Catalog Graph Context Functions Lexer LexerLaws Parser ParserLaws Printer Roundtrip QueryText.
Import Ast Scalars Text Context Functions Lexer LexerLaws Parser ParserLaws Printer Roundtrip QueryText.

Module ClauseText.

(** ** Printing projections *)
Definition show_item (it : ReturnItem) : list token :=
  paren (raw (ri_Expr it)) ++ (if bool_decide (ri_Alias it = []) then [] else [kw "AS"; tIdent (ri_Alias it)]).
Definition show_sort (k : SortKey) : list token := paren (raw (sk_Expr k)) ++ [if sk_Desc k then kw "DESC" else kw "ASC"].
Definition show_opt (k : String.string) (o : option Expr) : list token := match o with Some x => kw k :: raw x | None => [] end.
Definition show_order (ks : list SortKey) : list token :=
  match ks with [] => [] | _ => kw "ORDER" :: kw "BY" :: comma_sep (show_sort <$> ks) end.
Definition show_items (star : bool) (items : list ReturnItem) : list token :=
  if star then tStar :: (match items with [] => [] | _ => tComma :: comma_sep (show_item <$> items) end)
  else comma_sep (show_item <$> items).
Definition show_projection (p : projection) : list token :=
  (if pj_distinct p then [kw "DISTINCT"] else []) ++ show_items (pj_star p) (pj_items p) ++ show_order (pj_orderBy p)
  ++ show_opt "SKIP" (pj_skip p) ++ show_opt "LIMIT" (pj_limit p).

(** ** What follows *)
Definition heads_ : list token := tSemi :: (kw <$> ["UNION"; "OPTIONAL"; "MATCH"; "WITH"; "RETURN"; "CREATE"; "MERGE"; "SET"; "REMOVE";
  "UNWIND"; "DETACH"; "DELETE"; "DROP"; "SHOW"]%string).
Definition after_limit : list token := kw "WHERE" :: heads_.
Definition after_skip : list token := kw "LIMIT" :: after_limit.
Definition after_order : list token := kw "SKIP" :: after_skip.
Definition after_items : list token := kw "ORDER" :: after_order.

Section clauses.
Context `{Runtime}.

Ltac closes :=
  lazymatch goal with
  | |- stops 0 (kw _ :: _) => apply stops_kw; apply (bool_decide_unpack _); vm_compute; exact I
  | |- _ => apply stops_close; apply (bool_decide_unpack _); vm_compute; exact I
  end.

Lemma check_kw ts k t l : t ∈ ts -> forallb (fun t => negb (atKw k [t])) ts = true -> atKw k (t :: l) = false.
Proof. intros Ht Hall. rewrite forallb_forall in Hall. by apply negb_true_iff, (Hall t), list_elem_of_In. Qed.
Lemma check_at ts c t l : t ∈ ts -> forallb (fun t => negb (bool_decide (t = c))) ts = true -> t <> c /\ at_ c (t :: l) = false.
Proof.
  intros Ht Hall. rewrite forallb_forall in Hall. specialize (Hall t (proj1 (list_elem_of_In _ _) Ht)).
  apply negb_true_iff, bool_decide_eq_false in Hall. split; [done|]. by apply at_other.
Qed.
Definition stop_token (t : token) : bool := bool_decide (t ∈ closing) || bool_decide (t ∈ kw <$> closing_kw).
Lemma check_stops ts t l : t ∈ ts -> forallb stop_token ts = true -> stops 0 (t :: l).
Proof.
  intros Ht Hall. rewrite forallb_forall in Hall. specialize (Hall t (proj1 (list_elem_of_In _ _) Ht)).
  apply orb_true_iff in Hall as [Hc%bool_decide_eq_true|Hk%bool_decide_eq_true]; [by apply stops_close|].
  apply list_elem_of_fmap in Hk as (k & -> & Hk). by apply stops_kw.
Qed.
(** [t] comes from one of the lists above: the check is a computation. *)
Ltac follow :=
  lazymatch goal with
  | |- stops 0 _ => eapply check_stops; [eassumption|vm_compute; reflexivity]
  | |- atKw _ _ = false => eapply check_kw; [eassumption|vm_compute; reflexivity]
  | |- at_ _ (_ :: ?l) = false => eapply (check_at _ _ _ l); [eassumption|vm_compute; reflexivity]
  | |- _ <> _ => eapply (check_at _ _ _ []); [eassumption|vm_compute; reflexivity]
  end.

Definition opt_ok (o : option Expr) : Prop := match o with Some x => printable x | None => True end.
Lemma opt_read k o t rest : is_kw k -> opt_ok o -> atKw k (t :: rest) = false -> stops 0 (t :: rest) ->
  opt_expr k (show_opt k o ++ t :: rest) = Ok (o, t :: rest).
Proof.
  intros Hk Ho Hn Hs. unfold opt_expr, optKw, show_opt. destruct o as [x|]; cbn [app].
  - rewrite whenKw_yes by done. erewrite bind_ok; [reflexivity|]. by eapply parseExpr_reader; [apply printable_good| |].
  - unfold whenKw, look. by rewrite Hn.
Qed.
Lemma show_opt_head k o t rest ts : t ∈ ts -> exists u l, show_opt k o ++ t :: rest = u :: l /\ u ∈ kw k :: ts.
Proof. intros Ht. destruct o; cbn [show_opt app]; eexists _, _; (split; [done|set_solver]). Qed.

(** ** Projections *)
Definition item_ok (it : ReturnItem) : Prop := printable (ri_Expr it).
Definition sort_ok (k : SortKey) : Prop := printable (sk_Expr k).
Lemma item_read it t rest : item_ok it -> t ∈ tComma :: after_items -> parseReturnItem (show_item it ++ t :: rest) = Ok (it, t :: rest).
Proof.
  intros Hi Ht. destruct it as [e a]. unfold item_ok in Hi. unfold parseReturnItem, show_item. cbn [ri_Expr ri_Alias] in *. rewrite <- app_assoc.
  case_bool_decide as E; cbn [app].
  - subst a. erewrite bind_ok; [|apply parseExpr_paren; [by apply printable_good|follow]]. erewrite bind_ok; [reflexivity|].
    unfold whenKw, look. assert (atKw "AS" (t :: rest) = false) as -> by follow. done.
  - erewrite bind_ok; [|apply parseExpr_paren; [by apply printable_good|closes]]. erewrite bind_ok; [reflexivity|].
    rewrite whenKw_yes by done. done.
Qed.
Lemma sort_read k t rest : sort_ok k -> parseSortItem (show_sort k ++ t :: rest) = Ok (k, t :: rest).
Proof.
  intros Hk. destruct k as [e d]. unfold sort_ok in Hk. unfold parseSortItem, show_sort. cbn [sk_Expr sk_Desc] in *. rewrite <- app_assoc. cbn [app].
  erewrite bind_ok; [|apply parseExpr_paren; [by apply printable_good|destruct d; closes]]. destruct d; (erewrite bind_ok; reflexivity).
Qed.
Lemma list_read {A : Type} (item : P A) (sh : A -> list token) (ok : A -> Prop) (ts : list token) xs t rest :
  (forall x u l, ok x -> u ∈ ts -> item (sh x ++ u :: l) = Ok (x, u :: l)) -> tComma ∈ ts -> t ∈ ts -> t <> tComma -> xs <> [] -> Forall ok xs ->
  comma_list item (comma_sep (sh <$> xs) ++ t :: rest) = Ok (xs, t :: rest).
Proof.
  intros Hitem Hc Ht Htc Hne Hall. destruct xs as [|x xs]; [done|].
  eapply (comma_list_read _ _ _ (length (comma_sep (sh <$> x :: xs) ++ t :: rest))); [done| |lia].
  eapply Forall_impl; [exact Hall|]. intros y Hy u l Hu _. apply Hitem; [done|]. by destruct Hu as [->| ->].
Qed.
Lemma items_read items t rest : items <> [] -> Forall item_ok items -> t ∈ after_items ->
  parseReturnItems (comma_sep (show_item <$> items) ++ t :: rest) = Ok (items, t :: rest).
Proof.
  intros Hne Hall Ht. apply (list_read _ _ item_ok (tComma :: after_items)); [by intros; apply item_read|set_solver|set_solver|follow|done|done].
Qed.
Lemma sorts_read ks t rest : ks <> [] -> Forall sort_ok ks -> t <> tComma -> parseSortItems (comma_sep (show_sort <$> ks) ++ t :: rest) = Ok (ks, t :: rest).
Proof.
  intros Hne Hall Ht. apply (list_read _ _ sort_ok [tComma; t]); [by intros; apply sort_read|set_solver|set_solver|done|done|done].
Qed.
Lemma order_read ks t rest : Forall sort_ok ks -> t ∈ after_order ->
  whenKw "ORDER" (_ ← expectKw "BY"; parseSortItems) (mret []) (show_order ks ++ t :: rest) = Ok (ks, t :: rest).
Proof.
  intros Hks Ht. destruct ks as [|k ks]; cbn [show_order app].
  - unfold whenKw, look. by assert (atKw "ORDER" (t :: rest) = false) as -> by follow.
  - rewrite whenKw_yes by done. erewrite bind_ok; [|by apply expectKw_ok]. apply sorts_read; [done|done|follow].
Qed.

Definition projection_ok (p : projection) : Prop :=
  (pj_star p = false -> pj_items p <> []) /\ Forall item_ok (pj_items p) /\ Forall sort_ok (pj_orderBy p) /\ opt_ok (pj_skip p) /\ opt_ok (pj_limit p).
Lemma star_items_read star items t rest : (star = false -> items <> []) -> Forall item_ok items -> t ∈ after_items ->
  when_ tStar (items ← when_ tComma parseReturnItems (mret []); mret (true, items)) (items ← parseReturnItems; mret (false, items))
    (show_items star items ++ t :: rest) = Ok (star, items, t :: rest).
Proof.
  intros Hs Hall Ht. destruct star; cbn [show_items app].
  - rewrite when_yes. destruct items as [|x xs]; cbn [app].
    + erewrite bind_ok; [reflexivity|]. unfold when_, look. by assert (at_ tComma (t :: rest) = false) as -> by follow.
    + erewrite bind_ok; [reflexivity|]. rewrite when_yes. by apply items_read.
  - specialize (Hs eq_refl). transitivity ((items ← parseReturnItems; mret (false, items)) (comma_sep (show_item <$> items) ++ t :: rest)); [by destruct items|].
    erewrite bind_ok; [reflexivity|]. by apply items_read.
Qed.
Lemma projection_read p t rest : projection_ok p -> t ∈ after_limit -> parseProjection (show_projection p ++ t :: rest) = Ok (p, t :: rest).
Proof.
  intros (Hne & Hi & Ho & Hsk & Hl) Ht. unfold parseProjection, show_projection. rewrite <- !app_assoc.
  destruct (show_opt_head "LIMIT" (pj_limit p) t rest _ Ht) as (u1 & l1 & E1 & H1).
  destruct (show_opt_head "SKIP" (pj_skip p) u1 l1 _ H1) as (u2 & l2 & E2 & H2).
  assert (exists u3 l3, show_order (pj_orderBy p) ++ u2 :: l2 = u3 :: l3 /\ u3 ∈ after_items) as (u3 & l3 & E3 & H3).
  { unfold show_order. destruct (pj_orderBy p); cbn [app]; eexists _, _; (split; [done|]); [apply list_elem_of_further, H2|apply list_elem_of_here]. }
  rewrite E1, E2, E3.
  erewrite (bind_ok _ _ _ (pj_distinct p) (show_items (pj_star p) (pj_items p) ++ u3 :: l3)) by (destruct (pj_distinct p), (pj_star p), (pj_items p); try done; by destruct (Hne eq_refl)).
  erewrite bind_ok; [|by apply star_items_read]. cbv beta iota. rewrite <- E3. erewrite bind_ok; [|by apply order_read]. rewrite <- E2.
  erewrite bind_ok; [|apply opt_read; [done|done|follow|follow]]. rewrite <- E1. erewrite bind_ok; [|apply opt_read; [done|done|follow|follow]]. by destruct p.
Qed.

(** ** Assignments *)
Definition show_set (s : SetClause) : list token :=
  match s with
  | SetPropertyItem (Some (Variable_ v, k)) e => [tIdent v; tDot; tIdent k; tEq] ++ raw e
  | SetPropertyItem _ e => raw e
  | SetLabelsItem v ls => tIdent v :: show_labels ls
  | SetMapItem v e replace => tIdent v :: (if replace then [tEq] else [tPlus; tEq]) ++ raw e
  end.
Definition set_ok (s : SetClause) : Prop :=
  match s with
  | SetPropertyItem (Some (Variable_ v, k)) e => reserved v = false /\ printable e
  | SetPropertyItem _ _ => False
  | SetLabelsItem v ls => ls <> []
  | SetMapItem v e _ => printable e
  end.
Definition show_remove (r : RemoveClause) : list token :=
  match r with
  | RemovePropertyItem (Some (Variable_ v, k)) => [tIdent v; tDot; tIdent k]
  | RemovePropertyItem _ => []
  | RemoveLabelsItem v ls => tIdent v :: show_labels ls
  end.
Definition remove_ok (r : RemoveClause) : Prop :=
  match r with
  | RemovePropertyItem (Some (Variable_ v, k)) => reserved v = false
  | RemovePropertyItem _ => False
  | RemoveLabelsItem v ls => ls <> []
  end.
Definition after_set : list token := tComma :: kw "ON" :: heads_.
Lemma target_read v k t rest : reserved v = false -> no_postfix (t :: rest) ->
  parseSetTarget (tIdent v :: tDot :: tIdent k :: t :: rest) = Ok (Variable_ v, k, t :: rest).
Proof.
  intros Hv Hn. unfold parseSetTarget. erewrite bind_ok; [|rewrite primary_ident by done; reflexivity]. erewrite bind_ok; [|].
  2:{ unfold postfix, look. change (parsePostfix parseExpr (S (length (t :: rest))) (PropertyAccess (Variable_ v) k) (t :: rest) = Ok (PropertyAccess (Variable_ v) k, t :: rest)) || idtac.
      by apply (postfix_stops parseExpr (S (length (t :: rest)))). }
  done.
Qed.
Lemma labelled_read v ls t rest : ls <> [] -> no_postfix (t :: rest) -> labelled_var (tIdent v :: show_labels ls ++ t :: rest) = Ok (v, ls, t :: rest).
Proof.
  intros Hne Hn. unfold labelled_var. erewrite bind_ok; [|reflexivity]. erewrite bind_ok; [|by apply parseLabels_read].
  by rewrite bool_decide_false.
Qed.
Lemma expr_read e t rest : printable e -> stops 0 (t :: rest) -> parseExpr 0 (raw e ++ t :: rest) = Ok (e, t :: rest).
Proof. intros Hp Hs. by eapply parseExpr_reader; [apply printable_good| |]. Qed.
Lemma set_read s t rest : set_ok s -> t ∈ after_set -> parseSetItem (show_set s ++ t :: rest) = Ok (s, t :: rest).
Proof.
  intros Hs Ht. assert (stops 0 (t :: rest)) as Hst by follow. unfold parseSetItem, look. destruct s as [[[[] k]|] e|v ls|v e r]; try done; cbn [set_ok show_set] in Hs |- *.
  - destruct Hs as [Hv Hp]. cbn [app]. change (at_ident _) with true. change (peek 1 _) with (Some tDot). cbn [negb]. cbv iota.
    erewrite bind_ok; [|by apply target_read]. cbv beta iota. erewrite bind_ok; [|apply expect_ok]. erewrite bind_ok; [reflexivity|by apply expr_read].
  - destruct ls as [|l ls]; [done|]. change (at_ident _) with true. change (peek 1 _) with (Some tColon). cbn [negb]. cbv iota.
    erewrite bind_ok; [|by apply labelled_read; [|apply Hst]]. done.
  - destruct r; cbn [app]; change (at_ident _) with true.
    + change (peek 1 _) with (Some tEq). cbn [negb]. cbv iota. erewrite bind_ok; [|reflexivity]. rewrite (bind_ok _ _ _ _ _ (advance_cons _ _)).
      erewrite bind_ok; [reflexivity|by apply expr_read].
    + change (peek 1 _) with (Some tPlus). cbn [negb]. cbv iota. change (peek_is 2 tEq _) with true. cbn [negb]. cbv iota. erewrite bind_ok; [|reflexivity].
      erewrite bind_ok; [|reflexivity]. cbn [drop]. rewrite drop_0. erewrite bind_ok; [reflexivity|by apply expr_read].
Qed.
Lemma remove_read r t rest : remove_ok r -> t ∈ after_set -> parseRemoveItem (show_remove r ++ t :: rest) = Ok (r, t :: rest).
Proof.
  intros Hr Ht. assert (stops 0 (t :: rest)) as Hst by follow. unfold parseRemoveItem, look. destruct r as [[[[] k]|]|v ls]; try done; cbn [remove_ok show_remove] in Hr |- *.
  - cbn [app]. change (at_ident _) with true. change (peek 1 _) with (Some tDot). cbn [negb]. cbv iota. erewrite bind_ok; [|by apply target_read; [|apply Hst]]. done.
  - destruct ls as [|l ls]; [done|]. change (at_ident _) with true. change (peek 1 _) with (Some tColon). cbn [negb]. cbv iota.
    erewrite bind_ok; [|by apply labelled_read; [|apply Hst]]. done.
Qed.

(** ** Clauses *)
Definition show_sets (k : String.string) (l : list SetClause) : list token :=
  match l with [] => [] | _ => kw "ON" :: kw k :: kw "SET" :: comma_sep (show_set <$> l) end.
Definition show_if_exists (b : bool) : list token := if b then [kw "IF"; kw "EXISTS"] else [].
Definition empty_pattern : NodePattern := mkNodePattern [] [] [].
Definition named_label (label : bytes) : list token := [tLParen; kw "n"; tColon; tIdent label; tRParen].
Definition show_clause (c : Clause) : list token :=
  match c with
  | CMatch optional parts w => (if optional then [kw "OPTIONAL"] else []) ++ kw "MATCH" :: comma_sep (show_part <$> parts) ++ show_opt "WHERE" w
  | CWith d st items o sk l w => kw "WITH" :: show_projection (mkProjection d st items o sk l) ++ show_opt "WHERE" w
  | CReturn d st items o sk l => kw "RETURN" :: show_projection (mkProjection d st items o sk l)
  | CCreate parts => kw "CREATE" :: comma_sep (show_part <$> parts)
  | CMerge part c m => kw "MERGE" :: show_part part ++ show_sets "CREATE" c ++ show_sets "MATCH" m
  | CSet items => kw "SET" :: comma_sep (show_set <$> items)
  | CRemove items => kw "REMOVE" :: comma_sep (show_remove <$> items)
  | CUnwind e a => kw "UNWIND" :: raw e ++ [kw "AS"; tIdent a]
  | CDelete detach es => (if detach then [kw "DETACH"] else []) ++ kw "DELETE" :: comma_sep (paren_raw <$> es)
  | CCreateIndex name label prop rel =>
      kw "CREATE" :: kw "INDEX" :: opt_name name ++ kw "FOR"
      :: (if rel then show_node empty_pattern ++ show_rel (mkRelPattern (str "r") [label] [] DirBoth false (-1) (-1)) ++ show_node empty_pattern
          else named_label label) ++ [kw "ON"; tLParen; kw "n"; tDot; tIdent prop; tRParen]
  | CDropIndex name e => kw "DROP" :: kw "INDEX" :: tIdent name :: show_if_exists e
  | CShowIndexes => [kw "SHOW"; kw "INDEXES"]
  | CCreateConstraint name label prop =>
      kw "CREATE" :: kw "CONSTRAINT" :: opt_name name ++ kw "FOR" :: named_label label
      ++ [kw "REQUIRE"; kw "n"; tDot; tIdent prop; kw "IS"; kw "UNIQUE"]
  | CDropConstraint name e => kw "DROP" :: kw "CONSTRAINT" :: tIdent name :: show_if_exists e
  | CShowConstraints => [kw "SHOW"; kw "CONSTRAINTS"]
  end.

(** Names that are not one of the given keywords. *)
Definition not_kw (ks : list String.string) (name : bytes) : Prop := forallb (fun k => negb (EqualFold name (str k))) ks = true.
Definition clause_ok (c : Clause) : Prop :=
  match c with
  | CMatch _ parts w => parts <> [] /\ Forall part_ok parts /\ opt_ok w
  | CWith d st items o sk l w => projection_ok (mkProjection d st items o sk l) /\ opt_ok w
  | CReturn d st items o sk l => projection_ok (mkProjection d st items o sk l)
  | CCreate parts => parts <> [] /\ Forall part_ok parts /\ Forall (fun p => not_kw ["INDEX"; "CONSTRAINT"] (pp_Variable p)) parts
  | CMerge part c m => part_ok part /\ Forall set_ok c /\ Forall set_ok m
  | CSet items => items <> [] /\ Forall set_ok items
  | CRemove items => items <> [] /\ Forall remove_ok items
  | CUnwind e _ => printable e
  | CDelete _ es => es <> [] /\ Forall printable es
  | CCreateIndex name _ _ _ => not_kw ["FOR"] name
  | CCreateConstraint name _ _ => not_kw ["FOR"; "IF"] name
  | _ => True
  end.

Lemma parts_read parts t rest : parts <> [] -> Forall part_ok parts -> t ∈ after_limit -> parsePattern (comma_sep (show_part <$> parts) ++ t :: rest) = Ok (parts, t :: rest).
Proof.
  intros Hne Hall Ht. apply (list_read _ _ part_ok (tComma :: after_limit)); [|set_solver|set_solver|follow|done|done].
  intros p u l Hp Hu. apply part_read; [done|follow|follow].
Qed.
Lemma match_read b parts w t rest : clause_ok (CMatch b parts w) -> t ∈ heads_ ->
  matchBody b (comma_sep (show_part <$> parts) ++ show_opt "WHERE" w ++ t :: rest) = Ok (CMatch b parts w, t :: rest).
Proof.
  intros (Hne & Hall & Hw) Ht. unfold matchBody. destruct (show_opt_head "WHERE" w t rest _ Ht) as (u & l & E & Hu). rewrite E.
  erewrite bind_ok; [|by apply parts_read]. rewrite <- E. erewrite bind_ok; [reflexivity|]. apply opt_read; [done|done|follow|follow].
Qed.
Lemma with_read d st items o sk l w t rest : clause_ok (CWith d st items o sk l w) -> t ∈ heads_ ->
  parseClause (show_clause (CWith d st items o sk l w) ++ t :: rest) = Ok (CWith d st items o sk l w, t :: rest).
Proof.
  intros [Hp Hw] Ht. cbn [show_clause app]. rewrite <- app_assoc. destruct (show_opt_head "WHERE" w t rest _ Ht) as (u & r & E & Hu). rewrite E.
  change (parseClause (kw "WITH" :: ?x)) with (parseWith (kw "WITH" :: x)). unfold parseWith. rewrite (bind_ok _ _ _ _ _ (advance_cons _ _)).
  erewrite bind_ok; [|by apply projection_read]. rewrite <- E. erewrite bind_ok; [reflexivity|]. apply opt_read; [done|done|follow|follow].
Qed.
Lemma sets_read items t rest : items <> [] -> Forall set_ok items -> t ∈ kw "ON" :: heads_ -> parseSetItems (comma_sep (show_set <$> items) ++ t :: rest) = Ok (items, t :: rest).
Proof.
  intros Hne Hall Ht. apply (list_read _ _ set_ok after_set); [by intros; apply set_read|unfold after_set; set_solver|unfold after_set; set_solver|follow|done|done].
Qed.
Lemma show_sets_head k l t rest ts : t ∈ ts -> exists u r, show_sets k l ++ t :: rest = u :: r /\ u ∈ kw "ON" :: ts.
Proof. intros Ht. destruct l; cbn [show_sets app]; eexists _, _; (split; [done|set_solver]). Qed.
Lemma on_none fuel t rest : t ∈ heads_ -> on_loop (S fuel) (t :: rest) = Ok ([], [], t :: rest).
Proof. intros Ht. cbn [on_loop]. unfold whenKw, look. by assert (atKw "ON" (t :: rest) = false) as -> by follow. Qed.
Lemma on_match fuel m t rest : Forall set_ok m -> t ∈ heads_ -> on_loop (S (S fuel)) (show_sets "MATCH" m ++ t :: rest) = Ok ([], m, t :: rest).
Proof.
  intros Hm Ht. destruct m as [|x m]; [by apply on_none|]. cbn [show_sets app]. remember (S fuel) as f eqn:Ef. cbn [on_loop]. subst f.
  rewrite whenKw_yes by done. unfold look at 1.
  change (atKw "CREATE" _) with false. change (atKw "MATCH" _) with true. cbv iota. rewrite (bind_ok _ _ _ _ _ (advance_cons _ _)).
  erewrite bind_ok; [|by apply expectKw_ok]. erewrite bind_ok; [|apply sets_read; [done|done|set_solver]].
  erewrite bind_ok; [|by apply on_none]. cbv beta iota. by rewrite app_nil_r.
Qed.
Lemma on_both fuel c m t rest : Forall set_ok c -> Forall set_ok m -> t ∈ heads_ ->
  (length (show_sets "CREATE" c ++ show_sets "MATCH" m ++ t :: rest) < fuel)%nat ->
  on_loop fuel (show_sets "CREATE" c ++ show_sets "MATCH" m ++ t :: rest) = Ok (c, m, t :: rest).
Proof.
  intros Hc Hm Ht Hf. destruct fuel as [|[|fuel]]; [lia|rewrite !length_app in Hf; cbn in Hf; lia|].
  destruct c as [|x c]; [by apply on_match|]. cbn [show_sets app length] in Hf |- *. destruct fuel as [|fuel]; [lia|]. remember (S (S fuel)) as f eqn:Ef. cbn [on_loop]. subst f.
  rewrite whenKw_yes by done. unfold look at 1. change (atKw "CREATE" _) with true. cbv iota. rewrite (bind_ok _ _ _ _ _ (advance_cons _ _)).
  erewrite bind_ok; [|by apply expectKw_ok]. destruct (show_sets_head "MATCH" m t rest _ Ht) as (u & r & E & Hu). rewrite E.
  erewrite bind_ok; [|apply sets_read; [done|done|set_solver]]. rewrite <- E. erewrite bind_ok; [|by apply on_match]. cbv beta iota. by rewrite app_nil_r.
Qed.
Lemma merge_read part c m t rest : clause_ok (CMerge part c m) -> t ∈ heads_ ->
  parseClause (show_clause (CMerge part c m) ++ t :: rest) = Ok (CMerge part c m, t :: rest).
Proof.
  intros (Hp & Hc & Hm) Ht. cbn [show_clause app]. rewrite <- !app_assoc.
  destruct (show_sets_head "MATCH" m t rest _ Ht) as (u1 & r1 & E1 & H1). destruct (show_sets_head "CREATE" c u1 r1 _ H1) as (u & r & E & Hu). rewrite E1, E.
  change (parseClause (kw "MERGE" :: ?x)) with (parseMerge (kw "MERGE" :: x)). unfold parseMerge. rewrite (bind_ok _ _ _ _ _ (advance_cons _ _)).
  erewrite bind_ok; [|apply part_read; [done|follow|follow]]. rewrite <- E, <- E1. erewrite bind_ok; [|unfold look; apply on_both; [done|done|done|lia]]. done.
Qed.
Lemma create_read parts t rest : clause_ok (CCreate parts) -> t ∈ heads_ ->
  parseClause (show_clause (CCreate parts) ++ t :: rest) = Ok (CCreate parts, t :: rest).
Proof.
  intros (Hne & Hp & Hk) Ht. cbn [show_clause app]. change (parseClause (kw "CREATE" :: ?x)) with (parseCreate (kw "CREATE" :: x)).
  unfold parseCreate. rewrite (bind_ok _ _ _ _ _ (advance_cons _ _)). unfold look at 1.
  assert (forall k l, k ∈ ["INDEX"; "CONSTRAINT"]%string -> atKw k (comma_sep (show_part <$> parts) ++ l) = false) as Hno.
  { intros k l Hin. destruct parts as [|p parts]; [done|]. apply Forall_cons in Hk as [Hk _]. cbn [fmap list_fmap comma_sep]. unfold show_part at 1.
    case_bool_decide as E; cbn [app].
    - set_unfold in Hin. destruct_or! Hin; subst k; destruct (pp_Shortest p); reflexivity.
    - unfold not_kw in Hk. rewrite forallb_forall in Hk. apply negb_true_iff. by apply Hk, list_elem_of_In. }
  rewrite !Hno by set_solver. erewrite bind_ok; [reflexivity|]. apply parts_read; [done|done|unfold after_limit; set_solver].
Qed.
Lemma delete_read b es t rest : es <> [] -> Forall printable es -> t ∈ heads_ ->
  deleteBody b (comma_sep (paren_raw <$> es) ++ t :: rest) = Ok (CDelete b es, t :: rest).
Proof.
  intros Hne Hes Ht. unfold deleteBody. erewrite bind_ok; [reflexivity|].
  apply (list_read _ _ printable (tComma :: heads_)); [|set_solver|set_solver|follow|done|done].
  intros e u l He Hu. apply parseExpr_paren; [by apply printable_good|follow].
Qed.
Lemma unwind_read e a t rest : printable e -> parseClause (show_clause (CUnwind e a) ++ t :: rest) = Ok (CUnwind e a, t :: rest).
Proof.
  intros He. cbn [show_clause app]. rewrite <- app_assoc. cbn [app]. change (parseClause (kw "UNWIND" :: ?x)) with (parseUnwind (kw "UNWIND" :: x)).
  unfold parseUnwind. rewrite (bind_ok _ _ _ _ _ (advance_cons _ _)). erewrite bind_ok; [|apply expr_read; [done|closes]].
  erewrite bind_ok; [|by apply expectKw_ok]. done.
Qed.

(** ** Schema statements *)
Lemma named_label_read label rest : labelled_node (named_label label ++ rest) = Ok (str "n", label, rest).
Proof.
  unfold labelled_node, named_label. cbn [app]. erewrite bind_ok; [|apply expect_ok]. erewrite bind_ok; [|reflexivity].
  erewrite bind_ok; [|apply expect_ok]. erewrite bind_ok; [|reflexivity]. erewrite bind_ok; [reflexivity|apply expect_ok].
Qed.
Lemma rel_index_read typ rest :
  relIndexPattern (show_node empty_pattern ++ show_rel (mkRelPattern (str "r") [typ] [] DirBoth false (-1) (-1)) ++ show_node empty_pattern ++ rest) = Ok (typ, rest).
Proof.
  assert (node_ok empty_pattern) as He by (split; constructor). assert (rel_ok (mkRelPattern (str "r") [typ] [] DirBoth false (-1) (-1))) as Hr by (repeat split; constructor).
  unfold relIndexPattern. erewrite bind_ok; [|by apply node_read]. erewrite bind_ok; [|by apply rel_read].
  erewrite bind_ok; [|by apply (node_read empty_pattern)]. done.
Qed.
Lemma not_kw_in ks k name : not_kw ks name -> k ∈ ks -> EqualFold name (str k) = false.
Proof. unfold not_kw. rewrite forallb_forall. intros Hall Hk. by apply negb_true_iff, Hall, list_elem_of_In. Qed.
Lemma index_name_read name l : not_kw ["FOR"%string] name ->
  look (fun l => if negb (atKw "FOR" l) && at_ident l then identName else mret []) (opt_name name ++ kw "FOR" :: l) = Ok (name, kw "FOR" :: l).
Proof.
  intros Hn. unfold opt_name, look. case_bool_decide as E; [by subst name|]. cbn [app].
  change (atKw "FOR" (tIdent name :: ?r)) with (EqualFold name (str "FOR")). by rewrite (not_kw_in _ _ _ Hn) by set_solver.
Qed.
Lemma constraint_name_read name l : not_kw ["FOR"; "IF"]%string name ->
  look (fun l => if negb (atKw "FOR" l) && negb (atKw "IF" l) && at_ident l then identName else mret []) (opt_name name ++ kw "FOR" :: l) = Ok (name, kw "FOR" :: l).
Proof.
  intros Hn. unfold opt_name, look. case_bool_decide as E; [by subst name|]. cbn [app].
  change (atKw ?k (tIdent name :: ?r)) with (EqualFold name (str k)). by rewrite !(not_kw_in _ _ _ Hn) by set_solver.
Qed.
Lemma create_index_read name label prop rel t rest : not_kw ["FOR"%string] name ->
  parseClause (show_clause (CCreateIndex name label prop rel) ++ t :: rest) = Ok (CCreateIndex name label prop rel, t :: rest).
Proof.
  intros Hn. cbn [show_clause app]. rewrite <- app_assoc. cbn [app]. rewrite <- !app_assoc. cbn [app].
  change (parseClause (kw "CREATE" :: kw "INDEX" :: ?x)) with (createIndexBody (kw "INDEX" :: x)). unfold createIndexBody.
  rewrite (bind_ok _ _ _ _ _ (advance_cons _ _)). erewrite bind_ok; [|by apply index_name_read]. erewrite bind_ok; [|by apply expectKw_ok].
  erewrite (bind_ok _ _ _ (label, rel) ([kw "ON"; tLParen; kw "n"; tDot; tIdent prop; tRParen] ++ t :: rest)).
  - cbv beta iota. cbn [app]. erewrite bind_ok; [|by apply expectKw_ok]. do 1 (erewrite bind_ok; [|apply expect_ok]). erewrite bind_ok; [|reflexivity].
    erewrite bind_ok; [|apply expect_ok]. erewrite bind_ok; [|reflexivity]. erewrite bind_ok; [reflexivity|apply expect_ok].
  - unfold look at 1. destruct rel.
    + change (at_ tLParen _ && _) with true. cbv iota. rewrite <- !app_assoc. erewrite bind_ok; [reflexivity|apply rel_index_read].
    + change (at_ tLParen _ && _) with false. cbv iota. erewrite bind_ok; [|apply named_label_read]. done.
Qed.
Lemma create_constraint_read name label prop t rest : not_kw ["FOR"; "IF"]%string name ->
  parseClause (show_clause (CCreateConstraint name label prop) ++ t :: rest) = Ok (CCreateConstraint name label prop, t :: rest).
Proof.
  intros Hn. cbn [show_clause app]. rewrite <- app_assoc. cbn [app]. rewrite <- !app_assoc. cbn [app].
  change (parseClause (kw "CREATE" :: kw "CONSTRAINT" :: ?x)) with (createConstraintBody (kw "CONSTRAINT" :: x)). unfold createConstraintBody.
  rewrite (bind_ok _ _ _ _ _ (advance_cons _ _)). erewrite bind_ok; [|by apply constraint_name_read]. erewrite bind_ok; [|reflexivity].
  erewrite bind_ok; [|by apply expectKw_ok]. erewrite bind_ok; [|apply named_label_read]. cbv beta iota. erewrite bind_ok; [|by apply expectKw_ok].
  erewrite bind_ok; [|reflexivity]. rewrite bool_decide_true by done. cbn [negb]. cbv iota. erewrite bind_ok; [|apply expect_ok]. erewrite bind_ok; [|reflexivity].
  erewrite bind_ok; [|by apply expectKw_ok]. erewrite bind_ok; [reflexivity|by apply expectKw_ok].
Qed.
Lemma if_exists_read b t rest : t ∈ heads_ -> if_exists (show_if_exists b ++ t :: rest) = Ok (b, t :: rest).
Proof.
  intros Ht. unfold if_exists. destruct b; cbn [show_if_exists app]; [done|]. unfold whenKw, look. by assert (atKw "IF" (t :: rest) = false) as -> by follow.
Qed.

(** ** Every clause *)
Lemma clause_read c t rest : clause_ok c -> t ∈ heads_ -> parseClause (show_clause c ++ t :: rest) = Ok (c, t :: rest).
Proof.
  intros Hc Ht. destruct c.
  - cbn [show_clause]. rewrite <- !app_assoc. cbn [app]. rewrite <- app_assoc. destruct Optional; cbn [app].
    + change (parseClause (kw "OPTIONAL" :: kw "MATCH" :: ?x)) with (matchBody true x). by apply match_read.
    + change (parseClause (kw "MATCH" :: ?x)) with (matchBody false x). by apply match_read.
  - by apply with_read.
  - cbn [show_clause app]. change (parseClause (kw "RETURN" :: ?x)) with (parseReturn (kw "RETURN" :: x)). unfold parseReturn.
    rewrite (bind_ok _ _ _ _ _ (advance_cons _ _)). erewrite bind_ok; [|apply projection_read; [done|unfold after_limit; set_solver]]. done.
  - by apply create_read.
  - by apply merge_read.
  - destruct Hc as [Hne Hc]. cbn [show_clause app]. change (parseClause (kw "SET" :: ?x)) with (parseSet (kw "SET" :: x)). unfold parseSet.
    rewrite (bind_ok _ _ _ _ _ (advance_cons _ _)). erewrite bind_ok; [|apply sets_read; [done|done|set_solver]]. done.
  - destruct Hc as [Hne Hc]. cbn [show_clause app]. change (parseClause (kw "REMOVE" :: ?x)) with (parseRemove (kw "REMOVE" :: x)). unfold parseRemove.
    rewrite (bind_ok _ _ _ _ _ (advance_cons _ _)). erewrite bind_ok; [reflexivity|].
    apply (list_read _ _ remove_ok after_set); [by intros; apply remove_read|unfold after_set; set_solver|unfold after_set; set_solver|follow|done|done].
  - by apply unwind_read.
  - destruct Hc as [Hne Hc]. cbn [show_clause]. rewrite <- app_assoc. cbn [app]. destruct Detach; cbn [app].
    + change (parseClause (kw "DETACH" :: kw "DELETE" :: ?x)) with (deleteBody true x). by apply delete_read.
    + change (parseClause (kw "DELETE" :: ?x)) with (deleteBody false x). by apply delete_read.
  - by apply create_index_read.
  - cbn [show_clause app]. change (parseClause (kw "DROP" :: kw "INDEX" :: ?x)) with (parseDropIndex (kw "DROP" :: kw "INDEX" :: x)). unfold parseDropIndex.
    rewrite (bind_ok _ _ _ _ _ (advance_cons _ _)). erewrite bind_ok; [|by apply expectKw_ok]. erewrite bind_ok; [|reflexivity]. erewrite bind_ok; [reflexivity|by apply if_exists_read].
  - done.
  - by apply create_constraint_read.
  - cbn [show_clause app]. change (parseClause (kw "DROP" :: kw "CONSTRAINT" :: ?x)) with ((name ← identName; e ← if_exists; mret (CDropConstraint name e)) x).
    erewrite bind_ok; [|reflexivity]. erewrite bind_ok; [reflexivity|by apply if_exists_read].
  - done.
Qed.

(** ** Queries *)
Definition starters : list token := kw <$> ["OPTIONAL"; "MATCH"; "WITH"; "RETURN"; "CREATE"; "MERGE"; "SET"; "REMOVE"; "UNWIND"; "DETACH"; "DELETE"; "DROP"; "SHOW"]%string.
Definition arm_closers : list token := [tSemi; kw "UNION"].
Definition show_arm (cs : list Clause) : list token := concat (show_clause <$> cs).
Definition show_union (u : QueryUnion) : list token := kw "UNION" :: (if qu_All u then [kw "ALL"] else []) ++ show_arm (qu_Clauses u).
Definition show_query (q : Query) : list token := show_arm (q_Clauses q) ++ concat (show_union <$> q_Unions q) ++ [tSemi].
Definition arm_ok (cs : list Clause) : Prop := cs <> [] /\ Forall clause_ok cs.
Definition query_ok (q : Query) : Prop := arm_ok (q_Clauses q) /\ Forall (fun u => arm_ok (qu_Clauses u)) (q_Unions q).

Lemma clause_head c : exists u l, show_clause c = u :: l /\ u ∈ starters.
Proof.
  unfold starters. destruct c as [[]| | | | | | | |[]| | | | | |]; cbn [show_clause app]; eexists _, _; (split; [reflexivity|apply (bool_decide_unpack _); vm_compute; exact I]).
Qed.
Lemma head_in t : t ∈ starters \/ t ∈ arm_closers -> t ∈ heads_.
Proof.
  intros Ht. assert (forallb (fun t => bool_decide (t ∈ heads_)) (starters ++ arm_closers) = true) as Hall by (vm_compute; reflexivity).
  rewrite forallb_forall in Hall. eapply bool_decide_eq_true, Hall. apply list_elem_of_In, elem_of_app. exact Ht.
Qed.
Lemma arm_next cs t rest : t ∈ arm_closers -> exists u l, show_arm cs ++ t :: rest = u :: l /\ u ∈ heads_.
Proof.
  intros Ht. destruct cs as [|c cs]; [exists t, rest; split; [done|apply head_in; auto]|].
  destruct (clause_head c) as (u & l & E & Hu). unfold show_arm. cbn [fmap list_fmap concat]. rewrite E. eexists _, _. split; [done|apply head_in; auto].
Qed.
Lemma arm_ends_no u l : u ∈ starters -> arm_ends (u :: l) = false.
Proof.
  intros Hu. unfold arm_ends. assert (at_ tSemi (u :: l) = false) as -> by follow. assert (atKw "UNION" (u :: l) = false) as -> by follow.
  by rewrite bool_decide_false.
Qed.
Lemma arm_ends_yes t l : t ∈ arm_closers -> arm_ends (t :: l) = true.
Proof. unfold arm_closers. intros Ht. set_unfold in Ht. destruct_or! Ht; subst t; reflexivity. Qed.
Lemma arm_read cs : forall fuel t rest, Forall clause_ok cs -> t ∈ arm_closers -> (length (show_arm cs ++ t :: rest) < fuel)%nat ->
  clause_loop fuel (show_arm cs ++ t :: rest) = Ok (cs, t :: rest).
Proof.
  induction cs as [|c cs IH]; intros [|fuel] t rest Hcs Ht Hf; try lia.
  - cbn [show_arm fmap list_fmap concat app clause_loop]. unfold look. by rewrite arm_ends_yes.
  - apply Forall_cons in Hcs as [Hc Hcs]. assert (show_arm (c :: cs) ++ t :: rest = show_clause c ++ show_arm cs ++ t :: rest) as E.
    { unfold show_arm. cbn [fmap list_fmap concat]. by rewrite <- app_assoc. }
    rewrite E in *. destruct (arm_next cs t rest Ht) as (u & l & E' & Hu). destruct (clause_head c) as (u0 & l0 & E0 & Hu0).
    assert (length (show_arm cs ++ t :: rest) < fuel)%nat as Hf' by (rewrite E0 in Hf; cbn in Hf; rewrite length_app in Hf; lia).
    cbn [clause_loop]. unfold look. assert (arm_ends (show_clause c ++ show_arm cs ++ t :: rest) = false) as -> by (rewrite E0; by apply arm_ends_no).
    rewrite E' at 1. erewrite bind_ok; [|by apply clause_read]. rewrite <- E'. erewrite bind_ok; [reflexivity|]. by apply IH.
Qed.
Lemma arm_list_read cs t rest : Forall clause_ok cs -> t ∈ arm_closers -> parseClauseList (show_arm cs ++ t :: rest) = Ok (cs, t :: rest).
Proof. intros Hcs Ht. unfold parseClauseList, look. apply arm_read; [done|done|lia]. Qed.
Lemma all_read (all : bool) cs t rest : t ∈ arm_closers -> cs <> [] ->
  whenKw "ALL" (mret true) (mret false) ((if all then [kw "ALL"] else []) ++ show_arm cs ++ t :: rest) = Ok (all, show_arm cs ++ t :: rest).
Proof.
  intros Ht Hne. destruct all; cbn [app]; [done|]. destruct cs as [|c cs]; [done|]. destruct (clause_head c) as (u & l & E & Hu).
  unfold show_arm. cbn [fmap list_fmap concat]. rewrite E. cbn [app]. unfold whenKw, look.
  match goal with |- context [atKw "ALL" (u :: ?r)] => assert (atKw "ALL" (u :: r) = false) as -> by follow end. done.
Qed.
Lemma union_next us rest : exists t l, concat (show_union <$> us) ++ tSemi :: rest = t :: l /\ t ∈ arm_closers.
Proof. unfold arm_closers. destruct us; cbn [fmap list_fmap concat show_union app]; eexists _, _; (split; [done|set_solver]). Qed.
Lemma union_read us : forall fuel rest, Forall (fun u => arm_ok (qu_Clauses u)) us -> (length (concat (show_union <$> us) ++ tSemi :: rest) < fuel)%nat ->
  union_loop fuel (concat (show_union <$> us) ++ tSemi :: rest) = Ok (us, tSemi :: rest).
Proof.
  induction us as [|[all cs] us IH]; intros [|fuel] rest Hus Hf; try lia; [done|]. apply Forall_cons in Hus as [[Hne Hcs] Hus]. cbn [qu_Clauses] in *.
  destruct (union_next us rest) as (t & l & E & Ht).
  assert (concat (show_union <$> mkQueryUnion all cs :: us) ++ tSemi :: rest = kw "UNION" :: (if all then [kw "ALL"] else []) ++ show_arm cs ++ t :: l) as E'.
  { rewrite <- E. cbn [fmap list_fmap concat show_union qu_All qu_Clauses app]. by rewrite <- !app_assoc. }
  rewrite E' in *. cbn [union_loop]. rewrite whenKw_yes by done. erewrite bind_ok; [|by apply all_read].
  erewrite bind_ok; [|by apply arm_list_read]. rewrite bool_decide_false by (by destruct cs). rewrite <- E. erewrite bind_ok; [reflexivity|].
  apply IH; [done|]. rewrite E. cbn [length] in Hf |- *. rewrite !length_app in Hf. cbn [length] in Hf. lia.
Qed.
Lemma query_read q : query_ok q -> parseQuery (show_query q) = Ok (q, [tSemi]).
Proof.
  intros [[Hne Hcs] Hus]. destruct q as [cs us]. unfold parseQuery, show_query. cbn [q_Clauses q_Unions] in *.
  destruct (union_next us []) as (t & l & E & Ht). rewrite E. erewrite bind_ok; [|by apply arm_list_read].
  rewrite bool_decide_false by (by destruct cs). rewrite <- E. erewrite bind_ok; [reflexivity|]. unfold look. apply union_read; [done|lia].
Qed.
End clauses.

Section text.
Context `{Runtime, Unicode}.
Definition query_text (q : Query) : bytes := text_of (show_query q).

(** C16: printing and parsing are inverse on whole queries: every query made of
    the clauses of the language (MATCH, OPTIONAL MATCH, WITH, RETURN, CREATE,
    MERGE, SET, REMOVE, UNWIND, DELETE, the schema statements, UNION arms) over
    expressions that have a printed form, printed with parentheses only where
    the operator precedences ask for them around operands, is read back by
    [Parse] as the same query.  The text is that of tokens that have a
    spelling: names (in backticks unless plain), unsigned integers, strings with
    quotes and backslashes escaped. *)
Theorem parse_text_roundtrip (q : Query) :
  query_ok q -> forallb spellable (show_query q) = true -> Parse (query_text q) = Ok q.
Proof.
  intros Hq Hs. unfold Parse, query_text. rewrite tokenize_text by done.
  change (mbind (M := res) ?f (Ok ?x)) with (f x). cbv beta. by rewrite (query_read q Hq).
Qed.

(** C17: the lexer and the parser answer on every text, with a query or with a
    syntax error: the bounds on their loops and on their recursion are never
    what stops them. *)
Theorem parse_total (src : bytes) : (exists q, Parse src = Ok q) \/ (exists e, Parse src = Err e /\ e <> ErrOutOfFuel).
Proof.
  unfold Parse. pose proof (tokenize_answers src) as Ht. destruct (tokenize src) as [toks|e]; [|right; exists e; split; [done|congruence]].
  change (mbind (M := res) ?f (Ok ?x)) with (f x). cbv beta. pose proof (fine_parseQuery toks) as Hp. unfold fine in Hp.
  destruct (parseQuery toks) as [[q l]|e]; [|by right; exists e]. change (mbind (M := res) ?f (Ok ?x)) with (f x). cbv beta iota.
  case_bool_decide; [left; by exists q|right; by exists ErrSyntax].
Qed.
End text.

(** A query with most of the syntax: patterns, precedences, escapes, names that
    need backticks, projections and UNION. *)
Definition plain_unicode : Unicode := {| unicode_letter := fun _ => false; unicode_digit := fun _ => false |}.
Definition name_ (s : String.string) : Expr := Variable_ (str s).
Definition prop_ (v k : String.string) : Expr := PropertyAccess (name_ v) (str k).
Definition sample_query : Query :=
  mkQuery
    [CMatch false
       [mkPatternPart (str "p") (mkNodePattern (str "n") [str "Person"] [(str "name", Literal (VStr (str "O'Hara \ co")))])
          [mkPatternChain (mkRelPattern [] [str "KNOWS"; str "LIKES"] [] DirOut true 1 3) (mkNodePattern (str "m") [] [])] NotShortest]
       (Some (Binary (str "OR") (Binary (str "AND") (Binary (str ">=") (Binary (str "*") (Binary (str "+") (prop_ "n" "age") (Literal (VInt 1))) (Param (str "k"))) (Literal (VInt 30)))
          (Unary (str "NOT") (LabelsPredicate (name_ "m") [str "odd label"]))) (Unary (str "IS NOT NULL") (Subscript (prop_ "m" "xs") (Unary (str "-") (Literal (VInt 1)))))));
     CWith false false [mkReturnItem (name_ "n") []; mkReturnItem (FunctionCall (str "count") true false [name_ "m"]) (str "c")] [] None None
       (Some (Binary (str "IN") (name_ "c") (ListLiteral [Literal (VInt 1); Literal (VInt 2)])));
     CReturn true false
       [mkReturnItem (Case None [(Binary (str "=") (name_ "c") (Literal (VInt 1)), Literal (VStr (str "one")))] (Some (Literal VNull))) (str "k")]
       [mkSortKey (name_ "k") true] (Some (Literal (VInt 2))) (Some (Literal (VInt 10)))]
    [mkQueryUnion true
       [CUnwind (ListComprehension (str "x") (FunctionCall (str "range") false false [Literal (VInt 1); Literal (VInt 3)])
          (Some (Quantifier (str "any") (str "y") (name_ "xs") (Binary (str "<") (name_ "y") (name_ "x")))) None) (str "x");
        CReturn false true [] [] None None]].

Lemma parse_text_roundtrip_witness : @Parse plain_runtime plain_unicode (@query_text plain_unicode sample_query) = Ok sample_query.
Proof.
  refine (@parse_text_roundtrip plain_runtime plain_unicode sample_query _ _); [|vm_compute; reflexivity].
  unfold query_ok, arm_ok, sample_query. cbn -[str binop reserved].
  repeat first [split | discriminate | apply not_elem_of_nil | constructor | vm_compute; reflexivity
    | eexists; vm_compute; reflexivity | apply (bool_decide_unpack _); vm_compute; exact I | intros; discriminate].
Defined.
End ClauseText.
