(* ===== verification/Sema.v ===== *)
(** * Sema: semantic analysis

    src/query/ast/format.go and src/query/sema (sema.go, scope.go, helpers.go):
    the text of an expression, which names the columns without an alias; the
    variables in scope; and the checks a query has to pass.  Positions, and the
    text of messages, are left out.  A property map is visited in the order the
    Go runtime picks ([order_keys] of class Runtime), so which of several errors
    is reported is not determined. *)
From S2P Require Import Prelude Float64 FloatArith Values Ast Scalars Text Records Storage Catalog Graph Context Functions.
Import Ast Scalars Text Context Functions.

Module Sema.

(** ** ast.Format *)
Definition key_le {A : Type} (a b : bytes * A) : Prop := ble a.1 b.1.
#[local] Instance key_le_dec {A : Type} (a b : bytes * A) : Decision (key_le a b).
Proof. unfold key_le. apply _. Defined.
(** The entries of a map in the order of sort.Strings on its keys. *)
Definition by_key {A : Type} (m : list (bytes * A)) : list (bytes * A) := merge_sort key_le m.

Section sema.
Context `{Runtime}.

Definition formatLiteral (v : value) : bytes :=
  match v with
  | VNull => str "null"
  | VStr x => str "'" ++ x ++ str "'"
  | _ => sprint_v v
  end.

Fixpoint Format (e : Expr) : bytes :=
  let opt (o : option Expr) : bytes := match o with Some x => Format x | None => [] end in
  match e with
  | Variable_ name => name
  | PropertyAccess t k => Format t ++ str "." ++ k
  | Param name => str "$" ++ name
  | Literal v => formatLiteral v
  | Unary op x => if op =s "NOT" then str "NOT " ++ Format x else op ++ Format x
  | Binary op l r => Format l ++ str " " ++ op ++ str " " ++ Format r
  | LabelsPredicate x labels => Format x ++ str ":" ++ join (str ":") labels
  | ListLiteral l => str "[" ++ join (str ", ") (Format <$> l) ++ str "]"
  | MapLiteral m =>
      str "{" ++ join (str ", ") ((fun e => e.1 ++ str ": " ++ e.2) <$> by_key ((fun e => (e.1, Format e.2)) <$> m)) ++ str "}"
  | Case operand whens els =>
      str "CASE" ++ (match operand with Some x => str " " ++ Format x | None => [] end)
      ++ concat ((fun w => str " WHEN " ++ Format w.1 ++ str " THEN " ++ Format w.2) <$> whens)
      ++ (match els with Some x => str " ELSE " ++ Format x | None => [] end) ++ str " END"
  | FunctionCall name distinct star args =>
      name ++ str "(" ++ (if distinct then str "DISTINCT " else []) ++ (if star then str "*" else [])
      ++ join (str ", ") (Format <$> args) ++ str ")"
  | ListComprehension v l w m =>
      str "[" ++ v ++ str " IN " ++ Format l
      ++ (match w with Some x => str " WHERE " ++ Format x | None => [] end)
      ++ (match m with Some x => str " | " ++ Format x | None => [] end) ++ str "]"
  | Quantifier kind v l w => kind ++ str "(" ++ v ++ str " IN " ++ Format l ++ str " WHERE " ++ Format w ++ str ")"
  | Subscript t i => Format t ++ str "[" ++ Format i ++ str "]"
  | Slice t f o => Format t ++ str "[" ++ opt f ++ str ".." ++ opt o ++ str "]"
  end.
Definition exprString (e : Expr) : bytes := Format e.

(** ** Scopes *)
Record scope := mkScope { vars : gset (list Z); order : list bytes }.
Definition newScope : scope := mkScope ∅ [].
Definition has (sc : scope) (name : bytes) : bool := bool_decide (name ∈ vars sc).
Definition define (sc : scope) (name : bytes) : scope :=
  if has sc name then sc else mkScope ({[ name ]} ∪ vars sc) (order sc ++ [name]).
Definition scope_empty (sc : scope) : bool := bool_decide (order sc = []).
Definition scope_merge (sc other : scope) : scope := foldl define sc (order other).
Definition with_ (sc : scope) (name : bytes) : scope := define (scope_merge newScope sc) name.

(** ** Expressions *)
Definition aggregates : list bytes := str <$> ["count"; "sum"; "avg"; "min"; "max"; "collect"]%string.
Definition isAggregate (name : bytes) : bool := bool_decide (ToLower name ∈ aggregates).

(** The checks of a list, up to the first that fails. *)
Fixpoint all_ok (l : list (res unit)) : res unit :=
  match l with [] => Ok tt | r :: l' => _ ← r; all_ok l' end.

Fixpoint checkExpr (sc : scope) (e : Expr) (inAgg : bool) : res unit :=
  let opt (sc : scope) (o : option Expr) : res unit := match o with Some x => checkExpr sc x inAgg | None => Ok tt end in
  match e with
  | Literal _ | Param _ => Ok tt
  | Variable_ name => if has sc name then Ok tt else Err (ErrUndefinedVariable name)
  | PropertyAccess t _ => checkExpr sc t inAgg
  | ListComprehension v l w m =>
      _ ← checkExpr sc l inAgg;
      let inner := with_ sc v in
      _ ← opt inner w; opt inner m
  | Quantifier _ v l w => _ ← checkExpr sc l inAgg; checkExpr (with_ sc v) w inAgg
  | Subscript t i => _ ← checkExpr sc t inAgg; checkExpr sc i inAgg
  | Slice t f o => _ ← checkExpr sc t inAgg; _ ← opt sc f; opt sc o
  | Unary _ x => checkExpr sc x inAgg
  | Binary _ l r => _ ← checkExpr sc l inAgg; checkExpr sc r inAgg
  | LabelsPredicate x _ => checkExpr sc x inAgg
  | ListLiteral l => all_ok ((fun x => checkExpr sc x inAgg) <$> l)
  | MapLiteral m => all_ok (snd <$> range_over order_keys ((fun e => (e.1, checkExpr sc e.2 inAgg)) <$> m))
  | Case operand whens els =>
      _ ← opt sc operand;
      _ ← all_ok ((fun w => _ ← checkExpr sc w.1 inAgg; checkExpr sc w.2 inAgg) <$> whens);
      opt sc els
  | FunctionCall name _ _ args =>
      let agg := isAggregate name in
      if agg && inAgg then Err ErrNestedAggregate
      else all_ok ((fun x => checkExpr sc x (inAgg || agg)) <$> args)
  end.

(** ** Patterns *)
Definition defineName (sc : scope) (name : bytes) : scope := if bool_decide (name = []) then sc else define sc name.
Definition definePart (sc : scope) (part : PatternPart) : scope :=
  foldl (fun sc ch => defineName (defineName sc (rp_Variable (ch_Rel ch))) (np_Variable (ch_Node ch)))
    (defineName (defineName sc (pp_Variable part)) (np_Variable (pp_Start part))) (pp_Chain part).
Definition checkProps (sc : scope) (props : list (bytes * Expr)) : res unit :=
  all_ok ((fun e => checkExpr sc e.2 false) <$> range_over order_keys props).
Definition checkPart (sc : scope) (part : PatternPart) : res unit :=
  _ ← checkProps sc (np_Props (pp_Start part));
  all_ok ((fun ch => _ ← checkProps sc (rp_Props (ch_Rel ch)); checkProps sc (np_Props (ch_Node ch))) <$> pp_Chain part).
Definition introducePattern (sc : scope) (parts : list PatternPart) : res scope :=
  let sc := foldl definePart sc parts in
  _ ← all_ok (checkPart sc <$> parts); Ok sc.

(** [shortestPath((a)-[r:T*min..max]-(b))]: one variable-length relationship
    between two plain variables. *)
Definition plain_endpoint (n : NodePattern) : bool :=
  negb (bool_decide (np_Variable n = []) || negb (bool_decide (np_Labels n = [])) || negb (bool_decide (np_Props n = []))).
Definition is_shortest (part : PatternPart) : bool := match pp_Shortest part with NotShortest => false | _ => true end.
Definition checkShortest (part : PatternPart) : res unit :=
  if negb (is_shortest part) then Ok tt
  else match pp_Chain part with
  | [ch] =>
      let rel := ch_Rel ch in
      if negb (rp_VarLength rel) then Err ErrShortestForm
      else if 1 <? rp_MinHops rel then Err ErrShortestForm
      else if negb (bool_decide (rp_Props rel = [])) then Err ErrShortestForm
      else if plain_endpoint (pp_Start part) && plain_endpoint (ch_Node ch) then Ok tt else Err ErrShortestForm
  | _ => Err ErrShortestForm
  end.

(** ** Clauses *)
Definition check_target (sc : scope) (t : option (Expr * bytes)) : res unit :=
  match t with Some (e, _) => checkExpr sc e false | None => Err ErrPanic end.
Definition check_var (sc : scope) (name : bytes) : res unit :=
  if has sc name then Ok tt else Err (ErrUndefinedVariable name).
Definition checkSetClause (sc : scope) (item : SetClause) : res unit :=
  match item with
  | SetPropertyItem t v => _ ← check_target sc t; checkExpr sc v false
  | SetLabelsItem v _ => check_var sc v
  | SetMapItem v e _ => _ ← check_var sc v; checkExpr sc e false
  end.
Definition check_remove (sc : scope) (item : RemoveClause) : res unit :=
  match item with RemovePropertyItem t => check_target sc t | RemoveLabelsItem v _ => check_var sc v end.

Definition check_opt (sc : scope) (o : option Expr) : res unit :=
  match o with Some e => checkExpr sc e false | None => Ok tt end.
Definition checkProjectionTail (sc : scope) (orderBy : list SortKey) (skip limit : option Expr) : res unit :=
  _ ← all_ok ((fun k => checkExpr sc (sk_Expr k) false) <$> orderBy);
  _ ← check_opt sc skip; check_opt sc limit.

Definition check_items (sc : scope) (items : list ReturnItem) : res unit :=
  all_ok ((fun it => checkExpr sc (ri_Expr it) false) <$> items).

(** The variable a WITH item defines. *)
Definition with_name (it : ReturnItem) : res bytes :=
  match ri_Alias it with
  | [] => match ri_Expr it with Variable_ name => Ok name | _ => Err ErrWithAlias end
  | alias => Ok alias
  end.
Fixpoint with_scope (next : scope) (items : list ReturnItem) : res scope :=
  match items with
  | [] => Ok next
  | it :: items' => name ← with_name it; with_scope (define next name) items'
  end.

(** The columns of a RETURN item list. *)
Definition column (it : ReturnItem) : bytes :=
  match ri_Alias it with [] => exprString (ri_Expr it) | alias => alias end.
Definition columns (sc : scope) (star : bool) (items : list ReturnItem) : list bytes :=
  (if star then order sc else []) ++ (column <$> items).

Definition analyze_with (sc : scope) (star : bool) (items : list ReturnItem) (orderBy : list SortKey) (skip limit where_ : option Expr) : res scope :=
  _ ← check_items sc items;
  next ← with_scope (if star then scope_merge newScope sc else newScope) items;
  _ ← checkProjectionTail next orderBy skip limit;
  _ ← check_opt next where_;
  Ok next.
Definition analyze_return (sc : scope) (star : bool) (items : list ReturnItem) (orderBy : list SortKey) (skip limit : option Expr) : res (list bytes) :=
  _ ← check_items sc items;
  if star && scope_empty sc && bool_decide (items = []) then Err ErrReturnStar
  else
    let cols := columns sc star items in
    let tail := foldl define (scope_merge newScope sc) (column <$> items) in
    _ ← checkProjectionTail tail orderBy skip limit;
    Ok cols.

Definition show_index_columns : list bytes := str <$> ["name"; "label"; "property"; "entity"]%string.
Definition show_constraint_columns : list bytes := str <$> ["name"; "label"; "property"; "type"]%string.

(** The scope and the columns after a clause. *)
Definition clause (sc : scope) (cols : list bytes) (c : Clause) : res (scope * list bytes) :=
  match c with
  | CMatch _ parts where_ =>
      _ ← all_ok (checkShortest <$> parts);
      sc ← introducePattern sc parts;
      _ ← check_opt sc where_; Ok (sc, cols)
  | CCreate parts =>
      if existsb is_shortest parts then Err ErrShortestForm
      else sc ← introducePattern sc parts; Ok (sc, cols)
  | CMerge part onCreate onMatch =>
      if is_shortest part then Err ErrShortestForm
      else
        sc ← introducePattern sc [part];
        _ ← all_ok (checkSetClause sc <$> onCreate);
        _ ← all_ok (checkSetClause sc <$> onMatch); Ok (sc, cols)
  | CSet items => _ ← all_ok (checkSetClause sc <$> items); Ok (sc, cols)
  | CRemove items => _ ← all_ok (check_remove sc <$> items); Ok (sc, cols)
  | CUnwind e alias => _ ← checkExpr sc e false; Ok (define sc alias, cols)
  | CDelete _ es => _ ← all_ok ((fun e => checkExpr sc e false) <$> es); Ok (sc, cols)
  | CWith _ star items orderBy skip limit where_ =>
      next ← analyze_with sc star items orderBy skip limit where_; Ok (next, cols)
  | CReturn _ star items orderBy skip limit =>
      cols ← analyze_return sc star items orderBy skip limit; Ok (sc, cols)
  | CCreateIndex _ _ _ _ | CDropIndex _ _ | CCreateConstraint _ _ _ | CDropConstraint _ _ => Ok (sc, cols)
  | CShowIndexes => Ok (sc, show_index_columns)
  | CShowConstraints => Ok (sc, show_constraint_columns)
  end.

(** ** Queries *)
Definition isSchemaCommand (c : Clause) : bool :=
  match c with
  | CCreateIndex _ _ _ _ | CDropIndex _ _ | CShowIndexes
  | CCreateConstraint _ _ _ | CDropConstraint _ _ | CShowConstraints => true
  | _ => false
  end.
Definition endsQuery (c : Clause) : bool :=
  match c with
  | CReturn _ _ _ _ _ _ | CCreate _ | CMerge _ _ _ | CSet _ | CRemove _ | CDelete _ _ => true
  | _ => isSchemaCommand c
  end.
Definition is_return (c : Clause) : bool := match c with CReturn _ _ _ _ _ _ => true | _ => false end.

Fixpoint analyze_clauses (sc : scope) (cols : list bytes) (cs : list Clause) : res (list bytes) :=
  match cs with
  | [] => Ok cols
  | c :: cs' =>
      if is_return c && negb (bool_decide (length cs' = 0%nat)) then Err ErrReturnNotLast
      else '(sc, cols) ← clause sc cols c; analyze_clauses sc cols cs'
  end.

Definition analyzeArm (cs : list Clause) : res (list bytes) :=
  match last cs with
  | None => Err ErrEmptyQuery
  | Some final =>
      if existsb isSchemaCommand cs && negb (bool_decide (length cs = 1%nat)) then Err ErrSchemaClause
      else
        cols ← analyze_clauses newScope [] cs;
        if endsQuery final then Ok cols else Err ErrIncompleteQuery
  end.

Definition hasCreateIndex (q : Query) : bool := existsb isSchemaCommand (q_Clauses q).
Fixpoint analyze_unions (cols : list bytes) (us : list QueryUnion) : res unit :=
  match us with
  | [] => Ok tt
  | u :: us' =>
      armCols ← analyzeArm (qu_Clauses u);
      if bool_decide (cols = armCols) then analyze_unions cols us' else Err ErrUnionColumns
  end.
Definition Analyze (q : Query) : res (list bytes) :=
  cols ← analyzeArm (q_Clauses q);
  if negb (bool_decide (q_Unions q = [])) && hasCreateIndex q then Err ErrSchemaClause
  else _ ← analyze_unions cols (q_Unions q); Ok cols.
End sema.
End Sema.
