(* ===== verification/Planner.v ===== *)
(** * Planner: from clauses to operators

    src/query/plan/plan.go.  The planner object is the record [planner], passed
    along; a nil plan is [Plan.Nothing].  The catalog answers which properties
    are indexed; one without relationship indexes has no [HasRelIndex].  The
    maps the planner builds from the WHERE conjuncts, keyed by variable, are
    [gmap]s; the conjuncts consumed by a seek are a set of their indices. *)
From S2P Require Import Prelude Float64 FloatArith Values Ast Plan Scalars Text Records Storage Catalog Graph Context Functions Sema.
Import Ast Scalars Text Context Functions.

Module Planner.

(** ** Catalogs *)
Record PlanCatalog := mkCatalog {
  cat_HasIndex : bytes -> bytes -> bool;
  cat_HasRelIndex : option (bytes -> bytes -> bool)
}.
Definition NoIndexes : PlanCatalog := mkCatalog (fun _ _ => false) None.

Section planner.
Context `{Runtime}.

(** ** Expressions *)
Definition aggregates : list bytes := str <$> ["count"; "sum"; "avg"; "min"; "max"; "collect"]%string.
Definition isAggregate (name : bytes) : bool := bool_decide (ToLower name ∈ aggregates).

Fixpoint containsAggregate (e : Expr) : bool :=
  let opt (o : option Expr) : bool := match o with Some x => containsAggregate x | None => false end in
  match e with
  | FunctionCall name _ _ args => isAggregate name || existsb id (containsAggregate <$> args)
  | Binary _ l r => containsAggregate l || containsAggregate r
  | Unary _ x => containsAggregate x
  | PropertyAccess t _ => containsAggregate t
  | Subscript t i => containsAggregate t || containsAggregate i
  | Slice t f o => containsAggregate t || opt f || opt o
  | ListComprehension _ l w m => containsAggregate l || opt w || opt m
  | Quantifier _ _ l w => containsAggregate l || containsAggregate w
  | LabelsPredicate x _ => containsAggregate x
  | ListLiteral l => existsb id (containsAggregate <$> l)
  | MapLiteral m => existsb id ((fun e => containsAggregate e.2) <$> m)
  | Literal _ | Param _ | Variable_ _ | Case _ _ _ => false
  end.

Definition without (name : bytes) (vs : list bytes) : list bytes := filter (fun v => v <> name) vs.

Fixpoint exprVars (e : Expr) : list bytes :=
  let opt (o : option Expr) : list bytes := match o with Some x => exprVars x | None => [] end in
  match e with
  | Literal _ | Param _ => []
  | Variable_ name => [name]
  | PropertyAccess t _ => exprVars t
  | Subscript t i => exprVars t ++ exprVars i
  | Slice t f o => exprVars t ++ opt f ++ opt o
  | ListComprehension v l w m => exprVars l ++ without v (opt w) ++ without v (opt m)
  | Quantifier _ v l w => exprVars l ++ without v (exprVars w)
  | Unary _ x => exprVars x
  | Binary _ l r => exprVars l ++ exprVars r
  | FunctionCall _ _ _ args => concat (exprVars <$> args)
  | LabelsPredicate x _ => exprVars x
  | ListLiteral l => concat (exprVars <$> l)
  | MapLiteral m => concat (snd <$> Sema.by_key ((fun e => (e.1, exprVars e.2)) <$> m))
  | Case operand whens els => opt operand ++ concat ((fun w => exprVars w.1 ++ exprVars w.2) <$> whens) ++ opt els
  end.

Fixpoint conjuncts (e : Expr) : list Expr :=
  match e with
  | Binary op l r => if op =s "AND" then conjuncts l ++ conjuncts r else [e]
  | _ => [e]
  end.
(** [andAll] of a non-empty list. *)
Definition andAll (e : Expr) (es : list Expr) : Expr := foldl (Binary (str "AND")) e es.

Record equality := mkEquality { eq_variable : bytes; eq_key : bytes; eq_value : Expr; eq_conjIdx : Z }.

Definition propOfVar (e : Expr) : option (bytes * bytes) :=
  match e with PropertyAccess (Variable_ v) k => Some (v, k) | _ => None end.

Definition asEqualities (e : Expr) : list equality :=
  match e with
  | Binary op l r =>
      if op =s "=" then
        (match propOfVar l with Some (v, k) => [mkEquality v k r (-1)] | None => [] end)
        ++ (match propOfVar r with Some (v, k) => [mkEquality v k l (-1)] | None => [] end)
      else []
  | _ => []
  end.

Record rangePred := mkRange { rp_variable : bytes; rp_key : bytes; rp_op : bytes; rp_value : Expr }.

Definition flipped (op : bytes) : bytes :=
  if op =s "<" then str ">" else if op =s "<=" then str ">=" else if op =s ">" then str "<" else str "<=".
Definition asRange (e : Expr) : option rangePred :=
  match e with
  | Binary op l r =>
      if (op =s "<") || (op =s "<=") || (op =s ">") || (op =s ">=") then
        match propOfVar l with
        | Some (v, k) => Some (mkRange v k op r)
        | None => match propOfVar r with Some (v, k) => Some (mkRange v k (flipped op) l) | None => None end
        end
      else if op =s "STARTS WITH" then
        match propOfVar l with Some (v, k) => Some (mkRange v k op r) | None => None end
      else None
  | _ => None
  end.

Definition eqExpr (v k : bytes) (val : Expr) : Expr := Binary (str "=") (PropertyAccess (Variable_ v) k) val.
Definition flip (d : Direction) : Direction := match d with DirOut => DirIn | DirIn => DirOut | DirBoth => DirBoth end.

(** [m[k] = append(m[k], x)]. *)
Definition push {A : Type} (k : bytes) (x : A) (m : gmap (list Z) (list A)) : gmap (list Z) (list A) :=
  <[k := default [] (m !! k) ++ [x]]> m.
Definition at_ {A : Type} (m : gmap (list Z) (list A)) (k : bytes) : list A := default [] (m !! k).

(** The equalities and ranges of the WHERE conjuncts. *)
Definition index_equalities (conj : list Expr) : gmap (list Z) (list equality) :=
  foldl (fun m '(i, e) => foldl (fun m q => push (eq_variable q) (mkEquality (eq_variable q) (eq_key q) (eq_value q) (Z.of_nat i)) m) m (asEqualities e))
    ∅ (imap pair conj).
Definition index_ranges (conj : list Expr) : gmap (list Z) (list rangePred) :=
  foldl (fun m e => match asRange e with Some r => push (rp_variable r) r m | None => m end) ∅ conj.

(** ** The state of the planner *)
Record planner := mkPlanner {
  pl_bound : gset (list Z);
  pl_order : list bytes;
  pl_plan : Plan.Op;
  pl_synth : Z
}.
Definition new_planner : planner := mkPlanner ∅ [] Plan.Nothing 0.
Definition set_plan (p : Plan.Op) (pl : planner) : planner := mkPlanner (pl_bound pl) (pl_order pl) p (pl_synth pl).

Definition isBound (pl : planner) (name : bytes) : bool := negb (bool_decide (name = [])) && bool_decide (name ∈ pl_bound pl).
Definition bind (name : bytes) (pl : planner) : planner :=
  if bool_decide (name = []) || bool_decide (name ∈ pl_bound pl) then pl
  else mkPlanner ({[ name ]} ∪ pl_bound pl) (pl_order pl ++ [name]) (pl_plan pl) (pl_synth pl).
Definition newName (prefix : bytes) (pl : planner) : bytes * planner :=
  (prefix ++ dec (pl_synth pl), mkPlanner (pl_bound pl) (pl_order pl) (pl_plan pl) (pl_synth pl + 1)).

Definition seekable (pl : planner) (v : Expr) : bool := negb (containsAggregate v) && forallb (isBound pl) (exprVars v).

Definition is_nothing (p : Plan.Op) : bool := match p with Plan.Nothing => true | _ => false end.

(** ** Pattern elements *)
Record pnode := mkPnode {
  nd_name : bytes; nd_anon : bool; nd_labels : list bytes; nd_props : list (bytes * Expr);
  nd_reachedByScan : bool; nd_scanLabel : bytes; nd_consumedInline : bytes
}.
Record prel := mkPrel {
  rl_name : bytes; rl_anon : bool; rl_types : list bytes; rl_dir : Direction; rl_props : list (bytes * Expr);
  rl_varLen : bool; rl_min : Z; rl_max : Z
}.

Definition makeNode (n : NodePattern) (pl : planner) : pnode * planner :=
  let anon := bool_decide (np_Variable n = []) in
  let '(name, pl) := if anon then newName (str "_n") pl else (np_Variable n, pl) in
  (mkPnode name anon (np_Labels n) (np_Props n) false [] [], pl).
Definition makeRel (r : RelPattern) (pl : planner) : prel * planner :=
  let anon := bool_decide (rp_Variable r = []) in
  let '(name, pl) := if anon then newName (str "_r") pl else (rp_Variable r, pl) in
  (mkPrel name anon (rp_Types r) (rp_Direction r) (rp_Props r) (rp_VarLength r) (rp_MinHops r) (rp_MaxHops r), pl).

Definition buildPart (part : PatternPart) (pl : planner) : list pnode * list prel * planner :=
  let '(start, pl) := makeNode (pp_Start part) pl in
  foldl (fun '(nodes, rels, pl) ch =>
    let '(r, pl) := makeRel (ch_Rel ch) pl in
    let '(n, pl) := makeNode (ch_Node ch) pl in
    (nodes ++ [n], rels ++ [r], pl)) ([start], [], pl) (pp_Chain part).

(** ** Access methods *)

(** The first element with an answer. *)
Fixpoint first_some {A B : Type} (f : A -> option B) (l : list A) : option B :=
  match l with [] => None | x :: l' => match f x with Some y => Some y | None => first_some f l' end end.

Definition add_range (pl : planner) (scan : option Expr * option Expr * bool * bool * option Expr) (r : rangePred) :=
  let '(lower, upper, li, ui, prefix) := scan in
  if negb (seekable pl (rp_value r)) then scan
  else if rp_op r =s "STARTS WITH" then
    match prefix with None => (lower, upper, li, ui, Some (rp_value r)) | Some _ => scan end
  else if (rp_op r =s ">") || (rp_op r =s ">=") then
    match lower with None => (Some (rp_value r), upper, rp_op r =s ">=", ui, prefix) | Some _ => scan end
  else if (rp_op r =s "<") || (rp_op r =s "<=") then
    match upper with None => (lower, Some (rp_value r), li, rp_op r =s "<=", prefix) | Some _ => scan end
  else scan.

Definition rangeScan (cat : PlanCatalog) (pl : planner) (variable label : bytes) (ranges : list rangePred) : option Plan.Op :=
  let keys := merge_sort ble (remove_dups (rp_key <$> ranges)) in
  first_some (fun k =>
    if negb (cat_HasIndex cat label k) then None
    else
      let '(lower, upper, li, ui, prefix) :=
        foldl (add_range pl) (None, None, false, false, None) (filter (fun r => rp_key r = k) ranges) in
      match prefix with
      | Some _ => Some (Plan.NodeByPropertyRange variable label k None None li ui prefix)
      | None =>
          match lower, upper with
          | None, None => None
          | _, _ => Some (Plan.NodeByPropertyRange variable label k lower upper li ui None)
          end
      end) keys.

(** Score, access method and the equality it consumes. *)
Definition scoreNode (cat : PlanCatalog) (pl : planner) (nd : pnode) (eqs : list equality) (ranges : list rangePred)
    : Z * Plan.Op * option equality :=
  let seek label :=
    match first_some (fun '(k, v) => if cat_HasIndex cat label k && seekable pl v then Some (mkEquality (nd_name nd) k v (-1)) else None)
            (Sema.by_key (nd_props nd)) with
    | Some q => Some (label, q)
    | None => first_some (fun q => if cat_HasIndex cat label (eq_key q) && seekable pl (eq_value q) then Some (label, q) else None) eqs
    end in
  match first_some seek (nd_labels nd) with
  | Some (label, q) => (4, Plan.NodeByProperty (nd_name nd) label (eq_key q) (eq_value q), Some q)
  | None =>
      match first_some (fun label => rangeScan cat pl (nd_name nd) label ranges) (nd_labels nd) with
      | Some scan => (3, scan, None)
      | None =>
          match nd_labels nd with
          | label :: _ => (2, Plan.NodeByLabelScan (nd_name nd) label, None)
          | [] => (1, Plan.AllNodesScan (nd_name nd), None)
          end
      end
  end.

Definition chooseAnchor (cat : PlanCatalog) (pl : planner) (nodes : list pnode)
    (eqs : gmap (list Z) (list equality)) (ranges : gmap (list Z) (list rangePred)) : nat * Plan.Op * option equality :=
  let '(idx, _, scan, eq) :=
    foldl (fun '(bi, bs, bscan, beq) '(i, nd) =>
      if isBound pl (nd_name nd) then (bi, bs, bscan, beq)
      else
        let '(score, scan, eq) := scoreNode cat pl nd (at_ eqs (nd_name nd)) (at_ ranges (nd_name nd)) in
        if bs <? score then (i, score, Some scan, eq) else (bi, bs, bscan, beq))
      (0%nat, -1, None, None) (imap pair nodes) in
  match scan with
  | Some scan => (idx, scan, eq)
  | None => (idx, Plan.AllNodesScan (match nodes with nd :: _ => nd_name nd | [] => [] end), eq)
  end.

Definition scanVars (o : Plan.Op) : list bytes :=
  match o with
  | Plan.NodeByProperty _ _ _ v => exprVars v
  | Plan.RelByProperty _ _ _ _ _ _ v => exprVars v
  | Plan.NodeByPropertyRange _ _ _ lower upper _ _ prefix =>
      concat ((fun o => match o with Some e => exprVars e | None => [] end) <$> [lower; upper; prefix])
  | _ => []
  end.
Definition scanLabelOf (o : Plan.Op) : bytes :=
  match o with
  | Plan.NodeByLabelScan _ l | Plan.NodeByProperty _ l _ _ | Plan.NodeByPropertyRange _ l _ _ _ _ _ _ => l
  | _ => []
  end.

(** Put an access method beside the plan so far: alone, once per row when it
    reads the row, and as an independent scan otherwise. *)
Definition join_scan (plan scan : Plan.Op) : Plan.Op :=
  if is_nothing plan then scan
  else match scanVars scan with
  | [] => Plan.CartesianProduct plan scan
  | _ => Plan.Apply plan (Plan.CartesianProduct Plan.Argument scan)
  end.

(** ** Expansion *)
Definition emitExpand (from : pnode) (rel : prel) (to_ : pnode) (reversed : bool) (pl : planner) : planner :=
  let dir := if reversed then flip (rl_dir rel) else rl_dir rel in
  let x := Plan.Expand (pl_plan pl) (nd_name from) (rl_name rel) (nd_name to_) (rl_types rel) dir
    (rl_varLen rel) (rl_min rel) (rl_max rel) (isBound pl (nd_name to_)) false false in
  bind (nd_name to_) (bind (rl_name rel) (set_plan x pl)).

(** Rightward from node [i], then leftward from relationship [j - 1]. *)
Definition expand_from (nodes : list pnode) (rels : list prel) (i j : nat) (pl : planner) : planner :=
  let at_node k := nodes !! k in
  let right := foldl (fun pl k =>
    match at_node k, rels !! k, at_node (S k) with
    | Some a, Some r, Some b => emitExpand a r b false pl
    | _, _, _ => pl
    end) pl (seq i (length rels - i)) in
  foldl (fun pl k =>
    match at_node (S k), rels !! k, at_node k with
    | Some a, Some r, Some b => emitExpand a r b true pl
    | _, _, _ => pl
    end) right (reverse (seq 0 j)).

Definition residualPredicates (nodes : list pnode) (rels : list prel) : list Expr :=
  concat ((fun nd =>
    let enforced := if nd_reachedByScan nd then nd_scanLabel nd else [] in
    let rest := filter (fun l => l <> enforced) (nd_labels nd) in
    (match rest with [] => [] | _ => [LabelsPredicate (Variable_ (nd_name nd)) rest] end)
    ++ ((fun '(k, v) => eqExpr (nd_name nd) k v) <$> filter (fun e => e.1 <> nd_consumedInline nd) (Sema.by_key (nd_props nd)))) <$> nodes)
  ++ concat ((fun r => (fun '(k, v) => eqExpr (rl_name r) k v) <$> Sema.by_key (rl_props r)) <$> rels).

(** [markUnused] on the topmost [n] operators, which are the expands. *)
Definition anon_names (nodes : list pnode) (rels : list prel) : gmap (list Z) bool :=
  foldl (fun m r => <[rl_name r := rl_anon r]> m)
    (foldl (fun m nd => <[nd_name nd := nd_anon nd]> m) ∅ nodes) rels.
Fixpoint markUnused (n : nat) (anon : gmap (list Z) bool) (read : list bytes) (p : Plan.Op) : Plan.Op :=
  match n, p with
  | S n, Plan.Expand i from rel to_ types dir varLen mn mx toBound tu ru =>
      let i := markUnused n anon read i in
      if varLen then Plan.Expand i from rel to_ types dir varLen mn mx toBound tu ru
      else
        let unused name := default false (anon !! name) && negb (bool_decide (name ∈ read)) in
        Plan.Expand i from rel to_ types dir varLen mn mx toBound (unused to_ && negb toBound) (unused rel)
  | _, _ => p
  end.
(** Residual predicates of a part, and its plan with the unused elements marked. *)
Definition finish_part (part : PatternPart) (nodes : list pnode) (rels : list prel) (n : nat) (pl : planner) : list Expr * planner :=
  let residual := residualPredicates nodes rels in
  let pl := if bool_decide (pp_Variable part = []) then
      set_plan (markUnused n (anon_names nodes rels) (concat (exprVars <$> residual)) (pl_plan pl)) pl
    else pl in
  (residual, pl).

(** ** Relationship seeks *)
Definition relAnchor (cat : PlanCatalog) (pl : planner) (nodes : list pnode) (rels : list prel)
    (eqs : gmap (list Z) (list equality)) (ranges : gmap (list Z) (list rangePred)) : option (nat * Plan.Op * option equality) :=
  match cat_HasRelIndex cat with
  | None => None
  | Some hasRel =>
      match chooseAnchor cat pl nodes eqs ranges with
      | (_, Plan.NodeByProperty _ _ _ _, _) => None
      | _ =>
          first_some (fun '(i, r) =>
            match rl_types r with
            | [typ] =>
                if rl_varLen r then None
                else
                  let seek key v :=
                    if negb (hasRel typ key) || negb (seekable pl v) then None
                    else match nodes !! i, nodes !! S i with
                    | Some a, Some b => Some (Plan.RelByProperty (rl_name r) (nd_name a) (nd_name b) (rl_dir r) typ key v)
                    | _, _ => None
                    end in
                  match first_some (fun '(k, v) => seek k v) (Sema.by_key (rl_props r)) with
                  | Some s => Some (i, s, None)
                  | None => first_some (fun q => match seek (eq_key q) (eq_value q) with Some s => Some (i, s, Some q) | None => None end)
                              (at_ eqs (rl_name r))
                  end
            | _ => None
            end) (imap pair rels)
      end
  end.

Definition consume (eq : option equality) (consumed : gset nat) : gset nat :=
  match eq with Some q => if 0 <=? eq_conjIdx q then {[ Z.to_nat (eq_conjIdx q) ]} ∪ consumed else consumed | None => consumed end.

Definition seek_names (o : Plan.Op) : list bytes :=
  match o with Plan.RelByProperty rel from to_ _ _ _ _ => [rel; from; to_] | _ => [] end.
Definition planFromRel (part : PatternPart) (nodes : list pnode) (rels : list prel) (ri : nat) (seek : Plan.Op)
    (eq : option equality) (consumed : gset nat) (pl : planner) : list Expr * gset nat * planner :=
  let pl := set_plan (join_scan (pl_plan pl) seek) pl in
  let pl := foldl (fun pl name => bind name pl) pl (seek_names seek) in
  let pl := expand_from nodes rels (S ri) ri pl in
  let '(residual, pl) := finish_part part nodes rels (length rels - 1) pl in
  (residual, consume eq consumed, pl).

(** ** Parts of a MATCH *)
Definition planShortest (part : PatternPart) (pl : planner) : res planner :=
  match pp_Chain part with
  | [] => Err ErrPanic
  | ch :: _ =>
      let from := np_Variable (pp_Start part) in
      let to_ := np_Variable (ch_Node ch) in
      if negb (isBound pl from && isBound pl to_) || is_nothing (pl_plan pl) then Err ErrShortestForm
      else
        let rel := ch_Rel ch in
        Ok (bind (rp_Variable rel) (bind (pp_Variable part)
          (set_plan (Plan.ShortestPath (pl_plan pl) from to_ (pp_Variable part) (rp_Variable rel) (rp_Types rel) (rp_Direction rel)
            (rp_MinHops rel) (rp_MaxHops rel) (match pp_Shortest part with ShortestAll => true | _ => false end)) pl)))
  end.

(** The anchor node: found by a scan, and what the scan already ensures. *)
Definition anchored (scan : Plan.Op) (eq : option equality) (nd : pnode) : pnode :=
  mkPnode (nd_name nd) (nd_anon nd) (nd_labels nd) (nd_props nd) true (scanLabelOf scan)
    (match eq with Some q => if 0 <=? eq_conjIdx q then [] else eq_key q | None => [] end).

Definition first_bound (pl : planner) (nodes : list pnode) : option nat :=
  first_some (fun '(i, nd) => if isBound pl (nd_name nd) then Some i else None) (imap pair nodes).

Definition planPart (cat : PlanCatalog) (part : PatternPart) (eqs : gmap (list Z) (list equality))
    (ranges : gmap (list Z) (list rangePred)) (consumed : gset nat) (pl : planner) : res (list Expr * gset nat * planner) :=
  if Sema.is_shortest part then pl ← planShortest part pl; Ok ([], consumed, pl)
  else
    let '(nodes, rels, pl) := buildPart part pl in
    match first_bound pl nodes with
    | Some i =>
        let pl := expand_from nodes rels i i pl in
        let '(residual, pl) := finish_part part nodes rels (length rels) pl in
        Ok (residual, consumed, pl)
    | None =>
        match relAnchor cat pl nodes rels eqs ranges with
        | Some (ri, seek, eq) => Ok (planFromRel part nodes rels ri seek eq consumed pl)
        | None =>
            let '(i, scan, eq) := chooseAnchor cat pl nodes eqs ranges in
            let pl := set_plan (join_scan (pl_plan pl) scan) pl in
            let nodes := alter (anchored scan eq) i nodes in
            let pl := bind (match nodes !! i with Some nd => nd_name nd | None => [] end) pl in
            let pl := expand_from nodes rels i i pl in
            let '(residual, pl) := finish_part part nodes rels (length rels) pl in
            Ok (residual, consume eq consumed, pl)
        end
    end.

Definition shortestLast (parts : list PatternPart) : list PatternPart :=
  filter (fun p => Sema.is_shortest p = false) parts ++ filter (fun p => Sema.is_shortest p = true) parts.

(** A WHERE condition may not read a shortest path of the same MATCH. *)
Definition shortest_vars (parts : list PatternPart) : list bytes :=
  concat ((fun p => if Sema.is_shortest p
    then filter (fun v => v <> []) (pp_Variable p :: match pp_Chain p with ch :: _ => [rp_Variable (ch_Rel ch)] | [] => [] end)
    else []) <$> parts).
Definition checkShortestFilters (parts : list PatternPart) (residual : list Expr) : res unit :=
  if existsb (fun v => bool_decide (v ∈ shortest_vars parts)) (concat (exprVars <$> residual))
  then Err ErrShortestForm else Ok tt.

Fixpoint planParts (cat : PlanCatalog) (parts : list PatternPart) (eqs : gmap (list Z) (list equality))
    (ranges : gmap (list Z) (list rangePred)) (residual : list Expr) (consumed : gset nat) (pl : planner)
    : res (list Expr * gset nat * planner) :=
  match parts with
  | [] => Ok (residual, consumed, pl)
  | part :: parts' =>
      '(r, consumed, pl) ← planPart cat part eqs ranges consumed pl;
      planParts cat parts' eqs ranges (residual ++ r) consumed pl
  end.

Definition filter_plan (residual : list Expr) (pl : planner) : planner :=
  match residual with [] => pl | e :: es => set_plan (Plan.Filter (pl_plan pl) (andAll e es)) pl end.

(** The body shared by [planMatch] and [planOptionalMatch]. *)
Definition plan_pattern (cat : PlanCatalog) (parts : list PatternPart) (where_ : option Expr) (pl : planner) : res planner :=
  let conj := match where_ with Some e => conjuncts e | None => [] end in
  '(residual, consumed, pl) ← planParts cat (shortestLast parts) (index_equalities conj) (index_ranges conj) [] ∅ pl;
  let residual := residual ++ omap (fun '(i, e) => if bool_decide (i ∈ consumed) then None else Some e) (imap pair conj) in
  _ ← checkShortestFilters parts residual;
  Ok (filter_plan residual pl).

Definition planOptionalMatch (cat : PlanCatalog) (parts : list PatternPart) (where_ : option Expr) (pl : planner) : res planner :=
  let outer := pl_plan pl in
  let before := pl_bound pl in
  pl ← plan_pattern cat parts where_ (set_plan Plan.Argument pl);
  let newVars := filter (fun name => name ∉ before) (pl_order pl) in
  Ok (set_plan (Plan.OuterApply outer (pl_plan pl) newVars) pl).
Definition planMatch (cat : PlanCatalog) (optional : bool) (parts : list PatternPart) (where_ : option Expr) (pl : planner) : res planner :=
  if optional then planOptionalMatch cat parts where_ pl else plan_pattern cat parts where_ pl.

(** ** Projections *)
Definition expandItems (star : bool) (items : list ReturnItem) (pl : planner) : list ProjItem :=
  (if star then (fun v => mkProjItem v (Variable_ v)) <$> pl_order pl else [])
  ++ ((fun it => mkProjItem (match ri_Alias it with [] => Sema.exprString (ri_Expr it) | alias => alias end) (ri_Expr it)) <$> items).

Definition projectOrAggregate (star : bool) (items : list ReturnItem) (distinct : bool) (pl : planner) : planner :=
  let projItems := expandItems star items pl in
  let aggs := filter (fun pi => containsAggregate (pi_Expr pi) = true) projItems in
  let groups := filter (fun pi => containsAggregate (pi_Expr pi) = false) projItems in
  let plan := match aggs with
    | [] => Plan.Project (pl_plan pl) projItems distinct
    | _ => Plan.Aggregate (pl_plan pl) groups aggs distinct
    end in
  foldl (fun pl pi => bind (pi_Column pi) pl) (mkPlanner ∅ [] plan (pl_synth pl)) projItems.

Definition applyTail (orderBy : list SortKey) (skip limit : option Expr) (pl : planner) : planner :=
  let p := match orderBy with [] => pl_plan pl | _ => Plan.Sort (pl_plan pl) orderBy end in
  let p := match skip with Some e => Plan.Skip p e | None => p end in
  let p := match limit with Some e => Plan.Limit p e | None => p end in
  set_plan p pl.

Definition planReturn (distinct star : bool) (items : list ReturnItem) (orderBy : list SortKey) (skip limit : option Expr)
    (pl : planner) : planner :=
  applyTail orderBy skip limit (projectOrAggregate star items distinct pl).
Definition planWith (distinct star : bool) (items : list ReturnItem) (orderBy : list SortKey) (skip limit where_ : option Expr)
    (pl : planner) : planner :=
  let pl := projectOrAggregate star items distinct pl in
  let pl := match where_ with Some e => set_plan (Plan.Filter (pl_plan pl) e) pl | None => pl end in
  applyTail orderBy skip limit pl.

(** ** Clauses *)
Definition bindPatternVars (part : PatternPart) (pl : planner) : planner :=
  foldl (fun pl ch => bind (np_Variable (ch_Node ch)) (bind (rp_Variable (ch_Rel ch)) pl))
    (bind (np_Variable (pp_Start part)) (bind (pp_Variable part) pl)) (pp_Chain part).
Definition planCreate (parts : list PatternPart) (pl : planner) : planner :=
  foldl (fun pl part => bindPatternVars part pl) (set_plan (Plan.Create (pl_plan pl) parts) pl) parts.
Definition planMerge (part : PatternPart) (onCreate onMatch : list SetClause) (pl : planner) : planner :=
  bindPatternVars part (set_plan (Plan.Merge (pl_plan pl) part onCreate onMatch) pl).

Definition bind_all (names : list bytes) (pl : planner) : planner := foldl (fun pl name => bind name pl) pl names.

Definition clause (cat : PlanCatalog) (c : Clause) (pl : planner) : res planner :=
  match c with
  | CMatch optional parts where_ => planMatch cat optional parts where_ pl
  | CWith distinct star items orderBy skip limit where_ => Ok (planWith distinct star items orderBy skip limit where_ pl)
  | CReturn distinct star items orderBy skip limit => Ok (planReturn distinct star items orderBy skip limit pl)
  | CCreate parts => Ok (planCreate parts pl)
  | CMerge part onCreate onMatch => Ok (planMerge part onCreate onMatch pl)
  | CSet items => Ok (set_plan (Plan.SetItems (pl_plan pl) items) pl)
  | CRemove items => Ok (set_plan (Plan.Remove (pl_plan pl) items) pl)
  | CUnwind e alias => Ok (bind alias (set_plan (Plan.Unwind (pl_plan pl) e alias) pl))
  | CDelete detach es => Ok (set_plan (Plan.Delete (pl_plan pl) es detach) pl)
  | CCreateIndex name label prop rel => Ok (set_plan (Plan.CreateIndex name label prop rel) pl)
  | CDropIndex name ifExists => Ok (set_plan (Plan.DropIndex name ifExists) pl)
  | CShowIndexes => Ok (bind_all Sema.show_index_columns (set_plan Plan.ShowIndexes pl))
  | CCreateConstraint name label prop => Ok (set_plan (Plan.CreateConstraint name label prop) pl)
  | CDropConstraint name ifExists => Ok (set_plan (Plan.DropConstraint name ifExists) pl)
  | CShowConstraints => Ok (bind_all Sema.show_constraint_columns (set_plan Plan.ShowConstraints pl))
  end.

Fixpoint clauses (cat : PlanCatalog) (cs : list Clause) (pl : planner) : res planner :=
  match cs with [] => Ok pl | c :: cs' => pl ← clause cat c pl; clauses cat cs' pl end.

Definition planArm (cat : PlanCatalog) (cs : list Clause) : res (Plan.Op * list bytes) :=
  pl ← clauses cat cs new_planner;
  if is_nothing (pl_plan pl) then Err ErrNoPlan else Ok (pl_plan pl, pl_order pl).

Fixpoint plan_unions (cat : PlanCatalog) (us : list QueryUnion) : res (list Plan.Op) :=
  match us with
  | [] => Ok []
  | u :: us' => '(p, _) ← planArm cat (qu_Clauses u); ps ← plan_unions cat us'; Ok (p :: ps)
  end.
Definition Plan_ (q : Query) (cat : PlanCatalog) : res Plan.Op :=
  '(first, columns) ← planArm cat (q_Clauses q);
  match q_Unions q with
  | [] => Ok first
  | us => parts ← plan_unions cat us; Ok (Plan.Union (first :: parts) columns (forallb qu_All us))
  end.
End planner.
End Planner.
