(* ===== verification/FreeVars.v ===== *)
(** * FreeVars: what an expression reads

    [exprVars] of src/query/plan/plan.go lists the variables an expression
    reads.  The planner uses it to decide that a seek value can be computed
    before the pattern is matched and that an anonymous element need not be
    loaded; both are sound because evaluation (src/internal/exec/eval.go) on two
    rows that agree on those variables is the same computation. *)
From S2P Require Import Prelude Float64 FloatArith Values Ast Plan Scalars Text Keys Records Storage Catalog Graph Context Functions Eval Sema Planner.
Import Ast Scalars Text Context Functions Eval Planner.

Module FreeVars.
Section free.
Context `{Runtime}.

(** Two computations with the same outcome on every store and context. *)
Definition same {A : Type} (m m' : M A) : Prop := forall c s, run (m c) s = run (m' c) s.
#[global] Instance same_equivalence {A : Type} : Equivalence (@same A).
Proof. split; [by intros ? ? ?|by intros ? ? Hm ? ?; rewrite Hm|by intros ? ? ? H1 H2 ? ?; rewrite H1, H2]. Qed.
Lemma same_bind {A B : Type} (m m' : M A) (f f' : A -> M B) : same m m' -> (forall x, same (f x) (f' x)) -> same (m ≫= f) (m' ≫= f').
Proof.
  intros Hm Hf c s. unfold mbind, M_bind. rewrite !run_bind, Hm. destruct (run (m' c) s) as [[[r c']|e] s']; [|done].
  destruct r as [x|]; [apply Hf|done].
Qed.

(** Computations built alike from computations that are the same. *)
Ltac alike :=
  repeat first
    [ eassumption | reflexivity
    | apply same_bind; [|intros ?]
    | match goal with |- same (match ?x with _ => _ end) (match ?x with _ => _ end) => destruct x end
    | match goal with |- same (if ?x then _ else _) (if ?x then _ else _) => destruct x end ].

Definition same_opt {A : Type} (o o' : option (M A)) : Prop := option_Forall2 same o o'.

Lemma same_mapM {A : Type} (l l' : list (M A)) : Forall2 same l l' -> same (mapM id l) (mapM id l').
Proof. induction 1 as [|m m' l l' Hm _ IH]; cbn [mapM]; alike. Qed.
Lemma same_whens test ws ws' els els' : Forall2 (fun w w' : M value * M value => same w.1 w'.1 /\ same w.2 w'.2) ws ws' -> same els els' ->
  same (whens_loop test ws els) (whens_loop test ws' els').
Proof. intros Hw He. induction Hw as [|[c r] [c' r'] ws ws' [Hc Hr] _ IH]; cbn [whens_loop fst snd] in *; alike. Qed.
Lemma same_case o o' ws ws' els els' : same_opt o o' -> Forall2 (fun w w' : M value * M value => same w.1 w'.1 /\ same w.2 w'.2) ws ws' ->
  same_opt els els' -> same (evalCase o ws els) (evalCase o' ws' els').
Proof.
  intros Ho Hw He. assert (same (default (mret VNull) els) (default (mret VNull) els')) as Hd by (by destruct He).
  unfold evalCase. destruct Ho; [apply same_bind; [done|intros v]|]; by apply same_whens.
Qed.
Lemma same_slice_bound n o o' open_ : same_opt o o' -> same (slice_bound n o open_) (slice_bound n o' open_).
Proof. intros Ho. unfold slice_bound. destruct Ho; alike. Qed.
Lemma same_slice t t' f f' o o' : same t t' -> same_opt f f' -> same_opt o o' -> same (evalSlice t f o) (evalSlice t' f' o').
Proof.
  intros Ht Hf Ho. unfold evalSlice. apply same_bind; [done|]. intros v. destruct v; try reflexivity.
  apply same_bind; [by apply same_slice_bound|]. intros [from|]; [|reflexivity]. apply same_bind; [by apply same_slice_bound|]. reflexivity.
Qed.

(** Rows that agree on the names of a list. *)
Definition agree (vs : list bytes) (b b' : binding) : Prop := forall x, x ∈ vs -> b !! x = b' !! x.
Lemma agree_insert v item vs b b' : agree (without v vs) b b' -> agree vs (<[v := item]> b) (<[v := item]> b').
Proof.
  intros Ha x Hx. destruct (decide (x = v)) as [->|Hne]; [by rewrite !lookup_insert_eq|]. rewrite !lookup_insert_ne by done.
  apply Ha. unfold without. apply list_elem_of_filter. done.
Qed.
Lemma agree_app vs ws b b' : agree (vs ++ ws) b b' -> agree vs b b' /\ agree ws b b'.
Proof. unfold agree. split; intros x Hx; apply H0, elem_of_app; auto. Qed.

(** A loop whose body reads [vs], the loop variable included. *)
Lemma same_iter {A : Type} (fn fn' : binding -> value -> A -> M (bool * A)) v vs l :
  (forall row row' item acc, agree vs row row' -> same (fn row item acc) (fn' row' item acc)) ->
  forall b b' acc, agree (without v vs) b b' -> same (iter_loop fn v b l acc) (iter_loop fn' v b' l acc).
Proof.
  intros Hfn. induction l as [|item l IH]; intros b b' acc Ha; cbn [iter_loop]; [reflexivity|]. apply same_bind; [reflexivity|]. intros _.
  pose proof (agree_insert v item vs b b' Ha) as Ha'. apply same_bind; [by apply Hfn|]. intros [stop a]. cbn [fst snd]. destruct stop; [reflexivity|].
  apply IH. intros x [_ Hx]%list_elem_of_filter. by apply Ha'.
Qed.
Lemma same_iterList {A : Type} (fn fn' : binding -> value -> A -> M (bool * A)) v vs l l' b b' acc :
  same l l' -> (forall row row' item acc, agree vs row row' -> same (fn row item acc) (fn' row' item acc)) -> agree (without v vs) b b' ->
  same (iterList l v b fn acc) (iterList l' v b' fn' acc).
Proof.
  intros Hl Hfn Ha. unfold iterList. apply same_bind; [done|]. intros x. destruct x; try reflexivity.
  apply same_bind; [by eapply same_iter|]. reflexivity.
Qed.
Lemma same_comprehension v vs l l' b b' w w' m m' : same l l' -> agree (without v vs) b b' ->
  option_Forall2 (fun f f' : binding -> M value => forall row row', agree vs row row' -> same (f row) (f' row')) w w' ->
  option_Forall2 (fun f f' : binding -> M value => forall row row', agree vs row row' -> same (f row) (f' row')) m m' ->
  same (evalListComprehension l v b w m) (evalListComprehension l' v b' w' m').
Proof.
  intros Hl Ha Hw Hm. unfold evalListComprehension. apply same_bind; [|reflexivity]. eapply same_iterList; [done| |exact Ha].
  intros row row' item acc Hrow. apply same_bind.
  - destruct Hw as [f f' Hf|]; [apply same_bind; [by apply Hf|]; reflexivity|reflexivity].
  - intros []; [|reflexivity]. apply same_bind; [|reflexivity]. destruct Hm as [f f' Hf|]; [by apply Hf|reflexivity].
Qed.
Lemma same_quantifier kind v vs l l' b b' w w' : same l l' -> agree (without v vs) b b' ->
  (forall row row', agree vs row row' -> same (w row) (w' row')) -> same (evalQuantifier kind l v b w) (evalQuantifier kind l' v b' w').
Proof.
  intros Hl Ha Hw. unfold evalQuantifier. apply same_bind; [|reflexivity]. eapply same_iterList; [done| |exact Ha].
  intros row row' item acc Hrow. apply same_bind; [by apply Hw|]. reflexivity.
Qed.

(** Maps whose entries are the same, visited in the same order. *)
Lemma same_find {A : Type} (R : A -> A -> Prop) k (l l' : list (bytes * A)) : Forall2 (fun e e' => e.1 = e'.1 /\ R e.2 e'.2) l l' ->
  option_Forall2 (fun e e' => e.1 = e'.1 /\ R e.2 e'.2) (find (fun e => bool_decide (e.1 = k)) l) (find (fun e => bool_decide (e.1 = k)) l').
Proof.
  induction 1 as [|e e' l l' [Hk Hr] _ IH]; cbn [find]; [constructor|]. rewrite <- Hk. case_bool_decide; [by constructor|done].
Qed.
Lemma same_range {A : Type} (R : A -> A -> Prop) (l l' : list (bytes * A)) : Forall2 (fun e e' => e.1 = e'.1 /\ R e.2 e'.2) l l' ->
  Forall2 (fun e e' => e.1 = e'.1 /\ R e.2 e'.2) (range_over order_keys l) (range_over order_keys l').
Proof.
  intros Hl. unfold range_over. assert (l.*1 = l'.*1) as -> by (induction Hl as [|? ? ? ? [? _]]; cbn; congruence).
  induction (order_keys l'.*1) as [|k ks IH]; cbn [omap list_omap]; [constructor|]. destruct (same_find R k l l' Hl); [by constructor|done].
Qed.
Lemma same_entries l l' : Forall2 (fun e e' : bytes * M value => e.1 = e'.1 /\ same e.2 e'.2) l l' ->
  same (mapM (fun e : bytes * M value => v ← e.2; mret (e.1, v)) l) (mapM (fun e : bytes * M value => v ← e.2; mret (e.1, v)) l').
Proof. induction 1 as [|[k m] [k' m'] l l' [Hk Hm] _ IH]; cbn [mapM fst snd] in *; [reflexivity|]. subst k'. alike. Qed.

Lemma agree_map (m : list (bytes * Expr)) b b' : agree (exprVars (MapLiteral m)) b b' -> forall e, e ∈ m -> agree (exprVars e.2) b b'.
Proof.
  intros Ha e He x Hx. apply Ha. cbn [exprVars]. apply list_elem_of_In, in_concat. exists (exprVars e.2). split; [|by apply list_elem_of_In].
  apply list_elem_of_In, list_elem_of_fmap. exists (e.1, exprVars e.2). split; [done|]. unfold Sema.by_key. rewrite merge_sort_Permutation.
  apply list_elem_of_fmap. by exists e.
Qed.
Lemma agree_concat {A : Type} (f : A -> list bytes) (l : list A) b b' : agree (concat (f <$> l)) b b' -> forall x, x ∈ l -> agree (f x) b b'.
Proof.
  intros Ha x Hx y Hy. apply Ha, list_elem_of_In, in_concat. exists (f x). split; [by apply list_elem_of_In, list_elem_of_fmap; exists x|by apply list_elem_of_In].
Qed.
Lemma same_list (f f' : Expr -> M value) (l : list Expr) : (forall x, x ∈ l -> same (f x) (f' x)) -> Forall2 same (f <$> l) (f' <$> l).
Proof. intros Hf. induction l as [|x l IH]; cbn; constructor; [apply Hf; left|apply IH; intros y Hy; apply Hf; by right]. Qed.

(** Evaluation depends on [exprVars] only. *)
Definition opt_vars (o : option Expr) : list bytes := match o with Some x => exprVars x | None => [] end.
Lemma same_eval_opt (o : option Expr) b b' : (forall x, o = Some x -> forall b b', agree (exprVars x) b b' -> same (eval x b) (eval x b')) ->
  agree (opt_vars o) b b' -> same_opt (match o with Some x => Some (eval x b) | None => None end) (match o with Some x => Some (eval x b') | None => None end).
Proof. intros Hx Ha. destruct o as [x|]; constructor. by apply Hx. Qed.
Lemma same_fun_opt (o : option Expr) vs : (forall x, o = Some x -> forall b b', agree (exprVars x) b b' -> same (eval x b) (eval x b')) ->
  (forall x, x ∈ opt_vars o -> x ∈ vs) ->
  option_Forall2 (fun f f' : binding -> M value => forall row row', agree vs row row' -> same (f row) (f' row'))
    (match o with Some x => Some (eval x) | None => None end) (match o with Some x => Some (eval x) | None => None end).
Proof. intros Hx Hv. destruct o as [x|]; constructor. intros row row' Ha. apply Hx; [done|]. intros y Hy. by apply Ha, Hv. Qed.

Lemma eval_agree e : forall b b', agree (exprVars e) b b' -> same (eval e b) (eval e b').
Proof.
  induction e using expr_ind'; intros b b' Ha; cbn [eval].
  - reflexivity.
  - reflexivity.
  - rewrite (Ha n) by (cbn; set_solver). reflexivity.
  - apply same_bind; [by apply IHe|]. reflexivity.
  - apply same_bind; [by apply IHe|]. reflexivity.
  - apply agree_app in Ha as [Hl Hr]. specialize (IHe1 _ _ Hl). specialize (IHe2 _ _ Hr). unfold evalBinary, boolOp. alike.
  - unfold evalFunctionCall. alike. apply same_mapM, same_list. intros x Hx. rewrite Forall_forall in H0.
    apply H0; [done|]. by eapply (agree_concat exprVars).
  - apply same_bind; [by apply IHe|]. reflexivity.
  - apply same_bind; [|reflexivity]. apply same_mapM, same_list. intros x Hx. rewrite Forall_forall in H0.
    apply H0; [done|]. by eapply (agree_concat exprVars).
  - apply same_bind; [|reflexivity]. apply same_entries, same_range. rewrite Forall_forall in H0. pose proof (agree_map m b b' Ha) as Hm. clear Ha.
    induction m as [|e m IH]; cbn; constructor; [split; [done|apply H0; [left|apply Hm; left]]|].
    apply IH; [intros x Hx; apply H0; by right|intros x Hx; apply Hm; by right].
  - cbn [exprVars] in Ha. apply agree_app in Ha as [Ho Ha]. apply agree_app in Ha as [Hw He]. apply same_case; [by apply same_eval_opt| |by apply same_eval_opt].
    pose proof (agree_concat _ _ _ _ Hw) as Hws. clear Hw. rewrite Forall_forall in H1.
    induction ws as [|w ws IH]; cbn; constructor.
    + destruct (H1 w ltac:(left)) as [H1a H1b]. destruct (agree_app _ _ _ _ (Hws w ltac:(left))) as [Ha1 Ha2]. cbn. split; [by apply H1a|by apply H1b].
    + apply IH; [intros x Hx; apply H1; by right|intros x Hx; apply Hws; by right].
  - apply agree_app in Ha as [Ht Hi]. unfold evalSubscript. apply same_bind; [by apply IHe1|]. intros t. apply same_bind; [by apply IHe2|]. reflexivity.
  - cbn [exprVars] in Ha. apply agree_app in Ha as [Hl Ha]. apply agree_app in Ha as [Hw Hm].
    apply (same_comprehension _ (opt_vars w ++ opt_vars m)); [by apply IHe| | |].
    + intros x [Hne [Hx|Hx]%elem_of_app]%list_elem_of_filter; [apply Hw|apply Hm]; by apply list_elem_of_filter.
    + apply same_fun_opt; [done|]. intros x Hx. apply elem_of_app. by left.
    + apply same_fun_opt; [done|]. intros x Hx. apply elem_of_app. by right.
  - apply agree_app in Ha as [Hl Hw]. by apply (same_quantifier _ _ (exprVars e2)); [apply IHe1| |].
  - cbn [exprVars] in Ha. apply agree_app in Ha as [Ht Ha]. apply agree_app in Ha as [Hf Ho]. apply same_slice; [by apply IHe|by apply same_eval_opt|by apply same_eval_opt].
Qed.
Lemma evaluates_agree s e b b' v : agree (exprVars e) b b' -> evaluates s (eval e b) v -> evaluates s (eval e b') v.
Proof. intros Ha Hv c Hc. rewrite <- (eval_agree e b b' Ha). by apply Hv. Qed.
End free.
End FreeVars.
