(* ===== verification/PlannerClaims.v ===== *)
(** * PlannerClaims: analysed queries can be planned

    src/query/sema/sema.go and src/query/plan/plan.go together: the checks of the
    analysis are what the planner relies on. *)
From S2P Require Import Prelude Float64 FloatArith Values Ast Plan Scalars Text Records Storage Catalog Graph Context Functions Eval Sema Planner FreeVars.
Import Ast Scalars Text Context Functions Eval Planner FreeVars.

(** ** Plans depend only on what the catalog answers *)
Module CatalogLaws.
Section catalogs.
Context `{Runtime}.

Definition cat_same (c c' : PlanCatalog) : Prop :=
  (forall l k, cat_HasIndex c l k = cat_HasIndex c' l k) /\
  match cat_HasRelIndex c, cat_HasRelIndex c' with
  | Some f, Some f' => forall t k, f t k = f' t k
  | None, None => True
  | _, _ => False
  end.
#[global] Instance cat_same_equiv : Equivalence cat_same.
Proof.
  split.
  - intros [h [r|]]; split; cbn; auto.
  - intros [h [r|]] [h' [r'|]] [H1 H2]; split; cbn in *; auto.
  - intros [h [r|]] [h' [r'|]] [h'' [r''|]] [H1 H2] [H3 H4]; split; cbn in *; try done; intros; by rewrite ?H1, ?H2.
Qed.
Lemma first_some_ext {A B : Type} (f g : A -> option B) l : (forall x, f x = g x) -> first_some f l = first_some g l.
Proof. intros E. induction l as [|x l IH]; cbn [first_some]; [done|]. by rewrite E, IH. Qed.
Lemma foldl_ext {A B : Type} (f g : A -> B -> A) l : (forall a x, f a x = g a x) -> forall a, foldl f a l = foldl g a l.
Proof. intros E. induction l as [|x l IH]; intros a; [done|]. cbn [foldl]. by rewrite E, IH. Qed.

#[global] Instance rangeScan_proper : Proper (cat_same ==> eq ==> eq ==> eq ==> eq ==> eq) rangeScan.
Proof. intros c c' [Hc _] ? pl -> ? v -> ? l -> ? rs ->. unfold rangeScan. apply first_some_ext. intros k. by rewrite Hc. Qed.
#[global] Instance scoreNode_proper : Proper (cat_same ==> eq ==> eq ==> eq ==> eq ==> eq) scoreNode.
Proof.
  intros c c' Hcat ? pl -> ? nd -> ? eqs -> ? rs ->. pose proof (proj1 Hcat) as Hc. unfold scoreNode.
  match goal with |- context [first_some ?f (nd_labels nd)] => match goal with |- _ = match first_some ?g (nd_labels nd) with _ => _ end =>
    assert (first_some f (nd_labels nd) = first_some g (nd_labels nd)) as -> end end.
  { apply first_some_ext. intros l. rewrite (first_some_ext _ (fun '(k, v) => if cat_HasIndex c' l k && seekable pl v then Some (mkEquality (nd_name nd) k v (-1)) else None)) by (intros [k v]; by rewrite Hc).
    destruct (first_some _ _); [done|]. apply first_some_ext. intros q. by rewrite Hc. }
  destruct (first_some _ (nd_labels nd)) as [[l q]|]; [done|].
  rewrite (first_some_ext _ (fun label => rangeScan c' pl (nd_name nd) label rs)); [done|]. intros l. by rewrite Hcat.
Qed.
#[global] Instance chooseAnchor_proper : Proper (cat_same ==> eq ==> eq ==> eq ==> eq ==> eq) chooseAnchor.
Proof.
  intros c c' Hc ? pl -> ? nodes -> ? eqs -> ? rs ->. unfold chooseAnchor.
  match goal with |- (let '_ := foldl ?f ?a ?l in _) = (let '_ := foldl ?g _ _ in _) => rewrite (foldl_ext f g l); [done|] end.
  intros [[[bi bs] bscan] beq] [i nd]. destruct (isBound pl (nd_name nd)); [done|]. by rewrite Hc.
Qed.
#[global] Instance relAnchor_proper : Proper (cat_same ==> eq ==> eq ==> eq ==> eq ==> eq ==> eq) relAnchor.
Proof.
  intros c c' Hc ? pl -> ? nodes -> ? rels -> ? eqs -> ? rs ->. unfold relAnchor. assert (chooseAnchor c pl nodes eqs rs = chooseAnchor c' pl nodes eqs rs) as -> by (by rewrite Hc). destruct Hc as [_ Hr].
  destruct (cat_HasRelIndex c) as [f|], (cat_HasRelIndex c') as [f'|]; try done.
  destruct (chooseAnchor c' pl nodes eqs rs) as [[i []] o]; try done; apply first_some_ext; intros [j r]; (destruct (rl_types r) as [|typ [|]]; [done| |done]);
    (destruct (rl_varLen r); [done|]); cbv zeta;
    (rewrite (first_some_ext _ (fun '(k, v) => if negb (f' typ k) || negb (seekable pl v) then None
       else match nodes !! j, nodes !! S j with Some a, Some b => Some (Plan.RelByProperty (rl_name r) (nd_name a) (nd_name b) (rl_dir r) typ k v) | _, _ => None end))
       by (intros [k v]; by rewrite Hr));
    (destruct (first_some _ _); [done|]); apply first_some_ext; intros q; by rewrite Hr.
Qed.
#[global] Instance planPart_proper : Proper (cat_same ==> eq ==> eq ==> eq ==> eq ==> eq ==> eq) planPart.
Proof.
  intros c c' Hc ? part -> ? eqs -> ? rs -> ? consumed -> ? pl ->. unfold planPart. destruct (Sema.is_shortest part); [done|].
  destruct (buildPart part pl) as [[nodes rels] pl']. destruct (first_bound pl' nodes); [done|].
  assert (relAnchor c pl' nodes rels eqs rs = relAnchor c' pl' nodes rels eqs rs) as -> by (by rewrite Hc).
  by assert (chooseAnchor c pl' nodes eqs rs = chooseAnchor c' pl' nodes eqs rs) as -> by (by rewrite Hc).
Qed.
Lemma planParts_same c c' parts eqs rs : cat_same c c' -> forall residual consumed pl,
  planParts c parts eqs rs residual consumed pl = planParts c' parts eqs rs residual consumed pl.
Proof.
  intros Hc. induction parts as [|part parts IH]; intros residual consumed pl; [done|]. cbn [planParts].
  assert (planPart c part eqs rs consumed pl = planPart c' part eqs rs consumed pl) as -> by (by rewrite Hc).
  destruct (planPart c' part eqs rs consumed pl) as [[[r consumed'] pl']|]; [apply IH|done].
Qed.
Lemma clause_same c c' cl pl : cat_same c c' -> clause c cl pl = clause c' cl pl.
Proof.
  intros Hc. assert (forall parts where_ pl, plan_pattern c parts where_ pl = plan_pattern c' parts where_ pl) as Hp.
  { intros parts where_ pl'. unfold plan_pattern. by rewrite (planParts_same c c'). }
  destruct cl; try done. cbn [clause]. unfold planMatch, planOptionalMatch. by rewrite !Hp.
Qed.
Lemma planArm_same c c' cs : cat_same c c' -> planArm c cs = planArm c' cs.
Proof.
  intros Hc. assert (forall pl, clauses c cs pl = clauses c' cs pl) as E.
  { induction cs as [|cl cs IH]; intros pl; [done|]. cbn [clauses]. rewrite (clause_same c c') by done. destruct (clause c' cl pl); [apply IH|done]. }
  unfold planArm. by rewrite E.
Qed.
#[global] Instance Plan_proper : Proper (eq ==> cat_same ==> eq) Plan_.
Proof.
  intros ? q -> c c' Hc. unfold Plan_. rewrite (planArm_same c c') by done.
  assert (plan_unions c (q_Unions q) = plan_unions c' (q_Unions q)) as E.
  { induction (q_Unions q) as [|u us IH]; [done|]. cbn [plan_unions]. rewrite (planArm_same c c') by done. by rewrite IH. }
  revert E.
  destruct (planArm c' (q_Clauses q)) as [[first columns]|]; [|done]. destruct (q_Unions q) as [|u us]; [done|]. intros E.
  change (mbind (M := res) ?f (Ok ?x)) with (f x). cbv beta iota. by rewrite E.
Qed.
End catalogs.
End CatalogLaws.

Module PlannerClaims.
Section planning.
Context `{Runtime}.

(** The MATCH clauses that ask for a shortest path. *)
Definition clause_shortest (c : Clause) : bool := match c with CMatch _ parts _ => existsb Sema.is_shortest parts | _ => false end.
Definition arms (q : Query) : list (list Clause) := q_Clauses q :: (qu_Clauses <$> q_Unions q).
Definition has_shortest (q : Query) : bool := existsb (existsb clause_shortest) (arms q).

(** A computation that succeeds, or fails with the error of shortest paths when
    [b] says that there is one. *)
Definition shortest_or {A : Type} (b : bool) (P : A -> Prop) (r : res A) : Prop :=
  match r with Ok x => P x | Err e => e = ErrShortestForm /\ b = true end.
Lemma shortest_bind {A B : Type} b (P : A -> Prop) (Q : B -> Prop) (r : res A) (f : A -> res B) :
  shortest_or b P r -> (forall x, P x -> shortest_or b Q (f x)) -> shortest_or b Q (r ≫= f).
Proof. destruct r; cbn; auto. Qed.
Lemma shortest_mono {A : Type} b b' (P Q : A -> Prop) r : (b = true -> b' = true) -> (forall x, P x -> Q x) -> shortest_or b P r -> shortest_or b' Q r.
Proof. destruct r; cbn; [auto|]. intros Hb _ [-> Hr]. auto. Qed.

Lemma all_ok_in rs r : Sema.all_ok rs = Ok tt -> r ∈ rs -> r = Ok tt.
Proof.
  induction rs as [|r' rs IH]; [by intros _ ?%elem_of_nil|]. cbn. destruct r' as [[]|]; [|done]. cbn. intros E [->|Hin]%elem_of_cons; auto.
Qed.
Lemma check_shortest_chain part : Sema.checkShortest part = Ok tt -> Sema.is_shortest part = true -> pp_Chain part <> [].
Proof. unfold Sema.checkShortest. intros E Hs. rewrite Hs in E. cbn [negb] in E. by destruct (pp_Chain part). Qed.

Lemma plan_part_ok cat part eqs ranges consumed pl b : Sema.checkShortest part = Ok tt -> (Sema.is_shortest part = true -> b = true) ->
  shortest_or b (fun _ => True) (planPart cat part eqs ranges consumed pl).
Proof.
  intros Hck Hb. unfold planPart. destruct (Sema.is_shortest part) eqn:Es.
  - pose proof (check_shortest_chain part Hck Es) as Hch. unfold planShortest. destruct (pp_Chain part) as [|ch chs]; [done|].
    match goal with |- context [if ?c then _ else _] => destruct c end; [by cbn; auto|done].
  - repeat match goal with |- context [match ?x with _ => _ end] => destruct x end; done.
Qed.
Lemma plan_parts_ok cat parts eqs ranges b : (forall part, part ∈ parts -> Sema.checkShortest part = Ok tt /\ (Sema.is_shortest part = true -> b = true)) ->
  forall residual consumed pl, shortest_or b (fun _ => True) (planParts cat parts eqs ranges residual consumed pl).
Proof.
  induction parts as [|part parts IH]; intros Hp residual consumed pl; [done|]. cbn [planParts].
  destruct (Hp part ltac:(left)) as [Hck Hb]. eapply shortest_bind; [by apply plan_part_ok|].
  intros [[r consumed'] pl'] _. apply IH. intros part' Hin. apply Hp. by right.
Qed.
Lemma plan_pattern_ok cat parts where_ pl : Sema.all_ok (Sema.checkShortest <$> parts) = Ok tt ->
  shortest_or (existsb Sema.is_shortest parts) (fun _ => True) (plan_pattern cat parts where_ pl).
Proof.
  intros Hck. unfold plan_pattern. eapply shortest_bind; [apply plan_parts_ok|].
  - intros part Hin. assert (part ∈ parts) as Hp by (unfold shortestLast in Hin; rewrite elem_of_app, !list_elem_of_filter in Hin; tauto).
    split; [eapply all_ok_in; [exact Hck|]; apply list_elem_of_fmap; by exists part|]. intros Hs. apply existsb_exists. exists part. split; [by apply list_elem_of_In|done].
  - intros [[r consumed] pl'] _. unfold checkShortestFilters. match goal with |- context [if ?c then _ else _] => destruct c eqn:Ec end; [|done].
    split; [done|]. apply existsb_exists in Ec as (v & _ & Hv%bool_decide_eq_true). unfold shortest_vars in Hv. apply list_elem_of_In, in_concat in Hv as (l & Hl & Hv).
    apply in_map_iff in Hl as (part & <- & Hp). apply existsb_exists. exists part. split; [done|]. by destruct (Sema.is_shortest part).
Qed.

(** The last clause of an arm leaves a plan. *)
Lemma bind_plan name pl : pl_plan (bind name pl) = pl_plan pl.
Proof. unfold bind. by destruct (_ || _). Qed.
Lemma binds_plan {X : Type} (f : X -> bytes) l pl : pl_plan (foldl (fun pl x => bind (f x) pl) pl l) = pl_plan pl.
Proof. revert pl. induction l as [|x l IH]; intros pl; [done|]. cbn [foldl]. by rewrite IH, bind_plan. Qed.
Lemma pattern_vars_plan part pl : pl_plan (bindPatternVars part pl) = pl_plan pl.
Proof.
  unfold bindPatternVars. set (p0 := bind _ _). assert (pl_plan p0 = pl_plan pl) as <- by (unfold p0; by rewrite !bind_plan). clearbody p0.
  revert p0. induction (pp_Chain part) as [|ch l IH]; intros p0; [done|]. cbn [foldl]. by rewrite IH, !bind_plan.
Qed.
Lemma create_plan parts pl : pl_plan (planCreate parts pl) = Plan.Create (pl_plan pl) parts.
Proof.
  unfold planCreate. set (p0 := set_plan _ _). change (Plan.Create (pl_plan pl) parts) with (pl_plan p0). clearbody p0.
  revert p0. induction parts as [|part parts IH]; intros p0; [done|]. cbn [foldl]. by rewrite IH, pattern_vars_plan.
Qed.
Lemma apply_tail_plan orderBy skip limit pl : is_nothing (pl_plan pl) = false -> is_nothing (pl_plan (applyTail orderBy skip limit pl)) = false.
Proof. unfold applyTail. cbn [set_plan pl_plan]. by destruct limit, skip, orderBy. Qed.
Lemma projected_plan star items distinct pl : is_nothing (pl_plan (projectOrAggregate star items distinct pl)) = false.
Proof. unfold projectOrAggregate. rewrite binds_plan. cbn [pl_plan]. by destruct (filter _ _). Qed.

Lemma clause_ok cat c sc cols sc' cols' pl : Sema.clause sc cols c = Ok (sc', cols') ->
  shortest_or (clause_shortest c) (fun pl' => Sema.endsQuery c = true -> is_nothing (pl_plan pl') = false) (clause cat c pl).
Proof.
  destruct c; cbn [Sema.clause clause clause_shortest]; intros Ha; try (intros _; reflexivity).
  - destruct (Sema.all_ok (Sema.checkShortest <$> _)) as [[]|] eqn:Hck; [|done]. unfold planMatch, planOptionalMatch. match goal with |- context [if ?b then _ else _] => destruct b end.
    + eapply shortest_bind; [by apply plan_pattern_ok|]. done.
    + eapply shortest_mono; [| |by apply plan_pattern_ok]; done.
  - done.
  - intros _. apply apply_tail_plan, projected_plan.
  - intros _. by rewrite create_plan.
  - intros _. unfold planMerge. by rewrite pattern_vars_plan.
  - done.
  - intros _. unfold bind_all. by rewrite (binds_plan id).
  - intros _. unfold bind_all. by rewrite (binds_plan id).
Qed.
Lemma clauses_ok cat cs : forall sc cols cols' pl, Sema.analyze_clauses sc cols cs = Ok cols' ->
  shortest_or (existsb clause_shortest cs) (fun pl' => forall c, last cs = Some c -> Sema.endsQuery c = true -> is_nothing (pl_plan pl') = false) (clauses cat cs pl).
Proof.
  induction cs as [|c cs IH]; intros sc cols cols' pl Ha; [by intros ? [=]|]. cbn [Sema.analyze_clauses clauses existsb] in *.
  destruct (Sema.is_return c && _); [done|]. destruct (Sema.clause sc cols c) as [[sc1 cols1]|] eqn:Ec; [|done]. cbn in Ha.
  eapply shortest_bind; [eapply shortest_mono; [| |by eapply clause_ok]; [by intros ->|intros x Hx; exact Hx]|]. intros pl1 Hp1.
  destruct cs as [|c' cs]; [intros c0 [= <-]; done|]. eapply shortest_mono; [| |by eapply IH]; [intros ->; by rewrite orb_true_r|]. done.
Qed.
Lemma arm_ok cat cs cols : Sema.analyzeArm cs = Ok cols ->
  shortest_or (existsb clause_shortest cs) (fun r => is_nothing r.1 = false) (planArm cat cs).
Proof.
  unfold Sema.analyzeArm. destruct (last cs) as [final|] eqn:El; [|done]. destruct (existsb Sema.isSchemaCommand cs && _); [done|].
  destruct (Sema.analyze_clauses Sema.newScope [] cs) as [cols'|] eqn:Ea; [|done]. cbn. destruct (Sema.endsQuery final) eqn:Ee; [|done]. intros _.
  unfold planArm. eapply shortest_bind; [by eapply clauses_ok|]. intros pl Hpl. specialize (Hpl final El Ee). cbn in Hpl. destruct (is_nothing (pl_plan pl)) eqn:En; [done|exact En].
Qed.
Lemma unions_ok cat us cols : Sema.analyze_unions cols us = Ok tt ->
  shortest_or (existsb (existsb clause_shortest) (qu_Clauses <$> us)) (fun _ => True) (plan_unions cat us).
Proof.
  induction us as [|u us IH]; intros Ha; [done|]. cbn [Sema.analyze_unions plan_unions fmap list_fmap existsb] in *.
  destruct (Sema.analyzeArm (qu_Clauses u)) as [cs|] eqn:Eu; [|done]. cbn in Ha. case_bool_decide; [|done].
  eapply shortest_bind; [eapply shortest_mono; [| |by eapply arm_ok]; [by intros ->|intros x Hx; exact Hx]|]. intros [p o] _.
  eapply shortest_bind; [eapply shortest_mono; [| |by apply IH]; [intros ->; by rewrite orb_true_r|intros x Hx; exact Hx]|]. done.
Qed.
Lemma plan_ok q cat cols : Sema.Analyze q = Ok cols -> shortest_or (has_shortest q) (fun p => is_nothing p = false) (Plan_ q cat).
Proof.
  unfold Sema.Analyze. destruct (Sema.analyzeArm (q_Clauses q)) as [cs|] eqn:Ea; [|done]. cbn.
  destruct (negb _ && _); [done|]. destruct (Sema.analyze_unions cs (q_Unions q)) as [[]|] eqn:Eu; [|done]. intros _.
  unfold Plan_, has_shortest, arms. cbn [existsb].
  eapply shortest_bind; [eapply shortest_mono; [| |by eapply arm_ok]; [by intros ->|intros x Hx; exact Hx]|]. intros [p order] Hp.
  pose proof (unions_ok cat _ _ Eu) as Hu. destruct (q_Unions q) as [|u us] eqn:E; [done|].
  eapply shortest_bind; [eapply shortest_mono; [| |exact Hu]; [intros ->; by rewrite orb_true_r|intros x Hx; exact Hx]|]. done.
Qed.
End planning.
End PlannerClaims.

(** C18: a query that passes the semantic analysis can be planned, whatever
    indexes the catalog lists: the planner returns a plan that is not empty,
    except that it may refuse a query with a shortest path (endpoints that are
    not bound yet, or a WHERE that reads the path); it never dereferences a
    missing pattern element and never finds itself without a plan. *)
Theorem planning_succeeds `{Runtime} (q : Query) (cat : PlanCatalog) (cols : list bytes) :
  Sema.Analyze q = Ok cols ->
  match Plan_ q cat with
  | Ok p => is_nothing p = false
  | Err e => e = ErrShortestForm /\ PlannerClaims.has_shortest q = true
  end.
Proof. apply PlannerClaims.plan_ok. Qed.

(** C19: [exprVars] lists every variable an expression reads: on two rows that
    agree on those variables the evaluator performs the same computation (value
    or error, context and store included), so that a seek value without free
    variables can be computed before the pattern is matched, and an anonymous
    element no expression mentions need not be loaded. *)
Theorem expr_vars_sound `{Runtime} (e : Expr) (b b' : binding) (c : Context) (s : store) :
  (forall x, x ∈ exprVars e -> b !! x = b' !! x) -> run (eval e b c) s = run (eval e b' c) s.
Proof. intros Ha. by apply (eval_agree e b b'). Qed.

(** ** Concrete inputs *)
Section concrete.
#[local] Existing Instance plain_runtime.

(** MATCH (a), (b) MATCH p = shortestPath((a)-[*]-(b)) RETURN p, and the same
    with the pattern's endpoints not bound. *)
Definition plain_part (v : String.string) : PatternPart := mkPatternPart [] (mkNodePattern (str v) [] []) [] NotShortest.
Definition path_part : PatternPart :=
  mkPatternPart (str "p") (mkNodePattern (str "a") [] []) [mkPatternChain (mkRelPattern [] [] [] DirBoth true 1 (-1)) (mkNodePattern (str "b") [] [])] ShortestOne.
Definition return_path : Clause := CReturn false false [mkReturnItem (Variable_ (str "p")) []] [] None None.
Definition path_query (first : list PatternPart) : Query := mkQuery [CMatch false first None; CMatch false [path_part] None; return_path] [].
Definition planned (q : Query) : Prop :=
  match Plan_ q NoIndexes with Ok p => is_nothing p = false | Err e => e = ErrShortestForm /\ PlannerClaims.has_shortest q = true end.
Lemma planning_succeeds_witness :
  planned (path_query [plain_part "a"; plain_part "b"]) /\ planned (path_query [plain_part "a"]) /\
  Plan_ (path_query [plain_part "a"]) NoIndexes = Err ErrShortestForm.
Proof.
  split; [|split].
  - refine (planning_succeeds (path_query [plain_part "a"; plain_part "b"]) NoIndexes [str "p"] _). vm_compute. reflexivity.
  - refine (planning_succeeds (path_query [plain_part "a"]) NoIndexes [str "p"] _). vm_compute. reflexivity.
  - vm_compute. reflexivity.
Defined.

(** [y IN xs WHERE y > z] reads xs and z, not y. *)
Definition above_z : Expr :=
  ListComprehension (str "y") (Variable_ (str "xs")) (Some (Binary (str ">") (Variable_ (str "y")) (Variable_ (str "z")))) None.
Definition row_of (y : Z) : binding := <[str "y" := VInt y]> (<[str "z" := VInt 1]> {[ str "xs" := VList [VInt 1; VInt 2] ]}).
Lemma expr_vars_sound_witness : exprVars above_z = [str "xs"; str "z"] /\
  forall c s, run (eval above_z (row_of 7) c) s = run (eval above_z (row_of 8) c) s.
Proof.
  split; [vm_compute; reflexivity|]. intros c s. refine (expr_vars_sound above_z (row_of 7) (row_of 8) c s _).
  intros x Hx. change (exprVars above_z) with [str "xs"; str "z"] in Hx. apply elem_of_cons in Hx as [->|Hx%list_elem_of_singleton]; [|subst x]; vm_compute; reflexivity.
Defined.
End concrete.
