(* ===== verification/Shortest.v ===== *)
(** * Shortest: shortest paths between two nodes

    src/internal/graph/shortest.go: a breadth-first search from both ends over
    the adjacency entries, one layer at a time.  Paths carry only identifiers
    here, as in the source; the executor loads the records.  The main loop and
    the reconstruction of walks are recursions with fuel. *)
From S2P Require Import Prelude Float64 FloatArith Values Scalars Keys Records Storage Catalog Graph Context.
Import Context.

Module Shortest.
Section shortest.
Context `{Runtime}.

(** ** Data *)
Record PathSpec := mkPathSpec {
  ps_Out : bool; ps_In : bool;
  ps_Types : option (list Z);      (* nil: any type *)
  ps_MinHops : Z;
  ps_MaxHops : Z;
  ps_All : bool;
  ps_Check : option (Context -> res unit * Context)   (* polls the query; nil: no polling *)
}.

Record Path := mkPath { p_Nodes : list Node; p_Rels : list Edge }.

Record pred := mkPred { pr_prev : Z; pr_edge : EdgeRef }.

Record bfsSide := mkSide {
  sd_depth : gmap Z Z;
  sd_preds : gmap Z (list pred);
  sd_frontier : list Z;
  sd_level : Z;
  sd_out : bool; sd_in : bool
}.

Definition newSide (start : Z) (out in_ : bool) : bfsSide :=
  mkSide {[ start := 0 ]} ∅ [start] 0 out in_.

(** [Node{ID: id}] and [edgeOf]. *)
Definition bare_node (id : Z) : Node := mkNode id (mkNodeRecord [] ∅).
Definition edgeOf (r : EdgeRef) : Edge := mkEdge (er_ID r) (mkEdgeRecord (er_Type r) (er_Src r) (er_Dst r) ∅).

(** ** Edges of a node *)
Definition scan_types (f : Z -> Z -> prog (list EdgeRef)) (n : Z) (types : option (list Z)) : prog (list EdgeRef) :=
  match types with
  | None => f n 0
  | Some ts => ls ← map_prog (f n) ts; mret (mjoin (M := list) ls)
  end.

Definition neighbors (n : Z) (out in_ : bool) (types : option (list Z)) : prog (list EdgeRef) :=
  outs ← (if out then scan_types OutEdges n types else mret []);
  ins ← (if in_ then scan_types InEdges n types else mret []);
  mret (outs ++ ins).

(** ** One layer *)

(** What the scan of a layer has collected: depths, predecessors, new nodes. *)
Record layer := mkLayer { ly_depth : gmap Z Z; ly_preds : gmap Z (list pred); ly_next : list Z }.

Definition add_pred (m : Z) (p : pred) (ps : gmap Z (list pred)) : gmap Z (list pred) :=
  <[m := default [] (ps !! m) ++ [p]]> ps.

(** One edge [e] found at node [n] while level [level] is being built. *)
Definition reach (level n : Z) (st : layer) (e : EdgeRef) : layer :=
  let m := if er_Src e =? n then er_Dst e else er_Src e in
  if m =? n then st
  else match ly_depth st !! m with
  | None => mkLayer (<[m := level]> (ly_depth st)) (add_pred m (mkPred n e) (ly_preds st)) (ly_next st ++ [m])
  | Some d => if d =? level then mkLayer (ly_depth st) (add_pred m (mkPred n e) (ly_preds st)) (ly_next st) else st
  end.

(** The new nodes the other side has reached, at the smallest distance there. *)
Definition meet_step (other : gmap Z Z) (acc : Z * list Z) (m : Z) : Z * list Z :=
  match other !! m with
  | None => acc
  | Some od =>
      if (acc.1 <? 0) || (od <? acc.1) then (od, [m])
      else if od =? acc.1 then (acc.1, acc.2 ++ [m]) else acc
  end.
Definition meeting (other : bfsSide) (next : list Z) : list Z := (foldl (meet_step (sd_depth other)) (-1, []) next).2.

Definition expand_side (s other : bfsSide) (spec : PathSpec) : M (list Z * bfsSide) :=
  let level := sd_level s + 1 in
  st ← foldM (fun st n =>
      (match ps_Check spec with Some check => (fun c => PRet (check c)) | None => mret tt end) ≫= fun _ =>
      edges ← txn (neighbors n (sd_out s) (sd_in s) (ps_Types spec));
      mret (foldl (reach level n) st edges))
    (mkLayer (sd_depth s) (sd_preds s) []) (sd_frontier s);
  let s' := mkSide (ly_depth st) (ly_preds st) (ly_next st) level (sd_out s) (sd_in s) in
  mret (meeting other (ly_next st), s').

(** ** Paths *)
Definition extend (m : Z) (p : pred) (w : Path) : Path :=
  mkPath (p_Nodes w ++ [bare_node m]) (p_Rels w ++ [edgeOf (pr_edge p)]).

(** [walks]: the recursion goes back one level at a time, so one more than the
    level of the side is enough. *)
Fixpoint walks (fuel : nat) (preds : gmap Z (list pred)) (m : Z) (one : bool) : list Path :=
  match fuel with
  | O => []
  | S fuel =>
      match default [] (preds !! m) with
      | [] => [mkPath [bare_node m] []]
      | p :: ps => mjoin ((fun p => extend m p <$> walks fuel preds (pr_prev p) one) <$> (if one then [p] else p :: ps))
      end
  end.
Definition side_walks (s : bfsSide) (m : Z) (one : bool) : list Path :=
  walks (S (Z.to_nat (sd_level s))) (sd_preds s) m one.

Definition concat_path (head tail : Path) : Path :=
  mkPath (p_Nodes head ++ reverse (take (length (p_Rels tail)) (p_Nodes tail)))
         (p_Rels head ++ reverse (p_Rels tail)).

Definition joinPaths (fwd bwd : bfsSide) (meet : list Z) (all : bool) : list Path :=
  let out := mjoin ((fun m =>
      mjoin ((fun h => concat_path h <$> side_walks bwd m (negb all)) <$> side_walks fwd m (negb all))) <$> meet) in
  if all then out else take 1 out.

(** ** The search *)
Fixpoint search (fuel : nat) (fwd bwd : bfsSide) (spec : PathSpec) : M (list Path) :=
  match fuel with
  | O => fail ErrOutOfFuel
  | S fuel =>
      if (len (sd_frontier fwd) =? 0) || (len (sd_frontier bwd) =? 0) then mret []
      else if (0 <? ps_MaxHops spec) && (ps_MaxHops spec <? sd_level fwd + sd_level bwd + 1) then mret []
      else if len (sd_frontier bwd) <? len (sd_frontier fwd) then
        '(meet, bwd) ← expand_side bwd fwd spec;
        match meet with [] => search fuel fwd bwd spec | _ => mret (joinPaths fwd bwd meet (ps_All spec)) end
      else
        '(meet, fwd) ← expand_side fwd bwd spec;
        match meet with [] => search fuel fwd bwd spec | _ => mret (joinPaths fwd bwd meet (ps_All spec)) end
  end.

Definition ShortestPaths (fuel : nat) (src dst : Z) (spec : PathSpec) : M (list Path) :=
  if src =? dst then mret (if ps_MinHops spec =? 0 then [mkPath [bare_node src] []] else [])
  else if (ps_MaxHops spec =? 0) || (match ps_Types spec with Some [] => true | _ => false end) then mret []
  else search fuel (newSide src (ps_Out spec) (ps_In spec)) (newSide dst (ps_In spec) (ps_Out spec)) spec.
End shortest.
End Shortest.
