(* ===== verification/Aggregate.v ===== *)
(** * Aggregate: accumulators and grouping

    src/internal/exec/aggregate.go up to the operator itself, which is in
    Operators.v: the specification of an aggregate call, one accumulator per
    group and call, and the text keys that groups and DISTINCT use. *)
From S2P Require Import Prelude Float64 FloatArith Values Ast Scalars Text Records Storage Catalog Graph Context Functions Eval.
Import Float64 FloatArith Ast Scalars Text Context Functions Eval.

Module Aggregate.
Section aggregate.
Context `{Runtime}.

(** ** Keys *)
Definition canonKey (v : value) : bytes :=
  match v with
  | VNull => str "n"
  | VBool true => str "b:1"
  | VBool false => str "b:0"
  | VInt x => str "i:" ++ dec x
  | VFloat x => str "f:" ++ FormatG x
  | VStr x => str "s:" ++ x
  | VNode id _ _ => str "N:" ++ dec id
  | VEdge id _ _ _ _ => str "E:" ++ dec id
  | VPath ns rs => str "P:" ++ pathIDs ns rs
  | _ => str "?:" ++ sprint_v v
  end.
Definition canonKeyList (vs : list value) : bytes := join (str "|") (canonKey <$> vs).

(** ** Specifications *)
Inductive aggKind := aggCount | aggSum | aggAvg | aggMin | aggMax | aggCollect.
#[global] Instance aggKind_eq_dec : EqDecision aggKind.
Proof. solve_decision. Defined.

Record aggSpec := mkAggSpec { as_kind : aggKind; as_arg : option Expr; as_star : bool; as_distinct : bool }.

Definition aggKindOf (name : bytes) : option aggKind :=
  let n := ToLower name in
  if n =s "count" then Some aggCount
  else if n =s "sum" then Some aggSum
  else if n =s "avg" then Some aggAvg
  else if n =s "min" then Some aggMin
  else if n =s "max" then Some aggMax
  else if n =s "collect" then Some aggCollect
  else None.

Definition parseAggFunc (it : ProjItem) : res aggSpec :=
  match pi_Expr it with
  | FunctionCall name distinct star args =>
      match aggKindOf name with
      | None => Err ErrUnknownFunction
      | Some kind =>
          if (star : bool) then
            if bool_decide (kind = aggCount) then Ok (mkAggSpec kind None star distinct) else Err ErrAggregate
          else match args with
          | [e] => Ok (mkAggSpec kind (Some e) star distinct)
          | _ => Err ErrArity
          end
      end
  | _ => Err ErrAggregate
  end.
Fixpoint parseAggFuncs (items : list ProjItem) : res (list aggSpec) :=
  match items with
  | [] => Ok []
  | it :: items' => s ← parseAggFunc it; ss ← parseAggFuncs items'; Ok (s :: ss)
  end.

(** ** Accumulators *)
Record accumulator := mkAcc {
  ac_count : Z;
  ac_sum : Z;                     (* float64 *)
  ac_intSum : Z;
  ac_isInt : bool;
  ac_minVal : value;
  ac_maxVal : value;
  ac_list : list value;
  ac_seen : gset (list Z)
}.

Definition newAccumulator (s : aggSpec) : accumulator :=
  mkAcc 0 0 0 (bool_decide (as_kind s = aggSum)) VNull VNull [] ∅.
Definition newAccumulators (specs : list aggSpec) : list accumulator := newAccumulator <$> specs.

Definition with_seen (k : bytes) (a : accumulator) : accumulator :=
  mkAcc (ac_count a) (ac_sum a) (ac_intSum a) (ac_isInt a) (ac_minVal a) (ac_maxVal a) (ac_list a) ({[ k ]} ∪ ac_seen a).
Definition with_count (n : Z) (a : accumulator) : accumulator :=
  mkAcc n (ac_sum a) (ac_intSum a) (ac_isInt a) (ac_minVal a) (ac_maxVal a) (ac_list a) (ac_seen a).
Definition with_sum (f : Z) (isInt : bool) (a : accumulator) : accumulator :=
  mkAcc (ac_count a) f (ac_intSum a) isInt (ac_minVal a) (ac_maxVal a) (ac_list a) (ac_seen a).
Definition with_intSum (n : Z) (a : accumulator) : accumulator :=
  mkAcc (ac_count a) (ac_sum a) n (ac_isInt a) (ac_minVal a) (ac_maxVal a) (ac_list a) (ac_seen a).
Definition with_min (v : value) (a : accumulator) : accumulator :=
  mkAcc (ac_count a) (ac_sum a) (ac_intSum a) (ac_isInt a) v (ac_maxVal a) (ac_list a) (ac_seen a).
Definition with_max (v : value) (a : accumulator) : accumulator :=
  mkAcc (ac_count a) (ac_sum a) (ac_intSum a) (ac_isInt a) (ac_minVal a) v (ac_list a) (ac_seen a).
Definition with_list (l : list value) (a : accumulator) : accumulator :=
  mkAcc (ac_count a) (ac_sum a) (ac_intSum a) (ac_isInt a) (ac_minVal a) (ac_maxVal a) l (ac_seen a).

(** The [switch s.kind] of [accumulator.add], for a value that is not null. *)
Definition add_value (kind : aggKind) (v : value) (a : accumulator) : res accumulator :=
  match kind with
  | aggCount => Ok (with_count (ac_count a + 1) a)
  | aggSum =>
      match v with
      | VInt n =>
          if ac_isInt a then s ← addInt (ac_intSum a) n; Ok (with_intSum s a)
          else Ok (with_sum (fadd (ac_sum a) (of_int n)) false a)
      | VFloat n =>
          if ac_isInt a then Ok (with_sum (fadd (of_int (ac_intSum a)) n) false a)
          else Ok (with_sum (fadd (ac_sum a) n) false a)
      | _ => Err ErrType
      end
  | aggAvg =>
      match toFloat v with
      | None => Err ErrType
      | Some f => Ok (with_count (ac_count a + 1) (with_sum (fadd (ac_sum a) f) (ac_isInt a) a))
      end
  | aggMin =>
      match ac_minVal a with
      | VNull => Ok (with_min v a)
      | m => match compareValues v m with
             | Some c => if c <? 0 then Ok (with_min v a) else Ok a
             | None => Ok a
             end
      end
  | aggMax =>
      match ac_maxVal a with
      | VNull => Ok (with_max v a)
      | m => match compareValues v m with
             | Some c => if 0 <? c then Ok (with_max v a) else Ok a
             | None => Ok a
             end
      end
  | aggCollect => Ok (with_list (ac_list a ++ [v]) a)
  end.

(** [accumulator.add] after its argument has been evaluated. *)
Definition absorb (s : aggSpec) (v : value) (a : accumulator) : res accumulator :=
  match v with
  | VNull => Ok a
  | _ =>
      if as_distinct s then
        let k := canonKey v in
        if bool_decide (k ∈ ac_seen a) then Ok a else add_value (as_kind s) v (with_seen k a)
      else add_value (as_kind s) v a
  end.

Definition add (row : binding) (s : aggSpec) (a : accumulator) : M accumulator :=
  if as_star s then mret (with_count (ac_count a + 1) a)
  else match as_arg s with
  | None => fail ErrPanic
  | Some e => v ← eval e row; of_res (absorb s v a)
  end.

Definition result (kind : aggKind) (a : accumulator) : value :=
  match kind with
  | aggCount => VInt (ac_count a)
  | aggSum => if ac_isInt a then VInt (ac_intSum a) else VFloat (ac_sum a)
  | aggAvg => if ac_count a =? 0 then VNull else VFloat (fdiv (ac_sum a) (of_int (ac_count a)))
  | aggMin => ac_minVal a
  | aggMax => ac_maxVal a
  | aggCollect => VList (ac_list a)
  end.

(** ** Groups *)
Record group := mkGroup { g_keys : list value; g_accs : list accumulator }.

(** [for i, s := range specs { g.accs[i].add(b, s, a.ctx) }]. *)
Fixpoint add_all (row : binding) (specs : list aggSpec) (accs : list accumulator) : M (list accumulator) :=
  match specs, accs with
  | s :: specs', a :: accs' => a' ← add row s a; rest ← add_all row specs' accs'; mret (a' :: rest)
  | _, _ => mret []
  end.

(** The state of the loading loop: the groups by key, and the keys in the order
    of their first row. *)
Record groups := mkGroups { gs_map : gmap (list Z) group; gs_order : list bytes }.

Definition empty_groups (groupKeys : list ProjItem) (specs : list aggSpec) : groups :=
  match groupKeys with
  | [] => mkGroups {[ [] := mkGroup [] (newAccumulators specs) ]} [ [] ]
  | _ => mkGroups ∅ []
  end.

(** One row of the loop of [aggregateOp.load]. *)
Definition place (groupKeys : list ProjItem) (specs : list aggSpec) (gs : groups) (b : binding) : M groups :=
  keyVals ← mapM (fun gk => eval (pi_Expr gk) b) groupKeys;
  let key := canonKeyList keyVals in
  let '(g, order) :=
    match gs_map gs !! key with
    | Some g => (g, gs_order gs)
    | None => (mkGroup keyVals (newAccumulators specs), gs_order gs ++ [key])
    end in
  accs ← add_all b specs (g_accs g);
  mret (mkGroups (<[key := mkGroup (g_keys g) accs]> (gs_map gs)) order).

(** The output row of a group: first the keys, then the aggregates. *)
Definition group_row (groupKeys aggs : list ProjItem) (specs : list aggSpec) (g : group) : binding :=
  let keys := foldl (fun (row : binding) '(gk, v) => <[pi_Column gk := v]> row) ∅ (zip groupKeys (g_keys g)) in
  foldl (fun (row : binding) '(it, (s, a)) => <[pi_Column it := result (as_kind s) a]> row) keys
    (zip aggs (zip specs (g_accs g))).

Definition output (groupKeys aggs : list ProjItem) (specs : list aggSpec) (gs : groups) : list binding :=
  group_row groupKeys aggs specs <$> omap (fun k => gs_map gs !! k) (gs_order gs).
End aggregate.
End Aggregate.
