(* ===== verification/Expand.v ===== *)
(** * Expand: following relationships

    src/internal/exec/expand.go, relseek.go and shortest.go, less the operators
    themselves (Operators.v): the edges to follow from a node, the trails of a
    variable-length pattern, the rows of a relationship seek, and the loading
    of a path. *)
From S2P Require Import Prelude Float64 FloatArith Values Ast Scalars Keys Records Storage Catalog Graph Context Shortest.
Import Ast Scalars Context Shortest.

Module Expand.

(** The node of a row: [b[name].(graph.Node)]. *)
Definition as_node (o : option value) : option Z :=
  match o with Some (VNode id _ _) => Some id | _ => None end.

(** ** Single relationships *)
Record edgeHit := mkEdgeHit { eh_ref : EdgeRef; eh_other : Z }.

Definition addOut (dir : Direction) : bool := match dir with DirIn => false | _ => true end.
Definition addIn (dir : Direction) : bool := match dir with DirOut => false | _ => true end.

(** [typeFilter]: 0 stands for every type. *)
Definition typeFilter (anyType : bool) (typeIDs : list Z) : list Z := if anyType then [0] else typeIDs.

Definition gather (dir : Direction) (types : list Z) (nodeID : Z) : prog (list edgeHit) :=
  outs ← (if addOut dir then map_prog (OutEdges nodeID) types else mret []);
  ins ← (if addIn dir then map_prog (InEdges nodeID) types else mret []);
  mret (((fun r => mkEdgeHit r (er_Dst r)) <$> mjoin (M := list) outs)
     ++ ((fun r => mkEdgeHit r (er_Src r)) <$> mjoin (M := list) ins)).

(** ** Variable length *)
Definition varExpandMaxDepth : Z := 100.

Record neighborHit := mkNeighbor { nh_edgeID : Z; nh_otherID : Z }.

(** A trail found so far: a [varHit], and an element of the frontier. *)
Record varHit := mkVarHit { vh_toID : Z; vh_edges : list Z }.

Definition var_neighbors (dir : Direction) (types : list Z) (nodeID : Z) : prog (list neighborHit) :=
  outs ← (if addOut dir then map_prog (OutEdges nodeID) types else mret []);
  ins ← (if addIn dir then map_prog (InEdges nodeID) types else mret []);
  mret (((fun r => mkNeighbor (er_ID r) (er_Dst r)) <$> mjoin (M := list) outs)
     ++ ((fun r => mkNeighbor (er_ID r) (er_Src r)) <$> mjoin (M := list) ins)).

Definition containsEdge (ids : list Z) (id : Z) : bool := existsb (Z.eqb id) ids.

Definition extend_trail (f : varHit) (nbs : list neighborHit) : list varHit :=
  omap (fun nb => if containsEdge (vh_edges f) (nh_edgeID nb) then None
                  else Some (mkVarHit (nh_otherID nb) (vh_edges f ++ [nh_edgeID nb]))) nbs.

Section expand.
Context `{Runtime}.

(** The layers of [varExpand.bfs], from depth [d]. *)
Fixpoint bfs_loop (fuel : nat) (dir : Direction) (types : list Z) (minH maxH d : Z)
    (frontier hits : list varHit) : M (list varHit) :=
  match fuel with
  | O => fail ErrOutOfFuel
  | S fuel =>
      if maxH <? d then mret hits
      else
        check ≫= fun _ =>
        nexts ← mapM (fun f => nbs ← txn (var_neighbors dir types (vh_toID f)); mret (extend_trail f nbs)) frontier;
        let next := mjoin (M := list) nexts in
        let hits := if minH <=? d then hits ++ next else hits in
        match next with
        | [] => mret hits
        | _ => bfs_loop fuel dir types minH maxH (d + 1) next hits
        end
  end.

Definition bfs (fuel : nat) (dir : Direction) (types : list Z) (minHops maxHops fromID : Z) : M (list varHit) :=
  let minH := if minHops <? 0 then 1 else minHops in
  let maxH := if maxHops <? 0 then varExpandMaxDepth else maxHops in
  let hits := if (minH <=? 0) && (0 <=? maxH) then [mkVarHit fromID []] else [] in
  if maxH =? 0 then mret hits
  else bfs_loop fuel dir types minH maxH 1 [mkVarHit fromID []] hits.

Definition fetchEdges (ids : list Z) : prog (list Edge) := map_prog GetEdge ids.

(** The type identifiers of a pattern; unknown types are left out. *)
Fixpoint resolve_types (names : list bytes) : prog (list Z) :=
  match names with
  | [] => mret []
  | name :: names' =>
      o ← LookupType name;
      ids ← resolve_types names';
      mret (match o with Some id => id :: ids | None => ids end)
  end.

(** ** Relationship seeks *)

(** The rows of one relationship: an orientation per direction; with equal
    variables only self-loops. *)
Definition rel_rows (rel from to_ : bytes) (dir : Direction) (id : Z) : prog (list binding) :=
  e ← GetEdge id;
  src ← GetNode (Src (e_rec e));
  dst ← (if Dst (e_rec e) =? Src (e_rec e) then mret src else GetNode (Dst (e_rec e)));
  let pairs := (if addOut dir then [(src, dst)] else []) ++ (if addIn dir then [(dst, src)] else []) in
  mret (omap (fun '(a, b) =>
    if bool_decide (from = to_) && negb (n_ID a =? n_ID b) then None
    else Some (<[to_ := node_value b]> (<[from := node_value a]> {[ rel := edge_value e ]} : binding))) pairs).

(** ** Paths *)
Definition load (p : Path) : prog value :=
  nodes ← map_prog (fun n => GetNode (n_ID n)) (p_Nodes p);
  rels ← map_prog (fun r => GetEdge (e_ID r)) (p_Rels p);
  mret (VPath (node_value <$> nodes) (edge_value <$> rels)).

(** The types of a shortest-path pattern, without repetition; nil for any. *)
Fixpoint distinct_ids (seen : list Z) (ids : list Z) : list Z :=
  match ids with
  | [] => []
  | id :: ids' => if existsb (Z.eqb id) seen then distinct_ids seen ids' else id :: distinct_ids (id :: seen) ids'
  end.

Definition path_spec (types : option (list Z)) (dir : Direction) (minHops maxHops : Z) (all : bool) : PathSpec :=
  mkPathSpec (addOut dir) (addIn dir) (distinct_ids [] <$> types) (if minHops <? 0 then 1 else minHops) maxHops all
    (Some poll).
End expand.
End Expand.
