(* ===== verification/Write.v ===== *)
(** * Write: the row operations of CREATE, SET, REMOVE, DELETE and MERGE

    src/internal/exec/write.go, less the iterators themselves (Operators.v).
    A row that the source changes in place is returned changed: an operator
    never reads a row again after handing it on, so nobody else sees the
    difference. *)
From S2P Require Import Prelude Float64 FloatArith Values Ast Scalars Keys Records Storage Catalog Graph Context Functions Eval Expand.
Import Ast Scalars Context Functions Eval Expand.

Module Write.
Section write.
Context `{Runtime, MapOrder}.

(** ** CREATE *)
Definition evalProps (props : list (bytes * Expr)) (b : binding) : M (list (bytes * value)) :=
  mapM (fun e => v ← eval e.2 b; mret (e.1, v)) (range_over order_keys props).

(** [b[name] = v] where an empty name is an absent variable. *)
Definition bind_var (name : bytes) (v : value) (b : binding) : binding :=
  match name with [] => b | _ => <[name := v]> b end.

Definition createNode (labels : list bytes) (props : list (bytes * Expr)) (b : binding) : M value :=
  propMap ← evalProps props b;
  id ← txn (CreateNode labels (range_over order_keys propMap));
  node ← txn (GetNode id);
  mret (node_value node).

Definition createOrReuseNode (b : binding) (n : NodePattern) : M (value * binding) :=
  match (match np_Variable n with [] => None | v => b !! v end) with
  | Some (VNode _ _ _ as existing) => mret (existing, b)
  | _ =>
      node ← createNode (np_Labels n) (np_Props n) b;
      mret (node, bind_var (np_Variable n) node b)
  end.

Definition createRel (b : binding) (r : RelPattern) (from to_ : value) : M binding :=
  match rp_Direction r, rp_Types r with
  | DirBoth, _ => fail ErrPattern
  | dir, [typ] =>
      if rp_VarLength r then fail ErrPattern
      else if bool_decide (rp_Variable r <> []) && bool_decide (is_Some (b !! rp_Variable r)) then fail ErrAlreadyBound
      else
        propMap ← evalProps (rp_Props r) b;
        let '(src, dst) := match dir with DirIn => (entity_id to_, entity_id from) | _ => (entity_id from, entity_id to_) end in
        id ← txn (CreateEdge typ src dst (range_over order_keys propMap));
        edge ← txn (GetEdge id);
        mret (bind_var (rp_Variable r) (edge_value edge) b)
  | _, _ => fail ErrPattern
  end.

Fixpoint create_chain (b : binding) (prev : value) (chain : list PatternChain) : M binding :=
  match chain with
  | [] => mret b
  | ch :: chain' =>
      '(next, b) ← createOrReuseNode b (ch_Node ch);
      b ← createRel b (ch_Rel ch) prev next;
      create_chain b next chain'
  end.

Definition createPart (b : binding) (part : PatternPart) : M binding :=
  '(prev, b) ← createOrReuseNode b (pp_Start part);
  create_chain b prev (pp_Chain part).

(** ** SET and REMOVE *)

(** A change of the node a variable holds, and the variable bound to the node
    as it is afterwards. *)
Definition change_node (b : binding) (var : bytes) (change : Z -> M unit) : M binding :=
  match as_node (b !! var) with
  | None => fail ErrType
  | Some id =>
      change id ≫= fun _ =>
      refreshed ← txn (GetNode id);
      mret (<[var := node_value refreshed]> b)
  end.

Definition applySetClause (b : binding) (item : SetClause) : M binding :=
  match item with
  | SetPropertyItem (Some (Variable_ name, key)) e =>
      change_node b name (fun id => v ← eval e b; txn (SetProperty id key v))
  | SetPropertyItem _ _ => fail ErrPattern
  | SetLabelsItem var labels => change_node b var (fun id => txn (AddLabels id labels))
  | SetMapItem var e replace =>
      change_node b var (fun id =>
        v ← eval e b;
        match v with
        | VNull => if (replace : bool) then txn (SetNodeProperties id [] true) else mret tt
        | VMap m => txn (SetNodeProperties id (range_over order_keys m) replace)
        | _ => fail ErrType
        end)
  end.
Definition applySetClauses (b : binding) (items : list SetClause) : M binding := foldM applySetClause b items.

Definition removeItem (b : binding) (item : RemoveClause) : M binding :=
  match item with
  | RemovePropertyItem (Some (Variable_ name, key)) => change_node b name (fun id => txn (RemoveProperty id key))
  | RemovePropertyItem _ => fail ErrPattern
  | RemoveLabelsItem var labels => change_node b var (fun id => txn (RemoveLabels id labels))
  end.

(** ** DELETE *)
Definition deleteValue (detach : bool) (v : value) : M unit :=
  match v with
  | VNull => mret tt
  | VEdge id _ _ _ _ => txn (DeleteEdge id)
  | VNode id _ _ => txn (if detach then DetachDeleteNode id else DeleteNode id)
  | _ => fail ErrType
  end.
Definition deleteRow (detach : bool) (exprs : list Expr) (b : binding) : M unit :=
  foldM (fun _ e => v ← eval e b; deleteValue detach v) tt exprs.

(** ** MERGE *)
Definition reject_null (b : binding) (props : list (bytes * Expr)) : M unit :=
  foldM (fun _ e => v ← eval e.2 b; match v with VNull => fail ErrMergeNull | _ => mret tt end) tt
    (range_over order_keys props).
Definition rejectNullMergeProps (b : binding) (part : PatternPart) : M unit :=
  reject_null b (np_Props (pp_Start part)) ≫= fun _ =>
  foldM (fun _ ch => reject_null b (rp_Props (ch_Rel ch)) ≫= fun _ => reject_null b (np_Props (ch_Node ch)))
    tt (pp_Chain part).

(** [resolveLabels]: [None] when some label is unknown. *)
Fixpoint resolveLabels (names : list bytes) : prog (option (list Z)) :=
  match names with
  | [] => mret (Some [])
  | name :: names' =>
      o ← LookupLabel name;
      match o with
      | None => mret None
      | Some id => ids ← resolveLabels names'; mret (cons id <$> ids)
      end
  end.

Definition hasAllLabelIDs (labels ids : list Z) : bool := forallb (hasLabel labels) ids.

Definition scalarEqualNorm (a b : value) : bool :=
  match normalize a, normalize b with
  | VNull, VNull => true
  | VNull, _ | _, VNull => false
  | a, b => equals a b
  end.

Fixpoint props_match (have : gmap Z value) (want : list (bytes * Expr)) (b : binding) : M bool :=
  match want with
  | [] => mret true
  | (k, e) :: want' =>
      expected ← eval e b;
      o ← txn (LookupKey k);
      match o with
      | None => mret false
      | Some keyID =>
          if scalarEqualNorm (default VNull (have !! keyID)) expected then props_match have want' b else mret false
      end
  end.
Definition propsMatch (have : gmap Z value) (want : list (bytes * Expr)) (b : binding) : M bool :=
  props_match have (range_over order_keys want) b.

(** A candidate node of [mergeNode]: its row when it matches. *)
Definition node_match (b : binding) (n : NodePattern) (labelIDs : list Z) (id : Z) : M (option binding) :=
  node ← txn (GetNode id);
  if negb (hasAllLabelIDs (Labels (n_rec node)) labelIDs) then mret None
  else
    ok ← propsMatch (Props (n_rec node)) (np_Props n) b;
    mret (if (ok : bool) then Some (bind_var (np_Variable n) (node_value node) b) else None).

Definition mergeNode (b : binding) (n : NodePattern) : M (list binding * bool) :=
  labelIDs ← txn (resolveLabels (np_Labels n));
  matches ← (match labelIDs with
    | None => mret []
    | Some ids =>
        nodes ← txn (match ids with [] => AllNodes | l :: _ => NodesByLabel l end);
        mapM (node_match b n ids) nodes
    end);
  match omap id matches with
  | [] => '(_, nb) ← createOrReuseNode b n; mret ([nb], false)
  | ms => mret (ms, true)
  end.

(** A candidate relationship of [mergeRel]. *)
Definition rel_match (b : binding) (rel : RelPattern) (end_ : NodePattern) (endBound : option Z)
    (endLabelIDs : list Z) (r : EdgeRef) : M (option binding) :=
  let otherID := match rp_Direction rel with DirIn => er_Src r | _ => er_Dst r end in
  if (match endBound with Some e => negb (otherID =? e) | None => false end : bool) then mret None
  else
    otherNode ← txn (GetNode otherID);
    ok ← (match endBound with
      | Some _ => mret true
      | None =>
          if negb (hasAllLabelIDs (Labels (n_rec otherNode)) endLabelIDs) then mret false
          else propsMatch (Props (n_rec otherNode)) (np_Props end_) b
      end);
    if negb ok then mret None
    else
      edge ← txn (GetEdge (er_ID r));
      ok ← propsMatch (EProps (e_rec edge)) (rp_Props rel) b;
      mret (if (ok : bool) then
        Some (bind_var (np_Variable end_) (node_value otherNode) (bind_var (rp_Variable rel) (edge_value edge) b))
      else None).

Definition mergeRel (b : binding) (start : NodePattern) (ch : PatternChain) : M (list binding * bool) :=
  let rel := ch_Rel ch in
  let end_ := ch_Node ch in
  match rp_Direction rel, rp_Types rel with
  | DirBoth, _ => fail ErrPattern
  | dir, [typ] =>
      if rp_VarLength rel then fail ErrPattern
      else if bool_decide (np_Variable start = []) then fail ErrPattern
      else match b !! np_Variable start with
      | Some (VNode startID _ _ as startNode) =>
          let endNode := match np_Variable end_ with [] => None | v => b !! v end in
          let endBound := as_node endNode in
          endLabelIDs ← txn (resolveLabels (np_Labels end_));
          typeID ← txn (LookupType typ);
          matches ← (match typeID, endLabelIDs with
            | Some t, Some ids =>
                refs ← txn (match dir with DirOut => OutEdges startID t | _ => InEdges startID t end);
                mapM (rel_match b rel end_ endBound ids) refs
            | _, _ => mret []
            end);
          match omap id matches with
          | [] =>
              '(endResolved, nb) ← (match endNode with
                | Some (VNode _ _ _ as e) => mret (e, b)
                | _ => e ← createNode (np_Labels end_) (np_Props end_) b; mret (e, bind_var (np_Variable end_) e b)
                end);
              nb ← createRel nb rel startNode endResolved;
              mret ([nb], false)
          | ms => mret (ms, true)
          end
      | _ => fail ErrPattern
      end
  | _, _ => fail ErrPattern
  end.

Definition merge_run (part : PatternPart) (onCreate onMatch : list SetClause) (b : binding) : M (list binding) :=
  rejectNullMergeProps b part ≫= fun _ =>
  '(rows, wasMatch) ← (match pp_Chain part with
    | [] => mergeNode b (pp_Start part)
    | [ch] => mergeRel b (pp_Start part) ch
    | _ => fail ErrPattern
    end);
  let clauses := if (wasMatch : bool) then onMatch else onCreate in
  mapM (fun row => applySetClauses row clauses) rows.
End write.
End Write.
