(* ===== verification/StableSort.v ===== *)
(** * StableSort: sort.SliceStable

    ORDER BY sorts rows with Go's sort.SliceStable, whose comparison evaluates
    expressions; so the algorithm of package sort is modelled with a comparison
    that is a computation: insertion sort on blocks of twenty, then rounds of
    in-place merges ([symMerge]).  The slice data[a:m], data[m:b] of a merge is
    its two halves [xs] and [ys] here; indices are relative to [a].

    When the comparison is a strict weak order on the rows, the result is the
    stable sort: sorted, and rows that compare equal keep their order. *)
From S2P Require Import Prelude Float64 FloatArith Values Ast Scalars Records Storage Catalog Graph Context Functions Eval.
Import Context Eval.

Module StableSort.
Section algorithm.
Context `{Runtime} {A : Type} (less : A -> A -> M bool).

(** ** Insertion sort: the sorted prefix is kept last element first *)
Fixpoint insert_back (x : A) (prefix : list A) : M (list A) :=
  match prefix with
  | [] => mret [x]
  | y :: prefix' =>
      lt ← less x y;
      if (lt : bool) then r ← insert_back x prefix'; mret (y :: r) else mret (x :: y :: prefix')
  end.
Definition insertionSort (l : list A) : M (list A) :=
  r ← foldM (fun prefix x => insert_back x prefix) [] l; mret (reverse r).

(** ** Binary search for the first index in [i, j) where [f] is false *)
Fixpoint bsearch (fuel : nat) (f : nat -> M bool) (i j : nat) : M nat :=
  match fuel with
  | O => fail ErrOutOfFuel
  | S fuel =>
      if bool_decide (i < j)%nat then
        let h := ((i + j) / 2)%nat in
        up ← f h;
        if (up : bool) then bsearch fuel f (S h) j else bsearch fuel f i h
      else mret i
  end.

(** [Less] on the elements at two indices, in range by construction. *)
Definition less_at (o1 o2 : option A) : M bool :=
  match o1, o2 with Some x, Some y => less x y | _, _ => fail ErrPanic end.

(** ** symMerge *)
Fixpoint symMerge (fuel : nat) (xs ys : list A) : M (list A) :=
  match fuel with
  | O => fail ErrOutOfFuel
  | S fuel =>
      let m := length xs in
      let b := (m + length ys)%nat in
      match xs, ys with
      | [x], _ =>
          i ← bsearch (S (length ys)) (fun h => less_at (ys !! h) (Some x)) 0 (length ys);
          mret (take i ys ++ x :: drop i ys)
      | _, [y] =>
          i ← bsearch (S m) (fun h => lt ← less_at (Some y) (xs !! h); mret (negb lt)) 0 m;
          mret (take i xs ++ y :: drop i xs)
      | _, _ =>
          let mid := (b / 2)%nat in
          let n := (mid + m)%nat in
          let start := if bool_decide (mid < m)%nat then (n - b)%nat else 0%nat in
          let r := if bool_decide (mid < m)%nat then mid else m in
          start ← bsearch (S r) (fun c => lt ← less_at (ys !! (n - 1 - c - m)%nat) (xs !! c); mret (negb lt)) start r;
          let end_ := (n - start)%nat in
          let xs1 := take start xs in
          let xs2 := drop start xs in
          let ys1 := take (end_ - m) ys in
          let ys2 := drop (end_ - m) ys in
          left_ ← (if bool_decide (0 < start)%nat && bool_decide (start < mid)%nat then symMerge fuel xs1 ys1 else mret (xs1 ++ ys1));
          right_ ← (if bool_decide (mid < end_)%nat && bool_decide (end_ < b)%nat then symMerge fuel xs2 ys2 else mret (xs2 ++ ys2));
          mret (left_ ++ right_)
      end
  end.

(** ** stable: blocks of twenty, then rounds of merges *)
Fixpoint blocks (fuel : nat) (l : list A) : list (list A) :=
  match fuel with
  | O => []
  | S fuel => match l with [] => [] | _ => take 20 l :: blocks fuel (drop 20 l) end
  end.

Fixpoint merge_pairs (bs : list (list A)) : M (list (list A)) :=
  match bs with
  | b1 :: b2 :: bs' => b ← symMerge (S (length b1 + length b2)) b1 b2; rest ← merge_pairs bs'; mret (b :: rest)
  | _ => mret bs
  end.

Fixpoint merge_rounds (fuel : nat) (bs : list (list A)) : M (list A) :=
  match fuel with
  | O => fail ErrOutOfFuel
  | S fuel =>
      match bs with
      | [] => mret []
      | [b] => mret b
      | _ => bs' ← merge_pairs bs; merge_rounds fuel bs'
      end
  end.

Definition SliceStable (l : list A) : M (list A) :=
  bs ← mapM insertionSort (blocks (S (length l)) l);
  merge_rounds (S (length bs)) bs.
End algorithm.

(** ** Correctness

    [D] holds of the rows, and on them [less] evaluates to [lt], a strict weak
    order. *)
Class StrictWeak {A : Type} (D : A -> Prop) (lt : A -> A -> bool) : Prop := {
  sw_irrefl x : D x -> lt x x = false;
  sw_trans x y z : D x -> D y -> D z -> lt x y = true -> lt y z = true -> lt x z = true;
  sw_incomp x y z : D x -> D y -> D z -> lt x y = false -> lt y z = false -> lt x z = false
}.

(** Rows that compare equal. *)
Definition same {A : Type} (lt : A -> A -> bool) (x y : A) : Prop := lt x y = false /\ lt y x = false.
#[global] Instance same_dec {A : Type} (lt : A -> A -> bool) x y : Decision (same lt x y).
Proof. unfold same. apply _. Defined.

(** [out] is [l] sorted: nothing comes after a greater row, and the rows that
    compare equal to any given one are in the order of [l]. *)
Record stable_sort {A : Type} (D : A -> Prop) (lt : A -> A -> bool) (l out : list A) : Prop := {
  ss_sorted : StronglySorted (fun x y => lt y x = false) out;
  ss_perm : out ≡ₚ l;
  ss_stable z : D z -> filter (same lt z) out = filter (same lt z) l
}.

Section correctness.
Context `{Runtime} {A : Type} (less : A -> A -> M bool) (s : store) (D : A -> Prop) (lt : A -> A -> bool).
Context `{!StrictWeak D lt}.
Hypothesis Hless : forall x y, D x -> D y -> evaluates s (less x y) (lt x y).

Definition le_ (x y : A) : Prop := lt y x = false.

Lemma lt_asym x y : D x -> D y -> lt x y = true -> lt y x = false.
Proof.
  intros Hx Hy Hxy. destruct (lt y x) eqn:E; [|done].
  pose proof (sw_trans x y x Hx Hy Hx Hxy E). rewrite (sw_irrefl x Hx) in *. done.
Qed.

Lemma le_trans_ x y z : D x -> D y -> D z -> le_ x y -> le_ y z -> le_ x z.
Proof. unfold le_. intros Hx Hy Hz H1 H2. by apply (sw_incomp z y x). Qed.

Lemma lt_le_lt x y z : D x -> D y -> D z -> lt x y = true -> le_ y z -> lt x z = true.
Proof.
  unfold le_. intros Hx Hy Hz H1 H2. destruct (lt x z) eqn:E; [done|].
  rewrite (sw_incomp x z y Hx Hz Hy E H2) in H1. done.
Qed.

Lemma le_lt_lt x y z : D x -> D y -> D z -> le_ x y -> lt y z = true -> lt x z = true.
Proof.
  unfold le_. intros Hx Hy Hz H1 H2. destruct (lt x z) eqn:E; [done|].
  rewrite (sw_incomp y x z Hy Hx Hz H1 E) in H2. done.
Qed.

Lemma filter_nothing (P : A -> Prop) `{forall x, Decision (P x)} (l : list A) :
  (forall x, x ∈ l -> ~ P x) -> filter P l = [].
Proof.
  induction l as [|x l IH]; intros Hl; [done|]. rewrite filter_cons_False; [|apply Hl; left].
  apply IH. intros y Hy. apply Hl. by right.
Qed.

(** A row strictly below another never equals what the other equals. *)
Lemma apart (xs ys : list A) z : D z -> Forall D xs -> Forall D ys ->
  (forall y x, y ∈ ys -> x ∈ xs -> lt y x = true) ->
  filter (same lt z) ys = [] \/ filter (same lt z) xs = [].
Proof.
  intros Hz Hxs Hys Hlt. destruct (decide (Exists (same lt z) ys)) as [(y & Hy & Hsy)%Exists_exists|Hn].
  - right. apply filter_nothing. intros x Hx [Hs1 Hs2]. destruct Hsy as [Hy1 Hy2].
    rewrite Forall_forall in Hxs, Hys. specialize (Hlt y x Hy Hx).
    rewrite (sw_incomp y z x (Hys _ Hy) Hz (Hxs _ Hx) Hy2 Hs1) in Hlt. done.
  - left. apply filter_nothing. intros y Hy Hs. apply Hn, Exists_exists. eauto.
Qed.

(** *** Merging *)
Record merges (xs ys out : list A) : Prop := {
  mg_sorted : StronglySorted le_ out;
  mg_perm : out ≡ₚ xs ++ ys;
  mg_stable z : D z -> filter (same lt z) out = filter (same lt z) xs ++ filter (same lt z) ys
}.

Lemma sorted_app (l1 l2 : list A) : StronglySorted le_ l1 -> StronglySorted le_ l2 ->
  (forall x y, x ∈ l1 -> y ∈ l2 -> le_ x y) -> StronglySorted le_ (l1 ++ l2).
Proof.
  induction 1 as [|x l1 Hl IH Hx]; intros H2 H12; cbn; [done|]. constructor.
  - apply IH; [done|]. intros a b Ha Hb. apply H12; [by right|done].
  - apply Forall_app. split; [done|]. apply Forall_forall. intros y Hy. apply H12; [left|done].
Qed.

Lemma sorted_app_inv (l1 l2 : list A) : StronglySorted le_ (l1 ++ l2) ->
  StronglySorted le_ l1 /\ StronglySorted le_ l2 /\ (forall x y, x ∈ l1 -> y ∈ l2 -> le_ x y).
Proof.
  induction l1 as [|x l1 IH]; cbn; intros Hs.
  { split_and!; [constructor|done|]. intros ? ? Hx. by apply elem_of_nil in Hx. }
  apply StronglySorted_inv in Hs as [Hs Hx]. destruct (IH Hs) as (H1 & H2 & H12).
  apply Forall_app in Hx as [Hx1 Hx2]. split_and!; [by constructor|done|].
  intros a b [->|Ha]%elem_of_cons Hb; [|by apply H12]. rewrite Forall_forall in Hx2. by apply Hx2.
Qed.

Lemma merges_app xs ys : StronglySorted le_ xs -> StronglySorted le_ ys ->
  (forall x y, x ∈ xs -> y ∈ ys -> le_ x y) -> merges xs ys (xs ++ ys).
Proof. intros H1 H2 H12. split; [by apply sorted_app|done|]. intros z _. apply filter_app. Qed.

Lemma merges_nil_l ys : StronglySorted le_ ys -> merges [] ys ys.
Proof. intros Hy. apply (merges_app [] ys); [constructor|done|]. intros ? ? Hx. by apply elem_of_nil in Hx. Qed.
Lemma merges_nil_r xs : StronglySorted le_ xs -> merges xs [] xs.
Proof. intros Hx. pose proof (merges_app xs [] Hx) as Hm. rewrite app_nil_r in Hm. apply Hm; [constructor|]. intros ? ? _ Hy. by apply elem_of_nil in Hy. Qed.

(** Merging may be split where the halves are ordered across. *)
Lemma merges_split xs1 xs2 ys1 ys2 o1 o2 :
  Forall D (xs1 ++ xs2) -> Forall D (ys1 ++ ys2) ->
  StronglySorted le_ (xs1 ++ xs2) -> StronglySorted le_ (ys1 ++ ys2) ->
  (forall x y, x ∈ xs1 -> y ∈ ys2 -> le_ x y) -> (forall y x, y ∈ ys1 -> x ∈ xs2 -> lt y x = true) ->
  merges xs1 ys1 o1 -> merges xs2 ys2 o2 -> merges (xs1 ++ xs2) (ys1 ++ ys2) (o1 ++ o2).
Proof.
  intros [Dx1 Dx2]%Forall_app [Dy1 Dy2]%Forall_app Hx Hy H12 H21 [S1 P1 F1] [S2 P2 F2].
  apply sorted_app_inv in Hx as (_ & _ & Hx). apply sorted_app_inv in Hy as (_ & _ & Hy). split.
  - apply sorted_app; [done..|]. intros a b. rewrite P1, P2, !elem_of_app.
    intros [Ha|Ha] [Hb|Hb]; auto. rewrite Forall_forall in *. apply lt_asym; auto.
  - rewrite P1, P2. solve_Permutation.
  - intros z Hz. rewrite !filter_app, F1, F2 by done.
    destruct (apart xs2 ys1 z Hz Dx2 Dy1 H21) as [E|E]; rewrite E, ?app_nil_r, <- ?app_assoc; done.
Qed.

(** *** Binary search: the boundary it stops at *)
Lemma bsearch_evaluates (f : nat -> M bool) (g : nat -> bool) fuel i j :
  (j - i < fuel)%nat -> (i <= j)%nat -> (forall h, (i <= h < j)%nat -> evaluates s (f h) (g h)) ->
  exists r, evaluates s (bsearch fuel f i j) r /\ (i <= r <= j)%nat /\
    ((i < r)%nat -> g (r - 1)%nat = true) /\ ((r < j)%nat -> g r = false).
Proof.
  revert i j. induction fuel as [|fuel IH]; intros i j Hf Hij Hg; [lia|]. cbn [bsearch].
  case_bool_decide as Hlt.
  - assert (i <= (i + j) / 2 < j)%nat as Hh.
    { split; [apply Nat.div_le_lower_bound; lia|apply Nat.div_lt_upper_bound; lia]. }
    set (h := ((i + j) / 2)%nat) in *. destruct (g h) eqn:Eg.
    + destruct (IH (S h) j) as (r & He & Hr & Hlo & Hhi); [lia|lia|intros; apply Hg; lia|].
      exists r. split_and!; [|lia|lia| |done].
      * eapply evaluates_bind; [apply Hg; lia|]. by rewrite Eg.
      * intros _. destruct (decide (r = S h)) as [->|]; [by replace (S h - 1)%nat with h by lia|]. apply Hlo. lia.
    + destruct (IH i h) as (r & He & Hr & Hlo & Hhi); [lia|lia|intros; apply Hg; lia|].
      exists r. split_and!; [|lia|lia|done|].
      * eapply evaluates_bind; [apply Hg; lia|]. by rewrite Eg.
      * intros _. destruct (decide (r = h)) as [->|]; [done|]. apply Hhi. lia.
  - exists i. split_and!; [apply evaluates_ret|lia..].
Qed.
(** What holds of the element at a cut holds on its side of the cut. *)
Lemma sorted_lookup l i j a b : Forall D l -> StronglySorted le_ l ->
  l !! i = Some a -> l !! j = Some b -> (i <= j)%nat -> le_ a b.
Proof.
  intros HD Hs. revert i j HD. induction Hs as [|x l Hl IH Hx]; intros i j HD Ha Hb Hij; [done|].
  apply Forall_cons in HD as [HDx HD]. destruct i, j; cbn in *; simplify_eq; [by apply sw_irrefl| |lia|apply (IH i j); auto; lia].
  rewrite Forall_forall in Hx. apply Hx. by apply list_elem_of_lookup_2 in Hb.
Qed.

Lemma take_closed (R : A -> Prop) l r : Forall D l -> StronglySorted le_ l -> (r <= length l)%nat ->
  (forall a b, D a -> D b -> le_ a b -> R b -> R a) ->
  (forall y, (0 < r)%nat -> l !! (r - 1)%nat = Some y -> R y) -> forall y, y ∈ take r l -> R y.
Proof.
  intros HD Hs Hr Hdown Hlast y (k & Hk & Hkr)%elem_of_take.
  destruct (lookup_lt_is_Some_2 l (r - 1)) as [b Hb]; [lia|].
  apply (Hdown y b); [by eapply Forall_lookup_1|by eapply Forall_lookup_1|by eapply (sorted_lookup l k (r - 1)); [..|lia]|].
  apply Hlast; [lia|done].
Qed.

Lemma drop_closed (R : A -> Prop) l r : Forall D l -> StronglySorted le_ l ->
  (forall a b, D a -> D b -> le_ a b -> R a -> R b) ->
  (forall y, l !! r = Some y -> R y) -> forall y, y ∈ drop r l -> R y.
Proof.
  intros HD Hs Hup Hfirst y (k & Hk)%list_elem_of_lookup. rewrite lookup_drop in Hk.
  assert (r + k < length l)%nat by (by eapply lookup_lt_Some).
  destruct (lookup_lt_is_Some_2 l r) as [a Ha]; [lia|].
  apply (Hup a y); [by eapply Forall_lookup_1|by eapply Forall_lookup_1|by eapply (sorted_lookup l r (r + k)); [..|lia]|auto].
Qed.

Definition lt_at (o1 o2 : option A) : bool := match o1, o2 with Some x, Some y => lt x y | _, _ => false end.

Lemma less_at_evaluates o1 o2 : (exists x, o1 = Some x /\ D x) -> (exists y, o2 = Some y /\ D y) ->
  evaluates s (less_at less o1 o2) (lt_at o1 o2).
Proof. intros (x & -> & Hx) (y & -> & Hy). by apply Hless. Qed.

Lemma lookup_D l i : Forall D l -> (i < length l)%nat -> exists x, l !! i = Some x /\ D x.
Proof. intros HD Hi. destruct (lookup_lt_is_Some_2 l i Hi) as [x Hx]. exists x. split; [done|by eapply Forall_lookup_1]. Qed.

Lemma merge_first x ys : D x -> Forall D ys -> StronglySorted le_ ys ->
  exists i, evaluates s (bsearch (S (length ys)) (fun h => less_at less (ys !! h) (Some x)) 0 (length ys)) i /\
    merges [x] ys (take i ys ++ x :: drop i ys).
Proof.
  intros Hx HD Hs. destruct (bsearch_evaluates (fun h => less_at less (ys !! h) (Some x)) (fun h => lt_at (ys !! h) (Some x))
    (S (length ys)) 0 (length ys)) as (i & He & Hi & Hlo & Hhi); [lia|lia| |].
  { intros h Hh. apply less_at_evaluates; [apply lookup_D; [done|lia]|by exists x]. }
  exists i. split; [done|].
  assert (forall y, y ∈ take i ys -> lt y x = true) as Hlt.
  { apply take_closed; [done|done|lia| |].
    - intros a b Ha Hb. by apply le_lt_lt.
    - intros y Hpos Hy. specialize (Hlo Hpos). by rewrite Hy in Hlo. }
  assert (forall y, y ∈ drop i ys -> le_ x y) as Hle.
  { apply drop_closed; [done|done| |].
    - intros a b Ha Hb Hab Hxa. by apply (le_trans_ x a b).
    - intros y Hy. assert (i < length ys)%nat as Hil by (by eapply lookup_lt_Some).
      specialize (Hhi Hil). by rewrite Hy in Hhi. }
  pose proof Hs as Hs'. rewrite <- (take_drop i ys) in Hs'. pose proof (sorted_app_inv _ _ Hs') as (S1 & S2 & _).
  rewrite <- (take_drop i ys) at 1. apply (merges_split [] [x] (take i ys) (drop i ys) (take i ys) (x :: drop i ys)).
  - by constructor.
  - by rewrite take_drop.
  - repeat constructor.
  - by rewrite take_drop.
  - intros ? ? Ha. by apply elem_of_nil in Ha.
  - intros y x' Hy ->%list_elem_of_singleton. by apply Hlt.
  - by apply merges_nil_l.
  - apply (merges_app [x] (drop i ys)); [repeat constructor|done|]. intros x' y ->%list_elem_of_singleton Hy. by apply Hle.
Qed.

Lemma merge_last xs y : D y -> Forall D xs -> StronglySorted le_ xs ->
  exists i, evaluates s (bsearch (S (length xs)) (fun h => lt ← less_at less (Some y) (xs !! h); mret (negb lt)) 0 (length xs)) i /\
    merges xs [y] (take i xs ++ y :: drop i xs).
Proof.
  intros Hy HD Hs. destruct (bsearch_evaluates (fun h => lt ← less_at less (Some y) (xs !! h); mret (negb lt))
    (fun h => negb (lt_at (Some y) (xs !! h))) (S (length xs)) 0 (length xs)) as (i & He & Hi & Hlo & Hhi); [lia|lia| |].
  { intros h Hh. eapply evaluates_bind; [apply less_at_evaluates; [by exists y|apply lookup_D; [done|lia]]|apply evaluates_ret]. }
  exists i. split; [done|].
  assert (forall x, x ∈ take i xs -> le_ x y) as Hle.
  { apply take_closed; [done|done|lia| |].
    - intros a b Ha Hb Hab Hby. by apply (le_trans_ a b y).
    - intros x Hpos Hx. specialize (Hlo Hpos). rewrite Hx in Hlo. by apply negb_true_iff in Hlo. }
  assert (forall x, x ∈ drop i xs -> lt y x = true) as Hlt.
  { apply drop_closed; [done|done| |].
    - intros a b Ha Hb Hab Hxa. by apply (lt_le_lt y a b).
    - intros x Hx. assert (i < length xs)%nat as Hil by (by eapply lookup_lt_Some).
      specialize (Hhi Hil). rewrite Hx in Hhi. by apply negb_false_iff in Hhi. }
  pose proof Hs as Hs'. rewrite <- (take_drop i xs) in Hs'. pose proof (sorted_app_inv _ _ Hs') as (S1 & S2 & _).
  rewrite <- (take_drop i xs) at 1. rewrite <- (app_nil_r [y]).
  replace (take i xs ++ y :: drop i xs) with ((take i xs ++ [y]) ++ drop i xs) by (by rewrite <- app_assoc).
  apply (merges_split (take i xs) (drop i xs) [y] [] (take i xs ++ [y]) (drop i xs)).
  - by rewrite take_drop.
  - by constructor.
  - by rewrite take_drop.
  - repeat constructor.
  - intros ? ? _ Ha. by apply elem_of_nil in Ha.
  - intros y' x ->%list_elem_of_singleton Hx. by apply Hlt.
  - apply merges_app; [done|repeat constructor|]. intros x y' Hx ->%list_elem_of_singleton. by apply Hle.
  - by apply merges_nil_r.
Qed.
Lemma drop_elem (l : list A) i x : x ∈ drop i l -> x ∈ l.
Proof. intros Hx. rewrite <- (take_drop i l). apply elem_of_app. by right. Qed.

(** Where [symMerge] cuts both halves: [start] elements of [xs] and
    [mid - start] of [ys] go to the left. *)
Lemma merge_cut xs ys : Forall D xs -> Forall D ys -> StronglySorted le_ xs -> StronglySorted le_ ys ->
  (2 <= length xs)%nat -> (2 <= length ys)%nat ->
  let m := length xs in let b := (m + length ys)%nat in let mid := (b / 2)%nat in let n := (mid + m)%nat in
  exists start,
    evaluates s (bsearch (S (if bool_decide (mid < m)%nat then mid else m))
      (fun c => lt ← less_at less (ys !! (n - 1 - c - m)%nat) (xs !! c); mret (negb lt))
      (if bool_decide (mid < m)%nat then (n - b)%nat else 0%nat) (if bool_decide (mid < m)%nat then mid else m)) start /\
    (start <= m)%nat /\ (start <= mid)%nat /\ (mid - start <= length ys)%nat /\
    (forall x y, x ∈ take start xs -> y ∈ drop (mid - start) ys -> le_ x y) /\
    (forall y x, y ∈ take (mid - start) ys -> x ∈ drop start xs -> lt y x = true).
Proof.
  intros Dx Dy Hx Hy Hm Hk m b mid n.
  assert (2 * mid <= b < 2 * mid + 2)%nat as Hmid.
  { pose proof (Nat.div_mod_eq b 2) as E. pose proof (Nat.mod_upper_bound b 2). fold mid in E. lia. }
  set (i0 := if bool_decide (mid < m)%nat then (n - b)%nat else 0%nat).
  set (r0 := if bool_decide (mid < m)%nat then mid else m).
  assert (i0 <= r0 /\ r0 <= m /\ r0 <= mid /\ mid - i0 <= length ys /\
    (0 < i0 -> mid - i0 = length ys) /\ (r0 < m -> r0 = mid))%nat as (Hir & Hrm & Hrmid & Hi0 & Hi0' & Hr0).
  { unfold i0, r0. case_bool_decide; lia. }
  destruct (bsearch_evaluates (fun c => lt ← less_at less (ys !! (n - 1 - c - m)%nat) (xs !! c); mret (negb lt))
    (fun c => negb (lt_at (ys !! (n - 1 - c - m)%nat) (xs !! c))) (S r0) i0 r0) as (st & He & Hst & Hlo & Hhi); [lia|lia| |].
  { intros h Hh. eapply evaluates_bind; [|apply evaluates_ret]. apply less_at_evaluates; apply lookup_D; auto; lia. }
  exists st. split_and!; [done|lia|lia|lia| |].
  - enough (forall x, x ∈ take st xs -> forall y, y ∈ drop (mid - st) ys -> le_ x y) by auto.
    apply (take_closed (fun x => forall y, y ∈ drop (mid - st) ys -> le_ x y)); [done|done|lia| |].
    { intros a x' Ha Hx' Hax Hle y Hin. rewrite Forall_forall in Dy.
      apply (le_trans_ a x' y); auto. apply Dy. by eapply drop_elem. }
    intros x Hpos Ex. pose proof (Forall_lookup_1 _ _ _ _ Dx Ex) as HDx.
    apply (drop_closed (le_ x)); [done|done|intros a y' Ha Hy' Hay Hxa; by apply (le_trans_ x a y')|].
    intros y Ey. assert (mid - st < length ys)%nat by (by eapply lookup_lt_Some).
    assert (i0 < st)%nat as Hpos' by lia. specialize (Hlo Hpos'). rewrite Ex in Hlo.
    replace (n - 1 - (st - 1) - m)%nat with (mid - st)%nat in Hlo by lia. rewrite Ey in Hlo. by apply negb_true_iff in Hlo.
  - enough (forall y, y ∈ take (mid - st) ys -> forall x, x ∈ drop st xs -> lt y x = true) by auto.
    apply (take_closed (fun y => forall x, x ∈ drop st xs -> lt y x = true)); [done|done|lia| |].
    { intros a y' Ha Hy' Hay Hlt x Hin. rewrite Forall_forall in Dx.
      apply (le_lt_lt a y' x); auto. apply Dx. by eapply drop_elem. }
    intros y Hpos Ey. pose proof (Forall_lookup_1 _ _ _ _ Dy Ey) as HDy.
    apply (drop_closed (fun x => lt y x = true)); [done|done|intros a x' Ha Hx' Hax Hya; by apply (lt_le_lt y a x')|].
    intros x Ex. assert (st < m)%nat by (by eapply lookup_lt_Some).
    assert (st < r0)%nat as Hr by lia. specialize (Hhi Hr). rewrite Ex in Hhi.
    replace (n - 1 - st - m)%nat with (mid - st - 1)%nat in Hhi by lia. rewrite Ey in Hhi. by apply negb_false_iff in Hhi.
Qed.

Lemma symMerge_evaluates fuel xs ys : (length xs + length ys < fuel)%nat -> xs <> [] -> ys <> [] ->
  Forall D xs -> Forall D ys -> StronglySorted le_ xs -> StronglySorted le_ ys ->
  exists out, evaluates s (symMerge less fuel xs ys) out /\ merges xs ys out.
Proof.
  revert xs ys. induction fuel as [|fuel IH]; intros xs ys Hf Hnx Hny Dx Dy Hx Hy; [lia|].
  destruct xs as [|x [|x' xs']]; [done| |]; [|destruct ys as [|y [|y' ys']]; [done| |]].
  - apply Forall_cons in Dx as [Dx _]. destruct (merge_first x ys Dx Dy Hy) as (i & He & Hm).
    eexists. split; [|exact Hm]. cbn [symMerge]. eapply evaluates_bind; [exact He|]. destruct ys; apply evaluates_ret.
  - apply Forall_cons in Dy as [Dy _]. destruct (merge_last _ y Dy Dx Hx) as (i & He & Hm).
    eexists. split; [|exact Hm]. cbn [symMerge]. eapply evaluates_bind; [exact He|]. apply evaluates_ret.
  - remember (x :: x' :: xs') as xs eqn:Exs. remember (y :: y' :: ys') as ys eqn:Eys.
    assert (2 <= length xs)%nat as Lx by (subst; cbn; lia). assert (2 <= length ys)%nat as Ly by (subst; cbn; lia).
    destruct (merge_cut xs ys Dx Dy Hx Hy Lx Ly) as (st & He & H1 & H2 & H3 & Hle & Hlt).
    set (m := length xs) in *. set (b := (m + length ys)%nat) in *. set (mid := (b / 2)%nat) in *.
    assert (2 * mid <= b < 2 * mid + 2)%nat as Hmid.
    { pose proof (Nat.div_mod_eq b 2) as E. pose proof (Nat.mod_upper_bound b 2). fold mid in E. lia. }
    assert (m = length xs) as Em by done. assert (b = m + length ys)%nat as Eb by done.
    assert (mid + m - st - m = mid - st)%nat as Ecut by lia.
    rewrite <- (take_drop st xs) in Hx, Dx. rewrite <- (take_drop (mid - st) ys) in Hy, Dy.
    pose proof (sorted_app_inv _ _ Hx) as (Sx1 & Sx2 & _). pose proof (sorted_app_inv _ _ Hy) as (Sy1 & Sy2 & _).
    pose proof Dx as [Dx1 Dx2]%Forall_app. pose proof Dy as [Dy1 Dy2]%Forall_app.
    assert (exists o, evaluates s (if bool_decide (0 < st)%nat && bool_decide (st < mid)%nat
        then symMerge less fuel (take st xs) (take (mid - st) ys) else mret (take st xs ++ take (mid - st) ys)) o /\
        merges (take st xs) (take (mid - st) ys) o) as (o1 & E1 & M1).
    { clear He. case_bool_decide as C1; [case_bool_decide as C2|]; cbn [andb].
      - apply IH; [rewrite !length_take; lia|intros E%(f_equal length); rewrite length_take in E; cbn [length] in E; lia..|done|done|done|done].
      - eexists. split; [apply evaluates_ret|]. replace (mid - st)%nat with 0%nat by lia. rewrite app_nil_r. by apply merges_nil_r.
      - eexists. split; [apply evaluates_ret|]. assert (st = 0%nat) as -> by lia. by apply merges_nil_l. }
    assert (exists o, evaluates s (if bool_decide (mid < mid + m - st)%nat && bool_decide (mid + m - st < b)%nat
        then symMerge less fuel (drop st xs) (drop (mid - st) ys) else mret (drop st xs ++ drop (mid - st) ys)) o /\
        merges (drop st xs) (drop (mid - st) ys) o) as (o2 & E2 & M2).
    { clear He E1. case_bool_decide as C1; [case_bool_decide as C2|]; cbn [andb].
      - apply IH; [rewrite !length_drop; lia|intros E%(f_equal length); rewrite length_drop in E; cbn [length] in E; lia..|done|done|done|done].
      - eexists. split; [apply evaluates_ret|]. rewrite (drop_ge ys) by lia. rewrite app_nil_r. by apply merges_nil_r.
      - eexists. split; [apply evaluates_ret|]. rewrite (drop_ge xs) by lia. rewrite (drop_ge xs) in Sx2 by lia. by apply merges_nil_l. }
    exists (o1 ++ o2). split.
    + cbn [symMerge]. rewrite Exs, Eys. rewrite <- Exs, <- Eys. fold m. fold b. fold mid.
      eapply evaluates_bind; [exact He|]. cbn beta zeta. rewrite Ecut.
      eapply evaluates_bind; [exact E1|]. eapply evaluates_bind; [exact E2|]. apply evaluates_ret.
    + rewrite <- (take_drop st xs), <- (take_drop (mid - st) ys). by apply merges_split.
Qed.
(** *** The stable sort is unique *)
Lemma filter_head (P : A -> Prop) `{forall x, Decision (P x)} (x y : A) l1 l2 : P x -> P y ->
  filter P (x :: l1) = filter P (y :: l2) -> x = y /\ filter P l1 = filter P l2.
Proof. intros Hx Hy. rewrite !filter_cons_True by done. intros E. by simplify_eq. Qed.

Lemma sorted_unique o1 o2 : Forall D o1 -> StronglySorted le_ o1 -> StronglySorted le_ o2 -> o1 ≡ₚ o2 ->
  (forall z, D z -> filter (same lt z) o1 = filter (same lt z) o2) -> o1 = o2.
Proof.
  revert o2. induction o1 as [|x o1 IH]; intros o2 HD S1 S2 Hp Hf.
  { by apply Permutation_nil_l in Hp. }
  destruct o2 as [|y o2]; [by apply Permutation_nil_r in Hp|].
  pose proof HD as HD2. rewrite Hp in HD2. apply Forall_cons in HD as [Hx HD]. apply Forall_cons in HD2 as [Hy HD2].
  apply StronglySorted_inv in S1 as [S1 F1]. apply StronglySorted_inv in S2 as [S2 F2].
  assert (le_ x y) as Hxy.
  { assert (y ∈ x :: o1) as [->|Hin]%elem_of_cons by (rewrite Hp; left); [by apply sw_irrefl|].
    rewrite Forall_forall in F1. by apply F1. }
  assert (le_ y x) as Hyx.
  { assert (x ∈ y :: o2) as [->|Hin]%elem_of_cons by (rewrite <- Hp; left); [by apply sw_irrefl|].
    rewrite Forall_forall in F2. by apply F2. }
  assert (x = y) as ->.
  { eapply (filter_head (same lt x)); [split; by apply sw_irrefl|by split|by apply Hf]. }
  f_equal. apply IH; [done..|by apply Permutation_cons_inv in Hp|].
  intros z Hz. specialize (Hf z Hz). rewrite !filter_cons in Hf. case_decide; by simplify_eq.
Qed.

Lemma stable_sort_unique l o1 o2 : Forall D l -> stable_sort D lt l o1 -> stable_sort D lt l o2 -> o1 = o2.
Proof.
  intros HD [S1 P1 F1] [S2 P2 F2]. apply sorted_unique; [by rewrite P1|done|done|by rewrite P1, P2|].
  intros z Hz. by rewrite F1, F2.
Qed.

(** *** Insertion sort *)
Lemma insert_back_evaluates x p : D x -> Forall D p -> StronglySorted le_ (reverse p) ->
  exists p1 p2, p = p1 ++ p2 /\ evaluates s (insert_back less x p) (p1 ++ x :: p2) /\
    (forall y, y ∈ p1 -> lt x y = true) /\ (forall y, y ∈ p2 -> le_ y x).
Proof.
  intros Hx. induction p as [|y p IH]; intros HD Hs.
  { exists [], []. split_and!; [done|apply evaluates_ret|set_solver..]. }
  apply Forall_cons in HD as [Hy HD]. rewrite reverse_cons in Hs. apply sorted_app_inv in Hs as (Hs & _ & Hle).
  destruct (lt x y) eqn:E.
  - destruct (IH HD Hs) as (p1 & p2 & -> & He & H1 & H2). exists (y :: p1), p2. split_and!; [done| | |done].
    + eapply evaluates_bind; [by apply Hless|]. rewrite E. eapply evaluates_bind; [exact He|]. apply evaluates_ret.
    + intros z [->|Hz]%elem_of_cons; auto.
  - exists [], (y :: p). split_and!; [done| |set_solver|].
    + eapply evaluates_bind; [by apply Hless|]. rewrite E. apply evaluates_ret.
    + intros z [->|Hz]%elem_of_cons; [done|]. rewrite Forall_forall in HD.
      apply (le_trans_ z y x); auto. apply Hle; [by rewrite elem_of_reverse|set_solver].
Qed.

Lemma insert_merges x p : D x -> Forall D p -> StronglySorted le_ (reverse p) ->
  exists r, evaluates s (insert_back less x p) r /\ merges (reverse p) [x] (reverse r).
Proof.
  intros Hx HD Hs. destruct (insert_back_evaluates x p Hx HD Hs) as (p1 & p2 & -> & He & H1 & H2).
  exists (p1 ++ x :: p2). split; [done|]. rewrite reverse_app in *. rewrite reverse_app, reverse_cons.
  apply sorted_app_inv in Hs as Hs'. destruct Hs' as (S2 & S1 & _).
  apply (merges_split (reverse p2) (reverse p1) [x] [] (reverse p2 ++ [x]) (reverse p1)); try done.
  - apply Forall_app in HD as [D1 D2]. apply Forall_app. by rewrite !Forall_reverse.
  - by constructor.
  - repeat constructor.
  - set_solver.
  - intros y z ->%list_elem_of_singleton. rewrite elem_of_reverse. apply H1.
  - apply merges_app; [done|repeat constructor|]. intros y z. rewrite elem_of_reverse. intros Hy ->%list_elem_of_singleton. by apply H2.
  - by apply merges_nil_r.
Qed.

Lemma merges_stable l1 l2 xs ys out :
  stable_sort D lt l1 xs -> stable_sort D lt l2 ys -> merges xs ys out -> stable_sort D lt (l1 ++ l2) out.
Proof.
  intros [S1 P1 F1] [S2 P2 F2] [S3 P3 F3]. split; [exact S3|by rewrite P3, P1, P2|].
  intros z Hz. by rewrite F3, F1, F2, filter_app.
Qed.

Lemma stable_one x : stable_sort D lt [x] [x].
Proof. split; [repeat constructor|done|done]. Qed.

Lemma stable_D l out : Forall D l -> stable_sort D lt l out -> Forall D out.
Proof. intros HD Hs. by rewrite (ss_perm _ _ _ _ Hs). Qed.

Lemma insertion_fold l done_ p : Forall D (done_ ++ l) -> stable_sort D lt done_ (reverse p) ->
  exists r, evaluates s (foldM (fun p x => insert_back less x p) p l) r /\ stable_sort D lt (done_ ++ l) (reverse r).
Proof.
  revert done_ p. induction l as [|x l IH]; intros done_ p HD Hp.
  { exists p. rewrite app_nil_r. split; [apply evaluates_ret|done]. }
  pose proof HD as [HD1 [Hx HD2]%Forall_cons]%Forall_app.
  assert (Forall D p) as HDp by (rewrite <- (Forall_reverse D p); exact (stable_D _ _ HD1 Hp)).
  destruct (insert_merges x p Hx HDp (ss_sorted _ _ _ _ Hp)) as (r & He & Hm).
  destruct (IH (done_ ++ [x]) r) as (r' & He' & Hs').
  - by rewrite <- app_assoc.
  - eapply merges_stable; [exact Hp|apply stable_one|exact Hm].
  - exists r'. rewrite <- app_assoc in Hs'. split; [|done]. cbn. eapply evaluates_bind; [exact He|exact He'].
Qed.

Lemma insertionSort_evaluates l : Forall D l ->
  exists out, evaluates s (insertionSort less l) out /\ stable_sort D lt l out.
Proof.
  intros HD. destruct (insertion_fold l [] []) as (r & He & Hs); [done|split; [constructor|done|done]|].
  exists (reverse r). split; [|done]. eapply evaluates_bind; [exact He|apply evaluates_ret].
Qed.

(** *** Blocks and rounds *)
Lemma blocks_concat fuel (l : list A) : (length l < fuel)%nat -> concat (blocks fuel l) = l /\ Forall (fun b => b <> []) (blocks fuel l).
Proof.
  revert l. induction fuel as [|fuel IH]; intros l Hf; [lia|]. destruct l as [|x l]; [by split|].
  cbn [blocks]. destruct (IH (drop 20 (x :: l))) as [E F]; [rewrite length_drop; cbn in *; lia|].
  split; [|constructor; done]. cbn [concat]. by rewrite E, take_drop.
Qed.

(** The blocks [bs] are the pieces [ls] of the input, each sorted. *)
Abbreviation sorted_blocks ls bs := (Forall2 (fun l b => l <> [] /\ Forall D l /\ stable_sort D lt l b) ls bs).

Lemma stable_nonempty l b : l <> [] -> stable_sort D lt l b -> b <> [].
Proof. intros Hl Hs ->. apply Hl. by apply Permutation_nil, (ss_perm _ _ _ _ Hs). Qed.

Lemma mapM_sorted ls : Forall (fun l => l <> [] /\ Forall D l) ls ->
  exists bs, evaluates s (mapM (insertionSort less) ls) bs /\ sorted_blocks ls bs.
Proof.
  induction 1 as [|l ls [Hl HD] _ (bs & He & Hbs)]; [by exists []; split; [apply evaluates_ret|]|].
  destruct (insertionSort_evaluates l HD) as (b & Hb & Hs). exists (b :: bs). split; [|by constructor].
  cbn. eapply evaluates_bind; [exact Hb|]. eapply evaluates_bind; [exact He|apply evaluates_ret].
Qed.

Lemma merge_pairs_evaluates n ls bs : (length ls <= n)%nat -> sorted_blocks ls bs ->
  exists ls' bs', evaluates s (merge_pairs less bs) bs' /\ sorted_blocks ls' bs' /\ concat ls' = concat ls /\
    (length bs' <= length bs)%nat /\ ((2 <= length bs)%nat -> (length bs' < length bs)%nat).
Proof.
  revert ls bs. induction n as [|n IH]; intros ls bs Hn Hbs.
  { destruct ls; [|cbn in Hn; lia]. inversion Hbs; subst. exists [], []. split_and!; cbn; [apply evaluates_ret|done|done|lia|lia]. }
  destruct Hbs as [|l1 b1 ls bs (N1 & D1 & S1) Hbs]; [|destruct Hbs as [|l2 b2 ls bs (N2 & D2 & S2) Hbs]].
  - exists [], []. split_and!; cbn; [apply evaluates_ret|done|done|lia|lia].
  - exists [l1], [b1]. split_and!; cbn; [apply evaluates_ret|constructor; [done|constructor]|done|lia|lia].
  - destruct (symMerge_evaluates (S (length b1 + length b2)) b1 b2) as (b & He & Hm); [lia| | | | |exact (ss_sorted _ _ _ _ S1)|exact (ss_sorted _ _ _ _ S2)|].
    { exact (stable_nonempty _ _ N1 S1). } { exact (stable_nonempty _ _ N2 S2). }
    { exact (stable_D _ _ D1 S1). } { exact (stable_D _ _ D2 S2). }
    destruct (IH ls bs) as (ls' & bs' & He' & Hs' & Hc & Hl & _); [cbn in Hn; lia|done|].
    exists ((l1 ++ l2) :: ls'), (b :: bs'). split_and!; [| |cbn; by rewrite Hc, app_assoc|cbn; lia|cbn; lia].
    + cbn [merge_pairs]. eapply evaluates_bind; [exact He|]. eapply evaluates_bind; [exact He'|apply evaluates_ret].
    + constructor; [|done]. split_and!; [by destruct l1|by apply Forall_app|by eapply merges_stable].
Qed.

Lemma merge_rounds_evaluates fuel ls bs : (length bs < fuel)%nat -> sorted_blocks ls bs ->
  exists out, evaluates s (merge_rounds less fuel bs) out /\ stable_sort D lt (concat ls) out.
Proof.
  revert ls bs. induction fuel as [|fuel IH]; intros ls bs Hf Hbs; [lia|].
  destruct bs as [|b1 [|b2 bs]].
  - inversion Hbs; subst. exists []. split; [apply evaluates_ret|]. split; [constructor|done|done].
  - inversion Hbs as [|l1 ? ls' ? (? & ? & ?) Hnil]; subst. inversion Hnil; subst. exists b1. split; [apply evaluates_ret|].
    cbn. by rewrite app_nil_r.
  - destruct (merge_pairs_evaluates (length ls) ls (b1 :: b2 :: bs)) as (ls' & bs' & He & Hs' & Hc & _ & Hl); [lia|done|].
    destruct (IH ls' bs') as (out & Ho & Hso); [cbn in *; lia|done|]. exists out. rewrite <- Hc. split; [|done].
    cbn [merge_rounds]. eapply evaluates_bind; [exact He|exact Ho].
Qed.

Lemma SliceStable_evaluates l : Forall D l ->
  exists out, evaluates s (SliceStable less l) out /\ stable_sort D lt l out.
Proof.
  intros HD. destruct (blocks_concat (S (length l)) l) as [Ec Hne]; [lia|].
  destruct (mapM_sorted (blocks (S (length l)) l)) as (bs & He & Hbs).
  { apply Forall_forall. intros b Hb. rewrite Forall_forall in Hne. split; [by apply Hne|].
    apply Forall_forall. intros x Hx. rewrite Forall_forall in HD. apply HD. rewrite <- Ec.
    apply list_elem_of_In, in_concat. exists b. by rewrite <- !list_elem_of_In. }
  destruct (merge_rounds_evaluates (S (length bs)) _ bs ltac:(lia) Hbs) as (out & Ho & Hs).
  exists out. rewrite Ec in Hs. split; [|done]. eapply evaluates_bind; [exact He|exact Ho].
Qed.
End correctness.
End StableSort.
