(* ===== verification/Tables.v ===== *)
(** * Tables: the store read as tables, and a logic for programs on it

    [tables] is what the keys of a database mean: the base records, the index
    tables and the catalog.  [Rep T m] says the store [m] holds exactly [T]: the
    value of every key of the key space is what [T] says, and there are no other
    keys.  [wp] is the weakest precondition of a transaction program over
    tables; its rules are used by every proof about the graph layer.

    The second half specifies the catalog programs (Catalog.v) on tables. *)
From S2P Require Import Prelude Values IndexCodec Keys Records Storage Catalog.

(** ** Tables *)
Record tables := mkTables {
  nodes : Z -> option NodeRecord;              (* n *)
  edges : Z -> option EdgeRecord;              (* e *)
  outs : Z * Z * Z * Z -> bool;                (* o: src, type, dst, edge *)
  ins : Z * Z * Z * Z -> bool;                 (* i: dst, type, src, edge *)
  lab : Z * Z -> bool;                         (* l: label, node *)
  ent : Z * Z * Z -> option value;             (* p: label, key, node *)
  own : Z * Z * value -> option Z;             (* u: label, key, value *)
  rent : Z * Z * Z -> option value;            (* r: type, key, edge *)
  fwd : dict * bytes -> option Z;              (* L, T, K *)
  rev : dict * Z -> option bytes;              (* R *)
  count : counter -> Z;                        (* c *)
  index : Z * Z -> option bytes;               (* X *)
  constr : Z * Z -> option (bool * bytes);     (* U *)
  relindex : Z * Z -> option bytes;            (* Y *)
  format : option Z                            (* F *)
}.

Definition set_nodes f T := mkTables f (edges T) (outs T) (ins T) (lab T) (ent T) (own T) (rent T) (fwd T) (rev T) (count T) (index T) (constr T) (relindex T) (format T).
Definition set_edges f T := mkTables (nodes T) f (outs T) (ins T) (lab T) (ent T) (own T) (rent T) (fwd T) (rev T) (count T) (index T) (constr T) (relindex T) (format T).
Definition set_outs f T := mkTables (nodes T) (edges T) f (ins T) (lab T) (ent T) (own T) (rent T) (fwd T) (rev T) (count T) (index T) (constr T) (relindex T) (format T).
Definition set_ins f T := mkTables (nodes T) (edges T) (outs T) f (lab T) (ent T) (own T) (rent T) (fwd T) (rev T) (count T) (index T) (constr T) (relindex T) (format T).
Definition set_lab f T := mkTables (nodes T) (edges T) (outs T) (ins T) f (ent T) (own T) (rent T) (fwd T) (rev T) (count T) (index T) (constr T) (relindex T) (format T).
Definition set_ent f T := mkTables (nodes T) (edges T) (outs T) (ins T) (lab T) f (own T) (rent T) (fwd T) (rev T) (count T) (index T) (constr T) (relindex T) (format T).
Definition set_own f T := mkTables (nodes T) (edges T) (outs T) (ins T) (lab T) (ent T) f (rent T) (fwd T) (rev T) (count T) (index T) (constr T) (relindex T) (format T).
Definition set_rent f T := mkTables (nodes T) (edges T) (outs T) (ins T) (lab T) (ent T) (own T) f (fwd T) (rev T) (count T) (index T) (constr T) (relindex T) (format T).
Definition set_dict f g T := mkTables (nodes T) (edges T) (outs T) (ins T) (lab T) (ent T) (own T) (rent T) f g (count T) (index T) (constr T) (relindex T) (format T).
Definition set_count f T := mkTables (nodes T) (edges T) (outs T) (ins T) (lab T) (ent T) (own T) (rent T) (fwd T) (rev T) f (index T) (constr T) (relindex T) (format T).
Definition set_index f T := mkTables (nodes T) (edges T) (outs T) (ins T) (lab T) (ent T) (own T) (rent T) (fwd T) (rev T) (count T) f (constr T) (relindex T) (format T).
Definition set_constr f T := mkTables (nodes T) (edges T) (outs T) (ins T) (lab T) (ent T) (own T) (rent T) (fwd T) (rev T) (count T) (index T) f (relindex T) (format T).
Definition set_relindex f T := mkTables (nodes T) (edges T) (outs T) (ins T) (lab T) (ent T) (own T) (rent T) (fwd T) (rev T) (count T) (index T) (constr T) f (format T).
Definition set_format f T := mkTables (nodes T) (edges T) (outs T) (ins T) (lab T) (ent T) (own T) (rent T) (fwd T) (rev T) (count T) (index T) (constr T) (relindex T) f.

Definition flag (b : bool) : option bytes := if b then Some [] else None.

(** [cell T k o]: what the tables say the value of the key [k] is. *)
Definition cell (T : tables) (sk : skey) (o : option bytes) : Prop :=
  match sk with
  | KNode n => match nodes T n with
               | Some r => exists b, o = Some b /\ DecodeNode b = Ok r
               | None => o = None
               end
  | KEdge e => match edges T e with
               | Some r => exists b, o = Some b /\ DecodeEdge b = Ok r
               | None => o = None
               end
  | KOut s t d e => o = flag (outs T (s, t, d, e))
  | KIn d t s e => o = flag (ins T (d, t, s, e))
  | KLabel l n => o = flag (lab T (l, n))
  | KProp l k v n => o = flag (bool_decide (is_Some (index T (l, k)) /\ ent T (l, k, n) = Some v))
  | KUnique l k u => o = be 8 <$> own T (l, k, u)
  | KRel t k v e => o = flag (bool_decide (is_Some (relindex T (t, k)) /\ rent T (t, k, e) = Some v))
  | KFwd d name => o = be 4 <$> fwd T (d, name)
  | KRev d id => o = rev T (d, id)
  | KCounter c => o = if count T c =? 0 then None else Some (be 8 (count T c))
  | KIndex l k => o = index T (l, k)
  | KConstraint l k => o = (fun d : bool * bytes => (if d.1 then 1 else 0) :: d.2) <$> constr T (l, k)
  | KRelIndex t k => o = relindex T (t, k)
  | KFormat => o = be 4 <$> format T
  end.

Definition Rep (T : tables) (m : store) : Prop :=
  (forall sk, skey_ok sk -> cell T sk (m !! key_of sk)) /\
  (forall k, is_Some (m !! k) -> exists sk, skey_ok sk /\ k = key_of sk).

(** ** Weakest preconditions *)
Definition wp {A} (p : prog A) (T : tables) (Q : res A -> tables -> Prop) : Prop :=
  forall m, Rep T m -> exists T', Rep T' (run p m).2 /\ Q (run p m).1 T'.

(** Continue with [f] after success, keep the error otherwise. *)
Definition on_ok {A B} (f : A -> tables -> Prop) (Q : res B -> tables -> Prop) (r : res A) (T : tables) : Prop :=
  match r with Ok a => f a T | Err e => Q (Err e) T end.

(** Partial results: [f] describes success and [E] which errors can occur. *)
Definition post {A} (f : A -> tables -> Prop) (E : error -> Prop) (r : res A) (T : tables) : Prop :=
  match r with Ok a => f a T | Err e => E e end.

Section wp.
Context {A B : Type}.
Implicit Types (T : tables) (p : prog A).

Lemma wp_mono p T (Q Q' : res A -> tables -> Prop) :
  wp p T Q -> (forall r T', Q r T' -> Q' r T') -> wp p T Q'.
Proof. intros Hp HQ m Hm. destruct (Hp m Hm) as (T' & HT & Hq). eauto. Qed.

Lemma wp_ret a T (Q : res A -> tables -> Prop) : Q (Ok a) T -> wp (mret a) T Q.
Proof. intros HQ m Hm. exists T. done. Qed.

Lemma wp_throw e T (Q : res A -> tables -> Prop) : Q (Err e) T -> wp (throw e) T Q.
Proof. intros HQ m Hm. exists T. done. Qed.

Lemma wp_lift r T (Q : res A -> tables -> Prop) : Q r T -> wp (lift r) T Q.
Proof. intros HQ. destruct r; [by apply wp_ret|by apply wp_throw]. Qed.

Lemma wp_bind p (f : A -> prog B) T Q :
  wp p T (on_ok (fun a T' => wp (f a) T' Q) Q) -> wp (p ≫= f) T Q.
Proof.
  intros Hp m Hm. destruct (Hp m Hm) as (T1 & H1 & HQ). rewrite run_bind.
  destruct (run p m) as [[a|e] m1]; cbn in *; [by apply HQ|by exists T1].
Qed.

Lemma wp_Get sk T (Q : res (option bytes) -> tables -> Prop) :
  skey_ok sk -> (forall o, cell T sk o -> Q (Ok o) T) -> wp (Get (key_of sk)) T Q.
Proof. intros Hk HQ m Hm. exists T. split; [done|]. apply HQ, Hm, Hk. Qed.
End wp.

Lemma Rep_set T T' m sk b :
  Rep T m -> skey_ok sk -> cell T' sk (Some b) ->
  (forall sk' o, skey_ok sk' -> sk' <> sk -> cell T sk' o -> cell T' sk' o) ->
  Rep T' (<[key_of sk := b]> m).
Proof.
  intros [Hm Hk] Hsk Hc Hne. split.
  - intros sk' Hsk'. destruct (decide (sk' = sk)) as [->|Hn].
    + by rewrite lookup_insert_eq.
    + rewrite lookup_insert_ne by (intros E; apply Hn; symmetry; by apply key_of_inj). auto.
  - intros k Hs. destruct (decide (k = key_of sk)) as [->|Hn]; [eauto|].
    rewrite lookup_insert_ne in Hs by done. auto.
Qed.

Lemma Rep_delete T T' m sk :
  Rep T m -> skey_ok sk -> cell T' sk None ->
  (forall sk' o, skey_ok sk' -> sk' <> sk -> cell T sk' o -> cell T' sk' o) ->
  Rep T' (delete (key_of sk) m).
Proof.
  intros [Hm Hk] Hsk Hc Hne. split.
  - intros sk' Hsk'. destruct (decide (sk' = sk)) as [->|Hn].
    + by rewrite lookup_delete_eq.
    + rewrite lookup_delete_ne by (intros E; apply Hn; symmetry; by apply key_of_inj). auto.
  - intros k Hs. destruct (decide (k = key_of sk)) as [->|Hn]; [eauto|].
    rewrite lookup_delete_ne in Hs by done. auto.
Qed.

Lemma wp_Set T' sk b T (Q : res unit -> tables -> Prop) :
  skey_ok sk -> cell T' sk (Some b) ->
  (forall sk' o, skey_ok sk' -> sk' <> sk -> cell T sk' o -> cell T' sk' o) ->
  Q (Ok tt) T' -> wp (Set_ (key_of sk) b) T Q.
Proof. intros Hk Hc Hn HQ m Hm. exists T'. split; [|done]. by eapply Rep_set. Qed.

Lemma wp_Delete T' sk T (Q : res unit -> tables -> Prop) :
  skey_ok sk -> cell T' sk None ->
  (forall sk' o, skey_ok sk' -> sk' <> sk -> cell T sk' o -> cell T' sk' o) ->
  Q (Ok tt) T' -> wp (Delete (key_of sk)) T Q.
Proof. intros Hk Hc Hn HQ m Hm. exists T'. split; [|done]. by eapply Rep_delete. Qed.

(** Tables with the same cells represent the same stores. *)
Lemma Rep_ext T T' m : (forall sk o, skey_ok sk -> cell T sk o -> cell T' sk o) -> Rep T m -> Rep T' m.
Proof. intros He [Hm Hk]. split; [|done]. auto. Qed.

Lemma wp_view {A} T' (p : prog A) T Q :
  (forall sk o, skey_ok sk -> cell T sk o -> cell T' sk o) -> wp p T' Q -> wp p T Q.
Proof. intros He Hp m Hm. apply Hp. by eapply Rep_ext. Qed.

(** The entries of a scan: sorted, each one a key of the scanned range, and
    every key there that has a value is among them. *)
Record scanned (T : tables) (prefix start : bytes) (l : list kv) : Prop := {
  scan_sorted : key_sorted l;
  scan_sound : forall e, e ∈ l -> exists sk, skey_ok sk /\ e.1 = key_of sk /\ cell T sk (Some e.2) /\
                 has_prefix prefix (key_of sk) = true /\ ble start (key_of sk);
  scan_complete : forall sk, skey_ok sk -> has_prefix prefix (key_of sk) = true -> ble start (key_of sk) ->
                 ~ cell T sk None -> exists v, (key_of sk, v) ∈ l
}.

Lemma wp_ScanFrom prefix start T (Q : res (list kv) -> tables -> Prop) :
  (forall l, scanned T prefix start l -> Q (Ok l) T) -> wp (ScanFrom prefix start) T Q.
Proof.
  intros HQ m Hm. exists T. split; [done|]. apply HQ. split.
  - apply scan_store_sorted.
  - intros e He. apply scan_store_elem in He as [Hl [Hp Hs]]. destruct Hm as [Hm Hk].
    destruct (Hk e.1) as (sk & Hsk & E); [by eexists|]. exists sk. rewrite <- E.
    split; [done|split; [done|split; [|done]]]. rewrite <- Hl, E. by apply Hm.
  - intros sk Hsk Hp Hs Hn. destruct Hm as [Hm _]. specialize (Hm sk Hsk).
    destruct (m !! key_of sk) as [v|] eqn:E; [|done]. exists v. by apply scan_store_elem.
Qed.

Lemma wp_Scan prefix T (Q : res (list kv) -> tables -> Prop) :
  (forall l, scanned T prefix prefix l -> Q (Ok l) T) -> wp (Scan prefix) T Q.
Proof. apply wp_ScanFrom. Qed.

Lemma ble_prefix p k : has_prefix p k = true -> ble p k.
Proof.
  intros [s ->]%has_prefix_spec. unfold ble. rewrite <- (app_nil_r p) at 1. rewrite bcmp_app. by destruct s.
Qed.

(** Loops. *)
Lemma wp_for_each {A} (f : A -> prog unit) l (I : list A -> tables -> Prop) T Q :
  I [] T ->
  (forall done x todo T', l = done ++ x :: todo -> I done T' -> wp (f x) T' (on_ok (fun _ => I (done ++ [x])) Q)) ->
  (forall T', I l T' -> Q (Ok tt) T') ->
  wp (for_each f l) T Q.
Proof.
  intros H0 Hs Hq.
  assert (forall todo done T', l = done ++ todo -> I done T' -> wp (for_each f todo) T' Q) as H.
  { induction todo as [|x todo IH]; intros done T' E HI.
    - apply wp_ret, Hq. by rewrite E, app_nil_r.
    - cbn [for_each]. apply wp_bind. eapply wp_mono; [by eapply Hs|].
      intros [a|e] T1 H1; cbn in *; [|done]. eapply IH; [|exact H1]. by rewrite <- app_assoc. }
  by eapply (H l []).
Qed.

Lemma wp_fold {A B} (f : B -> A -> prog B) l (I : list A -> B -> tables -> Prop) b T Q :
  I [] b T ->
  (forall done x todo b T', l = done ++ x :: todo -> I done b T' ->
     wp (f b x) T' (on_ok (I (done ++ [x])) Q)) ->
  (forall b T', I l b T' -> Q (Ok b) T') ->
  wp (fold_prog f b l) T Q.
Proof.
  intros H0 Hs Hq.
  assert (forall todo done b T', l = done ++ todo -> I done b T' -> wp (fold_prog f b todo) T' Q) as H.
  { induction todo as [|x todo IH]; intros done b' T' E HI.
    - apply wp_ret, Hq. by rewrite E, app_nil_r.
    - cbn [fold_prog]. apply wp_bind. eapply wp_mono; [by eapply Hs|].
      intros [a|e] T1 H1; cbn in *; [|done]. eapply IH; [|exact H1]. by rewrite <- app_assoc. }
  by eapply (H l []).
Qed.

Lemma map_prog_pure {A B} (f : A -> prog B) (h : A -> B) l :
  (forall x, x ∈ l -> f x = mret (h x)) -> map_prog f l = mret (h <$> l).
Proof.
  induction l as [|x l IH]; intros Hf; [done|]. cbn [map_prog].
  rewrite Hf by left. rewrite IH by (intros; apply Hf; by right). done.
Qed.

(** The keys other than the one written keep their meaning. *)
Ltac other_cells :=
  let sk := fresh "sk" in let o := fresh "o" in let Hk := fresh "Hk" in
  let Hn := fresh "Hn" in let Hc := fresh "Hc" in
  intros sk o Hk Hn Hc; destruct sk; cbn in Hc |- *; try exact Hc;
  rewrite fn_lookup_insert_ne by congruence; exact Hc.

(** ** The catalog on tables *)
Record cat_ok (T : tables) : Prop := {
  cat_inverse : forall d name id, fwd T (d, name) = Some id <-> rev T (d, id) = Some name;
  cat_range : forall d name id, fwd T (d, name) = Some id -> 1 <= id <= count T (CDict d);
  cat_dict : forall d, 0 <= count T (CDict d) < two32;
  cat_count : forall c, 0 <= count T c < two64
}.

Lemma cat_u32 T d name id : cat_ok T -> fwd T (d, name) = Some id -> u32 id.
Proof. intros Hc Hf. pose proof (cat_range _ Hc _ _ _ Hf). pose proof (cat_dict _ Hc d). unfold u32. lia. Qed.

Lemma fwdKey_key d name : fwdKey (dict_tag d) name = key_of (KFwd d name).
Proof. done. Qed.

(** [T'] is [T] with more names interned. *)
Record grows (T T' : tables) : Prop := {
  grow_same : T' = set_dict (fwd T') (rev T') (set_count (count T') T);
  grow_cat : cat_ok T';
  grow_fwd : forall d name id, fwd T (d, name) = Some id -> fwd T' (d, name) = Some id;
  grow_count : count T' CNode = count T CNode /\ count T' CEdge = count T CEdge
}.

Lemma set_dict_self T : T = set_dict (fwd T) (rev T) (set_count (count T) T).
Proof. by destruct T. Qed.

Lemma grows_refl T : cat_ok T -> grows T T.
Proof. intros H. split; [apply set_dict_self|done|done|done]. Qed.

Lemma grows_trans T1 T2 T3 : grows T1 T2 -> grows T2 T3 -> grows T1 T3.
Proof.
  intros [E1 C1 F1 N1] [E2 C2 F2 N2]. split.
  - rewrite E2 at 1. rewrite E1. done.
  - done.
  - auto.
  - destruct N1, N2. split; congruence.
Qed.

Lemma grows_data T T' :
  grows T T' ->
  nodes T' = nodes T /\ edges T' = edges T /\ outs T' = outs T /\ ins T' = ins T /\ lab T' = lab T /\
  ent T' = ent T /\ own T' = own T /\ rent T' = rent T /\ index T' = index T /\ constr T' = constr T /\
  relindex T' = relindex T /\ format T' = format T.
Proof. intros [E _ _ _]. rewrite E. done. Qed.

Lemma wp_nextCounter c T (Q : res Z -> tables -> Prop) :
  0 <= count T c -> count T c + 1 < two64 ->
  Q (Ok (count T c + 1)) (set_count (<[c := count T c + 1]> (count T)) T) ->
  wp (nextCounter (counter_kind c)) T Q.
Proof.
  intros H0 H1 HQ. unfold nextCounter. change (counterKey (counter_kind c)) with (key_of (KCounter c)).
  apply wp_bind, wp_Get; [done|]. intros o Ho. cbn in Ho. cbn [on_ok].
  assert (match o with Some v => lift (decodeU64 v) | None => mret 0 end = mret (count T c) :> prog Z) as ->.
  { destruct (Z.eqb_spec (count T c) 0) as [E|E]; subst o; [by rewrite E|].
    unfold decodeU64. rewrite be_length. cbn [Nat.eqb lift]. rewrite be8_get by solve_width. done. }
  apply wp_bind, wp_ret. cbn [on_ok]. rewrite Z.mod_small by lia.
  apply wp_bind. eapply wp_Set; [done| | |].
  3: { cbn [on_ok]. apply wp_ret, HQ. }
  - cbn. rewrite fn_lookup_insert.
    destruct (Z.eqb_spec (count T c + 1) 0); [lia|done].
  - other_cells.
Qed.

(** At most [n] identifiers of [d] have been handed out, and none of the
    other dictionaries. *)
Definition used (d : dict) (n : Z) (T T' : tables) : Prop :=
  forall d', count T' (CDict d') <= count T (CDict d') + (if decide (d' = d) then n else 0).
(** [d] cannot take [n] more names. *)
Definition no_room (T : tables) (d : dict) (n : Z) : Prop := two32 <= count T (CDict d) + n.

Lemma used_refl d n T : 0 <= n -> used d n T T.
Proof. intros Hn d'. destruct (decide _); lia. Qed.
Lemma used_trans d n1 n2 T1 T2 T3 : used d n1 T1 T2 -> used d n2 T2 T3 -> used d (n1 + n2) T1 T3.
Proof. intros H1 H2 d'. specialize (H1 d'). specialize (H2 d'). destruct (decide _); lia. Qed.
Lemma used_same d n T T' : used d n T T' -> count T' (CDict d) <= count T (CDict d) + n.
Proof. intros H. specialize (H d). by rewrite decide_True in H. Qed.
Lemma used_other d d' n T T' : used d n T T' -> d' <> d -> count T' (CDict d') <= count T (CDict d').
Proof. intros H Hd. specialize (H d'). rewrite decide_False in H by done. lia. Qed.

Definition interned (d : dict) (name : bytes) (id : Z) (T T' : tables) : Prop :=
  grows T T' /\ fwd T' (d, name) = Some id /\
  (forall d' name', (d', name') <> (d, name) -> fwd T' (d', name') = fwd T (d', name')) /\ used d 1 T T'.

(** Interning a new name under the next identifier keeps the dictionaries. *)
Lemma cat_ok_intern T d name :
  cat_ok T -> fwd T (d, name) = None -> u32 (count T (CDict d) + 1) ->
  let id := count T (CDict d) + 1 in
  cat_ok (set_dict (<[(d, name) := Some id]> (fwd T)) (<[(d, id) := Some name]> (rev T))
            (set_count (<[CDict d := id]> (count T)) T)).
Proof.
  intros Hc Ef Hid id. fold id in Hid.
  assert (rev T (d, id) = None) as Hfresh.
  { destruct (rev T (d, id)) as [nm|] eqn:Er; [|done]. apply (cat_inverse _ Hc) in Er.
    apply (cat_range _ Hc) in Er. subst id. lia. }
  pose proof (cat_dict _ Hc d) as Hd. split; cbn.
  - intros d' nm i. destruct (decide ((d', nm) = (d, name))) as [E|E].
    + injection E as -> ->. rewrite fn_lookup_insert.
      destruct (decide (i = id)) as [->|Hi]; [by rewrite fn_lookup_insert|].
      rewrite fn_lookup_insert_ne by congruence. split; [congruence|].
      intros Er. apply (cat_inverse _ Hc) in Er. congruence.
    + rewrite fn_lookup_insert_ne by congruence.
      destruct (decide ((d', i) = (d, id))) as [E'|E'].
      * injection E' as -> ->. rewrite fn_lookup_insert. split; [|congruence].
        intros Hf. apply (cat_inverse _ Hc) in Hf. congruence.
      * rewrite fn_lookup_insert_ne by congruence. apply Hc.
  - intros d' nm i Hf. destruct (decide (d' = d)) as [->|Hd'].
    + rewrite fn_lookup_insert. destruct (decide (nm = name)) as [->|Hnm].
      * rewrite fn_lookup_insert in Hf. injection Hf as <-. subst id. lia.
      * rewrite fn_lookup_insert_ne in Hf by congruence. apply (cat_range _ Hc) in Hf. subst id. lia.
    + rewrite fn_lookup_insert_ne in Hf by congruence. rewrite fn_lookup_insert_ne by congruence.
      by apply (cat_range _ Hc) in Hf.
  - intros d'. destruct (decide (d' = d)) as [->|Hd']; [by rewrite fn_lookup_insert|].
    rewrite fn_lookup_insert_ne by congruence. apply Hc.
  - intros c. destruct (decide (c = CDict d)) as [->|Hd']; [rewrite fn_lookup_insert; solve_width|].
    rewrite fn_lookup_insert_ne by congruence. apply Hc.
Qed.

Lemma wp_internDict d name T (Q : res Z -> tables -> Prop) :
  cat_ok T ->
  (forall id T', interned d name id T T' -> Q (Ok id) T') ->
  (fwd T (d, name) = None -> count T (CDict d) = two32 - 1 -> forall T', Q (Err ErrOutOfIDs) T') ->
  wp (internDict (dict_tag d) (dict_kind d) name) T Q.
Proof.
  intros Hc HQ HE. unfold internDict. change (fwdKey (dict_tag d) name) with (key_of (KFwd d name)).
  apply wp_bind, wp_Get; [done|]. intros o Ho. cbn in Ho. cbn [on_ok].
  destruct (fwd T (d, name)) as [id|] eqn:Ef; cbn in Ho; subst o.
  - pose proof (cat_u32 _ _ _ _ Hc Ef). unfold decodeU32. rewrite be_length, be4_get by done.
    apply wp_ret, HQ. split; [by apply grows_refl|]. split_and!; [done|done|by apply used_refl].
  - pose proof (cat_dict _ Hc d) as Hd. set (id := count T (CDict d) + 1).
    apply wp_bind. change (dict_kind d) with (counter_kind (CDict d)).
    apply wp_nextCounter; [lia|solve_width|]. fold id. cbn [on_ok counter_kind].
    destruct (Z.ltb_spec 0xFFFFFFFF id) as [Hlt|Hle].
    { apply wp_throw, HE; [done|]. subst id. solve_width. }
    assert (u32 id) as Hid by (subst id; solve_width).
    set (T1 := set_count (<[CDict d := id]> (count T)) T).
    change (revKey (dict_kind d) id) with (key_of (KRev d id)).
    apply wp_bind. apply (wp_Set (set_dict (<[(d, name) := Some id]> (fwd T)) (rev T) T1)); [done| | |].
    { cbn. by rewrite fn_lookup_insert. }
    { other_cells. }
    apply wp_bind. apply (wp_Set (set_dict (<[(d, name) := Some id]> (fwd T)) (<[(d, id) := Some name]> (rev T)) T1)); [done| | |].
    { cbn. by rewrite fn_lookup_insert. }
    { other_cells. }
    apply wp_ret, HQ. split; [|split; [apply fn_lookup_insert|split]].
    2: { intros d' name' Hne. cbn. by rewrite fn_lookup_insert_ne. }
    2: { intros d'. cbn. destruct (decide (d' = d)) as [->|Hd']; [by rewrite fn_lookup_insert|].
         rewrite fn_lookup_insert_ne by congruence. lia. }
    split; [done|by apply cat_ok_intern|intros d' nm i Hf; cbn; rewrite fn_lookup_insert_ne by congruence; done|done].
Qed.

Lemma wp_lookupDict d name T (Q : res (option Z) -> tables -> Prop) :
  cat_ok T -> Q (Ok (fwd T (d, name))) T -> wp (lookupDict (dict_tag d) name) T Q.
Proof.
  intros Hc HQ. unfold lookupDict. change (fwdKey (dict_tag d) name) with (key_of (KFwd d name)).
  apply wp_bind, wp_Get; [done|]. intros o Ho. cbn in Ho. cbn [on_ok].
  destruct (fwd T (d, name)) as [id|] eqn:Ef; cbn in Ho; subst o; [|by apply wp_ret].
  pose proof (cat_u32 _ _ _ _ Hc Ef). unfold decodeU32. rewrite be_length, be4_get by done.
  by apply wp_bind, wp_ret, wp_ret.
Qed.

Lemma wp_revName d id T (Q : res bytes -> tables -> Prop) :
  u32 id -> Q (match rev T (d, id) with Some name => Ok name | None => Err ErrNotFound end) T ->
  wp (revName (dict_kind d) id) T Q.
Proof.
  intros Hid HQ. unfold revName. change (revKey (dict_kind d) id) with (key_of (KRev d id)).
  apply wp_bind, wp_Get; [done|]. intros o Ho. cbn in Ho. subst o. cbn [on_ok].
  destruct (rev T (d, id)); [by apply wp_ret|by apply wp_throw].
Qed.

Definition has {A} (o : option A) : bool := match o with Some _ => true | None => false end.

Lemma wp_HasIndex l k T (Q : res bool -> tables -> Prop) :
  u32 l -> u32 k -> Q (Ok (has (index T (l, k)))) T -> wp (HasIndex l k) T Q.
Proof.
  intros Hl Hk HQ. unfold HasIndex. change (indexKey l k) with (key_of (KIndex l k)).
  apply wp_bind, wp_Get; [done|]. intros o Ho. cbn in Ho. subst o. by apply wp_ret.
Qed.

Lemma wp_HasRelIndex t k T (Q : res bool -> tables -> Prop) :
  u32 t -> u32 k -> Q (Ok (has (relindex T (t, k)))) T -> wp (HasRelIndex t k) T Q.
Proof.
  intros Hl Hk HQ. unfold HasRelIndex. change (relIndexKey t k) with (key_of (KRelIndex t k)).
  apply wp_bind, wp_Get; [done|]. intros o Ho. cbn in Ho. subst o. by apply wp_ret.
Qed.

Lemma wp_GetConstraint l k T (Q : res (option ConstraintDef) -> tables -> Prop) :
  u32 l -> u32 k ->
  Q (Ok ((fun d : bool * bytes => mkConstraintDef l k d.2 d.1) <$> constr T (l, k))) T ->
  wp (GetConstraint l k) T Q.
Proof.
  intros Hl Hk HQ. unfold GetConstraint. change (constraintKey l k) with (key_of (KConstraint l k)).
  apply wp_bind, wp_Get; [done|]. intros o Ho. cbn in Ho. subst o. cbn [on_ok].
  destruct (constr T (l, k)) as [[owns name]|]; cbn; [|by apply wp_ret].
  apply wp_ret. by destruct owns.
Qed.

Lemma wp_HasUnique l k T (Q : res bool -> tables -> Prop) :
  u32 l -> u32 k -> Q (Ok (has (constr T (l, k)))) T -> wp (HasUnique l k) T Q.
Proof.
  intros Hl Hk HQ. unfold HasUnique. apply wp_bind, wp_GetConstraint; [done|done|]. apply wp_ret.
  by destruct (constr T (l, k)).
Qed.

(** From a weakest precondition back to a run. *)
Lemma wp_run {A} (p : prog A) T m r m' Q :
  wp p T Q -> Rep T m -> run p m = (r, m') -> exists T', Rep T' m' /\ Q r T'.
Proof. intros Hp Hm E. specialize (Hp m Hm). by rewrite E in Hp. Qed.

(** The empty database. *)
Definition empty_tables : tables :=
  mkTables (fun _ => None) (fun _ => None) (fun _ => false) (fun _ => false) (fun _ => false) (fun _ => None)
    (fun _ => None) (fun _ => None) (fun _ => None) (fun _ => None) (fun _ => 0) (fun _ => None) (fun _ => None)
    (fun _ => None) None.

Lemma Rep_empty : Rep empty_tables ∅.
Proof.
  split.
  - intros sk Hk. rewrite lookup_empty. destruct sk; try done; cbn;
      rewrite bool_decide_false by (intros [_ ?]; done); done.
  - intros k. rewrite lookup_empty. by intros [? ?].
Qed.

Lemma cat_ok_empty : cat_ok empty_tables.
Proof. split; done. Qed.

(** Reading the dictionaries of a represented store. *)
Lemma run_lookupDict T m d name :
  Rep T m -> cat_ok T -> run (lookupDict (dict_tag d) name) m = (Ok (fwd T (d, name)), m).
Proof.
  intros [Hm _] Hc. specialize (Hm (KFwd d name) I). cbn [cell] in Hm.
  unfold lookupDict. rewrite fwdKey_key. cbn [Get mbind prog_bind run]. rewrite Hm.
  destruct (fwd T (d, name)) as [id|] eqn:Ef; cbn [fmap option_fmap option_map]; [|done].
  pose proof (cat_u32 _ _ _ _ Hc Ef). unfold decodeU32. rewrite be_length, be4_get by done. done.
Qed.

Lemma run_revName T m d id name :
  Rep T m -> u32 id -> rev T (d, id) = Some name -> run (revName (dict_kind d) id) m = (Ok name, m).
Proof.
  intros [Hm _] Hid Hr. specialize (Hm (KRev d id) Hid). cbn [cell] in Hm. rewrite Hr in Hm.
  unfold revName. change (revKey (dict_kind d) id) with (key_of (KRev d id)).
  cbn [Get mbind prog_bind run]. by rewrite Hm.
Qed.

Lemma run_intern_known T m d name id :
  Rep T m -> cat_ok T -> fwd T (d, name) = Some id ->
  run (internDict (dict_tag d) (dict_kind d) name) m = (Ok id, m).
Proof.
  intros [Hm _] Hc Ef. specialize (Hm (KFwd d name) I). cbn [cell] in Hm. rewrite Ef in Hm.
  unfold internDict. rewrite fwdKey_key. cbn [Get mbind prog_bind run]. rewrite Hm. cbn [fmap option_fmap option_map].
  pose proof (cat_u32 _ _ _ _ Hc Ef). unfold decodeU32. rewrite be_length, be4_get by done. done.
Qed.

(** Names and identifiers are in bijection.  After a name has been interned
    in a dictionary, looking it up and interning it again give the same
    identifier and change nothing, the identifier's name is the interned one,
    no other name of the dictionary has that identifier, and what the other
    names look up to has not changed. *)
Theorem intern_bijective (T : tables) (m m' : store) (d : dict) (name : bytes) (id : Z) :
  Rep T m -> cat_ok T -> run (internDict (dict_tag d) (dict_kind d) name) m = (Ok id, m') ->
  1 <= id < two32 /\
  run (revName (dict_kind d) id) m' = (Ok name, m') /\
  run (lookupDict (dict_tag d) name) m' = (Ok (Some id), m') /\
  run (internDict (dict_tag d) (dict_kind d) name) m' = (Ok id, m') /\
  (forall name', name' <> name ->
     (run (lookupDict (dict_tag d) name') m').1 <> Ok (Some id) /\
     (run (lookupDict (dict_tag d) name') m').1 = (run (lookupDict (dict_tag d) name') m).1).
Proof.
  intros Hm Hc E.
  assert (wp (internDict (dict_tag d) (dict_kind d) name) T
    (fun r T' => forall i, r = Ok i -> interned d name i T T')) as Hw
    by (apply wp_internDict; [done|by intros i T' ? ? [= <-]|done]).
  destruct (wp_run _ _ _ _ _ _ Hw Hm E) as (T' & Hm' & Hi).
  destruct (Hi id eq_refl) as (Hg & Hf & Hne & _). pose proof (grow_cat _ _ Hg) as Hc'.
  pose proof (cat_range _ Hc' _ _ _ Hf). pose proof (cat_dict _ Hc' d).
  assert (rev T' (d, id) = Some name) as Hr by (by apply (cat_inverse _ Hc')).
  split; [lia|]. split; [apply (run_revName T'); try done; unfold u32; lia|].
  split; [by rewrite (run_lookupDict T'), Hf|]. split; [by apply (run_intern_known T')|].
  intros name' Hn. rewrite (run_lookupDict T'), (run_lookupDict T m) by done. cbn [fst].
  split; [|f_equal; apply Hne; congruence].
  intros [= Hf']. apply (cat_inverse _ Hc') in Hf'. congruence.
Qed.

Lemma intern_bijective_witness :
  let m' := (run (internDict (dict_tag DLabel) (dict_kind DLabel) [80]) ∅).2 in
  1 <= 1 < two32 /\
  run (revName (dict_kind DLabel) 1) m' = (Ok [80], m') /\
  run (lookupDict (dict_tag DLabel) [80]) m' = (Ok (Some 1), m') /\
  run (internDict (dict_tag DLabel) (dict_kind DLabel) [80]) m' = (Ok 1, m') /\
  (forall name', name' <> [80] ->
     (run (lookupDict (dict_tag DLabel) name') m').1 <> Ok (Some 1) /\
     (run (lookupDict (dict_tag DLabel) name') m').1 = (run (lookupDict (dict_tag DLabel) name') ∅).1).
Proof.
  apply (intern_bijective empty_tables ∅ _ DLabel [80] 1).
  - apply Rep_empty.
  - apply cat_ok_empty.
  - vm_compute. reflexivity.
Defined.
