(* ===== verification/GraphInv.v ===== *)
(** * GraphInv: every index agrees with the records (Invariant #1)

    [consistent T] is the invariant of src/internal/graph: each index table is
    the one the base records determine, every edge joins existing nodes, owner
    entries identify the one holder of a value, and the catalog is in order.
    This file holds the invariant and the specifications of the building
    blocks of the graph operations: reading records, and writing or removing
    one index entry. *)
From S2P Require Import Prelude Float64 Values IndexCodec Keys Records Storage Catalog Graph Tables.
Import Float64.

(** ** Records as they are stored *)
Definition prop_stored (v : value) : Prop := rec_value_ok v /\ deep_norm v = v /\ v <> VNull.

Record node_stored (r : NodeRecord) : Prop := {
  ns_labels : Forall u32 (Labels r);
  ns_nodup : NoDup (Labels r);
  ns_sorted : sort_ids (Labels r) = Labels r;
  ns_props : map_Forall (fun k v => u32 k /\ prop_stored v) (Props r)
}.

Record edge_stored (r : EdgeRecord) : Prop := {
  es_type : u32 (Type_ r);
  es_src : u64 (Src r);
  es_dst : u64 (Dst r);
  es_props : map_Forall (fun k v => u32 k /\ prop_stored v) (EProps r)
}.

(** ** The invariant *)

(** The value a property has for an index. *)
Definition indexed_value (o : option value) : option value :=
  v ← o; if isIndexable v then Some v else None.

Definition entry_of (o : option NodeRecord) (l k : Z) : option value :=
  match o with
  | Some r => if decide (l ∈ Labels r) then indexed_value (Props r !! k) else None
  | None => None
  end.
Definition labels_of (o : option NodeRecord) (l : Z) : bool :=
  match o with Some r => bool_decide (l ∈ Labels r) | None => false end.
Definition rel_entry_of (o : option EdgeRecord) (t k : Z) : option value :=
  match o with
  | Some r => if decide (Type_ r = t) then indexed_value (EProps r !! k) else None
  | None => None
  end.
Definition out_of (o : option EdgeRecord) (s t d : Z) : bool :=
  match o with Some r => bool_decide (Src r = s /\ Type_ r = t /\ Dst r = d) | None => false end.

(** Owner entries: the holder of a constrained value, and nothing else. *)
Definition own_ok (T : tables) : Prop := forall l k u n,
  own T (l, k, u) = Some n <->
  is_Some (constr T (l, k)) /\ exists v, ent T (l, k, n) = Some v /\ uniqueValue v = Some u.

(** Names the dictionaries know. *)
Definition known (T : tables) (d : dict) (id : Z) : Prop := is_Some (rev T (d, id)).

Record consistent (T : tables) : Prop := {
  con_cat : cat_ok T;
  con_node : forall n r, nodes T n = Some r -> 1 <= n <= count T CNode /\ node_stored r /\
    Forall (known T DLabel) (Labels r) /\ (forall k, is_Some (Props r !! k) -> known T DKey k);
  con_edge : forall e r, edges T e = Some r -> 1 <= e <= count T CEdge /\ edge_stored r /\
    is_Some (nodes T (Src r)) /\ is_Some (nodes T (Dst r));
  con_lab : forall l n, lab T (l, n) = labels_of (nodes T n) l;
  con_ent : forall l k n, ent T (l, k, n) = entry_of (nodes T n) l k;
  con_own : own_ok T;
  con_outs : forall s t d e, outs T (s, t, d, e) = out_of (edges T e) s t d;
  con_ins : forall d t s e, ins T (d, t, s, e) = out_of (edges T e) s t d;
  con_rent : forall t k e, rent T (t, k, e) = rel_entry_of (edges T e) t k;
  con_constr : forall l k, is_Some (constr T (l, k)) -> is_Some (index T (l, k))
}.

Lemma consistent_empty : consistent empty_tables.
Proof.
  split; try done; try apply cat_ok_empty.
  - intros l k u n. cbn. split; [done|]. by intros [[? ?] _].
  - intros l k [? ?]; done.
Qed.

(** ** Values *)
Lemma indexable_key_ok v : value_ok v -> isIndexable v = true -> value_key_ok v.
Proof. intros Hv Hi. split; [split; [done|]|done]. by destruct v. Qed.

Lemma uniqueValue_key_ok v u : value_key_ok v -> uniqueValue v = Some u -> value_key_ok u.
Proof.
  intros [[Hv Hn] Hi] E. destruct v as [| | | |f| | | | | | |]; try done; try (by injection E as <-).
  rewrite uniqueValue_float in E. destruct (is_nan f); [done|]. destruct (int_valued f) eqn:Ei.
  - injection E as <-. split; [split; [|done]|done]. cbn. pose proof (int_valued_num f Ei) as En.
    unfold int_valued in Ei. rewrite !andb_true_iff, Z.leb_le, Z.ltb_lt in Ei. destruct Ei as [[_ H1] H2].
    assert (0 < unit1074) by easy. unfold i64. nia.
  - by injection E as <-.
Qed.

Lemma prop_stored_indexable v : prop_stored v -> isIndexable v = true -> value_key_ok v.
Proof. intros ((Hv & _) & _) Hi. by apply indexable_key_ok. Qed.

Lemma indexed_value_Some o v : indexed_value o = Some v <-> o = Some v /\ isIndexable v = true.
Proof.
  unfold indexed_value. destruct o as [w|]; cbn; [|by split; [|intros [? _]]].
  destruct (isIndexable w) eqn:E; split; [intros [= <-]; done|by intros [[= <-] _]|done|].
  intros [[= <-] Hv]. congruence.
Qed.

Lemma entry_of_Some o l k v :
  entry_of o l k = Some v <->
  exists r, o = Some r /\ l ∈ Labels r /\ Props r !! k = Some v /\ isIndexable v = true.
Proof.
  unfold entry_of. destruct o as [r|]; [|by split; [|intros (? & ? & _)]].
  destruct (decide (l ∈ Labels r)) as [Hl|Hl].
  - rewrite indexed_value_Some. split; [intros []; by exists r|by intros (r' & [= <-] & _ & ?)].
  - split; [done|]. by intros (r' & [= <-] & ? & _).
Qed.

(** ** Edges *)
Lemma out_of_true o s t d :
  out_of o s t d = true <-> exists r, o = Some r /\ Src r = s /\ Type_ r = t /\ Dst r = d.
Proof.
  unfold out_of. destruct o as [r|]; [|split; [done|by intros (? & ? & _)]]. rewrite bool_decide_eq_true.
  split; [by exists r|by intros (r' & [= <-] & ?)].
Qed.

Lemma edge_u64 T e r : consistent T -> edges T e = Some r -> u64 e /\ edge_stored r.
Proof.
  intros Hc He. destruct (con_edge _ Hc e r He) as (H1 & H2 & _). split; [|done].
  pose proof (cat_count _ (con_cat _ Hc) CEdge). unfold u64. lia.
Qed.

(** ** The record size bound follows from the width of identifiers *)
Lemma NoDup_u32_length (l : list Z) : NoDup l -> Forall u32 l -> len l <= two32.
Proof.
  intros Hn Hf. unfold len. transitivity (Z.of_nat (length (seqZ 0 two32))).
  - apply Nat2Z.inj_le, submseteq_length, NoDup_submseteq; [done|]. intros x Hx.
    apply elem_of_seqZ. rewrite Forall_forall in Hf. apply Hf in Hx. unfold u32 in Hx. lia.
  - rewrite length_seqZ. unfold two32. lia.
Qed.

Lemma props_size (p : gmap Z value) (P : value -> Prop) :
  map_Forall (fun k v => u32 k /\ P v) p -> Z.of_nat (size p) <= two32.
Proof.
  intros Hp. rewrite <- length_map_to_list.
  rewrite <- (length_fmap fst). apply (NoDup_u32_length (map_to_list p).*1).
  - apply NoDup_fst_map_to_list.
  - apply Forall_fmap, Forall_forall. intros [k v] Hin%elem_of_map_to_list. by apply (Hp k v).
Qed.

(** ** Records *)
Lemma wp_GetNode n T (Q : res Node -> tables -> Prop) :
  u64 n -> Q (match nodes T n with Some r => Ok (mkNode n r) | None => Err ErrNodeNotFound end) T ->
  wp (GetNode n) T Q.
Proof.
  intros Hn HQ. unfold GetNode. change (NodeKey n) with (key_of (KNode n)).
  apply wp_bind, wp_Get; [done|]. intros o Ho. cbn in Ho. cbn [on_ok].
  destruct (nodes T n) as [r|]; [|subst o; by apply wp_throw].
  destruct Ho as (b & -> & Hb). rewrite Hb. by apply wp_bind, wp_ret, wp_ret.
Qed.

Lemma wp_GetEdge e T (Q : res Edge -> tables -> Prop) :
  u64 e -> Q (match edges T e with Some r => Ok (mkEdge e r) | None => Err ErrEdgeNotFound end) T ->
  wp (GetEdge e) T Q.
Proof.
  intros Hn HQ. unfold GetEdge. change (EdgeKey e) with (key_of (KEdge e)).
  apply wp_bind, wp_Get; [done|]. intros o Ho. cbn in Ho. cbn [on_ok].
  destruct (edges T e) as [r|]; [|subst o; by apply wp_throw].
  destruct Ho as (b & -> & Hb). rewrite Hb. by apply wp_bind, wp_ret, wp_ret.
Qed.

(** Property maps an operation may be given: in range, but perhaps holding
    values (nodes, paths) that no record can store. *)
Definition value_in (v : value) : Prop := value_ok v /\ sized v.
Definition props_in (p : gmap Z value) : Prop := map_Forall (fun k v => u32 k /\ value_in v) p.
Definition all_storable (p : gmap Z value) : Prop := map_Forall (fun _ v => storable v = true) p.

Lemma props_in_ok p : props_in p -> all_storable p -> props_ok p.
Proof.
  intros Hp Hs. split.
  - intros k v Hk. destruct (Hp k v Hk) as [? [? ?]]. split; [done|]. split; [done|]. split; [done|].
    by apply (Hs k v).
  - pose proof (props_size p _ Hp). unfold two32, two63 in *. lia.
Qed.

Lemma appendProps_unstorable dst p : ~ all_storable p -> appendProps dst p = Err ErrUnsupportedType.
Proof.
  intros Hn. unfold appendProps. cbv zeta. rewrite append_prop_list_spec.
  destruct (forallb _ _) eqn:E; [|done]. exfalso. apply Hn. intros k v Hk.
  apply forallb_Forall in E. rewrite Forall_forall in E. by apply (E (k, v)), sorted_props_elem.
Qed.

Lemma wp_putNodeRecord n r T (Q : res unit -> tables -> Prop) :
  u64 n -> Forall u32 (Labels r) -> NoDup (Labels r) -> props_in (Props r) ->
  (all_storable (Props r) -> Q (Ok tt) (set_nodes (<[n := Some (node_norm r)]> (nodes T)) T)) ->
  (~ all_storable (Props r) -> Q (Err ErrUnsupportedType) T) ->
  wp (putNodeRecord n r) T Q.
Proof.
  intros Hn Hl Hnd Hp HQ HE. unfold putNodeRecord. change (NodeKey n) with (key_of (KNode n)).
  apply wp_bind, wp_lift. destruct (decide (all_storable (Props r))) as [Hs|Hs].
  - assert (node_ok r) as Hok.
    { split; [done|]. split; [|by apply props_in_ok].
      pose proof (NoDup_u32_length _ Hnd Hl). unfold two32, two63 in *. lia. }
    destruct (decode_encode_node r Hok) as (b & -> & Hb). cbn [on_ok].
    eapply wp_Set; [done| | |by apply HQ].
    + cbn. rewrite fn_lookup_insert. eauto.
    + other_cells.
  - unfold EncodeNode. cbv zeta. rewrite appendProps_unstorable by done. by apply HE.
Qed.

(** ** Index entries *)

(** The tables after writing and after removing the entry of a property. *)
Definition put_own (T : tables) (l k : Z) (v : value) (n : Z) : Z * Z * value -> option Z :=
  match constr T (l, k), uniqueValue v with
  | Some _, Some u => <[(l, k, u) := Some n]> (own T)
  | _, _ => own T
  end.
Definition put_ent (T : tables) (l k : Z) (v : value) (n : Z) : tables :=
  if isIndexable v
  then set_own (put_own T l k v n) (set_ent (<[(l, k, n) := Some v]> (ent T)) T)
  else T.

Definition del_own (T : tables) (l k : Z) (v : value) (n : Z) : Z * Z * value -> option Z :=
  match constr T (l, k), uniqueValue v with
  | Some _, Some u => if decide (own T (l, k, u) = Some n) then <[(l, k, u) := None]> (own T) else own T
  | _, _ => own T
  end.
Definition del_ent (T : tables) (l k : Z) (v : value) (n : Z) : tables :=
  if isIndexable v
  then set_own (del_own T l k v n) (set_ent (<[(l, k, n) := None]> (ent T)) T)
  else T.

(** Another node holds a value equal, for the constraint, to [v]. *)
Definition conflict (T : tables) (n l k : Z) (v : value) : Prop :=
  is_Some (constr T (l, k)) /\
  exists n' v' u, n' <> n /\ ent T (l, k, n') = Some v' /\ uniqueValue v' = Some u /\ uniqueValue v = Some u.

(** What the entry operations rely on. *)
Record entries_ok (T : tables) : Prop := {
  eo_own : own_ok T;
  eo_constr : forall l k, is_Some (constr T (l, k)) -> is_Some (index T (l, k));
  eo_u64 : forall l k n v, ent T (l, k, n) = Some v -> u64 n
}.

Lemma own_u64 T l k u n : entries_ok T -> own T (l, k, u) = Some n -> u64 n.
Proof. intros He Ho. apply (eo_own _ He) in Ho as [_ (v & Hv & _)]. by eapply eo_u64. Qed.

(** Reading the owner of a value. *)
Lemma wp_valueOwner l k u T (Q : res (option Z) -> tables -> Prop) :
  u32 l -> u32 k -> value_key_ok u -> (forall n, own T (l, k, u) = Some n -> u64 n) ->
  Q (Ok (own T (l, k, u))) T -> wp (valueOwner (key_of (KUnique l k u))) T Q.
Proof.
  intros Hl Hk Hu He HQ. unfold valueOwner. apply wp_bind, wp_Get; [done|]. intros o Ho.
  cbn [cell] in Ho. cbn [on_ok]. destruct (own T (l, k, u)) as [n|] eqn:E; cbn in Ho; subst o; [|by apply wp_ret].
  rewrite be_length. cbn [Nat.eqb]. rewrite be8_get by (by apply He). by apply wp_ret.
Qed.

Lemma wp_violation {A} l k T (Q : res A -> tables -> Prop) :
  u32 l -> u32 k -> known T DLabel l -> known T DKey k ->
  Q (Err ErrConstraintViolation) T -> wp (violation l k) T Q.
Proof.
  intros Hl Hk [nl El] [nk Ek] HQ. unfold violation, LabelName, KeyName.
  apply wp_bind. apply (wp_revName DLabel); [done|]. rewrite El. cbn [on_ok].
  apply wp_bind. apply (wp_revName DKey); [done|]. rewrite Ek. cbn [on_ok]. by apply wp_throw.
Qed.

Lemma wp_claimValue l k v n T (Q : res unit -> tables -> Prop) :
  u32 l -> u32 k -> u64 n -> value_key_ok v -> known T DLabel l -> known T DKey k ->
  (forall u n', own T (l, k, u) = Some n' -> u64 n') ->
  (uniqueValue v = None -> Q (Ok tt) T) ->
  (forall u, uniqueValue v = Some u -> own T (l, k, u) = None \/ own T (l, k, u) = Some n ->
     Q (Ok tt) (set_own (<[(l, k, u) := Some n]> (own T)) T)) ->
  (forall u n', uniqueValue v = Some u -> own T (l, k, u) = Some n' -> n' <> n ->
     Q (Err ErrConstraintViolation) T) ->
  wp (claimValue l k v n) T Q.
Proof.
  intros Hl Hk Hn Hv HL HK Hu HN HS HC. unfold claimValue. destruct (uniqueValue v) as [u|] eqn:Eu; [|by apply wp_ret, HN].
  pose proof (uniqueValue_key_ok _ _ Hv Eu) as Hku. apply wp_bind. rewrite UniqueKey_key by apply Hku.
  apply wp_ret. cbn [on_ok]. apply wp_bind. apply wp_valueOwner; [done..|by apply Hu|].
  cbn [on_ok]. destruct (own T (l, k, u)) as [n'|] eqn:Eo.
  - destruct (Z.eqb_spec n' n) as [->|Hne]; cbn [negb].
    + apply (wp_view (set_own (<[(l, k, u) := Some n]> (own T)) T)); [|apply wp_ret; auto].
      intros [] o Hok Hc; try exact Hc. cbn in Hc |- *.
      destruct (decide ((label, key, v0) = (l, k, u))) as [E|E]; [|by rewrite fn_lookup_insert_ne].
      rewrite E, fn_lookup_insert. by rewrite E, Eo in Hc.
    + by apply wp_violation; [..|eapply HC].
  - eapply wp_Set; [done| | |apply HS; auto].
    + cbn. by rewrite fn_lookup_insert.
    + other_cells.
Qed.

(** The entries of other pairs, and of other nodes, are not affected. *)
Lemma own_ok_put T l k v n :
  own_ok T -> ent T (l, k, n) = None \/ ent T (l, k, n) = Some v -> isIndexable v = true ->
  ~ conflict T n l k v -> own_ok (put_ent T l k v n).
Proof.
  intros Ho He Hi Hc l' k' u' n'. unfold put_ent. rewrite Hi. cbn [own ent constr set_own set_ent].
  destruct (decide ((l', k') = (l, k))) as [E|E].
  2: { rewrite (fn_lookup_insert_ne (ent T)) by congruence. rewrite <- (Ho l' k' u' n'). unfold put_own.
       destruct (constr T (l, k)), (uniqueValue v); try done. by rewrite fn_lookup_insert_ne by congruence. }
  injection E as -> ->.
  assert (forall w, ent T (l, k, n) = Some w -> w = v) as Hw by (destruct He as [-> | ->]; congruence).
  assert (n' <> n -> own T (l, k, u') = Some n' <->
    is_Some (constr T (l, k)) /\ exists w, <[(l, k, n) := Some v]> (ent T) (l, k, n') = Some w /\ uniqueValue w = Some u') as Hother.
  { intros Hn. rewrite fn_lookup_insert_ne by congruence. apply Ho. }
  unfold put_own. destruct (constr T (l, k)) as [c|] eqn:Ec.
  2: { rewrite (Ho l k u' n'), Ec. split; by intros [[? ?] _]. }
  destruct (uniqueValue v) as [u|] eqn:Eu.
  - destruct (decide (u' = u)) as [->|Hu].
    + rewrite fn_lookup_insert. split.
      * intros [= <-]. split; [done|]. exists v. by rewrite fn_lookup_insert.
      * intros [_ (w & Hw' & Huw)]. destruct (decide (n' = n)) as [->|Hn]; [done|].
        rewrite fn_lookup_insert_ne in Hw' by congruence. exfalso. apply Hc. split; [by rewrite Ec|].
        by exists n', w, u.
    + rewrite fn_lookup_insert_ne by congruence. destruct (decide (n' = n)) as [->|Hn]; [|by apply Hother].
      rewrite (Ho l k u' n), Ec, fn_lookup_insert. split.
      * intros [_ (w & Hw' & Huw)]. apply Hw in Hw'. congruence.
      * intros [_ (w & [= <-] & Huw)]. congruence.
  - destruct (decide (n' = n)) as [->|Hn]; [|by apply Hother].
    rewrite (Ho l k u' n), Ec, fn_lookup_insert. split.
    + intros [_ (w & Hw' & Huw)]. apply Hw in Hw'. congruence.
    + intros [_ (w & [= <-] & Huw)]. congruence.
Qed.

Lemma own_ok_del T l k v n :
  own_ok T -> ent T (l, k, n) = None \/ ent T (l, k, n) = Some v -> isIndexable v = true ->
  own_ok (del_ent T l k v n).
Proof.
  intros Ho He Hi l' k' u' n'. unfold del_ent. rewrite Hi. cbn [own ent constr set_own set_ent].
  destruct (decide ((l', k') = (l, k))) as [E|E].
  2: { rewrite (fn_lookup_insert_ne (ent T)) by congruence. rewrite <- (Ho l' k' u' n'). unfold del_own.
       destruct (constr T (l, k)), (uniqueValue v); try done. destruct (decide _); [|done].
       by rewrite fn_lookup_insert_ne by congruence. }
  injection E as -> ->.
  assert (forall w, ent T (l, k, n) = Some w -> w = v) as Hw by (destruct He as [-> | ->]; congruence).
  assert (own T (l, k, u') = Some n -> uniqueValue v = Some u') as Hown.
  { intros Hx. apply (Ho l k u' n) in Hx as [_ (w & Hw' & Huw)]. apply Hw in Hw'. congruence. }
  assert (is_Some (constr T (l, k)) /\ (exists w, <[(l, k, n) := None]> (ent T) (l, k, n') = Some w /\ uniqueValue w = Some u')
    <-> own T (l, k, u') = Some n' /\ n' <> n) as ->.
  { rewrite (Ho l k u' n'). destruct (decide (n' = n)) as [->|Hn].
    - rewrite fn_lookup_insert. split; [by intros [_ (w & ? & _)]|by intros [_ ?]].
    - rewrite fn_lookup_insert_ne by congruence. tauto. }
  unfold del_own. destruct (constr T (l, k)) as [c|] eqn:Ec.
  2: { split; [|by intros [? _]]. intros Hn. split; [done|]. apply Ho in Hn as [[? ?] _]. congruence. }
  destruct (uniqueValue v) as [u|] eqn:Eu; [destruct (decide (own T (l, k, u) = Some n)) as [Ho'|Ho']|].
  - destruct (decide (u' = u)) as [->|Hu].
    + rewrite fn_lookup_insert. split; [done|]. intros [H1 H2]. congruence.
    + rewrite fn_lookup_insert_ne by congruence. split; [|by intros [? _]]. intros Hn. split; [done|].
      intros ->. apply Hown in Hn. congruence.
  - split; [|by intros [? _]]. intros Hn. split; [done|]. intros ->. pose proof (Hown Hn). congruence.
  - split; [|by intros [? _]]. intros Hn. split; [done|]. intros ->. pose proof (Hown Hn). congruence.
Qed.

Lemma wp_putPropEntry l k v n T (Q : res unit -> tables -> Prop) :
  u32 l -> u32 k -> u64 n -> value_ok v -> entries_ok T -> known T DLabel l -> known T DKey k ->
  ent T (l, k, n) = None \/ ent T (l, k, n) = Some v ->
  (entries_ok (put_ent T l k v n) -> Q (Ok tt) (put_ent T l k v n)) ->
  (forall T', conflict T n l k v -> isIndexable v = true -> Q (Err ErrConstraintViolation) T') ->
  wp (putPropEntry l k v n) T Q.
Proof.
  intros Hl Hk Hn Hv He HL HK Hent HQ HC. unfold putPropEntry.
  destruct (isIndexable v) eqn:Ei; cbn [negb].
  2: { apply wp_ret. unfold put_ent in HQ. rewrite Ei in HQ. auto. }
  assert (value_key_ok v) as Hkv by (by apply indexable_key_ok).
  assert (~ conflict T n l k v -> Q (Ok tt) (put_ent T l k v n)) as HQ'.
  { intros Hc. apply HQ. split; [by apply own_ok_put; [apply He|..]| |];
      unfold put_ent; rewrite Ei; cbn; [apply He|].
    intros l' k' n' w. destruct (decide ((l', k', n') = (l, k, n))) as [E|E].
    - injection E as -> -> ->. done.
    - rewrite fn_lookup_insert_ne by congruence. apply He. }
  unfold put_ent in HQ'. rewrite Ei in HQ'.
  apply wp_bind, wp_HasIndex; [done|done|]. cbn [on_ok].
  set (T1 := set_ent (<[(l, k, n) := Some v]> (ent T)) T).
  destruct (index T (l, k)) as [nm|] eqn:Ex; cbn [has negb].
  2: { assert (constr T (l, k) = None) as Ec.
       { destruct (constr T (l, k)) eqn:E; [|done]. destruct (eo_constr _ He l k) as [? ?]; [by rewrite E|congruence]. }
       apply (wp_view T1).
       - intros [] o Hok Hc; try exact Hc. cbn in Hc |- *. rewrite Hc. f_equal. apply bool_decide_ext.
         destruct (decide ((label, key, node) = (l, k, n))) as [E|E]; [|by rewrite fn_lookup_insert_ne].
         injection E as -> -> ->. rewrite Ex. split; by intros [[? ?] _].
       - apply wp_ret. unfold put_own in HQ'. rewrite Ec in HQ'. apply HQ'. intros [[? Hc] _]. congruence. }
  rewrite PropKey_key by done. apply wp_bind, wp_ret. cbn [on_ok]. apply wp_bind.
  apply (wp_Set T1 (KProp l k v n)); [done| | |cbn [on_ok]].
  { cbn. rewrite fn_lookup_insert, bool_decide_true by (split; [by rewrite Ex|done]). done. }
  { intros sk o Hok Hne Hc. destruct sk; try exact Hc. cbn in Hc |- *. rewrite Hc. f_equal. apply bool_decide_ext.
    destruct (decide ((label, key, node) = (l, k, n))) as [E|E]; [|by rewrite fn_lookup_insert_ne].
    injection E as -> -> ->. rewrite fn_lookup_insert. destruct Hent as [-> | ->]; split; intros [? [= ?]]; congruence. }
  apply wp_bind, wp_HasUnique; [done|done|]. cbn [on_ok constr T1 set_ent].
  unfold put_own in HQ'. destruct (constr T (l, k)) as [c|] eqn:Ec; cbn [has negb].
  2: { apply wp_ret, HQ'. intros [[? Hc] _]. congruence. }
  apply wp_claimValue; try done.
  - intros u n'. cbn. by apply own_u64.
  - intros Eu. rewrite Eu in HQ'. apply HQ'. intros (_ & n' & v' & u & _ & _ & _ & Hu). congruence.
  - intros u Eu Ho. rewrite Eu in HQ'. apply HQ'. intros (_ & n' & v' & u' & Hne & Hn' & Hv' & Hu').
    assert (own T (l, k, u) = Some n') as Ho'.
    { apply (eo_own _ He). split; [by rewrite Ec|]. exists v'. split; [done|congruence]. }
    cbn in Ho. destruct Ho; congruence.
  - intros u n' Eu Ho Hne. cbn in Ho. apply HC; [|done]. apply (eo_own _ He) in Ho as [_ (v' & Hv' & Hu')].
    split; [by rewrite Ec|]. by exists n', v', u.
Qed.

Lemma entries_ok_del T l k v n :
  entries_ok T -> ent T (l, k, n) = None \/ ent T (l, k, n) = Some v -> isIndexable v = true ->
  entries_ok (del_ent T l k v n).
Proof.
  intros He Hent Ei. split; [by apply own_ok_del; [apply He|..]| |];
    unfold del_ent; rewrite Ei; cbn; [apply He|].
  intros l' k' n' w. destruct (decide ((l', k', n') = (l, k, n))) as [E|E].
  - rewrite E, fn_lookup_insert. done.
  - rewrite fn_lookup_insert_ne by congruence. apply He.
Qed.

Lemma wp_delPropEntry l k v n T (Q : res unit -> tables -> Prop) :
  u32 l -> u32 k -> u64 n -> value_ok v -> entries_ok T ->
  ent T (l, k, n) = None \/ ent T (l, k, n) = Some v ->
  (entries_ok (del_ent T l k v n) -> Q (Ok tt) (del_ent T l k v n)) ->
  wp (delPropEntry l k v n) T Q.
Proof.
  intros Hl Hk Hn Hv He Hent HQ. unfold delPropEntry.
  destruct (isIndexable v) eqn:Ei; cbn [negb].
  2: { apply wp_ret. unfold del_ent in HQ. rewrite Ei in HQ. auto. }
  assert (value_key_ok v) as Hkv by (by apply indexable_key_ok).
  specialize (HQ (entries_ok_del _ _ _ _ _ He Hent Ei)). unfold del_ent in HQ. rewrite Ei in HQ.
  apply wp_bind, wp_HasIndex; [done|done|]. cbn [on_ok].
  set (T1 := set_ent (<[(l, k, n) := None]> (ent T)) T).
  destruct (index T (l, k)) as [nm|] eqn:Ex; cbn [has negb].
  2: { assert (constr T (l, k) = None) as Ec.
       { destruct (constr T (l, k)) eqn:E; [|done]. destruct (eo_constr _ He l k) as [? ?]; [by rewrite E|congruence]. }
       apply (wp_view T1).
       - intros [] o Hok Hc; try exact Hc. cbn in Hc |- *. rewrite Hc. f_equal. apply bool_decide_ext.
         destruct (decide ((label, key, node) = (l, k, n))) as [E|E]; [|by rewrite fn_lookup_insert_ne].
         injection E as -> -> ->. rewrite Ex. split; by intros [[? ?] _].
       - apply wp_ret. unfold del_own in HQ. by rewrite Ec in HQ. }
  rewrite PropKey_key by done. apply wp_bind, wp_ret. cbn [on_ok]. apply wp_bind.
  apply (wp_Delete T1 (KProp l k v n)); [done| | |cbn [on_ok]].
  { cbn. rewrite fn_lookup_insert, bool_decide_false by (by intros [_ ?]). done. }
  { intros sk o Hok Hne Hc. destruct sk; try exact Hc. cbn in Hc |- *. rewrite Hc. f_equal. apply bool_decide_ext.
    destruct (decide ((label, key, node) = (l, k, n))) as [E|E]; [|by rewrite fn_lookup_insert_ne].
    injection E as -> -> ->. rewrite fn_lookup_insert. destruct Hent as [-> | ->]; split; intros [? [= ?]]; congruence. }
  apply wp_bind, wp_HasUnique; [done|done|]. cbn [on_ok constr T1 set_ent].
  unfold del_own in HQ. destruct (constr T (l, k)) as [c|] eqn:Ec; cbn [has negb]; [|by apply wp_ret].
  destruct (uniqueValue v) as [u|] eqn:Eu; [|by apply wp_ret].
  pose proof (uniqueValue_key_ok _ _ Hkv Eu) as Hku. rewrite UniqueKey_key by apply Hku.
  apply wp_bind, wp_ret. cbn [on_ok]. apply wp_bind. apply wp_valueOwner; [done..| |].
  { intros n'. cbn. by apply own_u64. }
  cbn [on_ok own T1 set_ent]. destruct (own T (l, k, u)) as [n'|] eqn:Eo; [destruct (Z.eqb_spec n' n) as [->|Hne]|].
  - rewrite decide_True in HQ by done. eapply wp_Delete; [done| | |exact HQ].
    + cbn. by rewrite fn_lookup_insert.
    + other_cells.
  - rewrite decide_False in HQ by congruence. by apply wp_ret.
  - rewrite decide_False in HQ by done. by apply wp_ret.
Qed.
