(* ===== verification/NodeOps.v ===== *)
(** * NodeOps: the operations on nodes preserve the invariant

    CreateNode, SetProperty, RemoveProperty, AddLabels, RemoveLabels,
    SetNodeProperties and DeleteNode of src/internal/graph/crud.go.  Each one
    changes the index entries of a single node ([patch]) and then its record;
    [consistent_update] says when the result is consistent again. *)
From S2P Require Import Prelude Float64 Values IndexCodec Keys Records Storage Catalog Graph Tables GraphInv.

(** ** Patches: only the index entries of [n] differ *)
Record patch (n : Z) (T T' : tables) : Prop := {
  pa_same : T' = set_lab (lab T') (set_own (own T') (set_ent (ent T') T));
  pa_ok : entries_ok T';
  pa_ent : forall l k n', n' <> n -> ent T' (l, k, n') = ent T (l, k, n');
  pa_lab : forall l n', n' <> n -> lab T' (l, n') = lab T (l, n')
}.

Lemma patch_refl n T : entries_ok T -> patch n T T.
Proof. intros H. split; try done. by destruct T. Qed.

Lemma patch_trans n T1 T2 T3 : patch n T1 T2 -> patch n T2 T3 -> patch n T1 T3.
Proof.
  intros [S1 O1 E1 L1] [S2 O2 E2 L2]. split.
  - rewrite S2 at 1. rewrite S1. done.
  - done.
  - intros. rewrite E2, E1; done.
  - intros. rewrite L2, L1; done.
Qed.

Lemma patch_put n T T' l k v :
  patch n T T' -> entries_ok (put_ent T' l k v n) -> patch n T (put_ent T' l k v n).
Proof.
  intros Hp Ho. apply (patch_trans n T T'); [done|]. unfold put_ent in *. destruct (isIndexable v).
  - split; try done. cbn. intros l' k' n' Hn. rewrite fn_lookup_insert_ne by congruence. done.
  - by apply patch_refl.
Qed.

Lemma patch_del n T T' l k v :
  patch n T T' -> entries_ok (del_ent T' l k v n) -> patch n T (del_ent T' l k v n).
Proof.
  intros Hp Ho. apply (patch_trans n T T'); [done|]. unfold del_ent in *. destruct (isIndexable v).
  - split; try done. cbn. intros l' k' n' Hn. rewrite fn_lookup_insert_ne by congruence. done.
  - by apply patch_refl.
Qed.

Lemma patch_lab n T T' l b :
  patch n T T' -> patch n T (set_lab (<[(l, n) := b]> (lab T')) T').
Proof.
  intros Hp. apply (patch_trans n T T'); [done|]. destruct Hp as [_ [O1 O2 O3] _ _]. split; try done.
  cbn. intros l' n' Hn. rewrite fn_lookup_insert_ne by congruence. done.
Qed.

Lemma patch_conflict n T T' l k v : patch n T T' -> conflict T' n l k v -> conflict T n l k v.
Proof.
  intros Hp (Hc & n' & v' & u & Hn & He & Hu). split.
  - rewrite (pa_same _ _ _ Hp) in Hc. exact Hc.
  - exists n', v', u. rewrite (pa_ent _ _ _ Hp) in He by done. done.
Qed.

Lemma patch_known n T T' d id : patch n T T' -> known T d id -> known T' d id.
Proof. intros Hp. unfold known. by rewrite (pa_same _ _ _ Hp). Qed.

Lemma ent_put T l k v n l' k' :
  ent (put_ent T l k v n) (l', k', n) =
  if decide (l' = l /\ k' = k) then (if isIndexable v then Some v else ent T (l, k, n)) else ent T (l', k', n).
Proof.
  unfold put_ent. destruct (isIndexable v); cbn; destruct (decide (l' = l /\ k' = k)) as [[-> ->]|Hne]; try done.
  - by rewrite fn_lookup_insert.
  - rewrite fn_lookup_insert_ne; [done|]. intros [= -> ->]. by apply Hne.
Qed.

Lemma ent_del T l k v n l' k' :
  ent (del_ent T l k v n) (l', k', n) =
  if decide (l' = l /\ k' = k) then (if isIndexable v then None else ent T (l, k, n)) else ent T (l', k', n).
Proof.
  unfold del_ent. destruct (isIndexable v); cbn; destruct (decide (l' = l /\ k' = k)) as [[-> ->]|Hne]; try done.
  - by rewrite fn_lookup_insert.
  - rewrite fn_lookup_insert_ne; [done|]. intros [= -> ->]. by apply Hne.
Qed.

Lemma lab_put T l k v n : lab (put_ent T l k v n) = lab T.
Proof. unfold put_ent. by destruct (isIndexable v). Qed.
Lemma lab_del T l k v n : lab (del_ent T l k v n) = lab T.
Proof. unfold del_ent. by destruct (isIndexable v). Qed.

(** *** Loops over entries

    The body at [x] sets the entries [P x] of [n] to what [g] says, and the
    labels [PL x] to what [gl] says; so the loop does for every [x]. *)
Section loop.
Context {A : Type} (f : A -> prog unit) (xs : list A) (n : Z) (T : tables).
Context (P : A -> Z -> Z -> Prop) `{forall x l k, Decision (P x l k)} (g : Z -> Z -> option value).
Context (PL : A -> Z -> Prop) `{forall x l, Decision (PL x l)} (gl : Z -> bool).

Definition touched (ys : list A) (T' : tables) : Prop :=
  (forall l k, ent T' (l, k, n) = if decide (Exists (fun x => P x l k) ys) then g l k else ent T (l, k, n)) /\
  (forall l, lab T' (l, n) = if decide (Exists (fun x => PL x l) ys) then gl l else lab T (l, n)).

Definition touch (x : A) (T1 T2 : tables) : Prop :=
  (forall l k, ent T2 (l, k, n) = if decide (P x l k) then g l k else ent T1 (l, k, n)) /\
  (forall l, lab T2 (l, n) = if decide (PL x l) then gl l else lab T1 (l, n)).

Lemma touched_snoc ys x T1 T2 : touched ys T1 -> touch x T1 T2 -> touched (ys ++ [x]) T2.
Proof.
  intros [E1 L1] [E2 L2]. split; [intros l k; rewrite E2, E1|intros l; rewrite L2, L1];
    (destruct (decide _) as [Hx|Hx]; [rewrite decide_True; [done|]; apply Exists_app; right; by left|]);
    (destruct (decide (Exists _ ys)) as [Hy|Hy];
      [rewrite decide_True; [done|]; apply Exists_app; by left|rewrite decide_False; [done|]]);
    intros [?|Hz]%Exists_app; [done| |done|]; apply Exists_cons in Hz as [?|Hz]; try done;
    by apply Exists_nil in Hz.
Qed.

Lemma wp_touch Q :
  entries_ok T ->
  (forall done x todo T1, xs = done ++ x :: todo -> x ∈ xs -> patch n T T1 -> touched done T1 ->
     wp (f x) T1 (on_ok (fun _ T2 => patch n T T2 /\ touch x T1 T2) Q)) ->
  (forall T2, patch n T T2 -> touched xs T2 -> Q (Ok tt) T2) ->
  wp (for_each f xs) T Q.
Proof.
  intros He Hf HQ.
  apply (wp_for_each f xs (fun done T' => patch n T T' /\ touched done T')).
  - split; [by apply patch_refl|]. split; intros; (destruct (decide _) as [Hx|]; [by apply Exists_nil in Hx|done]).
  - intros done x todo T1 -> [Hp Ht]. eapply wp_mono.
    { apply (Hf done x todo T1); [done| |done|done]. apply elem_of_app. right. left. }
    intros [[]|e] T2; cbn [on_ok]; [|done]. intros [Hp2 Ht2]. split; [done|]. by eapply touched_snoc.
  - intros T' [Hp Ht]. by apply HQ.
Qed.
End loop.

(** *** One entry *)
Lemma wp_put1 l k v n T T1 (Q : res unit -> tables -> Prop) :
  u32 l -> u32 k -> u64 n -> value_ok v -> known T DLabel l -> known T DKey k -> patch n T T1 ->
  ent T1 (l, k, n) = None \/ ent T1 (l, k, n) = indexed_value (Some v) ->
  (forall T2, patch n T T2 -> lab T2 = lab T1 ->
     (forall l' k', ent T2 (l', k', n) =
        if decide (l' = l /\ k' = k) then indexed_value (Some v) else ent T1 (l', k', n)) ->
     Q (Ok tt) T2) ->
  (forall T', conflict T n l k v -> Q (Err ErrConstraintViolation) T') ->
  wp (putPropEntry l k v n) T1 Q.
Proof.
  intros Hl Hk Hn Hv HL HK Hp Hent HQ HC.
  apply wp_putPropEntry; try done; try (by eapply patch_known); [apply Hp| | |].
  - cbn in Hent. destruct (isIndexable v); destruct Hent; auto.
  - intros Ho. apply HQ; [by apply patch_put|apply lab_put|]. intros l' k'. rewrite ent_put.
    destruct (decide _); [|done]. cbn in Hent |- *. destruct (isIndexable v); [done|by destruct Hent].
  - intros T' Hc _. by apply HC, (patch_conflict n T T1).
Qed.

Lemma wp_del1 l k v n T T1 (Q : res unit -> tables -> Prop) :
  u32 l -> u32 k -> u64 n -> value_ok v -> patch n T T1 ->
  ent T1 (l, k, n) = None \/ ent T1 (l, k, n) = indexed_value (Some v) ->
  (forall T2, patch n T T2 -> lab T2 = lab T1 ->
     (forall l' k', ent T2 (l', k', n) = if decide (l' = l /\ k' = k) then None else ent T1 (l', k', n)) ->
     Q (Ok tt) T2) ->
  wp (delPropEntry l k v n) T1 Q.
Proof.
  intros Hl Hk Hn Hv Hp Hent HQ. apply wp_delPropEntry; try done; [apply Hp| |].
  - cbn in Hent. destruct (isIndexable v); destruct Hent; auto.
  - intros Ho. apply HQ; [by apply patch_del|apply lab_del|]. intros l' k'. rewrite ent_del.
    destruct (decide _); [|done]. cbn in Hent |- *. destruct (isIndexable v); [done|by destruct Hent].
Qed.

Lemma range_props_elem `{MapOrder} p k v : (k, v) ∈ range_props p <-> p !! k = Some v.
Proof. rewrite range_props_perm. apply elem_of_map_to_list. Qed.

Lemma range_props_key `{MapOrder} p k : Exists (fun kv => kv.1 = k) (range_props p) <-> is_Some (p !! k).
Proof.
  rewrite Exists_exists. split.
  - intros ([k' v] & Hin%range_props_elem & <-). by eexists.
  - intros [v Hv]. exists (k, v). by rewrite range_props_elem.
Qed.

(** *** The entries of one label, for every property *)
Section entries.
Context `{MapOrder} (l : Z) (props : gmap Z value) (n : Z) (T : tables) (Q : res unit -> tables -> Prop).
Context (Hl : u32 l) (Hn : u64 n) (Hp : props_in props) (He : entries_ok T).
Context (Hent : forall k, ent T (l, k, n) = None \/ ent T (l, k, n) = indexed_value (props !! k)).

Lemma wp_put_entries :
  known T DLabel l -> (forall k, is_Some (props !! k) -> known T DKey k) ->
  (forall T2, patch n T T2 -> (forall l', lab T2 (l', n) = lab T (l', n)) ->
     (forall l' k', ent T2 (l', k', n) =
        if decide (l' = l /\ is_Some (props !! k')) then indexed_value (props !! k') else ent T (l', k', n)) ->
     Q (Ok tt) T2) ->
  (forall T' k v, props !! k = Some v -> conflict T n l k v -> Q (Err ErrConstraintViolation) T') ->
  wp (put_entries l props n) T Q.
Proof.
  intros HL HK HQ HC. unfold put_entries.
  apply (wp_touch _ _ n T (fun kv l' k' => l' = l /\ k' = kv.1) (fun _ k' => indexed_value (props !! k'))
    (fun _ _ => False) (fun _ => false)); [done| |].
  - intros done [k v] todo T1 _ Hin Hpt [Ht _]. apply range_props_elem in Hin. destruct (Hp k v Hin) as [Hk [Hv _]].
    cbn [fst snd]. apply (wp_put1 l k v n T T1); try done; [by apply HK; rewrite Hin| | |].
    + rewrite Ht. rewrite <- Hin. destruct (decide _); auto.
    + intros T2 Hp2 Hlab Hent2. split; [done|]. split.
      * intros l' k'. rewrite Hent2. cbn [fst]. destruct (decide _) as [[-> ->]|]; [by rewrite Hin|done].
      * intros l'. by rewrite Hlab.
    + intros T' Hc. cbn [on_ok]. eauto.
  - intros T2 Hp2 [Ht Htl]. apply HQ; [done| |].
    + intros l'. rewrite Htl. destruct (decide _) as [Hx|]; [|done]. apply Exists_exists in Hx as (? & _ & []).
    + intros l' k'. rewrite Ht. apply decide_ext. rewrite <- range_props_key.
      rewrite !Exists_exists. naive_solver.
Qed.

Lemma wp_del_entries :
  (forall T2, patch n T T2 -> (forall l', lab T2 (l', n) = lab T (l', n)) ->
     (forall l' k', ent T2 (l', k', n) =
        if decide (l' = l /\ is_Some (props !! k')) then None else ent T (l', k', n)) ->
     Q (Ok tt) T2) ->
  wp (del_entries l props n) T Q.
Proof.
  intros HQ. unfold del_entries.
  apply (wp_touch _ _ n T (fun kv l' k' => l' = l /\ k' = kv.1) (fun _ k' => None)
    (fun _ _ => False) (fun _ => false)); [done| |].
  - intros done [k v] todo T1 _ Hin Hpt [Ht _]. apply range_props_elem in Hin. destruct (Hp k v Hin) as [Hk [Hv _]].
    cbn [fst snd]. apply (wp_del1 l k v n T T1); try done.
    + rewrite Ht, <- Hin. destruct (decide _); auto.
    + intros T2 Hp2 Hlab Hent2. split; [done|]. split; [by intros; rewrite Hent2|].
      intros l'. by rewrite Hlab.
  - intros T2 Hp2 [Ht Htl]. apply HQ; [done| |].
    + intros l'. rewrite Htl. destruct (decide _) as [Hx|]; [|done]. apply Exists_exists in Hx as (? & _ & []).
    + intros l' k'. rewrite Ht. apply decide_ext. rewrite <- range_props_key.
      rewrite !Exists_exists. naive_solver.
Qed.
End entries.

(** ** Back to a consistent state *)
Lemma consistent_entries T : consistent T -> entries_ok T.
Proof.
  intros Hc. split; [apply Hc|apply Hc|]. intros l k n v. rewrite (con_ent _ Hc), entry_of_Some.
  intros (r & Hr & _). apply (con_node _ Hc) in Hr as [Hr _]. pose proof (cat_count _ (con_cat _ Hc) CNode).
  unfold u64. lia.
Qed.

Lemma known_grows T T' d id : cat_ok T -> grows T T' -> known T d id -> known T' d id.
Proof.
  intros Hc Hg [name Hr]. exists name. apply (cat_inverse _ (grow_cat _ _ Hg)), (grow_fwd _ _ Hg).
  by apply (cat_inverse _ Hc).
Qed.

Lemma consistent_grows T T' : consistent T -> grows T T' -> consistent T'.
Proof.
  intros Hc Hg. pose proof (grows_data _ _ Hg) as (En & Ee & Eo & Ei & El & Et & Ew & Er & Ex & Ek & _).
  destruct (grow_count _ _ Hg) as [Nn Ne]. destruct Hc as [Cc Cn Ce Cl Ct Cw Co Ci Cr Cx].
  split; unfold own_ok; rewrite ?En, ?Ee, ?Eo, ?Ei, ?El, ?Et, ?Ew, ?Er, ?Ex, ?Ek, ?Nn, ?Ne; try done.
  - by apply Hg.
  - intros n r Hr. destruct (Cn n r Hr) as (H1 & H2 & H3 & H4). split; [done|]. split; [done|]. split.
    + eapply Forall_impl; [exact H3|]. intros l. by apply known_grows.
    + intros k Hk. by apply (known_grows T), H4.
Qed.

(** What an updated node must satisfy. *)
Definition node_fits (T : tables) (n : Z) (o : option NodeRecord) : Prop :=
  match o with
  | Some r => 1 <= n <= count T CNode /\ node_stored r /\
      Forall (known T DLabel) (Labels r) /\ (forall k, is_Some (Props r !! k) -> known T DKey k)
  | None => forall e re, edges T e = Some re -> Src re <> n /\ Dst re <> n
  end.

Lemma consistent_update n o T T' :
  consistent T -> patch n T T' -> node_fits T n o ->
  (forall l k, ent T' (l, k, n) = entry_of o l k) -> (forall l, lab T' (l, n) = labels_of o l) ->
  consistent (set_nodes (<[n := o]> (nodes T')) T').
Proof.
  intros Hc Hp Hf Hent Hlab. pose proof (pa_same _ _ _ Hp) as E.
  destruct Hp as [_ [Ow Ox Ou] Pe Pl]. destruct Hc as [Cc Cn Ce Cl Ct Cw Co Ci Cr Cx].
  assert (forall n', n' <> n -> <[n := o]> (nodes T') n' = nodes T n') as Hne.
  { intros n' Hn. rewrite fn_lookup_insert_ne by done. by rewrite E. }
  split.
  - rewrite E. destruct Cc. by split.
  - intros n' r Hr. cbn in Hr. destruct (decide (n' = n)) as [->|Hn].
    + rewrite fn_lookup_insert in Hr. subst o. rewrite E. exact Hf.
    + rewrite Hne in Hr by done. rewrite E. by apply Cn.
  - intros e r Hr. assert (edges T e = Some r) as Hr' by (by rewrite E in Hr).
    destruct (Ce e r Hr') as (H1 & H2 & H3 & H4). split; [by rewrite E|]. split; [done|].
    assert (Src r = n \/ Dst r = n -> is_Some o) as Hs.
    { destruct o; [by eexists|]. intros Hx. destruct (Hf e r Hr'). by destruct Hx. }
    cbn. split; [destruct (decide (Src r = n)) as [Hx|Hx]|destruct (decide (Dst r = n)) as [Hx|Hx]];
      try (by rewrite Hne); rewrite Hx, fn_lookup_insert; auto.
  - intros l n'. cbn. destruct (decide (n' = n)) as [->|Hn]; [by rewrite fn_lookup_insert|].
    rewrite Hne, Pl by done. apply Cl.
  - intros l k n'. cbn. destruct (decide (n' = n)) as [->|Hn]; [by rewrite fn_lookup_insert|].
    rewrite Hne, Pe by done. apply Ct.
  - exact Ow.
  - rewrite E. exact Co.
  - rewrite E. exact Ci.
  - rewrite E. exact Cr.
  - exact Ox.
Qed.

(** Everything but nodes, their indexes and new names. *)
Record frame (T T' : tables) : Prop := {
  fr_edges : edges T' = edges T;
  fr_index : index T' = index T;
  fr_constr : constr T' = constr T;
  fr_relindex : relindex T' = relindex T;
  fr_format : format T' = format T;
  fr_fwd : forall d name id, fwd T (d, name) = Some id -> fwd T' (d, name) = Some id
}.

Lemma frame_steps n T T1 T2 o :
  grows T T1 -> patch n T1 T2 -> frame T (set_nodes o T2).
Proof.
  intros Hg Hp. rewrite (pa_same _ _ _ Hp).
  pose proof (grows_data _ _ Hg) as (_ & Ee & _ & _ & _ & _ & _ & _ & Ex & Ek & Er & Ef).
  split; try done. apply Hg.
Qed.

(** ** Records *)
Lemma deep_norm_idem v : deep_norm (deep_norm v) = deep_norm v.
Proof.
  induction v using value_ind'; try done; cbn [deep_norm]; f_equal; rewrite map_map.
  - apply map_ext_Forall. eapply Forall_impl; [eassumption|]. done.
  - apply map_ext_Forall. eapply Forall_impl; [eassumption|]. intros [k x] Hx. cbn in *. by rewrite Hx.
Qed.

Lemma deep_norm_indexable v : isIndexable v = true -> deep_norm v = v.
Proof. by destruct v. Qed.
Lemma deep_norm_isIndexable v : normalize v = v -> isIndexable (deep_norm v) = isIndexable v.
Proof. by destruct v. Qed.

Lemma indexed_value_norm o :
  (forall v, o = Some v -> normalize v = v) -> indexed_value (deep_norm <$> o) = indexed_value o.
Proof.
  intros Hn. destruct o as [v|]; [|done]. cbn. rewrite deep_norm_isIndexable by auto.
  destruct (isIndexable v) eqn:E; [|done]. by rewrite deep_norm_indexable.
Qed.

Lemma deep_norm_keys (m : list (bytes * value)) : (map (fun kv => (kv.1, deep_norm kv.2)) m).*1 = m.*1.
Proof. induction m as [|[k v] m IH]; cbn; [done|]. by f_equal. Qed.

Lemma deep_norm_value_ok v : value_ok v -> value_ok (deep_norm v).
Proof.
  induction v using value_ind'; cbn [deep_norm value_ok]; try done.
  - rewrite !foldr_and_Forall. intros Hl. apply Forall_fmap. rewrite Forall_forall in *. cbn. auto.
  - intros [Hk Hm]. split; [unfold keys_sorted in *; by rewrite deep_norm_keys|].
    rewrite (foldr_and_Forall (fun kv => bytes_ok kv.1 /\ value_ok kv.2)) in *.
    apply Forall_fmap. rewrite Forall_forall in *. intros [k v] Hin. cbn.
    destruct (Hm _ Hin). split; [done|]. by apply (H (k, v)).
Qed.

Lemma deep_norm_sized v : sized v -> sized (deep_norm v).
Proof.
  induction v using value_ind'; cbn [deep_norm sized]; try done.
  - unfold len. rewrite length_map, !foldr_and_Forall. intros [Hs Hl]. split; [done|].
    apply Forall_fmap. rewrite Forall_forall in *. cbn. auto.
  - unfold len at 1 3. rewrite length_map. intros [Hs Hm]. split; [done|].
    rewrite (foldr_and_Forall (fun kv => len kv.1 < two63 /\ sized kv.2)) in *.
    apply Forall_fmap. rewrite Forall_forall in *. intros [k v] Hin. cbn.
    destruct (Hm _ Hin). split; [done|]. by apply (H (k, v)).
Qed.

Lemma deep_norm_storable v : storable (deep_norm v) = storable v.
Proof.
  induction v using value_ind'; cbn [deep_norm storable]; try done.
  - induction H as [|x l Hx Hl IH]; cbn; [done|]. by rewrite Hx, IH.
  - induction H as [|[k x] l Hx Hl IH]; cbn in *; [done|]. by rewrite Hx, IH.
Qed.

(** New property maps: in range, normalized, without nulls. *)
Definition prop_new (v : value) : Prop := value_in v /\ normalize v = v /\ v <> VNull.
Definition props_new (p : gmap Z value) : Prop := map_Forall (fun k v => u32 k /\ prop_new v) p.

Lemma props_new_in p : props_new p -> props_in p.
Proof. intros H k v Hk. destruct (H k v Hk) as [? [? _]]. done. Qed.

Lemma prop_stored_new v : prop_stored v -> prop_new v.
Proof.
  intros ((Hv & Hs & _) & Hn & Hnull). split; [done|]. split; [|done]. by destruct v.
Qed.

Lemma stored_props_new r : node_stored r -> props_new (Props r).
Proof. intros Hr k v Hk. destruct (ns_props _ Hr k v Hk). split; [done|]. by apply prop_stored_new. Qed.

Lemma stored_norm r : node_stored r -> node_norm r = r.
Proof.
  intros Hr. destruct r as [ls ps]. unfold node_norm. cbn. f_equal; [apply Hr|].
  apply map_eq. intros k. rewrite lookup_fmap. destruct (ps !! k) as [v|] eqn:E; [|done].
  cbn. f_equal. by apply (ns_props _ Hr k v).
Qed.

Lemma stored_storable r : node_stored r -> all_storable (Props r).
Proof. intros Hr k v Hk. by destruct (ns_props _ Hr k v Hk) as [_ ((_ & _ & ?) & _)]. Qed.

Lemma sort_ids_sorted l : StronglySorted Z.le (sort_ids l).
Proof. apply StronglySorted_merge_sort; apply _. Qed.

Lemma sort_ids_idem l : sort_ids (sort_ids l) = sort_ids l.
Proof.
  apply (StronglySorted_unique Z.le); [apply sort_ids_sorted..|]. apply sort_ids_perm.
Qed.

Lemma node_norm_stored r :
  Forall u32 (Labels r) -> NoDup (Labels r) -> props_new (Props r) -> all_storable (Props r) ->
  node_stored (node_norm r).
Proof.
  intros Hl Hn Hp Hs. split; cbn [node_norm Labels Props].
  - by rewrite sort_ids_perm.
  - by rewrite sort_ids_perm.
  - apply sort_ids_idem.
  - intros k v Hk. rewrite lookup_fmap in Hk. destruct (Props r !! k) as [w|] eqn:E; [|done].
    injection Hk as <-. destruct (Hp k w E) as (Hk & (Hv & Hz) & Hno & Hnull). specialize (Hs k w E). cbn in Hs.
    split; [done|]. split; [|split; [apply deep_norm_idem|by destruct w]].
    split; [by apply deep_norm_value_ok|]. split; [by apply deep_norm_sized|]. by rewrite deep_norm_storable.
Qed.

Lemma entry_of_norm r l k : props_new (Props r) -> entry_of (Some (node_norm r)) l k = entry_of (Some r) l k.
Proof.
  intros Hp. unfold entry_of. cbn [node_norm Labels Props].
  rewrite lookup_fmap, indexed_value_norm; [|intros v Hv; by destruct (Hp k v Hv) as (_ & _ & ? & _)].
  apply decide_ext. by rewrite sort_ids_perm.
Qed.

Lemma labels_of_norm r l : labels_of (Some (node_norm r)) l = labels_of (Some r) l.
Proof. unfold labels_of. apply bool_decide_ext. cbn. by rewrite sort_ids_perm. Qed.

(** Writing the record of a patched node. *)
Lemma wp_finish n r T T2 (Q : res unit -> tables -> Prop) :
  consistent T -> patch n T T2 ->
  Forall u32 (Labels r) -> NoDup (Labels r) -> props_new (Props r) ->
  1 <= n <= count T CNode -> Forall (known T DLabel) (Labels r) ->
  (forall k, is_Some (Props r !! k) -> known T DKey k) ->
  (forall l k, ent T2 (l, k, n) = entry_of (Some r) l k) -> (forall l, lab T2 (l, n) = labels_of (Some r) l) ->
  (forall T', consistent T' -> nodes T' = <[n := Some (node_norm r)]> (nodes T) -> frame T T' ->
     all_storable (Props r) -> Q (Ok tt) T') ->
  (~ all_storable (Props r) -> Q (Err ErrUnsupportedType) T2) ->
  wp (putNodeRecord n r) T2 Q.
Proof.
  intros Hc Hp Hl Hnd Hpr Hn HL HK Hent Hlab HQ HE. pose proof (cat_count _ (con_cat _ Hc) CNode).
  apply wp_putNodeRecord; [unfold u64; lia|done|done|by apply props_new_in| |done]. intros Hs. apply HQ; [| | |done].
  - apply (consistent_update n _ T); [done|done| | |].
    + split; [done|]. split; [by apply node_norm_stored|]. cbn [node_norm Labels Props]. split.
      * by rewrite sort_ids_perm.
      * intros k. rewrite lookup_fmap, fmap_is_Some. apply HK.
    + intros l k. by rewrite Hent, entry_of_norm.
    + intros l. by rewrite Hlab, labels_of_norm.
  - by rewrite (pa_same _ _ _ Hp).
  - apply (frame_steps n T T); [apply grows_refl, Hc|done].
Qed.

(** ** SetProperty *)
Lemma known_fwd T d name id : cat_ok T -> fwd T (d, name) = Some id -> known T d id.
Proof. intros Hc Hf. exists name. by apply (cat_inverse _ Hc). Qed.

Lemma node_u64 T n r : consistent T -> nodes T n = Some r -> u64 n.
Proof.
  intros Hc Hr. apply (con_node _ Hc) in Hr as [Hr _]. pose proof (cat_count _ (con_cat _ Hc) CNode).
  unfold u64. lia.
Qed.

(** The labels are not touched by a loop over entries. *)
Lemma no_labels {A} (xs : list A) (T T2 : tables) n :
  (forall l, lab T2 (l, n) = if decide (Exists (fun _ : A => False) xs) then false else lab T (l, n)) ->
  forall l, lab T2 (l, n) = lab T (l, n).
Proof.
  intros Hl l. rewrite Hl. destruct (decide _) as [Hx|]; [|done]. by apply Exists_exists in Hx as (? & _ & []).
Qed.

Lemma prop_new_normalize v : value_in v -> v <> VNull -> prop_new (normalize v).
Proof. intros [Hv Hs] Hn. destruct v; (split; [by split|by split]). Qed.

Lemma deep_norm_normalize v : deep_norm (normalize v) = deep_norm v.
Proof. by destruct v. Qed.

Lemma Forall_elem {A} (P : A -> Prop) l x : Forall P l -> x ∈ l -> P x.
Proof. rewrite Forall_forall. auto. Qed.

Lemma storable_normalize v : storable (normalize v) = storable v.
Proof. by destruct v. Qed.

(** The only node that differs is [n], which is now [o]. *)
Definition node_update (T T' : tables) (n : Z) (o : option NodeRecord) : Prop :=
  forall x, nodes T' x = <[n := o]> (nodes T) x.

Definition SetProperty_post (T : tables) (n : Z) (key : bytes) (v : value) (res : res unit) (T' : tables) : Prop :=
  match res with
  | Ok _ => exists r k, nodes T n = Some r /\ fwd T' (DKey, key) = Some k /\
      consistent T' /\ frame T T' /\
      node_update T T' n (Some (mkNodeRecord (Labels r) (<[k := deep_norm v]> (Props r))))
  | Err ErrNodeNotFound => nodes T n = None
  | Err ErrOutOfIDs => fwd T (DKey, key) = None /\ count T (CDict DKey) = two32 - 1
  | Err ErrConstraintViolation => exists r l k, nodes T n = Some r /\ l ∈ Labels r /\ fwd T (DKey, key) = Some k /\
      conflict T n l k (normalize v)
  | Err ErrUnsupportedType => storable v = false
  | Err _ => False
  end.

Section set_property.
Context (T : tables) (n : Z) (v : value) (r : NodeRecord) (k : Z).
Context (Hc : consistent T) (Hr : nodes T n = Some r) (Hk : u32 k) (HK : known T DKey k).
Context (Hv : prop_new v).

Lemma wp_set_entries (Q : res unit -> tables -> Prop) :
  (forall T2, patch n T T2 -> (forall l, lab T2 (l, n) = lab T (l, n)) ->
     (forall l' k', ent T2 (l', k', n) =
        if decide (l' ∈ Labels r /\ k' = k) then indexed_value (Some v) else ent T (l', k', n)) -> Q (Ok tt) T2) ->
  (forall T' l, l ∈ Labels r -> conflict T n l k v -> Q (Err ErrConstraintViolation) T') ->
  wp (for_each (fun l =>
    match Props r !! k with Some old => delPropEntry l k old n | None => mret tt end ≫= fun _ =>
    putPropEntry l k v n) (Labels r)) T Q.
Proof.
  intros HQ HC. pose proof (node_u64 _ _ _ Hc Hr) as Hn.
  destruct (con_node _ Hc n r Hr) as (_ & Hs & HL & _).
  apply (wp_touch _ _ n T (fun l l' k' => l' = l /\ k' = k) (fun _ _ => indexed_value (Some v))
    (fun _ _ => False) (fun _ => false)); [by apply consistent_entries| |].
  - intros done l todo T1 Exs Hin Hpt [Ht _].
    pose proof (Forall_elem _ _ _ (ns_labels _ Hs) Hin) as Hl. pose proof (Forall_elem _ _ _ HL Hin) as HLl.
    assert (l ∉ done) as Hnin.
    { pose proof (ns_nodup _ Hs) as Hnd. rewrite Exs in Hnd. apply NoDup_app in Hnd as (_ & Hd & _).
      intros Hd'. apply (Hd l Hd'). left. }
    assert (ent T1 (l, k, n) = indexed_value (Props r !! k)) as Hent.
    { rewrite Ht, (con_ent _ Hc), Hr, decide_False; [cbn; by rewrite decide_True|].
      rewrite Exists_exists. by intros (l' & Hl' & -> & _). }
    apply wp_bind.
    assert (forall T1', patch n T T1' -> lab T1' = lab T1 ->
      (forall l' k', (l', k') <> (l, k) -> ent T1' (l', k', n) = ent T1 (l', k', n)) ->
      ent T1' (l, k, n) = None \/ ent T1' (l, k, n) = indexed_value (Some v) ->
      wp (putPropEntry l k v n) T1' (on_ok (fun _ T2 => patch n T T2 /\
        touch n (fun l l' k' => l' = l /\ k' = k) (fun _ _ => indexed_value (Some v)) (fun _ _ => False) (fun _ => false) l T1 T2) Q)) as Hput.
    { intros T1' Hp1 Hlab1 Hne1 He1. apply (wp_put1 l k v n T T1'); try done; [apply Hv| |].
      - intros T2 Hp2 Hlab Hent2. cbn [on_ok]. split; [done|]. split; [|intros; by rewrite Hlab, Hlab1].
        intros l' k'. rewrite Hent2. destruct (decide _) as [|Hd]; [done|]. apply Hne1. intros [= -> ->]. by apply Hd.
      - intros T' Hcf. cbn [on_ok]. eauto. }
    destruct (Props r !! k) as [old|] eqn:Eo.
    + destruct (stored_props_new _ Hs k old Eo) as (_ & [Hov _] & _).
      apply (wp_del1 l k old n T T1); try done; [by right|]. intros T2 Hp2 Hlab Hent2. cbn [on_ok].
      apply Hput; [done|done| |left; rewrite Hent2; by rewrite decide_True].
      intros l' k' Hne. rewrite Hent2, decide_False; [done|]. intros [-> ->]. done.
    + apply wp_ret. cbn [on_ok]. apply Hput; [done|done|done|]. by left.
  - intros T2 Hp2 [Ht Htl]. apply HQ; [done|by eapply no_labels|].
    intros l' k'. rewrite Ht. apply decide_ext. rewrite Exists_exists. naive_solver.
Qed.
End set_property.

Lemma frame_refl T : frame T T.
Proof. by split. Qed.
Lemma frame_trans T1 T2 T3 : frame T1 T2 -> frame T2 T3 -> frame T1 T3.
Proof. intros [] []. split; try congruence. auto. Qed.
Lemma frame_grows T T' : grows T T' -> frame T T'.
Proof. intros Hg. pose proof (grows_data _ _ Hg) as H. split; try apply H. apply Hg. Qed.

Lemma conflict_grows T T' n l k v : grows T T' -> conflict T' n l k v -> conflict T n l k v.
Proof.
  intros Hg. pose proof (grows_data _ _ Hg) as (_ & _ & _ & _ & _ & Et & _ & _ & _ & Ek & _).
  unfold conflict. by rewrite Et, Ek.
Qed.

Lemma nodes_grows T T' : grows T T' -> nodes T' = nodes T.
Proof. intros Hg. by pose proof (grows_data _ _ Hg) as (? & _). Qed.

(** The names a conflict is about were there before the operation. *)
Lemma conflict_named T T' n l k v :
  consistent T -> grows T T' -> conflict T' n l k v ->
  conflict T n l k v /\
  (forall name, fwd T' (DLabel, name) = Some l -> fwd T (DLabel, name) = Some l) /\
  (forall name, fwd T' (DKey, name) = Some k -> fwd T (DKey, name) = Some k).
Proof.
  intros Hc Hg Hcf. apply (conflict_grows _ _ _ _ _ _ Hg) in Hcf. split; [done|].
  destruct Hcf as (_ & n' & v' & _ & _ & He & _). rewrite (con_ent _ Hc) in He.
  apply entry_of_Some in He as (r & Hr & Hl & Hk & _). destruct (con_node _ Hc n' r Hr) as (_ & _ & HL & HK).
  assert (forall d i name, known T d i -> fwd T' (d, name) = Some i -> fwd T (d, name) = Some i) as Hold.
  { intros d i name [nm Hnm] Hf. apply (cat_inverse _ (con_cat _ Hc)) in Hnm.
    pose proof (grow_fwd _ _ Hg _ _ _ Hnm) as Hf2. pose proof (grow_cat _ _ Hg) as Hc'.
    apply (cat_inverse _ Hc') in Hf, Hf2. congruence. }
  split; intros name; apply Hold; [by apply (Forall_elem _ _ _ HL)|apply HK; by rewrite Hk].
Qed.

Lemma wp_SetProperty T n key v :
  consistent T -> u64 n -> value_in v -> v <> VNull ->
  wp (SetProperty n key v) T (SetProperty_post T n key v).
Proof.
  intros Hc Hn Hv Hnull. unfold SetProperty. apply wp_bind, wp_GetNode; [done|].
  destruct (nodes T n) as [r|] eqn:Hr; cbn [on_ok]; [|done].
  apply wp_bind. apply (wp_internDict DKey); [apply Hc| |].
  2: done.
  intros k T1 (Hg & Hf & _). cbn [on_ok]. cbv zeta. cbn [n_rec].
  pose proof (consistent_grows _ _ Hc Hg) as Hc1.
  assert (nodes T1 n = Some r) as Hr1 by (by rewrite (nodes_grows _ _ Hg)).
  pose proof (grow_cat _ _ Hg) as Hcat. pose proof (known_fwd _ _ _ _ Hcat Hf) as HK.
  pose proof (prop_new_normalize v Hv Hnull) as Hpv.
  destruct (con_node _ Hc1 n r Hr1) as (Hn1 & Hs & HL & HKs).
  apply wp_bind. apply wp_set_entries; try done; [by eapply cat_u32| |].
  - intros T2 Hp2 Hlab Hent. cbn [on_ok].
    assert (props_new (<[k := normalize v]> (Props r))) as Hpn.
    { apply map_Forall_insert_2; [split; [by eapply cat_u32|done]|by apply stored_props_new]. }
    rewrite is_null_false by apply Hpv.
    apply (wp_finish n _ T1); try done; cbn [Labels Props].
    + apply Hs.
    + apply Hs.
    + intros k'. rewrite lookup_insert_is_Some. intros [<-|[_ ?]]; auto.
    + intros l k'. rewrite Hent, (con_ent _ Hc1), Hr1. cbn [entry_of Labels Props].
      destruct (decide (l ∈ Labels r)) as [Hin|Hin].
      * destruct (decide (k' = k)) as [->|Hk'].
        -- rewrite decide_True by done. by rewrite lookup_insert_eq.
        -- rewrite decide_False by (by intros [_ ?]). by rewrite lookup_insert_ne.
      * rewrite decide_False by (by intros [? _]). done.
    + intros l. by rewrite Hlab, (con_lab _ Hc1), Hr1.
    + intros T' Hc' Hn' Hfr Hst. cbn [SetProperty_post]. exists r, k. split; [done|].
      split; [by apply (fr_fwd _ _ Hfr)|]. split; [done|].
      split; [eapply frame_trans; [by apply frame_grows|done]|].
      intros x. rewrite Hn', (nodes_grows _ _ Hg). f_equal. do 2 f_equal. unfold node_norm. cbn [Labels Props].
      rewrite fmap_insert, deep_norm_normalize. f_equal; [apply Hs|].
      pose proof (f_equal Props (stored_norm r Hs)) as Hx. cbn in Hx. by rewrite Hx.
    + intros Hst. cbn [SetProperty_post]. destruct (storable v) eqn:Es; [|done]. exfalso. apply Hst.
      apply map_Forall_insert_2; [by rewrite storable_normalize|by apply stored_storable].
  - intros T' l Hl Hcf. cbn [on_ok SetProperty_post]. exists r, l, k. split; [done|]. split; [done|].
    destruct (conflict_named _ _ _ _ _ _ Hc Hg Hcf) as (? & _ & Hkey). auto.
Qed.

(** ** RemoveProperty *)

(** One property, under every label. *)
Section values.
Context (labels : list Z) (k : Z) (v : value) (n : Z) (T T1 : tables) (Q : res unit -> tables -> Prop).
Context (Hl : Forall u32 labels) (Hk : u32 k) (Hn : u64 n) (Hv : value_ok v) (Hp : patch n T T1).
Context (Hent : forall l, l ∈ labels -> ent T1 (l, k, n) = None \/ ent T1 (l, k, n) = indexed_value (Some v)).

Lemma wp_del_value :
  (forall T2, patch n T T2 -> (forall l, lab T2 (l, n) = lab T1 (l, n)) ->
     (forall l' k', ent T2 (l', k', n) =
        if decide (l' ∈ labels /\ k' = k) then None else ent T1 (l', k', n)) -> Q (Ok tt) T2) ->
  wp (del_value n labels k v) T1 Q.
Proof.
  intros HQ. unfold del_value.
  apply (wp_touch _ _ n T1 (fun l l' k' => l' = l /\ k' = k) (fun _ _ => None)
    (fun _ _ => False) (fun _ => false)); [apply Hp| |].
  - intros done l todo T2 _ Hin Hpt [Ht _]. pose proof (Forall_elem _ _ _ Hl Hin) as Hll.
    apply (wp_del1 l k v n T1 T2); try done.
    + rewrite Ht. destruct (decide _); auto.
    + intros T3 Hp3 Hlab Hent3. split; [done|]. split; [done|]. intros l'. by rewrite Hlab.
  - intros T2 Hp2 [Ht Htl]. apply HQ; [by eapply patch_trans|by eapply no_labels|].
    intros l' k'. rewrite Ht. apply decide_ext. rewrite Exists_exists. naive_solver.
Qed.

Lemma wp_put_value :
  Forall (known T DLabel) labels -> known T DKey k ->
  (forall T2, patch n T T2 -> (forall l, lab T2 (l, n) = lab T1 (l, n)) ->
     (forall l' k', ent T2 (l', k', n) =
        if decide (l' ∈ labels /\ k' = k) then indexed_value (Some v) else ent T1 (l', k', n)) -> Q (Ok tt) T2) ->
  (forall T' l, l ∈ labels -> conflict T n l k v -> Q (Err ErrConstraintViolation) T') ->
  wp (for_each (fun l => putPropEntry l k v n) labels) T1 Q.
Proof.
  intros HL HK HQ HC.
  apply (wp_touch _ _ n T1 (fun l l' k' => l' = l /\ k' = k) (fun _ _ => indexed_value (Some v))
    (fun _ _ => False) (fun _ => false)); [apply Hp| |].
  - intros done l todo T2 _ Hin Hpt [Ht _]. pose proof (Forall_elem _ _ _ Hl Hin) as Hll.
    pose proof (Forall_elem _ _ _ HL Hin) as HLl.
    apply (wp_put1 l k v n T1 T2); try done; try (by eapply patch_known).
    + rewrite Ht. destruct (decide _); auto.
    + intros T3 Hp3 Hlab Hent3. split; [done|]. split; [done|]. intros l'. by rewrite Hlab.
    + intros T' Hcf. cbn [on_ok]. apply (HC T' l); [done|]. by eapply patch_conflict.
  - intros T2 Hp2 [Ht Htl]. apply HQ; [by eapply patch_trans|by eapply no_labels|].
    intros l' k'. rewrite Ht. apply decide_ext. rewrite Exists_exists. naive_solver.
Qed.
End values.

Definition RemoveProperty_post (T : tables) (n : Z) (key : bytes) (res : res unit) (T' : tables) : Prop :=
  match res with
  | Ok _ => exists r, nodes T n = Some r /\ consistent T' /\ frame T T' /\
      node_update T T' n (Some (mkNodeRecord (Labels r)
        match fwd T (DKey, key) with Some k => delete k (Props r) | None => Props r end))
  | Err ErrNodeNotFound => nodes T n = None
  | Err _ => False
  end.

Lemma node_update_same T n r : nodes T n = Some r -> node_update T T n (Some (mkNodeRecord (Labels r) (Props r))).
Proof.
  intros Hr x. destruct (decide (x = n)) as [->|]; [|by rewrite fn_lookup_insert_ne].
  rewrite fn_lookup_insert, Hr. by destruct r.
Qed.

Lemma stored_entry T n r l k :
  consistent T -> nodes T n = Some r -> l ∈ Labels r -> ent T (l, k, n) = indexed_value (Props r !! k).
Proof. intros Hc Hr Hl. rewrite (con_ent _ Hc), Hr. cbn. by rewrite decide_True. Qed.

Lemma node_norm_sub r p :
  node_stored r -> p ⊆ Props r -> node_norm (mkNodeRecord (Labels r) p) = mkNodeRecord (Labels r) p.
Proof.
  intros Hs Hp. apply stored_norm. split; try apply Hs. cbn. intros k v Hk.
  apply (ns_props _ Hs k v). by eapply lookup_weaken.
Qed.

Lemma wp_RemoveProperty T n key :
  consistent T -> u64 n -> wp (RemoveProperty n key) T (RemoveProperty_post T n key).
Proof.
  intros Hc Hn. unfold RemoveProperty. apply wp_bind, wp_GetNode; [done|].
  destruct (nodes T n) as [r|] eqn:Hr; cbn [on_ok]; [|done].
  destruct (con_node _ Hc n r Hr) as (Hn1 & Hs & HL & HKs).
  apply wp_bind. apply (wp_lookupDict DKey); [apply Hc|]. cbn [on_ok n_rec]. cbv zeta.
  assert (forall T', consistent T' -> frame T T' -> node_update T T' n (Some (mkNodeRecord (Labels r)
    match fwd T (DKey, key) with Some k => delete k (Props r) | None => Props r end)) ->
    RemoveProperty_post T n key (Ok tt) T') as HQ by (intros; by exists r).
  destruct (fwd T (DKey, key)) as [k|] eqn:Ef.
  2: { apply wp_ret, HQ; [done|apply frame_refl|by apply node_update_same]. }
  destruct (Props r !! k) as [old|] eqn:Eo.
  2: { apply wp_ret, HQ; [done|apply frame_refl|]. rewrite delete_id by done. by apply node_update_same. }
  destruct (stored_props_new _ Hs k old Eo) as (Hk & [Hov _] & _). apply wp_bind.
  apply (wp_del_value _ _ _ _ T); try done; [apply Hs|apply patch_refl; by apply consistent_entries| |].
  { intros l Hl. right. by rewrite (stored_entry T n r l k), Eo. }
  intros T2 Hp2 Hlab Hent. cbn [on_ok].
  assert (delete k (Props r) ⊆ Props r) as Hsub by apply delete_subseteq.
  apply (wp_finish n _ T); try done; cbn [Labels Props]; try apply Hs.
  - intros k' v Hkv. apply (stored_props_new _ Hs). by eapply lookup_weaken.
  - intros k' [v Hkv]. apply HKs. exists v. by eapply lookup_weaken.
  - intros l k'. rewrite Hent, (con_ent _ Hc), Hr. cbn [entry_of Labels Props].
    destruct (decide (l ∈ Labels r)) as [Hin|Hin].
    + destruct (decide (k' = k)) as [->|Hk'].
      * rewrite decide_True by done. by rewrite lookup_delete_eq.
      * rewrite decide_False by (by intros [_ ?]). by rewrite lookup_delete_ne.
    + rewrite decide_False by (by intros [? _]). done.
  - intros l. by rewrite Hlab, (con_lab _ Hc), Hr.
  - intros T' Hc' Hn' Hfr Hst. apply HQ; [done|done|]. intros x. by rewrite Hn', node_norm_sub.
  - intros Hst. exfalso. apply Hst. intros k' v Hkv. apply (stored_storable _ Hs k' v). by eapply lookup_weaken.
Qed.

(** ** Adding and removing labels *)
Section labels.
Context `{MapOrder} (props : gmap Z value) (n : Z) (T : tables) (Q : res unit -> tables -> Prop).
Context (Hn : u64 n) (Hp : props_in props).

Lemma wp_Set_label l T1 (Q' : res unit -> tables -> Prop) :
  u32 l -> Q' (Ok tt) (set_lab (<[(l, n) := true]> (lab T1)) T1) -> wp (Set_ (LabelKey l n) []) T1 Q'.
Proof.
  intros Hl HQ. eapply (wp_Set _ (KLabel l n)); [done| | |exact HQ].
  - cbn. by rewrite fn_lookup_insert.
  - other_cells.
Qed.

Lemma wp_Delete_label l T1 (Q' : res unit -> tables -> Prop) :
  u32 l -> Q' (Ok tt) (set_lab (<[(l, n) := false]> (lab T1)) T1) -> wp (Delete (LabelKey l n)) T1 Q'.
Proof.
  intros Hl HQ. eapply (wp_Delete _ (KLabel l n)); [done| | |exact HQ].
  - cbn. by rewrite fn_lookup_insert.
  - other_cells.
Qed.

Lemma wp_add_labels ls :
  Forall u32 ls -> Forall (known T DLabel) ls -> (forall k, is_Some (props !! k) -> known T DKey k) ->
  entries_ok T ->
  (forall l k, l ∈ ls -> ent T (l, k, n) = None \/ ent T (l, k, n) = indexed_value (props !! k)) ->
  (forall T2, patch n T T2 ->
     (forall l, lab T2 (l, n) = if decide (l ∈ ls) then true else lab T (l, n)) ->
     (forall l k, ent T2 (l, k, n) =
        if decide (l ∈ ls /\ is_Some (props !! k)) then indexed_value (props !! k) else ent T (l, k, n)) ->
     Q (Ok tt) T2) ->
  (forall T' l k v, l ∈ ls -> props !! k = Some v -> conflict T n l k v -> Q (Err ErrConstraintViolation) T') ->
  wp (for_each (fun l => Set_ (LabelKey l n) [] ≫= fun _ => put_entries l props n) ls) T Q.
Proof.
  intros Hls HL HK He Hent HQ HC.
  apply (wp_touch _ _ n T (fun l l' k' => l' = l /\ is_Some (props !! k')) (fun _ k' => indexed_value (props !! k'))
    (fun l l' => l' = l) (H0 := fun x l => Z.eq_dec l x) (fun _ => true)); [done| |].
  - intros done l todo T1 _ Hin Hpt [Ht _]. pose proof (Forall_elem _ _ _ Hls Hin) as Hl.
    pose proof (Forall_elem _ _ _ HL Hin) as HLl. apply wp_bind, wp_Set_label; [done|]. cbn [on_ok].
    set (T1' := set_lab _ T1). assert (patch n T T1') as Hp1 by (by apply patch_lab).
    apply wp_put_entries; try done; [apply Hp1| | | | |].
    + intros k. change (ent T1') with (ent T1). rewrite Ht. destruct (decide _); auto.
    + by eapply patch_known.
    + intros k Hk. eapply patch_known; [done|]. auto.
    + intros T2 Hp2 Hlab Hent2. cbn [on_ok]. split; [by eapply patch_trans|]. split; [exact Hent2|].
      intros l'. rewrite Hlab. cbn. destruct (decide (l' = l)) as [->|]; [by rewrite fn_lookup_insert|].
      by rewrite fn_lookup_insert_ne by congruence.
    + intros T' k v Hkv Hcf. cbn [on_ok]. eapply HC; [done|done|]. by eapply patch_conflict.
  - intros T2 Hp2 [Ht Htl]. apply HQ; [done| |].
    + intros l. rewrite Htl. apply decide_ext. rewrite Exists_exists. naive_solver.
    + intros l k. rewrite Ht. apply decide_ext. rewrite Exists_exists. naive_solver.
Qed.

Lemma wp_del_label l T1 (Q' : res unit -> tables -> Prop) :
  u32 l -> patch n T T1 ->
  (forall k, ent T1 (l, k, n) = None \/ ent T1 (l, k, n) = indexed_value (props !! k)) ->
  (forall T2, patch n T T2 ->
     (forall l', lab T2 (l', n) = if decide (l' = l) then false else lab T1 (l', n)) ->
     (forall l' k, ent T2 (l', k, n) =
        if decide (l' = l /\ is_Some (props !! k)) then None else ent T1 (l', k, n)) -> Q' (Ok tt) T2) ->
  wp (Delete (LabelKey l n) ≫= fun _ => del_entries l props n) T1 Q'.
Proof.
  intros Hl Hpt Hent HQ. apply wp_bind, wp_Delete_label; [done|]. cbn [on_ok].
  set (T1' := set_lab _ T1). assert (patch n T T1') as Hp1 by (by apply patch_lab).
  apply wp_del_entries; try done; [apply Hp1|].
  intros T2 Hp2 Hlab Hent2. apply HQ; [by eapply patch_trans| |exact Hent2].
  intros l'. rewrite Hlab. cbn. destruct (decide (l' = l)) as [->|]; [by rewrite fn_lookup_insert|].
  by rewrite fn_lookup_insert_ne by congruence.
Qed.
End labels.

(** *** Interning a list of label names *)
Definition resolved (T : tables) (d : dict) (names : list bytes) (ids : list Z) : Prop :=
  Forall2 (fun name id => fwd T (d, name) = Some id) names ids.

Lemma resolved_mono T T' d names ids :
  (forall d name id, fwd T (d, name) = Some id -> fwd T' (d, name) = Some id) ->
  resolved T d names ids -> resolved T' d names ids.
Proof. intros Hf Hr. eapply Forall2_impl; [exact Hr|]. cbn. auto. Qed.

Lemma resolved_known T d names ids :
  cat_ok T -> resolved T d names ids -> Forall u32 ids /\ Forall (known T d) ids.
Proof.
  intros Hc Hr. induction Hr as [|name id names ids Hf Hr [IH1 IH2]]; [done|].
  split; constructor; try done; [by eapply cat_u32|by eapply known_fwd].
Qed.

Lemma resolved_elem T d names ids id : resolved T d names ids -> id ∈ ids -> exists name, name ∈ names /\ fwd T (d, name) = Some id.
Proof.
  intros Hr Hin. induction Hr as [|name i names ids Hf Hr IH]; [by apply elem_of_nil in Hin|].
  apply elem_of_cons in Hin as [->|Hin]; [exists name; split; [left|done]|].
  destruct (IH Hin) as (nm & ? & ?). exists nm. split; [by right|done].
Qed.

Lemma wp_intern_new T existing added names (Q : res (list Z) -> tables -> Prop) :
  cat_ok T -> NoDup added -> (forall l, l ∈ added -> l ∈ existing) ->
  (forall out ids T', grows T T' -> resolved T' DLabel names ids -> NoDup out ->
     (forall l, l ∈ out <-> l ∈ added \/ l ∈ ids /\ l ∉ existing) -> used DLabel (len names) T T' -> Q (Ok out) T') ->
  (no_room T DLabel (len names) -> forall T', Q (Err ErrOutOfIDs) T') ->
  wp (intern_new existing added names) T Q.
Proof.
  revert T existing added Q. induction names as [|name names IH]; intros T existing added Q Hc Hnd Hsub HQ HE.
  - apply wp_ret. apply (HQ added []); [by apply grows_refl|constructor|done| |by apply used_refl]. set_solver.
  - assert (len (name :: names) = 1 + len names) as El by (unfold len; cbn [length]; lia). rewrite El in HE.
    assert (0 <= len names) by (unfold len; lia).
    cbn [intern_new]. apply wp_bind. apply (wp_internDict DLabel); [done| |].
    2: { intros _ Hfull T'. cbn [on_ok]. apply HE. unfold no_room. lia. }
    intros id T1 (Hg & Hf & _ & Hused). cbn [on_ok]. pose proof (grow_cat _ _ Hg) as Hc1.
    assert (no_room T1 DLabel (len names) -> forall T', Q (Err ErrOutOfIDs) T') as HE1.
    { intros Hfull. apply HE. pose proof (used_same _ _ _ _ Hused). unfold no_room in *. lia. }
    assert (forall ids T', grows T1 T' -> used DLabel (len names) T1 T' -> resolved T' DLabel names ids ->
      resolved T' DLabel (name :: names) (id :: ids) /\ grows T T' /\ used DLabel (len (name :: names)) T T') as Hcons.
    { intros ids T' Hg' Hus Hr. split; [constructor; [by apply (grow_fwd _ _ Hg')|done]|].
      split; [by eapply grows_trans|rewrite El; by eapply used_trans]. }
    case_bool_decide as Hin.
    + apply IH; [done|done|done| |done]. intros out ids T' Hg' Hr Hnd' Hout Hus.
      destruct (Hcons ids T' Hg' Hus Hr) as (? & ? & ?). apply (HQ out (id :: ids)); [done|done|done| |done].
      intros l. rewrite Hout, elem_of_cons. naive_solver.
    + apply IH; [done| | | |done].
      * apply NoDup_app. split; [done|]. split; [|apply NoDup_singleton].
        intros x Hx ->%list_elem_of_singleton. auto.
      * intros l. rewrite elem_of_app, list_elem_of_singleton, elem_of_cons. naive_solver.
      * intros out ids T' Hg' Hr Hnd' Hout Hus. destruct (Hcons ids T' Hg' Hus Hr) as (? & ? & ?).
        apply (HQ out (id :: ids)); [done|done|done| |done].
        intros l. rewrite Hout, elem_of_app, list_elem_of_singleton, !elem_of_cons.
        destruct (decide (l = id)) as [->|]; naive_solver.
Qed.

(** The labels of [r'] are those of [r] and [ids]. *)
Definition labels_added (r r' : NodeRecord) (ids : list Z) : Prop :=
  Props r' = Props r /\ forall l, l ∈ Labels r' <-> l ∈ Labels r \/ l ∈ ids.
Definition labels_removed (r r' : NodeRecord) (gone : Z -> Prop) : Prop :=
  Props r' = Props r /\ forall l, l ∈ Labels r' <-> l ∈ Labels r /\ ~ gone l.

Definition AddLabels_post (T : tables) (n : Z) (labels : list bytes) (res : res unit) (T' : tables) : Prop :=
  match res with
  | Ok _ => consistent T' /\ frame T T' /\
      ((labels = [] /\ forall x, nodes T' x = nodes T x) \/
       exists r r' ids, nodes T n = Some r /\ resolved T' DLabel labels ids /\
         node_update T T' n (Some r') /\ labels_added r r' ids)
  | Err ErrNodeNotFound => nodes T n = None
  | Err ErrOutOfIDs => no_room T DLabel (len labels)
  | Err ErrConstraintViolation => exists r name l k v, nodes T n = Some r /\ l ∉ Labels r /\
      name ∈ labels /\ fwd T (DLabel, name) = Some l /\ Props r !! k = Some v /\ conflict T n l k v
  | Err _ => False
  end.

Lemma decide_or_in l1 l2 (l : Z) : bool_decide (l ∈ l1 ++ l2) = bool_decide (l ∈ l2) || bool_decide (l ∈ l1).
Proof. repeat case_bool_decide; cbn; try done; set_solver. Qed.

Lemma wp_AddLabels `{MapOrder} T n labels :
  consistent T -> u64 n -> wp (AddLabels n labels) T (AddLabels_post T n labels).
Proof.
  intros Hc Hn. unfold AddLabels. destruct labels as [|name names].
  { apply wp_ret. cbn. split; [done|]. split; [apply frame_refl|by left]. }
  set (labels := name :: names). apply wp_bind, wp_GetNode; [done|].
  destruct (nodes T n) as [r|] eqn:Hr; cbn [on_ok n_rec]; [|done]. cbv zeta.
  apply wp_bind, wp_intern_new; [apply Hc|constructor|by intros l ?%elem_of_nil| |done].
  intros added ids T1 Hg Hres Hnd Hin _. cbn [on_ok].
  pose proof (consistent_grows _ _ Hc Hg) as Hc1.
  assert (nodes T1 n = Some r) as Hr1 by (by rewrite (nodes_grows _ _ Hg)).
  destruct (con_node _ Hc1 n r Hr1) as (Hn1 & Hs & HL & HKs).
  destruct (resolved_known _ _ _ _ (grow_cat _ _ Hg) Hres) as [Hu Hk].
  assert (forall l, l ∈ added <-> l ∈ ids /\ l ∉ Labels r) as Hadd by (intros l; rewrite Hin; set_solver).
  assert (forall l, l ∈ ids -> u32 l /\ known T1 DLabel l) as Hids.
  { intros l Hl. split; [by apply (Forall_elem _ _ _ Hu)|by apply (Forall_elem _ _ _ Hk)]. }
  destruct added as [|a added'] eqn:Ea.
  { apply wp_ret. cbn. split; [done|]. split; [by apply frame_grows|]. right. exists r, r, ids.
    split; [done|]. split; [done|]. split.
    - intros x. rewrite (nodes_grows _ _ Hg). destruct (decide (x = n)) as [->|]; [by rewrite fn_lookup_insert|].
      by rewrite fn_lookup_insert_ne.
    - split; [done|]. intros l. split; [auto|]. intros [?|Hl]; [done|].
      destruct (decide (l ∈ Labels r)); [done|]. destruct (not_elem_of_nil l). by apply Hadd. }
  rewrite <- Ea in *. clear Ea a added'. apply wp_bind.
  apply wp_add_labels; try done.
  - by apply props_new_in, stored_props_new.
  - apply Forall_forall. intros l [Hl _]%Hadd. by apply Hids.
  - apply Forall_forall. intros l [Hl _]%Hadd. by apply Hids.
  - by apply consistent_entries.
  - intros l k [_ Hl]%Hadd. left. rewrite (con_ent _ Hc1), Hr1. cbn. by rewrite decide_False.
  - intros T2 Hp2 Hlab Hent. cbn [on_ok].
    apply (wp_finish n _ T1); try done; cbn [Labels Props].
    + apply Forall_app. split; [apply Hs|]. apply Forall_forall. intros l [Hl _]%Hadd. by apply Hids.
    + apply NoDup_app. split; [apply Hs|]. split; [|done]. intros l Hl [_ Hl']%Hadd. done.
    + by apply stored_props_new.
    + apply Forall_app. split; [done|]. apply Forall_forall. intros l [Hl _]%Hadd. by apply Hids.
    + intros l k. rewrite Hent, (con_ent _ Hc1), Hr1. cbn [entry_of Labels Props].
      destruct (decide (l ∈ added)) as [Hla|Hla].
      * rewrite (decide_True (P := l ∈ Labels r ++ added)) by set_solver.
        destruct (decide (l ∈ added /\ is_Some (Props r !! k))) as [|Hno]; [done|].
        destruct (Props r !! k) eqn:E; [exfalso; apply Hno; by split|].
        destruct (decide (l ∈ Labels r)); done.
      * rewrite decide_False by (by intros [? _]). apply decide_ext. set_solver.
    + intros l. rewrite Hlab, (con_lab _ Hc1), Hr1. cbn [labels_of Labels]. rewrite decide_or_in.
      destruct (decide (l ∈ added)) as [Hla|Hla]; [by rewrite (bool_decide_true _ Hla)|].
      by rewrite (bool_decide_false _ Hla).
    + intros T' Hc' Hn' Hfr Hst. cbn [AddLabels_post]. split; [done|].
      split; [eapply frame_trans; [by apply frame_grows|done]|]. right.
      exists r, (node_norm (mkNodeRecord (Labels r ++ added) (Props r))), ids. split; [done|]. split.
      { eapply resolved_mono; [apply Hfr|done]. } split.
      { intros x. by rewrite Hn', (nodes_grows _ _ Hg). }
      split; cbn [node_norm Labels Props].
      * by pose proof (f_equal Props (stored_norm r Hs)).
      * intros l. rewrite sort_ids_perm, elem_of_app, Hadd. destruct (decide (l ∈ Labels r)); naive_solver.
    + intros Hst. exfalso. by apply Hst, stored_storable.
  - intros T' l k v [Hli Hl]%Hadd Hkv Hcf. cbn. destruct (conflict_named _ _ _ _ _ _ Hc Hg Hcf) as (? & HLn & _).
    destruct (resolved_elem _ _ _ _ _ Hres Hli) as (name' & Hname & Hfn). exists r, name', l, k, v. split_and!; auto.
Qed.
