(* ===== verification/NodeUpdates.v ===== *)
(** * NodeUpdates: the remaining operations on nodes

    RemoveLabels, SetNodeProperties, CreateNode and DeleteNode of
    src/internal/graph/crud.go, with the method of NodeOps.v. *)
From S2P Require Import Prelude Float64 Values IndexCodec Keys Records Storage Catalog Graph Tables GraphInv NodeOps.

(** ** RemoveLabels *)
Definition named (T : tables) (d : dict) (names : list bytes) (id : Z) : Prop :=
  exists name, name ∈ names /\ fwd T (d, name) = Some id.

Lemma wp_lookup_labels T names (Q : res (list Z) -> tables -> Prop) :
  cat_ok T -> (forall ids, (forall l, l ∈ ids <-> named T DLabel names l) -> Q (Ok ids) T) ->
  wp (lookup_labels names) T Q.
Proof.
  intros Hc HQ. unfold lookup_labels.
  apply (wp_fold _ _ (fun done ids T' => T' = T /\ forall l, l ∈ ids <-> named T DLabel done l)).
  - split; [done|]. intros l. split; [by intros ?%elem_of_nil|by intros (? & ?%elem_of_nil & _)].
  - intros done name todo ids T' _ [-> Hids]. apply wp_bind, (wp_lookupDict DLabel); [done|]. apply wp_ret.
    cbn [on_ok]. split; [done|]. intros l. unfold named in *.
    destruct (fwd T (DLabel, name)) as [id|] eqn:Ef; rewrite ?elem_of_cons, Hids.
    + split.
      * intros [->|(nm & Hin & Hf)]; [exists name|exists nm]; (split; [set_solver|done]).
      * intros (nm & Hin & Hf). apply elem_of_app in Hin as [Hin|Hin%list_elem_of_singleton]; [eauto|].
        left. congruence.
    + split.
      * intros (nm & Hin & Hf). exists nm. split; [set_solver|done].
      * intros (nm & Hin & Hf). apply elem_of_app in Hin as [Hin|Hin%list_elem_of_singleton]; [eauto|congruence].
  - intros ids T' [-> Hids]. by apply HQ.
Qed.

Definition RemoveLabels_post (T : tables) (n : Z) (labels : list bytes) (res : res unit) (T' : tables) : Prop :=
  match res with
  | Ok _ => consistent T' /\ frame T T' /\
      ((labels = [] /\ forall x, nodes T' x = nodes T x) \/
       exists r r', nodes T n = Some r /\ node_update T T' n (Some r') /\
         labels_removed r r' (named T DLabel labels))
  | Err ErrNodeNotFound => nodes T n = None
  | Err _ => False
  end.

Section remove_labels.
Context `{MapOrder} (T : tables) (n : Z) (r : NodeRecord) (gone : list Z).
Context (Hc : consistent T) (Hr : nodes T n = Some r).

Definition removed (done : list Z) (kept : list Z) (T' : tables) : Prop :=
  kept = filter (fun l => l ∉ gone) done /\ patch n T T' /\
  (forall l, lab T' (l, n) = if decide (l ∈ done /\ l ∈ gone) then false else lab T (l, n)) /\
  (forall l k, ent T' (l, k, n) = if decide (l ∈ done /\ l ∈ gone) then None else ent T (l, k, n)).

Lemma wp_remove_labels (Q : res (list Z) -> tables -> Prop) :
  (forall T2, removed (Labels r) (filter (fun l => l ∉ gone) (Labels r)) T2 ->
     Q (Ok (filter (fun l => l ∉ gone) (Labels r))) T2) ->
  wp (fold_prog (fun kept id =>
        if bool_decide (id ∈ gone) then
          Delete (LabelKey id n) ≫= fun _ => del_entries id (Props r) n ≫= fun _ => mret kept
        else mret (kept ++ [id])) [] (Labels r)) T Q.
Proof.
  intros HQ. pose proof (node_u64 _ _ _ Hc Hr) as Hn. destruct (con_node _ Hc n r Hr) as (_ & Hs & _).
  apply (wp_fold _ _ removed).
  - split; [done|]. split; [by apply patch_refl, consistent_entries|].
    split; intros; rewrite decide_False; try done; by intros [?%elem_of_nil _].
  - intros done l todo kept T1 Exs (-> & Hp & Hlab & Hent).
    assert (l ∈ Labels r) as Hin by (rewrite Exs; set_solver).
    assert (u32 l) as Hl by (by apply (Forall_elem _ _ _ (ns_labels _ Hs))).
    assert (l ∉ done) as Hnin.
    { pose proof (ns_nodup _ Hs) as Hnd. rewrite Exs in Hnd. apply NoDup_app in Hnd as (_ & Hd & _).
      intros Hd'. apply (Hd l Hd'). left. }
    case_bool_decide as Hg.
    + assert (forall Q', wp ((Delete (LabelKey l n) ≫= fun _ => del_entries l (Props r) n) ≫= fun _ =>
        mret (filter (fun l => l ∉ gone) done)) T1 Q' ->
        wp (Delete (LabelKey l n) ≫= fun _ => del_entries l (Props r) n ≫= fun _ =>
        mret (filter (fun l => l ∉ gone) done)) T1 Q') as Hassoc by (intros Q'; exact id).
      apply Hassoc, wp_bind, (wp_del_label (Props r) n T); try done.
      * by apply props_new_in, stored_props_new.
      * intros k. right. rewrite Hent, decide_False by (by intros [? _]). by apply stored_entry.
      * intros T2 Hp2 Hlab2 Hent2. cbn [on_ok]. apply wp_ret. cbn [on_ok].
        split; [rewrite filter_app, filter_cons_False, filter_nil, app_nil_r; [done|tauto]|].
        split; [done|]. split.
        -- intros l'. rewrite Hlab2, Hlab. destruct (decide (l' = l)) as [->|Hne].
           ++ rewrite decide_True by set_solver. done.
           ++ apply decide_ext. set_solver.
        -- intros l' k. rewrite Hent2, Hent. destruct (decide (l' = l)) as [->|Hne].
           ++ rewrite (decide_False (P := l ∈ done /\ _)) by (by intros [? _]).
              rewrite (decide_True (P := l ∈ done ++ [l] /\ _)) by set_solver.
              destruct (decide _) as [|Hno]; [done|]. rewrite (stored_entry T n r l k) by done.
              destruct (Props r !! k) eqn:E; [exfalso; apply Hno; by split|done].
           ++ rewrite decide_False by (by intros [? _]). apply decide_ext. set_solver.
    + apply wp_ret. cbn [on_ok]. split; [by rewrite filter_app, filter_cons_True, filter_nil|].
      split; [done|]. split; intros; [rewrite Hlab|rewrite Hent]; apply decide_ext; set_solver.
  - intros kept T' Hrm. destruct (Hrm) as (-> & _). by apply HQ.
Qed.
End remove_labels.

Lemma wp_RemoveLabels `{MapOrder} T n labels :
  consistent T -> u64 n -> wp (RemoveLabels n labels) T (RemoveLabels_post T n labels).
Proof.
  intros Hc Hn. unfold RemoveLabels. destruct labels as [|name names].
  { apply wp_ret. cbn. split; [done|]. split; [apply frame_refl|by left]. }
  set (labels := name :: names). apply wp_bind, wp_GetNode; [done|].
  destruct (nodes T n) as [r|] eqn:Hr; cbn [on_ok n_rec]; [|done]. cbv zeta.
  destruct (con_node _ Hc n r Hr) as (Hn1 & Hs & HL & HKs).
  apply wp_bind, wp_lookup_labels; [apply Hc|]. intros gone Hgone. cbn [on_ok].
  destruct gone as [|g gone'] eqn:Eg.
  { apply wp_ret. cbn. split; [done|]. split; [apply frame_refl|]. right. exists r, r. split; [done|].
    split.
    - intros x. destruct (decide (x = n)) as [->|]; [by rewrite fn_lookup_insert|by rewrite fn_lookup_insert_ne].
    - split; [done|]. intros l. split; [|by intros [? _]]. intros Hl. split; [done|]. intros Hx%Hgone. set_solver. }
  rewrite <- Eg in *. clear Eg g gone'. apply wp_bind, wp_remove_labels; [done|done|].
  intros T2 (_ & Hp2 & Hlab & Hent). cbn [on_ok]. set (kept := filter _ (Labels r)).
  assert (forall l, l ∈ kept <-> l ∈ Labels r /\ l ∉ gone) as Hkept.
  { intros l. unfold kept. rewrite list_elem_of_filter. tauto. }
  apply (wp_finish n _ T); try done; cbn [Labels Props].
  - apply Forall_forall. intros l [Hl _]%Hkept. by apply (Forall_elem _ _ _ (ns_labels _ Hs)).
  - apply NoDup_filter, Hs.
  - by apply stored_props_new.
  - apply Forall_forall. intros l [Hl _]%Hkept. by apply (Forall_elem _ _ _ HL).
  - intros l k. rewrite Hent, (con_ent _ Hc), Hr. cbn [entry_of Labels Props].
    destruct (decide (l ∈ Labels r)) as [Hl|Hl].
    + destruct (decide (l ∈ gone)) as [Hg|Hg].
      * rewrite decide_True by done. rewrite decide_False; [done|]. rewrite Hkept. tauto.
      * rewrite decide_False by (by intros [_ ?]). rewrite decide_True; [done|]. by rewrite Hkept.
    + rewrite decide_False by (by intros [? _]). rewrite decide_False; [done|]. rewrite Hkept. tauto.
  - intros l. rewrite Hlab, (con_lab _ Hc), Hr. cbn [labels_of Labels].
    destruct (decide (l ∈ Labels r /\ l ∈ gone)) as [Hd|Hd].
    + symmetry. apply bool_decide_false. rewrite Hkept. tauto.
    + apply bool_decide_ext. rewrite Hkept. destruct (decide (l ∈ gone)); tauto.
  - intros T' Hc' Hn' Hfr Hst. cbn [RemoveLabels_post]. split; [done|]. split; [done|]. right.
    exists r, (node_norm (mkNodeRecord kept (Props r))). split; [done|]. split; [intros x; by rewrite Hn'|].
    split; cbn [node_norm Labels Props].
    + by pose proof (f_equal Props (stored_norm r Hs)).
    + intros l. rewrite sort_ids_perm, Hkept, Hgone. done.
  - intros Hst. exfalso. by apply Hst, stored_storable.
Qed.

(** ** Interning property names *)

(** [d] is [props] with its names resolved and its values normalized. *)
Record names_ok (T : tables) (props : list (bytes * value)) (d : gmap Z value) : Prop := {
  no_iff : forall k v, d !! k = Some v <->
    exists name w, (name, w) ∈ props /\ fwd T (DKey, name) = Some k /\ v = normalize w;
  no_known : forall name w, (name, w) ∈ props -> is_Some (fwd T (DKey, name))
}.

Lemma names_ok_perm T p p' d : p ≡ₚ p' -> names_ok T p d -> names_ok T p' d.
Proof. intros Hp [H1 H2]. split; [setoid_rewrite <- Hp|setoid_rewrite <- Hp]; done. Qed.

Lemma names_ok_mono T T' p d :
  (forall d name id, fwd T (d, name) = Some id -> fwd T' (d, name) = Some id) ->
  names_ok T p d -> names_ok T' p d.
Proof.
  intros Hf [H1 H2]. split.
  - intros k v. rewrite H1. split; intros (name & w & Hin & Hk & ->); exists name, w; (split; [done|]; split; [|done]).
    + by apply Hf.
    + destruct (H2 name w Hin) as [k' Hk']. pose proof (Hf _ _ _ Hk'). congruence.
  - intros name w Hin. destruct (H2 name w Hin) as [k' Hk']. exists k'. by apply Hf.
Qed.

Lemma names_ok_nil T : names_ok T [] ∅.
Proof. split; [intros k v; rewrite lookup_empty; split; [done|]|]; [intros (? & ? & ?%elem_of_nil & _)|intros ? ? ?%elem_of_nil]; done. Qed.

Lemma names_ok_snoc T T' p d name v id :
  names_ok T p d -> interned DKey name id T T' -> name ∉ p.*1 ->
  names_ok T' (p ++ [(name, v)]) (<[id := normalize v]> d).
Proof.
  intros Hp (Hg & Hf & _) Hnew. pose proof (names_ok_mono T T' p d (grow_fwd _ _ Hg) Hp) as [H1 H2].
  pose proof (grow_cat _ _ Hg) as Hc. split.
  - intros k w. destruct (decide (k = id)) as [->|Hk].
    + rewrite lookup_insert_eq. split.
      * intros [= <-]. exists name, v. split; [set_solver|done].
      * intros (nm & x & Hin & Hfx & ->). apply elem_of_app in Hin as [Hin|Hin%list_elem_of_singleton]; [|by injection Hin as -> ->].
        apply (cat_inverse _ Hc) in Hf, Hfx. assert (nm = name) as -> by congruence.
        exfalso. apply Hnew. apply list_elem_of_fmap. by exists (name, x).
    + rewrite lookup_insert_ne by done. rewrite H1. split; intros (nm & x & Hin & Hfx & ->); exists nm, x.
      * split; [set_solver|done].
      * apply elem_of_app in Hin as [Hin|Hin%list_elem_of_singleton]; [done|]. injection Hin as -> ->. congruence.
  - intros nm w. rewrite elem_of_app, list_elem_of_singleton. intros [Hin|[= -> ->]]; [by eapply H2|by rewrite Hf].
Qed.

Section interning.
Context `{MapOrder} (T : tables) (props : list (bytes * value)) (Hc : cat_ok T) (Hnd : NoDup props.*1).

Lemma range_names_fresh done kv todo : range_names props = done ++ kv :: todo -> kv.1 ∉ done.*1.
Proof.
  intros E. assert (NoDup (range_names props).*1) as Hn by (by rewrite range_names_perm).
  rewrite E, fmap_app in Hn. apply NoDup_app in Hn as (_ & Hd & _). intros Hin. apply (Hd _ Hin). cbn. left.
Qed.

Lemma range_names_len done kv todo : range_names props = done ++ kv :: todo -> len done + 1 <= len props.
Proof.
  intros E. assert (length (range_names props) = length props) as El by (by rewrite range_names_perm).
  rewrite E, length_app in El. cbn in El. unfold len. lia.
Qed.

Lemma no_room_after done kv todo T' :
  range_names props = done ++ kv :: todo -> used DKey (len done) T T' -> count T' (CDict DKey) = two32 - 1 ->
  no_room T DKey (len props).
Proof.
  intros E%range_names_len Hu Hfull. pose proof (used_same _ _ _ _ Hu). unfold no_room. lia.
Qed.

Lemma used_snoc {A} (done : list A) (x : A) T1 T2 : used DKey (len done) T T1 -> used DKey 1 T1 T2 -> used DKey (len (done ++ [x])) T T2.
Proof.
  intros H1 H2. replace (len (done ++ [x])) with (len done + 1) by (unfold len; rewrite length_app; cbn; lia).
  by eapply used_trans.
Qed.

Lemma wp_intern_desired (Q : res (gmap Z value) -> tables -> Prop) :
  (forall d T', grows T T' -> names_ok T' props d -> Q (Ok d) T') ->
  (no_room T DKey (len props) -> forall T', Q (Err ErrOutOfIDs) T') ->
  wp (intern_desired props) T Q.
Proof.
  intros HQ HE. unfold intern_desired.
  apply (wp_fold _ _ (fun done d T' => grows T T' /\ used DKey (len done) T T' /\ names_ok T' done d)).
  - split_and!; [by apply grows_refl|by apply used_refl|apply names_ok_nil].
  - intros done [name v] todo d T1 E (Hg & Hu & Hn). cbn [fst snd]. apply wp_bind.
    apply (wp_internDict DKey); [apply Hg| |intros _ Hfull T'; cbn [on_ok]; by eapply HE, no_room_after].
    intros id T2 Hi. apply wp_ret. cbn [on_ok].
    split; [eapply grows_trans; [done|apply Hi]|]. split; [by eapply used_snoc, Hi|]. eapply names_ok_snoc; [done|done|].
    by apply (range_names_fresh _ _ _ E).
  - intros d T' (Hg & _ & Hn). apply HQ; [done|]. eapply names_ok_perm; [apply range_names_perm|done].
Qed.

Definition non_null (kv : bytes * value) : Prop := kv.2 <> VNull.

Lemma wp_internProps (Q : res (gmap Z value) -> tables -> Prop) :
  (forall d T', grows T T' -> names_ok T' (filter non_null props) d -> Q (Ok d) T') ->
  (no_room T DKey (len props) -> forall T', Q (Err ErrOutOfIDs) T') ->
  wp (internProps props) T Q.
Proof.
  intros HQ HE. unfold internProps.
  apply (wp_fold _ _ (fun done d T' => grows T T' /\ used DKey (len done) T T' /\ names_ok T' (filter non_null done) d)).
  - split_and!; [by apply grows_refl|by apply used_refl|apply names_ok_nil].
  - intros done [name v] todo d T1 E (Hg & Hu & Hn). cbn [fst snd].
    destruct (decide (v = VNull)) as [->|Hv].
    { apply wp_ret. cbn [on_ok]. split; [done|]. split; [by eapply used_snoc, used_refl|]. rewrite filter_app, filter_cons_False, filter_nil, app_nil_r; [done|].
      by intros Hx. }
    rewrite is_null_false by done. apply wp_bind.
    apply (wp_internDict DKey); [apply Hg| |intros _ Hfull T'; cbn [on_ok]; by eapply HE, no_room_after].
    intros id T2 Hi. apply wp_ret. cbn [on_ok].
    split; [eapply grows_trans; [done|apply Hi]|]. split; [by eapply used_snoc, Hi|]. rewrite filter_app, filter_cons_True, filter_nil by done.
    eapply names_ok_snoc; [done|done|]. intros Hin. apply (range_names_fresh _ _ _ E). cbn [fst].
    apply list_elem_of_fmap in Hin as (x & -> & [_ Hx]%list_elem_of_filter). apply list_elem_of_fmap. by exists x.
  - intros d T' (Hg & _ & Hn). apply HQ; [done|]. eapply names_ok_perm; [|done]. by rewrite range_names_perm.
Qed.
End interning.

(** ** SetNodeProperties *)

(** [d] merged onto [p]; a null removes the property. *)
Definition merged (p d : gmap Z value) : gmap Z value :=
  set_props d ∪ filter (fun kv => d !! kv.1 = None) p.

Lemma set_props_lookup d k : set_props d !! k = (v ← d !! k; if is_null v then None else Some v).
Proof.
  unfold set_props. rewrite map_lookup_filter. destruct (d !! k) as [v|]; [|done]. cbn.
  destruct (decide (v = VNull)) as [->|Hv]; [done|]. by rewrite is_null_false, option_guard_True by done.
Qed.

Lemma merged_lookup p d k :
  merged p d !! k = match d !! k with Some v => if is_null v then None else Some v | None => p !! k end.
Proof.
  unfold merged. rewrite lookup_union, set_props_lookup, map_lookup_filter.
  destruct (d !! k) as [v|] eqn:E; cbn.
  - destruct (p !! k); cbn; [rewrite option_guard_False by (by rewrite E)|]; by destruct (is_null v).
  - destruct (p !! k); cbn; [by rewrite option_guard_True|done].
Qed.

Definition new_props (replace : bool) (p d : gmap Z value) : gmap Z value :=
  if replace then set_props d else merged p d.

Section set_node_properties.
Context `{MapOrder} (T : tables) (n : Z) (r : NodeRecord) (d : gmap Z value).
Context (Hc : consistent T) (Hr : nodes T n = Some r).
Context (Hd : map_Forall (fun k v => u32 k /\ value_in v /\ normalize v = v) d).
Context (HKd : forall k, is_Some (d !! k) -> known T DKey k).

Let Hn : u64 n := node_u64 _ _ _ Hc Hr.
Let Hs : node_stored r := proj1 (proj2 (con_node _ Hc n r Hr)).
Let HL : Forall (known T DLabel) (Labels r) := proj1 (proj2 (proj2 (con_node _ Hc n r Hr))).
Let HK : forall k, is_Some (Props r !! k) -> known T DKey k := proj2 (proj2 (proj2 (con_node _ Hc n r Hr))).

(** A kept value is the stored one. *)
Lemma sameValue_stored k old v :
  Props r !! k = Some old -> d !! k = Some v -> sameValue old v = true -> v = old.
Proof.
  intros Ho Hv Hsame. destruct (ns_props _ Hs k old Ho) as [_ Hst]. destruct (prop_stored_new _ Hst) as ([? _] & ? & _).
  destruct (Hd k v Hv) as (_ & [? _] & ?).
  assert (isIndexable old = true) as Hi by (destruct old; try done; destruct v; done).
  symmetry. apply sameValue_eq; [by split|by split|done|done].
Qed.

Lemma sameValue_sym a b : sameValue a b = sameValue b a.
Proof.
  unfold sameValue. destruct (normalize a), (normalize b); try done; try apply Z.eqb_sym.
  - by destruct b0, b1.
  - apply bool_decide_ext. split; congruence.
Qed.

(** The entries left before the new ones are written. *)
Definition ready (T2 : tables) (new : gmap Z value) : Prop :=
  patch n T T2 /\ (forall l, lab T2 (l, n) = lab T (l, n)) /\
  forall l k, ent T2 (l, k, n) = None \/ (l ∈ Labels r /\ ent T2 (l, k, n) = indexed_value (new !! k)).

Lemma ent_stored l k : ent T (l, k, n) = if decide (l ∈ Labels r) then indexed_value (Props r !! k) else None.
Proof. by rewrite (con_ent _ Hc), Hr. Qed.

Lemma wp_replace_props (Q : res (gmap Z value) -> tables -> Prop) :
  (forall T2, ready T2 (set_props d) -> Q (Ok (set_props d)) T2) ->
  wp (replace_props n r d) T Q.
Proof.
  intros HQ. unfold replace_props. apply wp_bind.
  set (drop kv := match d !! kv.1 with Some v => negb (sameValue v kv.2) | None => true end).
  apply (wp_touch _ _ n T (fun kv l' k' => (l' ∈ Labels r /\ k' = kv.1) /\ drop kv = true) (fun _ _ => None)
    (fun _ _ => False) (fun _ => false)); [by apply consistent_entries| |].
  - intros done [k old] todo T1 _ Hin Hpt [Ht _]. apply range_props_elem in Hin. cbn [fst snd].
    destruct (stored_props_new _ Hs k old Hin) as (Hk & [Hov _] & _).
    replace (match d !! k with Some v => if sameValue v old then mret tt else del_value n (Labels r) k old
             | None => del_value n (Labels r) k old end)
      with (if drop (k, old) then del_value n (Labels r) k old else mret tt).
    2: { unfold drop. cbn. destruct (d !! k) as [v|]; [|done]. by destruct (sameValue v old). }
    destruct (drop (k, old)) eqn:Edrop.
    + apply (wp_del_value _ _ _ _ T); try done; [apply Hs| |].
      * intros l Hl. rewrite Ht. destruct (decide _); [by left|right]. by rewrite ent_stored, decide_True, Hin.
      * intros T2 Hp2 Hlab Hent. cbn [on_ok]. split; [done|]. split; [|done]. intros l' k'. rewrite Hent.
        apply decide_ext. rewrite Edrop. cbn. tauto.
    + apply wp_ret. cbn [on_ok]. split; [done|]. split; [|done]. intros l' k'.
      rewrite decide_False; [done|]. intros [_ ?]. congruence.
  - intros T2 Hp2 [Ht Htl]. cbn [on_ok]. apply wp_ret, HQ. split; [done|]. split; [by eapply no_labels|].
    intros l k. rewrite Ht, ent_stored.
    match goal with |- context [decide (Exists ?P ?xs)] => destruct (decide (Exists P xs)) as [|Hno] end; [by left|].
    destruct (decide (l ∈ Labels r)) as [Hl|]; [|by left].
    destruct (Props r !! k) as [old|] eqn:Eo; [|by left]. right. split; [done|].
    destruct (drop (k, old)) eqn:Edrop.
    { exfalso. apply Hno, Exists_exists. exists (k, old). split; [by apply range_props_elem|]. by split. }
    unfold drop in Edrop. cbn in Edrop. rewrite set_props_lookup.
    destruct (d !! k) as [v|] eqn:Ev; [|done]. cbn. apply negb_false_iff in Edrop. rewrite sameValue_sym in Edrop.
    pose proof (sameValue_stored k old v Eo Ev Edrop) as ->.
    rewrite is_null_false; [done|]. by destruct (ns_props _ Hs k old Eo) as (_ & _ & _ & ?).
Qed.

Lemma wp_merge_props (Q : res (gmap Z value) -> tables -> Prop) :
  (forall T2, ready T2 (merged (Props r) d) -> Q (Ok (merged (Props r) d)) T2) ->
  wp (merge_props n r d) T Q.
Proof.
  intros HQ. unfold merge_props.
  set (after (ks : list Z) k := if decide (k ∈ ks) then merged (Props r) d !! k else Props r !! k).
  apply (wp_fold _ _ (fun done b T' => (forall k, b !! k = after done.*1 k) /\
    patch n T T' /\ (forall l, lab T' (l, n) = lab T (l, n)) /\
    forall l k, ent T' (l, k, n) = None \/ (l ∈ Labels r /\ ent T' (l, k, n) = indexed_value (after done.*1 k)))).
  - split; [done|]. split; [by apply patch_refl, consistent_entries|]. split; [done|].
    intros l k. rewrite ent_stored. destruct (decide _); auto.
  - intros done [k v] todo b T1 Exs (Hb & Hp & Hlab & Hent). cbn [fst snd].
    assert (d !! k = Some v) as Hkv by (apply range_props_elem; rewrite Exs; set_solver).
    assert (k ∉ done.*1) as Hnew.
    { assert (NoDup (range_props d).*1) as Hnd by (rewrite range_props_perm; apply NoDup_fst_map_to_list).
      rewrite Exs, fmap_app in Hnd. apply NoDup_app in Hnd as (_ & Hx & _). intros Hin. apply (Hx _ Hin). cbn. left. }
    assert (forall k', (if is_null v then delete k b else <[k := v]> b) !! k' = after (done ++ [(k, v)]).*1 k') as Hb'.
    { intros k'. unfold after. rewrite fmap_app. destruct (decide (k' = k)) as [->|Hne].
      - rewrite decide_True by set_solver. rewrite merged_lookup, Hkv.
        destruct (is_null v); [by rewrite lookup_delete_eq|by rewrite lookup_insert_eq].
      - transitivity (b !! k').
        { destruct (is_null v); [by rewrite lookup_delete_ne|by rewrite lookup_insert_ne]. }
        rewrite Hb. apply decide_ext. set_solver. }
    rewrite Hb. unfold after at 1. rewrite (decide_False (P := k ∈ done.*1)) by done. apply wp_bind.
    assert (forall T2, patch n T T2 -> (forall l, lab T2 (l, n) = lab T1 (l, n)) ->
      (forall l k', k' <> k -> ent T2 (l, k', n) = ent T1 (l, k', n)) ->
      (forall l, ent T2 (l, k, n) = None \/ (l ∈ Labels r /\ ent T2 (l, k, n) = indexed_value (merged (Props r) d !! k))) ->
      wp (mret (if is_null v then delete k b else <[k := v]> b)) T2 (on_ok (fun b T' =>
        (forall k0, b !! k0 = after (done ++ [(k, v)]).*1 k0) /\ patch n T T' /\
        (forall l, lab T' (l, n) = lab T (l, n)) /\ forall l k0, ent T' (l, k0, n) = None \/
          (l ∈ Labels r /\ ent T' (l, k0, n) = indexed_value (after (done ++ [(k, v)]).*1 k0))) Q)) as Hnext.
    { intros T2 Hp2 Hlab2 Hne2 Hk2. apply wp_ret. cbn [on_ok]. split; [done|]. split; [done|].
      split; [intros l; by rewrite Hlab2|]. intros l k'. unfold after. rewrite fmap_app.
      destruct (decide (k' = k)) as [->|Hne].
      - rewrite (decide_True (P := k ∈ _)) by set_solver. apply Hk2.
      - rewrite Hne2 by done. destruct (Hent l k') as [|[Hl E]]; [by left|right]. split; [done|]. rewrite E.
        f_equal. unfold after. apply decide_ext. set_solver. }
    assert (forall l, ent T1 (l, k, n) = None \/ (l ∈ Labels r /\ ent T1 (l, k, n) = indexed_value (Props r !! k))) as Hk1.
    { intros l. specialize (Hent l k). unfold after in Hent. by rewrite decide_False in Hent. }
    destruct (Props r !! k) as [old|] eqn:Eo; [destruct (sameValue old v) eqn:Esame|].
    + apply wp_ret. cbn [on_ok]. apply Hnext; try done. intros l. rewrite merged_lookup, Hkv.
      pose proof (sameValue_stored k old v Eo Hkv Esame) as ->.
      rewrite is_null_false; [apply Hk1|]. by destruct (ns_props _ Hs k old Eo) as (_ & _ & _ & ?).
    + destruct (stored_props_new _ Hs k old Eo) as (Hk & [Hov _] & _).
      apply (wp_del_value _ _ _ _ T); try done; [apply Hs| |].
      * intros l _. destruct (Hk1 l) as [|[_ ?]]; auto.
      * intros T2 Hp2 Hlab2 Hent2. cbn [on_ok]. apply Hnext; [done|done| |].
        -- intros l k' Hne. rewrite Hent2, decide_False; [done|]. by intros [_ ?].
        -- intros l. left. rewrite Hent2. destruct (decide _) as [|Hno]; [done|].
           destruct (Hk1 l) as [|[Hl _]]; [done|]. exfalso. by apply Hno.
    + apply wp_ret. cbn [on_ok]. apply Hnext; try done. intros l. left. destruct (Hk1 l) as [|[_ ?]]; done.
  - intros b T' (Hb & Hp & Hlab & Hent).
    assert (forall k, after (range_props d).*1 k = merged (Props r) d !! k) as Hafter.
    { intros k. unfold after. destruct (decide _) as [|Hno]; [done|]. rewrite merged_lookup.
      destruct (d !! k) as [v|] eqn:E; [|done]. exfalso. apply Hno, list_elem_of_fmap. exists (k, v).
      by rewrite range_props_elem. }
    assert (b = merged (Props r) d) as -> by (apply map_eq; intros k; by rewrite Hb).
    apply HQ. split; [done|]. split; [done|]. intros l k. rewrite <- Hafter. apply Hent.
Qed.

(** Writing the entries of the new properties. *)
Lemma wp_put_new T2 new (Q : res unit -> tables -> Prop) :
  ready T2 new -> props_new new -> (forall k, is_Some (new !! k) -> known T DKey k) ->
  (forall T3, patch n T T3 -> (forall l, lab T3 (l, n) = lab T (l, n)) ->
     (forall l k, ent T3 (l, k, n) = entry_of (Some (mkNodeRecord (Labels r) new)) l k) -> Q (Ok tt) T3) ->
  (forall T' l k v, l ∈ Labels r -> new !! k = Some v -> conflict T n l k v -> Q (Err ErrConstraintViolation) T') ->
  wp (for_each (fun kv => for_each (fun l => putPropEntry l kv.1 kv.2 n) (Labels r)) (range_props new)) T2 Q.
Proof.
  intros (Hp & Hlab & Hent) Hnew HKn HQ HC.
  apply (wp_touch _ _ n T2 (fun kv l' k' => l' ∈ Labels r /\ k' = kv.1) (fun _ k' => indexed_value (new !! k'))
    (fun _ _ => False) (fun _ => false)); [apply Hp| |].
  - intros done [k v] todo T3 _ Hin Hpt [Ht _]. apply range_props_elem in Hin. cbn [fst snd].
    destruct (Hnew k v Hin) as (Hk & [Hv _] & _).
    apply (wp_put_value _ _ _ _ T); try done.
    + apply Hs.
    + by eapply patch_trans.
    + intros l Hl. rewrite Ht. destruct (decide _); [right; by rewrite Hin|].
      destruct (Hent l k) as [|[_ E]]; [by left|right]. by rewrite E, Hin.
    + by apply HKn.
    + intros T4 Hp4 Hlab4 Hent4. cbn [on_ok]. split; [|split; [|done]].
      * destruct Hp4 as [S4 O4 E4 L4], Hp as [S2 O2 E2 L2]. split; try done.
        -- rewrite S4 at 1. rewrite S2. done.
        -- intros. by rewrite E4, E2.
        -- intros. by rewrite L4, L2.
      * intros l' k'. rewrite Hent4. cbn [fst]. case_decide as Hd'; [destruct Hd' as [_ ->]; by rewrite Hin|done].
    + intros T' l Hl Hcf. cbn [on_ok]. eauto.
  - intros T3 Hp3 [Ht Htl]. apply HQ; [by eapply patch_trans|intros l; rewrite (no_labels _ _ _ _ Htl); apply Hlab|].
    intros l k. rewrite Ht. cbn [entry_of Labels Props]. destruct (decide (l ∈ Labels r)) as [Hl|Hl].
    + match goal with |- context [decide (Exists ?P ?xs)] => destruct (decide (Exists P xs)) as [|Hno] end; [done|].
      destruct (new !! k) as [v|] eqn:E.
      { exfalso. apply Hno, Exists_exists. exists (k, v). by rewrite range_props_elem. }
      destruct (Hent l k) as [E'|[_ E']]; rewrite E'; rewrite ?E; done.
    + rewrite decide_False by (rewrite Exists_exists; by intros (? & _ & ? & _)).
      destruct (Hent l k) as [|[? _]]; done.
Qed.
End set_node_properties.

Definition SetNodeProperties_post (T : tables) (n : Z) (props : list (bytes * value)) (replace : bool)
    (res : res unit) (T' : tables) : Prop :=
  match res with
  | Ok _ => exists r d, nodes T n = Some r /\ names_ok T' props d /\ consistent T' /\ frame T T' /\
      node_update T T' n (Some (mkNodeRecord (Labels r) (deep_norm <$> new_props replace (Props r) d)))
  | Err ErrNodeNotFound => nodes T n = None
  | Err ErrOutOfIDs => no_room T DKey (len props)
  | Err ErrConstraintViolation => exists r l name w k, nodes T n = Some r /\ l ∈ Labels r /\
      (name, w) ∈ props /\ fwd T (DKey, name) = Some k /\ conflict T n l k (normalize w)
  | Err ErrUnsupportedType => exists name v, (name, v) ∈ props /\ storable v = false
  | Err _ => False
  end.

(** Maps a caller may pass: distinct names, values in range. *)
Definition named_props (props : list (bytes * value)) : Prop :=
  NoDup props.*1 /\ Forall (fun kv => value_in kv.2) props.

Lemma names_ok_values T props d :
  cat_ok T -> named_props props -> names_ok T props d ->
  map_Forall (fun k v => u32 k /\ value_in v /\ normalize v = v) d.
Proof.
  intros Hc [_ Hv] Hn k v Hk. apply (no_iff _ _ _ Hn) in Hk as (name & w & Hin & Hf & ->).
  rewrite Forall_forall in Hv. pose proof (Hv _ Hin) as Hw. cbn in Hw.
  split; [by eapply cat_u32|]. split; [|apply normalize_idem]. by destruct w.
Qed.

Lemma names_ok_known T props d k :
  cat_ok T -> names_ok T props d -> is_Some (d !! k) -> known T DKey k.
Proof.
  intros Hc Hn [v Hk]. apply (no_iff _ _ _ Hn) in Hk as (name & w & _ & Hf & _). by eapply known_fwd.
Qed.

Lemma new_props_lookup replace p d k v :
  new_props replace p d !! k = Some v -> (d !! k = Some v /\ v <> VNull) \/ p !! k = Some v.
Proof.
  unfold new_props. destruct replace; rewrite ?set_props_lookup, ?merged_lookup.
  - destruct (d !! k) as [w|]; [|done]. cbn. destruct (is_null w) eqn:E; [done|]. intros [= <-]. left. by destruct w.
  - destruct (d !! k) as [w|]; [|by right]. destruct (is_null w) eqn:E; [done|]. intros [= <-]. left. by destruct w.
Qed.

Lemma uniqueValue_indexable v u : uniqueValue v = Some u -> isIndexable u = isIndexable v.
Proof.
  destruct v as [| | | |f| | | | | | |]; try (by intros [= <-]).
  cbn [uniqueValue]. destruct (Float64.is_nan f); [done|]. destruct (_ && _); by intros [= <-].
Qed.

(** A stored value does not conflict with the others. *)
Lemma no_conflict_stored T n r l k v :
  consistent T -> nodes T n = Some r -> l ∈ Labels r -> Props r !! k = Some v -> ~ conflict T n l k v.
Proof.
  intros Hc Hr Hl Hk (Hcs & n' & v' & u & Hne & He & Hu' & Hu). apply Hne.
  assert (own T (l, k, u) = Some n') as E' by (apply (con_own _ Hc); eauto).
  assert (own T (l, k, u) = Some n) as E; [|congruence]. apply (con_own _ Hc). split; [done|]. exists v. split; [|done].
  rewrite (stored_entry T n r) by done. apply indexed_value_Some. split; [done|]. rewrite <- (uniqueValue_indexable v u), (uniqueValue_indexable v' u) by done.
  rewrite (con_ent _ Hc) in He. by apply entry_of_Some in He as (? & _ & _ & _ & ?).
Qed.

Lemma wp_SetNodeProperties `{MapOrder} T n props replace :
  consistent T -> u64 n -> named_props props ->
  wp (SetNodeProperties n props replace) T (SetNodeProperties_post T n props replace).
Proof.
  intros Hc Hn Hps. unfold SetNodeProperties. apply wp_bind, wp_GetNode; [done|].
  destruct (nodes T n) as [r|] eqn:Hr; cbn [on_ok n_rec]; [|done]. cbv zeta.
  apply wp_bind, wp_intern_desired; [apply Hc|apply Hps| |done]. intros d T1 Hg Hno. cbn [on_ok].
  pose proof (consistent_grows _ _ Hc Hg) as Hc1.
  assert (nodes T1 n = Some r) as Hr1 by (by rewrite (nodes_grows _ _ Hg)).
  pose proof (grow_cat _ _ Hg) as Hcat. pose proof (names_ok_values _ _ _ Hcat Hps Hno) as Hd.
  assert (forall k, is_Some (d !! k) -> known T1 DKey k) as HKd by (intros k; by apply (names_ok_known _ props)).
  destruct (con_node _ Hc1 n r Hr1) as (Hn1 & Hs & HL & HKs).
  set (new := new_props replace (Props r) d). apply wp_bind.
  assert (forall k v, new !! k = Some v -> u32 k /\ prop_new v) as Hnew.
  { intros k v [[Hk Hv]|Hk]%new_props_lookup; [|by apply (stored_props_new _ Hs)].
    destruct (Hd k v Hk) as (? & ? & ?). done. }
  assert (forall k, is_Some (new !! k) -> known T1 DKey k) as HKn.
  { intros k [v [[Hk _]|Hk]%new_props_lookup]; [apply HKd; by rewrite Hk|apply HKs; by rewrite Hk]. }
  assert (forall T2, ready T1 n r T2 new ->
    on_ok (fun new T' => wp (for_each (fun kv => for_each (fun l => putPropEntry l kv.1 kv.2 n) (Labels r)) (range_props new) ≫= fun _ =>
      putNodeRecord n (mkNodeRecord (Labels r) new)) T' (SetNodeProperties_post T n props replace))
      (SetNodeProperties_post T n props replace) (Ok new) T2) as Hrest.
  2: { destruct replace; [by apply wp_replace_props|by apply wp_merge_props]. }
  intros T2 Hready. cbn [on_ok]. apply wp_bind, (wp_put_new T1 n r); try done.
  - intros T3 Hp3 Hlab Hent. cbn [on_ok]. apply (wp_finish n _ T1); try done; cbn [Labels Props]; try apply Hs.
    + intros l. by rewrite Hlab, (con_lab _ Hc1), Hr1.
    + intros T' Hc' Hn' Hfr Hst. exists r, d. split; [done|]. split; [eapply names_ok_mono; [apply Hfr|done]|].
      split; [done|]. split; [eapply frame_trans; [by apply frame_grows|done]|].
      intros x. rewrite Hn', (nodes_grows _ _ Hg). unfold node_norm. cbn [Labels Props].
      by rewrite (ns_sorted _ Hs).
    + intros Hst. cbn. apply map_not_Forall in Hst as (k & v & Hk & Hv); [|apply _].
      apply new_props_lookup in Hk as [[Hk _]|Hk]; [|by destruct Hv; apply (stored_storable _ Hs k v)].
      apply (no_iff _ _ _ Hno) in Hk as (name & w & Hin & _ & ->). exists name, w. split; [done|].
      rewrite storable_normalize in Hv. by destruct (storable w).
  - intros T' l k v Hl Hk Hcf. destruct (conflict_named _ _ _ _ _ _ Hc Hg Hcf) as (Hcf' & _ & HKn').
    apply new_props_lookup in Hk as [[Hk _]|Hk]; [|by destruct (no_conflict_stored _ _ _ _ _ _ Hc Hr Hl Hk)].
    apply (no_iff _ _ _ Hno) in Hk as (name & w & Hin & Hfn & ->). exists r, l, name, w, k. split_and!; auto.
Qed.

(** ** CreateNode *)
Lemma consistent_next_node T :
  consistent T -> count T CNode + 1 < two64 ->
  consistent (set_count (<[CNode := count T CNode + 1]> (count T)) T).
Proof.
  intros [[Ci Cr Cd Ct] Cn Ce Cl Cen Cw Co Cin Cre Cx] Hlt. split; try done.
  - split; try done; cbn.
    + intros c. destruct (decide (c = CNode)) as [->|]; [rewrite fn_lookup_insert; specialize (Ct CNode); lia|].
      by rewrite fn_lookup_insert_ne.
  - intros n r Hr. destruct (Cn n r Hr) as (H1 & H2). split; [|done]. cbn. rewrite fn_lookup_insert. lia.
Qed.

Definition CreateNode_post (T : tables) (labels : list bytes) (props : list (bytes * value))
    (res : res Z) (T' : tables) : Prop :=
  match res with
  | Ok id => exists r ids d, id = count T CNode + 1 /\ nodes T id = None /\
      resolved T' DLabel labels ids /\ names_ok T' (filter non_null props) d /\ consistent T' /\ frame T T' /\
      node_update T T' id (Some r) /\ (forall l, l ∈ Labels r <-> l ∈ ids) /\ Props r = deep_norm <$> d
  | Err ErrOutOfIDs => no_room T DLabel (len labels) \/ no_room T DKey (len props)
  | Err ErrConstraintViolation => exists lname l name w k, lname ∈ labels /\ fwd T (DLabel, lname) = Some l /\
      (name, w) ∈ props /\ fwd T (DKey, name) = Some k /\ conflict T (count T CNode + 1) l k (normalize w)
  | Err ErrUnsupportedType => exists name v, (name, v) ∈ props /\ storable v = false
  | Err _ => False
  end.

Lemma fresh_node T n : consistent T -> count T CNode < n -> nodes T n = None.
Proof.
  intros Hc Hn. destruct (nodes T n) as [r|] eqn:E; [|done]. apply (con_node _ Hc) in E as [? _]. lia.
Qed.

Lemma set_nodes_id f T : nodes T = f -> set_nodes f T = T.
Proof. intros <-. by destruct T. Qed.

(** A node written before its index entries. *)
Lemma consistent_created n r T T2 :
  consistent T -> nodes T n = None -> 1 <= n <= count T CNode -> node_stored r ->
  Forall (known T DLabel) (Labels r) -> (forall k, is_Some (Props r !! k) -> known T DKey k) ->
  patch n (set_nodes (<[n := Some r]> (nodes T)) T) T2 ->
  (forall l k, ent T2 (l, k, n) = entry_of (Some r) l k) -> (forall l, lab T2 (l, n) = labels_of (Some r) l) ->
  consistent T2 /\ nodes T2 = <[n := Some r]> (nodes T) /\ frame T T2.
Proof.
  intros Hc Hfresh Hn Hs HL HK Hp Hent Hlab. pose proof (pa_same _ _ _ Hp) as E.
  assert (nodes T2 = <[n := Some r]> (nodes T)) as En by (by rewrite E).
  split; [|split; [done|rewrite E; by split]].
  rewrite <- (set_nodes_id (<[n := Some r]> (nodes (set_nodes (nodes T) T2))) T2) by done.
  apply (consistent_update n (Some r) T (set_nodes (nodes T) T2)); try done.
  destruct Hp as [_ [O1 O2 O3] P1 P2]. split; try done. by rewrite E.
Qed.

Lemma names_ok_new T props d :
  cat_ok T -> named_props props -> names_ok T (filter non_null props) d -> props_new d.
Proof.
  intros Hc [_ Hv] Hn k v Hk. apply (no_iff _ _ _ Hn) in Hk as (name & w & [Hnn Hin]%list_elem_of_filter & Hf & ->).
  rewrite Forall_forall in Hv. pose proof (Hv _ Hin) as Hw. cbn in Hw. split; [by eapply cat_u32|].
  by apply prop_new_normalize.
Qed.

Lemma names_ok_unstorable T props d :
  names_ok T (filter non_null props) d -> ~ all_storable d -> exists name v, (name, v) ∈ props /\ storable v = false.
Proof.
  intros Hno Hst. apply map_not_Forall in Hst as (k & v & Hk & Hv); [|apply _].
  apply (no_iff _ _ _ Hno) in Hk as (name & w & [_ Hin]%list_elem_of_filter & _ & ->). exists name, w. split; [done|].
  rewrite storable_normalize in Hv. by destruct (storable w).
Qed.

Lemma wp_CreateNode `{MapOrder} T labels props :
  consistent T -> count T CNode + 1 < two64 -> named_props props ->
  wp (CreateNode labels props) T (CreateNode_post T labels props).
Proof.
  intros Hc Hroom Hps. unfold CreateNode.
  apply wp_bind, wp_intern_new; [apply Hc|constructor|by intros l ?%elem_of_nil| |by left].
  intros ls ids T1 Hg1 Hres Hnd Hls Hused. cbn [on_ok]. apply wp_bind, wp_internProps; [apply Hg1|apply Hps| |].
  2: { intros Hfull T'. right. pose proof (used_other _ DKey _ _ _ Hused ltac:(done)). unfold no_room in *. lia. }
  intros d T2 Hg2 Hno. cbn [on_ok]. pose proof (grows_trans _ _ _ Hg1 Hg2) as Hg.
  pose proof (consistent_grows _ _ Hc Hg) as Hc2. destruct (grow_count _ _ Hg) as [En _].
  assert (0 <= count T CNode) by apply (cat_count _ (con_cat _ Hc)).
  apply wp_bind. apply (wp_nextCounter CNode); rewrite En; [lia|lia|]. cbn [on_ok]. cbv zeta.
  set (id := count T CNode + 1). rewrite <- En in Hroom. pose proof (consistent_next_node T2 Hc2 Hroom) as Hc3.
  rewrite En in Hc3. fold id in Hc3. set (T3 := set_count (<[CNode := id]> (count T2)) T2) in *.
  pose proof (resolved_mono _ _ _ _ _ (grow_fwd _ _ Hg2) Hres) as Hres2.
  destruct (resolved_known _ _ _ _ (grow_cat _ _ Hg2) Hres2) as [Hu Hk].
  pose proof (names_ok_new _ _ _ (grow_cat _ _ Hg2) Hps Hno) as Hd.
  assert (forall l, l ∈ ls <-> l ∈ ids) as Hls' by (intros l; rewrite Hls; set_solver).
  assert (Forall u32 ls /\ Forall (known T3 DLabel) ls) as [Hlu Hlk].
  { rewrite !Forall_forall in *. split; intros l Hl%Hls'; [by apply Hu|by apply Hk]. }
  assert (forall k, is_Some (d !! k) -> known T3 DKey k) as HKd.
  { intros k. apply (names_ok_known T2 (filter non_null props) d k); [apply Hg2|done]. }
  assert (nodes T3 id = None) as Hfresh.
  { change (nodes T3) with (nodes T2). apply fresh_node; [done|]. rewrite En. subst id. lia. }
  assert (nodes T3 = nodes T) as Enodes by (apply (nodes_grows _ _ Hg)).
  assert (1 <= id <= count T3 CNode) as Hid by (cbn; rewrite fn_lookup_insert; subst id; lia).
  assert (u64 id) as Hid64 by (rewrite En in Hroom; unfold u64; subst id; lia).
  set (rec := mkNodeRecord ls d). apply wp_bind.
  apply wp_putNodeRecord; try done; [by apply props_new_in| |].
  2: { intros Hst. by apply (names_ok_unstorable T2 props d). }
  intros Hst. cbn [on_ok]. assert (node_stored (node_norm rec)) as Hstored by (by apply node_norm_stored).
  set (T4 := set_nodes (<[id := Some (node_norm rec)]> (nodes T3)) T3).
  apply wp_bind, (wp_add_labels d id T4); try done.
  - by apply props_new_in.
  - destruct (consistent_entries _ Hc3). by split.
  - intros l k _. left. change (ent T4) with (ent T3). by rewrite (con_ent _ Hc3), Hfresh.
  - intros T5 Hp5 Hlab Hent. cbn [on_ok]. apply wp_ret. cbn [CreateNode_post].
    destruct (consistent_created id (node_norm rec) T3 T5) as (Hc5 & En5 & Hf5); try done.
    + cbn [node_norm Labels rec]. by rewrite sort_ids_perm.
    + intros k. cbn [node_norm Props rec]. rewrite lookup_fmap, fmap_is_Some. apply HKd.
    + intros l k. rewrite Hent, entry_of_norm by done. change (ent T4) with (ent T3).
      rewrite (con_ent _ Hc3), Hfresh. cbn. destruct (decide (l ∈ ls)) as [Hl|Hl].
      * destruct (d !! k) eqn:E; [by rewrite decide_True|by rewrite decide_False by (intros [_ [? ?]]; done)].
      * by rewrite decide_False by (by intros [? _]).
    + intros l. rewrite Hlab, labels_of_norm. change (lab T4) with (lab T3). rewrite (con_lab _ Hc3), Hfresh. cbn.
      destruct (decide (l ∈ ls)); [by rewrite bool_decide_true|by rewrite bool_decide_false].
    + assert (frame T T5) as Hfr.
      { eapply frame_trans; [by apply frame_grows|]. eapply frame_trans; [|done]. by split. }
      exists (node_norm rec), ids, d. split; [done|]. split; [by rewrite <- Enodes|].
      split; [eapply resolved_mono; [apply Hf5|exact Hres2]|].
      split; [eapply names_ok_mono; [apply Hf5|by destruct Hno; split]|].
      split; [done|]. split; [done|]. split; [intros x; by rewrite En5, Enodes|]. split; [|done].
      intros l. cbn. by rewrite sort_ids_perm, Hls'.
  - intros T' l k v Hl Hkv Hcf. destruct (conflict_named T T2 _ _ _ _ Hc Hg Hcf) as (Hcf' & HLn & HKn).
    destruct (resolved_elem _ _ _ _ l Hres2) as (lname & Hln & Hfl); [by apply Hls'|].
    apply (no_iff _ _ _ Hno) in Hkv as (name & w & [_ Hin]%list_elem_of_filter & Hfn & ->).
    exists lname, l, name, w, k. split_and!; auto.
Qed.

(** ** DeleteNode *)
Definition incident (T : tables) (n : Z) : Prop :=
  exists e r, edges T e = Some r /\ (Src r = n \/ Dst r = n).

Lemma wp_hasIncidentEdges T n (Q : res bool -> tables -> Prop) :
  consistent T -> u64 n ->
  (incident T n -> Q (Ok true) T) -> (~ incident T n -> Q (Ok false) T) ->
  wp (hasIncidentEdges n) T Q.
Proof.
  intros Hc Hn HT HF. unfold hasIncidentEdges. apply wp_bind, wp_Scan. intros lo [_ So Co]. cbn [on_ok].
  assert (lo <> [] <-> exists e r, edges T e = Some r /\ Src r = n) as Hlo.
  { split.
    - destruct lo as [|x lo]; [done|]. intros _. destruct (So x) as (sk & Hok & _ & Hcell & Hpre & _); [left|].
      apply scan_out_all in Hpre as (t & d & e & ->); [|done|done]. cbn in Hcell.
      destruct (outs T (n, t, d, e)) eqn:E; [|done]. rewrite (con_outs _ Hc), out_of_true in E. naive_solver.
    - intros (e & r & He & Hs) ->. destruct (edge_u64 _ _ _ Hc He) as [He64 [Ht Hsr Hds _]].
      assert (has_prefix (OutPrefixAll n) (key_of (KOut n (Type_ r) (Dst r) e)) = true) as Hpre.
      { apply scan_out_all; [done|by split_and!|eauto]. }
      destruct (Co (KOut n (Type_ r) (Dst r) e)) as [v ?%elem_of_nil]; try done; [by apply ble_prefix|].
      cbn. rewrite (con_outs _ Hc). rewrite (proj2 (out_of_true _ _ _ _)) by (exists r; done). done. }
  destruct lo as [|x lo].
  2: { apply wp_ret, HT. destruct Hlo as [(e & r & ? & ?) _]; [done|]. exists e, r. auto. }
  apply wp_bind, wp_Scan. intros li [_ Si Ci]. cbn [on_ok]. apply wp_ret.
  assert (li <> [] <-> exists e r, edges T e = Some r /\ Dst r = n) as Hli.
  { split.
    - destruct li as [|x li]; [done|]. intros _. destruct (Si x) as (sk & Hok & _ & Hcell & Hpre & _); [left|].
      apply scan_in_all in Hpre as (t & s & e & ->); [|done|done]. cbn in Hcell.
      destruct (ins T (n, t, s, e)) eqn:E; [|done]. rewrite (con_ins _ Hc), out_of_true in E. naive_solver.
    - intros (e & r & He & Hd) ->. destruct (edge_u64 _ _ _ Hc He) as [He64 [Ht Hsr Hds _]].
      assert (has_prefix (InPrefixAll n) (key_of (KIn n (Type_ r) (Src r) e)) = true) as Hpre.
      { apply scan_in_all; [done|by split_and!|eauto]. }
      destruct (Ci (KIn n (Type_ r) (Src r) e)) as [v ?%elem_of_nil]; try done; [by apply ble_prefix|].
      cbn. rewrite (con_ins _ Hc). rewrite (proj2 (out_of_true _ _ _ _)) by (exists r; done). done. }
  destruct li as [|x li].
  - apply HF. intros (e & r & He & [Hs|Hd]); [by apply Hlo; eauto|by apply Hli; eauto].
  - apply HT. destruct Hli as [(e & r & ? & ?) _]; [done|]. exists e, r. auto.
Qed.

Definition DeleteNode_post (T : tables) (n : Z) (res : res unit) (T' : tables) : Prop :=
  match res with
  | Ok _ => is_Some (nodes T n) /\ ~ incident T n /\ consistent T' /\ frame T T' /\ node_update T T' n None
  | Err ErrNodeNotFound => nodes T n = None
  | Err ErrNodeHasEdges => incident T n
  | Err _ => False
  end.

Lemma wp_delNodeIndexes `{MapOrder} T n r (Q : res unit -> tables -> Prop) :
  consistent T -> nodes T n = Some r ->
  (forall T2, patch n T T2 -> (forall l, lab T2 (l, n) = false) -> (forall l k, ent T2 (l, k, n) = None) ->
     Q (Ok tt) T2) ->
  wp (delNodeIndexes n r) T Q.
Proof.
  intros Hc Hr HQ. pose proof (node_u64 _ _ _ Hc Hr) as Hn. destruct (con_node _ Hc n r Hr) as (_ & Hs & _).
  unfold delNodeIndexes.
  apply (wp_touch _ _ n T (fun l l' k' => l' = l /\ is_Some (Props r !! k')) (fun _ _ => None)
    (fun l l' => l' = l) (H0 := fun x l => Z.eq_dec l x) (fun _ => false)); [by apply consistent_entries| |].
  - intros done l todo T1 _ Hin Hpt [Ht _]. apply (wp_del_label (Props r) n T); try done.
    + by apply props_new_in, stored_props_new.
    + by apply (Forall_elem _ _ _ (ns_labels _ Hs)).
    + intros k. rewrite Ht. destruct (decide _); [by left|right]. by apply stored_entry.
  - intros T2 Hp2 [Ht Htl]. apply HQ; [done| |].
    + intros l. rewrite Htl, (con_lab _ Hc), Hr. cbn.
      match goal with |- context [decide (Exists ?P ?xs)] => destruct (decide (Exists P xs)) as [|Hno] end; [done|].
      apply bool_decide_false. intros Hl. apply Hno, Exists_exists. by exists l.
    + intros l k. rewrite Ht, (con_ent _ Hc), Hr. cbn [entry_of].
      match goal with |- context [decide (Exists ?P ?xs)] => destruct (decide (Exists P xs)) as [|Hno] end; [done|].
      destruct (decide (l ∈ Labels r)) as [Hl|]; [|done]. destruct (Props r !! k) as [v|] eqn:E; [|done].
      exfalso. apply Hno, Exists_exists. exists l. split; [done|]. split; [done|done].
Qed.

Lemma wp_DeleteNode `{MapOrder} T n :
  consistent T -> u64 n -> wp (DeleteNode n) T (DeleteNode_post T n).
Proof.
  intros Hc Hn. unfold DeleteNode. apply wp_bind, wp_GetNode; [done|].
  destruct (nodes T n) as [r|] eqn:Hr; cbn [on_ok n_rec]; [|done].
  apply wp_bind, wp_hasIncidentEdges; [done|done|..]; intros Hinc; cbn [on_ok]; [by apply wp_throw|].
  apply wp_bind, wp_delNodeIndexes; [done|done|]. intros T2 Hp2 Hlab Hent. cbn [on_ok].
  eapply (wp_Delete (set_nodes (<[n := None]> (nodes T2)) T2) (KNode n)); [done| | |].
  - cbn. by rewrite fn_lookup_insert.
  - other_cells.
  - split; [by rewrite Hr|]. split; [done|]. split; [|split].
    + apply (consistent_update n None T); try done. intros e re He. split; intros <-; apply Hinc; exists e, re; auto.
    + apply (frame_steps n T T); [apply grows_refl, Hc|done].
    + intros x. cbn. by rewrite (pa_same _ _ _ Hp2).
Qed.
