(* ===== verification/Traversal.v ===== *)
(** * Traversal: reading the graph through its indexes

    The scans and lookups of src/internal/graph/traversal.go and relindex.go on
    a consistent database: AllNodes, NodesByLabel, OutEdges, InEdges,
    NodesByProperty, ScanEdgesOfType and EdgesByProperty return exactly what
    the base records say, in identifier order, whether or not an index is used. *)
From S2P Require Import Prelude Float64 Values IndexCodec Keys Records Storage Catalog Graph Tables GraphInv NodeOps NodeUpdates.
Import Float64.

(** ** Scans over keys that end with an identifier *)
Lemma key_sorted_nodup l : key_sorted l -> NoDup l.*1.
Proof.
  unfold key_sorted. generalize l.*1. clear l. intros ks. induction 1 as [|k ks Hs IH Hf]; constructor; [|done].
  intros Hin. rewrite Forall_forall in Hf. by apply (blt_irrefl k), Hf.
Qed.

Section ids.
Context (T : tables) (p : bytes) (mk : Z -> skey) (f : kv -> prog Z) (l : list kv).
Context (Hscan : scanned T p p l).
Context (Hmk : forall sk, skey_ok sk -> has_prefix p (key_of sk) = true <-> exists n, sk = mk n).
Context (Hget : forall n v, skey_ok (mk n) -> u64 n /\ f (key_of (mk n), v) = mret n).
Context (Hord : forall a b, skey_ok (mk a) -> skey_ok (mk b) -> bcmp (key_of (mk a)) (key_of (mk b)) = (a ?= b)).

Lemma scan_ids :
  exists ids, map_prog f l = mret ids /\ StronglySorted Z.lt ids /\
    forall n, n ∈ ids <-> skey_ok (mk n) /\ ~ cell T (mk n) None.
Proof.
  destruct Hscan as [Hs Hsound Hcomplete].
  assert (forall l', (forall e, e ∈ l' -> e ∈ l) -> exists ids, map_prog f l' = mret ids /\
    l'.*1 = (fun n => key_of (mk n)) <$> ids /\ Forall (fun n => skey_ok (mk n)) ids) as H.
  { induction l' as [|e l' IH]; intros Hsub; [by exists []|].
    destruct IH as (ids & Em & Ek & Hok); [intros x Hx; apply Hsub; by right|].
    assert (e ∈ l) as He by (apply Hsub; left).
    destruct (Hsound e He) as (sk & Hsk & E1 & _ & Hp & _). apply Hmk in Hp as [n ->]; [|done].
    exists (n :: ids). destruct e as [k v]. cbn in E1. subst k. destruct (Hget n v Hsk) as [_ Hf].
    split; [|split; [cbn; by rewrite Ek|by constructor]]. cbn [map_prog]. rewrite Hf, Em. done. }
  destruct (H l) as (ids & Em & Ek & Hok); [done|]. exists ids. split; [done|]. split.
  - unfold key_sorted in Hs. rewrite Ek in Hs. clear -Hs Hok Hord. induction ids as [|a ids IH]; [constructor|].
    inversion Hok as [|? ? Ha Hok']; subst. cbn in Hs. inversion Hs as [|? ? Hs' Hf]; subst. constructor; [by apply IH|].
    rewrite Forall_fmap in Hf. rewrite Forall_forall in *. intros b Hb. specialize (Hf b Hb). cbn in Hf. unfold blt in Hf.
    rewrite Hord in Hf by auto. by apply Z.compare_lt_iff.
  - intros n. split.
    + intros Hn. assert (skey_ok (mk n)) as Hnok by (rewrite Forall_forall in Hok; auto). split; [done|].
      assert (key_of (mk n) ∈ l.*1) as Hin by (rewrite Ek; apply list_elem_of_fmap; eauto).
      apply list_elem_of_fmap in Hin as (e & E & He). destruct (Hsound e He) as (sk & Hsk & E1 & Hc & _).
      assert (sk = mk n) as -> by (apply key_of_inj; [done|done|congruence]).
      intros Hc0. revert Hc Hc0. clear. destruct (mk n); cbn; try congruence.
      * destruct (nodes T id); [|congruence]. intros (? & _) (? & [=] & _).
      * destruct (edges T id); [|congruence]. intros (? & _) (? & [=] & _).
    + intros [Hnok Hn]. assert (has_prefix p (key_of (mk n)) = true) as Hp by (apply Hmk; eauto).
      destruct (Hcomplete (mk n) Hnok Hp (ble_prefix _ _ Hp) Hn) as [v Hv].
      assert (key_of (mk n) ∈ l.*1) as Hin by (apply list_elem_of_fmap; by exists (key_of (mk n), v)).
      rewrite Ek in Hin. apply list_elem_of_fmap in Hin as (b & E & Hb).
      assert (mk b = mk n) as E2 by (apply key_of_inj; [rewrite Forall_forall in Hok; auto|done|done]).
      assert (b = n) as ->; [|done]. rewrite Forall_forall in Hok. specialize (Hok b Hb).
      pose proof (Hord b n Hok Hnok) as Ho. rewrite E2, bcmp_refl in Ho. by apply Z.compare_eq_iff.
Qed.
End ids.

(** The order of keys that differ in their last component only. *)
Lemma bcmp_last (pre : bytes) a b : u64 a -> u64 b -> bcmp (pre ++ be 8 a) (pre ++ be 8 b) = (a ?= b).
Proof. intros Ha Hb. by rewrite bcmp_app, bcmp_be8. Qed.

(** ** Nodes *)
Lemma wp_AllNodes T (Q : res (list Z) -> tables -> Prop) :
  consistent T ->
  (forall ids, StronglySorted Z.lt ids -> (forall n, n ∈ ids <-> is_Some (nodes T n)) -> Q (Ok ids) T) ->
  wp AllNodes T Q.
Proof.
  intros Hc HQ. unfold AllNodes. apply wp_bind, wp_Scan. intros l Hl. cbn [on_ok].
  destruct (scan_ids T NodePrefix KNode (fun e => lift (NodeIDFromKey e.1)) l Hl) as (ids & -> & Hs & Hin).
  - apply scan_nodes.
  - intros n v Hn. split; [done|]. cbn [fst]. by rewrite (parse_key (KNode n) Hn).
  - intros a b Ha Hb. by apply (bcmp_last [KeyNode]).
  - apply wp_ret, HQ; [done|]. intros n. rewrite Hin. cbn. split.
    + intros [_ Hn]. destruct (nodes T n); [by eexists|by destruct Hn].
    + intros [r Hr]. split; [by eapply node_u64|]. rewrite Hr. by intros (? & [=] & _).
Qed.

Lemma labels_of_true o l : labels_of o l = true <-> exists r, o = Some r /\ l ∈ Labels r.
Proof.
  unfold labels_of. destruct o as [r|]; [|split; [done|by intros (? & ? & _)]]. rewrite bool_decide_eq_true.
  split; [by exists r|by intros (r' & [= <-] & ?)].
Qed.

Definition has_label (T : tables) (l n : Z) : Prop := exists r, nodes T n = Some r /\ l ∈ Labels r.

(** Only the label table and the node records matter to a label scan. *)
Definition labels_ok (T : tables) : Prop :=
  (forall l n, lab T (l, n) = labels_of (nodes T n) l) /\ (forall n r, nodes T n = Some r -> u64 n).

Lemma consistent_labels T : consistent T -> labels_ok T.
Proof. intros Hc. split; [apply Hc|]. intros n r. by apply node_u64. Qed.

Lemma wp_label_scan T l (Q : res (list Z) -> tables -> Prop) :
  labels_ok T -> u32 l ->
  (forall ids, StronglySorted Z.lt ids -> (forall n, n ∈ ids <-> has_label T l n) -> Q (Ok ids) T) ->
  wp (NodesByLabel l) T Q.
Proof.
  intros [Hlab Hu] Hl HQ. unfold NodesByLabel. apply wp_bind, wp_Scan. intros es Hes. cbn [on_ok].
  destruct (scan_ids T (LabelPrefix l) (KLabel l)
    (fun e => '(_, node) ← lift (ParseLabelKey e.1); mret node) es Hes) as (ids & -> & Hs & Hin).
  - intros sk Hk. by apply scan_label.
  - intros n v [_ Hn]. split; [done|]. cbn [fst]. by rewrite (parse_key (KLabel l n)).
  - intros a b [_ Ha] [_ Hb]. by apply (bcmp_last (LabelPrefix l)).
  - apply wp_ret, HQ; [done|]. intros n. rewrite Hin. cbn. rewrite Hlab. unfold has_label.
    rewrite <- labels_of_true. destruct (labels_of (nodes T n) l) eqn:E; cbn.
    + split; [done|]. intros _. split; [|done]. split; [done|]. apply labels_of_true in E as (r & Hr & _).
      by eapply Hu.
    + split; [by intros [_ []]|done].
Qed.

Lemma wp_NodesByLabel T l (Q : res (list Z) -> tables -> Prop) :
  consistent T -> u32 l ->
  (forall ids, StronglySorted Z.lt ids -> (forall n, n ∈ ids <-> has_label T l n) -> Q (Ok ids) T) ->
  wp (NodesByLabel l) T Q.
Proof. intros Hc. apply wp_label_scan. by apply consistent_labels. Qed.

(** ** Adjacency *)
Definition ref_of (e : Z) (r : EdgeRecord) : EdgeRef := mkEdgeRef e (Type_ r) (Src r) (Dst r).

(** The references of the edges that satisfy [P], each once. *)
Definition edge_refs (T : tables) (P : EdgeRecord -> Prop) (refs : list EdgeRef) : Prop :=
  NoDup refs /\ forall ref, ref ∈ refs <-> exists e r, edges T e = Some r /\ P r /\ ref = ref_of e r.

Section adjacency.
Context (T : tables) (p : bytes) (mk : Z -> Z -> Z -> Z -> skey) (f : kv -> prog EdgeRef) (l : list kv).
Context (P : EdgeRecord -> Prop) (Hc : consistent T) (Hscan : scanned T p p l).
Context (Hmk : forall sk, skey_ok sk -> has_prefix p (key_of sk) = true <->
  exists t s d e, sk = mk t s d e /\ P (mkEdgeRecord t s d ∅)).
Context (HP : forall r, P r <-> P (mkEdgeRecord (Type_ r) (Src r) (Dst r) ∅)).
Context (Hget : forall t s d e v, skey_ok (mk t s d e) -> f (key_of (mk t s d e), v) = mret (mkEdgeRef e t s d)).
Context (Hok : forall t s d e, skey_ok (mk t s d e) <-> u32 t /\ u64 s /\ u64 d /\ u64 e).
Context (Hcell : forall t s d e o, cell T (mk t s d e) o <-> o = flag (out_of (edges T e) s t d)).

Lemma scan_adjacent : exists refs, map_prog f l = mret refs /\ edge_refs T P refs.
Proof.
  destruct Hscan as [Hs Hsound Hcomplete].
  assert (forall x, x ∈ l -> exists e r, edges T e = Some r /\ P r /\
    x = (key_of (mk (Type_ r) (Src r) (Dst r) e), []) /\ f x = mret (ref_of e r)) as Hx.
  { intros [k v] Hin. destruct (Hsound _ Hin) as (sk & Hsk & E1 & Hcv & Hp & _). cbn in E1, Hcv. subst k.
    apply Hmk in Hp as (t & s & d & e & -> & HPr); [|done]. apply Hcell in Hcv.
    destruct (out_of (edges T e) s t d) eqn:Eo; [|done]. injection Hcv as ->.
    apply out_of_true in Eo as (r & Hr & <- & <- & <-). exists e, r. split; [done|]. split; [by apply HP|].
    split; [done|]. by apply Hget. }
  set (h x := match f x with PRet ref => ref | _ => mkEdgeRef 0 0 0 0 end).
  assert (forall x, x ∈ l -> f x = mret (h x)) as Hh.
  { intros x Hin. destruct (Hx x Hin) as (e & r & _ & _ & _ & E). unfold h. by rewrite E. }
  exists (h <$> l). split; [by apply map_prog_pure|]. split.
  - apply NoDup_fmap_2_strong; [|eapply NoDup_fmap_1, key_sorted_nodup; exact Hs].
    intros x y Hxin Hyin E. destruct (Hx x Hxin) as (e & r & _ & _ & -> & Ex).
    destruct (Hx y Hyin) as (e' & r' & _ & _ & -> & Ey). unfold h in E. rewrite Ex, Ey in E.
    injection E as -> -> -> ->. done.
  - intros ref. rewrite list_elem_of_fmap. split.
    + intros (x & -> & Hxin). destruct (Hx x Hxin) as (e & r & Hr & HPr & _ & E). exists e, r.
      unfold h. by rewrite E.
    + intros (e & r & Hr & HPr & ->). destruct (edge_u64 _ _ _ Hc Hr) as [He [Ht Hsr Hds _]].
      assert (skey_ok (mk (Type_ r) (Src r) (Dst r) e)) as Hk by (by apply Hok).
      assert (has_prefix p (key_of (mk (Type_ r) (Src r) (Dst r) e)) = true) as Hp.
      { apply Hmk; [done|]. exists (Type_ r), (Src r), (Dst r), e. split; [done|]. by apply (HP r). }
      destruct (Hcomplete _ Hk Hp (ble_prefix _ _ Hp)) as [v Hv].
      { rewrite Hcell, (proj2 (out_of_true _ _ _ _)) by (by exists r). done. }
      exists (key_of (mk (Type_ r) (Src r) (Dst r) e), v). split; [|done]. unfold h. by rewrite Hget.
Qed.
End adjacency.

Lemma wp_OutEdges T n t (Q : res (list EdgeRef) -> tables -> Prop) :
  consistent T -> u64 n -> u32 t ->
  (forall refs, edge_refs T (fun r => Src r = n /\ (t = 0 \/ Type_ r = t)) refs -> Q (Ok refs) T) ->
  wp (OutEdges n t) T Q.
Proof.
  intros Hc Hn Ht HQ. unfold OutEdges. apply wp_bind, wp_Scan. intros es Hes. cbn [on_ok].
  destruct (scan_adjacent T _ (fun t s d e => KOut s t d e)
    (fun e => '(src, typ, dst, edge) ← lift (ParseOutKey e.1); mret (mkEdgeRef edge typ src dst)) es
    (fun r => Src r = n /\ (t = 0 \/ Type_ r = t)) Hc Hes) as (refs & -> & Hrefs).
  - intros sk Hk. destruct (Z.eqb_spec t 0) as [->|Hne]; cbn [negb].
    + rewrite scan_out_all by done. split; [intros (t' & d & e & ->)|intros (t' & s & d & e & -> & [= <-] & _)]; naive_solver.
    + rewrite scan_out by done. split; [intros (d & e & ->); exists t, n, d, e; naive_solver|].
      intros (t' & s & d & e & -> & Hs & [?|Ht']); [done|]. cbn in Hs, Ht'. subst. eauto.
  - done.
  - intros t' s d e v Hk. cbn [fst]. by rewrite (parse_key (KOut s t' d e) Hk).
  - intros t' s d e. cbn. tauto.
  - intros t' s d e o. cbn. by rewrite (con_outs _ Hc).
  - by apply wp_ret, HQ.
Qed.

Lemma wp_InEdges T n t (Q : res (list EdgeRef) -> tables -> Prop) :
  consistent T -> u64 n -> u32 t ->
  (forall refs, edge_refs T (fun r => Dst r = n /\ (t = 0 \/ Type_ r = t)) refs -> Q (Ok refs) T) ->
  wp (InEdges n t) T Q.
Proof.
  intros Hc Hn Ht HQ. unfold InEdges. apply wp_bind, wp_Scan. intros es Hes. cbn [on_ok].
  destruct (scan_adjacent T _ (fun t s d e => KIn d t s e)
    (fun e => '(dst, typ, src, edge) ← lift (ParseInKey e.1); mret (mkEdgeRef edge typ src dst)) es
    (fun r => Dst r = n /\ (t = 0 \/ Type_ r = t)) Hc Hes) as (refs & -> & Hrefs).
  - intros sk Hk. destruct (Z.eqb_spec t 0) as [->|Hne]; cbn [negb].
    + rewrite scan_in_all by done. split; [intros (t' & d & e & ->)|intros (t' & s & d & e & -> & [= <-] & _)]; naive_solver.
    + rewrite scan_in by done. split; [intros (s & e & ->); exists t, s, n, e; naive_solver|].
      intros (t' & s & d & e & -> & Hs & [?|Ht']); [done|]. cbn in Hs, Ht'. subst. eauto.
  - done.
  - intros t' s d e v Hk. cbn [fst]. by rewrite (parse_key (KIn d t' s e) Hk).
  - intros t' s d e. cbn. tauto.
  - intros t' s d e o. cbn. by rewrite (con_ins _ Hc).
  - by apply wp_ret, HQ.
Qed.
