(* ===== verification/Lookups.v ===== *)
(** * Lookups: property lookups do not depend on indexes

    NodesByProperty (src/internal/graph/traversal.go) and EdgesByProperty
    (relindex.go): with an index they visit the keys of the values equal to the
    sought one, without it they scan records; on a consistent database both give
    the nodes (edges) whose property is query-equal to the value, in identifier
    order. *)
From S2P Require Import Prelude Float64 Values IndexCodec Keys Records Storage Catalog Graph Tables GraphInv NodeOps NodeUpdates Traversal.
Import Float64.

(** ** Probes *)
Lemma probes_nodup v ps b : value_ok v -> equalityProbes v = (ps, b) -> NoDup ps.
Proof.
  intros Hv E. destruct v; cbn in E; try (injection E as <- <-; apply NoDup_singleton).
  - destruct (feq (of_int z) pzero) eqn:Ez; injection E as <- <-.
    + apply feq_zero in Ez; [|by apply of_int_u64]. apply mag_of_int_zero in Ez as ->; [|done].
      repeat constructor; set_solver.
    + repeat constructor; set_solver.
  - destruct (is_nan bits); [injection E as <- <-; constructor|].
    destruct (feq bits pzero); [injection E as <- <-; repeat constructor; set_solver|].
    destruct (is_inf bits); [injection E as <- <-; apply NoDup_singleton|].
    destruct (abs_ge_exact bits); [injection E as <- <-; constructor|].
    destruct (is_integral bits); injection E as <- <-; repeat constructor; set_solver.
Qed.

Lemma QueryEqual_null s : QueryEqual s VNull = false.
Proof. unfold QueryEqual. by destruct (normalize s). Qed.

Lemma QueryEqual_not_indexable s v : isIndexable (normalize v) = false -> QueryEqual s v = false.
Proof. unfold QueryEqual. destruct (normalize v); try done; by destruct (normalize s). Qed.

Lemma QueryEqual_normalize s v : QueryEqual s (normalize v) = QueryEqual s v.
Proof. unfold QueryEqual. by rewrite normalize_idem. Qed.

Lemma prop_stored_ok v : prop_stored v -> stored_ok v.
Proof. intros Hv. pose proof (prop_stored_new _ Hv) as ([? _] & ? & _). by split. Qed.

(** Strictly increasing lists. *)
Lemma sorted_lt_le l : StronglySorted Z.lt l -> StronglySorted Z.le l.
Proof. induction 1 as [|a l Hl IH Hf]; constructor; [done|]. eapply Forall_impl; [exact Hf|]. intros; lia. Qed.

Lemma sorted_lt_nodup l : StronglySorted Z.lt l -> NoDup l.
Proof.
  induction 1 as [|a l Hl IH Hf]; constructor; [|done]. intros Hin. rewrite Forall_forall in Hf.
  specialize (Hf a Hin). lia.
Qed.

Lemma sort_ids_strict l : NoDup l -> StronglySorted Z.lt (sort_ids l).
Proof.
  intros Hnd. assert (NoDup (sort_ids l)) as Hn by (by rewrite sort_ids_perm). revert Hn.
  pose proof (sort_ids_sorted l) as Hs. induction Hs as [|a l' Hl IH Hf]; intros Hn; constructor.
  - apply IH. by inversion Hn.
  - inversion Hn as [|? ? Hnin _]; subst. rewrite Forall_forall in *. intros b Hb. specialize (Hf b Hb).
    assert (a <> b) by (intros ->; done). lia.
Qed.

(** *** Collecting the matches of each probe *)
Definition collects {A} (ids : list Z) (ps : list A) (P : A -> Z -> Prop) : Prop :=
  NoDup ids /\ forall n, n ∈ ids <-> exists p, p ∈ ps /\ P p n.

Lemma collects_nil {A} (P : A -> Z -> Prop) : collects [] [] P.
Proof. split; [constructor|]. intros n. split; [by intros ?%elem_of_nil|by intros (? & ?%elem_of_nil & _)]. Qed.

Lemma collects_snoc {A} ids ps (p : A) new (P : A -> Z -> Prop) :
  collects ids ps P -> p ∉ ps -> NoDup new -> (forall n, n ∈ new <-> P p n) ->
  (forall q n, P q n -> P p n -> q = p) -> collects (ids ++ new) (ps ++ [p]) P.
Proof.
  intros [Hn Hin] Hp Hnn Hnew Hfun. split.
  - apply NoDup_app. split; [done|]. split; [|done]. intros n (q & Hq & HPq)%Hin HPp%Hnew.
    apply Hp. by rewrite <- (Hfun q n).
  - intros n. rewrite elem_of_app, Hin, Hnew. split.
    + intros [(q & Hq & HP)|HP]; [exists q|exists p]; (split; [set_solver|done]).
    + intros (q & Hq & HP). apply elem_of_app in Hq as [Hq|Hq%list_elem_of_singleton]; [left; eauto|subst; by right].
Qed.

(** ** NodesByProperty *)
Definition node_matches (T : tables) (l k : Z) (v : value) (n : Z) : Prop :=
  exists r w, nodes T n = Some r /\ l ∈ Labels r /\ Props r !! k = Some w /\ QueryEqual w v = true.

Section node_lookup.
Context (T : tables) (l k : Z) (Hc : consistent T) (Hl : u32 l) (Hk : u32 k).

Lemma wp_index_matches out p (Q : res (list Z) -> tables -> Prop) :
  is_Some (index T (l, k)) -> value_key_ok p ->
  (forall new, NoDup new -> (forall n, n ∈ new <-> ent T (l, k, n) = Some p) -> Q (Ok (out ++ new)) T) ->
  wp (prefix ← lift (PropPrefix l k p); appendIndexMatches out prefix) T Q.
Proof.
  intros Hx Hp HQ. apply wp_bind, wp_lift. unfold PropPrefix. rewrite AppendIndexValue_app by apply Hp. cbn [on_ok].
  set (prefix := _ ++ enc_value p). assert (PropPrefix l k p = Ok prefix) as Hpre.
  { unfold PropPrefix. by rewrite AppendIndexValue_app by apply Hp. }
  unfold appendIndexMatches. apply wp_bind, wp_Scan. intros es Hes. cbn [on_ok].
  destruct (scan_ids T prefix (KProp l k p) (fun e => lift (ParsePropKeyNode e.1)) es Hes) as (ids & -> & Hs & Hin).
  - intros sk Hsk. by apply scan_prop.
  - intros n v (_ & _ & _ & Hn). split; [done|]. cbn [fst].
    destruct (parse_key (KProp l k p n)) as [_ ->]; done.
  - intros a b (_ & _ & _ & Ha) (_ & _ & _ & Hb). by apply (bcmp_last prefix).
  - apply wp_bind, wp_ret. cbn [on_ok]. apply wp_ret, HQ; [by apply sorted_lt_nodup|].
    intros n. rewrite Hin. cbn [cell]. case_bool_decide as Hd; cbn [flag].
    + split; [by intros _; apply Hd|]. intros He. split; [|done]. cbn. split_and!; try done.
      by eapply (eo_u64 _ (consistent_entries _ Hc)).
    + split; [by intros [_ []]|]. intros He. exfalso. by apply Hd.
Qed.

Lemma ent_prop n p :
  isIndexable p = true ->
  (ent T (l, k, n) = Some p <-> exists r, nodes T n = Some r /\ l ∈ Labels r /\ Props r !! k = Some p).
Proof. intros Hp. rewrite (con_ent _ Hc), entry_of_Some. split; intros (r & H); exists r; tauto. Qed.

(** The indexed path. *)
Lemma wp_probes v ps (Q : res (list Z) -> tables -> Prop) :
  is_Some (index T (l, k)) -> stored_ok v -> isIndexable v = true -> equalityProbes v = (ps, true) ->
  (forall out, collects out ps (fun p n => ent T (l, k, n) = Some p) -> Q (Ok out) T) ->
  wp (fold_prog (fun out p => prefix ← lift (PropPrefix l k p); appendIndexMatches out prefix) [] ps) T Q.
Proof.
  intros Hx Hv Hi Hps HQ. pose proof (probes_nodup _ _ _ (proj1 Hv) Hps) as Hnd.
  pose proof (probes_ok _ _ _ Hv Hps Hi) as Hok. rewrite Forall_forall in Hok.
  apply (wp_fold _ _ (fun done out T' => T' = T /\ collects out done (fun p n => ent T (l, k, n) = Some p))).
  - split; [done|apply collects_nil].
  - intros done p todo out T' E [-> Hcol]. assert (p ∈ ps) as Hp by (rewrite E; set_solver).
    apply wp_index_matches; [done|by apply Hok|]. intros new Hn Hnew. cbn [on_ok]. split; [done|].
    apply collects_snoc; try done; [|congruence]. rewrite E in Hnd. apply NoDup_app in Hnd as (_ & Hd & _).
    intros Hin. apply (Hd p Hin). left.
  - intros out T' [-> Hcol]. by apply HQ.
Qed.

Lemma matches_probes v ps n :
  stored_ok v -> isIndexable v = true -> equalityProbes v = (ps, true) ->
  (exists p, p ∈ ps /\ ent T (l, k, n) = Some p) <-> node_matches T l k v n.
Proof.
  intros Hv Hi Hps. pose proof (probes_ok _ _ _ Hv Hps Hi) as Hok. rewrite Forall_forall in Hok.
  assert (forall r w, nodes T n = Some r -> Props r !! k = Some w -> prop_stored w) as Hst.
  { intros r w Hr Hw. destruct (con_node _ Hc n r Hr) as (_ & Hs & _). by destruct (ns_props _ Hs k w Hw). }
  destruct (decide (v = VNull)) as [->|Hnull].
  - injection Hps as <-. split.
    + intros (p & ->%list_elem_of_singleton & He). apply ent_prop in He as (r & Hr & _ & Hw); [|done].
      by destruct (Hst r VNull Hr Hw) as (_ & _ & ?).
    + intros (r & w & _ & _ & _ & Hq). by rewrite QueryEqual_null in Hq.
  - split.
    + intros (p & Hp & He). destruct (Hok p Hp) as [_ Hip]. apply ent_prop in He as (r & Hr & Hlr & Hw); [|done].
      exists r, p. split_and!; try done. apply (probes_exact p v ps); try done. by apply prop_stored_ok, (Hst r p).
    + intros (r & w & Hr & Hlr & Hw & Hq). exists w.
      assert (stored_ok w) as Hsw by (by apply prop_stored_ok, (Hst r w)). split.
      * by apply (probes_exact w v ps).
      * apply ent_prop; [by eapply QueryEqual_indexable|]. eauto.
Qed.

(** The fallback. *)
Lemma wp_filter_nodes v ids (Q : res (list Z) -> tables -> Prop) :
  StronglySorted Z.lt ids -> (forall n, n ∈ ids <-> has_label T l n) ->
  (forall out, StronglySorted Z.lt out -> (forall n, n ∈ out <-> node_matches T l k v n) -> Q (Ok out) T) ->
  wp (fold_prog (fun out n =>
        node ← GetNode n;
        match Props (n_rec node) !! k with
        | Some w => mret (if QueryEqual w v then out ++ [n] else out)
        | None => mret out
        end) [] ids) T Q.
Proof.
  intros Hs Hin HQ.
  set (keep n := match nodes T n with
                 | Some r => match Props r !! k with Some w => QueryEqual w v = true | None => False end
                 | None => False end).
  assert (forall n, Decision (keep n)) as Hdec.
  { intros n. unfold keep. destruct (nodes T n) as [r|]; [destruct (Props r !! k)|]; apply _. }
  apply (wp_fold _ _ (fun done out T' => T' = T /\ out = filter keep done)).
  - done.
  - intros done n todo out T' E [-> ->]. assert (has_label T l n) as (r & Hr & Hlr) by (apply Hin; rewrite E; set_solver).
    apply wp_bind, wp_GetNode; [by eapply node_u64|]. rewrite Hr. cbn [on_ok n_rec]. rewrite filter_app.
    assert (keep n <-> exists w, Props r !! k = Some w /\ QueryEqual w v = true) as Hkeep.
    { unfold keep. rewrite Hr. destruct (Props r !! k); split; [eauto|by intros (? & [= <-] & ?)|done|by intros (? & ? & _)]. }
    destruct (Props r !! k) as [w|] eqn:Ew.
    + apply wp_ret. cbn [on_ok]. split; [done|]. destruct (QueryEqual w v) eqn:Eq.
      * rewrite filter_cons_True; [done|]. apply Hkeep. eauto.
      * rewrite filter_cons_False, filter_nil, app_nil_r; [done|]. rewrite Hkeep. intros (w' & [= <-] & ?). congruence.
    + apply wp_ret. cbn [on_ok]. split; [done|]. rewrite filter_cons_False, filter_nil, app_nil_r; [done|].
      rewrite Hkeep. by intros (w' & ? & _).
  - intros out T' [-> ->]. apply HQ.
    + clear -Hs. induction Hs as [|a ids Hs IH Hf]; [constructor|]. rewrite filter_cons. case_decide; [|done].
      constructor; [done|]. rewrite Forall_forall in *. intros b [_ Hb]%list_elem_of_filter. auto.
    + intros n. rewrite list_elem_of_filter, Hin. unfold keep, has_label, node_matches.
      destruct (nodes T n) as [r|].
      * split; [intros [Hw (r' & [= <-] & ?)]|intros (r' & w & [= <-] & ? & Hw & ?); rewrite Hw; eauto].
        destruct (Props r !! k) as [w|] eqn:E; [|done]. by exists r, w.
      * split; [by intros [[] _]|by intros (? & ? & ? & _)].
Qed.

Lemma wp_NodesByProperty v (Q : res (list Z) -> tables -> Prop) :
  value_ok v ->
  (forall ids, StronglySorted Z.lt ids -> (forall n, n ∈ ids <-> node_matches T l k v n) -> Q (Ok ids) T) ->
  wp (NodesByProperty l k v) T Q.
Proof.
  intros Hv HQ. unfold NodesByProperty. cbv zeta. apply wp_bind, wp_HasIndex; [done|done|]. cbn [on_ok].
  assert (forall n, node_matches T l k (normalize v) n <-> node_matches T l k v n) as Hnorm.
  { intros n. unfold node_matches. by setoid_rewrite QueryEqual_normalize. }
  pose proof (normalize_ok v Hv) as Hsv. destruct (equalityProbes (normalize v)) as [ps exact] eqn:Ep.
  destruct (has (index T (l, k)) && exact && isIndexable (normalize v)) eqn:Eb.
  - apply andb_true_iff in Eb as [[Hx ->]%andb_true_iff Hi].
    assert (is_Some (index T (l, k))) as Hix by (destruct (index T (l, k)); [by eexists|done]).
    apply wp_bind, (wp_probes (normalize v)); try done. intros out [Hnd Hout]. cbn [on_ok].
    apply wp_ret, HQ; [by apply sort_ids_strict|]. intros n. rewrite sort_ids_perm, Hout, <- Hnorm.
    by apply matches_probes.
  - apply wp_bind, wp_NodesByLabel; [done|done|]. intros ids Hs Hin. cbn [on_ok].
    apply (wp_filter_nodes (normalize v)); try done. intros out Hso Hout. apply HQ; [done|].
    intros n. by rewrite Hout, Hnorm.
Qed.
End node_lookup.

(** ** ScanEdgesOfType *)
Lemma elem_of_concat {A} (x : A) ls : x ∈ concat ls <-> exists l, x ∈ l /\ l ∈ ls.
Proof.
  rewrite list_elem_of_In, in_concat. split; intros (l & H1 & H2); exists l.
  - by rewrite !list_elem_of_In.
  - rewrite <- !list_elem_of_In. done.
Qed.

Definition edges_of_type (T : tables) (t : Z) (es : list Edge) : Prop :=
  StronglySorted Z.lt (e_ID <$> es) /\
  forall x, x ∈ es <-> exists e r, edges T e = Some r /\ Type_ r = t /\ x = mkEdge e r.

Lemma scan_edge_cell T e v : u64 e -> cell T (KEdge e) (Some v) -> exists r, edges T e = Some r /\ DecodeEdge v = Ok r.
Proof. intros He Hc. cbn in Hc. destruct (edges T e) as [r|]; [|done]. destruct Hc as (b & [= <-] & Hb). eauto. Qed.

Lemma edge_of_type_key t e v r :
  u64 e -> DecodeEdge v = Ok r ->
  edge_of_type t (key_of (KEdge e), v) = Ok (if Type_ r =? t then [mkEdge e r] else []).
Proof.
  intros He Hd. unfold edge_of_type. cbn [fst snd]. rewrite Hd. cbn [mbind res_bind].
  destruct (Type_ r =? t); [|done]. pose proof (parse_key (KEdge e) He) as Hp. cbn [parsed] in Hp. by rewrite Hp.
Qed.

Lemma wp_scan_edges T t (Q : res (list (list Edge)) -> tables -> Prop) :
  (forall e r, edges T e = Some r -> u64 e) ->
  (forall es, edges_of_type T t (concat es) -> Q (Ok es) T) ->
  wp (l ← Scan EdgePrefix; map_prog (fun e => lift (edge_of_type t e)) l) T Q.
Proof.
  intros Hu HQ. apply wp_bind, wp_Scan. intros l [Hs Hsound Hcomplete]. cbn [on_ok].
  assert (forall x, x ∈ l -> exists e r, u64 e /\ x.1 = key_of (KEdge e) /\ edges T e = Some r /\
    edge_of_type t x = Ok (if Type_ r =? t then [mkEdge e r] else [])) as Hx.
  { intros [k v] Hin. destruct (Hsound _ Hin) as (sk & Hsk & E & Hcell & Hp & _). cbn in E, Hcell. subst k.
    apply scan_edges in Hp as [e ->]; [|done]. destruct (scan_edge_cell _ _ _ Hsk Hcell) as (r & Hr & Hd).
    exists e, r. split_and!; try done. by apply edge_of_type_key. }
  set (h x := match edge_of_type t x with Ok es => es | Err _ => [] end).
  rewrite (map_prog_pure _ h).
  2: { intros x Hin. destruct (Hx x Hin) as (e & r & _ & _ & _ & E). unfold h. by rewrite E. }
  apply wp_ret, HQ.
  assert (forall x y, y ∈ l -> x ∈ h y -> exists r, y.1 = key_of (KEdge (e_ID x)) /\ u64 (e_ID x) /\
    edges T (e_ID x) = Some r /\ Type_ r = t /\ x = mkEdge (e_ID x) r) as Hhx.
  { intros x y Hy Hxy. destruct (Hx y Hy) as (e & r & He & Ek & Hr & E). unfold h in Hxy. rewrite E in Hxy.
    destruct (Z.eqb_spec (Type_ r) t); [|by apply elem_of_nil in Hxy]. apply list_elem_of_singleton in Hxy as ->.
    by exists r. }
  split.
  - clear Hcomplete Hsound HQ. induction l as [|y l IH]; [constructor|]. apply key_sorted_cons in Hs as [Hs Hf].
    cbn. rewrite fmap_app. assert (StronglySorted Z.lt (e_ID <$> concat (h <$> l))) as Htl.
    { apply IH; [done| |]; intros; [apply Hx; by right|eapply Hhx; [by right|done]]. }
    destruct (Hx y) as (e & r & He & Ek & Hr & E); [left|]. unfold h at 1. rewrite E.
    destruct (Type_ r =? t); [|done]. cbn. constructor; [done|]. rewrite Forall_fmap, Forall_forall. intros x Hin.
    apply elem_of_concat in Hin as (xs & Hxin & Hys). apply list_elem_of_fmap in Hys as (z & -> & Hz).
    destruct (Hhx x z) as (_ & Ekz & Hxu & _); [by right|done|]. rewrite Forall_forall in Hf. specialize (Hf z Hz).
    rewrite Ek, Ekz in Hf. change ((e ?= e_ID x) = Lt).
    rewrite <- (bcmp_last [KeyEdge] e (e_ID x)) by done. exact Hf.
  - intros x. rewrite elem_of_concat. split.
    + intros (xs & Hxin & Hys). apply list_elem_of_fmap in Hys as (z & -> & Hz).
      destruct (Hhx x z Hz Hxin) as (r & _ & _ & Hr & Ht & E). by exists (e_ID x), r.
    + intros (e & r & Hr & Ht & ->). pose proof (Hu _ _ Hr) as He.
      assert (has_prefix EdgePrefix (key_of (KEdge e)) = true) as Hp by (apply scan_edges; eauto).
      destruct (Hcomplete (KEdge e) He Hp (ble_prefix _ _ Hp)) as [v Hv].
      { cbn. rewrite Hr. by intros (? & [=] & _). }
      destruct (Hx _ Hv) as (e' & r' & He' & Ek & Hr' & E). cbn in Ek.
      assert (KEdge e = KEdge e') as [= <-] by (by apply key_of_inj). assert (r' = r) as -> by congruence.
      exists (h (key_of (KEdge e), v)). split; [|by apply list_elem_of_fmap_2]. unfold h. rewrite E.
      rewrite (proj2 (Z.eqb_eq _ _)) by done. set_solver.
Qed.

Lemma wp_edges_of_type {A} T t (k : list Edge -> prog A) (Q : res A -> tables -> Prop) :
  (forall e r, edges T e = Some r -> u64 e) ->
  (forall es, edges_of_type T t es -> wp (k es) T Q) ->
  wp (l ← Scan EdgePrefix; edges ← map_prog (fun e => lift (edge_of_type t e)) l; k (concat edges)) T Q.
Proof.
  intros Hc HQ.
  pose proof (wp_scan_edges T t (fun r T' => T' = T /\ exists es, r = Ok es /\ edges_of_type T t (concat es)) Hc) as H.
  intros m Hm. assert (forall es, edges_of_type T t (concat es) -> T = T /\ exists es0, Ok es = Ok es0 /\ edges_of_type T t (concat es0))
    as Hok by eauto. specialize (H Hok m Hm). revert H. rewrite !run_bind.
  destruct (run (Scan EdgePrefix) m) as [[l|e] m']; [|by intros (T' & _ & _ & ? & ? & _)].
  rewrite !run_bind. destruct (run (map_prog _ l) m') as [r m'']. cbn [fst snd].
  intros (T' & HT & -> & es & -> & Hes). by apply HQ.
Qed.

(** ** EdgesByProperty *)
Definition edge_matches (T : tables) (t k : Z) (v : value) (e : Z) : Prop :=
  exists r w, edges T e = Some r /\ Type_ r = t /\ EProps r !! k = Some w /\ QueryEqual w v = true.

Section edge_lookup.
Context (T : tables) (t k : Z) (Hc : consistent T) (Ht : u32 t) (Hk : u32 k).

Definition edge_hit (v : value) (e : Edge) : list Z :=
  match EProps (e_rec e) !! k with
  | Some w => if QueryEqual w v then [e_ID e] else []
  | None => []
  end.

Lemma edge_hits_sorted v es : StronglySorted Z.lt (e_ID <$> es) -> StronglySorted Z.lt (concat (edge_hit v <$> es)).
Proof.
  induction es as [|e es IH]; [constructor|]. intros [Hs Hf]%StronglySorted_inv. cbn. specialize (IH Hs).
  unfold edge_hit at 1. destruct (EProps (e_rec e) !! k) as [w|]; [|done]. destruct (QueryEqual w v); [|done].
  constructor; [done|]. rewrite Forall_forall in *. intros x Hx. apply elem_of_concat in Hx as (l & Hx & Hl).
  apply list_elem_of_fmap in Hl as (y & -> & Hy). apply Hf. apply list_elem_of_fmap. exists y. split; [|done].
  unfold edge_hit in Hx. destruct (EProps _ !! k); [|by apply elem_of_nil in Hx]. destruct (QueryEqual _ _); set_solver.
Qed.

Lemma edge_hits_in v es x :
  edges_of_type T t es -> x ∈ concat (edge_hit v <$> es) <-> edge_matches T t k v x.
Proof.
  intros [_ Hes]. rewrite elem_of_concat. split.
  - intros (l & Hx & Hl). apply list_elem_of_fmap in Hl as (y & -> & Hy). apply Hes in Hy as (e & r & Hr & Hty & ->).
    unfold edge_hit in Hx. cbn in Hx. destruct (EProps r !! k) as [w|] eqn:Ew; [|by apply elem_of_nil in Hx].
    destruct (QueryEqual w v) eqn:Eq; [|by apply elem_of_nil in Hx]. apply list_elem_of_singleton in Hx as ->.
    by exists r, w.
  - intros (r & w & Hr & Hty & Hw & Hq). exists (edge_hit v (mkEdge x r)). split.
    + unfold edge_hit. cbn. rewrite Hw, Hq. set_solver.
    + apply list_elem_of_fmap_2, Hes. eauto.
Qed.

Lemma wp_edgesByScan v (Q : res (list Z) -> tables -> Prop) :
  (forall ids, StronglySorted Z.lt ids -> (forall e, e ∈ ids <-> edge_matches T t k v e) -> Q (Ok ids) T) ->
  wp (edgesByScan t k v) T Q.
Proof.
  intros HQ. apply (wp_edges_of_type T t (fun es => mret (concat (edge_hit v <$> es)))); [by intros e r Hr; eapply edge_u64|].
  intros es Hes. apply wp_ret, HQ; [by apply edge_hits_sorted, Hes|]. intros e. by apply edge_hits_in.
Qed.

Lemma wp_rel_matches out p (Q : res (list Z) -> tables -> Prop) :
  is_Some (relindex T (t, k)) -> value_key_ok p ->
  (forall new, NoDup new -> (forall e, e ∈ new <-> rent T (t, k, e) = Some p) -> Q (Ok (out ++ new)) T) ->
  wp (prefix ← lift (RelPropPrefix t k p);
      l ← Scan prefix;
      new ← map_prog (fun e => '(_, id) ← lift (ParseRelPropKey e.1); mret id) l;
      mret (out ++ new)) T Q.
Proof.
  intros Hx Hp HQ. apply wp_bind, wp_lift. unfold RelPropPrefix. rewrite AppendIndexValue_app by apply Hp. cbn [on_ok].
  set (prefix := _ ++ enc_value p). assert (RelPropPrefix t k p = Ok prefix) as Hpre.
  { unfold RelPropPrefix. by rewrite AppendIndexValue_app by apply Hp. }
  apply wp_bind, wp_Scan. intros es Hes. cbn [on_ok].
  destruct (scan_ids T prefix (KRel t k p) (fun e => '(_, id) ← lift (ParseRelPropKey e.1); mret id) es Hes)
    as (ids & -> & Hs & Hin).
  - intros sk Hsk. by apply scan_rel.
  - intros n v Hn. split; [apply Hn|]. cbn [fst]. pose proof (parse_key (KRel t k p n) Hn) as E. cbn [parsed] in E.
    by rewrite E.
  - intros a b (_ & _ & _ & Ha) (_ & _ & _ & Hb). by apply (bcmp_last prefix).
  - apply wp_bind, wp_ret. cbn [on_ok]. apply wp_ret, HQ; [by apply sorted_lt_nodup|].
    intros n. rewrite Hin. cbn [cell]. case_bool_decide as Hd; cbn [flag].
    + split; [by intros _; apply Hd|]. intros He. split; [|done]. cbn. split_and!; try done.
      rewrite (con_rent _ Hc) in He. destruct (edges T n) as [r|] eqn:Er; [|done]. by eapply edge_u64.
    + split; [by intros [_ []]|]. intros He. exfalso. by apply Hd.
Qed.

Lemma rent_prop e p :
  isIndexable p = true ->
  (rent T (t, k, e) = Some p <-> exists r, edges T e = Some r /\ Type_ r = t /\ EProps r !! k = Some p).
Proof.
  intros Hp. rewrite (con_rent _ Hc). unfold rel_entry_of, indexed_value. destruct (edges T e) as [r|].
  - destruct (decide (Type_ r = t)) as [E|E].
    + destruct (EProps r !! k) as [w|] eqn:Ew; cbn [mbind option_bind].
      * destruct (isIndexable w) eqn:Ei.
        -- split; [intros [= ->]; eauto|intros (r' & [= <-] & _ & ?); congruence].
        -- split; [done|]. intros (r' & [= <-] & _ & ?). congruence.
      * split; [done|]. intros (r' & [= <-] & _ & ?). congruence.
    + split; [done|]. intros (r' & [= <-] & ? & _). congruence.
  - split; [done|by intros (? & ? & _)].
Qed.

Lemma wp_rel_probes v ps (Q : res (list Z) -> tables -> Prop) :
  is_Some (relindex T (t, k)) -> stored_ok v -> isIndexable v = true -> equalityProbes v = (ps, true) ->
  (forall out, collects out ps (fun p e => rent T (t, k, e) = Some p) -> Q (Ok out) T) ->
  wp (fold_prog (fun out p =>
        prefix ← lift (RelPropPrefix t k p);
        l ← Scan prefix;
        new ← map_prog (fun e => '(_, id) ← lift (ParseRelPropKey e.1); mret id) l;
        mret (out ++ new)) [] ps) T Q.
Proof.
  intros Hx Hv Hi Hps HQ. pose proof (probes_nodup _ _ _ (proj1 Hv) Hps) as Hnd.
  pose proof (probes_ok _ _ _ Hv Hps Hi) as Hok. rewrite Forall_forall in Hok.
  apply (wp_fold _ _ (fun done out T' => T' = T /\ collects out done (fun p e => rent T (t, k, e) = Some p))).
  - split; [done|apply collects_nil].
  - intros done p todo out T' E [-> Hcol]. assert (p ∈ ps) as Hp by (rewrite E; set_solver).
    apply wp_rel_matches; [done|by apply Hok|]. intros new Hn Hnew. cbn [on_ok]. split; [done|].
    apply collects_snoc; try done; [|congruence]. rewrite E in Hnd. apply NoDup_app in Hnd as (_ & Hd & _).
    intros Hin. apply (Hd p Hin). left.
  - intros out T' [-> Hcol]. by apply HQ.
Qed.

Lemma rel_matches_probes v ps e :
  stored_ok v -> isIndexable v = true -> v <> VNull -> equalityProbes v = (ps, true) ->
  (exists p, p ∈ ps /\ rent T (t, k, e) = Some p) <-> edge_matches T t k v e.
Proof.
  intros Hv Hi Hnull Hps. pose proof (probes_ok _ _ _ Hv Hps Hi) as Hok. rewrite Forall_forall in Hok.
  assert (forall r w, edges T e = Some r -> EProps r !! k = Some w -> prop_stored w) as Hst.
  { intros r w Hr Hw. destruct (edge_u64 _ _ _ Hc Hr) as [_ Hs]. by destruct (es_props _ Hs k w Hw). }
  split.
  - intros (p & Hp & He). destruct (Hok p Hp) as [_ Hip]. apply rent_prop in He as (r & Hr & Hlr & Hw); [|done].
    exists r, p. split_and!; try done. apply (probes_exact p v ps); try done. by apply prop_stored_ok, (Hst r p).
  - intros (r & w & Hr & Hlr & Hw & Hq). exists w.
    assert (stored_ok w) as Hsw by (by apply prop_stored_ok, (Hst r w)). split.
    + by apply (probes_exact w v ps).
    + apply rent_prop; [by eapply QueryEqual_indexable|]. eauto.
Qed.

Lemma wp_EdgesByProperty v (Q : res (list Z) -> tables -> Prop) :
  value_ok v ->
  (forall ids, StronglySorted Z.lt ids -> (forall e, e ∈ ids <-> edge_matches T t k v e) -> Q (Ok ids) T) ->
  wp (EdgesByProperty t k v) T Q.
Proof.
  intros Hv HQ. unfold EdgesByProperty. cbv zeta.
  assert (forall e, edge_matches T t k (normalize v) e <-> edge_matches T t k v e) as Hnorm.
  { intros n. unfold edge_matches. by setoid_rewrite QueryEqual_normalize. }
  pose proof (normalize_ok v Hv) as Hsv. destruct (is_null (normalize v)) eqn:En.
  - apply wp_ret, HQ; [constructor|]. intros e. rewrite <- Hnorm. apply is_null_spec in En. rewrite En.
    split; [by intros ?%elem_of_nil|]. intros (r & w & _ & _ & _ & Hq). by rewrite QueryEqual_null in Hq.
  - assert (normalize v <> VNull) as Hnn by (by intros E; rewrite E in En). apply wp_bind, wp_HasRelIndex; [done|done|]. cbn [on_ok].
    destruct (equalityProbes (normalize v)) as [ps exact] eqn:Ep.
    destruct (negb (has (relindex T (t, k))) || negb exact || negb (isIndexable (normalize v))) eqn:Eb.
    + apply wp_edgesByScan. intros ids Hs Hin. apply HQ; [done|]. intros e. by rewrite Hin, Hnorm.
    + apply orb_false_iff in Eb as [[Hx Hex]%orb_false_iff Hi]. apply negb_false_iff in Hx, Hex, Hi. subst exact.
      assert (is_Some (relindex T (t, k))) as Hix by (destruct (relindex T (t, k)); [by eexists|done]).
      apply wp_bind, (wp_rel_probes (normalize v)); try done. intros out [Hnd Hout]. cbn [on_ok].
      apply wp_ret, HQ; [by apply sort_ids_strict|]. intros n. rewrite sort_ids_perm, Hout, <- Hnorm.
      by apply rel_matches_probes.
Qed.
End edge_lookup.
