(* ===== verification/RangeScan.v ===== *)
(** * RangeScan: streaming scans and index ranges

    The cursors of src/internal/graph/traversal.go.  A storage iterator is the
    list of entries it has still to yield, fixed when it is opened, so a cursor
    is a record of such lists; closing an iterator releases memory and is only
    the [nc_closed] flag here. *)
From S2P Require Import Prelude Float64 FloatArith Values Scalars IndexCodec Keys Records Storage Catalog Graph.
Import Float64 Scalars.

Module RangeScan.

(** ** Data *)
Record rangeSegment := mkSegment { sg_it : list kv; sg_stop : option (value -> bool) }.

Record NodeCursor := mkCursor {
  nc_it : list kv;
  nc_byLabel : bool;
  nc_closed : bool;
  nc_segs : option (list rangeSegment);
  nc_seg : nat
}.

Record PropRange := mkPropRange {
  Lower : value; Upper : value;
  HasLower : bool; HasUpper : bool;
  LowerInclusive : bool; UpperInclusive : bool;
  Prefix : bytes; HasPrefix : bool
}.

Record bandPlan := mkBand { bp_prefix : bytes; bp_start : bytes; bp_stop : option (value -> bool) }.

(** ** Cursors *)
Definition ScanAllNodes : prog NodeCursor :=
  it ← Scan NodePrefix; mret (mkCursor it false false None 0).
Definition ScanLabel (labelID : Z) : prog NodeCursor :=
  it ← Scan (LabelPrefix labelID); mret (mkCursor it true false None 0).

Definition Close (c : NodeCursor) : NodeCursor :=
  mkCursor (nc_it c) (nc_byLabel c) true (nc_segs c) (nc_seg c).

Definition at_seg (c : NodeCursor) (segs : list rangeSegment) (i : nat) : NodeCursor :=
  mkCursor (nc_it c) (nc_byLabel c) (nc_closed c) (Some segs) i.

Fixpoint range_next (fuel : nat) (segs : list rangeSegment) (c : NodeCursor) : prog (option Node * NodeCursor) :=
  match fuel with
  | O => throw ErrOutOfFuel
  | S fuel =>
      match segs !! nc_seg c with
      | None => mret (None, Close c)
      | Some sg =>
          let skip := range_next fuel segs (at_seg c segs (S (nc_seg c))) in
          match sg_it sg with
          | [] => skip
          | e :: it' =>
              '(v, id) ← lift (ParsePropKey e.1);
              if (match sg_stop sg with Some stop => stop v | None => false end : bool) then skip
              else
                node ← GetNode id;
                mret (Some node, at_seg c (<[nc_seg c := mkSegment it' (sg_stop sg)]> segs) (nc_seg c))
          end
      end
  end.

Definition nextInRange (segs : list rangeSegment) (c : NodeCursor) : prog (option Node * NodeCursor) :=
  range_next (S (length segs)) segs c.

Definition Next (c : NodeCursor) : prog (option Node * NodeCursor) :=
  if nc_closed c then mret (None, c)
  else match nc_segs c with
  | Some segs => nextInRange segs c
  | None =>
      match nc_it c with
      | [] => mret (None, Close c)
      | e :: it' =>
          let c' := mkCursor it' (nc_byLabel c) (nc_closed c) None (nc_seg c) in
          if nc_byLabel c then
            '(_, id) ← lift (ParseLabelKey e.1);
            node ← GetNode id; mret (Some node, c')
          else
            id ← lift (NodeIDFromKey e.1);
            rec ← lift (DecodeNode e.2);
            mret (Some (mkNode id rec), c')
      end
  end.

(** ** The bands of a range *)
Definition valueKind (v : value) : bytes :=
  match v with
  | VInt _ => str "number"
  | VFloat x => if is_nan x then [] else str "number"
  | VStr _ => str "string"
  | VBool _ => str "bool"
  | _ => []
  end.

Definition MaxInt64 : Z := two63 - 1.

Definition intLowerBound (b : value) (inclusive : bool) : option Z :=
  match b with
  | VInt x => if inclusive then Some x else if x =? MaxInt64 then None else Some (x + 1)
  | VFloat x =>
      if is_inf x || abs_ge_exact x then None
      else if inclusive then Some (ceil_int x) else Some (floor_int x + 1)
  | _ => None
  end.

Definition intUpperBound (b : value) (inclusive : bool) : option Z :=
  match b with
  | VInt x => if inclusive then Some x else if x =? MinInt64 then None else Some (x - 1)
  | VFloat x =>
      if is_inf x || abs_ge_exact x then None
      else if inclusive then Some (floor_int x) else Some (ceil_int x - 1)
  | _ => None
  end.

Definition intBand (prefix : bytes) (labelID keyID : Z) (r : PropRange) (lo hi : value) : res bandPlan :=
  start ← match (if HasLower r then intLowerBound lo (LowerInclusive r) else None) with
          | Some l => PropPrefix labelID keyID (VInt l)
          | None => Ok prefix
          end;
  Ok (mkBand prefix start
    match (if HasUpper r then intUpperBound hi (UpperInclusive r) else None) with
    | Some u => Some (fun v => match v with VInt i => u <? i | _ => true end)
    | None => None
    end).

(** [(f, exact)]. *)
Definition floatBound (v : value) : option (Z * bool) :=
  match v with
  | VInt x => Some (of_int x, (- maxExactInt <? x) && (x <? maxExactInt))
  | VFloat x => Some (x, true)
  | _ => None
  end.

Definition float_lower (l : Z) (exact inclusive : bool) : Z :=
  if negb exact then next_down l
  else if negb inclusive then next_up l
  else if feq l pzero then nzero
  else l.

Definition floatBand (prefix : bytes) (labelID keyID : Z) (r : PropRange) (lo hi : value) : res bandPlan :=
  start ← match (if HasLower r then floatBound lo else None) with
          | Some (l, exact) =>
              if is_ninf l then Ok prefix
              else PropPrefix labelID keyID (VFloat (float_lower l exact (LowerInclusive r)))
          | None => Ok prefix
          end;
  Ok (mkBand prefix start
    match (if HasUpper r then floatBound hi else None) with
    | Some (u, exact) =>
        if is_pinf u then None
        else
          let '(u, inclusive) := if negb exact then (next_up u, true) else (u, UpperInclusive r) in
          Some (fun v => match v with
            | VFloat f => if inclusive then flt u f else fle u f
            | _ => true
            end)
    | None => None
    end).

(** The kind of the bounds present; [None] when no value can satisfy them. *)
Fixpoint bounds_kind (kind : bytes) (bounds : list (value * bool)) : option bytes :=
  match bounds with
  | [] => Some kind
  | (v, has) :: rest =>
      if negb has then bounds_kind kind rest
      else
        let k := valueKind v in
        if bool_decide (k = []) || (negb (bool_decide (kind = [])) && negb (bool_decide (k = kind))) then None
        else bounds_kind k rest
  end.

Definition rangeBands (labelID keyID : Z) (r : PropRange) : res (option (list bandPlan)) :=
  if HasPrefix r then
    let p := AppendStringPrefix (take 9 (PropBandPrefix labelID keyID BandString)) (Prefix r) in
    Ok (Some [mkBand p p None])
  else
    let lo := normalize (Lower r) in
    let hi := normalize (Upper r) in
    match bounds_kind [] [(lo, HasLower r); (hi, HasUpper r)] with
    | None => Ok None
    | Some kind =>
        let band := PropBandPrefix labelID keyID in
        if kind =s "string" then
          let p := band BandString in
          start ← (if HasLower r then PropPrefix labelID keyID lo else Ok p);
          let stop := if HasUpper r then
              match hi with
              | VStr u => Some (fun v => match v with VStr s => bool_decide (blt u s) | _ => true end)
              | _ => None
              end
            else None in
          Ok (Some [mkBand p start stop])
        else if kind =s "bool" then Ok (Some [mkBand (band BandBool) (band BandBool) None])
        else
          ib ← intBand (band BandInt) labelID keyID r lo hi;
          fb ← floatBand (band BandFloat) labelID keyID r lo hi;
          Ok (Some [ib; fb])
    end.

Definition ScanPropertyRange (labelID keyID : Z) (r : PropRange) : prog (option NodeCursor) :=
  plans ← lift (rangeBands labelID keyID r);
  match plans with
  | None => mret None
  | Some plans =>
      segs ← map_prog (fun p => it ← ScanFrom (bp_prefix p) (bp_start p); mret (mkSegment it (bp_stop p))) plans;
      mret (Some (mkCursor [] false false (Some segs) 0))
  end.

(** Reading a cursor to its end. *)
Fixpoint drain (fuel : nat) (c : NodeCursor) : prog (list Node) :=
  match fuel with
  | O => throw ErrOutOfFuel
  | S fuel =>
      '(o, c') ← Next c;
      match o with
      | None => mret []
      | Some n => ns ← drain fuel c'; mret (n :: ns)
      end
  end.
End RangeScan.
