(* ===== verification/Ranges.v ===== *)
(** * Ranges: what streaming scans and index ranges return

    Reading a cursor to its end terminates and yields each node once; the range
    scan of an indexed property yields every node whose value the comparison
    operators of queries accept. *)
From S2P Require Import Prelude Float64 FloatArith Values Scalars IndexCodec Keys Records Storage Catalog Graph RangeScan.
From S2P Require Import Tables GraphInv NodeOps NodeUpdates Traversal Lookups.
Import Float64 Scalars RangeScan.

(** ** Bounds as index positions *)

(** The rank of floats in the index agrees with their order. *)
Lemma rank_le_fnum a b :
  u64 a -> u64 b -> is_nan a = false -> is_nan b = false -> float_rank a <= float_rank b -> fnum a <= fnum b.
Proof.
  intros Ha Hb Na Nb Hr. destruct (Z_le_gt_dec (fnum a) (fnum b)) as [|Hgt]; [done|].
  pose proof (float_rank_flt b a Hb Ha). unfold flt in *. rewrite Na, Nb in *. cbn [negb andb] in *.
  destruct (Z.ltb_spec (fnum b) (fnum a)); lia.
Qed.

Lemma fnum_lt_rank a b :
  u64 a -> u64 b -> is_nan a = false -> is_nan b = false -> fnum a < fnum b -> float_rank a < float_rank b.
Proof.
  intros Ha Hb Na Nb Hlt. apply float_rank_flt; try done. unfold flt. rewrite Na, Nb. by apply Z.ltb_lt.
Qed.

Lemma rank_of_bits s m : 0 <= m < two63 -> float_rank ((if s : bool then two63 else 0) + m) = if s then - 1 - m else m.
Proof.
  intros Hm. unfold float_rank. destruct s; [by rewrite sgn_neg, mag_neg|]. by rewrite Z.add_0_l, sgn_pos, mag_pos.
Qed.

Lemma not_nan_mag a : is_nan a = false -> mag a <= inf_mag.
Proof. unfold is_nan. intros. lia. Qed.

(** One step up in the index from a number that is not the last one. *)
Lemma next_up_rank x :
  u64 x -> is_nan x = false -> is_pinf x = false -> u64 (next_up x) /\ is_nan (next_up x) = false /\
  float_rank (next_up x) = (if fnum x =? 0 then 1 else float_rank x + 1).
Proof.
  intros Hx Nx Px. unfold next_up. rewrite Nx. pose proof (mag_range x) as Hm. pose proof (not_nan_mag x Nx) as Hi.
  pose proof inf_mag_lt as Hlt. pose proof (bits_split x Hx) as Ex.
  assert (feq x pinf = false) as ->.
  { unfold feq. destruct (Z.eqb_spec (fnum x) (fnum pinf)) as [E|]; [|by rewrite andb_false_r].
    exfalso. apply fnum_eq_iff in E as [->|[_ E]]; [by vm_compute in Px| |done|by vm_compute]. by vm_compute in E. }
  destruct (Z.eqb_spec (fnum x) 0) as [E0|H0]; [by vm_compute|].
  assert (mag x <> 0) as Hm0 by (intros E; by apply H0, fnum_zero).
  pose proof (mag_num_pos (mag x) ltac:(lia)) as Hpos.
  unfold fnum in *. unfold is_pinf, is_inf in Px. destruct (sgn x) eqn:Es.
  - rewrite (proj2 (Z.ltb_ge 0 _)) by lia. rewrite Ex. replace (two63 + mag x - 1) with ((if true then two63 else 0) + (mag x - 1)) by lia.
    rewrite (rank_of_bits true) by lia. unfold is_nan. rewrite mag_neg by lia.
    split_and!; [solve_width|apply Z.ltb_ge; lia|]. unfold float_rank. rewrite sgn_neg, mag_neg by lia. lia.
  - rewrite (proj2 (Z.ltb_lt 0 _)) by lia. assert (mag x <> inf_mag) as Hni by (rewrite andb_true_r in Px; lia).
    rewrite Ex, Z.add_0_l. unfold float_rank. rewrite !sgn_pos, !mag_pos by lia. unfold is_nan. rewrite mag_pos by lia.
    split_and!; [solve_width|apply Z.ltb_ge; lia|done].
Qed.

(** One step down from a finite non-zero number. *)
Lemma next_down_rank x :
  u64 x -> is_nan x = false -> is_inf x = false -> fnum x <> 0 ->
  u64 (next_down x) /\ is_nan (next_down x) = false /\ float_rank (next_down x) = float_rank x - 1.
Proof.
  intros Hx Nx Ix H0. unfold next_down. rewrite Nx. pose proof (mag_range x) as Hm. pose proof (not_nan_mag x Nx) as Hi.
  pose proof inf_mag_lt as Hlt. pose proof (bits_split x Hx) as Ex. unfold is_inf in Ix.
  assert (feq x ninf = false) as ->.
  { unfold feq. destruct (Z.eqb_spec (fnum x) (fnum ninf)) as [E|]; [|by rewrite andb_false_r].
    exfalso. apply fnum_eq_iff in E as [->|[_ E]]; [by vm_compute in Ix| |done|by vm_compute]. by vm_compute in E. }
  rewrite (proj2 (Z.eqb_neq _ _)) by done.
  assert (mag x <> 0) as Hm0 by (intros E; by apply H0, fnum_zero).
  pose proof (mag_num_pos (mag x) ltac:(lia)) as Hpos. unfold fnum in *. destruct (sgn x) eqn:Es.
  - rewrite (proj2 (Z.ltb_ge 0 _)) by lia. rewrite Ex. replace (two63 + mag x + 1) with ((if true then two63 else 0) + (mag x + 1)) by lia.
    rewrite (rank_of_bits true) by lia. unfold is_nan. rewrite mag_neg by lia.
    split_and!; [solve_width|apply Z.ltb_ge; lia|]. unfold float_rank. rewrite sgn_neg, mag_neg by lia. lia.
  - rewrite (proj2 (Z.ltb_lt 0 _)) by lia. rewrite Ex, Z.add_0_l. unfold float_rank.
    rewrite !sgn_pos, !mag_pos by lia. unfold is_nan. rewrite mag_pos by lia.
    split_and!; [solve_width|apply Z.ltb_ge; lia|done].
Qed.

(** ** What a bound accepts *)
Definition accepts_lower (incl : bool) (v b : value) : Prop :=
  compareOp (if incl then str ">=" else str ">") v b = VBool true.
Definition accepts_upper (incl : bool) (v b : value) : Prop :=
  compareOp (if incl then str "<=" else str "<") v b = VBool true.

(** Numbers compare as integers when both are, by their float values otherwise. *)
Definition num_pair (a b : value) : option (Z * Z) :=
  match a, b with
  | VInt x, VInt y => Some (x, y)
  | VInt x, VFloat y => Some (fnum (of_int x), fnum y)
  | VFloat x, VInt y => Some (fnum x, fnum (of_int y))
  | VFloat x, VFloat y => Some (fnum x, fnum y)
  | _, _ => None
  end.

Lemma compareOp_true op v b :
  compareOp op v b = VBool true ->
  exists c, compareValues v b = Some c /\ isNaN (normalize v) = false /\ isNaN (normalize b) = false /\
    ((op = str "<" /\ c < 0) \/ (op = str "<=" /\ c <= 0) \/ (op = str ">" /\ 0 < c) \/ (op = str ">=" /\ 0 <= c)).
Proof.
  rewrite compareOp_sign. destruct (_ || _); [done|]. destruct (isNaN (normalize v)), (isNaN (normalize b)); try done. cbn [orb].
  destruct (compareValues v b) as [c|]; [|done]. intros E. exists c. split_and!; [done..|].
  repeat case_bool_decide; try done; injection E as E; [left|right; left|do 2 right; left|do 3 right]; split; try done; lia.
Qed.

Lemma compareValues_num a b p q :
  value_ok a -> value_ok b -> isNaN a = false -> isNaN b = false -> num_pair a b = Some (p, q) ->
  compareValues a b = Some (cmpInt64 p q).
Proof.
  destruct a, b; try done; cbn; intros Ha Hb Na Nb [= <- <-]; unfold compareValues; cbn; try done;
    by rewrite cmpFloat64_fnum by auto using of_int_not_nan.
Qed.

Lemma accepts_lower_num incl v b p q :
  value_ok v -> value_ok b -> num_pair v b = Some (p, q) -> accepts_lower incl v b ->
  isNaN v = false /\ isNaN b = false /\ (if incl then q <= p else q < p).
Proof.
  intros Hv Hb Hp (c & Ec & Nv & Nb & Hop)%compareOp_true.
  assert (normalize v = v /\ normalize b = b) as [Ev Eb] by (by destruct v, b). rewrite Ev in Nv. rewrite Eb in Nb.
  rewrite (compareValues_num v b p q) in Ec by done. injection Ec as <-. unfold cmpInt64 in Hop. split_and!; [done..|].
  destruct incl; destruct_or! Hop; destruct Hop as [E Hc]; try (by vm_compute in E); zcases; lia.
Qed.

Lemma accepts_upper_num incl v b p q :
  value_ok v -> value_ok b -> num_pair v b = Some (p, q) -> accepts_upper incl v b ->
  isNaN v = false /\ isNaN b = false /\ (if incl then p <= q else p < q).
Proof.
  intros Hv Hb Hp (c & Ec & Nv & Nb & Hop)%compareOp_true.
  assert (normalize v = v /\ normalize b = b) as [Ev Eb] by (by destruct v, b). rewrite Ev in Nv. rewrite Eb in Nb.
  rewrite (compareValues_num v b p q) in Ec by done. injection Ec as <-. unfold cmpInt64 in Hop. split_and!; [done..|].
  destruct incl; destruct_or! Hop; destruct Hop as [E Hc]; try (by vm_compute in E); zcases; lia.
Qed.

(** A float bound below 2^53 against the float of an integer. *)
Lemma of_int_bounds x f :
  i64 x -> abs_ge_exact f = false ->
  (fnum f <= fnum (of_int x) -> fnum f <= x * unit1074) /\ (fnum f < fnum (of_int x) -> fnum f < x * unit1074) /\
  (fnum (of_int x) <= fnum f -> x * unit1074 <= fnum f) /\ (fnum (of_int x) < fnum f -> x * unit1074 < fnum f).
Proof.
  intros Hx Hf. unfold abs_ge_exact, maxExactInt in Hf. apply Z.leb_gt in Hf.
  assert (0 < unit1074) as Hu by done. assert (0 < two53) by done.
  destruct (decide (- two53 < x < two53)) as [Hs|Hs]; [by rewrite of_int_exact by done|].
  destruct (Z_le_gt_dec two53 x) as [Hb|Hb].
  - pose proof (of_int_large x Hx Hb). nia.
  - pose proof (of_int_large_neg x Hx ltac:(lia)). nia.
Qed.

Lemma exact_float_range f : abs_ge_exact f = false -> i64 (ceil_int f) /\ i64 (floor_int f + 1) /\ i64 (floor_int f) /\ i64 (ceil_int f - 1).
Proof.
  unfold abs_ge_exact, maxExactInt, ceil_int, floor_int. intros Hf%Z.leb_gt. assert (0 < unit1074) as Hu by done.
  assert (two53 + 2 < two63) by done.
  assert (- two53 <= fnum f / unit1074 < two53) by (split; [apply Z.div_le_lower_bound|apply Z.div_lt_upper_bound]; lia).
  assert (- two53 <= - fnum f / unit1074 < two53) by (split; [apply Z.div_le_lower_bound|apply Z.div_lt_upper_bound]; lia).
  unfold i64. lia.
Qed.

Lemma intLowerBound_ok lo incl l x :
  value_ok lo -> i64 x -> intLowerBound lo incl = Some l -> accepts_lower incl (VInt x) lo -> i64 l /\ l <= x.
Proof.
  intros Hlo Hx. destruct lo as [| | |b|f| | | | | | |]; try done; cbn [intLowerBound].
  - intros E Ha. destruct (accepts_lower_num incl (VInt x) (VInt b) x b Hx Hlo eq_refl Ha) as (_ & _ & H).
    destruct incl; [injection E as <-; split; [done|lia]|]. unfold MaxInt64 in E. destruct (Z.eqb_spec b (two63 - 1)); [done|].
    injection E as <-. cbn in Hlo. split; [solve_width|lia].
  - destruct (is_inf f || abs_ge_exact f) eqn:Ef; [done|]. apply orb_false_iff in Ef as [_ Ef]. intros E Ha.
    destruct (accepts_lower_num incl (VInt x) (VFloat f) _ _ Hx Hlo eq_refl Ha) as (_ & _ & H).
    destruct (of_int_bounds x f Hx Ef) as (H1 & H2 & _). destruct (exact_float_range f Ef) as (R1 & R2 & _).
    assert (0 < unit1074) by done. destruct incl; injection E as <-; (split; [done|]).
    + unfold ceil_int. assert (- x <= - fnum f / unit1074); [|lia]. apply Z.div_le_lower_bound; [done|]. specialize (H1 H). lia.
    + unfold floor_int. assert (fnum f / unit1074 < x); [|lia]. apply Z.div_lt_upper_bound; [done|]. specialize (H2 H). lia.
Qed.

Lemma intUpperBound_ok hi incl u x :
  value_ok hi -> i64 x -> intUpperBound hi incl = Some u -> accepts_upper incl (VInt x) hi -> x <= u.
Proof.
  intros Hhi Hx. destruct hi as [| | |b|f| | | | | | |]; try done; cbn [intUpperBound].
  - intros E Ha. destruct (accepts_upper_num incl (VInt x) (VInt b) x b Hx Hhi eq_refl Ha) as (_ & _ & H).
    destruct incl; [injection E as <-; lia|]. destruct (Z.eqb_spec b MinInt64); [done|]. injection E as <-. lia.
  - destruct (is_inf f || abs_ge_exact f) eqn:Ef; [done|]. apply orb_false_iff in Ef as [_ Ef]. intros E Ha.
    destruct (accepts_upper_num incl (VInt x) (VFloat f) _ _ Hx Hhi eq_refl Ha) as (_ & _ & H).
    destruct (of_int_bounds x f Hx Ef) as (_ & _ & H3 & H4). assert (0 < unit1074) by done.
    destruct incl; injection E as <-.
    + unfold floor_int. apply Z.div_le_lower_bound; [done|]. specialize (H3 H). lia.
    + unfold ceil_int. assert (- fnum f / unit1074 < - x); [|lia]. apply Z.div_lt_upper_bound; [done|]. specialize (H4 H). lia.
Qed.

(** The float a bound is compared as. *)
Lemma floatBound_spec b f exact :
  value_ok b -> isNaN b = false -> floatBound b = Some (f, exact) ->
  u64 f /\ is_nan f = false /\ (forall g, num_pair (VFloat g) b = Some (fnum g, fnum f)) /\
  (exact = false -> is_inf f = false /\ fnum f <> 0).
Proof.
  intros Hb Nb. destruct b as [| | |x|y| | | | | | |]; try done; cbn; intros [= <- <-].
  - pose proof (of_int_u64 x Hb). pose proof (of_int_not_nan x Hb) as Nx. split_and!; try done. intros Hex. split.
    + unfold is_inf. destruct (Z.eqb_spec (mag (of_int x)) inf_mag) as [E|]; [|done]. exfalso.
      clear Hex. revert E. cbn in Hb. unfold of_int. pose proof inf_mag_lt. assert (0 < two52) by done. zcases; [by vm_compute| |].
      * pose proof (of_pos_range x ltac:(solve_width)). rewrite mag_pos by lia. lia.
      * pose proof (of_pos_range (- x) ltac:(solve_width)). rewrite mag_neg by lia. lia.
    + intros E. apply of_int_zero_iff in E as ->; [|done]. by vm_compute in Hex.
  - split_and!; try done.
Qed.

Lemma float_lower_ok lo f exact incl g :
  value_ok lo -> u64 g -> floatBound lo = Some (f, exact) -> is_ninf f = false -> accepts_lower incl (VFloat g) lo ->
  u64 (float_lower f exact incl) /\ float_rank (float_lower f exact incl) <= float_rank g.
Proof.
  intros Hlo Hg Hf Hni Ha.
  assert (isNaN lo = false) as Nlo.
  { apply compareOp_true in Ha as (c & _ & _ & Nb & _). by destruct lo. }
  destruct (floatBound_spec lo f exact Hlo Nlo Hf) as (Uf & Nf & Hp & Hex).
  destruct (accepts_lower_num incl (VFloat g) lo _ _ Hg Hlo (Hp g) Ha) as (Ng & _ & H). cbn in Ng.
  unfold float_lower. destruct exact; cbn [negb].
  - destruct incl; cbn [negb].
    + assert (feq f pzero = (fnum f =? 0)) as -> by (unfold feq; rewrite Nf; done).
      destruct (Z.eqb_spec (fnum f) 0) as [E0|H0].
      * split; [unfold nzero; solve_width|]. change (float_rank nzero) with (-1).
        destruct (Z_le_gt_dec (-1) (float_rank g)) as [|Hlt]; [done|]. exfalso.
        assert (fnum g < 0); [|lia]. unfold float_rank, fnum in *. pose proof (mag_range g). destruct (sgn g); [|lia].
        pose proof (mag_num_pos (mag g) ltac:(lia)). lia.
      * split; [done|]. destruct (decide (fnum f = fnum g)) as [E|]; [|apply Z.lt_le_incl, fnum_lt_rank; try done; lia].
        apply fnum_eq_iff in E as [->|[E _]]; [done| |done|done]. exfalso. by apply H0, fnum_zero.
    + assert (is_pinf f = false) as Pf.
      { unfold is_pinf. destruct (is_inf f && negb (sgn f)) eqn:Ei; [|done]. exfalso.
        apply andb_true_iff in Ei as [Ei Es]. unfold is_inf in Ei. apply Z.eqb_eq in Ei.
        unfold fnum in H at 1. rewrite Ei in H. destruct (sgn f); [done|]. pose proof (mag_range g) as Hm.
        assert (fnum g <= mag_num inf_mag); [|lia]. unfold fnum. pose proof (mag_num_nonneg (mag g) ltac:(lia)).
        pose proof (mag_num_nonneg inf_mag ltac:(done)). destruct (sgn g); [lia|].
        destruct (Z_le_gt_dec (mag_num (mag g)) (mag_num inf_mag)) as [|Hgt]; [done|].
        pose proof (mag_num_lt_inv inf_mag (mag g) ltac:(done) ltac:(lia) ltac:(lia)). pose proof (not_nan_mag g Ng). lia. }
      destruct (next_up_rank f Uf Nf Pf) as (Un & _ & ->). split; [done|].
      pose proof (fnum_lt_rank f g Uf Hg Nf Ng H). destruct (Z.eqb_spec (fnum f) 0) as [E0|]; [|lia].
      rewrite E0 in H. unfold float_rank, fnum in *. pose proof (mag_range g). pose proof (mag_num_nonneg (mag g) ltac:(lia)).
      destruct (sgn g); [lia|]. destruct (decide (mag g = 0)) as [Em|]; [|lia]. rewrite Em, mag_num_0 in H. lia.
  - destruct (Hex eq_refl) as [Hinf H0]. destruct (next_down_rank f Uf Nf Hinf H0) as (Un & _ & ->). split; [done|].
    destruct (decide (fnum f = fnum g)) as [E|Hne].
    + apply fnum_eq_iff in E as [->|[E _]]; [lia| |done|done]. exfalso. by apply H0, fnum_zero.
    + pose proof (fnum_lt_rank f g Uf Hg Nf Ng ltac:(destruct incl; lia)). lia.
Qed.

(** The stop test of the float band never stops before an accepted value. *)
Lemma float_stop_ok hi f exact incl g g' :
  value_ok hi -> u64 g -> u64 g' -> floatBound hi = Some (f, exact) -> is_pinf f = false ->
  accepts_upper incl (VFloat g) hi -> float_rank g' <= float_rank g ->
  (let '(u, i) := if negb exact then (next_up f, true) else (f, incl) in if i : bool then flt u g' else fle u g') = false.
Proof.
  intros Hhi Hg Hg' Hf Hpi Ha Hr.
  assert (isNaN hi = false) as Nhi.
  { apply compareOp_true in Ha as (c & _ & _ & Nb & _). by destruct hi. }
  destruct (floatBound_spec hi f exact Hhi Nhi Hf) as (Uf & Nf & Hp & Hex).
  destruct (accepts_upper_num incl (VFloat g) hi _ _ Hg Hhi (Hp g) Ha) as (Ng & _ & H). cbn in Ng.
  destruct (is_nan g') eqn:Ng'; [destruct exact, incl; cbn [negb]; unfold flt, fle; rewrite Ng'; by rewrite andb_false_r|].
  pose proof (rank_le_fnum g' g Hg' Hg Ng' Ng Hr) as Hle.
  destruct exact; cbn [negb].
  - unfold flt, fle. rewrite Nf, Ng'. cbn. destruct incl; lia.
  - destruct (Hex eq_refl) as [_ H0]. destruct (next_up_rank f Uf Nf Hpi) as (Un & Nn & Er).
    rewrite (proj2 (Z.eqb_neq _ _) H0) in Er.
    assert (fnum f <= fnum (next_up f)) by (apply rank_le_fnum; try done; lia).
    unfold flt. rewrite Nn, Ng'. cbn. destruct incl; lia.
Qed.

(** ** Reading a cursor to its end *)

(** The nodes with these identifiers, in this order. *)
Definition nodes_of (T : tables) (ids : list Z) (ns : list Node) : Prop :=
  Forall2 (fun n x => n_ID x = n /\ nodes T n = Some (n_rec x)) ids ns.

(** What a segment has still to yield. *)
Fixpoint seg_ids (stop : value -> bool) (it : list kv) : list Z :=
  match it with
  | [] => []
  | e :: it' =>
      match ParsePropKey e.1 with
      | Ok (v, n) => if stop v then [] else n :: seg_ids stop it'
      | Err _ => []
      end
  end.
Definition stops (sg : rangeSegment) (v : value) : bool := match sg_stop sg with Some s => s v | None => false end.
Definition seg_out (sg : rangeSegment) : list Z := seg_ids (stops sg) (sg_it sg).
Definition pending (segs : list rangeSegment) : list Z := concat (seg_out <$> segs).

Section cursor.
Context (T : tables) (l k : Z) (Hc : consistent T) (Hl : u32 l) (Hk : u32 k).

(** An iterator over entries of the index on (l, k). *)
Definition it_ok (it : list kv) : Prop :=
  Forall (fun e => exists v n, skey_ok (KProp l k v n) /\ e.1 = key_of (KProp l k v n) /\ ent T (l, k, n) = Some v) it.
Definition seg_ok (sg : rangeSegment) : Prop := it_ok (sg_it sg).

Lemma entry_node n v : ent T (l, k, n) = Some v -> exists r, nodes T n = Some r /\ l ∈ Labels r /\ Props r !! k = Some v /\ isIndexable v = true.
Proof. rewrite (con_ent _ Hc), entry_of_Some. naive_solver. Qed.

Lemma wp_range_next fuel segs c (Q : res (option Node * NodeCursor) -> tables -> Prop) :
  Forall seg_ok segs -> (length segs - nc_seg c < fuel)%nat ->
  (pending (drop (nc_seg c) segs) = [] -> forall c', Q (Ok (None, c')) T) ->
  (forall n rest rec segs' i, pending (drop (nc_seg c) segs) = n :: rest -> nodes T n = Some rec ->
    Forall seg_ok segs' -> length segs' = length segs -> pending (drop i segs') = rest ->
    Q (Ok (Some (mkNode n rec), at_seg c segs' i)) T) ->
  wp (range_next fuel segs c) T Q.
Proof.
  intros Hs. revert c Q. induction fuel as [|fuel IH]; intros c Q Hf Hnil Hcons; [lia|]. cbn [range_next].
  destruct (segs !! nc_seg c) as [sg|] eqn:E.
  2: { apply wp_ret, Hnil. apply lookup_ge_None in E. by rewrite drop_ge. }
  pose proof (lookup_lt_Some _ _ _ E) as Hlt. pose proof (drop_S _ _ _ E) as Ed.
  assert (forall Q', (pending (drop (S (nc_seg c)) segs) = [] -> forall c', Q' (Ok (None, c')) T) ->
    (forall n rest rec segs' i, pending (drop (S (nc_seg c)) segs) = n :: rest -> nodes T n = Some rec ->
      Forall seg_ok segs' -> length segs' = length segs -> pending (drop i segs') = rest ->
      Q' (Ok (Some (mkNode n rec), at_seg c segs' i)) T) ->
    wp (range_next fuel segs (at_seg c segs (S (nc_seg c)))) T Q') as Hskip.
  { intros Q' H1 H2. apply IH; cbn [nc_seg at_seg]; [lia|done|]. intros. by apply H2 with rest. }
  rewrite Ed in Hnil, Hcons. unfold pending in Hnil, Hcons. cbn [fmap list_fmap concat] in Hnil, Hcons.
  destruct (sg_it sg) as [|e it'] eqn:Eit.
  { unfold seg_out in Hnil, Hcons. rewrite Eit in Hnil, Hcons. cbn [seg_ids app] in Hnil, Hcons. by apply Hskip. }
  assert (it_ok (e :: it')) as Hit by (rewrite <- Eit; by apply (Forall_lookup_1 _ _ _ _ Hs E)).
  inversion Hit as [|? ? (v & n & Hsk & Ek & He) Hit']; subst.
  assert (ParsePropKey e.1 = Ok (v, n)) as Hp by (rewrite Ek; by destruct (parse_key _ Hsk)).
  rewrite Hp. cbn [lift mbind prog_bind].
  unfold seg_out in Hnil, Hcons. rewrite Eit in Hnil, Hcons. cbn [seg_ids] in Hnil, Hcons. rewrite Hp in Hnil, Hcons.
  unfold stops in Hnil at 1, Hcons at 1.
  destruct (match sg_stop sg with Some s => s v | None => false end) eqn:Es; [by apply Hskip|].
  destruct (entry_node n v He) as (r & Hr & _). destruct Hsk as (_ & _ & _ & Hn).
  apply wp_bind, wp_GetNode; [done|]. rewrite Hr. cbn [on_ok]. apply wp_ret.
  apply Hcons with (rest := seg_ids (stops sg) it' ++ concat (seg_out <$> drop (S (nc_seg c)) segs)); try done.
  - apply Forall_insert; done.
  - by rewrite length_insert.
  - rewrite (drop_S _ (mkSegment it' (sg_stop sg))) by (by apply list_lookup_insert_eq).
    rewrite drop_insert_lt by lia. done.
Qed.

Lemma wp_drain_range ids c segs fuel (Q : res (list Node) -> tables -> Prop) :
  nc_closed c = false -> nc_segs c = Some segs -> Forall seg_ok segs -> pending (drop (nc_seg c) segs) = ids ->
  (length ids < fuel)%nat -> (forall ns, nodes_of T ids ns -> Q (Ok ns) T) -> wp (drain fuel c) T Q.
Proof.
  revert c segs ids Q. induction fuel as [|fuel IH]; intros c segs ids Q Hcl Hsg Hs Hp Hf HQ; [lia|].
  cbn [drain]. apply wp_bind. unfold Next. rewrite Hcl, Hsg. apply wp_range_next; [done|lia|..].
  - intros E c'. cbn [on_ok]. apply wp_ret, HQ. rewrite <- Hp, E. constructor.
  - intros n rest rec segs' i E Hn Hs' _ Hrest. cbn [on_ok]. apply wp_bind.
    apply (IH (at_seg c segs' i) segs' rest); try done.
    + rewrite E in Hp. rewrite <- Hp in Hf. cbn in Hf. lia.
    + intros ns Hns. cbn [on_ok]. apply wp_ret, HQ. rewrite <- Hp, E. by constructor.
Qed.

(** ** The entries of a segment *)
Definition seg_entries (p : bytes) (start : bytes) (it : list kv) : Prop := scanned T p start it.

(** A prefix that only entries of the index on (l, k) have. *)
Definition index_prefix (p : bytes) : Prop :=
  forall sk, skey_ok sk -> has_prefix p (key_of sk) = true -> exists v n, sk = KProp l k v n.

Lemma scanned_it_ok p start it : index_prefix p -> scanned T p start it -> it_ok it.
Proof.
  intros Hp [_ Hsound _]. apply Forall_forall. intros e He.
  destruct (Hsound e He) as (sk & Hsk & Ek & Hcell & Hpre & _). destruct (Hp sk Hsk Hpre) as (v & n & ->).
  exists v, n. split_and!; try done. cbn [cell] in Hcell. case_bool_decide as Hb; [|done]. apply Hb.
Qed.

Lemma seg_ids_elem stop it n : n ∈ seg_ids stop it -> it_ok it -> exists v, ent T (l, k, n) = Some v /\ (exists e, e ∈ it /\ e.1 = key_of (KProp l k v n)).
Proof.
  intros Hin Hit. induction Hit as [|e it (v & m & Hsk & Ek & He) Hit IH]; cbn in Hin; [by apply elem_of_nil in Hin|].
  assert (ParsePropKey e.1 = Ok (v, m)) as Hp by (rewrite Ek; by destruct (parse_key _ Hsk)). rewrite Hp in Hin.
  destruct (stop v); [by apply elem_of_nil in Hin|]. apply elem_of_cons in Hin as [->|Hin].
  - exists v. split; [done|]. exists e. split; [left|done].
  - destruct (IH Hin) as (w & Hw & e' & He' & Ek'). exists w. split; [done|]. exists e'. split; [by right|done].
Qed.

Lemma seg_ids_nodup stop it : key_sorted it -> it_ok it -> NoDup (seg_ids stop it).
Proof.
  intros Hs Hit. induction Hit as [|e it (v & n & Hsk & Ek & He) Hit IH]; cbn; [constructor|].
  assert (ParsePropKey e.1 = Ok (v, n)) as Hp by (rewrite Ek; by destruct (parse_key _ Hsk)). rewrite Hp.
  destruct (stop v); [constructor|]. unfold key_sorted in Hs. cbn in Hs. inversion Hs as [|? ? Hs' Hf]; subst.
  constructor; [|by apply IH]. intros Hin. destruct (seg_ids_elem stop it n Hin Hit) as (w & Hw & e' & He' & Ek').
  rewrite Hw in He. injection He as ->. rewrite Forall_fmap, Forall_forall in Hf. specialize (Hf e' He'). cbn in Hf.
  rewrite Ek, Ek' in Hf. by apply blt_irrefl in Hf.
Qed.

(** Entries come in index order. *)
Lemma prop_key_order v w n m :
  skey_ok (KProp l k v n) -> skey_ok (KProp l k w m) -> blt (key_of (KProp l k v n)) (key_of (KProp l k w m)) ->
  index_cmp v w <> Gt.
Proof.
  intros (_ & _ & [Hv Iv] & _) (_ & _ & [Hw Iw] & _). unfold blt. cbn [key_of]. unfold appendU64.
  rewrite <- !app_assoc, bcmp_app. rewrite bcmp_enc_value by done. by destruct (index_cmp v w).
Qed.

(** An entry that the scan covers and no earlier entry stops is yielded. *)
Lemma seg_ids_complete stop it v n e :
  key_sorted it -> it_ok it -> e ∈ it -> e.1 = key_of (KProp l k v n) -> skey_ok (KProp l k v n) ->
  (forall w, value_key_ok w -> (exists e' m, e' ∈ it /\ e'.1 = key_of (KProp l k w m)) -> index_cmp w v <> Gt -> stop w = false) ->
  n ∈ seg_ids stop it.
Proof.
  intros Hs Hit Hin Ek Hsk Hstop. induction Hit as [|e' it (w & m & Hsk' & Ek' & He') Hit IH]; [by apply elem_of_nil in Hin|].
  assert (ParsePropKey e'.1 = Ok (w, m)) as Hp by (rewrite Ek'; by destruct (parse_key _ Hsk')). cbn. rewrite Hp.
  unfold key_sorted in Hs. cbn in Hs. inversion Hs as [|? ? Hs' Hf]; subst.
  assert (stop w = false) as ->.
  { apply Hstop; [by destruct Hsk' as (_ & _ & ? & _)|by exists e', m; split; [left|]|].
    apply elem_of_cons in Hin as [->|Hin].
    - rewrite Ek in Ek'. apply key_of_inj in Ek' as [= <- <-]; try done. intros Hgt.
      destruct Hsk as (_ & _ & [Hv Iv] & _). pose proof (bcmp_enc_value v v [] [] Hv Hv Iv Iv) as Hb.
      rewrite Hgt, bcmp_refl in Hb. done.
    - apply (prop_key_order w v m n); try done. rewrite <- Ek, <- Ek'. rewrite Forall_fmap, Forall_forall in Hf. by apply Hf. }
  apply elem_of_cons in Hin as [->|Hin].
  - rewrite Ek in Ek'. apply key_of_inj in Ek' as [= <- <-]; try done. left.
  - right. apply IH; try done. intros w' Hw' (e'' & m' & He'' & Em). apply Hstop; [done|]. exists e'', m'. split; [by right|done].
Qed.
End cursor.

(** ** The bands cover what the range accepts *)

(** What the predicates a range scan stands for accept. *)
Record accepts (r : PropRange) (v : value) : Prop := {
  acc_prefix : HasPrefix r = true -> exists s, v = VStr s /\ has_prefix (Prefix r) s = true;
  acc_lower : HasLower r = true -> accepts_lower (LowerInclusive r) v (Lower r);
  acc_upper : HasUpper r = true -> accepts_upper (UpperInclusive r) v (Upper r);
  acc_some : HasPrefix r || HasLower r || HasUpper r = true
}.

Record range_ok (r : PropRange) : Prop := {
  ro_lower : value_ok (Lower r);
  ro_upper : value_ok (Upper r);
  ro_prefix : bytes_ok (Prefix r)
}.

Lemma accepts_lower_normalize i v b : accepts_lower i v (normalize b) <-> accepts_lower i v b.
Proof. unfold accepts_lower. rewrite !compareOp_sign, normalize_idem. by destruct b. Qed.
Lemma accepts_upper_normalize i v b : accepts_upper i v (normalize b) <-> accepts_upper i v b.
Proof. unfold accepts_upper. rewrite !compareOp_sign, normalize_idem. by destruct b. Qed.

(** The kind of a bound is the kind of the values it accepts. *)
Lemma compare_kind op v b : normalize v = v -> normalize b = b -> compareOp op v b = VBool true ->
  valueKind b <> [] /\ valueKind v = valueKind b.
Proof.
  intros Ev Eb (c & Ec & Nv & Nb & _)%compareOp_true. rewrite Ev in Nv. rewrite Eb in Nb.
  unfold compareValues in Ec. rewrite Ev, Eb in Ec. destruct v, b; try done; cbn in *; rewrite ?Nv, ?Nb; done.
Qed.

Section plans.
Context (l k : Z) (Hl : u32 l) (Hk : u32 k).

Definition plan_stops (p : bandPlan) (v : value) : bool := match bp_stop p with Some s => s v | None => false end.

(** The scan of band [p] yields the entries of [v]. *)
Definition covers (p : bandPlan) (v : value) : Prop :=
  (forall n, u64 n -> has_prefix (bp_prefix p) (key_of (KProp l k v n)) = true /\ ble (bp_start p) (key_of (KProp l k v n))) /\
  (forall w n, value_key_ok w -> has_prefix (bp_prefix p) (key_of (KProp l k w n)) = true -> index_cmp w v <> Gt ->
     plan_stops p w = false).

Lemma band_key tag v n : value_key_ok v ->
  has_prefix (PropBandPrefix l k tag) (key_of (KProp l k v n)) = (tag =? kind_rank v).
Proof.
  intros [_ Iv]. destruct (enc_value_head v Iv) as [e Ee]. unfold PropBandPrefix. cbn [key_of]. unfold appendU64. rewrite Ee.
  rewrite <- app_assoc, has_prefix_app_l. cbn. by rewrite andb_true_r.
Qed.

Lemma band_index tag : index_prefix l k (PropBandPrefix l k tag).
Proof.
  intros sk Hsk Hp. apply scan_prop_index; try done. apply has_prefix_spec in Hp as [s E]. apply has_prefix_spec.
  unfold PropBandPrefix in E. rewrite E, <- app_assoc. eauto.
Qed.

(** Start positions: the whole band, or a value of it. *)
Lemma band_start tag v n : value_key_ok v -> tag = kind_rank v -> ble (PropBandPrefix l k tag) (key_of (KProp l k v n)).
Proof. intros Hv ->. apply ble_prefix. rewrite band_key by done. apply Z.eqb_refl. Qed.

Lemma value_start p lo v n :
  value_key_ok lo -> value_key_ok v -> PropPrefix l k lo = Ok p -> index_cmp lo v <> Gt -> ble p (key_of (KProp l k v n)).
Proof.
  intros [Hlo Ilo] [Hv Iv] E Hcmp. unfold PropPrefix in E. rewrite AppendIndexValue_app in E by done.
  assert (PropIndexPrefix l k ++ enc_value lo = p) as <- by (unfold PropIndexPrefix; congruence). unfold ble. cbn [key_of].
  unfold appendU64. rewrite <- !app_assoc.
  rewrite bcmp_app.
  rewrite <- (app_nil_r (enc_value lo)), bcmp_enc_value by done. destruct (index_cmp lo v); [|done|done].
  by destruct (be 8 n).
Qed.

Lemma PropPrefix_indexable v : isIndexable v = true -> exists p, PropPrefix l k v = Ok p.
Proof. intros Hv. unfold PropPrefix. rewrite AppendIndexValue_app by done. eauto. Qed.

(** The shape of the answer: one band, or the integer and the float band. *)
Definition plan_shape (plans : list bandPlan) : Prop :=
  (exists p, plans = [p] /\ index_prefix l k (bp_prefix p)) \/
  (exists p q, plans = [p; q] /\ bp_prefix p = PropBandPrefix l k BandInt /\ bp_prefix q = PropBandPrefix l k BandFloat).

Lemma intBand_ok r lo hi : exists start stop,
  intBand (PropBandPrefix l k BandInt) l k r lo hi = Ok (mkBand (PropBandPrefix l k BandInt) start stop).
Proof. unfold intBand. destruct (if HasLower r then _ else None); eexists _, _; done. Qed.

Lemma floatBand_ok r lo hi : exists start stop,
  floatBand (PropBandPrefix l k BandFloat) l k r lo hi = Ok (mkBand (PropBandPrefix l k BandFloat) start stop).
Proof.
  unfold floatBand. destruct (if HasLower r then _ else None) as [[f e]|]; [destruct (is_ninf f)|]; eexists _, _; done.
Qed.

Lemma string_prefix_index p : index_prefix l k (AppendStringPrefix (take 9 (PropBandPrefix l k BandString)) p).
Proof.
  intros sk Hsk Hp. apply scan_prop_index; try done. apply has_prefix_spec in Hp as [s E]. apply has_prefix_spec.
  assert (exists t, AppendStringPrefix (take 9 (PropBandPrefix l k BandString)) p = PropIndexPrefix l k ++ t) as [t Et].
  { unfold AppendStringPrefix, appendOrderedString, PropBandPrefix.
    change (appendU32 (appendU32 [KeyProp] l) k) with (PropIndexPrefix l k).
    rewrite (take_app_length' (PropIndexPrefix l k)) by (unfold PropIndexPrefix, appendU32; by rewrite !length_app, !be_length).
    eexists. rewrite <- !app_assoc. rewrite take_app_ge; [done|]. rewrite !length_app. cbn. lia. }
  rewrite Et in E. rewrite E, <- app_assoc. eauto.
Qed.

Lemma rangeBands_shape r : rangeBands l k r = Ok None \/ exists plans, rangeBands l k r = Ok (Some plans) /\ plan_shape plans.
Proof.
  unfold rangeBands. destruct (HasPrefix r).
  { right. eexists. split; [done|]. left. eexists. split; [done|]. apply string_prefix_index. }
  destruct (bounds_kind _ _) as [kind|] eqn:Ek; [right|by left].
  case_bool_decide as Hs; [|case_bool_decide].
  - destruct (HasLower r) eqn:HL; cbn [mbind res_bind].
    + assert (isIndexable (normalize (Lower r)) = true) as Hi.
      { subst kind. cbn in Ek. destruct (normalize (Lower r)) as [| | | |f| | | | | | |]; try done; cbn in Ek;
          try (destruct (is_nan f)); done. }
      destruct (PropPrefix_indexable _ Hi) as [p ->]. cbn [mbind res_bind]. eexists. split; [done|]. left. eexists. split; [done|]. apply band_index.
    + eexists. split; [done|]. left. eexists. split; [done|]. apply band_index.
  - eexists. split; [done|]. left. eexists. split; [done|]. apply band_index.
  - destruct (intBand_ok r (normalize (Lower r)) (normalize (Upper r))) as (s1 & t1 & ->).
    destruct (floatBand_ok r (normalize (Lower r)) (normalize (Upper r))) as (s2 & t2 & ->). cbn [mbind res_bind].
    eexists. split; [done|]. right. eexists _, _. done.
Qed.

(** The whole band covers a value of its kind when nothing stops it. *)
Lemma covers_intro p v :
  value_key_ok v -> bp_prefix p = PropBandPrefix l k (kind_rank v) ->
  (bp_start p = bp_prefix p \/ exists lo, value_key_ok lo /\ PropPrefix l k lo = Ok (bp_start p) /\ index_cmp lo v <> Gt) ->
  (forall w, value_key_ok w -> kind_rank w = kind_rank v -> index_cmp w v <> Gt -> plan_stops p w = false) ->
  covers p v.
Proof.
  intros Hv Hp Hs Hstop. split.
  2: { intros w n Hw Hpre. apply Hstop; [done|]. rewrite Hp, band_key in Hpre by done. lia. }
  intros n Hn. rewrite Hp. split; [rewrite band_key by done; apply Z.eqb_refl|].
  destruct Hs as [->|(lo & Hlo & E & Hcmp)]; [rewrite Hp; by apply band_start|]. by apply (value_start _ lo).
Qed.

Lemma intBand_covers r p x :
  i64 x -> value_ok (normalize (Lower r)) -> value_ok (normalize (Upper r)) -> accepts r (VInt x) ->
  intBand (PropBandPrefix l k BandInt) l k r (normalize (Lower r)) (normalize (Upper r)) = Ok p -> covers p (VInt x).
Proof.
  intros Hx Hlo Hhi [_ Hal Hau _]. unfold intBand. intros E.
  assert (exists start, p = mkBand (PropBandPrefix l k BandInt) start
    match (if HasUpper r then intUpperBound (normalize (Upper r)) (UpperInclusive r) else None) with
    | Some u => Some (fun v => match v with VInt i => u <? i | _ => true end) | None => None end /\
    (start = PropBandPrefix l k BandInt \/ exists y, i64 y /\ y <= x /\ PropPrefix l k (VInt y) = Ok start)) as (start & -> & Hst).
  { destruct (HasLower r); cbn [mbind res_bind] in E.
    - destruct (intLowerBound _ _) as [y|] eqn:Ey; cbn in E; injection E as <-; eexists; (split; [done|]); [right|by left].
      destruct (intLowerBound_ok _ _ _ _ Hlo Hx Ey) as [Hy Hle]; [by apply accepts_lower_normalize, Hal|]. by exists y.
    - injection E as <-. eexists. split; [done|by left]. }
  apply covers_intro; [by split|done|..].
  - destruct Hst as [->|(y & Hy & Hle & Ey)]; [by left|right]. exists (VInt y). split_and!; [by split|done|]. cbn. by apply Z.compare_le_iff.
  - intros w [[Hw _] _] Hk' Hcmp. destruct w as [| | |i| | | | | | | |]; try done. unfold plan_stops. cbn [bp_stop].
    destruct (HasUpper r); [|done]. destruct (intUpperBound _ _) as [u|] eqn:Eu; [|done].
    pose proof (intUpperBound_ok _ _ _ _ Hhi Hx Eu ltac:(by apply accepts_upper_normalize, Hau)). cbn in Hcmp.
    change (i <= x) in Hcmp. lia.
Qed.

Lemma floatBand_covers r p g :
  u64 g -> value_ok (normalize (Lower r)) -> value_ok (normalize (Upper r)) -> accepts r (VFloat g) ->
  floatBand (PropBandPrefix l k BandFloat) l k r (normalize (Lower r)) (normalize (Upper r)) = Ok p -> covers p (VFloat g).
Proof.
  intros Hg Hlo Hhi [_ Hal Hau _]. unfold floatBand. intros E.
  assert (exists start, p = mkBand (PropBandPrefix l k BandFloat) start (bp_stop p) /\
    (start = PropBandPrefix l k BandFloat \/
     exists y, u64 y /\ float_rank y <= float_rank g /\ PropPrefix l k (VFloat y) = Ok start)) as (start & Hp & Hst).
  { destruct (HasLower r); cbn [mbind res_bind] in E.
    - destruct (floatBound (normalize (Lower r))) as [[f ex]|] eqn:Ef; [|cbn in E; injection E as <-; eexists; by split; [|left]].
      destruct (is_ninf f) eqn:Ei; cbn in E; injection E as <-; eexists; (split; [done|]); [by left|right].
      destruct (float_lower_ok _ f ex (LowerInclusive r) g Hlo Hg Ef Ei) as [Hy Hle]; [by apply accepts_lower_normalize, Hal|].
      by eexists.
    - injection E as <-. eexists. split; [done|by left]. }
  assert (bp_stop p = match (if HasUpper r then floatBound (normalize (Upper r)) else None) with
    | Some (u, exact) => if is_pinf u then None else
        let '(u, inclusive) := if negb exact then (next_up u, true) else (u, UpperInclusive r) in
        Some (fun v => match v with VFloat f => if inclusive then flt u f else fle u f | _ => true end)
    | None => None end) as Hstop.
  { destruct (match (if HasLower r then _ else None) with Some _ => _ | None => _ end) in E; [|done]. by injection E as <-. }
  rewrite Hp. apply covers_intro; [by split|done|..].
  - destruct Hst as [->|(y & Hy & Hle & Ey)]; [by left|right]. exists (VFloat y). split_and!; [by split|done|]. cbn. by apply Z.compare_le_iff.
  - intros w [[Hw _] _] Hk' Hcmp. destruct w as [| | | |g'| | | | | | |]; try done. unfold plan_stops. cbn [bp_stop]. rewrite Hstop.
    destruct (HasUpper r); [|done]. destruct (floatBound _) as [[u ex]|] eqn:Eu; [|done]. destruct (is_pinf u) eqn:Ei; [done|].
    change (float_rank g' <= float_rank g) in Hcmp.
    pose proof (float_stop_ok _ u ex (UpperInclusive r) g g' Hhi Hg Hw Eu Ei ltac:(by apply accepts_upper_normalize, Hau) Hcmp) as Hso.
    by destruct (if negb ex then (next_up u, true) else (u, UpperInclusive r)).
Qed.

Lemma bounds_kind_value (lo hi v : value) (hl hu : bool) :
  valueKind v <> [] -> (hl = true -> valueKind lo = valueKind v) -> (hu = true -> valueKind hi = valueKind v) ->
  hl || hu = true -> bounds_kind [] [(lo, hl); (hi, hu)] = Some (valueKind v).
Proof.
  intros Hne Hlo Hhi Hsome. cbn [bounds_kind].
  destruct hl, hu; cbn [negb]; rewrite ?Hlo, ?Hhi by done; try done;
    rewrite !(bool_decide_false (valueKind v = [])) by done; cbn; rewrite ?(bool_decide_true (valueKind v = valueKind v)) by done;
    cbn; done.
Qed.

Lemma rangeBands_covers r v :
  range_ok r -> value_key_ok v -> accepts r v ->
  exists plans, rangeBands l k r = Ok (Some plans) /\ Exists (fun p => covers p v) plans.
Proof.
  intros [Rl Ru Rp] Hv Ha. pose proof Ha as [Hpre Hal Hau Hsome]. unfold rangeBands.
  destruct (HasPrefix r) eqn:HP.
  { destruct (Hpre eq_refl) as (s & -> & Hs). eexists. split; [done|]. apply Exists_cons_hd. split; [|done]. intros n Hn.
    cbn [bp_prefix bp_start].
    assert (has_prefix (AppendStringPrefix (take 9 (PropBandPrefix l k BandString)) (Prefix r)) (key_of (KProp l k (VStr s) n)) = true) as Hpx.
    { cbn [key_of]. unfold appendU64. unfold PropBandPrefix.
      change (appendU32 (appendU32 [KeyProp] l) k) with (PropIndexPrefix l k).
      rewrite (take_app_length' (PropIndexPrefix l k)) by (unfold PropIndexPrefix, appendU32; by rewrite !length_app, !be_length).
      destruct Hv as [[Hv _] _]. rewrite (string_prefix_exact _ (Prefix r) s); [done|done|done|]. by apply AppendIndexValue_app. }
    split; [done|by apply ble_prefix]. }
  pose proof (normalize_ok _ Rl) as [Rl' Nl]. pose proof (normalize_ok _ Ru) as [Ru' Nu]. destruct Hv as [[Hv Nv] Iv].
  assert (HasLower r = true -> valueKind (normalize (Lower r)) = valueKind v /\ valueKind v <> []) as Kl.
  { intros HL. specialize (Hal HL). rewrite <- accepts_lower_normalize in Hal.
    destruct (compare_kind _ _ _ Nv Nl Hal) as [Hne E]. by rewrite E. }
  assert (HasUpper r = true -> valueKind (normalize (Upper r)) = valueKind v /\ valueKind v <> []) as Ku.
  { intros HU. specialize (Hau HU). rewrite <- accepts_upper_normalize in Hau.
    destruct (compare_kind _ _ _ Nv Nu Hau) as [Hne E]. by rewrite E. }
  cbn [orb] in Hsome. assert (valueKind v <> []) as Hne.
  { apply orb_true_iff in Hsome as [HL|HU]; [by destruct (Kl HL)|by destruct (Ku HU)]. }
  rewrite (bounds_kind_value _ _ v) by (try done; intros; by apply Kl || by apply Ku).
  destruct v as [|b| |x|g|s| | | | | |]; try done.
  - rewrite bool_decide_false, bool_decide_true by done. eexists. split; [done|]. apply Exists_cons_hd, covers_intro; try done. by left.
  - rewrite !bool_decide_false by done.
    destruct (intBand_ok r (normalize (Lower r)) (normalize (Upper r))) as (s1 & t1 & Ei).
    destruct (floatBand_ok r (normalize (Lower r)) (normalize (Upper r))) as (s2 & t2 & ->). rewrite Ei. cbn [mbind res_bind].
    eexists. split; [done|]. apply Exists_cons_hd. by apply (intBand_covers r).
  - assert (valueKind (VFloat g) = str "number") as -> by (cbn in Hne |- *; by destruct (is_nan g)).
    rewrite !bool_decide_false by done.
    destruct (intBand_ok r (normalize (Lower r)) (normalize (Upper r))) as (s1 & t1 & ->).
    destruct (floatBand_ok r (normalize (Lower r)) (normalize (Upper r))) as (s2 & t2 & Ef). rewrite Ef. cbn [mbind res_bind].
    eexists. split; [done|]. apply Exists_cons_tl, Exists_cons_hd. by apply (floatBand_covers r).
  - rewrite bool_decide_true by done.
    assert (HasUpper r = true -> exists u, normalize (Upper r) = VStr u /\ ble s u) as Hup.
    { intros HU. destruct (Ku HU) as [Kk _]. specialize (Hau HU). rewrite <- accepts_upper_normalize in Hau.
      destruct (normalize (Upper r)) as [| | | |f|u| | | | | |]; try done; [cbn in Kk; by destruct (is_nan f)|]. exists u. split; [done|].
      apply compareOp_true in Hau as (c & [= <-] & _ & _ & Hop). unfold cmpString in Hop. unfold ble.
      destruct (UpperInclusive r); destruct_or! Hop; destruct Hop as [E Hc]; try (by vm_compute in E); by destruct (bcmp s u). }
    assert (forall start stop, (start = PropBandPrefix l k BandString \/ exists lo, value_key_ok lo /\ PropPrefix l k lo = Ok start /\ index_cmp lo (VStr s) <> Gt) ->
      (stop = if HasUpper r then match normalize (Upper r) with
          | VStr u => Some (fun v => match v with VStr s => bool_decide (blt u s) | _ => true end) | _ => None end else None) ->
      covers (mkBand (PropBandPrefix l k BandString) start stop) (VStr s)) as Hcov.
    { intros start stop Hst ->. apply covers_intro; [by split|done|done|]. intros w [[Hw _] Iw] Hkr Hcmp. destruct w; try done.
      unfold plan_stops. cbn [bp_stop]. destruct (HasUpper r); [|done]. destruct (Hup eq_refl) as (u & -> & Hle).
      apply bool_decide_false. intros Hlt. apply not_ble in Hlt. apply Hlt. by trans s. }
    destruct (HasLower r) eqn:HL; cbn [mbind res_bind].
    + destruct (Kl eq_refl) as [Kk _]. specialize (Hal eq_refl). rewrite <- accepts_lower_normalize in Hal.
      destruct (normalize (Lower r)) as [| | | |f|u| | | | | |] eqn:El; try done; [cbn in Kk; by destruct (is_nan f)|].
      destruct (PropPrefix_indexable (VStr u) eq_refl) as [p Ep]. rewrite Ep. cbn [mbind res_bind]. eexists. split; [done|].
      apply Exists_cons_hd, Hcov; [|done]. right. exists (VStr u). split_and!; [by split|done|].
      apply compareOp_true in Hal as (c & [= <-] & _ & _ & Hop). unfold cmpString in Hop. cbn. rewrite bcmp_antisym.
      destruct (LowerInclusive r); destruct_or! Hop; destruct Hop as [E Hc]; try (by vm_compute in E); by destruct (bcmp s u).
    + eexists. split; [done|]. apply Exists_cons_hd, Hcov; [by left|done].
Qed.
End plans.

(** ** The scan of a range *)
Lemma Rep_scanned T m p s : Rep T m -> scanned T p s (scan_store p s m).
Proof.
  intros Hm. destruct (wp_ScanFrom p s T (fun r _ => forall it, r = Ok it -> scanned T p s it) ltac:(naive_solver) m Hm) as (_ & _ & HQ).
  by apply HQ.
Qed.

Lemma run_map_prog {A B} (f : A -> prog B) (h : A -> B) l m :
  (forall x, run (f x) m = (Ok (h x), m)) -> run (map_prog f l) m = (Ok (h <$> l), m).
Proof.
  intros Hf. induction l as [|x l IH]; [done|]. cbn [map_prog]. by rewrite run_bind, Hf, run_bind, IH.
Qed.

Definition segments (m : store) (plans : list bandPlan) : list rangeSegment :=
  (fun p => mkSegment (scan_store (bp_prefix p) (bp_start p) m) (bp_stop p)) <$> plans.

Lemma run_ScanPropertyRange l k r m plans :
  rangeBands l k r = Ok (Some plans) ->
  run (ScanPropertyRange l k r) m = (Ok (Some (mkCursor [] false false (Some (segments m plans)) 0)), m).
Proof.
  intros E. unfold ScanPropertyRange. rewrite E, run_bind, run_lift, run_bind. unfold segments.
  by rewrite (run_map_prog _ (fun p => mkSegment (scan_store (bp_prefix p) (bp_start p) m) (bp_stop p))).
Qed.

Lemma accepts_indexable r v : normalize v = v -> accepts r v -> isIndexable v = true.
Proof.
  intros Nv [Hp Hl Hu Hs]. assert (valueKind v <> [] -> isIndexable v = true) as Hk by (by destruct v).
  apply orb_true_iff in Hs as [[HP|HL]%orb_true_iff|HU].
  - by destruct (Hp HP) as (s & -> & _).
  - apply Hk. specialize (Hl HL). rewrite <- accepts_lower_normalize in Hl.
    destruct (compare_kind _ _ _ Nv (normalize_idem _) Hl) as [? ->]. done.
  - apply Hk. specialize (Hu HU). rewrite <- accepts_upper_normalize in Hu.
    destruct (compare_kind _ _ _ Nv (normalize_idem _) Hu) as [? ->]. done.
Qed.

Section scan.
Context (T : tables) (m : store) (l k : Z) (Hm : Rep T m) (Hc : consistent T) (Hl : u32 l) (Hk : u32 k).

Lemma segments_ok plans : Forall (fun p => index_prefix l k (bp_prefix p)) plans -> Forall (seg_ok T l k) (segments m plans).
Proof.
  intros Hp. apply Forall_fmap. eapply Forall_impl; [exact Hp|]. intros p Hpp.
  by apply (scanned_it_ok T l k (bp_prefix p) (bp_start p)); [|apply Rep_scanned].
Qed.

Lemma plan_shape_index plans : plan_shape l k plans -> Forall (fun p => index_prefix l k (bp_prefix p)) plans.
Proof.
  intros [(p & -> & Hp)|(p & q & -> & Ep & Eq)]; [by repeat constructor|].
  repeat constructor; [rewrite Ep|rewrite Eq]; by apply band_index.
Qed.

Lemma segment_entry p n : index_prefix l k (bp_prefix p) -> n ∈ seg_out (mkSegment (scan_store (bp_prefix p) (bp_start p) m) (bp_stop p)) ->
  exists v, value_key_ok v /\ ent T (l, k, n) = Some v /\ has_prefix (bp_prefix p) (key_of (KProp l k v n)) = true.
Proof.
  intros Hp Hin. pose proof (Rep_scanned T m (bp_prefix p) (bp_start p) Hm) as Hsc.
  destruct (seg_ids_elem T l k _ _ _ Hin (scanned_it_ok T l k _ _ _ Hp Hsc)) as (v & Hv & e & He & Ek).
  destruct (scan_sound _ _ _ _ Hsc e He) as (sk & Hsk & Ek' & _ & Hpre & _). destruct (Hp sk Hsk Hpre) as (v' & n' & ->).
  exists v'. assert (n' = n /\ v' = v) as [-> ->].
  { rewrite Ek in Ek'. destruct (entry_node T l k Hc n v Hv) as (rec & Hr & _ & Hpv & Iv).
    destruct (con_node _ Hc _ _ Hr) as (Hn & Hs & _). destruct (ns_props _ Hs _ _ Hpv) as [_ Hps].
    apply key_of_inj in Ek' as [= -> ->]; [done| |done]. cbn. split_and!; try done; [by apply prop_stored_indexable|by eapply node_u64]. }
  split_and!; [by destruct Hsk as (_ & _ & ? & _)|done|done].
Qed.

Lemma pending_nodup plans : plan_shape l k plans -> NoDup (pending (segments m plans)).
Proof.
  intros Hsh. assert (forall p, index_prefix l k (bp_prefix p) ->
    NoDup (seg_out (mkSegment (scan_store (bp_prefix p) (bp_start p) m) (bp_stop p)))) as Hone.
  { intros p Hp. apply (seg_ids_nodup T l k); [apply (scan_sorted T _ _ _ (Rep_scanned T m _ _ Hm))|].
    by apply (scanned_it_ok T l k _ _ _ Hp (Rep_scanned T m _ _ Hm)). }
  destruct Hsh as [(p & -> & Hp)|(p & q & -> & Ep & Eq)]; unfold pending; cbn; rewrite ?app_nil_r; [by apply Hone|].
  assert (index_prefix l k (bp_prefix p)) as Hp by (rewrite Ep; by apply band_index).
  assert (index_prefix l k (bp_prefix q)) as Hq by (rewrite Eq; by apply band_index).
  apply NoDup_app. split_and!; [by apply Hone| |by apply Hone]. intros n H1 H2.
  destruct (segment_entry p n Hp H1) as (v & Vv & Ev & Pv). destruct (segment_entry q n Hq H2) as (w & Vw & Ew & Pw).
  rewrite Ev in Ew. injection Ew as <-. rewrite Ep, band_key in Pv by done. rewrite Eq, band_key in Pw by done.
  apply Z.eqb_eq in Pv, Pw. rewrite <- Pv in Pw. done.
Qed.

Lemma pending_complete plans n v :
  Forall (fun p => index_prefix l k (bp_prefix p)) plans -> Exists (fun p => covers l k p v) plans -> is_Some (index T (l, k)) ->
  value_key_ok v -> u64 n -> ent T (l, k, n) = Some v -> n ∈ pending (segments m plans).
Proof.
  intros Hix Hcov Hidx Hv Hn He. unfold pending, segments. apply Exists_exists in Hcov as (p & Hin & [Hkey Hstop]).
  apply elem_of_concat. eexists. split; [|apply list_elem_of_fmap; eexists; split; [done|]; apply list_elem_of_fmap; by exists p].
  rewrite Forall_forall in Hix. specialize (Hix p Hin).
  pose proof (Rep_scanned T m (bp_prefix p) (bp_start p) Hm) as Hsc. destruct (Hkey n Hn) as [Hpre Hst].
  assert (skey_ok (KProp l k v n)) as Hsk by done.
  destruct (scan_complete _ _ _ _ Hsc (KProp l k v n) Hsk Hpre Hst) as (b & Hb).
  { cbn [cell]. rewrite bool_decide_true; done. }
  apply (seg_ids_complete T l k _ _ v n (key_of (KProp l k v n), b)); try done.
  - apply (scan_sorted T _ _ _ Hsc).
  - by apply (scanned_it_ok T l k _ _ _ Hix Hsc).
  - intros w Hw (e' & n' & He' & Ek') Hcmp. destruct (scan_sound _ _ _ _ Hsc e' He') as (sk & Hsk' & Ek & _ & Hpre' & _).
    assert (has_prefix (bp_prefix p) (key_of (KProp l k w n')) = true) as Hpw by (rewrite <- Ek', Ek; done).
    by apply (Hstop w n').
Qed.
End scan.

(** Cursors only read. *)
Lemma GetNode_read_only id : read_only (GetNode id).
Proof. intros s. unfold GetNode. cbn. destruct (s !! _); [|done]. by destruct (DecodeNode _). Qed.

Lemma read_only_range_next fuel segs c : read_only (range_next fuel segs c).
Proof.
  revert c. induction fuel as [|fuel IH]; intros c; cbn [range_next]; [done|].
  destruct (segs !! nc_seg c) as [sg|]; [|done]. destruct (sg_it sg) as [|e it]; [apply IH|].
  apply read_only_bind; [apply read_only_lift|]. intros [v id]. destruct (match sg_stop sg with Some _ => _ | None => _ end); [apply IH|].
  apply read_only_bind; [apply GetNode_read_only|done].
Qed.

Lemma read_only_Next c : read_only (Next c).
Proof.
  unfold Next. destruct (nc_closed c); [done|]. destruct (nc_segs c) as [segs|]; [apply read_only_range_next|].
  destruct (nc_it c) as [|e it]; [done|]. destruct (nc_byLabel c); (apply read_only_bind; [apply read_only_lift|]).
  - intros [a id]. apply read_only_bind; [apply GetNode_read_only|done].
  - intros id. apply read_only_bind; [apply read_only_lift|done].
Qed.

Lemma read_only_drain fuel c : read_only (drain fuel c).
Proof.
  revert c. induction fuel as [|fuel IH]; intros c; cbn [drain]; [done|].
  apply read_only_bind; [apply read_only_Next|]. intros [[n|] c']; [|done]. by apply read_only_bind.
Qed.

Lemma nodes_of_unique T ids ns ns' : nodes_of T ids ns -> nodes_of T ids ns' -> ns = ns'.
Proof.
  intros H. revert ns'. induction H as [|n x ids ns [E Hx] _ IH]; intros ns' H'; inversion H' as [|? y ? ys [E' Hy]]; subst; [done|].
  f_equal; [|by apply IH]. destruct x as [i r], y as [i' r']. cbn in *. subst. congruence.
Qed.

Lemma nodes_of_ids T ids ns : nodes_of T ids ns -> n_ID <$> ns = ids.
Proof. induction 1 as [|n x ids ns [E _] _ IH]; cbn; [done|]. by rewrite E, IH. Qed.

(** Reading a cursor with enough fuel gives one list of nodes. *)
Definition yields (m : store) (c : NodeCursor) (ns : list Node) : Prop :=
  exists bound, forall fuel, (bound <= fuel)%nat -> run (drain fuel c) m = (Ok ns, m).

Lemma wp_yields T m c ids :
  Rep T m ->
  (forall fuel, (length ids < fuel)%nat -> wp (drain fuel c) T (fun r _ => exists ns, r = Ok ns /\ nodes_of T ids ns)) ->
  exists ns, yields m c ns /\ nodes_of T ids ns.
Proof.
  intros Hm Hw. assert (forall fuel, (length ids < fuel)%nat -> exists ns, run (drain fuel c) m = (Ok ns, m) /\ nodes_of T ids ns) as Hrun.
  { intros fuel Hf. destruct (Hw fuel Hf m Hm) as (_ & _ & ns & E & Hns). exists ns. split; [|done].
    by rewrite (read_only_run _ m (read_only_drain fuel c)), E. }
  destruct (Hrun (S (length ids)) ltac:(lia)) as (ns & _ & Hns). exists ns. split; [|done].
  exists (S (length ids)). intros fuel Hf. destruct (Hrun fuel ltac:(lia)) as (ns' & -> & Hns').
  by rewrite (nodes_of_unique T ids ns ns').
Qed.

Lemma range_scan_yields T m l k r :
  Rep T m -> consistent T -> u32 l -> u32 k -> range_ok r -> is_Some (index T (l, k)) ->
  (run (ScanPropertyRange l k r) m = (Ok None, m) /\
   forall n rec v, nodes T n = Some rec -> l ∈ Labels rec -> Props rec !! k = Some v -> ~ accepts r v) \/
  (exists c ns, run (ScanPropertyRange l k r) m = (Ok (Some c), m) /\ yields m c ns /\ NoDup (n_ID <$> ns) /\
   (forall x, x ∈ ns -> nodes T (n_ID x) = Some (n_rec x) /\ l ∈ Labels (n_rec x) /\ is_Some (Props (n_rec x) !! k)) /\
   (forall n rec v, nodes T n = Some rec -> l ∈ Labels rec -> Props rec !! k = Some v -> accepts r v -> mkNode n rec ∈ ns)).
Proof.
  intros Hm Hc Hl Hk Hr Hix.
  assert (forall n rec v, nodes T n = Some rec -> l ∈ Labels rec -> Props rec !! k = Some v -> accepts r v ->
    value_key_ok v /\ u64 n /\ ent T (l, k, n) = Some v) as Hent.
  { intros n rec v Hn HL HP Ha. destruct (con_node _ Hc _ _ Hn) as (_ & Hs & _). destruct (ns_props _ Hs _ _ HP) as [_ Hps].
    pose proof (prop_stored_ok _ Hps) as [_ Nv]. pose proof (accepts_indexable r v Nv Ha) as Iv.
    split; [by apply prop_stored_indexable|]. split; [by eapply node_u64|]. apply (ent_prop T l k Hc n v Iv). by exists rec. }
  destruct (rangeBands_shape l k Hl Hk r) as [E|(plans & E & Hsh)].
  - left. split; [unfold ScanPropertyRange; by rewrite E|]. intros n rec v Hn HL HP Ha.
    destruct (Hent n rec v Hn HL HP Ha) as (Hv & _ & _). destruct (rangeBands_covers l k r v Hr Hv Ha) as (plans & E' & _). congruence.
  - right. pose proof (plan_shape_index l k Hl Hk plans Hsh) as Hpi.
    set (c := mkCursor [] false false (Some (segments m plans)) 0).
    destruct (wp_yields T m c (pending (segments m plans)) Hm) as (ns & Hy & Hns).
    { intros fuel Hf. apply (wp_drain_range T l k Hc (pending (segments m plans)) c (segments m plans)); try done.
      - by apply (segments_ok T m l k Hm).
      - intros ns Hns. by exists ns. }
    exists c, ns. split; [by apply run_ScanPropertyRange|]. split; [done|].
    pose proof (nodes_of_ids _ _ _ Hns) as Eids. split; [rewrite Eids; by apply (pending_nodup T m l k)|].
    assert (forall x, x ∈ ns -> nodes T (n_ID x) = Some (n_rec x)) as Hnode.
    { intros x [i Hi]%list_elem_of_lookup. by destruct (Forall2_lookup_r _ _ _ _ _ Hns Hi) as (n & _ & <- & Hx). }
    split.
    + intros x Hx. split; [by apply Hnode|]. assert (n_ID x ∈ pending (segments m plans)) as Hin by (rewrite <- Eids; apply list_elem_of_fmap; eauto).
      unfold pending, segments in Hin. apply elem_of_concat in Hin as (ids & Hin & (sg & -> & (p & -> & Hp)%list_elem_of_fmap)%list_elem_of_fmap).
      rewrite Forall_forall in Hpi. destruct (segment_entry T m l k Hm Hc Hl Hk p (n_ID x) (Hpi p Hp) Hin) as (v & _ & Hv & _).
      destruct (entry_node T l k Hc _ _ Hv) as (rec & Hrec & HL & HP & _). rewrite (Hnode x Hx) in Hrec. injection Hrec as ->. eauto.
    + intros n rec v Hn HL HP Ha. destruct (Hent n rec v Hn HL HP Ha) as (Hv & Hu & He).
      destruct (rangeBands_covers l k r v Hr Hv Ha) as (plans' & E' & Hcov). rewrite E in E'. injection E' as <-.
      pose proof (pending_complete T m l k Hm Hl Hk plans n v Hpi Hcov Hix Hv Hu He) as Hin.
      rewrite <- Eids in Hin. apply list_elem_of_fmap in Hin as (x & -> & Hx). pose proof (Hnode x Hx) as Hx'. rewrite Hn in Hx'.
      injection Hx' as ->. by destruct x.
Qed.

(** ** Label and full scans *)
Section lists.
Context (T : tables) (Hc : consistent T).

Lemma wp_drain_label it ids c fuel (Q : res (list Node) -> tables -> Prop) :
  nc_closed c = false -> nc_segs c = None -> nc_byLabel c = true -> nc_it c = it ->
  Forall2 (fun e n => exists l, ParseLabelKey e.1 = Ok (l, n) /\ is_Some (nodes T n)) it ids ->
  (length ids < fuel)%nat -> (forall ns, nodes_of T ids ns -> Q (Ok ns) T) -> wp (drain fuel c) T Q.
Proof.
  intros Hcl Hsg Hby Hit Hf. revert c fuel Q Hcl Hsg Hby Hit.
  induction Hf as [|e n it ids (l & Hp & [rec Hn]) Hf IH]; intros c fuel Q Hcl Hsg Hby Hit Hfu HQ;
    (destruct fuel as [|fuel]; [cbn in Hfu; lia|]); cbn [drain]; apply wp_bind; unfold Next; rewrite Hcl, Hsg, Hit.
  - apply wp_ret. cbn [on_ok]. apply wp_ret, HQ. constructor.
  - rewrite Hby, Hp. cbn [lift mbind prog_bind]. apply wp_bind, wp_GetNode; [by eapply node_u64|]. rewrite Hn. cbn [on_ok].
    apply wp_ret. cbn [on_ok]. apply wp_bind. apply IH; try done; [cbn in Hfu; lia|].
    intros ns Hns. cbn [on_ok]. apply wp_ret, HQ. by constructor.
Qed.

Lemma wp_drain_all it ids c fuel (Q : res (list Node) -> tables -> Prop) :
  nc_closed c = false -> nc_segs c = None -> nc_byLabel c = false -> nc_it c = it ->
  Forall2 (fun e n => NodeIDFromKey e.1 = Ok n /\ exists rec, nodes T n = Some rec /\ DecodeNode e.2 = Ok rec) it ids ->
  (length ids < fuel)%nat -> (forall ns, nodes_of T ids ns -> Q (Ok ns) T) -> wp (drain fuel c) T Q.
Proof.
  intros Hcl Hsg Hby Hit Hf. revert c fuel Q Hcl Hsg Hby Hit.
  induction Hf as [|e n it ids (Hp & rec & Hn & Hd) Hf IH]; intros c fuel Q Hcl Hsg Hby Hit Hfu HQ;
    (destruct fuel as [|fuel]; [cbn in Hfu; lia|]); cbn [drain]; apply wp_bind; unfold Next; rewrite Hcl, Hsg, Hit.
  - apply wp_ret. cbn [on_ok]. apply wp_ret, HQ. constructor.
  - rewrite Hby, Hp. cbn [lift mbind prog_bind]. rewrite Hd. cbn [lift mbind prog_bind].
    apply wp_ret. cbn [on_ok]. apply wp_bind. apply IH; try done; [cbn in Hfu; lia|].
    intros ns Hns. cbn [on_ok]. apply wp_ret, HQ. by constructor.
Qed.

Lemma map_prog_lift_inv {A B} (f : A -> res B) l ys : map_prog (fun x => lift (f x)) l = mret ys -> Forall2 (fun x y => f x = Ok y) l ys.
Proof.
  revert ys. induction l as [|x l IH]; intros ys E; cbn [map_prog] in E.
  - injection E as <-. constructor.
  - destruct (f x) as [y|e] eqn:Ef; [|done]. cbn [lift mbind prog_bind] in E.
    destruct (map_prog _ l) as [ys'|?|? ?|? ? ?|? ?|? ? ?] eqn:Em; try done. cbn in E. injection E as <-.
    constructor; [done|]. by apply IH.
Qed.
End lists.

Lemma label_cursor T m l : Rep T m -> consistent T -> u32 l ->
  exists c ns, run (ScanLabel l) m = (Ok c, m) /\ yields m c ns /\ StronglySorted Z.lt (n_ID <$> ns) /\
    (forall x, x ∈ ns <-> nodes T (n_ID x) = Some (n_rec x) /\ l ∈ Labels (n_rec x)).
Proof.
  intros Hm Hc Hl. set (it := scan_store (LabelPrefix l) (LabelPrefix l) m). set (c := mkCursor it true false None 0).
  pose proof (Rep_scanned T m (LabelPrefix l) (LabelPrefix l) Hm) as Hsc. fold it in Hsc.
  destruct (scan_ids T (LabelPrefix l) (KLabel l) (fun e => lift ('(_, node) ← ParseLabelKey e.1; Ok node)) it Hsc) as (ids & Em & Hs & Hin).
  - intros sk Hk. by apply scan_label.
  - intros n v [_ Hn]. split; [done|]. cbn [fst]. by rewrite (parse_key (KLabel l n)).
  - intros a b [_ Ha] [_ Hb]. by apply (bcmp_last (LabelPrefix l)).
  - assert (forall n, n ∈ ids -> has_label T l n) as Hlab.
    { intros n Hn. apply Hin in Hn as [_ Hn]. cbn in Hn. rewrite (con_lab _ Hc) in Hn. apply labels_of_true.
      by destruct (labels_of (nodes T n) l). }
    apply map_prog_lift_inv in Em.
    assert (Forall2 (fun e n => exists l, ParseLabelKey e.1 = Ok (l, n) /\ is_Some (nodes T n)) it ids) as Hit.
    { apply Forall2_same_length_lookup. rewrite Forall2_same_length_lookup in Em. destruct Em as [El Em]. split; [done|].
      intros i e n He Hn. specialize (Em i e n He Hn). destruct (ParseLabelKey e.1) as [[l' n']|]; [|done]. cbn in Em. injection Em as ->.
      exists l'. split; [done|]. destruct (Hlab n) as (r & Hr & _); [by eapply list_elem_of_lookup_2|]. by exists r. }
    destruct (wp_yields T m c ids Hm) as (ns & Hy & Hns).
    { intros fuel Hf. apply (wp_drain_label T Hc it ids); try done. intros ns Hns. by exists ns. }
    pose proof (nodes_of_ids _ _ _ Hns) as Eids. exists c, ns. split; [done|]. split; [done|]. split; [by rewrite Eids|]. intros x. split.
    + intros Hx. assert (n_ID x ∈ ids) as Hid by (rewrite <- Eids; apply list_elem_of_fmap; eauto).
      apply list_elem_of_lookup in Hx as [i Hi]. destruct (Forall2_lookup_r _ _ _ _ _ Hns Hi) as (n & _ & <- & Hx).
      destruct (Hlab _ Hid) as (r & Hr & HL). rewrite Hx in Hr. injection Hr as <-. done.
    + intros [Hx HL]. assert (n_ID x ∈ ids) as Hid.
      { apply Hin. cbn. split; [split; [done|by eapply node_u64]|]. rewrite (con_lab _ Hc).
        assert (labels_of (nodes T (n_ID x)) l = true) as -> by (apply labels_of_true; eauto). done. }
      rewrite <- Eids in Hid. apply list_elem_of_fmap in Hid as (y & Ey & Hy'). replace x with y; [done|].
      apply list_elem_of_lookup in Hy' as [i Hi]. destruct (Forall2_lookup_r _ _ _ _ _ Hns Hi) as (n & _ & <- & Hn).
      rewrite <- Ey, Hx in Hn. destruct x, y. cbn in *. congruence.
Qed.

Lemma all_cursor T m : Rep T m -> consistent T ->
  exists c ns, run ScanAllNodes m = (Ok c, m) /\ yields m c ns /\ StronglySorted Z.lt (n_ID <$> ns) /\
    (forall x, x ∈ ns <-> nodes T (n_ID x) = Some (n_rec x)).
Proof.
  intros Hm Hc. set (it := scan_store NodePrefix NodePrefix m). set (c := mkCursor it false false None 0).
  pose proof (Rep_scanned T m NodePrefix NodePrefix Hm) as Hsc. fold it in Hsc.
  destruct (scan_ids T NodePrefix KNode (fun e => lift (NodeIDFromKey e.1)) it Hsc) as (ids & Em & Hs & Hin).
  - apply scan_nodes.
  - intros n v Hn. split; [done|]. cbn [fst]. by rewrite (parse_key (KNode n) Hn).
  - intros a b Ha Hb. by apply (bcmp_last [KeyNode]).
  - apply map_prog_lift_inv in Em.
    assert (Forall2 (fun e n => NodeIDFromKey e.1 = Ok n /\ exists rec, nodes T n = Some rec /\ DecodeNode e.2 = Ok rec) it ids) as Hit.
    { apply Forall2_same_length_lookup. rewrite Forall2_same_length_lookup in Em. destruct Em as [El Em]. split; [done|].
      intros i e n He Hn. specialize (Em i e n He Hn). split; [done|].
      destruct (scan_sound _ _ _ _ Hsc e ltac:(by eapply list_elem_of_lookup_2)) as (sk & Hsk & Ek & Hcell & Hpre & _).
      apply scan_nodes in Hpre as [n' ->]; [|done]. cbn in Em. rewrite Ek, (parse_key (KNode n') Hsk) in Em. injection Em as ->.
      cbn in Hcell. destruct (nodes T n) as [r|]; [|done]. destruct Hcell as (b & [= <-] & Hd). eauto. }
    destruct (wp_yields T m c ids Hm) as (ns & Hy & Hns).
    { intros fuel Hf. apply (wp_drain_all T it ids); try done. intros ns Hns. by exists ns. }
    pose proof (nodes_of_ids _ _ _ Hns) as Eids. exists c, ns. split; [done|]. split; [done|]. split; [by rewrite Eids|]. intros x. split.
    + intros [i Hi]%list_elem_of_lookup. by destruct (Forall2_lookup_r _ _ _ _ _ Hns Hi) as (n & _ & <- & Hx).
    + intros Hx. assert (n_ID x ∈ ids) as Hid.
      { apply Hin. cbn. split; [by eapply node_u64|]. rewrite Hx. by intros (? & [=] & _). }
      rewrite <- Eids in Hid. apply list_elem_of_fmap in Hid as (y & Ey & Hy'). replace x with y; [done|].
      apply list_elem_of_lookup in Hy' as [i Hi]. destruct (Forall2_lookup_r _ _ _ _ _ Hns Hi) as (n & _ & <- & Hn).
      rewrite <- Ey, Hx in Hn. destruct x, y. cbn in *. congruence.
Qed.
