(* ===== verification/IndexOps.v ===== *)
(** * IndexOps: creating and dropping indexes and constraints

    BuildIndex, DropIndexEntries, AddUniqueConstraint, DropUniqueConstraint
    (src/internal/graph/unique.go, crud.go), BuildRelIndex, DropRelIndexEntries
    (relindex.go) and the format marker (src/internal/catalog/format.go) on a
    consistent database: a new index is complete the moment it is registered,
    a dropped one leaves no entry behind, a constraint is accepted exactly when
    the data satisfies it, and the format marker covers what the database
    holds. *)
From S2P Require Import Prelude Float64 Values IndexCodec Keys Records Storage Catalog Graph Tables GraphInv NodeOps NodeUpdates Traversal Lookups.

(** ** The format marker *)

(** The marker is at least the version every key kind needs. *)
Record format_ok (T : tables) : Prop := {
  fo_u32 : forall v, format T = Some v -> u32 v;
  fo_unique : forall l k, is_Some (constr T (l, k)) -> formatUnique <= default 0 (format T);
  fo_rel : forall t k, is_Some (relindex T (t, k)) -> formatRelIndex <= default 0 (format T)
}.

Lemma format_ok_empty : format_ok empty_tables.
Proof. split; [done|by intros l k [? ?]|by intros l k [? ?]]. Qed.

Definition raise_format (v : Z) (T : tables) : tables :=
  if v <=? default 0 (format T) then T else set_format (Some v) T.

Lemma wp_requireFormat v T (Q : res unit -> tables -> Prop) :
  (forall w, format T = Some w -> u32 w) -> u32 v -> 0 < v ->
  Q (Ok tt) (raise_format v T) -> wp (requireFormat v) T Q.
Proof.
  intros Hf Hv Hpos HQ. unfold requireFormat. change formatKey with (key_of KFormat).
  apply wp_bind, wp_Get; [done|]. intros o Ho. cbn in Ho. cbn [on_ok]. cbv zeta. unfold raise_format in HQ.
  assert (wp (Set_ (key_of KFormat) (be 4 v)) T (fun r T' => r = Ok tt /\ T' = set_format (Some v) T)) as Hset.
  { eapply wp_Set; [done| | |done]; [done|]. intros [] o' _ Hne Hc; try exact Hc. done. }
  assert (forall p : bool, wp (if p then mret tt else Set_ (key_of KFormat) (be 4 v)) T
     (fun r T' => r = Ok tt /\ T' = if p then T else set_format (Some v) T)) as Hif.
  { intros [|]; [by apply wp_ret|exact Hset]. }
  destruct (format T) as [w|] eqn:E; cbn in Ho; subst o; cbn [from_option id] in *.
  - rewrite be_length, be4_get by auto. eapply wp_mono; [apply Hif|]. by intros r T' [-> ->].
  - cbn [length Nat.eqb andb]. eapply wp_mono; [apply (Hif false)|]. intros r T' [-> ->].
    destruct (Z.leb_spec v 0); [lia|done].
Qed.

Lemma raise_format_same v T :
  nodes (raise_format v T) = nodes T /\ edges (raise_format v T) = edges T /\ index (raise_format v T) = index T /\
  constr (raise_format v T) = constr T /\ relindex (raise_format v T) = relindex T /\
  fwd (raise_format v T) = fwd T /\ rev (raise_format v T) = rev T.
Proof. unfold raise_format. by destruct (_ <=? _). Qed.

Lemma raise_format_consistent v T : consistent T -> consistent (raise_format v T).
Proof. unfold raise_format. destruct (_ <=? _); [done|]. intros [[] H1 H2 H3 H4 H5 H6 H7 H8 H9]. by repeat (split; try done). Qed.

Lemma raise_format_ge v T : 0 <= v -> v <= default 0 (format (raise_format v T)).
Proof. intros Hv. unfold raise_format. destruct (Z.leb_spec v (default 0 (format T))); cbn; lia. Qed.

Lemma raise_format_mono v T : default 0 (format T) <= default 0 (format (raise_format v T)).
Proof. unfold raise_format. destruct (Z.leb_spec v (default 0 (format T))); cbn; lia. Qed.

Lemma raise_format_u32 v T :
  u32 v -> (forall w, format T = Some w -> u32 w) -> forall w, format (raise_format v T) = Some w -> u32 w.
Proof. intros Hv Hf w. unfold raise_format. destruct (_ <=? _); [apply Hf|]. cbn. by intros [= <-]. Qed.

(** ** Deleting the keys of a prefix *)
Lemma wp_deletePrefix prefix T T' (gone : skey -> Prop) (Q : res unit -> tables -> Prop) :
  (forall sk, skey_ok sk -> has_prefix prefix (key_of sk) = true <-> gone sk) ->
  (forall sk, skey_ok sk -> gone sk -> cell T' sk None) ->
  (forall sk o, skey_ok sk -> ~ gone sk -> cell T sk o -> cell T' sk o) ->
  Q (Ok tt) T' -> wp (deletePrefix prefix) T Q.
Proof.
  intros Hp Hgone Hkeep HQ m Hm. unfold deletePrefix. rewrite run_bind.
  change (run (Scan prefix) m) with (Ok (scan_store prefix prefix m), m). cbn beta iota.
  assert (forall ks m, run (for_each Delete ks) m = (Ok tt, foldl (fun m k => delete k m) m ks)) as Hrun.
  { induction ks as [|k ks IH]; intros m0; [done|]. cbn [for_each]. rewrite run_bind. cbn. apply IH. }
  rewrite Hrun. cbn [fst snd]. exists T'. split; [|done].
  assert (forall (ks : list bytes) (m : store) (k : bytes), foldl (fun m k => delete k m) m ks !! k = if decide (k ∈ ks) then None else m !! k) as Hl.
  { induction ks as [|k0 ks IH]; intros m0 k; [by rewrite decide_False by (by intros ?%elem_of_nil)|]. cbn. rewrite IH.
    destruct (decide (k = k0)) as [->|Hne].
    - rewrite (decide_True (P := k0 ∈ k0 :: ks)) by left. rewrite lookup_delete_eq. by destruct (decide _).
    - rewrite lookup_delete_ne by done. destruct (decide (k ∈ ks)) as [Hk|Hk].
      + by rewrite decide_True by (by right).
      + rewrite decide_False; [done|]. by intros [?|?]%elem_of_cons. }
  destruct Hm as [Hm Hk]. split.
  - intros sk Hsk. rewrite Hl. destruct (decide (key_of sk ∈ (scan_store prefix prefix m).*1)) as [Hin|Hin].
    + apply Hgone; [done|]. apply Hp; [done|]. apply list_elem_of_fmap in Hin as (e & -> & He).
      by apply scan_store_elem in He as [_ [? _]].
    + destruct (decide (has_prefix prefix (key_of sk) = true)) as [Hpre|Hpre].
      * destruct (m !! key_of sk) as [v|] eqn:E; [|by apply Hgone, Hp].
        exfalso. apply Hin. apply list_elem_of_fmap. exists (key_of sk, v). split; [done|].
        apply scan_store_elem. split; [done|]. split; [done|]. by apply ble_prefix.
      * apply Hkeep; [done| |by apply Hm]. by rewrite <- Hp.
  - intros k Hs. apply Hk. rewrite Hl in Hs. destruct (decide _); [by destruct Hs|done].
Qed.

(** A result up to tables with the same cells. *)
Lemma wp_result {A} T' (r0 : res A) (p : prog A) T (Q : res A -> tables -> Prop) :
  Q r0 T' -> wp p T (fun r T1 => r = r0 /\ forall sk o, skey_ok sk -> cell T1 sk o -> cell T' sk o) -> wp p T Q.
Proof.
  intros HQ Hp m Hm. destruct (Hp m Hm) as (T1 & H1 & -> & Hcells). exists T'. split; [|done]. by eapply Rep_ext.
Qed.

Lemma node_value_key T n r k v :
  consistent T -> nodes T n = Some r -> Props r !! k = Some v -> isIndexable v = true -> value_key_ok v.
Proof.
  intros Hc Hr Hv. apply prop_stored_indexable. destruct (con_node _ Hc n r Hr) as (_ & Hs & _).
  by destruct (ns_props _ Hs k v Hv).
Qed.

#[global] Instance is_prop_dec l k sk : Decision (exists v n, sk = KProp l k v n).
Proof.
  destruct sk as [| | | | |l' k' v n| | | | | | | | |]; try (right; by intros (? & ? & ?)).
  destruct (decide ((l', k') = (l, k))) as [[= -> ->]|E]; [left; eauto|right; by intros (? & ? & [= ? ? _ _]); congruence].
Defined.

(** ** Node property indexes *)
Definition index_dropped (l k : Z) (T : tables) : tables := set_index (<[(l, k) := None]> (index T)) T.
Definition index_added (l k : Z) (name : bytes) (T : tables) : tables := set_index (<[(l, k) := Some name]> (index T)) T.

Lemma index_dropped_consistent T l k : consistent T -> constr T (l, k) = None -> consistent (index_dropped l k T).
Proof.
  intros [Hcat H1 H2 H3 H4 H5 H6 H7 H8 H9] Hno. split; try done.
  - by destruct Hcat; split.
  - intros l' k' Hs. cbn in *. rewrite fn_lookup_insert_ne; [by apply H9|].
    intros [= -> ->]. rewrite Hno in Hs. by destruct Hs.
Qed.

Lemma index_added_consistent T l k name : consistent T -> consistent (index_added l k name T).
Proof.
  intros [Hcat H1 H2 H3 H4 H5 H6 H7 H8 H9]. split; try done.
  - by destruct Hcat; split.
  - intros l' k' Hs. cbn in *. destruct (decide ((l', k') = (l, k))) as [E|E].
    + rewrite E, fn_lookup_insert. done.
    + rewrite fn_lookup_insert_ne by congruence. by apply H9.
Qed.

Lemma wp_DropIndexEntries T l k (Q : res unit -> tables -> Prop) :
  u32 l -> u32 k -> Q (Ok tt) (index_dropped l k T) -> wp (DropIndexEntries l k) T Q.
Proof.
  intros Hl Hk HQ. unfold DropIndexEntries, RemoveIndex. apply wp_bind.
  set (T1 := set_ent (fun x => if decide (x.1 = (l, k)) then None else ent T x) T).
  apply (wp_deletePrefix _ T T1 (fun sk => exists v n, sk = KProp l k v n)).
  - intros sk Hsk. by apply scan_prop_index.
  - intros sk Hsk (v & n & ->). cbn. rewrite decide_True by done. by rewrite bool_decide_false by (by intros [_ ?]).
  - intros sk o Hsk Hno Hc. destruct sk; try exact Hc. cbn in Hc |- *. rewrite decide_False; [done|].
    intros [= -> ->]. apply Hno. eauto.
  - cbn [on_ok]. eapply (wp_Delete _ (KIndex l k)); [done| | |exact HQ].
    + cbn. by rewrite fn_lookup_insert.
    + intros sk o Hsk Hne Hc. destruct sk; try exact Hc; cbn in Hc |- *.
      * rewrite Hc. f_equal. apply bool_decide_ext. destruct (decide ((label, key) = (l, k))) as [E|E].
        -- rewrite E, fn_lookup_insert. split; [by intros [_ ?]|by intros [[? ?] _]].
        -- by rewrite fn_lookup_insert_ne by congruence.
      * by rewrite fn_lookup_insert_ne by congruence.
Qed.

(** ** Visiting the indexable values of a label *)
Section label_values.
Context (T0 : tables) (l k : Z) (Hl : u32 l) (Hc : consistent T0).
Context (fn : Z -> value -> prog unit) (I : list Z -> tables -> Prop).
Context (Hnodes : forall done T, I done T -> nodes T = nodes T0).

Lemma wp_forEachLabelValue T (Q : res unit -> tables -> Prop) :
  labels_ok T -> I [] T ->
  (forall done n v T', I done T' -> n ∉ done -> entry_of (nodes T0 n) l k = Some v ->
     wp (fn n v) T' (on_ok (fun _ => I (done ++ [n])) Q)) ->
  (forall done n T', I done T' -> entry_of (nodes T0 n) l k = None -> I (done ++ [n]) T') ->
  (forall ids T', I ids T' -> (forall n v, entry_of (nodes T0 n) l k = Some v -> n ∈ ids) -> Q (Ok tt) T') ->
  wp (forEachLabelValue l k fn) T Q.
Proof.
  intros Hlab H0 Hstep Hskip HQ. unfold forEachLabelValue. apply wp_bind, wp_label_scan; [done|done|].
  intros ids Hs Hin. cbn [on_ok]. pose proof (Hnodes _ _ H0) as E0. apply (wp_for_each _ _ I); [done| |].
  - intros done n todo T' Eids HI.
    assert (has_label T l n) as (r & Hr & Hlr) by (apply Hin; rewrite Eids; set_solver). rewrite E0 in Hr.
    assert (n ∉ done) as Hn.
    { pose proof (sorted_lt_nodup _ Hs) as Hnd. rewrite Eids in Hnd. apply NoDup_app in Hnd as (_ & Hd & _).
      intros Hd'. apply (Hd n Hd'). left. }
    apply wp_bind, wp_GetNode; [by eapply node_u64|]. rewrite (Hnodes _ _ HI), Hr. cbn [on_ok n_rec].
    assert (entry_of (nodes T0 n) l k = indexed_value (Props r !! k)) as Hen.
    { unfold entry_of. rewrite Hr, decide_True by done. done. }
    destruct (Props r !! k) as [v|] eqn:Ev; [destruct (isIndexable v) eqn:Ei|].
    + apply Hstep; [done|done|]. rewrite Hen. by apply indexed_value_Some.
    + apply wp_ret. cbn [on_ok]. apply Hskip; [done|]. rewrite Hen. cbn. by rewrite Ei.
    + apply wp_ret. cbn [on_ok]. apply Hskip; [done|]. by rewrite Hen.
  - intros T' HI. apply (HQ ids); [done|]. intros n v (r & Hr & Hlr & _)%entry_of_Some. apply Hin.
    exists r. by rewrite E0.
Qed.
End label_values.

(** The tables while an index is filled: the entries of the nodes in [done]. *)
Definition index_partial (T : tables) (l k : Z) (name : bytes) (done : list Z) : tables :=
  index_added l k name
    (set_ent (fun x => if decide (x.1 = (l, k) /\ index T (l, k) = None /\ x.2 ∉ done) then None else ent T x) T).

Lemma index_partial_other T l k name done sk o :
  (forall v n, sk <> KProp l k v n) -> cell (index_added l k name T) sk o <-> cell (index_partial T l k name done) sk o.
Proof.
  intros Hne. destruct sk; try done. cbn. destruct (decide ((label, key) = (l, k))) as [[= -> ->]|E]; [by edestruct Hne|].
  rewrite decide_False; [done|]. by intros [? _].
Qed.

Lemma index_partial_prop T l k name done v n o :
  cell (index_partial T l k name done) (KProp l k v n) o <->
  o = flag (bool_decide ((is_Some (index T (l, k)) \/ n ∈ done) /\ ent T (l, k, n) = Some v)).
Proof.
  cbn. rewrite fn_lookup_insert. erewrite bool_decide_ext; [done|].
  destruct (decide _) as [(_ & E & Hn)|Hn].
  - rewrite E. split; [by intros [_ ?]|]. by intros [[[? ?]|?] _].
  - split; [|intros [_ ?]; by split; [eexists|]]. intros [_ He]. split; [|done].
    destruct (index T (l, k)) eqn:E; [left; by eexists|]. right. destruct (decide (n ∈ done)); [done|]. by destruct Hn.
Qed.

Lemma wp_BuildIndex T l k name (Q : res unit -> tables -> Prop) :
  consistent T -> u32 l -> u32 k -> Q (Ok tt) (index_added l k name T) -> wp (BuildIndex l k name) T Q.
Proof.
  intros Hc Hl Hk HQ. unfold BuildIndex, AddNamedIndex. apply (wp_result (index_added l k name T) (Ok tt)); [done|].
  apply wp_bind. apply (wp_Set (index_partial T l k name []) (KIndex l k)); [done| | |cbn [on_ok]].
  { cbn. by rewrite fn_lookup_insert. }
  { intros sk o Hsk Hne Hcell. destruct (decide (exists v n, sk = KProp l k v n)) as [(v & n & ->)|Hno].
    - apply index_partial_prop. cbn in Hcell. rewrite Hcell. f_equal. apply bool_decide_ext. set_solver.
    - apply index_partial_other; [eauto|]. destruct sk; try exact Hcell; cbn in Hcell |- *.
      + rewrite fn_lookup_insert_ne; [done|]. intros [= <- <-]. eauto.
      + by rewrite fn_lookup_insert_ne by congruence. }
  apply (wp_forEachLabelValue T l k Hl Hc _ (fun done T' => nodes T' = nodes T /\ lab T' = lab T /\
    forall sk o, skey_ok sk -> cell T' sk o -> cell (index_partial T l k name done) sk o)).
  - by intros done T' [? _].
  - destruct (consistent_labels T Hc). by split.
  - done.
  - intros done n v T' (Hn1 & Hn2 & Hcells) Hn Hv. apply (wp_view _ _ _ _ Hcells).
    assert (ent T (l, k, n) = Some v) as Hev by (by rewrite (con_ent _ Hc)).
    pose proof Hv as (r & Hr & Hlr & Hpv & Hi)%entry_of_Some.
    rewrite PropKey_key by done. apply wp_bind, wp_ret. cbn [on_ok].
    apply (wp_Set (index_partial T l k name (done ++ [n])) (KProp l k v n)).
    + split_and!; try done; [by eapply node_value_key|by eapply node_u64].
    + apply index_partial_prop. rewrite bool_decide_true; [done|]. set_solver.
    + intros sk o Hsk Hne Hcell. destruct (decide (exists v n, sk = KProp l k v n)) as [(w & n' & ->)|Hno].
      * apply index_partial_prop in Hcell as ->. apply index_partial_prop. f_equal. apply bool_decide_ext.
        destruct (decide (n' = n)) as [->|]; [|set_solver]. split; intros [_ ?]; exfalso; apply Hne; congruence.
      * rewrite <- index_partial_other in * by eauto. done.
    + done.
  - intros done n T' (Hn1 & Hn2 & Hcells) Hnone. split_and!; try done. intros sk o Hsk Hcell%Hcells; [|done].
    destruct (decide (exists v n, sk = KProp l k v n)) as [(w & n' & ->)|Hno].
    + apply index_partial_prop in Hcell as ->. apply index_partial_prop. f_equal. apply bool_decide_ext.
      rewrite (con_ent _ Hc). destruct (decide (n' = n)) as [->|]; [|set_solver]. rewrite Hnone. by split; intros [_ ?].
    + rewrite <- index_partial_other in * by eauto. done.
  - intros ids T' (_ & _ & Hcells) Hall. split; [done|]. intros sk o Hsk Hcell%Hcells; [|done].
    destruct (decide (exists v n, sk = KProp l k v n)) as [(w & n' & ->)|Hno].
    + apply index_partial_prop in Hcell as ->. cbn. rewrite fn_lookup_insert. f_equal. apply bool_decide_ext.
      split; intros [_ ?]; (split; [|done]); [done|]. right. eapply Hall. by rewrite <- (con_ent _ Hc).
    + by apply index_partial_other in Hcell; [|eauto].
Qed.

(** ** Unique constraints *)

(** Two nodes with the label hold values the constraint takes to be equal. *)
Definition duplicate (T : tables) (l k : Z) : Prop :=
  exists n1 n2 v1 v2 u, n1 <> n2 /\ entry_of (nodes T n1) l k = Some v1 /\ entry_of (nodes T n2) l k = Some v2 /\
    uniqueValue v1 = Some u /\ uniqueValue v2 = Some u.

Definition constraint_added (l k : Z) (owns : bool) (name : bytes) (T : tables) : tables :=
  set_constr (<[(l, k) := Some (owns, name)]> (constr T)) T.

(** Owner entries while a constraint is installed: those of the nodes in
    [done], and all of them when it was there already. *)
Definition owners_of (T : tables) (l k : Z) (done : list Z) (ow : Z * Z * value -> option Z) : Prop :=
  (forall x, x.1 <> (l, k) -> ow x = own T x) /\
  forall u n, ow (l, k, u) = Some n <->
    (is_Some (constr T (l, k)) \/ n ∈ done) /\ exists v, ent T (l, k, n) = Some v /\ uniqueValue v = Some u.

Lemma owners_of_nil T l k : consistent T -> owners_of T l k [] (own T).
Proof.
  intros Hc. split; [done|]. intros u n. rewrite (con_own _ Hc l k u n). split; intros [H1 H2]; (split; [|done]).
  - by left.
  - destruct H1 as [?|?%elem_of_nil]; done.
Qed.

Lemma owners_of_skip T l k done ow n :
  owners_of T l k done ow -> (forall v, ent T (l, k, n) = Some v -> uniqueValue v = None) ->
  owners_of T l k (done ++ [n]) ow.
Proof.
  intros [Hx Ho] Hno. split; [done|]. intros u n'. rewrite Ho. split; intros [H1 (v & Hv & Hu)].
  - split; [set_solver|eauto].
  - split; [|eauto]. destruct H1 as [?|[?| ->%list_elem_of_singleton]%elem_of_app]; [by left|by right|].
    by rewrite (Hno v Hv) in Hu.
Qed.

Lemma owners_of_claim T l k done ow n v u :
  owners_of T l k done ow -> ent T (l, k, n) = Some v -> uniqueValue v = Some u ->
  ow (l, k, u) = None \/ ow (l, k, u) = Some n -> owners_of T l k (done ++ [n]) (<[(l, k, u) := Some n]> ow).
Proof.
  intros [Hx Ho] Hv Hu Hfree. split.
  { intros x Hne. rewrite fn_lookup_insert_ne; [by apply Hx|]. by intros <-. }
  intros u' n'. destruct (decide (u' = u)) as [->|Hne].
  - rewrite fn_lookup_insert. split.
    + intros [= <-]. split; [set_solver|eauto].
    + intros [H1 (v' & Hv' & Hu')]. destruct (decide (n' = n)) as [->|Hnn]; [done|].
      assert (ow (l, k, u) = Some n') as E; [|destruct Hfree; congruence]. apply Ho. split; [set_solver|eauto].
  - rewrite fn_lookup_insert_ne, Ho by congruence. split; intros [H1 (v' & Hv' & Hu')]; (split; [|eauto]); [set_solver|].
    destruct H1 as [?|[?| ->%list_elem_of_singleton]%elem_of_app]; [by left|by right|]. congruence.
Qed.

Lemma owners_consistent T l k owns name ids ow :
  consistent T -> is_Some (index T (l, k)) -> owners_of T l k ids ow ->
  (forall n v, entry_of (nodes T n) l k = Some v -> n ∈ ids) ->
  consistent (set_own ow (constraint_added l k owns name T)).
Proof.
  intros Hc Hx [Hother Ho] Hall. pose proof (con_own _ Hc) as Hown. pose proof (con_ent _ Hc) as Hent.
  destruct Hc as [Hcat H1 H2 H3 H4 H5 H6 H7 H8 H9]. split; try done.
  - by destruct Hcat; split.
  - intros l' k' u n. cbn. destruct (decide ((l', k') = (l, k))) as [[= -> ->]|E].
    + rewrite fn_lookup_insert, Ho. split; intros [_ (v & Hv & Hu)]; (split; [|eauto]); [done|]. right.
      eapply Hall. by rewrite <- Hent.
    + rewrite Hother, fn_lookup_insert_ne by (cbn; congruence). apply Hown.
  - intros l' k'. cbn. destruct (decide ((l', k') = (l, k))) as [[= -> ->]|E]; [done|].
    rewrite fn_lookup_insert_ne by congruence. apply H9.
Qed.

Lemma wp_claim_all T l k owns name (Q : res unit -> tables -> Prop) :
  consistent T -> u32 l -> u32 k -> is_Some (index T (l, k)) ->
  (forall ow, consistent (set_own ow (constraint_added l k owns name T)) ->
     Q (Ok tt) (set_own ow (constraint_added l k owns name T))) ->
  (forall T', duplicate T l k -> Q (Err ErrConstraintViolation) T') ->
  wp (forEachLabelValue l k (fun n v => claimValue l k v n)) (constraint_added l k owns name T) Q.
Proof.
  intros Hc Hl Hk Hx HQ HE.
  apply (wp_forEachLabelValue T l k Hl Hc _ (fun done T' => exists ow, T' = set_own ow (constraint_added l k owns name T) /\
    owners_of T l k done ow)).
  - by intros done T' (ow & -> & _).
  - destruct (consistent_labels T Hc). by split.
  - exists (own T). split; [by destruct T|]. by apply owners_of_nil.
  - intros done n v T' (ow & -> & How) Hn Hv. pose proof Hv as (r & Hr & Hlr & Hpv & Hi)%entry_of_Some.
    assert (ent T (l, k, n) = Some v) as Hev by (by rewrite (con_ent _ Hc)).
    destruct (con_node _ Hc n r Hr) as (_ & _ & HL & HK). rewrite Forall_forall in HL.
    apply wp_claimValue; try done.
    + by eapply node_u64.
    + by eapply node_value_key.
    + by apply HL.
    + apply (HK k). by rewrite Hpv.
    + intros u n'. cbn. intros (_ & v' & Hv' & _)%How. rewrite (con_ent _ Hc) in Hv'.
      apply entry_of_Some in Hv' as (r' & Hr' & _). by eapply node_u64.
    + intros Hu. exists ow. split; [done|]. apply owners_of_skip; [done|]. intros v'. rewrite Hev. by intros [= <-].
    + intros u Hu Hfree. cbn in Hfree |- *. exists (<[(l, k, u) := Some n]> ow). split; [done|].
      by eapply owners_of_claim.
    + intros u n' Hu Ho Hne. cbn in Ho |- *. apply HE. apply How in Ho as (_ & v' & Hv' & Hu').
      rewrite (con_ent _ Hc) in Hv'. by exists n', n, v', v, u.
  - intros done n T' (ow & -> & How) Hnone. exists ow. split; [done|]. apply owners_of_skip; [done|].
    intros v. by rewrite (con_ent _ Hc), Hnone.
  - intros ids T' (ow & -> & How) Hall. apply HQ. by eapply owners_consistent.
Qed.

(** A successful [AddUniqueConstraint]: the constraint is registered, the
    index exists, the marker says so, and the data are untouched. *)
Definition AddUniqueConstraint_post (T : tables) (l k : Z) (name : bytes) (r : res unit) (T' : tables) : Prop :=
  match r with
  | Ok _ => consistent T' /\ format_ok T' /\ nodes T' = nodes T /\ edges T' = edges T /\ relindex T' = relindex T /\
      fwd T' = fwd T /\ rev T' = rev T /\
      constr T' = <[(l, k) := Some (negb (has (index T (l, k))), name)]> (constr T) /\
      index T' = (if has (index T (l, k)) then index T else <[(l, k) := Some []]> (index T)) /\ ~ duplicate T l k
  | Err e => e = ErrConstraintViolation /\ duplicate T l k
  end.

Lemma consistent_no_duplicate T l k : consistent T -> is_Some (constr T (l, k)) -> ~ duplicate T l k.
Proof.
  intros Hc Hk (n1 & n2 & v1 & v2 & u & Hne & H1 & H2 & Hu1 & Hu2). rewrite <- (con_ent _ Hc) in H1, H2.
  assert (own T (l, k, u) = Some n1) as E1 by (apply (con_own _ Hc); eauto).
  assert (own T (l, k, u) = Some n2) as E2 by (apply (con_own _ Hc); eauto). congruence.
Qed.

Lemma wp_AddUniqueConstraint T l k name :
  consistent T -> format_ok T -> u32 l -> u32 k ->
  wp (AddUniqueConstraint l k name) T (AddUniqueConstraint_post T l k name).
Proof.
  intros Hc Hf Hl Hk. unfold AddUniqueConstraint. apply wp_bind, wp_HasIndex; [done|done|]. cbn [on_ok].
  set (T1 := if has (index T (l, k)) then T else index_added l k [] T).
  assert (consistent T1) as Hc1 by (unfold T1; destruct (has _); [done|by apply index_added_consistent]).
  assert (is_Some (index T1 (l, k))) as Hx1.
  { unfold T1. destruct (index T (l, k)) eqn:E; cbn; [by rewrite E|by rewrite fn_lookup_insert]. }
  assert (nodes T1 = nodes T /\ edges T1 = edges T /\ relindex T1 = relindex T /\ constr T1 = constr T /\ format T1 = format T /\
    fwd T1 = fwd T /\ rev T1 = rev T) as (En & Ee & Er & Ec & Ef & Efw & Erv) by (unfold T1; by destruct (has _)).
  assert (index T1 = if has (index T (l, k)) then index T else <[(l, k) := Some []]> (index T)) as Ex
    by (unfold T1; by destruct (has _)).
  apply wp_bind. apply (wp_mono _ _ (fun r T' => r = Ok tt /\ T' = T1)).
  { unfold T1. destruct (has _); [by apply wp_ret|by apply wp_BuildIndex]. }
  intros r T' [-> ->]. cbn [on_ok]. clearbody T1. unfold RequireUniqueFormat. apply wp_bind, wp_requireFormat; [| |done|cbn [on_ok]].
  { rewrite Ef. apply Hf. }
  { done. }
  pose proof (raise_format_consistent formatUnique _ Hc1) as Hc2.
  destruct (raise_format_same formatUnique T1) as (En2 & Ee2 & Ex2 & Ec2 & Er2 & Efw2 & Erv2).
  pose proof (raise_format_ge formatUnique T1 ltac:(done)) as Hge.
  pose proof (raise_format_mono formatUnique T1) as Hmono.
  pose proof (raise_format_u32 formatUnique T1 ltac:(done)) as Hu32.
  set (T2 := raise_format formatUnique T1) in *. clearbody T2. unfold AddConstraint. cbn [cd_Label cd_PropKey cd_OwnsIndex cd_Name].
  apply wp_bind. apply (wp_Set (constraint_added l k (negb (has (index T (l, k)))) name T2) (KConstraint l k)); [done| | |cbn [on_ok]].
  { cbn. by rewrite fn_lookup_insert. }
  { other_cells. }
  apply wp_claim_all; try done; [by rewrite Ex2| |].
  - intros ow Hc3. cbn. split_and!; try congruence; try done.
    + split; cbn.
      * apply Hu32. rewrite Ef. apply Hf.
      * intros _ _ _. done.
      * intros t k' Hr. etrans; [|exact Hmono]. rewrite Ef. apply (fo_rel _ Hf t k'). congruence.
    + intros Hd. apply (consistent_no_duplicate _ l k Hc3).
      * cbn. by rewrite fn_lookup_insert.
      * unfold duplicate. cbn. by rewrite En2, En.
  - intros T' Hd. cbn. split; [done|]. unfold duplicate in Hd. by rewrite En2, En in Hd.
Qed.

Definition constraint_dropped (l k : Z) (T : tables) : tables :=
  set_own (fun x => if decide (x.1 = (l, k)) then None else own T x) (set_constr (<[(l, k) := None]> (constr T)) T).

Lemma constraint_dropped_consistent T l k : consistent T -> consistent (constraint_dropped l k T).
Proof.
  intros [Hcat H1 H2 H3 H4 H5 H6 H7 H8 H9]. split; try done.
  - by destruct Hcat; split.
  - intros l' k' u n. cbn. destruct (decide ((l', k') = (l, k))) as [E|E].
    + rewrite E, fn_lookup_insert. split; [done|by intros [[? ?] _]].
    + rewrite fn_lookup_insert_ne by congruence. apply H5.
  - intros l' k'. cbn. destruct (decide ((l', k') = (l, k))) as [E|E]; [rewrite E, fn_lookup_insert; by intros [? ?]|].
    rewrite fn_lookup_insert_ne by congruence. apply H9.
Qed.

(** [DropUniqueConstraint]: without a constraint, nothing; otherwise it and its
    owner entries go, and its index when the constraint created it. *)
Definition constraint_removed (l k : Z) (T : tables) : tables :=
  match constr T (l, k) with
  | None => T
  | Some (owns, _) => if owns : bool then index_dropped l k (constraint_dropped l k T) else constraint_dropped l k T
  end.

Lemma constraint_removed_consistent T l k : consistent T -> consistent (constraint_removed l k T).
Proof.
  intros Hc. unfold constraint_removed. destruct (constr T (l, k)) as [[[] ?]|]; [..|done];
    pose proof (constraint_dropped_consistent T l k Hc); [|done].
  apply index_dropped_consistent; [done|]. cbn. by rewrite fn_lookup_insert.
Qed.

Lemma wp_DropUniqueConstraint T l k (Q : res unit -> tables -> Prop) :
  u32 l -> u32 k -> Q (Ok tt) (constraint_removed l k T) -> wp (DropUniqueConstraint l k) T Q.
Proof.
  intros Hl Hk HQ. unfold DropUniqueConstraint. apply wp_bind, wp_GetConstraint; [done|done|]. cbn [on_ok].
  unfold constraint_removed in HQ. destruct (constr T (l, k)) as [[owns name]|] eqn:Ec; cbn [fmap option_fmap option_map];
    [|by apply wp_ret].
  apply wp_bind. set (T1 := set_own (fun x => if decide (x.1 = (l, k)) then None else own T x) T).
  apply (wp_deletePrefix _ T T1 (fun sk => exists u, sk = KUnique l k u)).
  - intros sk Hsk. by apply scan_unique.
  - intros sk Hsk (u & ->). cbn. by rewrite decide_True.
  - intros sk o Hsk Hno Hcell. destruct sk; try exact Hcell. cbn in Hcell |- *. rewrite decide_False; [done|].
    intros [= -> ->]. apply Hno. eauto.
  - cbn [on_ok]. apply wp_bind. apply (wp_Delete (constraint_dropped l k T) (KConstraint l k)); [done| | |cbn [on_ok cd_OwnsIndex snd fst]].
    + cbn. by rewrite fn_lookup_insert.
    + other_cells.
    + destruct owns; [by apply wp_DropIndexEntries|by apply wp_ret].
Qed.

(** ** Relationship indexes *)
Definition relindex_added (t k : Z) (name : bytes) (T : tables) : tables := set_relindex (<[(t, k) := Some name]> (relindex T)) T.
Definition relindex_dropped (t k : Z) (T : tables) : tables := set_relindex (<[(t, k) := None]> (relindex T)) T.

Lemma relindex_consistent T f : consistent T -> consistent (set_relindex f T).
Proof. intros [[] H1 H2 H3 H4 H5 H6 H7 H8 H9]. by repeat (split; try done). Qed.

Lemma wp_DropRelIndexEntries T t k (Q : res unit -> tables -> Prop) :
  u32 t -> u32 k -> Q (Ok tt) (relindex_dropped t k T) -> wp (DropRelIndexEntries t k) T Q.
Proof.
  intros Ht Hk HQ. unfold DropRelIndexEntries, RemoveRelIndex. apply wp_bind.
  set (T1 := set_rent (fun x => if decide (x.1 = (t, k)) then None else rent T x) T).
  apply (wp_deletePrefix _ T T1 (fun sk => exists v e, sk = KRel t k v e)).
  - intros sk Hsk. by apply scan_rel_index.
  - intros sk Hsk (v & n & ->). cbn. rewrite decide_True by done. by rewrite bool_decide_false by (by intros [_ ?]).
  - intros sk o Hsk Hno Hc. destruct sk; try exact Hc. cbn in Hc |- *. rewrite decide_False; [done|].
    intros [= -> ->]. apply Hno. eauto.
  - cbn [on_ok]. eapply (wp_Delete _ (KRelIndex t k)); [done| | |exact HQ].
    + cbn. by rewrite fn_lookup_insert.
    + intros sk o Hsk Hne Hc. destruct sk; try exact Hc; cbn in Hc |- *.
      * rewrite Hc. f_equal. apply bool_decide_ext. destruct (decide ((typ, key) = (t, k))) as [E|E].
        -- rewrite E, fn_lookup_insert. split; [by intros [_ ?]|by intros [[? ?] _]].
        -- by rewrite fn_lookup_insert_ne by congruence.
      * by rewrite fn_lookup_insert_ne by congruence.
Qed.

#[global] Instance is_rel_dec t k sk : Decision (exists v e, sk = KRel t k v e).
Proof.
  destruct sk as [| | | | | | |t' k' v n| | | | | | |]; try (right; by intros (? & ? & ?)).
  destruct (decide ((t', k') = (t, k))) as [[= -> ->]|E]; [left; eauto|right; by intros (? & ? & [= ? ? _ _]); congruence].
Defined.

(** The tables while a relationship index is filled. *)
Definition rel_partial (T : tables) (t k : Z) (name : bytes) (done : list Z) : tables :=
  relindex_added t k name
    (set_rent (fun x => if decide (x.1 = (t, k) /\ relindex T (t, k) = None /\ x.2 ∉ done) then None else rent T x) T).

Lemma rel_partial_other T t k name done sk o :
  (forall v e, sk <> KRel t k v e) -> cell (relindex_added t k name T) sk o <-> cell (rel_partial T t k name done) sk o.
Proof.
  intros Hne. destruct sk; try done. cbn. destruct (decide ((typ, key) = (t, k))) as [[= -> ->]|E]; [by edestruct Hne|].
  rewrite decide_False; [done|]. by intros [? _].
Qed.

Lemma rel_partial_entry T t k name done v e o :
  cell (rel_partial T t k name done) (KRel t k v e) o <->
  o = flag (bool_decide ((is_Some (relindex T (t, k)) \/ e ∈ done) /\ rent T (t, k, e) = Some v)).
Proof.
  cbn. rewrite fn_lookup_insert. erewrite bool_decide_ext; [done|].
  destruct (decide _) as [(_ & E & Hn)|Hn].
  - rewrite E. split; [by intros [_ ?]|]. by intros [[[? ?]|?] _].
  - split; [|intros [_ ?]; by split; [eexists|]]. intros [_ He]. split; [|done].
    destruct (relindex T (t, k)) eqn:E; [left; by eexists|]. right. destruct (decide (e ∈ done)); [done|]. by destruct Hn.
Qed.

(** Scanning edges needs the edge records only. *)
Lemma wp_ScanEdgesOfType T t fn (Q : res unit -> tables -> Prop) :
  (forall e r, edges T e = Some r -> u64 e) -> (forall es, edges_of_type T t es -> wp (for_each fn es) T Q) -> wp (ScanEdgesOfType t fn) T Q.
Proof. intros Hc HQ. by apply (wp_edges_of_type T t (for_each fn)). Qed.

Lemma rel_partial_step T t k name T1 r x :
  consistent T -> u32 t -> u32 k -> edges T (e_ID x) = Some r -> Type_ r = t -> x = mkEdge (e_ID x) r -> forall done,
  (forall sk o, skey_ok sk -> cell T1 sk o -> cell (rel_partial T t k name done) sk o) ->
  wp (match EProps (e_rec x) !! k with
      | Some v => if isIndexable v then kk ← lift (RelPropKey t k v (e_ID x)); Set_ kk [] else mret tt
      | None => mret tt
      end) T1
    (fun r' T' => r' = Ok tt /\ forall sk o, skey_ok sk -> cell T' sk o -> cell (rel_partial T t k name (done ++ [e_ID x])) sk o).
Proof.
  intros Hc Ht Hk Hr Hty Ex done Hcells. destruct x as [e rr]. cbn [e_ID e_rec] in *. injection Ex as ->.
  destruct (edge_u64 _ _ _ Hc Hr) as [He Hst].
  assert (rent T (t, k, e) = indexed_value (EProps r !! k)) as Hre.
  { rewrite (con_rent _ Hc). unfold rel_entry_of. rewrite Hr, decide_True by done. done. }
  assert (rent T (t, k, e) = None ->
    wp (mret tt) T1 (fun r' T' => r' = Ok tt /\ forall sk o, skey_ok sk -> cell T' sk o -> cell (rel_partial T t k name (done ++ [e])) sk o))
    as Hskip.
  { intros Hnone. apply wp_ret. split; [done|]. intros sk o Hsk Hcell%Hcells; [|done].
    destruct (decide (exists v e, sk = KRel t k v e)) as [(w & e' & ->)|Hno].
    - apply rel_partial_entry in Hcell as ->. apply rel_partial_entry. f_equal. apply bool_decide_ext.
      destruct (decide (e' = e)) as [->|]; [|set_solver]. rewrite Hnone. by split; intros [_ ?].
    - rewrite <- rel_partial_other in * by eauto. done. }
  destruct (EProps r !! k) as [v|] eqn:Ev; [|by apply Hskip]. destruct (isIndexable v) eqn:Ei.
  2: { apply Hskip. rewrite Hre. cbn. by rewrite Ei. }
  cbn in Hre. rewrite Ei in Hre. rewrite RelPropKey_key by done. apply wp_bind, wp_ret. cbn [on_ok].
  apply (wp_view _ _ _ _ Hcells). eapply (wp_Set (rel_partial T t k name (done ++ [e])) (KRel t k v e)).
  - split_and!; try done. apply prop_stored_indexable; [|done]. by destruct (es_props _ Hst k v Ev).
  - apply rel_partial_entry. rewrite bool_decide_true; [done|]. set_solver.
  - intros sk o Hsk Hne Hcell. destruct (decide (exists v e, sk = KRel t k v e)) as [(w & e' & ->)|Hno].
    + apply rel_partial_entry in Hcell as ->. apply rel_partial_entry. f_equal. apply bool_decide_ext.
      destruct (decide (e' = e)) as [->|]; [|set_solver]. split; intros [_ ?]; exfalso; apply Hne; congruence.
    + rewrite <- rel_partial_other in * by eauto. done.
  - done.
Qed.

Lemma wp_rel_fill T t k name (Q : res unit -> tables -> Prop) :
  consistent T -> u32 t -> u32 k -> Q (Ok tt) (relindex_added t k name T) ->
  wp (AddRelIndex t k name ≫= fun _ =>
      ScanEdgesOfType t (fun e =>
        match EProps (e_rec e) !! k with
        | Some v => if isIndexable v then kk ← lift (RelPropKey t k v (e_ID e)); Set_ kk [] else mret tt
        | None => mret tt
        end)) T Q.
Proof.
  intros Hc Ht Hk HQ. unfold AddRelIndex. apply (wp_result (relindex_added t k name T) (Ok tt)); [done|].
  apply wp_bind. apply (wp_Set (rel_partial T t k name []) (KRelIndex t k)); [done| | |cbn [on_ok]].
  { cbn. by rewrite fn_lookup_insert. }
  { intros sk o Hsk Hne Hcell. destruct (decide (exists v e, sk = KRel t k v e)) as [(v & n & ->)|Hno].
    - apply rel_partial_entry. cbn in Hcell. rewrite Hcell. f_equal. apply bool_decide_ext. set_solver.
    - apply rel_partial_other; [eauto|]. destruct sk; try exact Hcell; cbn in Hcell |- *.
      + rewrite fn_lookup_insert_ne; [done|]. intros [= <- <-]. eauto.
      + by rewrite fn_lookup_insert_ne by congruence. }
  apply wp_ScanEdgesOfType; [by intros e r Hr; eapply (edge_u64 T)|]. intros es [_ Hes].
  apply (wp_for_each _ _ (fun done T' => forall sk o, skey_ok sk -> cell T' sk o -> cell (rel_partial T t k name (e_ID <$> done)) sk o)).
  - done.
  - intros done x todo T' E Hcells. assert (x ∈ es) as Hx by (rewrite E; set_solver).
    apply Hes in Hx as (e & r & Hr & Hty & ->). eapply wp_mono; [by apply (rel_partial_step T t k name T' r (mkEdge e r))|].
    intros r' T'' [-> Hcells']. cbn [on_ok]. by rewrite fmap_app.
  - intros T' Hcells. split; [done|]. intros sk o Hsk Hcell%Hcells; [|done].
    destruct (decide (exists v e, sk = KRel t k v e)) as [(w & e & ->)|Hno].
    + apply rel_partial_entry in Hcell as ->. cbn. rewrite fn_lookup_insert. f_equal. apply bool_decide_ext.
      split; intros [_ Hre]; (split; [|done]); [done|]. right. rewrite (con_rent _ Hc) in Hre.
      unfold rel_entry_of in Hre. destruct (edges T e) as [r|] eqn:Er; [|done]. destruct (decide (Type_ r = t)); [|done].
      apply list_elem_of_fmap. exists (mkEdge e r). split; [done|]. apply Hes. eauto.
    + by apply rel_partial_other in Hcell; [|eauto].
Qed.

Lemma wp_BuildRelIndex T t k name (Q : res unit -> tables -> Prop) :
  consistent T -> format_ok T -> u32 t -> u32 k ->
  Q (Ok tt) (relindex_added t k name (raise_format formatRelIndex T)) -> wp (BuildRelIndex t k name) T Q.
Proof.
  intros Hc Hf Ht Hk HQ. unfold BuildRelIndex, RequireRelIndexFormat.
  apply wp_bind, wp_requireFormat; [apply Hf|done|done|cbn [on_ok]].
  apply wp_rel_fill; try done. by apply raise_format_consistent.
Qed.

(** Creating the index raises the marker as far as it must. *)
Lemma relindex_added_format t k name T : format_ok T -> format_ok (relindex_added t k name (raise_format formatRelIndex T)).
Proof.
  intros [H1 H2 H3]. pose proof (raise_format_ge formatRelIndex T ltac:(done)) as Hge. split; cbn.
  - by apply raise_format_u32.
  - intros l k' Hs. etrans; [|apply Hge]. done.
  - intros t' k' _. exact Hge.
Qed.

(** Opening: a new database is marked with the first version, a marked one is
    accepted exactly when this build reads its version. *)
Lemma wp_EnsureFormat T (Q : res unit -> tables -> Prop) :
  (forall v, format T = Some v -> u32 v) ->
  (format T = None -> Q (Ok tt) (set_format (Some formatVersion) T)) ->
  (forall v, format T = Some v -> formatVersion <= v <= maxFormat -> Q (Ok tt) T) ->
  (forall v, format T = Some v -> ~ (formatVersion <= v <= maxFormat) -> Q (Err (ErrFormatVersion v)) T) ->
  wp EnsureFormat T Q.
Proof.
  intros Hu H0 H1 H2. unfold EnsureFormat. change formatKey with (key_of KFormat).
  apply wp_bind, wp_Get; [done|]. intros o Ho. cbn in Ho. cbn [on_ok].
  destruct (format T) as [v|] eqn:E; cbn in Ho; subst o.
  - rewrite be_length. cbn [Nat.eqb negb]. cbv zeta. rewrite be4_get by auto.
    destruct (Z.ltb_spec v formatVersion); cbn [orb]; [apply wp_throw, H2; [done|lia]|].
    destruct (Z.ltb_spec maxFormat v); [apply wp_throw, H2; [done|lia]|]. apply wp_ret, (H1 v); [done|lia].
  - eapply wp_Set; [done| | |by apply H0]; [done|]. intros [] o' _ Hne Hc; try exact Hc. done.
Qed.
