(* ===== verification/Ddl.v ===== *)
(** * Ddl: the schema statements

    The operators behind CREATE/DROP INDEX and CREATE/DROP CONSTRAINT
    (createIndexOp, createRelIndex, listAllIndexes, findAnyIndex, dropIndexOp of
    src/internal/exec/write.go; createConstraintOp, findConstraint,
    dropConstraintOp of src/internal/exec/constraint.go) as transaction
    programs: what one call of [next] does before it reports its single row.
    On a database whose schema is well formed ([db_ok]) they keep it so. *)
From S2P Require Import Prelude Float64 Values IndexCodec Keys Records Storage Catalog Graph Tables GraphInv NodeOps NodeUpdates Traversal Lookups IndexOps.

(** ** The statements *)
Record indexInfo := mkIndexInfo {
  ii_name : bytes; ii_label : bytes; ii_prop : bytes; ii_rel : bool; ii_labelID : Z; ii_keyID : Z
}.

Definition listAllIndexes : prog (list indexInfo) :=
  defs ← ListIndexes;
  out ← map_prog (fun d =>
    '(label, prop, name) ← IndexName d;
    mret (mkIndexInfo name label prop false (ix_Label d) (ix_PropKey d))) defs;
  rdefs ← ListRelIndexes;
  rout ← map_prog (fun d =>
    '(typ, prop, name) ← RelIndexName d;
    mret (mkIndexInfo name typ prop true (ri_Type d) (ri_PropKey d))) rdefs;
  mret (out ++ rout).

Definition findAnyIndex (name : bytes) : prog (option indexInfo) :=
  all ← listAllIndexes; mret (List.find (fun ix => bool_decide (ii_name ix = name)) all).

(** [c.name != ""] and an index, of nodes or of relationships, has the name. *)
Definition require_free_name (name : bytes) : prog unit :=
  match name with
  | [] => mret tt
  | _ => found ← findAnyIndex name;
         match found with Some _ => throw ErrIndexNamed | None => mret tt end
  end.

Definition createIndex (name label prop : bytes) : prog unit :=
  labelID ← InternLabel label;
  keyID ← InternKey prop;
  has ← HasIndex labelID keyID;
  if has : bool then
    match name with
    | [] => mret tt
    | _ => def ← GetIndex labelID keyID;
           '(_, _, existing) ← IndexName (default (mkIndexDef 0 0 []) def);
           if bool_decide (existing = name) then mret tt else throw ErrIndexExists
    end
  else require_free_name name ≫= fun _ => BuildIndex labelID keyID name.

Definition createRelIndex (name typ prop : bytes) : prog unit :=
  typeID ← InternType typ;
  keyID ← InternKey prop;
  found ← GetRelIndex typeID keyID;
  match found with
  | Some def =>
      '(_, _, existing) ← RelIndexName def;
      match name with
      | [] => mret tt
      | _ => if bool_decide (name = existing) then mret tt else throw ErrIndexExists
      end
  | None => require_free_name name ≫= fun _ => BuildRelIndex typeID keyID name
  end.

Definition dropIndex (name : bytes) (ifExists : bool) : prog unit :=
  found ← findAnyIndex name;
  match found with
  | None => if ifExists then mret tt else throw ErrNoIndex
  | Some ix =>
      if ii_rel ix then DropRelIndexEntries (ii_labelID ix) (ii_keyID ix)
      else
        c ← GetConstraint (ii_labelID ix) (ii_keyID ix);
        match c with
        | Some c => _ ← ConstraintName c; throw ErrBacksConstraint
        | None => DropIndexEntries (ii_labelID ix) (ii_keyID ix)
        end
  end.

(** [findConstraint]: names are resolved one constraint at a time. *)
Fixpoint find_constraint (name : bytes) (defs : list ConstraintDef) : prog (option ConstraintDef) :=
  match defs with
  | [] => mret None
  | d :: defs' =>
      '(_, _, n) ← ConstraintName d;
      if bool_decide (n = name) then mret (Some d) else find_constraint name defs'
  end.
Definition findConstraint (name : bytes) : prog (option ConstraintDef) :=
  defs ← ListConstraints; find_constraint name defs.

Definition createConstraint (name label prop : bytes) : prog unit :=
  labelID ← InternLabel label;
  keyID ← InternKey prop;
  found ← GetConstraint labelID keyID;
  match found with
  | Some def =>
      '(_, _, existing) ← ConstraintName def;
      match name with
      | [] => mret tt
      | _ => if bool_decide (name = existing) then mret tt else throw ErrConstraintExists
      end
  | None =>
      match name with
      | [] => mret tt
      | _ => found ← findConstraint name;
             match found with Some _ => throw ErrConstraintNamed | None => mret tt end
      end ≫= fun _ => AddUniqueConstraint labelID keyID name
  end.

Definition dropConstraint (name : bytes) (ifExists : bool) : prog unit :=
  found ← findConstraint name;
  match found with
  | None => if ifExists then mret tt else throw ErrNoConstraint
  | Some def => DropUniqueConstraint (cd_Label def) (cd_PropKey def)
  end.

(** ** The schema invariant *)
Record registry_ok (T : tables) : Prop := {
  ro_index : forall l k, is_Some (index T (l, k)) -> known T DLabel l /\ known T DKey k;
  ro_constr : forall l k, is_Some (constr T (l, k)) -> known T DLabel l /\ known T DKey k;
  ro_rel : forall t k, is_Some (relindex T (t, k)) -> known T DType t /\ known T DKey k
}.

Record db_ok (T : tables) : Prop := {
  db_con : consistent T;
  db_format : format_ok T;
  db_registry : registry_ok T
}.

Lemma db_ok_empty : db_ok empty_tables.
Proof.
  split; [apply consistent_empty|apply format_ok_empty|]. split; intros ? ? [? ?]; done.
Qed.

Lemma known_u32 T d i : consistent T -> known T d i -> u32 i.
Proof. intros Hc [nm Hn]. apply (cat_inverse _ (con_cat _ Hc)) in Hn. eapply cat_u32; [apply Hc|exact Hn]. Qed.

(** ** Registries *)

(** The two identifiers of a registry key. *)
Lemma registry_ids_key tag l k : u32 l -> u32 k -> registry_ids (tag :: be 4 l ++ be 4 k) = Ok (l, k).
Proof.
  intros Hl Hk. unfold registry_ids. cbn [length]. rewrite length_app, !be_length. cbn [Nat.add Nat.eqb].
  pose proof (field_at 1 4 [tag] l (be 4 k)) as F1. pose proof (field_at 5 4 (tag :: be 4 l) k []) as F2.
  rewrite app_nil_r in F2. cbn [app length] in F1, F2. rewrite be_length in F2.
  rewrite F1, F2; auto with codec_db.
Qed.

(** A registry scan lists exactly the registered pairs. *)
Section registry.
Context {A : Type} (T : tables) (tag : Z) (mk : Z -> Z -> skey) (f : kv -> prog A).
Context (reg : Z * Z -> option bytes) (h : Z -> Z -> bytes -> A).
Context (Hmk : forall sk, skey_ok sk -> has_prefix [tag] (key_of sk) = true <-> exists l k, sk = mk l k).
Context (Hcell : forall l k o, cell T (mk l k) o <-> o = reg (l, k)).
Context (Hok : forall l k, skey_ok (mk l k) <-> u32 l /\ u32 k).
Context (Hf : forall l k v, u32 l -> u32 k -> reg (l, k) = Some v -> f (key_of (mk l k), v) = mret (h l k v)).

Lemma wp_registry (Q : res (list A) -> tables -> Prop) :
  (forall out, (forall a, a ∈ out <-> exists l k v, u32 l /\ u32 k /\ reg (l, k) = Some v /\ a = h l k v) -> Q (Ok out) T) ->
  wp (l ← Scan [tag]; map_prog f l) T Q.
Proof.
  intros HQ. apply wp_bind, wp_Scan. intros es [_ Hsound Hcomplete]. cbn [on_ok].
  assert (forall e, e ∈ es -> exists l k, u32 l /\ u32 k /\ e.1 = key_of (mk l k) /\ reg (l, k) = Some e.2) as He.
  { intros e Hin. destruct (Hsound e Hin) as (sk & Hsk & E & Hc & Hp & _). apply Hmk in Hp as (l & k & ->); [|done].
    apply Hok in Hsk as [Hl Hk]. apply Hcell in Hc. by exists l, k. }
  assert (exists out, map_prog f es = mret out /\
    forall a, a ∈ out <-> exists e l k, e ∈ es /\ u32 l /\ u32 k /\ e.1 = key_of (mk l k) /\ reg (l, k) = Some e.2 /\ a = h l k e.2)
    as (out & -> & Hout).
  { clear Hsound Hcomplete. induction es as [|e es IH].
    - exists []. split; [done|]. intros a. split; [by intros ?%elem_of_nil|]. by intros (e & l & k & ?%elem_of_nil & _).
    - destruct IH as (out & Em & Hout); [intros; apply He; by right|].
      destruct (He e) as (l & k & Hl & Hk & E & Hr); [left|]. exists (h l k e.2 :: out). split.
      + cbn [map_prog]. rewrite Em. destruct e as [key v]. cbn in E, Hr |- *. subst key. rewrite Hf by done. done.
      + intros a. rewrite elem_of_cons, Hout. split.
        * intros [->|(e' & l' & k' & ? & H)]; [exists e, l, k; split_and!; try done; left|].
          exists e', l', k'. split; [by right|done].
        * intros (e' & l' & k' & [->|Hin]%elem_of_cons & Hl' & Hk' & E' & Hr' & ->); [|right; by exists e', l', k'].
          left. assert (mk l k = mk l' k') as Emk by (apply key_of_inj; [by apply Hok|by apply Hok|congruence]).
          rewrite E in E'. pose proof (Hf l k e.2 Hl Hk Hr) as F1. pose proof (Hf l' k' e.2 Hl' Hk' Hr') as F2.
          rewrite Emk in F1. rewrite F1 in F2. by injection F2. }
  apply wp_ret, HQ. intros a. rewrite Hout. split.
  - intros (e & l & k & _ & Hl & Hk & _ & Hr & ->). eauto 8.
  - intros (l & k & v & Hl & Hk & Hr & ->). assert (skey_ok (mk l k)) as Hsk by (by apply Hok).
    assert (has_prefix [tag] (key_of (mk l k)) = true) as Hp by (apply Hmk; eauto).
    destruct (Hcomplete (mk l k) Hsk Hp (ble_prefix _ _ Hp)) as [w Hw].
    { rewrite Hcell, Hr. done. }
    destruct (Hsound _ Hw) as (sk & Hsk' & E & Hc & _). cbn in E. apply key_of_inj in E as <-; [|done|done].
    apply Hcell in Hc. cbn in Hc. assert (w = v) as -> by congruence. exists (key_of (mk l k), v), l, k. done.
Qed.
End registry.

Lemma scan_indexes sk : skey_ok sk -> has_prefix [tagIndexReg] (key_of sk) = true <-> exists l k, sk = KIndex l k.
Proof. intros Hk. scan_table. Qed.
Lemma scan_constraints sk : skey_ok sk -> has_prefix [tagConstraint] (key_of sk) = true <-> exists l k, sk = KConstraint l k.
Proof. intros Hk. scan_table. Qed.
Lemma scan_relindexes sk : skey_ok sk -> has_prefix [tagRelIndex] (key_of sk) = true <-> exists t k, sk = KRelIndex t k.
Proof. intros Hk. scan_table. Qed.

Lemma wp_ListIndexes T (Q : res (list IndexDef) -> tables -> Prop) :
  (forall out, (forall d, d ∈ out <-> exists l k v, u32 l /\ u32 k /\ index T (l, k) = Some v /\ d = mkIndexDef l k v) -> Q (Ok out) T) ->
  wp ListIndexes T Q.
Proof.
  apply (wp_registry T tagIndexReg KIndex _ (index T) mkIndexDef); [apply scan_indexes|done|done|].
  intros l k v Hl Hk _. cbn [fst snd].
  change (key_of (KIndex l k)) with (tagIndexReg :: be 4 l ++ be 4 k). by rewrite registry_ids_key.
Qed.

Lemma wp_ListRelIndexes T (Q : res (list RelIndexDef) -> tables -> Prop) :
  (forall out, (forall d, d ∈ out <-> exists t k v, u32 t /\ u32 k /\ relindex T (t, k) = Some v /\ d = mkRelIndexDef t k v) -> Q (Ok out) T) ->
  wp ListRelIndexes T Q.
Proof.
  apply (wp_registry T tagRelIndex KRelIndex _ (relindex T) mkRelIndexDef); [apply scan_relindexes|done|done|].
  intros l k v Hl Hk _. cbn [fst snd].
  change (key_of (KRelIndex l k)) with (tagRelIndex :: be 4 l ++ be 4 k). by rewrite registry_ids_key.
Qed.

Definition constr_bytes (d : bool * bytes) : bytes := (if d.1 then 1 else 0) :: d.2.

Lemma wp_ListConstraints T (Q : res (list ConstraintDef) -> tables -> Prop) :
  (forall out, (forall d, d ∈ out <-> exists l k owns name, u32 l /\ u32 k /\ constr T (l, k) = Some (owns, name) /\
     d = mkConstraintDef l k name owns) -> Q (Ok out) T) ->
  wp ListConstraints T Q.
Proof.
  intros HQ.
  apply (wp_registry T tagConstraint KConstraint _ (fun x => constr_bytes <$> constr T x)
    (fun l k v => match v with f :: name => mkConstraintDef l k name (negb (Z.land f 1 =? 0)) | [] => mkConstraintDef l k [] false end));
    [apply scan_constraints|done|done| |].
  - intros l k v Hl Hk Hv. cbn [fst snd].
    change (key_of (KConstraint l k)) with (tagConstraint :: be 4 l ++ be 4 k). rewrite registry_ids_key by done.
    destruct (constr T (l, k)) as [[owns name]|]; [|done]. by injection Hv as <-.
  - intros out Hout. apply HQ. intros d. rewrite Hout. split.
    + intros (l & k & v & Hl & Hk & Hv & ->). destruct (constr T (l, k)) as [[owns name]|] eqn:E; [|done].
      injection Hv as <-. exists l, k, owns, name. split_and!; try done. by destruct owns.
    + intros (l & k & owns & name & Hl & Hk & E & ->). exists l, k, (constr_bytes (owns, name)). rewrite E.
      split_and!; try done. by destruct owns.
Qed.

(** ** Names *)
Definition name_of (T : tables) (d : dict) (i : Z) : bytes := default [] (rev T (d, i)).

Lemma wp_name T d i (Q : res bytes -> tables -> Prop) :
  consistent T -> known T d i -> Q (Ok (name_of T d i)) T -> wp (revName (dict_kind d) i) T Q.
Proof.
  intros Hc Hk HQ. apply wp_revName; [by eapply known_u32|]. unfold name_of in HQ.
  destruct Hk as [nm Hnm]. rewrite Hnm in *. done.
Qed.

Definition index_name (T : tables) (l k : Z) (v : bytes) : bytes :=
  default_name (str "index_") (name_of T DLabel l) (name_of T DKey k) v.
Definition rel_index_name (T : tables) (t k : Z) (v : bytes) : bytes :=
  default_name (str "rel_index_") (name_of T DType t) (name_of T DKey k) v.
Definition constraint_name (T : tables) (l k : Z) (v : bytes) : bytes :=
  default_name (str "constraint_") (name_of T DLabel l) (name_of T DKey k) v.

Lemma wp_IndexName T d (Q : res (bytes * bytes * bytes) -> tables -> Prop) :
  consistent T -> known T DLabel (ix_Label d) -> known T DKey (ix_PropKey d) ->
  Q (Ok (name_of T DLabel (ix_Label d), name_of T DKey (ix_PropKey d), index_name T (ix_Label d) (ix_PropKey d) (ix_Name d))) T ->
  wp (IndexName d) T Q.
Proof.
  intros Hc Hl Hk HQ. unfold IndexName, LabelName, KeyName. apply wp_bind, (wp_name T DLabel); [done|done|]. cbn [on_ok].
  apply wp_bind, (wp_name T DKey); [done|done|]. cbn [on_ok]. by apply wp_ret.
Qed.

Lemma wp_RelIndexName T d (Q : res (bytes * bytes * bytes) -> tables -> Prop) :
  consistent T -> known T DType (ri_Type d) -> known T DKey (ri_PropKey d) ->
  Q (Ok (name_of T DType (ri_Type d), name_of T DKey (ri_PropKey d), rel_index_name T (ri_Type d) (ri_PropKey d) (ri_Name d))) T ->
  wp (RelIndexName d) T Q.
Proof.
  intros Hc Hl Hk HQ. unfold RelIndexName, TypeName, KeyName. apply wp_bind, (wp_name T DType); [done|done|]. cbn [on_ok].
  apply wp_bind, (wp_name T DKey); [done|done|]. cbn [on_ok]. by apply wp_ret.
Qed.

Lemma wp_ConstraintName T d (Q : res (bytes * bytes * bytes) -> tables -> Prop) :
  consistent T -> known T DLabel (cd_Label d) -> known T DKey (cd_PropKey d) ->
  Q (Ok (name_of T DLabel (cd_Label d), name_of T DKey (cd_PropKey d), constraint_name T (cd_Label d) (cd_PropKey d) (cd_Name d))) T ->
  wp (ConstraintName d) T Q.
Proof.
  intros Hc Hl Hk HQ. unfold ConstraintName, LabelName, KeyName. apply wp_bind, (wp_name T DLabel); [done|done|]. cbn [on_ok].
  apply wp_bind, (wp_name T DKey); [done|done|]. cbn [on_ok]. by apply wp_ret.
Qed.

Lemma wp_map_pure {A B} (f : A -> prog B) (h : A -> B) l T (Q : res (list B) -> tables -> Prop) :
  (forall x (Q' : res B -> tables -> Prop), x ∈ l -> Q' (Ok (h x)) T -> wp (f x) T Q') -> Q (Ok (h <$> l)) T ->
  wp (map_prog f l) T Q.
Proof.
  revert Q. induction l as [|x l IH]; intros Q Hf HQ; [by apply wp_ret|]. cbn [map_prog].
  apply wp_bind, Hf; [left|]. cbn [on_ok]. apply wp_bind, IH; [intros; apply Hf; [by right|done]|]. cbn [on_ok].
  by apply wp_ret.
Qed.

(** ** Finding an index or a constraint by name *)
Definition index_named (T : tables) (name : bytes) (ix : indexInfo) : Prop :=
  ii_name ix = name /\
  if ii_rel ix
  then exists v, relindex T (ii_labelID ix, ii_keyID ix) = Some v /\ name = rel_index_name T (ii_labelID ix) (ii_keyID ix) v
  else exists v, index T (ii_labelID ix, ii_keyID ix) = Some v /\ name = index_name T (ii_labelID ix) (ii_keyID ix) v.

(** Some index, of nodes or of relationships, is known by the name. *)
Definition name_taken (T : tables) (name : bytes) : Prop :=
  (exists l k v, index T (l, k) = Some v /\ name = index_name T l k v) \/
  (exists t k v, relindex T (t, k) = Some v /\ name = rel_index_name T t k v).

Lemma wp_findAnyIndex T name (Q : res (option indexInfo) -> tables -> Prop) :
  db_ok T ->
  (forall ix, index_named T name ix -> u32 (ii_labelID ix) -> u32 (ii_keyID ix) -> Q (Ok (Some ix)) T) ->
  (~ name_taken T name -> Q (Ok None) T) ->
  wp (findAnyIndex name) T Q.
Proof.
  intros [Hc _ [Hri _ Hrr]] HS HN. unfold findAnyIndex, listAllIndexes. apply wp_bind.
  apply wp_bind, wp_ListIndexes. intros defs Hdefs. cbn [on_ok].
  apply wp_bind, (wp_map_pure _ (fun d => mkIndexInfo (index_name T (ix_Label d) (ix_PropKey d) (ix_Name d))
    (name_of T DLabel (ix_Label d)) (name_of T DKey (ix_PropKey d)) false (ix_Label d) (ix_PropKey d))).
  { intros d Q' (l & k & v & Hl & Hk & Hv & ->)%Hdefs HQ'. destruct (Hri l k) as [? ?]; [by rewrite Hv|].
    apply wp_bind, wp_IndexName; [done|done|done|]. cbn [on_ok]. by apply wp_ret. }
  cbn [on_ok]. apply wp_bind, wp_ListRelIndexes. intros rdefs Hrdefs. cbn [on_ok].
  apply wp_bind, (wp_map_pure _ (fun d => mkIndexInfo (rel_index_name T (ri_Type d) (ri_PropKey d) (ri_Name d))
    (name_of T DType (ri_Type d)) (name_of T DKey (ri_PropKey d)) true (ri_Type d) (ri_PropKey d))).
  { intros d Q' (l & k & v & Hl & Hk & Hv & ->)%Hrdefs HQ'. destruct (Hrr l k) as [? ?]; [by rewrite Hv|].
    apply wp_bind, wp_RelIndexName; [done|done|done|]. cbn [on_ok]. by apply wp_ret. }
  cbn [on_ok]. apply wp_ret. cbn [on_ok]. apply wp_ret.
  match goal with |- context [List.find ?p ?l] => destruct (List.find p l) as [ix|] eqn:E end.
  - apply find_some in E as [Hin Hn]. apply bool_decide_eq_true in Hn. apply list_elem_of_In, elem_of_app in Hin.
    destruct Hin as [Hin|Hin]; apply list_elem_of_fmap in Hin as (d & -> & Hd); cbn in Hn.
    + apply Hdefs in Hd as (l & k & v & Hl & Hk & Hv & ->). apply HS; [|done|done]. split; [done|]. cbn in *. eauto.
    + apply Hrdefs in Hd as (l & k & v & Hl & Hk & Hv & ->). apply HS; [|done|done]. split; [done|]. cbn in *. eauto.
  - apply HN. pose proof (find_none _ _ E) as Hnone.
    intros [(l & k & v & Hv & Hn)|(l & k & v & Hv & Hn)].
    + destruct (Hri l k) as [Hl Hk]; [by rewrite Hv|].
      assert (mkIndexDef l k v ∈ defs) as Hd by (apply Hdefs; exists l, k, v; split_and!; try done; by eapply known_u32).
      set (ix := mkIndexInfo (index_name T l k v) (name_of T DLabel l) (name_of T DKey k) false l k).
      specialize (Hnone ix). rewrite bool_decide_eq_false in Hnone. apply Hnone; [|done]. apply list_elem_of_In, elem_of_app. left.
      apply list_elem_of_fmap. by exists (mkIndexDef l k v).
    + destruct (Hrr l k) as [Hl Hk]; [by rewrite Hv|].
      assert (mkRelIndexDef l k v ∈ rdefs) as Hd by (apply Hrdefs; exists l, k, v; split_and!; try done; by eapply known_u32).
      set (ix := mkIndexInfo (rel_index_name T l k v) (name_of T DType l) (name_of T DKey k) true l k).
      specialize (Hnone ix). rewrite bool_decide_eq_false in Hnone. apply Hnone; [|done]. apply list_elem_of_In, elem_of_app. right.
      apply list_elem_of_fmap. by exists (mkRelIndexDef l k v).
Qed.

Definition constraint_taken (T : tables) (name : bytes) (l k : Z) : Prop :=
  exists owns v, constr T (l, k) = Some (owns, v) /\ name = constraint_name T l k v.

Lemma wp_findConstraint T name (Q : res (option ConstraintDef) -> tables -> Prop) :
  db_ok T ->
  (forall d, constraint_taken T name (cd_Label d) (cd_PropKey d) -> u32 (cd_Label d) -> u32 (cd_PropKey d) -> Q (Ok (Some d)) T) ->
  ((forall l k, ~ constraint_taken T name l k) -> Q (Ok None) T) ->
  wp (findConstraint name) T Q.
Proof.
  intros [Hc _ [_ Hrc _]] HS HN. unfold findConstraint. apply wp_bind, wp_ListConstraints. intros defs Hdefs. cbn [on_ok].
  assert (forall l k, constraint_taken T name l k -> exists d, d ∈ defs /\ name = constraint_name T (cd_Label d) (cd_PropKey d) (cd_Name d)) as Hin.
  { intros l k (owns & v & Hv & Hn). exists (mkConstraintDef l k v owns). split; [|done]. apply Hdefs.
    destruct (Hrc l k) as [? ?]; [by rewrite Hv|]. exists l, k, owns, v. split_and!; try done; by eapply known_u32. }
  assert (forall d, d ∈ defs -> exists l k owns v, u32 l /\ u32 k /\ constr T (l, k) = Some (owns, v) /\ d = mkConstraintDef l k v owns) as Hd
    by (intros d; apply Hdefs).
  clear Hdefs. assert (~ (exists d, d ∈ defs /\ name = constraint_name T (cd_Label d) (cd_PropKey d) (cd_Name d)) -> Q (Ok None) T) as HN'.
  { intros Hno. apply HN. intros l k Ht. by apply Hno, (Hin l k). }
  clear HN Hin. induction defs as [|d defs IH]; cbn [find_constraint].
  - apply wp_ret, HN'. by intros (d & ?%elem_of_nil & _).
  - destruct (Hd d) as (l & k & owns & v & Hl & Hk & Hv & ->); [left|]. destruct (Hrc l k) as [? ?]; [by rewrite Hv|].
    apply wp_bind, wp_ConstraintName; [done|done|done|]. cbn [on_ok cd_Label cd_PropKey cd_Name].
    case_bool_decide as Hn.
    + apply wp_ret, HS; [|done|done]. by exists owns, v.
    + apply IH; [intros; apply Hd; by right|]. intros Hno. apply HN'. intros (d & [->|Hd']%elem_of_cons & E); [by subst|eauto].
Qed.

(** ** Preservation *)

(** An operation on the data keeps the schema well formed. *)
Lemma db_ok_frame T T' :
  db_ok T -> consistent T' -> index T' = index T -> constr T' = constr T -> relindex T' = relindex T -> format T' = format T ->
  (forall d name id, fwd T (d, name) = Some id -> fwd T' (d, name) = Some id) -> db_ok T'.
Proof.
  intros [Hc [F1 F2 F3] [R1 R2 R3]] Hc' Ei Ec Er Ef Hf.
  assert (forall d i, known T d i -> known T' d i) as Hk.
  { intros d i [nm Hn]. apply (cat_inverse _ (con_cat _ Hc)), Hf, (cat_inverse _ (con_cat _ Hc')) in Hn. by eexists. }
  split; [done| |]; split; rewrite ?Ei, ?Ec, ?Er, ?Ef; try done.
  - intros l k [? ?]%R1. auto.
  - intros l k [? ?]%R2. auto.
  - intros l k [? ?]%R3. auto.
Qed.

Lemma db_ok_grows T T' : db_ok T -> grows T T' -> db_ok T'.
Proof.
  intros Hdb Hg. pose proof (grows_data _ _ Hg) as (_ & _ & _ & _ & _ & _ & _ & _ & Ei & Ec & Er & Ef).
  apply (db_ok_frame T); try done; [|apply Hg]. eapply consistent_grows; [apply Hdb|done].
Qed.

Lemma name_of_grows T T' d i : cat_ok T -> grows T T' -> known T d i -> name_of T' d i = name_of T d i.
Proof.
  intros Hc Hg [nm Hn]. unfold name_of. rewrite Hn. apply (cat_inverse _ Hc), (grow_fwd _ _ Hg) in Hn.
  apply (cat_inverse _ (grow_cat _ _ Hg)) in Hn. by rewrite Hn.
Qed.

Lemma name_taken_grows T T' name : db_ok T -> grows T T' -> name_taken T' name <-> name_taken T name.
Proof.
  intros [Hc _ [R1 R2 R3]] Hg. pose proof (grows_data _ _ Hg) as (_ & _ & _ & _ & _ & _ & _ & _ & Ei & _ & Er & _).
  unfold name_taken, index_name, rel_index_name. rewrite Ei, Er.
  assert (forall d l, known T d l -> name_of T' d l = name_of T d l) as E by (intros; by apply name_of_grows; [apply Hc|..]).
  split; (intros [(l & k & v & Hv & Hn)|(l & k & v & Hv & Hn)]; [left|right]; exists l, k, v; (split; [done|]));
    [destruct (R1 l k) as [? ?]|destruct (R3 l k) as [? ?]|destruct (R1 l k) as [? ?]|destruct (R3 l k) as [? ?]];
    try (by rewrite Hv); rewrite ?E in * by done; done.
Qed.

Lemma constraint_taken_grows T T' name l k :
  db_ok T -> grows T T' -> constraint_taken T' name l k <-> constraint_taken T name l k.
Proof.
  intros [Hc _ [R1 R2 R3]] Hg. pose proof (grows_data _ _ Hg) as (_ & _ & _ & _ & _ & _ & _ & _ & _ & Ec & _).
  unfold constraint_taken, constraint_name. rewrite Ec.
  assert (forall d l, known T d l -> name_of T' d l = name_of T d l) as E by (intros; by apply name_of_grows; [apply Hc|..]).
  split; intros (o & v & Hv & Hn); exists o, v; (split; [done|]); destruct (R2 l k) as [? ?]; try (by rewrite Hv);
    rewrite ?E in * by done; done.
Qed.

(** Interning the two names of a schema statement. *)
Lemma wp_intern2 {A} d T label prop (f : Z -> Z -> prog A) (Q : res A -> tables -> Prop) :
  d <> DKey -> db_ok T ->
  (forall l k T', grows T T' -> db_ok T' -> fwd T' (d, label) = Some l -> fwd T' (DKey, prop) = Some k ->
     u32 l -> u32 k -> known T' d l -> known T' DKey k -> wp (f l k) T' Q) ->
  (no_room T d 1 \/ no_room T DKey 1 -> forall T', Q (Err ErrOutOfIDs) T') ->
  wp (l ← internDict (dict_tag d) (dict_kind d) label; k ← internDict (dict_tag DKey) (dict_kind DKey) prop; f l k) T Q.
Proof.
  intros Hd Hdb HQ HE. apply wp_bind. apply wp_internDict; [apply Hdb| |].
  2: { intros _ Hfull T'. apply HE. left. unfold no_room. lia. }
  intros l T1 (Hg1 & Hl & _ & Hu1). cbn [on_ok]. apply wp_bind. apply wp_internDict; [apply Hg1| |].
  2: { intros _ Hfull T'. apply HE. right. pose proof (used_other _ DKey _ _ _ Hu1 ltac:(congruence)). unfold no_room. lia. }
  intros k T2 (Hg2 & Hk & _). cbn [on_ok]. pose proof (grows_trans _ _ _ Hg1 Hg2) as Hg.
  pose proof (grow_fwd _ _ Hg2 _ _ _ Hl) as Hl2. pose proof (grow_cat _ _ Hg) as Hcat.
  apply HQ; try done; [by eapply db_ok_grows|by eapply cat_u32|by eapply cat_u32|by eapply known_fwd|by eapply known_fwd].
Qed.

Lemma wp_require_free_name T name (Q : res unit -> tables -> Prop) :
  db_ok T -> (name = [] \/ ~ name_taken T name -> Q (Ok tt) T) -> (name_taken T name -> Q (Err ErrIndexNamed) T) ->
  wp (require_free_name name) T Q.
Proof.
  intros Hdb HQ HE. unfold require_free_name. destruct name as [|b name]; [apply wp_ret; auto|].
  apply wp_bind, wp_findAnyIndex; [done| |].
  - intros ix [Hn Hix] _ _. cbn [on_ok]. apply wp_throw, HE. destruct (ii_rel ix).
    + right. destruct Hix as (v & ? & ?). eauto.
    + left. destruct Hix as (v & ? & ?). eauto.
  - intros Hno. cbn [on_ok]. apply wp_ret. auto.
Qed.

(** ** CREATE INDEX *)
Definition data_same (T T' : tables) : Prop := nodes T' = nodes T /\ edges T' = edges T.

Definition createIndex_post (T : tables) (name label prop : bytes) (r : res unit) (T' : tables) : Prop :=
  match r with
  | Ok _ => db_ok T' /\ data_same T T' /\ constr T' = constr T /\ relindex T' = relindex T /\
      exists l k, fwd T' (DLabel, label) = Some l /\ fwd T' (DKey, prop) = Some k /\
        match index T (l, k) with
        | Some v => index T' = index T /\ (name = [] \/ name = index_name T' l k v)
        | None => index T' = <[(l, k) := Some name]> (index T) /\ (name = [] \/ ~ name_taken T name)
        end
  | Err ErrOutOfIDs => no_room T DLabel 1 \/ no_room T DKey 1
  | Err ErrIndexExists => exists l k v, index T (l, k) = Some v /\ index_name T l k v <> name /\
      fwd T (DLabel, label) = Some l /\ fwd T (DKey, prop) = Some k
  | Err ErrIndexNamed => name <> [] /\ name_taken T name
  | Err _ => False
  end.

(** A known identifier keeps its name, so a name resolving to it did before. *)
Lemma fwd_grows_back T T' d name i :
  cat_ok T -> grows T T' -> known T d i -> fwd T' (d, name) = Some i -> fwd T (d, name) = Some i.
Proof.
  intros Hc Hg [nm Hnm] Hf. apply (cat_inverse _ Hc) in Hnm. pose proof (grow_fwd _ _ Hg _ _ _ Hnm) as Hf2.
  apply (cat_inverse _ (grow_cat _ _ Hg)) in Hf, Hf2. congruence.
Qed.

Lemma index_added_ok T l k name : db_ok T -> known T DLabel l -> known T DKey k -> db_ok (index_added l k name T).
Proof.
  intros [Hc [F1 F2 F3] [R1 R2 R3]] Hl Hk. split; [by apply index_added_consistent|by split|]. split; try done.
  intros l' k'. cbn. destruct (decide ((l', k') = (l, k))) as [[= -> ->]|E]; [done|].
  rewrite fn_lookup_insert_ne by congruence. apply R1.
Qed.

Lemma wp_createIndex T name label prop :
  db_ok T -> wp (createIndex name label prop) T (createIndex_post T name label prop).
Proof.
  intros Hdb. unfold createIndex, InternLabel, InternKey. apply (wp_intern2 DLabel); [done|done| |done].
  intros l k T1 Hg Hdb1 Hl Hk Hlu Hku Hlk Hkk.
  pose proof (grows_data _ _ Hg) as (En & Ee & _ & _ & _ & _ & _ & _ & Ei & Ec & Er & Ef).
  pose proof (db_con _ Hdb) as Hc.
  apply wp_bind, wp_HasIndex; [done|done|]. cbn [on_ok]. destruct (index T1 (l, k)) as [v|] eqn:Ex; cbn [has].
  - assert (known T DLabel l /\ known T DKey k) as [Hlk0 Hkk0] by (apply Hdb; by rewrite <- Ei, Ex).
    assert (name = [] \/ name = index_name T1 l k v -> createIndex_post T name label prop (Ok tt) T1) as Hdone.
    { intros Hn. cbn. split_and!; try done; try congruence. exists l, k. rewrite <- Ei, Ex. done. }
    destruct name as [|b name]; [apply wp_ret; auto|]. set (nm := b :: name) in *.
    apply wp_bind. unfold GetIndex. change (indexKey l k) with (key_of (KIndex l k)).
    apply wp_bind, wp_Get; [done|]. intros o Ho. cbn in Ho. rewrite Ex in Ho. subst o. cbn [on_ok]. apply wp_ret. cbn [on_ok from_option id].
    apply wp_bind, wp_IndexName; [apply Hdb1|done|done|]. cbn [on_ok ix_Label ix_PropKey ix_Name].
    case_bool_decide as Hn; [apply wp_ret, Hdone; auto|]. apply wp_throw. cbn. exists l, k, v.
    split_and!; [congruence| |by eapply fwd_grows_back; [apply Hc|..]|by eapply fwd_grows_back; [apply Hc|..]].
    intros E. apply Hn. rewrite <- E. unfold index_name. rewrite !(name_of_grows T T1); try done; apply Hc.
  - apply wp_bind, wp_require_free_name; [done| |].
    + intros Hfree. cbn [on_ok]. apply wp_BuildIndex; [apply Hdb1|done|done|]. cbn.
      split; [by apply index_added_ok|]. split_and!; try done. exists l, k. rewrite <- Ei, Ex.
      split_and!; try done. rewrite (name_taken_grows T T1) in Hfree by done. done.
    + intros Ht. cbn. destruct name; [|by rewrite (name_taken_grows T T1) in Ht].
      exfalso. destruct Ht as [(l' & k' & v & _ & E)|(l' & k' & v & _ & E)];
        unfold index_name, rel_index_name, default_name in E; destruct v; done.
Qed.

(** CREATE INDEX on a relationship type. *)
Definition createRelIndex_post (T : tables) (name typ prop : bytes) (r : res unit) (T' : tables) : Prop :=
  match r with
  | Ok _ => db_ok T' /\ data_same T T' /\ constr T' = constr T /\ index T' = index T /\
      exists t k, fwd T' (DType, typ) = Some t /\ fwd T' (DKey, prop) = Some k /\
        match relindex T (t, k) with
        | Some v => relindex T' = relindex T /\ (name = [] \/ name = rel_index_name T' t k v)
        | None => relindex T' = <[(t, k) := Some name]> (relindex T) /\ (name = [] \/ ~ name_taken T name)
        end
  | Err ErrOutOfIDs => no_room T DType 1 \/ no_room T DKey 1
  | Err ErrIndexExists => exists t k v, relindex T (t, k) = Some v /\ rel_index_name T t k v <> name /\
      fwd T (DType, typ) = Some t /\ fwd T (DKey, prop) = Some k
  | Err ErrIndexNamed => name_taken T name
  | Err _ => False
  end.

Lemma relindex_added_ok T t k name :
  db_ok T -> known T DType t -> known T DKey k -> db_ok (relindex_added t k name (raise_format formatRelIndex T)).
Proof.
  intros [Hc Hf [R1 R2 R3]] Ht Hk. destruct (raise_format_same formatRelIndex T) as (_ & _ & Ex & Ec & Er & _ & Erev).
  split; [by apply relindex_consistent, raise_format_consistent|by apply relindex_added_format|].
  unfold known in *. split; cbn; rewrite ?Ex, ?Ec, ?Er; unfold known; cbn; rewrite ?Erev; try done.
  intros t' k'. destruct (decide ((t', k') = (t, k))) as [[= -> ->]|E]; [done|].
  rewrite fn_lookup_insert_ne by congruence. apply R3.
Qed.

Lemma wp_createRelIndex T name typ prop :
  db_ok T -> wp (createRelIndex name typ prop) T (createRelIndex_post T name typ prop).
Proof.
  intros Hdb. unfold createRelIndex, InternType, InternKey. apply (wp_intern2 DType); [done|done| |done].
  intros t k T1 Hg Hdb1 Ht Hk Htu Hku Htk Hkk.
  pose proof (grows_data _ _ Hg) as (En & Ee & _ & _ & _ & _ & _ & _ & Ei & Ec & Er & Ef).
  pose proof (db_con _ Hdb) as Hc.
  apply wp_bind. unfold GetRelIndex. change (relIndexKey t k) with (key_of (KRelIndex t k)).
  apply wp_bind, wp_Get; [done|]. intros o Ho. cbn in Ho. cbn [on_ok]. apply wp_ret. cbn [on_ok].
  destruct (relindex T1 (t, k)) as [v|] eqn:Ex; subst o.
  - assert (known T DType t /\ known T DKey k) as [Htk0 Hkk0] by (apply Hdb; by rewrite <- Er, Ex).
    assert (name = [] \/ name = rel_index_name T1 t k v -> createRelIndex_post T name typ prop (Ok tt) T1) as Hdone.
    { intros Hn. cbn. split_and!; try done; try congruence. exists t, k. rewrite <- Er, Ex. done. }
    apply wp_bind, wp_RelIndexName; [apply Hdb1|done|done|]. cbn [on_ok ri_Type ri_PropKey ri_Name].
    destruct name as [|b name]; [apply wp_ret; auto|]. set (nm := b :: name) in *.
    case_bool_decide as Hn; [apply wp_ret, Hdone; auto|]. apply wp_throw. cbn. exists t, k, v.
    split_and!; [congruence| |by eapply fwd_grows_back; [apply Hc|..]|by eapply fwd_grows_back; [apply Hc|..]].
    intros E. apply Hn. rewrite <- E. unfold rel_index_name. rewrite !(name_of_grows T T1); try done; apply Hc.
  - apply wp_bind, wp_require_free_name; [done| |].
    + intros Hfree. cbn [on_ok]. apply wp_BuildRelIndex; [apply Hdb1|apply Hdb1|done|done|].
      destruct (raise_format_same formatRelIndex T1) as (Rn & Re & Rx & Rc & Rr & Rf & _).
      split; [by apply relindex_added_ok|]. split; [split; cbn; congruence|]. cbn. split_and!; [congruence|congruence|].
      exists t, k. rewrite <- Er, Ex. rewrite (name_taken_grows T T1) in Hfree by done. by rewrite Rr, Rf.
    + intros Hn. cbn. by rewrite (name_taken_grows T T1) in Hn.
Qed.

(** ** DROP INDEX *)
Definition dropIndex_post (T : tables) (name : bytes) (ifExists : bool) (r : res unit) (T' : tables) : Prop :=
  match r with
  | Ok _ => db_ok T' /\ data_same T T' /\ constr T' = constr T /\
      ((T' = T /\ ifExists = true /\ ~ name_taken T name) \/
       (exists l k v, index T (l, k) = Some v /\ name = index_name T l k v /\ constr T (l, k) = None /\
          T' = index_dropped l k T) \/
       (exists t k v, relindex T (t, k) = Some v /\ name = rel_index_name T t k v /\ T' = relindex_dropped t k T))
  | Err ErrNoIndex => ifExists = false /\ ~ name_taken T name
  | Err ErrBacksConstraint => exists l k v, index T (l, k) = Some v /\ name = index_name T l k v /\ is_Some (constr T (l, k))
  | Err _ => False
  end.

Lemma index_dropped_ok T l k : db_ok T -> constr T (l, k) = None -> db_ok (index_dropped l k T).
Proof.
  intros [Hc [F1 F2 F3] [R1 R2 R3]] Hno. split; [by apply index_dropped_consistent|by split|]. split; try done.
  intros l' k'. cbn. destruct (decide ((l', k') = (l, k))) as [[= -> ->]|E]; [rewrite fn_lookup_insert; by intros [? ?]|].
  rewrite fn_lookup_insert_ne by congruence. apply R1.
Qed.

Lemma relindex_dropped_ok T t k : db_ok T -> db_ok (relindex_dropped t k T).
Proof.
  intros [Hc [F1 F2 F3] [R1 R2 R3]].
  assert (forall t' k', is_Some (relindex (relindex_dropped t k T) (t', k')) -> is_Some (relindex T (t', k'))) as Hr.
  { intros t' k'. cbn. destruct (decide ((t', k') = (t, k))) as [[= -> ->]|E]; [rewrite fn_lookup_insert; by intros [? ?]|].
    by rewrite fn_lookup_insert_ne by congruence. }
  split; [by apply relindex_consistent| |]; split; try done.
  - intros t' k' Hs. by eapply F3, Hr.
  - intros t' k' Hs. by apply R3, Hr.
Qed.

Lemma wp_dropIndex T name ifExists : db_ok T -> wp (dropIndex name ifExists) T (dropIndex_post T name ifExists).
Proof.
  intros Hdb. unfold dropIndex. apply wp_bind, wp_findAnyIndex; [done| |].
  - intros ix [Hn Hix] Hl Hk. cbn [on_ok]. destruct (ii_rel ix).
    + destruct Hix as (v & Hv & E). apply wp_DropRelIndexEntries; [done|done|]. cbn.
      split_and!; try done; [by apply relindex_dropped_ok|]. right. right. eauto 8.
    + destruct Hix as (v & Hv & E). apply wp_bind, wp_GetConstraint; [done|done|]. cbn [on_ok].
      destruct (constr T (ii_labelID ix, ii_keyID ix)) as [[o w]|] eqn:Ec; cbn [fmap option_fmap option_map].
      * destruct (ro_constr _ (db_registry _ Hdb) (ii_labelID ix) (ii_keyID ix)) as [? ?]; [by rewrite Ec|].
        apply wp_bind, wp_ConstraintName; [apply Hdb|done|done|]. cbn [on_ok]. apply wp_throw. cbn.
        exists (ii_labelID ix), (ii_keyID ix), v. by rewrite Ec.
      * apply wp_DropIndexEntries; [done|done|]. cbn. split_and!; try done; [by apply index_dropped_ok|].
        right. left. eauto 8.
  - intros Hno. cbn [on_ok]. destruct ifExists; [apply wp_ret|by apply wp_throw].
    cbn. split_and!; try done. by left.
Qed.

(** ** CREATE CONSTRAINT *)
Definition createConstraint_post (T : tables) (name label prop : bytes) (r : res unit) (T' : tables) : Prop :=
  match r with
  | Ok _ => db_ok T' /\ data_same T T' /\ relindex T' = relindex T /\
      exists l k, fwd T' (DLabel, label) = Some l /\ fwd T' (DKey, prop) = Some k /\ ~ duplicate T l k /\
        match constr T (l, k) with
        | Some (_, v) => constr T' = constr T /\ index T' = index T /\ (name = [] \/ name = constraint_name T' l k v)
        | None => constr T' = <[(l, k) := Some (negb (has (index T (l, k))), name)]> (constr T) /\
                  index T' = (if has (index T (l, k)) then index T else <[(l, k) := Some []]> (index T)) /\
                  (name = [] \/ forall l' k', ~ constraint_taken T name l' k')
        end
  | Err ErrOutOfIDs => no_room T DLabel 1 \/ no_room T DKey 1
  | Err ErrConstraintExists => exists l k o v, constr T (l, k) = Some (o, v) /\ constraint_name T l k v <> name /\
      fwd T (DLabel, label) = Some l /\ fwd T (DKey, prop) = Some k
  | Err ErrConstraintNamed => exists l k, constraint_taken T name l k
  | Err ErrConstraintViolation => exists l k, fwd T (DLabel, label) = Some l /\ fwd T (DKey, prop) = Some k /\ duplicate T l k
  | Err _ => False
  end.

Lemma duplicate_known T l k : consistent T -> duplicate T l k -> known T DLabel l /\ known T DKey k.
Proof.
  intros Hc (n1 & _ & v & _ & _ & _ & (r & Hr & Hl & Hk & _)%entry_of_Some & _).
  destruct (con_node _ Hc n1 r Hr) as (_ & _ & HL & HK). split; [by apply (Forall_elem _ _ _ HL)|apply HK; by rewrite Hk].
Qed.

Lemma wp_constraint_name_free T name (Q : res unit -> tables -> Prop) :
  db_ok T -> (name = [] \/ (forall l k, ~ constraint_taken T name l k) -> Q (Ok tt) T) ->
  (forall l k, constraint_taken T name l k -> Q (Err ErrConstraintNamed) T) ->
  wp (match name with
      | [] => mret tt
      | _ => found ← findConstraint name;
             match found with Some _ => throw ErrConstraintNamed | None => mret tt end
      end) T Q.
Proof.
  intros Hdb HQ HE. destruct name as [|b name]; [apply wp_ret; auto|]. apply wp_bind, wp_findConstraint; [done| |].
  - intros d Ht _ _. cbn [on_ok]. by eapply wp_throw, HE.
  - intros Hno. cbn [on_ok]. apply wp_ret. auto.
Qed.

(** The part of [AddUniqueConstraint] a schema statement relies on. *)
Lemma constraint_added_ok T l k name T' :
  db_ok T -> known T DLabel l -> known T DKey k -> AddUniqueConstraint_post T l k name (Ok tt) T' -> db_ok T'.
Proof.
  intros [Hc Hf [R1 R2 R3]] Hl Hk (Hc' & Hf' & _ & _ & Erel & _ & Er & Ec & Ex & _). split; [done|done|].
  unfold known in *. split; unfold known; rewrite Er.
  - intros l' k'. rewrite Ex. destruct (has (index T (l, k))); [apply R1|].
    destruct (decide ((l', k') = (l, k))) as [[= -> ->]|E]; [done|]. rewrite fn_lookup_insert_ne by congruence. apply R1.
  - intros l' k'. rewrite Ec. destruct (decide ((l', k') = (l, k))) as [[= -> ->]|E]; [done|].
    rewrite fn_lookup_insert_ne by congruence. apply R2.
  - rewrite Erel. apply R3.
Qed.

Lemma wp_createConstraint T name label prop :
  db_ok T -> wp (createConstraint name label prop) T (createConstraint_post T name label prop).
Proof.
  intros Hdb. unfold createConstraint, InternLabel, InternKey. apply (wp_intern2 DLabel); [done|done| |done].
  intros l k T1 Hg Hdb1 Hl Hk Hlu Hku Hlk Hkk.
  pose proof (grows_data _ _ Hg) as (En & Ee & _ & _ & _ & _ & _ & _ & Ei & Ec & Er & Ef).
  pose proof (db_con _ Hdb) as Hc. assert (duplicate T1 l k <-> duplicate T l k) as Hdup by (unfold duplicate; by rewrite En).
  apply wp_bind, wp_GetConstraint; [done|done|]. cbn [on_ok].
  destruct (constr T1 (l, k)) as [[o v]|] eqn:Ex; cbn [fmap option_fmap option_map].
  - assert (known T DLabel l /\ known T DKey k) as [Hlk0 Hkk0] by (apply (ro_constr _ (db_registry _ Hdb)); by rewrite <- Ec, Ex).
    assert (name = [] \/ name = constraint_name T1 l k v -> createConstraint_post T name label prop (Ok tt) T1) as Hdone.
    { intros Hn. cbn. split_and!; try done; try congruence. exists l, k. rewrite <- Ec, Ex. split_and!; try done.
      rewrite <- Hdup. apply consistent_no_duplicate; [apply Hdb1|by rewrite Ex]. }
    apply wp_bind, wp_ConstraintName; [apply Hdb1|done|done|]. cbn [on_ok cd_Label cd_PropKey cd_Name fst snd].
    destruct name as [|b name]; [apply wp_ret; auto|]. set (nm := b :: name) in *.
    case_bool_decide as Hn; [apply wp_ret, Hdone; auto|]. apply wp_throw. cbn. exists l, k, o, v.
    split_and!; [congruence| |by eapply fwd_grows_back; [apply Hc|..]|by eapply fwd_grows_back; [apply Hc|..]].
    intros E. apply Hn. rewrite <- E. unfold constraint_name. rewrite !(name_of_grows T T1); try done; apply Hc.
  - apply wp_bind, wp_constraint_name_free; [done| |].
    + intros Hfree. cbn [on_ok]. eapply wp_mono; [apply wp_AddUniqueConstraint; [apply Hdb1|apply Hdb1|done|done]|].
      intros r T' Hpost. destruct r as [[]|e].
      * pose proof (constraint_added_ok _ _ _ _ _ Hdb1 Hlk Hkk Hpost) as Hdb'.
        destruct Hpost as (_ & _ & En' & Ee' & Er' & Ef' & _ & Ec' & Ex' & Hnd). rewrite ?Ec, ?Ei in Ec', Ex'. rewrite Ec in Ex. cbn. split; [done|].
        split; [split; congruence|]. split; [congruence|]. exists l, k. rewrite Ef', Ex. rewrite <- Hdup.
        split_and!; try done; [congruence|]. destruct Hfree as [?|Hfree]; [by left|right]. intros l' k'. rewrite <- (constraint_taken_grows T T1) by done. auto.
      * destruct Hpost as [-> Hd]. cbn. apply Hdup in Hd. destruct (duplicate_known _ _ _ Hc Hd) as [? ?].
        exists l, k. split_and!; try done; by eapply fwd_grows_back; [apply Hc|..].
    + intros l' k' Ht. cbn. exists l', k'. by rewrite (constraint_taken_grows T T1) in Ht.
Qed.

(** ** DROP CONSTRAINT *)
Definition dropConstraint_post (T : tables) (name : bytes) (ifExists : bool) (r : res unit) (T' : tables) : Prop :=
  match r with
  | Ok _ => db_ok T' /\ data_same T T' /\ relindex T' = relindex T /\
      ((T' = T /\ ifExists = true /\ forall l k, ~ constraint_taken T name l k) \/
       (exists l k, constraint_taken T name l k /\ constr T' = <[(l, k) := None]> (constr T) /\ T' = constraint_removed l k T))
  | Err ErrNoConstraint => ifExists = false /\ forall l k, ~ constraint_taken T name l k
  | Err _ => False
  end.

Lemma constraint_dropped_ok T l k : db_ok T -> db_ok (constraint_dropped l k T).
Proof.
  intros [Hc [F1 F2 F3] [R1 R2 R3]].
  assert (forall l' k', is_Some (constr (constraint_dropped l k T) (l', k')) -> is_Some (constr T (l', k'))) as Hr.
  { intros l' k'. cbn. destruct (decide ((l', k') = (l, k))) as [[= -> ->]|E]; [rewrite fn_lookup_insert; by intros [? ?]|].
    by rewrite fn_lookup_insert_ne by congruence. }
  split; [by apply constraint_dropped_consistent| |]; split; try done.
  - intros l' k' Hs. by eapply F2, Hr.
  - intros l' k' Hs. by apply R2, Hr.
Qed.

Lemma wp_dropConstraint T name ifExists : db_ok T -> wp (dropConstraint name ifExists) T (dropConstraint_post T name ifExists).
Proof.
  intros Hdb. unfold dropConstraint. apply wp_bind, wp_findConstraint; [done| |].
  - intros d Ht Hl Hk. cbn [on_ok]. apply wp_DropUniqueConstraint; [done|done|]. pose proof Ht as (o & v & Ec & _).
    assert (db_ok (constraint_removed (cd_Label d) (cd_PropKey d) T)) as Hdb'.
    { unfold constraint_removed. rewrite Ec. pose proof (constraint_dropped_ok T (cd_Label d) (cd_PropKey d) Hdb).
      destruct o; [|done]. apply index_dropped_ok; [done|]. cbn. by rewrite fn_lookup_insert. }
    split; [done|]. assert (data_same T (constraint_removed (cd_Label d) (cd_PropKey d) T) /\
      relindex (constraint_removed (cd_Label d) (cd_PropKey d) T) = relindex T /\
      constr (constraint_removed (cd_Label d) (cd_PropKey d) T) = <[(cd_Label d, cd_PropKey d) := None]> (constr T)) as (? & ? & ?).
    { unfold constraint_removed. rewrite Ec. by destruct o. }
    split_and!; try done. right. eauto.
  - intros Hno. cbn [on_ok]. destruct ifExists; [apply wp_ret|by apply wp_throw]. cbn. split_and!; try done. by left.
Qed.
