(* ===== verification/Operators.v ===== *)
(** * Operators: the query executor

    src/internal/exec/exec.go, outer.go, union.go, unwind.go, and the operators
    of expand.go, relseek.go, shortest.go, aggregate.go, write.go and
    constraint.go.  [op] has a constructor per operator type, holding its
    configuration and its mutable fields; [next] is the method of the interface:
    it returns the row (or [None] at the end) and the operator afterwards.
    [buildWith] constructs the operators of a plan; [Run] drains them.

    A [for] loop of the source that polls, reads its input and starts again is
    a call of [next] on the operator as it then is, so one fuel bounds all
    loops and the depth of the tree.  The local variables of [load] loops are
    fields here.  Closing cursors releases memory and is not modelled.  The
    planner puts a single [Argument] leaf below each Apply, so the source's
    sharing of one argumentOp between the leaves of a plan makes no difference
    here, where each leaf has its own. *)
From S2P Require Import Prelude Float64 FloatArith Values Ast Plan Scalars Text Keys Records Storage Catalog Graph Context Functions Eval Shortest Aggregate Expand Write StableSort RangeScan Tables GraphInv Ddl.
Import Ast Scalars Text Context Functions Eval Shortest Aggregate Expand Write StableSort.

Module Operators.
Section operators.
Context `{Runtime, MapOrder}.

(** ** Operators *)
Inductive op : Type :=
| unit_ (done : bool)
| nodeScan (variable : bytes) (cursor : option RangeScan.NodeCursor) (ids : list Z) (pos : nat)
| argumentOp (row : binding) (done : bool)
| relSeek (rel from to_ : bytes) (dir : Direction) (ids : list Z) (pos : nat) (rows : list binding)
| expand (input : op) (from rel to_ : bytes) (dir : Direction) (toBound anyType : bool) (typeIDs : list Z)
    (toUnused relUnused : bool) (cur : binding) (pending : list edgeHit) (pidx : nat)
| varExpand (input : op) (from rel to_ : bytes) (dir : Direction) (anyType : bool) (typeIDs : list Z) (toBound : bool)
    (minHops maxHops : Z) (cur : binding) (pending : list varHit) (pidx : nat)
| shortestPathOp (input : op) (from to_ pathVar relVar : bytes) (spec : PathSpec)
    (cur : binding) (pending : list Path) (pidx : nat)
| filter_ (input : op) (pred : Expr)
| project (input : op) (items : list ProjItem) (distinct : bool) (seen : gset (list Z))
| sortOp (input : op) (keys : list SortKey) (rows : list binding) (pos : nat) (loaded : bool)
| skip (input : op) (n : Z) (i : Z) (skipped : bool)
| limit (input : op) (n count : Z)
| cartesian (left_ right_ : op) (rightRows : list binding) (loaded : bool) (curLeft : binding) (haveLeft : bool) (ri : nat)
| unwindOp (input : op) (expr : Expr) (alias : bytes) (cur : binding) (pending : list value) (pidx : nat)
| unionOp (parts : list op) (columns : list bytes) (dedup : bool) (idx : nat) (seen : gset (list Z))
| outerApplyOp (outer : op) (innerPlan : Plan.Op) (newVars : list bytes) (inner : bool)
    (curOuter : binding) (curInner : option op) (rowsEmitted : nat) (pendingEmpty : bool)
| aggregateOp (input : op) (groupKeys aggs : list ProjItem) (loaded : bool) (gs : option groups) (out : list binding) (pos : nat)
| createOp (input : op) (parts : list PatternPart)
| setOp (input : op) (items : list SetClause)
| removeOp (input : op) (items : list RemoveClause)
| deleteOp (input : op) (exprs : list Expr) (detach : bool)
| mergeOp (input : op) (part : PatternPart) (onCreate onMatch : list SetClause) (out : list binding) (pos : nat)
| createIndexOp (name label prop : bytes) (rel done : bool)
| dropIndexOp (name : bytes) (ifExists done : bool)
| showIndexesOp (rows : list binding) (pos : nat) (done : bool)
| createConstraintOp (name label prop : bytes) (done : bool)
| dropConstraintOp (name : bytes) (ifExists done : bool)
| showConstraintsOp (rows : list binding) (pos : nat) (done : bool).

(** What [next] returns: a row or the end, and the operator afterwards. *)
Definition step : Type := option binding * op.

(** ** Building *)
Definition evalCount (e : Expr) : M Z :=
  v ← eval e ∅;
  match normalize v with VInt n => mret n | _ => fail ErrType end.

Definition nodesWithEqualProperty (labelID keyID : Z) (v : value) : prog (list Z) :=
  ids ← NodesByLabel labelID;
  hits ← map_prog (fun id =>
    node ← GetNode id;
    mret (match Props (n_rec node) !! keyID with Some w => if equals w v then [id] else [] | None => [] end)) ids;
  mret (concat hits).

Definition propertyScanIDs (label key : bytes) (valueExpr : Expr) (row : binding) : M (list Z) :=
  ol ← txn (LookupLabel label);
  match ol with
  | None => mret []
  | Some labelID =>
      ok ← txn (LookupKey key);
      match ok with
      | None => mret []
      | Some keyID =>
          v ← eval valueExpr row;
          match normalize v with
          | VNull => mret []
          | v => txn (if IsIndexable v then NodesByProperty labelID keyID v else nodesWithEqualProperty labelID keyID v)
          end
      end
  end.

Definition eval_opt (e : option Expr) (row : binding) : M (option value) :=
  match e with None => mret None | Some e => v ← eval e row; mret (Some v) end.

(** The range of the evaluated bounds. *)
Definition range_of (p lo up : option value) (lowerInc upperInc : bool) : RangeScan.PropRange :=
  let has (o : option value) := match o with Some _ => true | None => false end in
  RangeScan.mkPropRange (default VNull lo) (default VNull up) (has lo) (has up) (has lo && lowerInc) (has up && upperInc)
    (match p with Some (VStr s) => s | _ => [] end) (has p).

Definition propertyRangeScan (var label key : bytes) (lower upper : option Expr) (lowerInc upperInc : bool)
    (prefix : option Expr) (row : binding) : M op :=
  let empty_ := nodeScan var None [] 0 in
  ol ← txn (LookupLabel label);
  match ol with
  | None => mret empty_
  | Some labelID =>
      ok ← txn (LookupKey key);
      match ok with
      | None => mret empty_
      | Some keyID =>
          p ← eval_opt prefix row;
          match p with
          | Some (VStr _) | None =>
              lo ← eval_opt lower row;
              up ← eval_opt upper row;
              cur ← txn (RangeScan.ScanPropertyRange labelID keyID (range_of p lo up lowerInc upperInc));
              mret (match cur with None => empty_ | Some c => nodeScan var (Some c) [] 0 end)
          | Some _ => mret empty_
          end
      end
  end.

(** The relationships of the type whose property equals [v]: the callback of
    [buildRelSeek] appends to [s.ids]. *)
Definition edges_equal (typeID keyID : Z) (v : value) : prog (list Z) :=
  l ← Scan EdgePrefix;
  edges ← map_prog (fun e => lift (edge_of_type typeID e)) l;
  mret (concat ((fun e => match EProps (e_rec e) !! keyID with
                          | Some w => if equals w v then [e_ID e] else []
                          | None => []
                          end) <$> concat edges)).

Definition buildRelSeek (rel from to_ : bytes) (dir : Direction) (typ key : bytes) (valueExpr : Expr) (row : binding) : M op :=
  let seek ids := relSeek rel from to_ dir ids 0 [] in
  ot ← txn (LookupType typ);
  match ot with
  | None => mret (seek [])
  | Some typeID =>
      ok ← txn (LookupKey key);
      match ok with
      | None => mret (seek [])
      | Some keyID =>
          v ← eval valueExpr row;
          match normalize v with
          | VNull => mret (seek [])
          | v => ids ← txn (if IsIndexable v then EdgesByProperty typeID keyID v else edges_equal typeID keyID v);
                 mret (seek ids)
          end
      end
  end.
(** Expands and shortest paths, over an input already built. *)
Definition any_type (types : list bytes) : bool := match types with [] => true | _ => false end.

Definition buildExpandWith (in_ : op) (from rel to_ : bytes) (types : list bytes) (dir : Direction)
    (toBound toUnused relUnused : bool) : M op :=
  typeIDs ← txn (resolve_types types);
  mret (expand in_ from rel to_ dir toBound (any_type types) typeIDs toUnused relUnused ∅ [] 0).

Definition buildVarExpandWith (in_ : op) (from rel to_ : bytes) (types : list bytes) (dir : Direction)
    (minHops maxHops : Z) (toBound : bool) : M op :=
  typeIDs ← txn (resolve_types types);
  mret (varExpand in_ from rel to_ dir (any_type types) typeIDs toBound minHops maxHops ∅ [] 0).

Definition buildShortestPath (in_ : op) (from to_ pathVar relVar : bytes) (types : list bytes) (dir : Direction)
    (minHops maxHops : Z) (all : bool) : M op :=
  ids ← (if any_type types then mret None else l ← txn (resolve_types types); mret (Some l));
  mret (shortestPathOp in_ from to_ pathVar relVar (path_spec ids dir minHops maxHops all) ∅ [] 0).

(** [buildWith] and [buildChildren]; [arg] is the row of the enclosing Apply. *)
Fixpoint buildWith (p : Plan.Op) (arg : option binding) : M op :=
  let row := default ∅ arg in
  match p with
  | Plan.Argument => match arg with Some row => mret (argumentOp row false) | None => fail ErrArgument end
  | Plan.Nothing => mret (unit_ false)
  | Plan.AllNodesScan v => cur ← txn RangeScan.ScanAllNodes; mret (nodeScan v (Some cur) [] 0)
  | Plan.NodeByLabelScan v label =>
      o ← txn (LookupLabel label);
      match o with
      | None => mret (nodeScan v None [] 0)
      | Some id => cur ← txn (RangeScan.ScanLabel id); mret (nodeScan v (Some cur) [] 0)
      end
  | Plan.NodeByPropertyRange v label key lo up li ui pre => propertyRangeScan v label key lo up li ui pre row
  | Plan.NodeByProperty v label key e => ids ← propertyScanIDs label key e row; mret (nodeScan v None ids 0)
  | Plan.RelByProperty rel from to_ dir typ key e => buildRelSeek rel from to_ dir typ key e row
  | Plan.Expand input from rel to_ types dir varLength minHops maxHops toBound toUnused relUnused =>
      in_ ← buildWith input arg;
      if (varLength : bool) then buildVarExpandWith in_ from rel to_ types dir minHops maxHops toBound
      else buildExpandWith in_ from rel to_ types dir toBound toUnused relUnused
  | Plan.ShortestPath input from to_ pathVar relVar types dir minHops maxHops all =>
      in_ ← buildWith input arg;
      buildShortestPath in_ from to_ pathVar relVar types dir minHops maxHops all
  | Plan.Filter input pred => in_ ← buildWith input arg; mret (filter_ in_ pred)
  | Plan.Project input items distinct => in_ ← buildWith input arg; mret (project in_ items distinct ∅)
  | Plan.Sort input keys => in_ ← buildWith input arg; mret (sortOp in_ keys [] 0 false)
  | Plan.Skip input count => in_ ← buildWith input arg; n ← evalCount count; mret (skip in_ n 0 false)
  | Plan.Limit input count => in_ ← buildWith input arg; n ← evalCount count; mret (limit in_ n 0)
  | Plan.CartesianProduct l r =>
      left_ ← buildWith l arg; right_ ← buildWith r arg; mret (cartesian left_ right_ [] false ∅ false 0)
  | Plan.Aggregate input groupKeys aggs _ => in_ ← buildWith input arg; mret (aggregateOp in_ groupKeys aggs false None [] 0)
  | Plan.Create input parts => in_ ← buildWith input arg; mret (createOp in_ parts)
  | Plan.Merge input part onCreate onMatch => in_ ← buildWith input arg; mret (mergeOp in_ part onCreate onMatch [] 0)
  | Plan.SetItems input items => in_ ← buildWith input arg; mret (setOp in_ items)
  | Plan.Remove input items => in_ ← buildWith input arg; mret (removeOp in_ items)
  | Plan.Unwind input e alias => in_ ← buildWith input arg; mret (unwindOp in_ e alias ∅ [] 0)
  | Plan.Delete input exprs detach => in_ ← buildWith input arg; mret (deleteOp in_ exprs detach)
  | Plan.CreateIndex name label prop rel => mret (createIndexOp name label prop rel false)
  | Plan.DropIndex name ifExists => mret (dropIndexOp name ifExists false)
  | Plan.ShowIndexes => mret (showIndexesOp [] 0 false)
  | Plan.CreateConstraint name label prop => mret (createConstraintOp name label prop false)
  | Plan.DropConstraint name ifExists => mret (dropConstraintOp name ifExists false)
  | Plan.ShowConstraints => mret (showConstraintsOp [] 0 false)
  | Plan.Apply outer inner => out ← buildWith outer arg; mret (outerApplyOp out inner [] true ∅ None 0 false)
  | Plan.OuterApply outer inner newVars => out ← buildWith outer arg; mret (outerApplyOp out inner newVars false ∅ None 0 false)
  | Plan.Union parts columns all =>
      ops ← mapM (fun p => buildWith p arg) parts; mret (unionOp ops columns (negb all) 0 ∅)
  end.
(** ** The methods next

    [next_] is [next] with less fuel: the inputs' method, and the operator's
    own when a loop starts again. *)
Section methods.
Variable next_ : op -> M step.
Variable fuel : nat.

(** [rows[pos]] of an operator that has its rows, or the end. *)
Definition emit (rows : list binding) (pos : nat) (o : nat -> op) : M step :=
  match rows !! pos with
  | None => mret (None, o pos)
  | Some r => mret (Some r, o (S pos))
  end.

(** [b, ok, err := input.next(); if err != nil || !ok { return nil, ok, err }]. *)
Definition pull (input : op) (o : op -> op) (f : binding -> op -> M step) : M step :=
  '(r, input) ← next_ input;
  match r with None => mret (None, o input) | Some b => f b input end.

Definition unit_next (done : bool) : M step :=
  if done then mret (None, unit_ true) else mret (Some ∅, unit_ true).

Definition argument_next (row : binding) (done : bool) : M step :=
  if done then mret (None, argumentOp row true) else mret (Some row, argumentOp row true).

Definition nodeScan_next (variable : bytes) (cursor : option RangeScan.NodeCursor) (ids : list Z) (pos : nat) : M step :=
  check ≫= fun _ =>
  match cursor with
  | Some cur =>
      '(o, cur) ← txn (RangeScan.Next cur);
      mret ((fun node => {[ variable := node_value node ]}) <$> o, nodeScan variable (Some cur) ids pos)
  | None =>
      match ids !! pos with
      | None => mret (None, nodeScan variable None ids pos)
      | Some id => node ← txn (GetNode id); mret (Some {[ variable := node_value node ]}, nodeScan variable None ids (S pos))
      end
  end.

Definition relSeek_next (rel from to_ : bytes) (dir : Direction) (ids : list Z) (pos : nat) (rows : list binding) : M step :=
  check ≫= fun _ =>
  match rows with
  | r :: rows' => mret (Some r, relSeek rel from to_ dir ids pos rows')
  | [] =>
      match ids !! pos with
      | None => mret (None, relSeek rel from to_ dir ids pos [])
      | Some id => rows ← txn (rel_rows rel from to_ dir id); next_ (relSeek rel from to_ dir ids (S pos) rows)
      end
  end.

(** The To node of a hit: [None] when the bound node is another one. *)
Definition hit_node (toBound toUnused : bool) (bound : option value) (other : Z) : M (option value) :=
  match toBound, bound with
  | true, Some (VNode id _ _ as existing) => mret (if id =? other then Some existing else None)
  | _, _ => if toUnused then mret (Some (node_value (bare_node other)))
            else n ← txn (GetNode other); mret (Some (node_value n))
  end.
Definition hit_edge (relUnused : bool) (r : EdgeRef) : M value :=
  if relUnused then mret (edge_value (edgeOf r)) else e ← txn (GetEdge (er_ID r)); mret (edge_value e).

Definition expand_next (input : op) (from rel to_ : bytes) (dir : Direction) (toBound anyType : bool) (typeIDs : list Z)
    (toUnused relUnused : bool) (cur : binding) (pending : list edgeHit) (pidx : nat) : M step :=
  let self input := expand input from rel to_ dir toBound anyType typeIDs toUnused relUnused in
  check ≫= fun _ =>
  match pending !! pidx with
  | None =>
      pull input (fun input => self input cur pending pidx) (fun b input =>
        match as_node (b !! from) with
        | None => fail ErrType
        | Some id =>
            hits ← txn (gather dir (typeFilter anyType typeIDs) id);
            next_ (self input b hits 0%nat)
        end)
  | Some hit =>
      o ← hit_node toBound toUnused (cur !! to_) (eh_other hit);
      match o with
      | None => next_ (self input cur pending (S pidx))
      | Some toNode =>
          edge ← hit_edge relUnused (eh_ref hit);
          mret (Some (<[rel := edge]> (<[to_ := toNode]> cur)), self input cur pending (S pidx))
      end
  end.

Definition varExpand_next (input : op) (from rel to_ : bytes) (dir : Direction) (anyType : bool) (typeIDs : list Z)
    (toBound : bool) (minHops maxHops : Z) (cur : binding) (pending : list varHit) (pidx : nat) : M step :=
  let self input := varExpand input from rel to_ dir anyType typeIDs toBound minHops maxHops in
  check ≫= fun _ =>
  match pending !! pidx with
  | None =>
      pull input (fun input => self input cur pending pidx) (fun b input =>
        match as_node (b !! from) with
        | None => fail ErrType
        | Some id =>
            hits ← bfs fuel dir (typeFilter anyType typeIDs) minHops maxHops id;
            next_ (self input b hits 0%nat)
        end)
  | Some hit =>
      if toBound && (match as_node (cur !! to_) with Some id => negb (id =? vh_toID hit) | None => false end)
      then next_ (self input cur pending (S pidx))
      else
        toNode ← txn (GetNode (vh_toID hit));
        edges ← txn (fetchEdges (vh_edges hit));
        mret (Some (<[rel := VEdges (edge_value <$> edges)]> (<[to_ := node_value toNode]> cur)),
              self input cur pending (S pidx))
  end.

Definition shortestPath_next (input : op) (from to_ pathVar relVar : bytes) (spec : PathSpec)
    (cur : binding) (pending : list Path) (pidx : nat) : M step :=
  let self input := shortestPathOp input from to_ pathVar relVar spec in
  check ≫= fun _ =>
  match pending !! pidx with
  | Some path =>
      p ← txn (load path);
      let rels := match p with VPath _ rs => VEdges rs | _ => VNull end in
      mret (Some (bind_var relVar rels (bind_var pathVar p cur)), self input cur pending (S pidx))
  | None =>
      pull input (fun input => self input cur pending pidx) (fun b input =>
        match default VNull (b !! from), default VNull (b !! to_) with
        | VNull, _ | _, VNull => next_ (self input cur pending pidx)
        | VNode a _ _, VNode z _ _ =>
            paths ← ShortestPaths fuel a z spec;
            next_ (self input b paths 0%nat)
        | _, _ => fail ErrType
        end)
  end.

Definition filter_next (input : op) (pred : Expr) : M step :=
  check ≫= fun _ =>
  pull input (fun input => filter_ input pred) (fun b input =>
    v ← eval pred b;
    if truthy v then mret (Some b, filter_ input pred) else next_ (filter_ input pred)).

(** The projected row, and its key for DISTINCT. *)
Definition project_row (items : list ProjItem) (b : binding) : M binding :=
  foldM (fun (out : binding) it => v ← eval (pi_Expr it) b; mret (<[pi_Column it := v]> out)) ∅ items.
Definition rowKey (b : binding) (items : list ProjItem) : bytes :=
  sprint_v (VList ((fun it => default VNull (b !! pi_Column it)) <$> items)).

Definition project_next (input : op) (items : list ProjItem) (distinct : bool) (seen : gset (list Z)) : M step :=
  check ≫= fun _ =>
  pull input (fun input => project input items distinct seen) (fun b input =>
    out ← project_row items b;
    if (distinct : bool) then
      let key := rowKey out items in
      if bool_decide (key ∈ seen) then next_ (project input items distinct seen)
      else mret (Some out, project input items distinct ({[ key ]} ∪ seen))
    else mret (Some out, project input items distinct seen)).

(** *** ORDER BY *)
Definition columnKey (e : Expr) : bytes :=
  match e with
  | Variable_ name => name
  | PropertyAccess (Variable_ name) key => name ++ str "." ++ key
  | _ => []
  end.
(** An error of a sort key counts as null. *)
Definition or_null (m : M value) : M value := fun c =>
  m c ≫= fun '(r, c') => PRet (Ok (match r with Ok v => v | Err _ => VNull end), c').
Definition sortValue (b : binding) (e : Expr) : M value :=
  match (match columnKey e with [] => None | col => b !! col end) with
  | Some v => mret v
  | None => or_null (eval e b)
  end.
Fixpoint sort_less (keys : list SortKey) (bi bj : binding) : M bool :=
  match keys with
  | [] => mret false
  | k :: keys' =>
      vi ← sortValue bi (sk_Expr k);
      vj ← sortValue bj (sk_Expr k);
      match compareValues vi vj with
      | None => sort_less keys' bi bj
      | Some c => if c =? 0 then sort_less keys' bi bj else mret (if sk_Desc k then 0 <? c else c <? 0)
      end
  end.

Definition sortOp_next (input : op) (keys : list SortKey) (rows : list binding) (pos : nat) (loaded : bool) : M step :=
  if loaded then emit rows pos (fun pos => sortOp input keys rows pos true)
  else
    check ≫= fun _ =>
    '(r, input) ← next_ input;
    match r with
    | Some b => next_ (sortOp input keys (rows ++ [b]) pos false)
    | None => sorted ← SliceStable (sort_less keys) rows; next_ (sortOp input keys sorted pos true)
    end.

(** [i] counts the rows skipped so far. *)
Definition skip_next (input : op) (n i : Z) (skipped : bool) : M step :=
  if negb skipped && (i <? n) then
    check ≫= fun _ =>
    pull input (fun input => skip input n i true) (fun _ input => next_ (skip input n (i + 1) false))
  else
    '(r, input) ← next_ input; mret (r, skip input n i true).

Definition limit_next (input : op) (n count : Z) : M step :=
  check ≫= fun _ =>
  if n <=? count then mret (None, limit input n count)
  else pull input (fun input => limit input n count) (fun b input => mret (Some b, limit input n (count + 1))).

Definition cartesian_next (left_ right_ : op) (rightRows : list binding) (loaded : bool) (curLeft : binding)
    (haveLeft : bool) (ri : nat) : M step :=
  if negb loaded then
    if negb haveLeft then
      pull left_ (fun left_ => cartesian left_ right_ rightRows loaded curLeft haveLeft ri) (fun b left_ =>
        next_ (cartesian left_ right_ rightRows loaded b true 0))
    else
      check ≫= fun _ =>
      '(r, right_) ← next_ right_;
      match r with
      | Some b => next_ (cartesian left_ right_ (rightRows ++ [b]) false curLeft haveLeft ri)
      | None => next_ (cartesian left_ right_ rightRows true curLeft haveLeft ri)
      end
  else
    check ≫= fun _ =>
    (if haveLeft then mret (Some curLeft, left_, ri)
     else '(r, left_) ← next_ left_; mret (r, left_, 0%nat)) ≫= fun '(r, left_, ri) =>
    match r with
    | None => mret (None, cartesian left_ right_ rightRows loaded curLeft haveLeft ri)
    | Some curLeft =>
        match rightRows !! ri with
        | None => next_ (cartesian left_ right_ rightRows loaded curLeft false ri)
        | Some rr => mret (Some (rr ∪ curLeft), cartesian left_ right_ rightRows loaded curLeft true (S ri))
        end
    end.

Definition unwind_next (input : op) (expr : Expr) (alias : bytes) (cur : binding) (pending : list value) (pidx : nat) : M step :=
  check ≫= fun _ =>
  match pending !! pidx with
  | Some v => mret (Some (<[alias := v]> cur), unwindOp input expr alias cur pending (S pidx))
  | None =>
      pull input (fun input => unwindOp input expr alias cur pending pidx) (fun b input =>
        v ← eval expr b;
        match v with
        | VNull => next_ (unwindOp input expr alias cur [] pidx)
        | VList l => next_ (unwindOp input expr alias b l 0)
        | _ => fail ErrType
        end)
  end.

Definition unionKey (b : binding) (columns : list bytes) : bytes :=
  canonKeyList ((fun c => default VNull (b !! c)) <$> columns).

Definition union_next (parts : list op) (columns : list bytes) (dedup : bool) (idx : nat) (seen : gset (list Z)) : M step :=
  match parts !! idx with
  | None => mret (None, unionOp parts columns dedup idx seen)
  | Some part =>
      check ≫= fun _ =>
      '(r, part) ← next_ part;
      let parts := <[idx := part]> parts in
      match r with
      | None => next_ (unionOp parts columns dedup (S idx) seen)
      | Some b =>
          if (dedup : bool) then
            let key := unionKey b columns in
            if bool_decide (key ∈ seen) then next_ (unionOp parts columns dedup idx seen)
            else mret (Some b, unionOp parts columns dedup idx ({[ key ]} ∪ seen))
          else mret (Some b, unionOp parts columns dedup idx seen)
      end
  end.

(** The end of the loop body: the next outer row, and its inner tree. *)
Definition outer_advance (outer : op) (innerPlan : Plan.Op) (newVars : list bytes) (inner : bool)
    (curOuter : binding) (rowsEmitted : nat) : M step :=
  pull outer (fun outer => outerApplyOp outer innerPlan newVars inner curOuter None rowsEmitted false) (fun b outer =>
    i ← buildWith innerPlan (Some b);
    next_ (outerApplyOp outer innerPlan newVars inner b (Some i) 0 false)).

(** The outer row with the new variables null. *)
Definition null_row (newVars : list bytes) (b : binding) : binding :=
  foldl (fun (r : binding) v => <[v := VNull]> r) b newVars.

(** [curInner] is present when [curOuterValid]. *)
Definition outerApply_next (outer : op) (innerPlan : Plan.Op) (newVars : list bytes) (inner : bool)
    (curOuter : binding) (curInner : option op) (rowsEmitted : nat) (pendingEmpty : bool) : M step :=
  check ≫= fun _ =>
  if pendingEmpty then
    mret (Some (null_row newVars curOuter), outerApplyOp outer innerPlan newVars inner curOuter None rowsEmitted false)
  else match curInner with
  | None => outer_advance outer innerPlan newVars inner curOuter rowsEmitted
  | Some i =>
      '(r, i) ← next_ i;
      match r with
      | Some b => mret (Some b, outerApplyOp outer innerPlan newVars inner curOuter (Some i) (S rowsEmitted) false)
      | None =>
          if bool_decide (rowsEmitted = 0%nat) && negb inner
          then next_ (outerApplyOp outer innerPlan newVars inner curOuter (Some i) rowsEmitted true)
          else outer_advance outer innerPlan newVars inner curOuter rowsEmitted
      end
  end.

Definition aggregate_next (input : op) (groupKeys aggs : list ProjItem) (loaded : bool) (gs : option groups)
    (out : list binding) (pos : nat) : M step :=
  if loaded then emit out pos (fun pos => aggregateOp input groupKeys aggs true gs out pos)
  else
    specs ← of_res (parseAggFuncs aggs);
    let g := default (empty_groups groupKeys specs) gs in
    check ≫= fun _ =>
    '(r, input) ← next_ input;
    match r with
    | Some b => g ← place groupKeys specs g b; next_ (aggregateOp input groupKeys aggs false (Some g) out pos)
    | None => next_ (aggregateOp input groupKeys aggs true (Some g) (output groupKeys aggs specs g) pos)
    end.

(** *** Writing operators *)
Definition create_next (input : op) (parts : list PatternPart) : M step :=
  pull input (fun input => createOp input parts) (fun b input =>
    out ← foldM createPart b parts; mret (Some out, createOp input parts)).

Definition set_next (input : op) (items : list SetClause) : M step :=
  pull input (fun input => setOp input items) (fun b input =>
    b ← applySetClauses b items; mret (Some b, setOp input items)).

Definition remove_next (input : op) (items : list RemoveClause) : M step :=
  pull input (fun input => removeOp input items) (fun b input =>
    b ← foldM removeItem b items; mret (Some b, removeOp input items)).

Definition delete_next (input : op) (exprs : list Expr) (detach : bool) : M step :=
  pull input (fun input => deleteOp input exprs detach) (fun b input =>
    deleteRow detach exprs b ≫= fun _ => mret (Some b, deleteOp input exprs detach)).

Definition merge_next (input : op) (part : PatternPart) (onCreate onMatch : list SetClause) (out : list binding) (pos : nat) : M step :=
  match out !! pos with
  | Some r => mret (Some r, mergeOp input part onCreate onMatch out (S pos))
  | None =>
      pull input (fun input => mergeOp input part onCreate onMatch out pos) (fun b input =>
        rows ← merge_run part onCreate onMatch b; next_ (mergeOp input part onCreate onMatch rows 0))
  end.

(** *** Schema statements: one empty row, after the work *)
Definition once (done : bool) (o : bool -> op) (work : prog unit) : M step :=
  if done then mret (None, o true) else txn work ≫= fun _ => mret (Some ∅, o true).

(** SHOW: rows by name. *)
Definition name_le (a b : bytes * binding) : Prop := ble a.1 b.1.
#[local] Instance name_le_dec a b : Decision (name_le a b).
Proof. unfold name_le. apply _. Defined.

Definition index_row (ix : indexInfo) : bytes * binding :=
  (ii_name ix, <[str "entity" := VStr (if ii_rel ix then str "RELATIONSHIP" else str "NODE")]>
     (<[str "property" := VStr (ii_prop ix)]> (<[str "label" := VStr (ii_label ix)]> {[ str "name" := VStr (ii_name ix) ]}))).
Definition constraint_row (d : ConstraintDef) : prog (bytes * binding) :=
  '(label, prop, name) ← ConstraintName d;
  mret (name, <[str "type" := VStr (str "UNIQUE")]>
     (<[str "property" := VStr prop]> (<[str "label" := VStr label]> {[ str "name" := VStr name ]}))).

Definition index_rows : prog (list (bytes * binding)) :=
  l ← listAllIndexes; mret (map index_row l).
Definition constraint_rows : prog (list (bytes * binding)) :=
  l ← ListConstraints; map_prog constraint_row l.

Definition show_next (rows : list binding) (pos : nat) (done : bool) (list_rows : prog (list (bytes * binding)))
    (o : list binding -> nat -> bool -> op) : M step :=
  if done then emit rows pos (fun pos => o rows pos true)
  else all ← txn list_rows; let rows := (merge_sort name_le all).*2 in emit rows pos (fun pos => o rows pos true).
End methods.

(** ** next *)
Fixpoint next (fuel : nat) (o : op) : M step :=
  match fuel with
  | O => fail ErrOutOfFuel
  | S fuel =>
      let n := next fuel in
      match o with
      | unit_ done => unit_next done
      | nodeScan v cur ids pos => nodeScan_next v cur ids pos
      | argumentOp row done => argument_next row done
      | relSeek rel from to_ dir ids pos rows => relSeek_next n rel from to_ dir ids pos rows
      | expand i f r t d tb any ids tu ru cur pending pidx => expand_next n i f r t d tb any ids tu ru cur pending pidx
      | varExpand i f r t d any ids tb mn mx cur pending pidx => varExpand_next n fuel i f r t d any ids tb mn mx cur pending pidx
      | shortestPathOp i f t pv rv spec cur pending pidx => shortestPath_next n fuel i f t pv rv spec cur pending pidx
      | filter_ i pred => filter_next n i pred
      | project i items distinct seen => project_next n i items distinct seen
      | sortOp i keys rows pos loaded => sortOp_next n i keys rows pos loaded
      | skip i k j skipped => skip_next n i k j skipped
      | limit i k count => limit_next n i k count
      | cartesian l r rows loaded cur have ri => cartesian_next n l r rows loaded cur have ri
      | unwindOp i e alias cur pending pidx => unwind_next n i e alias cur pending pidx
      | unionOp parts columns dedup idx seen => union_next n parts columns dedup idx seen
      | outerApplyOp out plan vars inner cur curInner rows pe => outerApply_next n out plan vars inner cur curInner rows pe
      | aggregateOp i gk aggs loaded gs out pos => aggregate_next n i gk aggs loaded gs out pos
      | createOp i parts => create_next n i parts
      | setOp i items => set_next n i items
      | removeOp i items => remove_next n i items
      | deleteOp i exprs detach => delete_next n i exprs detach
      | mergeOp i part oc om out pos => merge_next n i part oc om out pos
      | createIndexOp name label prop rel done =>
          once done (createIndexOp name label prop rel) (if rel then createRelIndex name label prop else createIndex name label prop)
      | dropIndexOp name ie done => once done (dropIndexOp name ie) (dropIndex name ie)
      | showIndexesOp rows pos done => show_next rows pos done index_rows showIndexesOp
      | createConstraintOp name label prop done => once done (createConstraintOp name label prop) (createConstraint name label prop)
      | dropConstraintOp name ie done => once done (dropConstraintOp name ie) (dropConstraint name ie)
      | showConstraintsOp rows pos done => show_next rows pos done constraint_rows showConstraintsOp
      end
  end.

(** ** Run *)
Definition output_row (columns : list bytes) (b : binding) : list value := (fun c => default VNull (b !! c)) <$> columns.

(** The two loops of [Run]: [fuel] bounds the rows as well. *)
Fixpoint run_loop (fuel : nat) (columns : list bytes) (o : op) (rows : list (list value)) : M (list (list value)) :=
  match fuel with
  | O => fail ErrOutOfFuel
  | S fuel =>
      check ≫= fun _ =>
      '(r, o) ← next fuel o;
      match r with
      | None => mret rows
      | Some b =>
          match columns with
          | [] => run_loop fuel columns o rows
          | _ =>
              let rows := rows ++ [output_row columns b] in
              c ← get_ctx;
              if (0 <? MaxRows c) && (MaxRows c <=? len rows) then
                '(more, _) ← next fuel o;
                match more with Some _ => fail ErrResultLimit | None => mret rows end
              else run_loop fuel columns o rows
          end
      end
  end.

Definition Run (fuel : nat) (root : Plan.Op) (columns : list bytes) : M (list (list value)) :=
  o ← buildWith root None;
  run_loop fuel columns o [].
End operators.
End Operators.
