(* ===== verification/QueryLaws.v ===== *)
(** * QueryLaws: operators as streams of rows

    [produces s o rows]: from its present state the operator [o] yields [rows]
    and then ends, whatever the (sufficient) fuel, in any query that is not
    cancelled, and without changing the store.  One law per operator says which
    rows it produces from the rows of its inputs. *)
From S2P Require Import Prelude Float64 FloatArith Values Ast Plan Scalars Text Keys Records Storage Catalog Graph Context Functions Eval.
From S2P Require Import Shortest Aggregate Expand Write StableSort RangeScan Tables GraphInv NodeOps NodeUpdates Traversal Lookups Ranges Ddl Operators.
Import Ast Scalars Text Context Functions Eval Shortest Aggregate Expand Write StableSort Operators.

Module QueryLaws.

Lemma read_only_fold {A B : Type} (f : B -> A -> prog B) b l :
  (forall b x, read_only (f b x)) -> read_only (fold_prog f b l).
Proof. intros Hf. revert b. induction l as [|x l IH]; intros b; cbn; [apply read_only_ret|]. by apply read_only_bind. Qed.

(** Programs made of reads only. *)
Ltac read_only_auto :=
  repeat first
    [ apply read_only_ret | apply read_only_throw | apply read_only_lift | apply read_only_Get | apply read_only_ScanFrom
    | apply read_only_GetNode | apply read_only_bind | apply read_only_fold | apply read_only_map_prog
    | match goal with |- forall _, _ => intros ? end | progress cbn beta iota
    | match goal with |- read_only (match ?x with _ => _ end) => destruct x end ].

Section laws.
Context `{Runtime, MapOrder} (s : store).

(** ** Steps *)
Definition steps (o : op) (r : option binding) (o' : op) : Prop :=
  exists bound, forall fuel, (bound <= fuel)%nat -> evaluates s (next fuel o) (r, o').

(** A turn of a loop: whatever [o1] does next, [o] does. *)
Definition becomes (o o1 : op) : Prop :=
  exists bound, forall fuel, (bound <= fuel)%nat -> forall x,
    evaluates s (next fuel o1) x -> evaluates s (next (S fuel) o) x.

Inductive produces : op -> list binding -> Prop :=
| produces_end o o' : steps o None o' -> produces o []
| produces_row o b o' rows : steps o (Some b) o' -> produces o' rows -> produces o (b :: rows).

Lemma becomes_steps o o1 r o' : becomes o o1 -> steps o1 r o' -> steps o r o'.
Proof.
  intros [n1 H1] [n2 H2]. exists (S (n1 + n2)). intros [|fuel] Hf; [lia|]. apply H1; [lia|]. apply H2. lia.
Qed.

Lemma produces_becomes o o1 rows : becomes o o1 -> produces o1 rows -> produces o rows.
Proof.
  intros Hb Hp. destruct Hp as [o1 o' Hs|o1 b o' rows Hs Hp].
  - eapply produces_end, becomes_steps; eauto.
  - eapply produces_row; [eapply becomes_steps; eauto|done].
Qed.

(** Enough fuel for the computations of a step. *)
Lemma steps_S o r o' : (exists bound, forall fuel, (bound <= fuel)%nat -> evaluates s (next (S fuel) o) (r, o')) -> steps o r o'.
Proof. intros [n Hn]. exists (S n). intros [|fuel] Hf; [lia|]. apply Hn. lia. Qed.

Lemma evaluates_txn {A : Type} (p : prog A) (a : A) : run p s = (Ok a, s) -> evaluates s (txn p) a.
Proof. intros E c Hc. exists c. unfold txn. by rewrite run_bind, run_try, E. Qed.

Lemma evaluates_mapM {A B : Type} (f : A -> M B) l ys :
  Forall2 (fun x y => evaluates s (f x) y) l ys -> evaluates s (mapM f l) ys.
Proof.
  induction 1 as [|x y l ys Hx _ IH]; cbn; [apply evaluates_ret|].
  eapply evaluates_bind; [exact Hx|]. eapply evaluates_bind; [exact IH|apply evaluates_ret].
Qed.

(** Run through the computations that are known to evaluate. *)
Ltac ev :=
  repeat first
    [ apply evaluates_ret
    | eassumption
    | eapply evaluates_bind; [apply evaluates_check|]; cbn beta
    | eapply evaluates_bind; [eassumption|]; cbn beta iota
    | eapply evaluates_bind; [apply evaluates_ret|]; cbn beta iota
    | eapply evaluates_bind; [eapply evaluates_bind; [eassumption|]; cbn beta iota; apply evaluates_ret|]; cbn beta iota ].

(** Use the fuel bounds of the inputs' steps, for a step or a turn of a loop. *)
Ltac bounds :=
  repeat match goal with H : steps _ _ _ |- _ => destruct H as [? H] end.
Ltac fuel_of n :=
  let fuel := fresh "fuel" in let Hf := fresh "Hf" in
  exists n; intros fuel Hf;
  repeat match goal with H : forall k : nat, (_ <= k)%nat -> _ |- _ => specialize (H fuel ltac:(lia)) end.
Ltac fuelled :=
  bounds;
  match goal with
  | |- steps _ _ _ => apply steps_S
  | |- becomes _ _ => unfold becomes
  end;
  match goal with
  | _ : forall fuel, (?n <= fuel)%nat -> _, _ : forall fuel, (?k <= fuel)%nat -> _ |- _ => fuel_of (n + k)%nat
  | _ : forall fuel, (?n <= fuel)%nat -> _ |- _ => fuel_of n
  | |- _ => fuel_of 0%nat
  end;
  match goal with
  | |- forall x, evaluates _ _ x -> _ => let x := fresh "x" in let Hx := fresh "Hloop" in intros x Hx
  | |- _ => idtac
  end; cbn [next].

(** ** Filter *)
Lemma produces_filter i pred rows vs :
  produces i rows -> Forall2 (fun b v => evaluates s (eval pred b) v) rows vs ->
  produces (filter_ i pred) ((filter (fun bv => truthy bv.2 = true) (zip rows vs)).*1).
Proof.
  intros Hp. revert vs. induction Hp as [o o' Hs|o b o' rows Hs Hp IH]; intros vs Hvs.
  { inversion Hvs; subst. apply produces_end with (filter_ o' pred). fuelled. unfold filter_next, pull. ev. }
  inversion Hvs as [|? v ? vs' Hv Hvs']; subst. specialize (IH _ Hvs'). cbn [zip_with].
  destruct (truthy v) eqn:Et.
  - rewrite filter_cons_True by done. apply produces_row with (filter_ o' pred); [|done].
    fuelled. unfold filter_next, pull. ev. rewrite Et. ev.
  - rewrite filter_cons_False by (cbn; congruence). apply produces_becomes with (filter_ o' pred); [|done].
    fuelled. unfold filter_next, pull. ev. rewrite Et. ev.
Qed.
(** ** Sources *)
Lemma produces_unit : produces (unit_ false) [∅].
Proof.
  apply produces_row with (unit_ true); [|apply produces_end with (unit_ true)]; fuelled; unfold unit_next; ev.
Qed.

Lemma produces_argument row : produces (argumentOp row false) [row].
Proof.
  apply produces_row with (argumentOp row true); [|apply produces_end with (argumentOp row true)];
    fuelled; unfold argument_next; ev.
Qed.

Lemma produces_ids v ids ns pos :
  Forall2 (fun id n => run (GetNode id) s = (Ok n, s)) (drop pos ids) ns ->
  produces (nodeScan v None ids pos) ((fun n => {[ v := node_value n ]}) <$> ns).
Proof.
  remember (drop pos ids) as rest eqn:E. intros Hns. revert pos E.
  induction Hns as [|id n rest ns Hn Hns IH]; intros pos E.
  - assert (ids !! pos = None) as El.
    { apply lookup_ge_None. pose proof (f_equal length E) as L. rewrite length_drop in L. cbn in L. lia. }
    apply produces_end with (nodeScan v None ids pos). fuelled. unfold nodeScan_next. ev. rewrite El. ev.
  - assert (ids !! pos = Some id) as El by (rewrite <- (Nat.add_0_r pos), <- lookup_drop, <- E; done).
    apply produces_row with (nodeScan v None ids (S pos)).
    + fuelled. unfold nodeScan_next. ev. rewrite El. eapply evaluates_bind; [by apply evaluates_txn|]. ev.
    + apply IH. by rewrite <- Nat.add_1_r, <- drop_drop, <- E.
Qed.

(** A cursor that can be drained is a scan of its nodes. *)
Lemma run_bind_read {A B : Type} (p : prog A) (f : A -> prog B) b : read_only p ->
  run (p ≫= f) s = (Ok b, s) -> exists a, run p s = (Ok a, s) /\ run (f a) s = (Ok b, s).
Proof.
  intros Hro. rewrite run_bind, (read_only_run p s Hro). destruct (run p s).1 as [a|e]; [|done]. eauto.
Qed.

Lemma produces_cursor v c ns :
  (exists bound, forall fuel, (bound <= fuel)%nat -> run (RangeScan.drain fuel c) s = (Ok ns, s)) ->
  produces (nodeScan v (Some c) [] 0) ((fun n => {[ v := node_value n ]}) <$> ns).
Proof.
  intros [bound Hd]. specialize (Hd (S bound) ltac:(lia)). revert c ns Hd.
  induction (S bound) as [|fuel IH]; intros c ns Hd; [done|]. cbn [RangeScan.drain] in Hd.
  apply run_bind_read in Hd as ([o c'] & En & Hd); [|apply Ranges.read_only_Next].
  destruct o as [n|].
  - apply run_bind_read in Hd as (ns' & Ed & Hd); [|apply Ranges.read_only_drain]. injection Hd as <-.
    apply produces_row with (nodeScan v (Some c') [] 0); [|by apply IH].
    fuelled. unfold nodeScan_next. ev. eapply evaluates_bind; [by apply evaluates_txn|]. ev.
  - injection Hd as <-. apply produces_end with (nodeScan v (Some c') [] 0).
    fuelled. unfold nodeScan_next. ev. eapply evaluates_bind; [by apply evaluates_txn|]. ev.
Qed.

(** ** Projection *)

(** Keep the first row of each key. *)
Fixpoint dedup {A : Type} (key : A -> bytes) (seen : gset (list Z)) (l : list A) : list A :=
  match l with
  | [] => []
  | x :: l' => if bool_decide (key x ∈ seen) then dedup key seen l' else x :: dedup key ({[ key x ]} ∪ seen) l'
  end.

Lemma produces_project i items (distinct : bool) seen rows outs :
  produces i rows -> Forall2 (fun b out => evaluates s (project_row items b) out) rows outs ->
  produces (project i items distinct seen) (if distinct then dedup (fun b => rowKey b items) seen outs else outs).
Proof.
  intros Hp. revert seen outs. induction Hp as [o o' Hs|o b o' rows Hs Hp IH]; intros seen outs Ho.
  { inversion Ho; subst. assert ((if distinct then dedup (fun b => rowKey b items) seen [] else []) = []) as -> by (by destruct distinct).
    apply produces_end with (project o' items distinct seen). fuelled. unfold project_next, pull. ev. }
  inversion Ho as [|? out ? outs' Hout Ho']; subst. destruct distinct; cbn [dedup].
  - case_bool_decide as Hk.
    + apply produces_becomes with (project o' items true seen); [|by apply (IH seen)].
      fuelled. unfold project_next, pull. ev. rewrite bool_decide_true by done. ev.
    + apply produces_row with (project o' items true ({[ rowKey out items ]} ∪ seen)); [|by apply IH].
      fuelled. unfold project_next, pull. ev. rewrite bool_decide_false by done. ev.
  - apply produces_row with (project o' items false seen); [|by apply (IH seen)]. fuelled. unfold project_next, pull. ev.
Qed.

(** ** SKIP and LIMIT *)
Lemma produces_skipped i n j rows : produces i rows -> produces (skip i n j true) rows.
Proof.
  induction 1 as [o o' Hs|o b o' rows Hs Hp IH].
  - apply produces_end with (skip o' n j true). fuelled. unfold skip_next. cbn [negb andb]. ev.
  - apply produces_row with (skip o' n j true); [|done]. fuelled. unfold skip_next. cbn [negb andb]. ev.
Qed.

Lemma skip_enough i n j rows : n <= j -> produces i rows -> produces (skip i n j false) rows.
Proof.
  intros Hn Hp. assert ((j <? n) = false) as E by lia. destruct Hp as [o o' Hs|o b o' rows Hs Hp].
  - apply produces_end with (skip o' n j true). fuelled. unfold skip_next. rewrite E. cbn [negb andb]. ev.
  - apply produces_row with (skip o' n j true); [|by apply produces_skipped].
    fuelled. unfold skip_next. rewrite E. cbn [negb andb]. ev.
Qed.

Lemma produces_skip i n j rows : produces i rows -> produces (skip i n j false) (drop (Z.to_nat (n - j)) rows).
Proof.
  intros Hp. revert j. induction Hp as [o o' Hs|o b o' rows Hs Hp IH]; intros j.
  - destruct (Z.ltb_spec j n) as [Hlt|Hge].
    + rewrite drop_nil. apply produces_end with (skip o' n j true). fuelled. unfold skip_next.
      assert ((j <? n) = true) as -> by lia. cbn [negb andb]. unfold pull. ev.
    + replace (Z.to_nat (n - j)) with 0%nat by lia. apply skip_enough; [done|]. by apply produces_end with o'.
  - destruct (Z.ltb_spec j n) as [Hlt|Hge].
    + replace (Z.to_nat (n - j)) with (S (Z.to_nat (n - (j + 1)))) by lia. cbn [drop].
      apply produces_becomes with (skip o' n (j + 1) false); [|done]. fuelled. unfold skip_next.
      assert ((j <? n) = true) as -> by lia. cbn [negb andb]. unfold pull. ev.
    + replace (Z.to_nat (n - j)) with 0%nat by lia. apply skip_enough; [done|]. by apply produces_row with o'.
Qed.

Lemma produces_limit i n count rows : produces i rows -> produces (limit i n count) (take (Z.to_nat (n - count)) rows).
Proof.
  intros Hp. revert count. induction Hp as [o o' Hs|o b o' rows Hs Hp IH]; intros count;
    (destruct (Z.leb_spec n count) as [Hle|Hgt];
     [replace (Z.to_nat (n - count)) with 0%nat by lia; rewrite take_0; eapply produces_end;
      fuelled; unfold limit_next; assert ((n <=? count) = true) as -> by lia; ev|]).
  - rewrite take_nil. apply produces_end with (limit o' n count). fuelled. unfold limit_next.
    assert ((n <=? count) = false) as -> by lia. unfold pull. ev.
  - replace (Z.to_nat (n - count)) with (S (Z.to_nat (n - (count + 1)))) by lia. cbn [take].
    apply produces_row with (limit o' n (count + 1)); [|done]. fuelled. unfold limit_next.
    assert ((n <=? count) = false) as -> by lia. unfold pull. ev.
Qed.
(** ** Cartesian product *)
Definition product_row (l r : binding) : binding := r ∪ l.
Definition products (ls rs : list binding) : list binding := mjoin ((fun l => product_row l <$> rs) <$> ls).

(** From index [ri] of the right rows on, with a current left row. *)
Lemma produces_right l r rs b rest : forall k ri, (length rs - ri = k)%nat ->
  (forall ri, produces (cartesian l r rs true b false ri) rest) ->
  produces (cartesian l r rs true b true ri) ((product_row b <$> drop ri rs) ++ rest).
Proof.
  induction k as [|k IH]; intros ri Hk Hrest.
  - rewrite drop_ge by lia. assert (rs !! ri = None) as El by (apply lookup_ge_None; lia).
    apply produces_becomes with (cartesian l r rs true b false ri); [|apply Hrest].
    fuelled. unfold cartesian_next. cbn [negb]. ev. rewrite El. ev.
  - destruct (lookup_lt_is_Some_2 rs ri) as [rr El]; [lia|]. rewrite (drop_S _ _ _ El). cbn [fmap list_fmap app].
    apply produces_row with (cartesian l r rs true b true (S ri)); [|apply IH; [lia|done]].
    fuelled. unfold cartesian_next. cbn [negb]. ev. rewrite El. ev.
Qed.

Lemma produces_loaded r rs l ls : produces l ls -> forall b ri, produces (cartesian l r rs true b false ri) (products ls rs).
Proof.
  induction 1 as [o o' Hs|o b' o' ls Hs Hp IH]; intros b ri.
  - apply produces_end with (cartesian o' r rs true b false 0). fuelled. unfold cartesian_next. cbn [negb]. ev.
  - unfold products. cbn [fmap list_fmap mjoin list_join]. fold (products ls rs). destruct (rs !! 0%nat) as [rr|] eqn:Ers.
    + assert (product_row b' <$> rs = product_row b' rr :: (product_row b' <$> drop 1 rs)) as -> by (destruct rs; by simplify_eq/=).
      apply produces_row with (cartesian o' r rs true b' true 1).
      * fuelled. unfold cartesian_next. cbn [negb]. ev. rewrite Ers. ev.
      * apply (produces_right o' r rs b' _ (length rs - 1) 1); [lia|]. intros ri'. apply IH.
    + assert (rs = []) as -> by (by destruct rs).
      apply produces_becomes with (cartesian o' r [] true b' false 0); [|apply IH].
      fuelled. unfold cartesian_next. cbn [negb]. ev.
Qed.

Lemma produces_loading l b rows r rs : produces r rs -> forall acc,
  (forall r', produces (cartesian l r' (acc ++ rs) true b true 0) rows) -> produces (cartesian l r acc false b true 0) rows.
Proof.
  induction 1 as [o o' Hs|o b' o' rs Hs Hp IH]; intros acc Hrows.
  - rewrite app_nil_r in Hrows. apply produces_becomes with (cartesian l o' acc true b true 0); [|apply Hrows].
    fuelled. unfold cartesian_next. cbn [negb]. ev.
  - apply produces_becomes with (cartesian l o' (acc ++ [b']) false b true 0).
    + fuelled. unfold cartesian_next. cbn [negb]. ev.
    + apply IH. intros r'. rewrite <- app_assoc. apply Hrows.
Qed.

Lemma produces_product l r ls rs : produces l ls -> produces r rs ->
  produces (cartesian l r [] false ∅ false 0) (products ls rs).
Proof.
  intros Hl Hr. destruct Hl as [o o' Hs|o b o' ls Hs Hl].
  - apply produces_end with (cartesian o' r [] false ∅ false 0). fuelled. unfold cartesian_next, pull. cbn [negb]. ev.
  - apply produces_becomes with (cartesian o' r [] false b true 0).
    { fuelled. unfold cartesian_next, pull. cbn [negb]. ev. }
    apply (produces_loading o' b _ r rs Hr []). intros r'. cbn [app].
    apply (produces_right o' r' rs b (products ls rs) (length rs) 0); [lia|]. intros ri. by apply produces_loaded.
Qed.

(** ** UNWIND *)
Definition unwinds (alias : bytes) (b : binding) (l : list value) : list binding := (fun v => <[alias := v]> b) <$> l.

Lemma produces_pending i e alias cur l rest : forall k pidx, (length l - pidx = k)%nat ->
  (forall cur pending pidx, pending !! pidx = None -> produces (unwindOp i e alias cur pending pidx) rest) ->
  produces (unwindOp i e alias cur l pidx) (unwinds alias cur (drop pidx l) ++ rest).
Proof.
  induction k as [|k IH]; intros pidx Hk Hrest.
  - rewrite drop_ge by lia. apply Hrest. apply lookup_ge_None. lia.
  - destruct (lookup_lt_is_Some_2 l pidx) as [v El]; [lia|]. rewrite (drop_S _ _ _ El). unfold unwinds. cbn [fmap list_fmap app].
    apply produces_row with (unwindOp i e alias cur l (S pidx)); [|apply IH; [lia|done]].
    fuelled. unfold unwind_next. ev. rewrite El. ev.
Qed.

(** The list a value stands for in UNWIND. *)
Definition listed (v : value) (l : list value) : Prop := v = VList l \/ (v = VNull /\ l = []).

Lemma produces_unwind i e alias rows ls :
  produces i rows -> Forall2 (fun b l => exists v, evaluates s (eval e b) v /\ listed v l) rows ls ->
  forall cur pending pidx, pending !! pidx = None ->
  produces (unwindOp i e alias cur pending pidx) (mjoin (zip_with (unwinds alias) rows ls)).
Proof.
  intros Hp. revert ls. induction Hp as [o o' Hs|o b o' rows Hs Hp IH]; intros ls Hls cur pending pidx El.
  - inversion Hls; subst. apply produces_end with (unwindOp o' e alias cur pending pidx).
    fuelled. unfold unwind_next, pull. ev. rewrite El. ev.
  - inversion Hls as [|? l ? ls' (v & Hv & Hl) Hls']; subst. cbn [zip_with mjoin list_join].
    destruct Hl as [->|[-> ->]].
    + apply produces_becomes with (unwindOp o' e alias b l 0).
      * fuelled. unfold unwind_next, pull. ev. rewrite El. ev.
      * apply (produces_pending o' e alias b l _ (length l) 0); [lia|]. by apply IH.
    + apply produces_becomes with (unwindOp o' e alias cur [] pidx); [|by apply IH].
      fuelled. unfold unwind_next, pull. ev. rewrite El. ev.
Qed.

(** ** UNION *)
Lemma insert_middle {A : Type} (l1 l2 : list A) x y : <[length l1 := y]> (l1 ++ x :: l2) = l1 ++ y :: l2.
Proof. by rewrite <- (Nat.add_0_r (length l1)), insert_app_r. Qed.

Lemma produces_union todo rss columns (ded : bool) : Forall2 produces todo rss ->
  forall done_ seen, produces (unionOp (done_ ++ todo) columns ded (length done_) seen)
    (if ded then dedup (fun b => unionKey b columns) seen (mjoin rss) else mjoin rss).
Proof.
  induction 1 as [|p rs todo rss Hp Hrest IH]; intros done_ seen.
  - rewrite app_nil_r. assert ((if ded then dedup (fun b => unionKey b columns) seen (mjoin []) else mjoin []) = []) as -> by (by destruct ded).
    eapply produces_end. fuelled. unfold union_next. rewrite lookup_ge_None_2 by lia. ev.
  - cbn [mjoin list_join]. revert seen. induction Hp as [o o' Hs|o b o' rs Hs Hp IHp]; intros seen.
    + apply produces_becomes with (unionOp ((done_ ++ [o']) ++ todo) columns ded (length (done_ ++ [o'])) seen).
      { fuelled. unfold union_next. rewrite list_lookup_middle by done. ev.
        rewrite insert_middle. rewrite <- app_assoc, length_app, Nat.add_1_r in Hloop. ev. }
      apply (IH (done_ ++ [o']) seen).
    + destruct ded; cbn [app dedup].
      * case_bool_decide as Hk.
        { apply produces_becomes with (unionOp (done_ ++ o' :: todo) columns true (length done_) seen); [|apply IHp].
          fuelled. unfold union_next. rewrite list_lookup_middle by done. ev. rewrite insert_middle, bool_decide_true by done. ev. }
        apply produces_row with (unionOp (done_ ++ o' :: todo) columns true (length done_) ({[ unionKey b columns ]} ∪ seen)); [|apply IHp].
        fuelled. unfold union_next. rewrite list_lookup_middle by done. ev. rewrite insert_middle, bool_decide_false by done. ev.
      * apply produces_row with (unionOp (done_ ++ o' :: todo) columns false (length done_) seen); [|apply IHp].
        fuelled. unfold union_next. rewrite list_lookup_middle by done. ev. rewrite insert_middle. ev.
Qed.
(** ** Apply and OuterApply *)
Definition applied (vars : list bytes) (inner : bool) (b : binding) (rs : list binding) : list binding :=
  match rs with [] => if inner then [] else [null_row vars b] | _ => rs end.

Section apply.
Context (plan : Plan.Op) (vars : list bytes) (inner : bool).

(** The operator is about to take the next outer row. *)
Definition advances (o outer : op) (cur : binding) (k : nat) : Prop :=
  exists bound, forall fuel, (bound <= fuel)%nat -> forall x,
    evaluates s (outer_advance (next fuel) outer plan vars inner cur k) x -> evaluates s (next (S fuel) o) x.

Lemma advances_fresh outer cur k : advances (outerApplyOp outer plan vars inner cur None k false) outer cur k.
Proof. exists 0%nat. intros fuel _ x Hx. cbn [next]. unfold outerApply_next. ev. Qed.

Lemma advances_after i i' outer cur k : steps i None i' -> bool_decide (k = 0%nat) && negb inner = false ->
  advances (outerApplyOp outer plan vars inner cur (Some i) k false) outer cur k.
Proof.
  intros [n Hs] Hk. exists n. intros fuel Hf x Hx. specialize (Hs fuel Hf). cbn [next]. unfold outerApply_next. ev.
  rewrite Hk. ev.
Qed.

Lemma advances_end o outer outer' cur k : advances o outer cur k -> steps outer None outer' ->
  steps o None (outerApplyOp outer' plan vars inner cur None k false).
Proof.
  intros [n Ha] [n' Hs]. apply steps_S. exists (n + n')%nat. intros fuel Hf. apply Ha; [lia|].
  specialize (Hs fuel ltac:(lia)). unfold outer_advance, pull. ev.
Qed.

Lemma advances_row o outer outer' cur k b i : advances o outer cur k -> steps outer (Some b) outer' ->
  evaluates s (buildWith plan (Some b)) i -> becomes o (outerApplyOp outer' plan vars inner b (Some i) 0 false).
Proof.
  intros [n Ha] [n' Hs] Hi. exists (n + n')%nat. intros fuel Hf x Hx. apply Ha; [lia|].
  specialize (Hs fuel ltac:(lia)). unfold outer_advance, pull. ev.
Qed.

(** The rows of one inner tree, [k] of which have been emitted. *)
Lemma produces_inner outer b rest i rs : produces i rs ->
  (forall o cur k, advances o outer cur k -> produces o rest) ->
  forall k, produces (outerApplyOp outer plan vars inner b (Some i) k false)
    ((if bool_decide (k = 0%nat) then applied vars inner b rs else rs) ++ rest).
Proof.
  intros Hp Hrest. induction Hp as [o o' Hs|o r o' rs Hs Hp IH]; intros k.
  - destruct (bool_decide (k = 0%nat) && negb inner) eqn:E.
    + assert ((if bool_decide (k = 0%nat) then applied vars inner b [] else []) = [null_row vars b]) as ->.
      { destruct (bool_decide (k = 0%nat)), inner; done. }
      apply produces_becomes with (outerApplyOp outer plan vars inner b (Some o') k true).
      { fuelled. unfold outerApply_next. ev. rewrite E. ev. }
      apply produces_row with (outerApplyOp outer plan vars inner b None k false); [fuelled; unfold outerApply_next; ev|].
      by eapply Hrest, advances_fresh.
    + assert ((if bool_decide (k = 0%nat) then applied vars inner b [] else []) = []) as ->.
      { destruct (bool_decide (k = 0%nat)), inner; done. }
      eapply Hrest. by eapply advances_after.
  - assert ((if bool_decide (k = 0%nat) then applied vars inner b (r :: rs) else r :: rs) = r :: rs) as -> by (by case_bool_decide).
    apply produces_row with (outerApplyOp outer plan vars inner b (Some o') (S k) false).
    + fuelled. unfold outerApply_next. ev.
    + specialize (IH (S k)). by rewrite bool_decide_false in IH.
Qed.

Lemma produces_apply outer rows rss :
  produces outer rows ->
  Forall2 (fun b rs => exists i, evaluates s (buildWith plan (Some b)) i /\ produces i rs) rows rss ->
  forall o cur k, advances o outer cur k -> produces o (mjoin (zip_with (applied vars inner) rows rss)).
Proof.
  intros Hp. revert rss. induction Hp as [outer outer' Hs|outer b outer' rows Hs Hp IH]; intros rss Hrss o cur k Ha.
  - inversion Hrss; subst. eapply produces_end, advances_end; eauto.
  - inversion Hrss as [|? rs ? rss' (i & Hi & Hrs) Hrss']; subst. cbn [zip_with mjoin list_join].
    eapply produces_becomes; [by eapply advances_row|].
    apply (produces_inner outer' b _ i rs Hrs) with (k := 0%nat). by apply IH.
Qed.
End apply.

(** ** ORDER BY *)
Lemma produces_emit rows (self : nat -> op) : (forall pos fuel, next (S fuel) (self pos) = emit rows pos self) ->
  forall k pos, (length rows - pos = k)%nat -> produces (self pos) (drop pos rows).
Proof.
  intros Hself. induction k as [|k IH]; intros pos Hk.
  - rewrite drop_ge by lia. apply produces_end with (self pos). apply steps_S. exists 0%nat. intros fuel _. rewrite Hself.
    unfold emit. rewrite lookup_ge_None_2 by lia. ev.
  - destruct (lookup_lt_is_Some_2 rows pos) as [r El]; [lia|]. rewrite (drop_S _ _ _ El).
    apply produces_row with (self (S pos)); [|apply IH; lia].
    apply steps_S. exists 0%nat. intros fuel _. rewrite Hself. unfold emit. rewrite El. ev.
Qed.

Lemma produces_sort i keys rows sorted :
  produces i rows -> evaluates s (SliceStable (sort_less keys) rows) sorted -> produces (sortOp i keys [] 0 false) sorted.
Proof.
  intros Hp Hsort. assert (forall acc, evaluates s (SliceStable (sort_less keys) (acc ++ rows)) sorted ->
    produces (sortOp i keys acc 0 false) sorted) as Hgen; [|by apply Hgen].
  clear Hsort. induction Hp as [o o' Hs|o b o' rows Hs Hp IH]; intros acc Hsort.
  - rewrite app_nil_r in Hsort. apply produces_becomes with (sortOp o' keys sorted 0 true).
    + fuelled. unfold sortOp_next. ev.
    + apply (produces_emit sorted (fun pos => sortOp o' keys sorted pos true)) with (k := length sorted) (pos := 0%nat); [done|lia].
  - apply produces_becomes with (sortOp o' keys (acc ++ [b]) 0 false); [fuelled; unfold sortOp_next; ev|].
    apply IH. by rewrite <- app_assoc.
Qed.

(** ** Aggregation *)

(** The rows placed one after the other. *)
Inductive places (gk : list ProjItem) (specs : list aggSpec) : groups -> list binding -> groups -> Prop :=
| places_nil g : places gk specs g [] g
| places_cons g b g1 rows g' :
    evaluates s (place gk specs g b) g1 -> places gk specs g1 rows g' -> places gk specs g (b :: rows) g'.

Lemma produces_aggregate i gk aggs specs rows gs :
  produces i rows -> parseAggFuncs aggs = Ok specs -> places gk specs (empty_groups gk specs) rows gs ->
  produces (aggregateOp i gk aggs false None [] 0) (output gk aggs specs gs).
Proof.
  intros Hp Hspec Hpl.
  assert (evaluates s (of_res (parseAggFuncs aggs)) specs) as Hev by (rewrite Hspec; apply evaluates_ret).
  assert (forall og, default (empty_groups gk specs) og = empty_groups gk specs ->
    produces (aggregateOp i gk aggs false og [] 0) (output gk aggs specs gs)) as Hgen; [|by apply Hgen].
  revert Hpl. generalize (empty_groups gk specs) at 1 3 as g0.
  induction Hp as [o o' Hs|o b o' rows Hs Hp IH]; intros g0 Hpl og Eg.
  - assert (g0 = gs) as -> by (by inversion Hpl).
    apply produces_becomes with (aggregateOp o' gk aggs true (Some gs) (output gk aggs specs gs) 0).
    + fuelled. unfold aggregate_next. ev. rewrite Eg. ev.
    + apply (produces_emit (output gk aggs specs gs) (fun pos => aggregateOp o' gk aggs true (Some gs) (output gk aggs specs gs) pos))
        with (k := length (output gk aggs specs gs)) (pos := 0%nat); [done|lia].
  - inversion Hpl as [|? ? g1 ? ? Hb Hpl']; subst.
    apply produces_becomes with (aggregateOp o' gk aggs false (Some g1) [] 0).
    + fuelled. unfold aggregate_next. ev.
    + by eapply IH.
Qed.
(** ** Operators that gather hits per row

    An expand, a variable-length expand and a shortest-path search gather a
    list of hits for each input row, then turn each hit into a row or pass over
    it ([emits]); a row may also be passed over as a whole ([skips]). *)
Section gathering.
Context {Hit : Type} (self : op -> binding -> list Hit -> nat -> op).
Context (emits : binding -> Hit -> option binding -> Prop).
Context (gathers : binding -> list Hit -> Prop) (skips : binding -> Prop).
Hypothesis Hrow : forall i cur pending pidx hit r, pending !! pidx = Some hit -> emits cur hit (Some r) ->
  steps (self i cur pending pidx) (Some r) (self i cur pending (S pidx)).
Hypothesis Hpass : forall i cur pending pidx hit, pending !! pidx = Some hit -> emits cur hit None ->
  becomes (self i cur pending pidx) (self i cur pending (S pidx)).
Hypothesis Hend : forall i i' cur pending pidx, pending !! pidx = None -> steps i None i' ->
  steps (self i cur pending pidx) None (self i' cur pending pidx).
Hypothesis Hgather : forall i i' cur pending pidx b hits, pending !! pidx = None -> steps i (Some b) i' -> gathers b hits ->
  becomes (self i cur pending pidx) (self i' b hits 0%nat).
Hypothesis Hskip : forall i i' cur pending pidx b, pending !! pidx = None -> steps i (Some b) i' -> skips b ->
  becomes (self i cur pending pidx) (self i' cur pending pidx).

(** The rows of one input row. *)
Definition gathered (b : binding) (rs : list binding) : Prop :=
  (skips b /\ rs = []) \/
  exists hits os, gathers b hits /\ Forall2 (emits b) hits os /\ rs = omap (fun o => o) os.

Lemma produces_hits i cur pending rest : forall k pidx os, (length pending - pidx = k)%nat ->
  Forall2 (emits cur) (drop pidx pending) os ->
  (forall cur pending pidx, pending !! pidx = None -> produces (self i cur pending pidx) rest) ->
  produces (self i cur pending pidx) (omap (fun o => o) os ++ rest).
Proof.
  induction k as [|k IH]; intros pidx os Hk Hos Hrest.
  - rewrite drop_ge in Hos by lia. inversion Hos; subst. apply Hrest. apply lookup_ge_None. lia.
  - destruct (lookup_lt_is_Some_2 pending pidx) as [hit El]; [lia|]. rewrite (drop_S _ _ _ El) in Hos.
    inversion Hos as [|? o ? os' Ho Hos']; subst. destruct o as [r|]; cbn.
    + eapply produces_row; [by eapply Hrow|]. apply IH; [lia|done|done].
    + eapply produces_becomes; [by eapply Hpass|]. apply IH; [lia|done|done].
Qed.

Lemma produces_gather i rows rss : produces i rows -> Forall2 gathered rows rss ->
  forall cur pending pidx, pending !! pidx = None -> produces (self i cur pending pidx) (mjoin rss).
Proof.
  intros Hp. revert rss. induction Hp as [o o' Hs|o b o' rows Hs Hp IH]; intros rss Hrss cur pending pidx El.
  - inversion Hrss; subst. eapply produces_end. by apply Hend.
  - inversion Hrss as [|? rs ? rss' Hb Hrss']; subst. destruct Hb as [[Hb ->]|(hits & os & Hg & Hos & ->)]; cbn [mjoin list_join app].
    + eapply produces_becomes; [by eapply Hskip|]. by apply IH.
    + eapply produces_becomes; [by eapply Hgather|].
      apply (produces_hits o' b hits (mjoin rss') (length hits) 0 os); [lia|done|]. by apply IH.
Qed.
End gathering.

(** *** Expand *)
Section expand.
Context (from rel to_ : bytes) (dir : Direction) (toBound anyType : bool) (typeIDs : list Z) (toUnused relUnused : bool).

Definition expand_emits (cur : binding) (hit : edgeHit) (o : option binding) : Prop :=
  (o = None /\ evaluates s (hit_node toBound toUnused (cur !! to_) (eh_other hit)) None) \/
  exists n e, evaluates s (hit_node toBound toUnused (cur !! to_) (eh_other hit)) (Some n) /\
    evaluates s (hit_edge relUnused (eh_ref hit)) e /\ o = Some (<[rel := e]> (<[to_ := n]> cur)).
Definition expand_gathers (b : binding) (hits : list edgeHit) : Prop :=
  exists id, as_node (b !! from) = Some id /\ run (gather dir (typeFilter anyType typeIDs) id) s = (Ok hits, s).

Lemma produces_expand i rows rss :
  produces i rows -> Forall2 (gathered expand_emits expand_gathers (fun _ => False)) rows rss ->
  produces (expand i from rel to_ dir toBound anyType typeIDs toUnused relUnused ∅ [] 0) (mjoin rss).
Proof.
  intros Hp Hrss.
  apply (produces_gather (fun i => expand i from rel to_ dir toBound anyType typeIDs toUnused relUnused)
    expand_emits expand_gathers (fun _ => False)) with (rows := rows); try done; clear.
  - intros i cur pending pidx hit r El [[? ?]|(n & e & Hn & He & [= ->])]; [done|].
    fuelled. unfold expand_next. ev. rewrite El. ev.
  - intros i cur pending pidx hit El [[_ Hn]|(n & e & _ & _ & [=])].
    fuelled. unfold expand_next. ev. rewrite El. ev.
  - intros i i' cur pending pidx El Hs. fuelled. unfold expand_next, pull. ev. rewrite El. ev.
  - intros i i' cur pending pidx b hits El Hs (id & Eid & Eg). fuelled. unfold expand_next, pull. ev. rewrite El. ev.
    rewrite Eid. eapply evaluates_bind; [by apply evaluates_txn|]. ev.
Qed.
End expand.

(** *** Variable length *)
Section var_expand.
Context (from rel to_ : bytes) (dir : Direction) (anyType : bool) (typeIDs : list Z) (toBound : bool) (minHops maxHops : Z).

Definition var_blocked (cur : binding) (hit : varHit) : bool :=
  toBound && (match as_node (cur !! to_) with Some id => negb (id =? vh_toID hit) | None => false end).
Definition var_emits (cur : binding) (hit : varHit) (o : option binding) : Prop :=
  if var_blocked cur hit then o = None
  else exists n es, run (GetNode (vh_toID hit)) s = (Ok n, s) /\ run (fetchEdges (vh_edges hit)) s = (Ok es, s) /\
    o = Some (<[rel := VEdges (edge_value <$> es)]> (<[to_ := node_value n]> cur)).
Definition var_gathers (b : binding) (hits : list varHit) : Prop :=
  exists id, as_node (b !! from) = Some id /\ exists bound, forall fuel, (bound <= fuel)%nat ->
    evaluates s (bfs fuel dir (typeFilter anyType typeIDs) minHops maxHops id) hits.

Lemma produces_varExpand i rows rss :
  produces i rows -> Forall2 (gathered var_emits var_gathers (fun _ => False)) rows rss ->
  produces (varExpand i from rel to_ dir anyType typeIDs toBound minHops maxHops ∅ [] 0) (mjoin rss).
Proof.
  intros Hp Hrss.
  apply (produces_gather (fun i => varExpand i from rel to_ dir anyType typeIDs toBound minHops maxHops)
    var_emits var_gathers (fun _ => False)) with (rows := rows); try done; clear.
  - intros i cur pending pidx hit r El Hr. unfold var_emits in Hr. destruct (var_blocked cur hit) eqn:Eb; [done|].
    destruct Hr as (n & es & En & Ee & [= ->]). fuelled. unfold varExpand_next. ev. rewrite El.
    unfold var_blocked in Eb. rewrite Eb. eapply evaluates_bind; [by apply evaluates_txn|].
    eapply evaluates_bind; [by apply evaluates_txn|]. ev.
  - intros i cur pending pidx hit El Hr. unfold var_emits in Hr. destruct (var_blocked cur hit) eqn:Eb; [|by destruct Hr as (n & es & _ & _ & [=])].
    fuelled. unfold varExpand_next. ev. rewrite El. unfold var_blocked in Eb. rewrite Eb. ev.
  - intros i i' cur pending pidx El Hs. fuelled. unfold varExpand_next, pull. ev. rewrite El. ev.
  - intros i i' cur pending pidx b hits El Hs (id & Eid & n & Hb). fuelled. unfold varExpand_next, pull. ev. rewrite El. ev.
    rewrite Eid. ev.
Qed.
End var_expand.

(** *** Shortest paths *)
Section shortest.
Context (from to_ pathVar relVar : bytes) (spec : PathSpec).

Definition rels_of (p : value) : value := match p with VPath _ rs => VEdges rs | _ => VNull end.
Definition path_emits (cur : binding) (path : Path) (o : option binding) : Prop :=
  exists p, run (load path) s = (Ok p, s) /\ o = Some (bind_var relVar (rels_of p) (bind_var pathVar p cur)).
Definition path_gathers (b : binding) (paths : list Path) : Prop :=
  exists a z, as_node (b !! from) = Some a /\ as_node (b !! to_) = Some z /\
    exists bound, forall fuel, (bound <= fuel)%nat -> evaluates s (ShortestPaths fuel a z spec) paths.
Definition path_skips (b : binding) : Prop :=
  default VNull (b !! from) = VNull \/ default VNull (b !! to_) = VNull.

Lemma as_node_value (o : option value) id : as_node o = Some id -> exists ls ps, default VNull o = VNode id ls ps.
Proof. destruct o as [[]|]; cbn; intros [= <-]. by eexists _, _. Qed.

Lemma produces_shortest i rows rss :
  produces i rows -> Forall2 (gathered path_emits path_gathers path_skips) rows rss ->
  produces (shortestPathOp i from to_ pathVar relVar spec ∅ [] 0) (mjoin rss).
Proof.
  intros Hp Hrss.
  apply (produces_gather (fun i => shortestPathOp i from to_ pathVar relVar spec)
    path_emits path_gathers path_skips) with (rows := rows); try done; clear.
  - intros i cur pending pidx hit r El (p & Ep & [= ->]). fuelled. unfold shortestPath_next. ev. rewrite El.
    eapply evaluates_bind; [by apply evaluates_txn|]. ev.
  - intros i cur pending pidx hit El (p & _ & [=]).
  - intros i i' cur pending pidx El Hs. fuelled. unfold shortestPath_next, pull. ev. rewrite El. ev.
  - intros i i' cur pending pidx b hits El Hs (a & z & (la & pa & Ea)%as_node_value & (lz & pz & Ez)%as_node_value & n & Hb).
    fuelled. unfold shortestPath_next, pull. ev. rewrite El. ev. rewrite Ea, Ez. ev.
  - intros i i' cur pending pidx b El Hs Hn. fuelled. unfold shortestPath_next, pull. ev. rewrite El. ev.
    destruct Hn as [-> | Hn]; [ev|]. rewrite Hn. destruct (default VNull (b !! from)); ev.
Qed.
End shortest.

(** ** Relationship seeks *)
Lemma produces_relSeek rel from to_ dir ids rss pos :
  Forall2 (fun id rs => run (rel_rows rel from to_ dir id) s = (Ok rs, s)) (drop pos ids) rss ->
  produces (relSeek rel from to_ dir ids pos []) (mjoin rss).
Proof.
  assert (forall rows rest pos, produces (relSeek rel from to_ dir ids pos []) rest ->
    produces (relSeek rel from to_ dir ids pos rows) (rows ++ rest)) as Hrows.
  { induction rows as [|r rows IH]; intros rest p Hp; [done|]. cbn [app].
    apply produces_row with (relSeek rel from to_ dir ids p rows); [|by apply IH]. fuelled. unfold relSeek_next. ev. }
  remember (drop pos ids) as todo eqn:E. intros Hrs. revert pos E.
  induction Hrs as [|id rs todo rss Hid Hrs IH]; intros pos E.
  - assert (ids !! pos = None) as El.
    { apply lookup_ge_None. pose proof (f_equal length E) as L. rewrite length_drop in L. cbn in L. lia. }
    eapply produces_end. fuelled. unfold relSeek_next. ev. rewrite El. ev.
  - assert (ids !! pos = Some id) as El by (rewrite <- (Nat.add_0_r pos), <- lookup_drop, <- E; done).
    cbn [mjoin list_join]. apply produces_becomes with (relSeek rel from to_ dir ids (S pos) rs).
    + fuelled. unfold relSeek_next. ev. rewrite El. eapply evaluates_bind; [by apply evaluates_txn|]. ev.
    + apply Hrows, IH. by rewrite <- Nat.add_1_r, <- drop_drop, <- E.
Qed.
End laws.
End QueryLaws.
