(* ===== verification/OrderBy.v ===== *)
(** * OrderBy: when ORDER BY sorts

    The comparison of src/internal/exec/exec.go, sortOp.load, goes through the
    sort keys and lets the first that tells the rows apart decide; values that
    cannot be compared count as equal.  On rows whose values are, key by key, of
    one kind (integers, floats other than NaN, strings or booleans) this is a
    strict weak order, so the rows come out sorted. *)
From S2P Require Import Prelude Float64 FloatArith Values Ast Plan Scalars Text Keys Records Storage Catalog Graph Context Functions Eval.
From S2P Require Import Shortest Aggregate Expand Write StableSort RangeScan Tables GraphInv NodeOps NodeUpdates Traversal Lookups Ranges Ddl Operators QueryLaws.
Import Float64 Ast Scalars Text Context Functions Eval Shortest Aggregate Expand Write StableSort Operators QueryLaws.

Module OrderBy.

(** ** Comparisons by sign *)
Record weak_order {A : Type} (D : A -> Prop) (cmp : A -> A -> Z) : Prop := {
  wo_sym x y : D x -> D y -> Z.sgn (cmp y x) = - Z.sgn (cmp x y);
  wo_trans x y z : D x -> D y -> D z -> cmp x y <= 0 -> cmp y z <= 0 -> cmp x z <= 0
}.

(** The first comparison that is not zero. *)
Definition lex {A : Type} (cs : list (A -> A -> Z)) (x y : A) : Z :=
  foldr (fun c rest => if c x y =? 0 then rest else c x y) 0 cs.

Lemma lex_cons {A : Type} c cs (x y : A) : lex (c :: cs) x y = if c x y =? 0 then lex cs x y else c x y.
Proof. done. Qed.

Section weak.
Context {A : Type} (D : A -> Prop).

Lemma weak_lex cs : Forall (weak_order D) cs -> weak_order D (lex cs).
Proof.
  induction 1 as [|c cs Hc _ IH]; [by split|]. split.
  - intros x y Hx Hy. pose proof (wo_sym _ _ Hc x y Hx Hy) as S1. rewrite !lex_cons.
    destruct (Z.eqb_spec (c x y) 0), (Z.eqb_spec (c y x) 0); try lia. by apply IH.
  - intros x y z Hx Hy Hz. pose proof (wo_sym _ _ Hc x y Hx Hy) as S1. pose proof (wo_sym _ _ Hc y z Hy Hz) as S2.
    pose proof (wo_sym _ _ Hc x z Hx Hz) as S3.
    pose proof (wo_trans _ _ Hc x y z Hx Hy Hz) as T1. pose proof (wo_trans _ _ Hc y z x Hy Hz Hx) as T2.
    pose proof (wo_trans _ _ Hc z x y Hz Hx Hy) as T3. pose proof (wo_trans _ _ IH x y z Hx Hy Hz) as T4.
    rewrite !lex_cons. destruct (Z.eqb_spec (c x y) 0), (Z.eqb_spec (c y z) 0), (Z.eqb_spec (c x z) 0); lia.
Qed.

Lemma weak_flip cmp : weak_order D cmp -> weak_order D (fun x y => - cmp x y).
Proof.
  intros W. split.
  - intros x y Hx Hy. pose proof (wo_sym _ _ W x y Hx Hy). rewrite !Z.sgn_opp. lia.
  - intros x y z Hx Hy Hz. pose proof (wo_sym _ _ W x y Hx Hy). pose proof (wo_sym _ _ W y z Hy Hz).
    pose proof (wo_sym _ _ W x z Hx Hz). pose proof (wo_trans _ _ W z y x Hz Hy Hx). lia.
Qed.

Lemma weak_map {B : Type} (DB : B -> Prop) (f : A -> B) cmp : (forall x, D x -> DB (f x)) -> weak_order DB cmp ->
  weak_order D (fun x y => cmp (f x) (f y)).
Proof. intros Hf W. split; intros; [apply (wo_sym _ _ W)|eapply (wo_trans _ _ W _ (f y))]; auto. Qed.

Lemma weak_strict cmp : weak_order D cmp -> StrictWeak D (fun x y => cmp x y <? 0).
Proof.
  intros W. split.
  - intros x Hx. pose proof (wo_sym _ _ W x x Hx Hx). lia.
  - intros x y z Hx Hy Hz. pose proof (wo_trans _ _ W x y z Hx Hy Hz) as T1. pose proof (wo_trans _ _ W z x y Hz Hx Hy) as T2.
    pose proof (wo_sym _ _ W x y Hx Hy). pose proof (wo_sym _ _ W y z Hy Hz). pose proof (wo_sym _ _ W x z Hx Hz). lia.
  - intros x y z Hx Hy Hz. pose proof (wo_sym _ _ W x y Hx Hy). pose proof (wo_sym _ _ W y z Hy Hz).
    pose proof (wo_sym _ _ W x z Hx Hz). pose proof (wo_trans _ _ W z y x Hz Hy Hx). lia.
Qed.
End weak.

(** ** Values of one kind *)
Inductive kind := KInt | KFloat | KString | KBool.
Definition of_kind (k : kind) (v : value) : Prop :=
  match k, v with
  | KInt, VInt _ => True
  | KFloat, VFloat f => is_nan f = false
  | KString, VStr _ => True
  | KBool, VBool _ => True
  | _, _ => False
  end.

Definition cmp_values (v w : value) : Z := default 0 (compareValues v w).

Lemma weak_int {A : Type} (D : A -> Prop) (f : A -> Z) : weak_order D (fun x y => cmpInt64 (f x) (f y)).
Proof. split; unfold cmpInt64; intros; zcases; lia. Qed.

Lemma weak_kind k : weak_order (of_kind k) cmp_values.
Proof.
  assert (forall cmp : value -> value -> Z, weak_order (of_kind k) cmp ->
    (forall v w, of_kind k v -> of_kind k w -> cmp_values v w = cmp v w) -> weak_order (of_kind k) cmp_values) as Hext.
  { intros cmp W E. split; intros; rewrite ?E in *; auto; [by apply (wo_sym _ _ W)|by eapply (wo_trans _ _ W x y z)]. }
  destruct k.
  - apply (Hext (fun v w => cmpInt64 (match v with VInt x => x | _ => 0 end) (match w with VInt x => x | _ => 0 end))); [apply weak_int|].
    by intros [] [].
  - apply (Hext (fun v w => cmpInt64 (match v with VFloat x => fnum x | _ => 0 end) (match w with VFloat x => fnum x | _ => 0 end))); [apply weak_int|].
    intros [] [] Hv Hw; try done. cbn in *. unfold cmp_values. cbn. by apply cmpFloat64_fnum.
  - apply (Hext (fun v w => cmpString (match v with VStr x => x | _ => [] end) (match w with VStr x => x | _ => [] end))); [|by intros [] []].
    split; unfold cmpString.
    + intros v w _ _. rewrite (bcmp_antisym (match v with VStr x => x | _ => [] end)). by destruct (bcmp _ _).
    + intros u v w _ _ _. generalize (match u with VStr x => x | _ => [] end) (match v with VStr x => x | _ => [] end) (match w with VStr x => x | _ => [] end).
      intros a b c H1 H2. assert (ble a b) as Hab by (unfold ble; by destruct (bcmp a b)).
      assert (ble b c) as Hbc by (unfold ble; by destruct (bcmp b c)).
      apply ble_alt in Hab as [->|Hab]; [done|]. pose proof (blt_ble_trans a b c Hab Hbc) as Hac. unfold blt in Hac. by rewrite Hac.
  - apply (Hext (fun v w => cmpInt64 (match v with VBool true => 1 | _ => 0 end) (match w with VBool true => 1 | _ => 0 end))); [apply weak_int|].
    by intros [|[]| | | | | | | | | |] [|[]| | | | | | | | | |].
Qed.

(** ** The comparison of ORDER BY *)

(** How key [k] compares two rows; [f] gives its value in a row. *)
Definition key_cmp (k : SortKey) (f : binding -> value) (x y : binding) : Z :=
  if sk_Desc k then - cmp_values (f x) (f y) else cmp_values (f x) (f y).
Definition precedes (keys : list SortKey) (fs : list (binding -> value)) (x y : binding) : bool :=
  lex (zip_with key_cmp keys fs) x y <? 0.

Section order.
Context `{Runtime} (s : store) (ins : list binding).

(** [f] gives the values of a key, all of one kind. *)
Definition keyed (k : SortKey) (f : binding -> value) : Prop :=
  (forall b, b ∈ ins -> evaluates s (sortValue b (sk_Expr k)) (f b)) /\
  exists kd, forall b, b ∈ ins -> of_kind kd (f b).

Lemma sort_less_precedes keys fs x y : Forall2 keyed keys fs -> x ∈ ins -> y ∈ ins ->
  evaluates s (sort_less keys x y) (precedes keys fs x y).
Proof.
  intros Hk Hx Hy. unfold precedes. induction Hk as [|k f keys fs [Hf _] _ IH]; [apply evaluates_ret|].
  cbn [zip_with]. rewrite lex_cons. cbn [sort_less].
  eapply evaluates_bind; [by apply Hf|]. eapply evaluates_bind; [by apply Hf|]. 
  assert (key_cmp k f x y = let c := default 0 (compareValues (f x) (f y)) in if sk_Desc k then - c else c) as -> by done.
  destruct (compareValues (f x) (f y)) as [c|]; cbn [from_option id]; [|by destruct (sk_Desc k)].
  destruct (sk_Desc k), (Z.eqb_spec c 0) as [->|Hn]; unfold id; cbv zeta; try exact IH.
  - rewrite (proj2 (Z.eqb_neq (- c) 0)) by lia. replace (- c <? 0) with (0 <? c) by lia. apply evaluates_ret.
  - apply evaluates_ret.
Qed.

Lemma precedes_weak keys fs : Forall2 keyed keys fs -> StrictWeak (fun b => b ∈ ins) (precedes keys fs).
Proof.
  intros Hk. apply weak_strict, weak_lex. induction Hk as [|k f keys fs [_ [kd Hkd]] _ IH]; constructor; [|done].
  pose proof (weak_map (fun b => b ∈ ins) (of_kind kd) f cmp_values Hkd (weak_kind kd)) as W.
  unfold key_cmp. destruct (sk_Desc k); [by apply weak_flip|done].
Qed.

Lemma sort_exists keys fs : Forall2 keyed keys fs -> exists rows,
  evaluates s (SliceStable (sort_less keys) ins) rows /\ stable_sort (fun b => b ∈ ins) (precedes keys fs) ins rows.
Proof.
  intros Hk. pose proof (precedes_weak keys fs Hk) as Hw.
  destruct (SliceStable_evaluates (sort_less keys) s (fun b => b ∈ ins) (precedes keys fs)
    (fun x y => sort_less_precedes keys fs x y Hk) ins) as (out & Ho & Hs); [by apply Forall_forall|by exists out].
Qed.
End order.
End OrderBy.
