(* ===== verification/Grouping.v ===== *)
(** * Grouping: what aggregation computes

    The loading loop of src/internal/exec/aggregate.go keeps a map of groups and
    updates their accumulators row by row.  Here it is shown to be the group-by
    one would write down: one group per distinct key, in the order of the keys'
    first rows, whose accumulators are the folds of the group's rows; and the
    folds are the counts, sums, lists and extrema of the values. *)
From S2P Require Import Prelude Float64 FloatArith Values Ast Plan Scalars Text Keys Records Storage Catalog Graph Context Functions Eval.
From S2P Require Import Shortest Aggregate Expand Write StableSort RangeScan Tables GraphInv NodeOps NodeUpdates Traversal Lookups Ranges Ddl Operators QueryLaws OrderBy.
Import Float64 Ast Scalars Text Context Functions Eval Shortest Aggregate Expand Write StableSort Operators QueryLaws OrderBy.

Module Grouping.

(** ** The reference *)

(** One value into an accumulator; [count( * )] takes rows, not values. *)
Definition feed `{Runtime} (sp : aggSpec) (r : res accumulator) (v : value) : res accumulator :=
  a ← r; if as_star sp then Ok (with_count (ac_count a + 1) a) else absorb sp v a.
Definition accumulated `{Runtime} (sp : aggSpec) (vs : list value) : res accumulator := foldl (feed sp) (Ok (newAccumulator sp)) vs.

(** The distinct elements of a list, in the order of their first occurrence. *)
Definition firsts {A : Type} `{EqDecision A} (l : list A) : list A :=
  foldl (fun acc x => if bool_decide (x ∈ acc) then acc else acc ++ [x]) [] l.

Section reference.
Context `{Runtime} (gk : list ProjItem) (specs : list aggSpec).
Context (kv : binding -> list value) (fs : list (binding -> value)).

Definition row_key (b : binding) : bytes := canonKeyList (kv b).
Definition members (k : bytes) (rows : list binding) : list binding := filter (fun b => row_key b = k) rows.
Definition group_keys (rows : list binding) : list bytes :=
  match gk with [] => [ [] ] | _ => firsts (row_key <$> rows) end.

(** The group of key [k]: the key values of its first row, and the folds. *)
Definition group_accs (rows : list binding) (accs : list accumulator) : Prop :=
  Forall2 (fun (spf : aggSpec * (binding -> value)) a => accumulated spf.1 (spf.2 <$> rows) = Ok a) (zip specs fs) accs.
Definition group_at (k : bytes) (rows : list binding) (g : group) : Prop :=
  g_keys g = default [] (kv <$> head (members k rows)) /\ group_accs (members k rows) (g_accs g).

(** ** The loop *)
Context (s : store).
Hypothesis Hlen : length specs = length fs.

(** What the expressions of a row evaluate to. *)
Definition computes (b : binding) : Prop :=
  Forall2 (fun k v => evaluates s (eval (pi_Expr k) b) v) gk (kv b) /\
  Forall2 (fun sp f => as_star sp = false -> exists e, as_arg sp = Some e /\ evaluates s (eval e b) (f b)) specs fs.

(** The state of the loop after [rows]. *)
Definition grouped (rows : list binding) (gs : groups) : Prop :=
  gs_order gs = group_keys rows /\
  forall k, match gs_map gs !! k with
            | Some g => k ∈ group_keys rows /\ group_at k rows g
            | None => k ∉ group_keys rows
            end.

Lemma accumulated_snoc sp vs v : accumulated sp (vs ++ [v]) = feed sp (accumulated sp vs) v.
Proof. apply foldl_snoc. Qed.

Lemma firsts_snoc {A : Type} `{EqDecision A} (l : list A) x :
  firsts (l ++ [x]) = if bool_decide (x ∈ firsts l) then firsts l else firsts l ++ [x].
Proof. unfold firsts. by rewrite foldl_snoc. Qed.

Lemma elem_of_firsts {A : Type} `{EqDecision A} (l : list A) x : x ∈ firsts l <-> x ∈ l.
Proof.
  induction l as [|y l IH] using rev_ind; [done|]. rewrite firsts_snoc, elem_of_app, list_elem_of_singleton.
  case_bool_decide as Hx; rewrite ?elem_of_app, ?list_elem_of_singleton, ?IH in *; naive_solver.
Qed.

Lemma members_snoc k rows b : members k (rows ++ [b]) = members k rows ++ (if decide (row_key b = k) then [b] else []).
Proof. unfold members. rewrite filter_app. done. Qed.

Lemma members_nil k rows : members k rows = [] <-> k ∉ row_key <$> rows.
Proof.
  unfold members. split.
  - intros E (b & -> & Hb)%list_elem_of_fmap. assert (b ∈ filter (fun x => row_key x = row_key b) rows) as Hf by (by apply list_elem_of_filter).
    rewrite E in Hf. by apply elem_of_nil in Hf.
  - intros Hk. destruct (filter _ rows) as [|b l] eqn:E; [done|]. destruct Hk.
    assert (b ∈ filter (fun x => row_key x = k) rows) as [<- Hb]%list_elem_of_filter by (rewrite E; left).
    by apply list_elem_of_fmap_2.
Qed.

(** A fold that succeeds on more rows has succeeded on fewer. *)
Lemma group_accs_snoc ms b accs' : computes b -> group_accs (ms ++ [b]) accs' ->
  exists accs, group_accs ms accs /\ evaluates s (add_all b specs accs) accs'.
Proof.
  intros [_ Hc]. unfold group_accs. clear Hlen. revert accs'. induction Hc as [|sp f sps gs Hf _ IH]; intros accs' E; cbn [zip_with] in E.
  { inversion E; subst. exists []. split; [constructor|apply evaluates_ret]. }
  inversion E as [|? a' ? as' Ea Eas]; subst. cbn in Ea. destruct (IH _ Eas) as (accs & Haccs & Hadd).
  rewrite fmap_app in Ea. cbn [fmap list_fmap] in Ea. rewrite accumulated_snoc in Ea.
  destruct (accumulated sp (f <$> ms)) as [a|] eqn:Ea0; [|done].
  exists (a :: accs). split; [by constructor|]. cbn [add_all]. eapply evaluates_bind; [|eapply evaluates_bind; [exact Hadd|apply evaluates_ret]].
  unfold add. cbn in Ea. destruct (as_star sp) eqn:Es; [injection Ea as <-; apply evaluates_ret|].
  destruct (Hf eq_refl) as (e & -> & He). eapply evaluates_bind; [exact He|]. rewrite Ea. apply evaluates_ret.
Qed.

Lemma group_accs_nil : group_accs [] (newAccumulators specs).
Proof.
  unfold group_accs, newAccumulators. clear -Hlen. revert fs Hlen. induction specs as [|sp sps IH]; intros [|f gs] Hl; try done.
  constructor; [done|]. apply IH. by injection Hl.
Qed.

Lemma group_accs_unique ms a1 a2 : group_accs ms a1 -> group_accs ms a2 -> a1 = a2.
Proof.
  unfold group_accs. intros H1. revert a2. induction H1 as [|x a l as1 Ha _ IH]; intros a2 H2; inversion H2 as [|? a' ? as' Ha']; subst; [done|].
  rewrite Ha in Ha'. injection Ha' as ->. f_equal. auto.
Qed.

Lemma group_keys_snoc rows b : computes b ->
  group_keys (rows ++ [b]) = if bool_decide (row_key b ∈ group_keys rows) then group_keys rows else group_keys rows ++ [row_key b].
Proof.
  intros [Hk _]. unfold group_keys. destruct gk as [|g gk']; [|by rewrite fmap_app; apply (firsts_snoc (row_key <$> rows) (row_key b))].
  unfold row_key. inversion Hk. by rewrite bool_decide_true by (by left).
Qed.

(** Only the one group of an aggregation without keys can be there before its rows. *)
Lemma no_members k rows : k ∈ group_keys rows -> members k rows = [] -> gk = [].
Proof. unfold group_keys. destruct gk; [done|]. intros Hk Hm. by destruct (proj1 (members_nil k rows) Hm (proj1 (elem_of_firsts _ k) Hk)). Qed.
Lemma new_key b rows : computes b -> row_key b ∉ group_keys rows -> members (row_key b) rows = [].
Proof.
  intros [Hk _] Hn. apply members_nil. unfold group_keys in Hn. destruct gk; [|by rewrite elem_of_firsts in Hn].
  destruct Hn. unfold row_key. inversion Hk. by left.
Qed.

Lemma place_grouped rows gs b accs' : grouped rows gs -> computes b -> group_accs (members (row_key b) (rows ++ [b])) accs' ->
  exists gs', evaluates s (place gk specs gs b) gs' /\ grouped (rows ++ [b]) gs'.
Proof.
  intros [Ho Hm] Hc Ha. pose proof Hc as [Hk _]. set (k0 := row_key b) in *.
  rewrite members_snoc in Ha. destruct (decide (row_key b = k0)) as [_|]; [|done].
  destruct (group_accs_snoc _ _ _ Hc Ha) as (accs & Haccs & Hadd).
  set (g := default (mkGroup (kv b) (newAccumulators specs)) (gs_map gs !! k0)).
  assert (g_accs g = accs /\ g_keys g = default [] (kv <$> head (members k0 rows ++ [b]))) as [Eg Ek].
  { unfold g. specialize (Hm k0). destruct (gs_map gs !! k0) as [g0|]; cbn.
    - destruct Hm as (Hin & Hg & Hga). split; [by eapply group_accs_unique|]. rewrite Hg.
      destruct (members k0 rows) eqn:Em; [|done]. cbn. apply no_members in Em; [|done]. rewrite Em in Hk. by inversion Hk.
    - pose proof (new_key b rows Hc Hm) as En. fold k0 in En. rewrite En in Haccs |- *. split; [|done]. eapply group_accs_unique; [apply group_accs_nil|done]. }
  exists (mkGroups (<[k0 := mkGroup (g_keys g) accs']> (gs_map gs)) (group_keys (rows ++ [b]))). split.
  - unfold place. eapply evaluates_bind; [by apply evaluates_mapM|]. cbv zeta. fold (row_key b). fold k0.
    pose proof (group_keys_snoc rows b Hc) as Es. fold k0 in Es. specialize (Hm k0). subst accs. unfold g in *. rewrite Es.
    destruct (gs_map gs !! k0) as [g0|]; cbn in *.
    + eapply evaluates_bind; [exact Hadd|]. rewrite Ho, bool_decide_true by apply Hm. apply evaluates_ret.
    + eapply evaluates_bind; [exact Hadd|]. rewrite Ho, bool_decide_false by apply Hm. apply evaluates_ret.
  - split; [done|]. intros k. cbn. pose proof (group_keys_snoc rows b Hc) as Es. fold k0 in Es.
    assert (forall x, x ∈ group_keys (rows ++ [b]) <-> x ∈ group_keys rows \/ x = k0) as Hin.
    { intros x. rewrite Es. case_bool_decide; rewrite ?elem_of_app, ?list_elem_of_singleton; [|done]. naive_solver. }
    destruct (decide (k0 = k)) as [<-|Hne].
    + rewrite lookup_insert_eq. split; [apply Hin; by right|]. unfold group_at. rewrite members_snoc.
      destruct (decide (row_key b = k0)) as [_|]; [|done]. by split.
    + rewrite lookup_insert_ne by done. specialize (Hm k). unfold group_at in *. rewrite members_snoc.
      destruct (decide (row_key b = k)) as [|_]; [done|]. rewrite app_nil_r.
      destruct (gs_map gs !! k); rewrite Hin; naive_solver.
Qed.

Lemma grouped_empty : grouped [] (empty_groups gk specs).
Proof.
  unfold grouped, group_keys, empty_groups. destruct gk; (split; [done|]); intros k; cbn; [|by apply not_elem_of_nil].
  destruct (decide (k = [])) as [->|Hne].
  - rewrite lookup_singleton_eq. split; [by left|]. split; [done|]. apply group_accs_nil.
  - rewrite lookup_singleton_ne by done. by rewrite list_elem_of_singleton.
Qed.

Lemma group_accs_prefix ms1 ms2 accs : group_accs (ms1 ++ ms2) accs -> exists accs1, group_accs ms1 accs1.
Proof.
  unfold group_accs. revert accs. induction (zip specs fs) as [|[sp f] l IH]; intros accs Ha; inversion Ha as [|? a ? as' E Eas]; subst.
  { by exists []. }
  destruct (IH _ Eas) as [as1 H1]. cbn in E. rewrite fmap_app in E. unfold accumulated in E. rewrite foldl_app in E.
  destruct (foldl (feed sp) (Ok (newAccumulator sp)) (f <$> ms1)) as [a1|e] eqn:E1.
  - exists (a1 :: as1). by constructor.
  - exfalso. clear -E. induction ms2; [done|]. by apply IHms2.
Qed.

Lemma places_grouped rest rows gs : Forall computes rest -> grouped rows gs ->
  (forall k, exists accs, group_accs (members k (rows ++ rest)) accs) ->
  exists gs', places s gk specs gs rest gs' /\ grouped (rows ++ rest) gs'.
Proof.
  intros Hc. revert rows gs. induction Hc as [|b rest Hb _ IH]; intros rows gs Hg Ha.
  { exists gs. rewrite app_nil_r. split; [constructor|done]. }
  assert (rows ++ b :: rest = (rows ++ [b]) ++ rest) as E by (by rewrite <- app_assoc). rewrite E in *.
  destruct (Ha (row_key b)) as [accs Hk]. unfold members in Hk. rewrite filter_app in Hk. apply group_accs_prefix in Hk as [accs1 Hk].
  destruct (place_grouped rows gs b accs1 Hg Hb Hk) as (gs1 & Hp & Hg1). destruct (IH _ _ Hg1 Ha) as (gs' & Hps & Hg').
  exists gs'. split; [by econstructor|done].
Qed.

(** The groups of the rows, in order. *)
Definition group_list (rows : list binding) (groups : list group) : Prop :=
  Forall2 (fun k g => group_at k rows g) (group_keys rows) groups.

Lemma grouped_list rows gs : grouped rows gs -> group_list rows (omap (fun k => gs_map gs !! k) (gs_order gs)).
Proof.
  intros [-> Hm]. unfold group_list.
  assert (forall keys, (forall k, k ∈ keys -> k ∈ group_keys rows) ->
    Forall2 (fun k g => group_at k rows g) keys (omap (fun k => gs_map gs !! k) keys)) as Hall; [|by apply Hall].
  induction keys as [|k keys IH]; intros Hin; cbn [omap list_omap]; [constructor|].
  pose proof (Hm k) as Hk. destruct (gs_map gs !! k) as [g|]; [|destruct Hk; apply Hin; by left].
  constructor; [apply Hk|]. apply IH. intros k' Hk'. apply Hin. by right.
Qed.

(** The groups the loop ends with. *)
Lemma grouping rows : Forall computes rows -> (forall k, exists accs, group_accs (members k rows) accs) ->
  exists gs, places s gk specs (empty_groups gk specs) rows gs /\
    group_list rows (omap (fun k => gs_map gs !! k) (gs_order gs)).
Proof.
  intros Hc Ha. destruct (places_grouped rows [] _ Hc grouped_empty Ha) as (gs & Hp & Hg).
  exists gs. split; [done|]. by apply grouped_list.
Qed.
End reference.

(** ** What the accumulators hold *)
Definition present (vs : list value) : list value := filter (fun v => v <> VNull) vs.
Definition zsum (zs : list Z) : Z := foldr Z.add 0 zs.

Section folds.
Context `{Runtime}.
Definition plain (kind : aggKind) (e : Expr) : aggSpec := mkAggSpec kind (Some e) false false.
Definition added (kind : aggKind) (r : res accumulator) (v : value) : res accumulator := a ← r; add_value kind v a.

Lemma present_snoc vs v : present (vs ++ [v]) = present vs ++ (if decide (v <> VNull) then [v] else []).
Proof. unfold present. by rewrite filter_app. Qed.

Lemma present_not_null vs : Forall (fun v => v <> VNull) (present vs).
Proof. apply Forall_forall. by intros v [Hv _]%list_elem_of_filter. Qed.

(** Nulls are left out. *)
Lemma accumulated_plain kind e vs :
  accumulated (plain kind e) vs = foldl (added kind) (Ok (newAccumulator (plain kind e))) (present vs).
Proof.
  induction vs as [|v vs IH] using rev_ind; [done|]. unfold accumulated in *. rewrite foldl_snoc, IH, present_snoc, foldl_app. cbn.
  by destruct (foldl _ _ (present vs)) as [a|]; destruct v; cbn; rewrite ?decide_True by done.
Qed.

Lemma count_is e vs : exists a, accumulated (plain aggCount e) vs = Ok a /\ result aggCount a = VInt (len (present vs)).
Proof.
  rewrite accumulated_plain. induction (present vs) as [|v l (a & Ea & Er)] using rev_ind; [by eexists|].
  rewrite foldl_snoc, Ea. eexists. split; [done|]. cbn in *. injection Er as ->. unfold len. rewrite length_app. cbn. f_equal. lia.
Qed.

Lemma collect_is e vs : exists a, accumulated (plain aggCollect e) vs = Ok a /\ result aggCollect a = VList (present vs).
Proof.
  rewrite accumulated_plain. induction (present vs) as [|v l (a & Ea & Er)] using rev_ind; [by eexists|].
  rewrite foldl_snoc, Ea. eexists. split; [done|]. cbn in *. by injection Er as ->.
Qed.

(** Rows are counted whatever they hold. *)
Lemma count_star_is vs (sp : aggSpec) : as_star sp = true ->
  exists a, accumulated sp vs = Ok a /\ result aggCount a = VInt (len vs).
Proof.
  intros Hs. unfold accumulated. induction vs as [|v l (a & Ea & Er)] using rev_ind; [by eexists|].
  rewrite foldl_snoc, Ea. unfold feed. cbn [mbind res_bind]. rewrite Hs. eexists. split; [done|]. cbn in *. injection Er as ->.
  unfold len. rewrite length_app. cbn. f_equal. lia.
Qed.

(** Sums of integers: exact, or an overflow as soon as a prefix overflows. *)
Lemma zsum_snoc zs z : zsum (zs ++ [z]) = zsum zs + z.
Proof. unfold zsum. induction zs as [|x zs IH]; cbn; [lia|]. rewrite IH. lia. Qed.

Definition fits (zs : list Z) : Prop := forall n, i64 (zsum (take n zs)).

Lemma sum_is e vs zs : present vs = VInt <$> zs -> Forall i64 zs ->
  (exists a, accumulated (plain aggSum e) vs = Ok a /\ result aggSum a = VInt (zsum zs) /\ fits zs) \/
  (accumulated (plain aggSum e) vs = Err ErrIntegerOverflow /\ ~ fits zs).
Proof.
  rewrite accumulated_plain. intros ->. induction zs as [|z zs IH] using rev_ind; intros Hz.
  { left. eexists. split_and!; [done|done|]. intros n. rewrite take_nil. done. }
  apply Forall_app in Hz as [Hzs Hz]. inversion Hz as [|? ? Hz1 _]; subst. rewrite fmap_app. cbn [fmap list_fmap]. rewrite foldl_snoc, zsum_snoc.
  destruct (IH Hzs) as [(a & Ea & Er & Hf)|[Ea Hf]]; rewrite Ea.
  2: { right. split; [done|]. intros Hall. apply Hf. intros n. destruct (decide (n <= length zs)%nat).
       - specialize (Hall n). by rewrite take_app_le in Hall.
       - rewrite take_ge by lia. specialize (Hall (length zs)). by rewrite take_app_length in Hall. }
  cbn in Er |- *. destruct (ac_isInt a) eqn:Ei; [|done]. injection Er as Es.
  pose proof (Hf (length zs)) as Hs. rewrite take_ge in Hs by done. rewrite Es, addInt_exact by done. unfold exact.
  destruct (decide (i64 (zsum zs + z))) as [Hin|Hout].
  - left. eexists. split_and!; [done|cbn; by rewrite Ei|]. intros n. destruct (decide (n <= length zs)%nat).
    + by rewrite take_app_le.
    + rewrite take_ge, zsum_snoc by (rewrite length_app; cbn; lia). done.
  - right. split; [done|]. intros Hall. specialize (Hall (S (length zs))). rewrite take_ge, zsum_snoc in Hall by (rewrite length_app; cbn; lia). done.
Qed.

(** The least and the greatest value of a column of one kind. *)
Definition extremum (sign : Z) (vs : list value) (m : value) : Prop :=
  (present vs = [] /\ m = VNull) \/ (m ∈ present vs /\ forall v, v ∈ present vs -> sign * cmp_values m v <= 0).

Lemma of_kind_compare k v w : of_kind k v -> of_kind k w -> exists c, compareValues v w = Some c /\ cmp_values v w = c.
Proof. unfold cmp_values. destruct k, v, w; try done; intros _ _; by eexists. Qed.

Lemma of_kind_not_null k v : of_kind k v -> v <> VNull.
Proof. by destruct k, v. Qed.

(** A better value replaces the extremum of the ones before it. *)
Lemma extremum_snoc k sign l v m : (sign = 1 \/ sign = -1) -> Forall (of_kind k) (l ++ [v]) -> m ∈ l ->
  (forall w, w ∈ l -> sign * cmp_values m w <= 0) ->
  let m' := if sign * cmp_values v m <? 0 then v else m in
  m' ∈ l ++ [v] /\ forall w, w ∈ l ++ [v] -> sign * cmp_values m' w <= 0.
Proof.
  intros Hsign Hk Hm Hle. rewrite Forall_forall in Hk.
  assert (forall x, x ∈ l -> of_kind k x) as Hl by (intros x Hx; apply Hk, elem_of_app; by left).
  assert (of_kind k v) as Hv by (apply Hk, elem_of_app; right; by left). pose proof (weak_kind k) as W.
  pose proof (wo_sym _ _ W v v Hv Hv) as Svv. pose proof (wo_sym _ _ W v m Hv (Hl m Hm)) as Svm.
  destruct (Z.ltb_spec (sign * cmp_values v m) 0) as [Hlt|Hge]; cbn; (split; [rewrite elem_of_app; (by left) || (right; by left)|]);
    intros w [Hw|Hw]%elem_of_app; try (apply list_elem_of_singleton in Hw; subst w).
  - specialize (Hle w Hw). pose proof (wo_trans _ _ W v m w Hv (Hl m Hm) (Hl w Hw)). pose proof (wo_trans _ _ W w m v (Hl w Hw) (Hl m Hm) Hv).
    pose proof (wo_sym _ _ W m w (Hl m Hm) (Hl w Hw)). pose proof (wo_sym _ _ W v w Hv (Hl w Hw)). destruct Hsign as [-> | ->]; lia.
  - lia.
  - by apply Hle.
  - destruct Hsign as [-> | ->]; lia.
Qed.

Lemma min_is k e vs : Forall (of_kind k) (present vs) ->
  exists a, accumulated (plain aggMin e) vs = Ok a /\ extremum 1 vs (result aggMin a).
Proof.
  rewrite accumulated_plain. unfold extremum. induction (present vs) as [|v l IH] using rev_ind; intros Hk; [eexists; by auto|].
  pose proof Hk as [Hl Hv]%Forall_app. inversion Hv as [|? ? Hv1 _]; subst. destruct (IH Hl) as (a & Ea & Ha). rewrite foldl_snoc, Ea.
  cbn in Ha |- *. destruct Ha as [[-> ->]|[Hm Hle]].
  { exists (with_min v a). split; [done|]. right. cbn. split; [by left|]. intros w ->%list_elem_of_singleton.
    pose proof (wo_sym _ _ (weak_kind k) v v Hv1 Hv1). lia. }
  pose proof (extremum_snoc k 1 l v (ac_minVal a) ltac:(auto) Hk Hm Hle) as Hx. cbv zeta in Hx.
  rewrite Forall_forall in Hl. destruct (of_kind_compare k v (ac_minVal a) Hv1 (Hl _ Hm)) as (c & Ec & Ev). rewrite Ev in Hx.
  exists (if c <? 0 then with_min v a else a). split; [|right; replace (1 * c) with c in Hx by lia; by destruct (c <? 0)].
  pose proof (of_kind_not_null k _ (Hl _ Hm)) as Hn. revert Ec Hn. destruct (ac_minVal a); intros Ec Hn; try done; rewrite Ec; by destruct (c <? 0).
Qed.

Lemma max_is k e vs : Forall (of_kind k) (present vs) ->
  exists a, accumulated (plain aggMax e) vs = Ok a /\ extremum (-1) vs (result aggMax a).
Proof.
  rewrite accumulated_plain. unfold extremum. induction (present vs) as [|v l IH] using rev_ind; intros Hk; [eexists; by auto|].
  pose proof Hk as [Hl Hv]%Forall_app. inversion Hv as [|? ? Hv1 _]; subst. destruct (IH Hl) as (a & Ea & Ha). rewrite foldl_snoc, Ea.
  cbn in Ha |- *. destruct Ha as [[-> ->]|[Hm Hle]].
  { exists (with_max v a). split; [done|]. right. cbn. split; [by left|]. intros w ->%list_elem_of_singleton.
    pose proof (wo_sym _ _ (weak_kind k) v v Hv1 Hv1). lia. }
  pose proof (extremum_snoc k (-1) l v (ac_maxVal a) ltac:(auto) Hk Hm Hle) as Hx. cbv zeta in Hx.
  rewrite Forall_forall in Hl. destruct (of_kind_compare k v (ac_maxVal a) Hv1 (Hl _ Hm)) as (c & Ec & Ev). rewrite Ev in Hx.
  exists (if 0 <? c then with_max v a else a). split; [|right; replace (-1 * c <? 0) with (0 <? c) in Hx by lia; by destruct (0 <? c)].
  pose proof (of_kind_not_null k _ (Hl _ Hm)) as Hn. revert Ec Hn. destruct (ac_maxVal a); intros Ec Hn; try done; rewrite Ec; by destruct (0 <? c).
Qed.

(** DISTINCT: the first value of each key is taken. *)
Definition forget (a : accumulator) : accumulator :=
  mkAcc (ac_count a) (ac_sum a) (ac_intSum a) (ac_isInt a) (ac_minVal a) (ac_maxVal a) (ac_list a) ∅.

Lemma add_value_forget kind v a : add_value kind v (forget a) = forget <$> add_value kind v a.
Proof.
  destruct kind; cbn; try done.
  - destruct v; try done; destruct (ac_isInt a); try done. by destruct (addInt _ _).
  - by destruct (toFloat v).
  - destruct (ac_minVal a); try done; (destruct (compareValues v _) as [c|]; [|done]); by destruct (c <? 0).
  - destruct (ac_maxVal a); try done; (destruct (compareValues v _) as [c|]; [|done]); by destruct (0 <? c).
Qed.

Lemma add_value_seen kind v a a' : add_value kind v a = Ok a' -> ac_seen a' = ac_seen a.
Proof.
  destruct kind; cbn; try (intros [= <-]; done).
  - destruct v; try done; destruct (ac_isInt a); try (intros [= <-]; done). by destruct (addInt _ _); intros [= <-].
  - by destruct (toFloat v); intros [= <-].
  - destruct (ac_minVal a); try (intros [= <-]; done); (destruct (compareValues v _) as [c|]; [|by intros [= <-]]); by destruct (c <? 0); intros [= <-].
  - destruct (ac_maxVal a); try (intros [= <-]; done); (destruct (compareValues v _) as [c|]; [|by intros [= <-]]); by destruct (0 <? c); intros [= <-].
Qed.

Lemma feed_err sp err vs : foldl (feed sp) (Err err) vs = Err err.
Proof. by induction vs. Qed.
Lemma added_err kind err vs : foldl (added kind) (Err err) vs = Err err.
Proof. by induction vs. Qed.

Lemma distinct_fold kind e vs a :
  forget <$> foldl (feed (mkAggSpec kind (Some e) false true)) (Ok a) vs =
  foldl (added kind) (Ok (forget a)) (dedup canonKey (ac_seen a) (present vs)).
Proof.
  revert a. induction vs as [|v vs IH]; intros a; [done|]. unfold present. rewrite filter_cons. fold (present vs). cbn [foldl].
  destruct (decide (v <> VNull)) as [Hv|Hv].
  2: { destruct v; try (by destruct Hv). apply IH. }
  cbn [dedup]. assert (feed (mkAggSpec kind (Some e) false true) (Ok a) v =
    if bool_decide (canonKey v ∈ ac_seen a) then Ok a else add_value kind v (with_seen (canonKey v) a)) as -> by (by destruct v).
  case_bool_decide; [apply IH|]. cbn [foldl]. change (added kind (Ok (forget a)) v) with (add_value kind v (forget (with_seen (canonKey v) a))).
  rewrite add_value_forget. destruct (add_value kind v (with_seen (canonKey v) a)) as [a'|err] eqn:Ea.
  - rewrite IH. by rewrite (add_value_seen _ _ _ _ Ea).
  - by rewrite feed_err; cbn; rewrite added_err.
Qed.

Lemma distinct_is kind e vs :
  result kind <$> accumulated (mkAggSpec kind (Some e) false true) vs =
  result kind <$> accumulated (plain kind e) (dedup canonKey ∅ (present vs)).
Proof.
  assert (forall r : res accumulator, result kind <$> r = result kind <$> (forget <$> r)) as Hf by (by intros []; destruct kind).
  rewrite Hf. unfold accumulated at 1. rewrite distinct_fold, accumulated_plain. do 3 f_equal. cbn [ac_seen newAccumulator].
  assert (forall seen l, Forall (fun v => v <> VNull) l -> present (dedup canonKey seen l) = dedup canonKey seen l) as Hd.
  { intros seen l Hl. revert seen. induction Hl as [|v l Hv _ IH]; intros seen; [done|]. cbn [dedup]. case_bool_decide; [apply IH|].
    unfold present. rewrite filter_cons, decide_True by done. by rewrite <- (IH ({[ canonKey v ]} ∪ seen)) at 2. }
  symmetry. apply Hd, present_not_null.
Qed.
End folds.
End Grouping.
