(* ===== verification/EdgeOps.v ===== *)
(** * EdgeOps: the operations on edges preserve the invariant

    CreateEdge, DeleteEdge and DetachDeleteNode of src/internal/graph/crud.go
    and the relationship index entries of relindex.go. *)
From S2P Require Import Prelude Float64 Values IndexCodec Keys Records Storage Catalog Graph Tables GraphInv NodeOps NodeUpdates Traversal.

(** ** Relationship index entries *)
Lemma rel_cells t k e (o : option value) T :
  (forall v, rent T (t, k, e) = Some v -> o = Some v \/ o = None) ->
  forall sk x, skey_ok sk -> (forall v, rent T (t, k, e) = Some v \/ o = Some v -> sk <> KRel t k v e) ->
  cell T sk x -> cell (set_rent (<[(t, k, e) := o]> (rent T)) T) sk x.
Proof.
  intros Ho sk x Hok Hne Hc. destruct sk; try exact Hc. cbn in Hc |- *. rewrite Hc. f_equal. apply bool_decide_ext.
  destruct (decide ((typ, key, edge) = (t, k, e))) as [E|E]; [|by rewrite fn_lookup_insert_ne].
  injection E as -> -> ->. rewrite fn_lookup_insert. split; intros [? Hv]; exfalso; eapply Hne; eauto.
Qed.

(** An unregistered index has no keys, whatever its entries are. *)
Lemma rel_cells_unregistered t k e (o : option value) T :
  relindex T (t, k) = None ->
  forall sk x, skey_ok sk -> cell T sk x -> cell (set_rent (<[(t, k, e) := o]> (rent T)) T) sk x.
Proof.
  intros Hno sk x Hok Hc. destruct sk; try exact Hc. cbn in Hc |- *. rewrite Hc. f_equal. apply bool_decide_ext.
  destruct (decide ((typ, key, edge) = (t, k, e))) as [E|E]; [|by rewrite fn_lookup_insert_ne].
  injection E as -> -> ->. rewrite Hno. split; by intros [[? ?] _].
Qed.

Definition put_rent (T : tables) (t k : Z) (v : value) (e : Z) : tables :=
  if isIndexable v then set_rent (<[(t, k, e) := Some v]> (rent T)) T else T.
Definition del_rent (T : tables) (t k : Z) (v : value) (e : Z) : tables :=
  if isIndexable v then set_rent (<[(t, k, e) := None]> (rent T)) T else T.

Section rel_entries.
Context (t k : Z) (v : value) (e : Z) (T : tables) (Q : res unit -> tables -> Prop).
Context (Ht : u32 t) (Hk : u32 k) (He : u64 e) (Hv : value_ok v).
Context (Hent : rent T (t, k, e) = None \/ rent T (t, k, e) = Some v).

Lemma wp_putRelPropEntry : Q (Ok tt) (put_rent T t k v e) -> wp (putRelPropEntry t k v e) T Q.
Proof.
  intros HQ. unfold putRelPropEntry, put_rent in *. destruct (isIndexable v) eqn:Ei; cbn [negb]; [|by apply wp_ret].
  apply wp_bind, wp_HasRelIndex; [done|done|]. cbn [on_ok].
  destruct (relindex T (t, k)) as [nm|] eqn:Ex; cbn [has negb].
  - rewrite RelPropKey_key by done. apply wp_bind, wp_ret. cbn [on_ok].
    assert (value_key_ok v) as Hkv by (by apply indexable_key_ok).
    eapply (wp_Set _ (KRel t k v e)); [done| | |exact HQ].
    + cbn. rewrite fn_lookup_insert, bool_decide_true; [done|]. split; [by rewrite Ex|done].
    + intros sk o Hok Hne Hc. apply rel_cells; try done.
      * intros w Hw. left. destruct Hent; congruence.
      * intros w [Hw|[= <-]]; [|done]. destruct Hent; congruence.
  - eapply wp_view; [by apply rel_cells_unregistered|]. by apply wp_ret.
Qed.

Lemma wp_delRelPropEntry : Q (Ok tt) (del_rent T t k v e) -> wp (delRelPropEntry t k v e) T Q.
Proof.
  intros HQ. unfold delRelPropEntry, del_rent in *. destruct (isIndexable v) eqn:Ei; cbn [negb]; [|by apply wp_ret].
  apply wp_bind, wp_HasRelIndex; [done|done|]. cbn [on_ok].
  destruct (relindex T (t, k)) as [nm|] eqn:Ex; cbn [has negb].
  - rewrite RelPropKey_key by done. apply wp_bind, wp_ret. cbn [on_ok].
    assert (value_key_ok v) as Hkv by (by apply indexable_key_ok).
    eapply (wp_Delete _ (KRel t k v e)); [done| | |exact HQ].
    + cbn. rewrite fn_lookup_insert, bool_decide_false; [done|]. by intros [_ ?].
    + intros sk o Hok Hne Hc. apply rel_cells; try done; [by right|].
      intros w [Hw|?]; [|done]. destruct Hent; congruence.
  - eapply wp_view; [by apply rel_cells_unregistered|]. by apply wp_ret.
Qed.
End rel_entries.

(** The entries of an edge for every property. *)
Section rel_loop.
Context `{MapOrder} (t e : Z) (props : gmap Z value) (T : tables) (Q : res unit -> tables -> Prop).
Context (Ht : u32 t) (He : u64 e) (Hp : props_in props).

Lemma wp_put_rels :
  (forall k, rent T (t, k, e) = None) ->
  (forall f, (forall t' k' e', f (t', k', e') =
      if decide (t' = t /\ e' = e) then indexed_value (props !! k') else rent T (t', k', e')) ->
     Q (Ok tt) (set_rent f T)) ->
  wp (for_each (fun kv => putRelPropEntry t kv.1 kv.2 e) (range_props props)) T Q.
Proof.
  intros Hnone HQ.
  apply (wp_for_each _ _ (fun done T' => exists f, T' = set_rent f T /\ forall t' k' e', f (t', k', e') =
    if decide ((t' = t /\ e' = e) /\ k' ∈ done.*1) then indexed_value (props !! k') else rent T (t', k', e'))).
  - exists (rent T). split; [by destruct T|]. intros. rewrite decide_False; [done|]. by intros [_ ?%elem_of_nil].
  - intros done [k v] todo T1 E (f & -> & Hf). cbn [fst snd].
    assert (props !! k = Some v) as Hkv by (apply range_props_elem; rewrite E; set_solver).
    destruct (Hp k v Hkv) as [Hk [Hv _]].
    assert (f (t, k, e) = None \/ f (t, k, e) = indexed_value (Some v)) as Hent.
    { rewrite Hf. destruct (decide _); [right; by rewrite Hkv|left; apply Hnone]. }
    apply wp_putRelPropEntry; try done.
    { cbn. cbn in Hent. destruct (isIndexable v); destruct Hent; auto. }
    cbn [on_ok]. exists (if isIndexable v then <[(t, k, e) := Some v]> f else f). split.
    { unfold put_rent. by destruct (isIndexable v). }
    intros t' k' e'. rewrite fmap_app. destruct (decide ((t', k', e') = (t, k, e))) as [Eq|Ne].
    + injection Eq as -> -> ->. rewrite decide_True by (split; [done|set_solver]). rewrite Hkv. cbn in Hent |- *.
      destruct (isIndexable v); [by rewrite fn_lookup_insert|by destruct Hent].
    + transitivity (f (t', k', e')); [destruct (isIndexable v); [by rewrite fn_lookup_insert_ne|done]|].
      rewrite Hf. apply decide_ext. cbn. rewrite elem_of_app, list_elem_of_singleton. naive_solver.
  - intros T' (f & -> & Hf). apply HQ. intros t' k' e'. rewrite Hf.
    destruct (decide (t' = t /\ e' = e)) as [[-> ->]|Hno]; [|by rewrite decide_False by tauto].
    destruct (decide _) as [|Hno]; [done|]. rewrite Hnone. destruct (props !! k') as [v|] eqn:E; [|done].
    exfalso. apply Hno. split; [done|]. apply list_elem_of_fmap. exists (k', v). by rewrite range_props_elem.
Qed.

Lemma wp_del_rels :
  (forall k, rent T (t, k, e) = indexed_value (props !! k)) ->
  (forall f, (forall t' k' e', f (t', k', e') =
      if decide (t' = t /\ e' = e) then None else rent T (t', k', e')) ->
     Q (Ok tt) (set_rent f T)) ->
  wp (for_each (fun kv => delRelPropEntry t kv.1 kv.2 e) (range_props props)) T Q.
Proof.
  intros Hall HQ.
  apply (wp_for_each _ _ (fun done T' => exists f, T' = set_rent f T /\ forall t' k' e', f (t', k', e') =
    if decide ((t' = t /\ e' = e) /\ k' ∈ done.*1) then None else rent T (t', k', e'))).
  - exists (rent T). split; [by destruct T|]. intros. rewrite decide_False; [done|]. by intros [_ ?%elem_of_nil].
  - intros done [k v] todo T1 E (f & -> & Hf). cbn [fst snd].
    assert (props !! k = Some v) as Hkv by (apply range_props_elem; rewrite E; set_solver).
    destruct (Hp k v Hkv) as [Hk [Hv _]].
    assert (f (t, k, e) = None \/ f (t, k, e) = indexed_value (Some v)) as Hent.
    { rewrite Hf. destruct (decide _); [by left|right; by rewrite Hall, Hkv]. }
    apply wp_delRelPropEntry; try done.
    { cbn. cbn in Hent. destruct (isIndexable v); destruct Hent; auto. }
    cbn [on_ok]. exists (if isIndexable v then <[(t, k, e) := None]> f else f). split.
    { unfold del_rent. by destruct (isIndexable v). }
    intros t' k' e'. rewrite fmap_app. destruct (decide ((t', k', e') = (t, k, e))) as [Eq|Ne].
    + injection Eq as -> -> ->. rewrite decide_True by (split; [done|set_solver]). cbn in Hent.
      destruct (isIndexable v); [by rewrite fn_lookup_insert|by destruct Hent].
    + transitivity (f (t', k', e')); [destruct (isIndexable v); [by rewrite fn_lookup_insert_ne|done]|].
      rewrite Hf. apply decide_ext. cbn. rewrite elem_of_app, list_elem_of_singleton. naive_solver.
  - intros T' (f & -> & Hf). apply HQ. intros t' k' e'. rewrite Hf.
    destruct (decide (t' = t /\ e' = e)) as [[-> ->]|Hno]; [|by rewrite decide_False by tauto].
    destruct (decide _) as [|Hno]; [done|]. rewrite Hall. destruct (props !! k') as [v|] eqn:E; [|done].
    exfalso. apply Hno. split; [done|]. apply list_elem_of_fmap. exists (k', v). by rewrite range_props_elem.
Qed.
End rel_loop.

(** ** Back to a consistent state *)

(** Only the adjacency and index entries of the edge [e] differ. *)
Record epatch (e : Z) (T T' : tables) : Prop := {
  ep_same : T' = set_rent (rent T') (set_ins (ins T') (set_outs (outs T') T));
  ep_outs : forall s t d e', e' <> e -> outs T' (s, t, d, e') = outs T (s, t, d, e');
  ep_ins : forall d t s e', e' <> e -> ins T' (d, t, s, e') = ins T (d, t, s, e');
  ep_rent : forall t k e', e' <> e -> rent T' (t, k, e') = rent T (t, k, e')
}.

Definition edge_fits (T : tables) (e : Z) (o : option EdgeRecord) : Prop :=
  match o with
  | Some r => 1 <= e <= count T CEdge /\ edge_stored r /\ is_Some (nodes T (Src r)) /\ is_Some (nodes T (Dst r))
  | None => True
  end.

Lemma consistent_edge_update e o T T' :
  consistent T -> epatch e T T' -> edge_fits T e o ->
  (forall s t d, outs T' (s, t, d, e) = out_of o s t d) ->
  (forall d t s, ins T' (d, t, s, e) = out_of o s t d) ->
  (forall t k, rent T' (t, k, e) = rel_entry_of o t k) ->
  consistent (set_edges (<[e := o]> (edges T')) T').
Proof.
  intros Hc Hp Hf Ho Hi Hr. pose proof (ep_same _ _ _ Hp) as E. destruct Hp as [_ Po Pi Pr].
  destruct Hc as [Cc Cn Ce Cl Ct Cw Co Ci Cr Cx].
  assert (forall e', e' <> e -> <[e := o]> (edges T') e' = edges T e') as Hne.
  { intros e' He. rewrite fn_lookup_insert_ne by done. by rewrite E. }
  split.
  - rewrite E. destruct Cc. by split.
  - rewrite E. exact Cn.
  - intros e' r He. cbn in He. destruct (decide (e' = e)) as [->|Hn].
    + rewrite fn_lookup_insert in He. subst o. rewrite E. exact Hf.
    + rewrite Hne in He by done. rewrite E. by apply Ce.
  - rewrite E. exact Cl.
  - rewrite E. exact Ct.
  - rewrite E. exact Cw.
  - intros s t d e'. cbn. destruct (decide (e' = e)) as [->|Hn]; [by rewrite fn_lookup_insert|].
    rewrite Hne, Po by done. apply Co.
  - intros d t s e'. cbn. destruct (decide (e' = e)) as [->|Hn]; [by rewrite fn_lookup_insert|].
    rewrite Hne, Pi by done. apply Ci.
  - intros t k e'. cbn. destruct (decide (e' = e)) as [->|Hn]; [by rewrite fn_lookup_insert|].
    rewrite Hne, Pr by done. apply Cr.
  - rewrite E. exact Cx.
Qed.

(** Everything but edges, their indexes and new names. *)
Record eframe (T T' : tables) : Prop := {
  ef_nodes : nodes T' = nodes T;
  ef_index : index T' = index T;
  ef_constr : constr T' = constr T;
  ef_relindex : relindex T' = relindex T;
  ef_format : format T' = format T;
  ef_fwd : forall d name id, fwd T (d, name) = Some id -> fwd T' (d, name) = Some id
}.

Lemma eframe_grows T T' : grows T T' -> eframe T T'.
Proof. intros Hg. pose proof (grows_data _ _ Hg) as H. split; try apply H. apply Hg. Qed.
Lemma eframe_trans T1 T2 T3 : eframe T1 T2 -> eframe T2 T3 -> eframe T1 T3.
Proof. intros [] []. split; try congruence. auto. Qed.

Definition edge_update (T T' : tables) (e : Z) (o : option EdgeRecord) : Prop :=
  forall x, edges T' x = <[e := o]> (edges T) x.

(** ** DeleteEdge *)
Definition DeleteEdge_post (T : tables) (e : Z) (res : res unit) (T' : tables) : Prop :=
  match res with
  | Ok _ => is_Some (edges T e) /\ consistent T' /\ eframe T T' /\ edge_update T T' e None
  | Err ErrEdgeNotFound => edges T e = None
  | Err _ => False
  end.

Lemma edge_props_in r : edge_stored r -> props_in (EProps r).
Proof.
  intros Hr k v Hk. destruct (es_props _ Hr k v Hk) as [? (? & _)%prop_stored_new]. done.
Qed.

Lemma wp_DeleteEdge `{MapOrder} T e :
  consistent T -> u64 e -> wp (DeleteEdge e) T (DeleteEdge_post T e).
Proof.
  intros Hc He. unfold DeleteEdge. apply wp_bind, wp_GetEdge; [done|].
  destruct (edges T e) as [r|] eqn:Hr; cbn [on_ok e_rec]; [|done]. cbv zeta.
  destruct (edge_u64 _ _ _ Hc Hr) as [_ Hs]. pose proof Hs as [Ht Hsr Hds Hp].
  apply wp_bind. apply (wp_Delete (set_outs (<[(Src r, Type_ r, Dst r, e) := false]> (outs T)) T) (KOut (Src r) (Type_ r) (Dst r) e)); [by split_and!| | |].
  { cbn. by rewrite fn_lookup_insert. }
  { other_cells. }
  cbn [on_ok]. apply wp_bind.
  apply (wp_Delete (set_ins (<[(Dst r, Type_ r, Src r, e) := false]> (ins T)) (set_outs (<[(Src r, Type_ r, Dst r, e) := false]> (outs T)) T)) (KIn (Dst r) (Type_ r) (Src r) e)); [by split_and!| | |].
  { cbn. by rewrite fn_lookup_insert. }
  { other_cells. }
  cbn [on_ok]. apply wp_bind, wp_del_rels; try done; [by apply edge_props_in| |].
  { intros k. cbn. rewrite (con_rent _ Hc), Hr. cbn. by rewrite decide_True. }
  intros f Hf. cbn [on_ok]. set (T3 := set_rent f _).
  eapply (wp_Delete (set_edges (<[e := None]> (edges T3)) T3) (KEdge e)); [done| | |].
  { cbn. by rewrite fn_lookup_insert. }
  { other_cells. }
  split; [by rewrite Hr|]. split; [|split; [by split|done]].
  apply (consistent_edge_update e None T); try done.
  - split; [done| | |]; cbn.
    + intros s t d e' Hne. rewrite fn_lookup_insert_ne; [done|]. congruence.
    + intros d t s e' Hne. rewrite fn_lookup_insert_ne; [done|]. congruence.
    + intros t k e' Hne. rewrite Hf, decide_False; [done|]. by intros [_ ?].
  - intros s t d. cbn. destruct (decide ((s, t, d, e) = (Src r, Type_ r, Dst r, e))) as [->|Hne]; [by rewrite fn_lookup_insert|].
    rewrite fn_lookup_insert_ne, (con_outs _ Hc), Hr by done. cbn. apply bool_decide_false.
    intros (<- & <- & <-). done.
  - intros d t s. cbn. destruct (decide ((d, t, s, e) = (Dst r, Type_ r, Src r, e))) as [->|Hne]; [by rewrite fn_lookup_insert|].
    rewrite fn_lookup_insert_ne, (con_ins _ Hc), Hr by done. cbn. apply bool_decide_false.
    intros (<- & <- & <-). done.
  - intros t k. cbn. rewrite Hf. destruct (decide _) as [|Hno]; [done|]. cbn. rewrite (con_rent _ Hc), Hr. cbn.
    rewrite decide_False; [done|]. intros <-. by apply Hno.
Qed.

(** ** CreateEdge *)
Lemma consistent_next_edge T :
  consistent T -> count T CEdge + 1 < two64 ->
  consistent (set_count (<[CEdge := count T CEdge + 1]> (count T)) T).
Proof.
  intros [[Ci Cr Cd Ct] Cn Ce Cl Cen Cw Co Cin Cre Cx] Hlt. split; try done.
  - split; try done; cbn.
    intros c. destruct (decide (c = CEdge)) as [->|]; [rewrite fn_lookup_insert; specialize (Ct CEdge); lia|].
    by rewrite fn_lookup_insert_ne.
  - intros e r Hr. destruct (Ce e r Hr) as (H1 & H2). split; [|done]. cbn. rewrite fn_lookup_insert. lia.
Qed.

Lemma edge_norm_stored r :
  u32 (Type_ r) -> u64 (Src r) -> u64 (Dst r) -> props_new (EProps r) -> all_storable (EProps r) ->
  edge_stored (edge_norm r).
Proof.
  intros Ht Hs Hd Hp Hst. split; try done.
  pose proof (node_norm_stored (mkNodeRecord [] (EProps r)) ltac:(done) ltac:(constructor) Hp Hst) as Hn.
  exact (ns_props _ Hn).
Qed.

Lemma rel_entry_of_norm r t k :
  props_new (EProps r) ->
  rel_entry_of (Some (edge_norm r)) t k = rel_entry_of (Some r) t k.
Proof.
  intros Hp. unfold rel_entry_of. cbn [edge_norm Type_ EProps].
  rewrite lookup_fmap, indexed_value_norm; [done|]. intros v Hv. by destruct (Hp k v Hv) as (_ & _ & ? & _).
Qed.

Definition CreateEdge_post (T : tables) (typ : bytes) (src dst : Z) (props : list (bytes * value))
    (res : res Z) (T' : tables) : Prop :=
  match res with
  | Ok id => exists t d, id = count T CEdge + 1 /\ edges T id = None /\
      is_Some (nodes T src) /\ is_Some (nodes T dst) /\
      fwd T' (DType, typ) = Some t /\ names_ok T' (filter non_null props) d /\ consistent T' /\ eframe T T' /\
      edge_update T T' id (Some (mkEdgeRecord t src dst (deep_norm <$> d)))
  | Err ErrNodeNotFound => nodes T src = None \/ nodes T dst = None
  | Err ErrOutOfIDs => no_room T DType 1 \/ no_room T DKey (len props)
  | Err ErrUnsupportedType => exists name v, (name, v) ∈ props /\ storable v = false
  | Err _ => False
  end.

(** Writing the record, the adjacency entries and the index entries. *)
Lemma wp_write_edge `{MapOrder} T id r (Q : res Z -> tables -> Prop) :
  consistent T -> edges T id = None -> 1 <= id <= count T CEdge ->
  u32 (Type_ r) -> is_Some (nodes T (Src r)) -> is_Some (nodes T (Dst r)) -> props_new (EProps r) ->
  (forall T', consistent T' -> eframe T T' -> edge_update T T' id (Some (edge_norm r)) -> Q (Ok id) T') ->
  (~ all_storable (EProps r) -> Q (Err ErrUnsupportedType) T) ->
  wp (b ← lift (EncodeEdge r);
      Set_ (EdgeKey id) b ≫= fun _ =>
      Set_ (OutKey (Src r) (Type_ r) (Dst r) id) [] ≫= fun _ =>
      Set_ (InKey (Dst r) (Type_ r) (Src r) id) [] ≫= fun _ =>
      for_each (fun kv => putRelPropEntry (Type_ r) kv.1 kv.2 id) (range_props (EProps r)) ≫= fun _ => mret id) T Q.
Proof.
  intros Hc Hfresh Hid Ht Hs Hd Hp HQ HE. pose proof (cat_count _ (con_cat _ Hc) CEdge) as Hct.
  assert (u64 id) as Hid64 by (unfold u64; lia).
  assert (u64 (Src r)) as Hs64 by (destruct Hs as [? Hs]; by eapply node_u64).
  assert (u64 (Dst r)) as Hd64 by (destruct Hd as [? Hd]; by eapply node_u64).
  apply wp_bind, wp_lift. destruct (decide (all_storable (EProps r))) as [Hst|Hst].
  2: { unfold EncodeEdge. rewrite appendProps_unstorable by done. by apply HE. }
  destruct (decode_encode_edge r) as (b & -> & Hb).
  { split_and!; try done. by apply props_in_ok; [apply props_new_in|]. }
  cbn [on_ok]. set (rn := edge_norm r). apply wp_bind.
  apply (wp_Set (set_edges (<[id := Some rn]> (edges T)) T) (KEdge id)); [done| | |].
  { cbn. rewrite fn_lookup_insert. eauto. }
  { other_cells. }
  cbn [on_ok]. apply wp_bind.
  set (T1 := set_edges _ T). set (T2 := set_outs (<[(Src r, Type_ r, Dst r, id) := true]> (outs T)) T1).
  apply (wp_Set T2 (KOut (Src r) (Type_ r) (Dst r) id)); [by split_and!| | |].
  { cbn. by rewrite fn_lookup_insert. }
  { other_cells. }
  cbn [on_ok]. apply wp_bind.
  set (T3 := set_ins (<[(Dst r, Type_ r, Src r, id) := true]> (ins T)) T2).
  apply (wp_Set T3 (KIn (Dst r) (Type_ r) (Src r) id)); [by split_and!| | |].
  { cbn. by rewrite fn_lookup_insert. }
  { other_cells. }
  cbn [on_ok]. apply wp_bind, wp_put_rels; try done; [by apply props_new_in| |].
  { intros k. cbn. by rewrite (con_rent _ Hc), Hfresh. }
  intros f Hf. cbn [on_ok]. apply wp_ret, HQ; [|by split|done].
  change (set_rent f T3) with (set_edges (<[id := Some rn]> (edges (set_edges (edges T) (set_rent f T3)))) (set_edges (edges T) (set_rent f T3))).
  apply (consistent_edge_update id (Some rn) T); try done.
  - split; [done| | |]; cbn.
    + intros s t d e' Hne. rewrite fn_lookup_insert_ne; [done|]. congruence.
    + intros d t s e' Hne. rewrite fn_lookup_insert_ne; [done|]. congruence.
    + intros t k e' Hne. rewrite Hf, decide_False; [done|]. by intros [_ ?].
  - split; [done|]. split; [by apply edge_norm_stored|done].
  - intros s t d. cbn. destruct (decide ((s, t, d, id) = (Src r, Type_ r, Dst r, id))) as [E|Hne].
    + rewrite E, fn_lookup_insert. injection E as -> -> ->. symmetry. by apply bool_decide_true.
    + rewrite fn_lookup_insert_ne, (con_outs _ Hc), Hfresh by done. symmetry. apply bool_decide_false.
      intros (<- & <- & <-). by apply Hne.
  - intros d t s. cbn. destruct (decide ((d, t, s, id) = (Dst r, Type_ r, Src r, id))) as [E|Hne].
    + rewrite E, fn_lookup_insert. injection E as -> -> ->. symmetry. by apply bool_decide_true.
    + rewrite fn_lookup_insert_ne, (con_ins _ Hc), Hfresh by done. symmetry. apply bool_decide_false.
      intros (<- & <- & <-). by apply Hne.
  - intros t k. change (rent (set_edges (edges T) (set_rent f T3))) with f. unfold rn. rewrite Hf, rel_entry_of_norm by done.
    cbn. rewrite (con_rent _ Hc), Hfresh. cbn.
    destruct (decide (Type_ r = t)) as [<-|Hne]; [by rewrite decide_True|]. rewrite decide_False; [done|]. by intros [? _].
Qed.

Lemma wp_CreateEdge `{MapOrder} T typ src dst props :
  consistent T -> u64 src -> u64 dst -> count T CEdge + 1 < two64 -> named_props props ->
  wp (CreateEdge typ src dst props) T (CreateEdge_post T typ src dst props).
Proof.
  intros Hc Hs Hd Hroom Hps. unfold CreateEdge.
  apply wp_bind, wp_GetNode; [done|]. destruct (nodes T src) as [rs|] eqn:Es; cbn [on_ok]; [|by left].
  apply wp_bind, wp_GetNode; [done|]. destruct (nodes T dst) as [rd|] eqn:Ed; cbn [on_ok]; [|by right].
  apply wp_bind. apply (wp_internDict DType); [apply Hc| |].
  2: { intros _ Hfull T'. left. unfold no_room. lia. }
  intros t T1 (Hg1 & Hft & _ & Hused). cbn [on_ok].
  apply wp_bind, wp_internProps; [apply Hg1|apply Hps| |].
  2: { intros Hfull T'. right. pose proof (used_other _ DKey _ _ _ Hused ltac:(done)). unfold no_room in *. lia. }
  intros d T2 Hg2 Hno. cbn [on_ok].
  pose proof (grows_trans _ _ _ Hg1 Hg2) as Hg. pose proof (consistent_grows _ _ Hc Hg) as Hc2.
  destruct (grow_count _ _ Hg) as [_ En]. assert (0 <= count T CEdge) by apply (cat_count _ (con_cat _ Hc)).
  apply wp_bind. apply (wp_nextCounter CEdge); rewrite En; [lia|lia|]. cbn [on_ok].
  set (id := count T CEdge + 1). rewrite <- En in Hroom. pose proof (consistent_next_edge T2 Hc2 Hroom) as Hc3.
  rewrite En in Hc3. fold id in Hc3. set (T3 := set_count (<[CEdge := id]> (count T2)) T2) in *.
  assert (nodes T3 = nodes T) as Enodes by apply (nodes_grows _ _ Hg).
  assert (edges T3 = edges T) as Eedges by (by pose proof (grows_data _ _ Hg) as (_ & ? & _)).
  assert (edges T id = None) as Hfresh.
  { destruct (edges T id) as [r|] eqn:E; [|done]. apply (con_edge _ Hc) in E as [? _]. subst id. lia. }
  pose proof (grow_cat _ _ Hg2) as Hcat. pose proof (grow_fwd _ _ Hg2 _ _ _ Hft) as Hft2.
  pose proof (names_ok_new _ _ _ Hcat Hps Hno) as Hdn.
  set (r := mkEdgeRecord t src dst d).
  apply (wp_write_edge T3 id r); try done.
  - by rewrite Eedges.
  - cbn. rewrite fn_lookup_insert. subst id. lia.
  - by eapply cat_u32.
  - cbn [r Src]. by rewrite Enodes, Es.
  - cbn [r Dst]. by rewrite Enodes, Ed.
  - intros T' Hc' Hf' Hu. exists t, d. split; [done|]. split; [done|]. split; [by rewrite Es|]. split; [by rewrite Ed|].
    split; [by apply (ef_fwd _ _ Hf')|].
    split; [eapply names_ok_mono; [apply Hf'|by destruct Hno; split]|]. split; [done|].
    split; [|intros x; by rewrite Hu, Eedges].
    eapply eframe_trans; [by apply eframe_grows|]. eapply eframe_trans; [|done]. by split.
  - intros Hst. by apply (names_ok_unstorable T2 props d).
Qed.

(** ** DetachDeleteNode *)
Definition touches (r : EdgeRecord) (n : Z) : Prop := Src r = n \/ Dst r = n.
#[global] Instance touches_dec r n : Decision (touches r n).
Proof. unfold touches. apply _. Defined.

(** The edge table without the edges incident to [n]. *)
Definition without_edges (T : tables) (n : Z) (e : Z) : option EdgeRecord :=
  match edges T e with Some r => if decide (touches r n) then None else Some r | None => None end.

Definition DetachDeleteNode_post (T : tables) (n : Z) (res : res unit) (T' : tables) : Prop :=
  match res with
  | Ok _ => is_Some (nodes T n) /\ consistent T' /\ node_update T T' n None /\
      (forall e, edges T' e = without_edges T n e) /\
      index T' = index T /\ constr T' = constr T /\ relindex T' = relindex T /\ format T' = format T /\
      (forall d name id, fwd T (d, name) = Some id -> fwd T' (d, name) = Some id)
  | Err ErrNodeNotFound => nodes T n = None
  | Err _ => False
  end.

(** Deleting a set of edges. *)
Lemma wp_delete_edges `{MapOrder} T (s : gset Z) (Q : res unit -> tables -> Prop) :
  consistent T -> (forall e, e ∈ s -> is_Some (edges T e)) ->
  (forall T', consistent T' -> eframe T T' ->
     (forall e, edges T' e = if decide (e ∈ s) then None else edges T e) -> Q (Ok tt) T') ->
  wp (for_each DeleteEdge (range_set s)) T Q.
Proof.
  intros Hc Hs HQ.
  assert (NoDup (range_set s)) as Hnd by (rewrite range_set_perm; apply NoDup_elements).
  assert (forall e, e ∈ range_set s <-> e ∈ s) as Hin by (intros e; rewrite range_set_perm; apply elem_of_elements).
  apply (wp_for_each _ _ (fun done T' => consistent T' /\ eframe T T' /\
    forall e, edges T' e = if decide (e ∈ done) then None else edges T e)).
  - split; [done|]. split; [by split|]. intros e. rewrite decide_False; [done|]. by intros ?%elem_of_nil.
  - intros done e todo T1 E (Hc1 & Hf1 & He1).
    assert (e ∉ done) as Hnew.
    { rewrite E in Hnd. apply NoDup_app in Hnd as (_ & Hx & _). intros Hd. apply (Hx e Hd). left. }
    assert (is_Some (edges T e)) as [r Hr] by (apply Hs, Hin; rewrite E; set_solver).
    assert (edges T1 e = Some r) as Hr1 by (by rewrite He1, decide_False).
    eapply wp_mono; [apply wp_DeleteEdge; [done|by eapply edge_u64]|].
    intros [[]|err] T2; cbn [on_ok DeleteEdge_post].
    + intros (_ & Hc2 & Hf2 & Hu2). split; [done|]. split; [by eapply eframe_trans|]. intros x. rewrite Hu2.
      destruct (decide (x = e)) as [->|Hne].
      * rewrite fn_lookup_insert, decide_True by set_solver. done.
      * rewrite fn_lookup_insert_ne, He1 by done. apply decide_ext. set_solver.
    + destruct err; try done. congruence.
  - intros T' (Hc' & Hf' & He'). apply HQ; [done|done|]. intros e. rewrite He'. apply decide_ext. apply Hin.
Qed.

Lemma edge_refs_ids T P refs e :
  edge_refs T P refs -> e ∈ er_ID <$> refs <-> exists r, edges T e = Some r /\ P r.
Proof.
  intros [_ Hr]. rewrite list_elem_of_fmap. split.
  - intros (ref & -> & Hin). apply Hr in Hin as (e & r & He & HP & ->). by exists r.
  - intros (r & He & HP). exists (ref_of e r). split; [done|]. apply Hr. by exists e, r.
Qed.

Lemma wp_DetachDeleteNode `{MapOrder} T n :
  consistent T -> u64 n -> wp (DetachDeleteNode n) T (DetachDeleteNode_post T n).
Proof.
  intros Hc Hn. unfold DetachDeleteNode. apply wp_bind, wp_GetNode; [done|].
  destruct (nodes T n) as [r|] eqn:Hr; cbn [on_ok]; [|done].
  apply wp_bind, wp_OutEdges; [done|done|done|]. intros out Hout. cbn [on_ok].
  apply wp_bind, wp_InEdges; [done|done|done|]. intros in_ Hin. cbn [on_ok]. cbv zeta.
  set (ids := list_to_set (er_ID <$> out) ∪ list_to_set (er_ID <$> in_) : gset Z).
  assert (forall e, e ∈ ids <-> exists re, edges T e = Some re /\ touches re n) as Hids.
  { intros e. unfold ids, touches. rewrite elem_of_union, !elem_of_list_to_set.
    rewrite (edge_refs_ids _ _ _ _ Hout), (edge_refs_ids _ _ _ _ Hin). naive_solver. }
  apply wp_bind, wp_delete_edges; [done|by intros e (re & -> & _)%Hids|].
  intros T1 Hc1 Hf1 He1. cbn [on_ok].
  assert (forall e, edges T1 e = without_edges T n e) as He.
  { intros e. rewrite He1. unfold without_edges. destruct (edges T e) as [re|] eqn:E; [|by case_decide].
    apply decide_ext. rewrite Hids. naive_solver. }
  assert (nodes T1 n = Some r) as Hr1 by (by rewrite (ef_nodes _ _ Hf1)).
  eapply wp_mono; [by apply wp_DeleteNode|]. intros [[]|err] T2; cbn [DeleteNode_post DetachDeleteNode_post].
  - intros (_ & _ & Hc2 & Hf2 & Hu2). split; [by rewrite Hr|]. split; [done|].
    destruct Hf1 as [En Ei Ek Ex Ef Efw], Hf2 as [Ee2 Ei2 Ek2 Ex2 Ef2 Efw2].
    split; [intros x; by rewrite Hu2, En|]. split; [intros e; by rewrite Ee2|]. split_and!; auto; congruence.
  - destruct err; try done; [congruence|]. intros (e & re & Hre & Ht). rewrite He in Hre. unfold without_edges in Hre.
    destruct (edges T e) as [re'|]; [|done]. destruct (decide (touches re' n)); [done|]. by injection Hre as ->.
Qed.
