(* ===== verification/History.v ===== *)
(** * History: databases built by sequences of operations

    A database is what a sequence of write transactions made of the empty
    store: each transaction runs one operation of the graph layer (Graph.v) or
    one schema statement (Ddl.v) and is rolled back when it fails.  Every such
    database represents well-formed tables ([db_ok]): index entries, adjacency
    entries, owner entries and the catalog agree with the node and edge records,
    and the format marker covers the schema. *)
From S2P Require Import Prelude Float64 Values IndexCodec Keys Records Storage Catalog Graph Tables GraphInv NodeOps NodeUpdates Traversal Lookups IndexOps Ddl EdgeOps.

(** ** Operations *)
Inductive operation :=
| OpCreateNode (labels : list bytes) (props : list (bytes * value))
| OpCreateEdge (typ : bytes) (src dst : Z) (props : list (bytes * value))
| OpSetProperty (node : Z) (key : bytes) (v : value)
| OpRemoveProperty (node : Z) (key : bytes)
| OpAddLabels (node : Z) (labels : list bytes)
| OpRemoveLabels (node : Z) (labels : list bytes)
| OpSetNodeProperties (node : Z) (props : list (bytes * value)) (replace : bool)
| OpDeleteEdge (edge : Z)
| OpDeleteNode (node : Z)
| OpDetachDeleteNode (node : Z)
| OpCreateIndex (name label prop : bytes)
| OpCreateRelIndex (name typ prop : bytes)
| OpDropIndex (name : bytes) (ifExists : bool)
| OpCreateConstraint (name label prop : bytes)
| OpDropConstraint (name : bytes) (ifExists : bool).

Definition no_result {A} (p : prog A) : prog unit := _ ← p; mret tt.

Section history.
Context `{MapOrder}.

Definition op_prog (o : operation) : prog unit :=
  match o with
  | OpCreateNode labels props => no_result (CreateNode labels props)
  | OpCreateEdge typ src dst props => no_result (CreateEdge typ src dst props)
  | OpSetProperty n key v => SetProperty n key v
  | OpRemoveProperty n key => RemoveProperty n key
  | OpAddLabels n labels => AddLabels n labels
  | OpRemoveLabels n labels => RemoveLabels n labels
  | OpSetNodeProperties n props replace => SetNodeProperties n props replace
  | OpDeleteEdge e => DeleteEdge e
  | OpDeleteNode n => DeleteNode n
  | OpDetachDeleteNode n => DetachDeleteNode n
  | OpCreateIndex name label prop => createIndex name label prop
  | OpCreateRelIndex name typ prop => createRelIndex name typ prop
  | OpDropIndex name ifExists => dropIndex name ifExists
  | OpCreateConstraint name label prop => createConstraint name label prop
  | OpDropConstraint name ifExists => dropConstraint name ifExists
  end.

(** One write transaction: committed when the operation succeeds. *)
Definition commit (o : operation) (m : store) : store :=
  match run (op_prog o) m with (Ok _, m') => m' | (Err _, _) => m end.

(** Arguments Go can pass: identifiers are uint64, values are in range, maps
    have distinct keys.  A null is stored by no operation but [SetProperty],
    where it breaks the index (see below), so it is excluded there. *)
Definition op_ok (o : operation) : Prop :=
  match o with
  | OpCreateNode _ props => named_props props
  | OpCreateEdge _ src dst props => u64 src /\ u64 dst /\ named_props props
  | OpSetProperty n _ v => u64 n /\ value_in v /\ v <> VNull
  | OpSetNodeProperties n props _ => u64 n /\ named_props props
  | OpRemoveProperty n _ | OpAddLabels n _ | OpRemoveLabels n _ | OpDeleteNode n | OpDetachDeleteNode n | OpDeleteEdge n => u64 n
  | _ => True
  end.

(** The node and edge counters are not about to wrap around. *)
Definition counter_of (m : store) (c : counter) : Z :=
  match m !! key_of (KCounter c) with Some b => be_get b | None => 0 end.
Definition has_room (m : store) : Prop := counter_of m CNode + 1 < two64 /\ counter_of m CEdge + 1 < two64.

Inductive history : list operation -> store -> Prop :=
| history_nil : history [] ∅
| history_snoc h m o : history h m -> op_ok o -> has_room m -> history (h ++ [o]) (commit o m).

(** Running a list of operations. *)
Definition commits (ops : list operation) (m : store) : store := foldl (fun m o => commit o m) m ops.
Fixpoint admissible (ops : list operation) (m : store) : Prop :=
  match ops with [] => True | o :: ops' => op_ok o /\ has_room m /\ admissible ops' (commit o m) end.

Lemma history_commits h m ops : history h m -> admissible ops m -> history (h ++ ops) (commits ops m).
Proof.
  revert h m. induction ops as [|o ops IH]; intros h m Hh Hok; [by rewrite app_nil_r|].
  destruct Hok as (Ho & Hr & Hok). replace (h ++ o :: ops) with ((h ++ [o]) ++ ops) by (by rewrite <- app_assoc).
  apply IH; [by constructor|done].
Qed.

(** ** Every operation keeps the database well formed *)
Lemma counter_of_rep T m c : Rep T m -> cat_ok T -> counter_of m c = count T c.
Proof.
  intros [Hm _] Hc. specialize (Hm (KCounter c) I). cbn [cell] in Hm. unfold counter_of. rewrite Hm.
  destruct (Z.eqb_spec (count T c) 0) as [E|E]; [by rewrite E|]. apply be8_get. apply (cat_count _ Hc).
Qed.

Definition keeps {A} (p : prog A) (T : tables) : Prop := wp p T (post (fun _ T' => db_ok T') (fun _ => True)).

Lemma keeps_mono {A} (p : prog A) T (Q : res A -> tables -> Prop) :
  wp p T Q -> (forall a T', Q (Ok a) T' -> db_ok T') -> keeps p T.
Proof. intros Hp HQ. eapply wp_mono; [exact Hp|]. intros [a|e] T' Hq; cbn; [by eapply HQ|done]. Qed.

Lemma keeps_no_result {A} (p : prog A) T : keeps p T -> keeps (no_result p) T.
Proof.
  intros Hp. apply wp_bind. eapply wp_mono; [exact Hp|]. intros [a|e] T' Hq; cbn in *; [by apply wp_ret|done].
Qed.

Lemma frame_ok T T' : db_ok T -> consistent T' -> frame T T' -> db_ok T'.
Proof. intros Hdb Hc []. by eapply db_ok_frame. Qed.

Lemma eframe_ok T T' : db_ok T -> consistent T' -> eframe T T' -> db_ok T'.
Proof. intros Hdb Hc []. by eapply db_ok_frame. Qed.

Lemma op_keeps o T :
  db_ok T -> op_ok o -> count T CNode + 1 < two64 -> count T CEdge + 1 < two64 -> keeps (op_prog o) T.
Proof.
  intros Hdb Ho Hn He. pose proof (db_con _ Hdb) as Hc. destruct o; cbn [op_ok] in Ho; cbn [op_prog]; destruct_and?.
  - apply keeps_no_result. eapply keeps_mono; [by apply wp_CreateNode|].
    intros id T' (r & ids & d & _ & _ & _ & _ & Hc' & Hf & _). by eapply frame_ok.
  - apply keeps_no_result. eapply keeps_mono; [by apply wp_CreateEdge|].
    intros id T' (t & d & _ & _ & _ & _ & _ & _ & Hc' & Hf & _). by eapply eframe_ok.
  - eapply keeps_mono; [by apply wp_SetProperty|]. intros [] T' (r & k & _ & _ & Hc' & Hf & _). by eapply frame_ok.
  - eapply keeps_mono; [by apply wp_RemoveProperty|]. intros [] T' (r & _ & Hc' & Hf & _). by eapply frame_ok.
  - eapply keeps_mono; [by apply wp_AddLabels|]. intros [] T' (Hc' & Hf & _). by eapply frame_ok.
  - eapply keeps_mono; [by apply wp_RemoveLabels|]. intros [] T' (Hc' & Hf & _). by eapply frame_ok.
  - eapply keeps_mono; [by apply wp_SetNodeProperties|]. intros [] T' (r & d & _ & _ & Hc' & Hf & _). by eapply frame_ok.
  - eapply keeps_mono; [by apply wp_DeleteEdge|]. intros [] T' (_ & Hc' & Hf & _). by eapply eframe_ok.
  - eapply keeps_mono; [by apply wp_DeleteNode|]. intros [] T' (_ & _ & Hc' & Hf & _). by eapply frame_ok.
  - eapply keeps_mono; [by apply wp_DetachDeleteNode|].
    intros [] T' (_ & Hc' & _ & _ & Ei & Ec & Er & Ef & Hf). by eapply db_ok_frame.
  - eapply keeps_mono; [by apply wp_createIndex|]. by intros [] T' (? & _).
  - eapply keeps_mono; [by apply wp_createRelIndex|]. by intros [] T' (? & _).
  - eapply keeps_mono; [by apply wp_dropIndex|]. by intros [] T' (? & _).
  - eapply keeps_mono; [by apply wp_createConstraint|]. by intros [] T' (? & _).
  - eapply keeps_mono; [by apply wp_dropConstraint|]. by intros [] T' (? & _).
Qed.

Lemma history_db_ok h m : history h m -> exists T, Rep T m /\ db_ok T.
Proof.
  induction 1 as [|h m o _ (T & Hm & Hdb) Ho [Hn He]].
  - exists empty_tables. split; [apply Rep_empty|apply db_ok_empty].
  - rewrite !(counter_of_rep T) in Hn, He by (done || apply Hdb). unfold commit.
    destruct (op_keeps o T Hdb Ho Hn He m Hm) as (T' & Hm' & Hq).
    destruct (run (op_prog o) m) as [[[]|e] m']; cbn in *; [by exists T'|by exists T].
Qed.
End history.
