(* ===== verification/GraphClaims.v ===== *)
(** * GraphClaims: what the graph layer guarantees

    The theorems of the graph layer, stated on runs: [Rep T m] says what the
    store [m] means, [consistent T] that its indexes agree with its records
    (every database of History.v is such a store), and the conclusion says what
    the store after the operation means, or why the operation failed. *)
From S2P Require Import Prelude Float64 Values IndexCodec Keys Records Storage Catalog Graph Tables GraphInv NodeOps NodeUpdates Traversal Lookups IndexOps Ddl EdgeOps History.
Import Float64.

(** ** A concrete database *)

(** One of the iteration orders a Go map may have. *)
#[local] Instance listed_order : MapOrder.
Proof.
  refine {| range_props := map_to_list; range_names := fun p => p; range_set := elements |}; done.
Defined.

Definition sample_ops : list operation :=
  [ OpCreateNode [str "P"] [(str "name", VStr (str "a")); (str "age", VInt 1)];
    OpCreateNode [str "P"] [(str "name", VStr (str "b"))];
    OpCreateEdge (str "K") 1 2 [(str "w", VInt 5)];
    OpCreateIndex [] (str "P") (str "age");
    OpCreateRelIndex [] (str "K") (str "w");
    OpCreateConstraint [] (str "P") (str "name") ].

Definition sample : store := commits sample_ops ∅.

(** Concrete arguments are in range. *)
Ltac in_range :=
  repeat match goal with
  | |- _ /\ _ => split
  | |- Forall _ _ => constructor
  | |- NoDup _ => apply (bool_decide_unpack _); vm_compute; exact I
  | |- True => exact I
  | |- _ <> _ => discriminate
  | |- _ => progress cbn [op_ok fst snd fmap list_fmap]
  | |- named_props _ => split
  | |- value_in _ => split
  | |- value_ok _ => vm_compute
  | |- has_room _ => split; vm_compute; reflexivity
  | |- admissible _ _ => cbn [admissible]
  | |- _ => progress vm_compute
  | |- _ -> _ => congruence
  | |- _ = _ => reflexivity
  end.

Lemma sample_admissible : admissible sample_ops ∅.
Proof. unfold sample_ops. in_range.
Qed.

Lemma sample_db : exists T, Rep T sample /\ db_ok T.
Proof. apply (history_db_ok ([] ++ sample_ops)), history_commits; [constructor|apply sample_admissible]. Qed.

(** Open the sample database: its tables, their well-formedness. *)
Ltac open_sample T := destruct sample_db as (T & Hrep & Hdb); exists T; split; [exact Hrep|].

Lemma run_outcome {A} (p : prog A) m r : (run p m).1 = r -> run p m = (r, (run p m).2).
Proof. intros <-. by destruct (run p m). Qed.

Lemma wp_outcome {A} (p : prog A) T m (P : res A -> Prop) : Rep T m -> wp p T (fun r _ => P r) -> P (run p m).1.
Proof. intros Hm Hp. by destruct (Hp m Hm) as (_ & _ & Hq). Qed.

(** ** The invariant *)



(** ** Writing nodes *)

(** C22: CreateNode gives the node the next identifier, which no node had, the
    labels and the non-null properties it was given (normalized), leaves every
    other node, every edge and the schema alone and keeps the database
    consistent; it fails only when a dictionary is full, a property value cannot
    be stored, or a constrained value is already held by another node. *)
Theorem create_node_correct `{MapOrder} (T : tables) (m m' : store) (labels : list bytes)
    (props : list (bytes * value)) (r : res Z) :
  Rep T m -> consistent T -> count T CNode + 1 < two64 -> named_props props ->
  run (CreateNode labels props) m = (r, m') -> exists T', Rep T' m' /\ CreateNode_post T labels props r T'.
Proof. intros Hm Hc Hn Hp. apply wp_run with T; [by apply wp_CreateNode|done]. Qed.

Lemma create_node_correct_witness :
  let p := CreateNode [str "P"] [(str "name", VStr (str "a"))] in
  exists T', Rep T' (run p ∅).2 /\ CreateNode_post empty_tables [str "P"] [(str "name", VStr (str "a"))] (Ok 1) T'.
Proof.
  apply (create_node_correct empty_tables ∅ _ [str "P"] [(str "name", VStr (str "a"))] (Ok 1)).
  - apply Rep_empty.
  - apply consistent_empty.
  - reflexivity.
  - in_range.
  - apply run_outcome. vm_compute. reflexivity.
Defined.

(** SetProperty replaces one property of one node by the normalized value
    and its index and owner entries with it; it fails exactly as the source says:
    node not found, key dictionary full, value not storable, or the value held by
    another node with the label under a unique constraint. *)
Theorem set_property_correct (T : tables) (m m' : store) (n : Z) (key : bytes) (v : value) (r : res unit) :
  Rep T m -> consistent T -> u64 n -> value_in v -> v <> VNull ->
  run (SetProperty n key v) m = (r, m') -> exists T', Rep T' m' /\ SetProperty_post T n key v r T'.
Proof. intros Hm Hc Hn Hv Hnn. apply wp_run with T; [by apply wp_SetProperty|done]. Qed.

Lemma set_property_correct_witness :
  exists T, Rep T sample /\
    (exists T', Rep T' (run (SetProperty 1 (str "name") (VStr (str "c"))) sample).2 /\
      SetProperty_post T 1 (str "name") (VStr (str "c")) (Ok tt) T') /\
    (exists T', Rep T' (run (SetProperty 1 (str "name") (VStr (str "b"))) sample).2 /\
      SetProperty_post T 1 (str "name") (VStr (str "b")) (Err ErrConstraintViolation) T').
Proof.
  open_sample T. split.
  - apply (set_property_correct T sample _ 1 (str "name") (VStr (str "c")) (Ok tt));
      [exact Hrep|apply Hdb|split; reflexivity || discriminate|in_range|discriminate|apply run_outcome; vm_compute; reflexivity].
  - apply (set_property_correct T sample _ 1 (str "name") (VStr (str "b")) (Err ErrConstraintViolation));
      [exact Hrep|apply Hdb|split; reflexivity || discriminate|in_range|discriminate|apply run_outcome; vm_compute; reflexivity].
Defined.

(** SetNodeProperties ([replace]: SET n = map; otherwise SET n += map)
    leaves the node with exactly the non-null entries of the map, over the old
    properties when merging, a null removing the property, whatever order the
    maps are visited in; the values the node keeps never conflict with
    themselves. *)
Theorem set_node_properties_correct `{MapOrder} (T : tables) (m m' : store) (n : Z)
    (props : list (bytes * value)) (replace : bool) (r : res unit) :
  Rep T m -> consistent T -> u64 n -> named_props props ->
  run (SetNodeProperties n props replace) m = (r, m') ->
  exists T', Rep T' m' /\ SetNodeProperties_post T n props replace r T'.
Proof. intros Hm Hc Hn Hp. apply wp_run with T; [by apply wp_SetNodeProperties|done]. Qed.

Lemma set_node_properties_correct_witness :
  let props := [(str "name", VStr (str "a")); (str "age", VNull); (str "w", VInt 2)] in
  exists T, Rep T sample /\
    exists T', Rep T' (run (SetNodeProperties 1 props false) sample).2 /\ SetNodeProperties_post T 1 props false (Ok tt) T'.
Proof.
  intros props. open_sample T.
  apply (set_node_properties_correct T sample _ 1 props false (Ok tt));
    [exact Hrep|apply Hdb|split; reflexivity || discriminate|in_range|apply run_outcome; vm_compute; reflexivity].
Defined.

(** AddLabels and RemoveLabels change the labels of the node to the union
    with, and the difference from, the named ones, and maintain the label and
    property indexes of the labels that came or went; adding a label fails when
    it brings a constrained value another node holds. *)
Theorem change_labels_correct `{MapOrder} (T : tables) (m m' : store) (n : Z) (labels : list bytes) (add : bool) (r : res unit) :
  Rep T m -> consistent T -> u64 n ->
  run (if add then AddLabels n labels else RemoveLabels n labels) m = (r, m') ->
  exists T', Rep T' m' /\ (if add then AddLabels_post T n labels r T' else RemoveLabels_post T n labels r T').
Proof.
  intros Hm Hc Hn. destruct add; apply wp_run with T; [by apply wp_AddLabels|done|by apply wp_RemoveLabels|done].
Qed.

Lemma change_labels_correct_witness :
  exists T, Rep T sample /\
    (exists T', Rep T' (run (AddLabels 1 [str "P"; str "Q"]) sample).2 /\ AddLabels_post T 1 [str "P"; str "Q"] (Ok tt) T') /\
    (exists T', Rep T' (run (RemoveLabels 1 [str "P"; str "Q"]) sample).2 /\ RemoveLabels_post T 1 [str "P"; str "Q"] (Ok tt) T').
Proof.
  open_sample T. split.
  - apply (change_labels_correct T sample _ 1 [str "P"; str "Q"] true (Ok tt));
      [exact Hrep|apply Hdb|split; reflexivity || discriminate|apply run_outcome; vm_compute; reflexivity].
  - apply (change_labels_correct T sample _ 1 [str "P"; str "Q"] false (Ok tt));
      [exact Hrep|apply Hdb|split; reflexivity || discriminate|apply run_outcome; vm_compute; reflexivity].
Defined.

(** C23: DeleteNode refuses a node with incident edges; DetachDeleteNode removes
    the node and exactly the edges that touch it, self-loops once. *)
Theorem delete_node_correct `{MapOrder} (T : tables) (m m' : store) (n : Z) (detach : bool) (r : res unit) :
  Rep T m -> consistent T -> u64 n ->
  run (if detach then DetachDeleteNode n else DeleteNode n) m = (r, m') ->
  exists T', Rep T' m' /\ (if detach then DetachDeleteNode_post T n r T' else DeleteNode_post T n r T').
Proof.
  intros Hm Hc Hn. destruct detach; apply wp_run with T; [by apply wp_DetachDeleteNode|done|by apply wp_DeleteNode|done].
Qed.

Lemma delete_node_correct_witness :
  exists T, Rep T sample /\
    (exists T', Rep T' (run (DetachDeleteNode 1) sample).2 /\ DetachDeleteNode_post T 1 (Ok tt) T') /\
    (exists T', Rep T' (run (DeleteNode 1) sample).2 /\ DeleteNode_post T 1 (Err ErrNodeHasEdges) T').
Proof.
  open_sample T. split.
  - apply (delete_node_correct T sample _ 1 true (Ok tt));
      [exact Hrep|apply Hdb|split; reflexivity || discriminate|apply run_outcome; vm_compute; reflexivity].
  - apply (delete_node_correct T sample _ 1 false (Err ErrNodeHasEdges));
      [exact Hrep|apply Hdb|split; reflexivity || discriminate|apply run_outcome; vm_compute; reflexivity].
Defined.

(** ** Writing edges *)

(** C24: CreateEdge requires both endpoints, gives the edge the next identifier
    and writes its record, both adjacency entries and its index entries;
    DeleteEdge removes them all and nothing else. *)
Theorem edges_correct `{MapOrder} (T : tables) (m m' m'' : store) (typ : bytes) (src dst e : Z)
    (props : list (bytes * value)) (r : res Z) (r' : res unit) :
  Rep T m -> consistent T -> u64 src -> u64 dst -> u64 e -> count T CEdge + 1 < two64 -> named_props props ->
  run (CreateEdge typ src dst props) m = (r, m') -> run (DeleteEdge e) m = (r', m'') ->
  (exists T', Rep T' m' /\ CreateEdge_post T typ src dst props r T') /\
  (exists T', Rep T' m'' /\ DeleteEdge_post T e r' T').
Proof.
  intros Hm Hc Hs Hd He Hn Hp E1 E2. split.
  - by eapply wp_run; [apply wp_CreateEdge|..].
  - by eapply wp_run; [apply wp_DeleteEdge|..].
Qed.

Lemma edges_correct_witness :
  exists T, Rep T sample /\
    (exists T', Rep T' (run (CreateEdge (str "K") 2 2 []) sample).2 /\ CreateEdge_post T (str "K") 2 2 [] (Ok 2) T') /\
    (exists T', Rep T' (run (DeleteEdge 1) sample).2 /\ DeleteEdge_post T 1 (Ok tt) T').
Proof.
  open_sample T. assert (count T CEdge + 1 < two64) as Hroom.
  { rewrite <- (counter_of_rep T sample) by (exact Hrep || apply Hdb). vm_compute. reflexivity. }
  apply (edges_correct T sample _ _ (str "K") 2 2 1 [] (Ok 2) (Ok tt));
    [exact Hrep|apply Hdb|split; reflexivity || discriminate..|exact Hroom|in_range
    |apply run_outcome; vm_compute; reflexivity|apply run_outcome; vm_compute; reflexivity].
Defined.

(** ** Reading *)

(** C21: NodesByProperty returns, in identifier order, exactly the nodes with the
    label whose property is query-equal to the value: the indexed lookup and the
    scan give the same answer, and neither fails. *)
Theorem nodes_by_property_correct (T : tables) (m : store) (l k : Z) (v : value) :
  Rep T m -> consistent T -> u32 l -> u32 k -> value_ok v ->
  exists ids, (run (NodesByProperty l k v) m).1 = Ok ids /\ StronglySorted Z.lt ids /\
    (forall n, n ∈ ids <-> node_matches T l k v n).
Proof.
  intros Hm Hc Hl Hk Hv. apply (wp_outcome _ T m (fun r => exists ids, r = Ok ids /\ _) Hm). apply wp_NodesByProperty; eauto.
Qed.

(** The index on [age] finds 1 when asked for 1.0. *)
Lemma nodes_by_property_correct_witness :
  exists T, Rep T sample /\ (run (NodesByProperty 1 2 (VFloat (of_int 1))) sample).1 = Ok [1] /\
    exists ids, (run (NodesByProperty 1 2 (VFloat (of_int 1))) sample).1 = Ok ids /\ StronglySorted Z.lt ids /\
      (forall n, n ∈ ids <-> node_matches T 1 2 (VFloat (of_int 1)) n).
Proof.
  open_sample T. split; [vm_compute; reflexivity|].
  apply (nodes_by_property_correct T sample 1 2 (VFloat (of_int 1)));
    [exact Hrep|apply Hdb|split; reflexivity || discriminate|split; reflexivity || discriminate|vm_compute; split; congruence].
Defined.

(** EdgesByProperty, likewise, for relationships of a type, with or without
    a relationship index. *)
Theorem edges_by_property_correct (T : tables) (m : store) (t k : Z) (v : value) :
  Rep T m -> consistent T -> u32 t -> u32 k -> value_ok v ->
  exists ids, (run (EdgesByProperty t k v) m).1 = Ok ids /\ StronglySorted Z.lt ids /\
    (forall e, e ∈ ids <-> edge_matches T t k v e).
Proof.
  intros Hm Hc Ht Hk Hv. apply (wp_outcome _ T m (fun r => exists ids, r = Ok ids /\ _) Hm). apply wp_EdgesByProperty; eauto.
Qed.

Lemma edges_by_property_correct_witness :
  exists T, Rep T sample /\ (run (EdgesByProperty 1 3 (VInt 5)) sample).1 = Ok [1] /\
    exists ids, (run (EdgesByProperty 1 3 (VInt 5)) sample).1 = Ok ids /\ StronglySorted Z.lt ids /\
      (forall e, e ∈ ids <-> edge_matches T 1 3 (VInt 5) e).
Proof.
  open_sample T. split; [vm_compute; reflexivity|].
  apply (edges_by_property_correct T sample 1 3 (VInt 5));
    [exact Hrep|apply Hdb|split; reflexivity || discriminate|split; reflexivity || discriminate|vm_compute; split; congruence].
Defined.

(** OutEdges and InEdges return each edge that leaves (enters) the node,
    of the type asked for or of any type, exactly once. *)
Theorem adjacency_correct (T : tables) (m : store) (n t : Z) :
  Rep T m -> consistent T -> u64 n -> u32 t ->
  (exists refs, (run (OutEdges n t) m).1 = Ok refs /\ edge_refs T (fun r => Src r = n /\ (t = 0 \/ Type_ r = t)) refs) /\
  (exists refs, (run (InEdges n t) m).1 = Ok refs /\ edge_refs T (fun r => Dst r = n /\ (t = 0 \/ Type_ r = t)) refs).
Proof.
  intros Hm Hc Hn Ht. split.
  - apply (wp_outcome _ T m (fun r => exists refs, r = Ok refs /\ _) Hm). apply wp_OutEdges; eauto.
  - apply (wp_outcome _ T m (fun r => exists refs, r = Ok refs /\ _) Hm). apply wp_InEdges; eauto.
Qed.

Lemma adjacency_correct_witness :
  exists T, Rep T sample /\ (run (OutEdges 1 0) sample).1 = Ok [mkEdgeRef 1 1 1 2] /\
    (exists refs, (run (OutEdges 1 0) sample).1 = Ok refs /\ edge_refs T (fun r => Src r = 1 /\ (0 = 0 \/ Type_ r = 0)) refs) /\
    (exists refs, (run (InEdges 1 0) sample).1 = Ok refs /\ edge_refs T (fun r => Dst r = 1 /\ (0 = 0 \/ Type_ r = 0)) refs).
Proof.
  open_sample T. split; [vm_compute; reflexivity|].
  apply (adjacency_correct T sample 1 0);
    [exact Hrep|apply Hdb|split; reflexivity || discriminate|split; reflexivity || discriminate].
Defined.

(** ** Schema *)



(** C26: CREATE INDEX, on a label or on a relationship type, registers the index
    with all its entries and changes nothing else, is idempotent, and refuses a
    name in use; DROP INDEX removes the index of that name and its entries and
    refuses one that backs a constraint. *)
Theorem index_statements_correct (T : tables) (m m' m'' : store) (rel : bool) (name label prop name' : bytes) (ifExists : bool) (r r' : res unit) :
  Rep T m -> db_ok T ->
  run (if rel then createRelIndex name label prop else createIndex name label prop) m = (r, m') ->
  run (dropIndex name' ifExists) m = (r', m'') ->
  (exists T', Rep T' m' /\ (if rel then createRelIndex_post T name label prop r T' else createIndex_post T name label prop r T')) /\
  (exists T', Rep T' m'' /\ dropIndex_post T name' ifExists r' T').
Proof.
  intros Hm Hdb E1 E2. split.
  - destruct rel; eapply wp_run; [by apply wp_createRelIndex|done|done|by apply wp_createIndex|done|done].
  - by eapply wp_run; [apply wp_dropIndex|..].
Qed.

Lemma index_statements_correct_witness :
  exists T, Rep T sample /\
    (exists T', Rep T' (run (createIndex (str "i") (str "P") (str "w")) sample).2 /\
      createIndex_post T (str "i") (str "P") (str "w") (Ok tt) T') /\
    (exists T', Rep T' (run (dropIndex (str "index_P_name") false) sample).2 /\
      dropIndex_post T (str "index_P_name") false (Err ErrBacksConstraint) T').
Proof.
  open_sample T.
  apply (index_statements_correct T sample _ _ false (str "i") (str "P") (str "w") (str "index_P_name") false (Ok tt) (Err ErrBacksConstraint));
    [exact Hrep|exact Hdb|apply run_outcome; vm_compute; reflexivity|apply run_outcome; vm_compute; reflexivity].
Defined.

(** ** Uniqueness *)
Lemma Rep_get T m sk : Rep T m -> skey_ok sk -> cell T sk (m !! key_of sk).
Proof. intros [Hm _]. apply Hm. Qed.

Lemma run_GetNode_ok T m n node : Rep T m -> u64 n -> (run (GetNode n) m).1 = Ok node -> nodes T n = Some (n_rec node).
Proof.
  intros Hm Hn. apply (wp_outcome (GetNode n) T m (fun r => r = Ok node -> _) Hm). apply wp_GetNode; [done|].
  destruct (nodes T n) as [r|]; [|done]. by intros [= <-].
Qed.

Lemma run_GetConstraint_ok T m l k d :
  Rep T m -> u32 l -> u32 k -> (run (GetConstraint l k) m).1 = Ok (Some d) -> is_Some (constr T (l, k)).
Proof.
  intros Hm Hl Hk. apply (wp_outcome (GetConstraint l k) T m (fun r => r = Ok (Some d) -> _) Hm).
  apply wp_GetConstraint; [done|done|]. destruct (constr T (l, k)) as [c|]; [by eexists|done].
Qed.



(** Setting a property to null under a unique constraint does not only
    remove it: the node becomes the holder of null. A second node whose property
    is set to null is refused, although neither has the property, and deleting
    the first node does not help: the index entry and the owner entry of its
    null survive it. *)
Theorem set_null_claims_null :
  let set_null n := SetProperty n (str "name") VNull in
  let m1 := (run (set_null 1) sample).2 in
  let m2 := (run (DetachDeleteNode 1) m1).2 in
  (run (set_null 1) sample).1 = Ok tt /\ (run (set_null 2) m1).1 = Err ErrConstraintViolation /\
  (run (DetachDeleteNode 1) m1).1 = Ok tt /\ (run (GetNode 1) m2).1 = Err ErrNodeNotFound /\
  m2 !! key_of (KProp 1 1 VNull 1) = Some [] /\ (run (set_null 2) m2).1 = Err ErrConstraintViolation.
Proof. vm_compute. repeat split. Qed.

(** default index names are not unique: two indexes on different labels
    and properties can both be known as index_A_b_c, and DROP INDEX by that name
    removes one of them and reports success while the other stays. *)
Theorem default_index_names_collide :
  let m := commits [OpCreateIndex [] (str "A") (str "b_c"); OpCreateIndex [] (str "A_b") (str "c")] ∅ in
  (exists i j, (run listAllIndexes m).1 = Ok [i; j] /\ ii_name i = ii_name j /\ ii_labelID i <> ii_labelID j) /\
  (run (dropIndex (str "index_A_b_c") false) m).1 = Ok tt /\
  exists j, (run listAllIndexes (run (dropIndex (str "index_A_b_c") false) m).2).1 = Ok [j] /\ ii_name j = str "index_A_b_c".
Proof.
  vm_compute. split; [do 2 eexists; split; [reflexivity|split; [reflexivity|discriminate]]|].
  split; [reflexivity|]. eexists. split; reflexivity.
Qed.
