(* ===== verification/ScanClaims.v ===== *)
(** * ScanClaims: what streaming scans guarantee on a database *)
From S2P Require Import Prelude Float64 Values Scalars IndexCodec Keys Records Storage Catalog Graph RangeScan.
From S2P Require Import Tables GraphInv NodeOps NodeUpdates Traversal Lookups Ranges IndexOps Ddl EdgeOps History GraphClaims.
Import Float64 Scalars RangeScan.

(** C32: the range scan of an indexed property is complete and clean: on a
    consistent database, with bounds of any value (integers and floats mixed,
    beyond 2^53, infinities, zeros of both signs, strings, prefixes), reading
    the cursor to its end terminates, changes nothing, yields each node at most
    once and only nodes that have the label and the property, and yields every
    node whose value the comparison operators of queries accept; when it
    returns no cursor, no node is accepted.  So the filter that stays in the plan
    makes the result exact. *)
Theorem range_scan_correct (T : tables) (m : store) (l k : Z) (r : PropRange) :
  Rep T m -> consistent T -> u32 l -> u32 k -> range_ok r -> is_Some (index T (l, k)) ->
  (run (ScanPropertyRange l k r) m = (Ok None, m) /\
   forall n rec v, nodes T n = Some rec -> l ∈ Labels rec -> Props rec !! k = Some v -> ~ accepts r v) \/
  (exists c ns, run (ScanPropertyRange l k r) m = (Ok (Some c), m) /\ yields m c ns /\ NoDup (n_ID <$> ns) /\
   (forall x, x ∈ ns -> nodes T (n_ID x) = Some (n_rec x) /\ l ∈ Labels (n_rec x) /\ is_Some (Props (n_rec x) !! k)) /\
   (forall n rec v, nodes T n = Some rec -> l ∈ Labels rec -> Props rec !! k = Some v -> accepts r v -> mkNode n rec ∈ ns)).
Proof. apply range_scan_yields. Qed.

(** The nodes of the sample whose age is at least 0.5. *)
Definition age_range : PropRange := mkPropRange (VFloat 0x3FE0000000000000) VNull true false true false [] false.

Lemma range_scan_correct_witness : exists T, Rep T sample /\
  ((run (ScanPropertyRange 1 2 age_range) sample = (Ok None, sample)) \/
   (exists c ns, run (ScanPropertyRange 1 2 age_range) sample = (Ok (Some c), sample) /\ yields sample c ns)).
Proof.
  open_sample T.
  destruct (range_scan_correct T sample 1 2 age_range) as [[E _]|(c & ns & E & Hy & _)].
  - exact Hrep.
  - apply Hdb.
  - solve_width.
  - solve_width.
  - split; [cbn; solve_width|exact I|constructor].
  - destruct Hrep as [Hm _]. specialize (Hm (KIndex 1 2) ltac:(cbn; split; solve_width)). cbn [cell] in Hm. rewrite <- Hm.
    assert (match sample !! key_of (KIndex 1 2) with Some _ => true | None => false end = true) as Hi by (vm_compute; reflexivity).
    revert Hi. destruct (sample !! key_of (KIndex 1 2)); [by eexists|discriminate].
  - left. exact E.
  - right. exists c, ns. split; [exact E|exact Hy].
Defined.

(** C33: a label scan and a full scan terminate and stream exactly the nodes with
    that label, and exactly all nodes, each once with its current record, in
    identifier order. *)
Theorem scan_cursors_correct (T : tables) (m : store) (l : Z) (Hm : Rep T m) (Hc : consistent T) (Hl : u32 l) :
  (exists c ns, run (ScanLabel l) m = (Ok c, m) /\ yields m c ns /\ StronglySorted Z.lt (n_ID <$> ns) /\
     (forall x, x ∈ ns <-> nodes T (n_ID x) = Some (n_rec x) /\ l ∈ Labels (n_rec x))) /\
  (exists c ns, run ScanAllNodes m = (Ok c, m) /\ yields m c ns /\ StronglySorted Z.lt (n_ID <$> ns) /\
     (forall x, x ∈ ns <-> nodes T (n_ID x) = Some (n_rec x))).
Proof. split; [by apply label_cursor|by apply all_cursor]. Qed.

Lemma scan_cursors_correct_witness : exists T, Rep T sample /\
  exists c ns, run (ScanLabel 1) sample = (Ok c, sample) /\ yields sample c ns.
Proof.
  open_sample T. destruct (scan_cursors_correct T sample 1 Hrep ltac:(apply Hdb) ltac:(solve_width)) as [(c & ns & E & Hy & _) _].
  exists c, ns. split; [exact E|exact Hy].
Defined.
