(* ===== verification/EvalClaims.v ===== *)
(** * EvalClaims: expression evaluation on a database

    The promise [store_typed] that evaluation needs of the graph layer holds of
    every consistent store, so evaluation is type sound, read-only and
    independent of what its context has cached, on every such store. *)
From S2P Require Import Prelude Float64 Values Ast Scalars Keys Records Storage Catalog Graph Context Functions Eval.
From S2P Require Import Tables GraphInv NodeOps NodeUpdates Traversal Lookups IndexOps Ddl EdgeOps History GraphClaims.
Import Float64 Ast Scalars Context Functions Eval.

Definition store_bytes (s : store) : Prop := map_Forall (fun _ v => bytes_ok v) s.
#[global] Instance store_bytes_dec s : Decision (store_bytes s).
Proof. unfold store_bytes. apply _. Defined.

Lemma node_typed T n r : consistent T -> nodes T n = Some r -> value_ok (node_value (mkNode n r)).
Proof.
  intros Hc Hr. destruct (con_node _ Hc _ _ Hr) as (Hn & Hs & _). apply value_ok_node.
  split; [by eapply node_u64|]. split; [apply Hs|]. apply Forall_forall. intros [k v] Hin. cbn [n_rec] in Hin.
  apply elem_of_map_to_list in Hin. destruct (ns_props _ Hs _ _ Hin) as [Hk Hv]. split; [done|]. apply Hv.
Qed.

Lemma GetNode_shape id s n : fst (run (GetNode id) s) = Ok n -> n = mkNode id (n_rec n).
Proof.
  unfold GetNode. cbn [Get mbind prog_bind run]. destruct (s !! NodeKey id) as [b|]; cbn; [|done].
  destruct (DecodeNode b); cbn; [|done]. by intros [= <-].
Qed.

Lemma consistent_store_typed T s : Rep T s -> consistent T -> store_bytes s -> store_typed s.
Proof.
  intros Hm Hc Hb. split.
  - intros id n Hid E. rewrite (GetNode_shape id s n E). apply (node_typed T); [done|].
    by apply (run_GetNode_ok T s).
  - intros d id name _. unfold revName. cbn [Get mbind prog_bind run].
    destruct (s !! _) as [v|] eqn:E; cbn; [|done]. intros [= <-]. by apply (Hb _ _ E).
Qed.

(** C34: on any consistent database, evaluating a well-formed expression over a
    well-formed row never changes the store and never gets stuck: it delivers
    an error or a well-formed value (integers in int64, floats 64-bit patterns,
    strings byte strings, maps canonical).  The dictionary and pattern caches of
    the context are invisible: two contexts of the same query that have cached
    different things give the same result, and what they cache stays right. *)
Theorem eval_sound `{RuntimeLaws} (T : tables) (s : store) (e : Expr) (b : gmap (list Z) value) (c1 c2 : Context) :
  Rep T s -> consistent T -> store_bytes s -> expr_ok e -> binding_ok b ->
  valid s c1 -> valid s c2 -> same_query c1 c2 ->
  exists r c1' c2',
    run (eval e b c1) s = (Ok (r, c1'), s) /\ run (eval e b c2) s = (Ok (r, c2'), s) /\
    valid s c1' /\ valid s c2' /\ same_query c1' c2' /\ (forall v, r = Ok v -> value_ok v).
Proof.
  intros Hm Hc Hb He Hr H1 H2 Hq.
  destruct (eval_reads e b He Hr s c1 c2 (consistent_store_typed T s Hm Hc Hb)) as (r & d1 & d2 & E1 & E2 & (V1 & V2 & Hq') & Hv).
  - by split_and!.
  - by exists r, d1, d2.
Qed.

#[local] Existing Instance plain_runtime.

(** [n.name] on a row whose [n] is the first node, with an empty and with a
    filled cache. *)
Definition name_of_n : Expr := PropertyAccess (Variable_ (str "n")) (str "name").
Definition row_n : gmap (list Z) value := {[ str "n" := VNode 1 [1] [(1, VStr (str "a")); (2, VInt 1)] ]}.
Definition warm : Context := set_keyIDs {[ str "name" := 1 ]} (new_context ∅ 0).

Lemma valid_empty s : valid s (new_context ∅ 0).
Proof. by split. Qed.
Lemma valid_warm : valid sample warm.
Proof.
  split; try done. intros n i Hi. change (({[str "name" := 1]} : gmap (list Z) Z) !! n = Some i) in Hi.
  apply lookup_singleton_Some in Hi as [<- <-].
  apply run_outcome. vm_compute. reflexivity.
Qed.

Lemma eval_sound_witness : exists r c1' c2',
  run (eval name_of_n row_n (new_context ∅ 0)) sample = (Ok (r, c1'), sample) /\
  run (eval name_of_n row_n warm) sample = (Ok (r, c2'), sample) /\ (forall v, r = Ok v -> value_ok v).
Proof.
  destruct sample_db as (T & Hrep & Hdb).
  destruct (eval_sound T sample name_of_n row_n (new_context ∅ 0) warm) as (r & c1 & c2 & E1 & E2 & _ & _ & _ & Hv).
  - exact Hrep.
  - apply Hdb.
  - apply (bool_decide_unpack _). vm_compute. exact I.
  - exact I.
  - unfold row_n. apply map_Forall_singleton, value_ok_node.
    split_and!; [solve_width|repeat constructor; solve_width|]. rewrite !Forall_cons, Forall_nil. cbn [fst snd].
    split_and!; try done; try solve_width. exact (bytes_ok_str "a").
  - apply valid_empty.
  - apply valid_warm.
  - done.
  - exists r, c1, c2. split; [exact E1|]. split; [exact E2|exact Hv].
Defined.
