(* ===== verification/Queries.v ===== *)
(** * Queries: what a read query answers

    An abstract specification of plans that only read, [answers], in terms of
    the graph ([tables]) and of list operations: a filter filters, SKIP drops,
    LIMIT takes, a product pairs, ORDER BY sorts stably, OPTIONAL MATCH pads
    with nulls.  The executor refines it: whatever rows the specification gives,
    building the operators and draining them returns those rows, after finitely
    many steps, leaving the store as it was. *)
From S2P Require Import Prelude Float64 FloatArith Values Ast Plan Scalars Text Keys Records Storage Catalog Graph Context Functions Eval.
From S2P Require Import Shortest Aggregate Expand Write StableSort RangeScan Tables GraphInv NodeOps NodeUpdates Traversal Lookups Ranges Ddl Operators QueryLaws.
Import Ast Scalars Text Context Functions Eval Shortest Aggregate Expand Write StableSort Operators QueryLaws.

Module Queries.
Section queries.
Context `{Runtime, MapOrder} (T : tables) (s : store).

(** ** The graph's side of the leaves *)

(** The nodes with a property of their record, in identifier order. *)
Definition node_list (P : NodeRecord -> Prop) (ns : list Node) : Prop :=
  StronglySorted Z.lt (n_ID <$> ns) /\ forall x, x ∈ ns <-> nodes T (n_ID x) = Some (n_rec x) /\ P (n_rec x).

Definition labelled (label : bytes) (r : NodeRecord) : Prop :=
  exists l, fwd T (DLabel, label) = Some l /\ l ∈ Labels r.
Definition holds (key : bytes) (v : value) (r : NodeRecord) : Prop :=
  exists k w, fwd T (DKey, key) = Some k /\ Props r !! k = Some w /\ equals w v = true.

Definition node_rows (v : bytes) (ns : list Node) : list binding := (fun n => {[ v := node_value n ]}) <$> ns.

(** The relationships of a type that hold a value, in identifier order. *)
Definition edge_list (typ key : bytes) (v : value) (es : list Z) : Prop :=
  StronglySorted Z.lt es /\ forall e, e ∈ es <-> exists r t k w, edges T e = Some r /\
    fwd T (DType, typ) = Some t /\ Type_ r = t /\ fwd T (DKey, key) = Some k /\ EProps r !! k = Some w /\ equals w v = true.

(** The nodes an index range scan streams ([range_scan_correct] says which). *)
Definition range_nodes (l k : Z) (r : RangeScan.PropRange) (ns : list Node) : Prop :=
  (run (RangeScan.ScanPropertyRange l k r) s = (Ok None, s) /\ ns = []) \/
  exists c, run (RangeScan.ScanPropertyRange l k r) s = (Ok (Some c), s) /\ yields s c ns.

(** ** The specification *)
Definition type_ids (types : list bytes) : list Z := omap (fun name => fwd T (DType, name)) types.

(** The lists of a comparison that is a strict weak order on the rows. *)
Definition sorted_by (keys : list SortKey) (ins rows : list binding) : Prop :=
  exists lt, StrictWeak (fun b => b ∈ ins) lt /\
    (forall x y, x ∈ ins -> y ∈ ins -> evaluates s (sort_less keys x y) (lt x y)) /\
    stable_sort (fun b => b ∈ ins) lt ins rows.

Fixpoint answers (p : Plan.Op) (arg : option binding) (rows : list binding) {struct p} : Prop :=
  let row := default ∅ arg in
  match p with
  | Plan.Nothing => rows = [∅]
  | Plan.Argument => exists b, arg = Some b /\ rows = [b]
  | Plan.AllNodesScan v => exists ns, node_list (fun _ => True) ns /\ rows = node_rows v ns
  | Plan.NodeByLabelScan v label => exists ns, node_list (labelled label) ns /\ rows = node_rows v ns
  | Plan.NodeByProperty v label key e => exists val ns,
      evaluates s (eval e row) val /\ value_ok val /\
      node_list (fun r => labelled label r /\ holds key (normalize val) r) ns /\ rows = node_rows v ns
  | Plan.NodeByPropertyRange v label key lo up li ui pre => exists l k pv lov upv ns,
      fwd T (DLabel, label) = Some l /\ fwd T (DKey, key) = Some k /\
      evaluates s (eval_opt pre row) pv /\ evaluates s (eval_opt lo row) lov /\ evaluates s (eval_opt up row) upv /\
      (forall w, pv = Some w -> exists t, w = VStr t) /\
      range_nodes l k (range_of pv lov upv li ui) ns /\ rows = node_rows v ns
  | Plan.RelByProperty rel from to_ dir typ key e => exists val es rss,
      evaluates s (eval e row) val /\ value_ok val /\ edge_list typ key (normalize val) es /\
      Forall2 (fun e rs => run (rel_rows rel from to_ dir e) s = (Ok rs, s)) es rss /\ rows = mjoin rss
  | Plan.Expand i from rel to_ types dir varLength minHops maxHops toBound toUnused relUnused => exists ins rss,
      answers i arg ins /\ rows = mjoin rss /\
      if (varLength : bool) then
        Forall2 (gathered (var_emits s rel to_ toBound)
          (var_gathers s from dir (any_type types) (type_ids types) minHops maxHops) (fun _ => False)) ins rss
      else
        Forall2 (gathered (expand_emits s rel to_ toBound toUnused relUnused)
          (expand_gathers s from dir (any_type types) (type_ids types)) (fun _ => False)) ins rss
  | Plan.ShortestPath i from to_ pathVar relVar types dir minHops maxHops all => exists ins rss,
      answers i arg ins /\ rows = mjoin rss /\
      Forall2 (gathered (path_emits s pathVar relVar)
        (path_gathers s from to_ (path_spec (if any_type types then None else Some (type_ids types)) dir minHops maxHops all))
        (path_skips from to_)) ins rss
  | Plan.Filter i pred => exists ins vs, answers i arg ins /\
      Forall2 (fun b v => evaluates s (eval pred b) v) ins vs /\
      rows = (filter (fun bv => truthy bv.2 = true) (zip ins vs)).*1
  | Plan.Project i items distinct => exists ins outs, answers i arg ins /\
      Forall2 (fun b out => evaluates s (project_row items b) out) ins outs /\
      rows = (if (distinct : bool) then dedup (fun b => rowKey b items) ∅ outs else outs)
  | Plan.Aggregate i gk aggs _ => exists ins specs gs, answers i arg ins /\ parseAggFuncs aggs = Ok specs /\
      places s gk specs (empty_groups gk specs) ins gs /\ rows = output gk aggs specs gs
  | Plan.Sort i keys => exists ins, answers i arg ins /\ sorted_by keys ins rows
  | Plan.Skip i count => exists ins n, answers i arg ins /\ evaluates s (evalCount count) n /\ rows = drop (Z.to_nat n) ins
  | Plan.Limit i count => exists ins n, answers i arg ins /\ evaluates s (evalCount count) n /\ rows = take (Z.to_nat n) ins
  | Plan.CartesianProduct l r => exists ls rs, answers l arg ls /\ answers r arg rs /\ rows = products ls rs
  | Plan.Unwind i e alias => exists ins ls, answers i arg ins /\
      Forall2 (fun b l => exists v, evaluates s (eval e b) v /\ listed v l) ins ls /\
      rows = mjoin (zip_with (unwinds alias) ins ls)
  | Plan.Apply outer inner => exists outs rss, answers outer arg outs /\
      Forall2 (fun b rs => answers inner (Some b) rs) outs rss /\ rows = mjoin (zip_with (applied [] true) outs rss)
  | Plan.OuterApply outer inner vars => exists outs rss, answers outer arg outs /\
      Forall2 (fun b rs => answers inner (Some b) rs) outs rss /\ rows = mjoin (zip_with (applied vars false) outs rss)
  | Plan.Union parts columns all => exists rss,
      (fix parts_answer (parts : list Plan.Op) (rss : list (list binding)) : Prop :=
         match parts, rss with
         | [], [] => True
         | p :: parts', rs :: rss' => answers p arg rs /\ parts_answer parts' rss'
         | _, _ => False
         end) parts rss /\
      rows = (if (all : bool) then mjoin rss else dedup (fun b => unionKey b columns) ∅ (mjoin rss))
  | Plan.Create _ _ | Plan.Merge _ _ _ _ | Plan.SetItems _ _ | Plan.Remove _ _ | Plan.Delete _ _ _
  | Plan.CreateIndex _ _ _ _ | Plan.DropIndex _ _ | Plan.ShowIndexes
  | Plan.CreateConstraint _ _ _ | Plan.DropConstraint _ _ | Plan.ShowConstraints => False
  end.
(** ** Reading the catalog and the records *)
Context (HT : Rep T s) (Hc : consistent T).

Lemma run_lookup d name : run (lookupDict (dict_tag d) name) s = (Ok (fwd T (d, name)), s).
Proof.
  rewrite (read_only_run _ s (read_only_lookup _ _)). f_equal.
  destruct (wp_lookupDict d name T (fun r _ => r = Ok (fwd T (d, name))) (con_cat _ Hc) eq_refl s HT) as (_ & _ & E). exact E.
Qed.
Lemma ev_LookupLabel name : evaluates s (txn (LookupLabel name)) (fwd T (DLabel, name)).
Proof. apply evaluates_txn, (run_lookup DLabel). Qed.
Lemma ev_LookupKey name : evaluates s (txn (LookupKey name)) (fwd T (DKey, name)).
Proof. apply evaluates_txn, (run_lookup DKey). Qed.
Lemma ev_LookupType name : evaluates s (txn (LookupType name)) (fwd T (DType, name)).
Proof. apply evaluates_txn, (run_lookup DType). Qed.

Lemma fwd_u32 d name id : fwd T (d, name) = Some id -> u32 id.
Proof. intros Hf. eapply known_u32; [done|]. eapply known_fwd; [apply Hc|done]. Qed.

Lemma run_GetNode n r : nodes T n = Some r -> run (GetNode n) s = (Ok (mkNode n r), s).
Proof.
  intros Hn. rewrite (read_only_run _ s (read_only_GetNode _)). f_equal.
  destruct (wp_GetNode n T (fun x _ => x = Ok (mkNode n r)) ltac:(by eapply node_u64) ltac:(by rewrite Hn) s HT) as (_ & _ & E). exact E.
Qed.

Lemma run_nodes ns : (forall x, x ∈ ns -> nodes T (n_ID x) = Some (n_rec x)) ->
  Forall2 (fun id n => run (GetNode id) s = (Ok n, s)) (n_ID <$> ns) ns.
Proof.
  induction ns as [|x ns IH]; intros Hns; cbn [fmap list_fmap]; constructor; [|apply IH; set_solver].
  rewrite (run_GetNode _ _ (Hns x ltac:(left))). by destruct x.
Qed.

(** A list sorted by identifier is determined by its elements. *)
Lemma ids_unique (l1 l2 : list Z) : StronglySorted Z.lt l1 -> StronglySorted Z.lt l2 ->
  (forall x, x ∈ l1 <-> x ∈ l2) -> l1 = l2.
Proof.
  intros S1 S2 Heq. apply (StronglySorted_unique Z.le); [by apply sorted_lt_le..|].
  apply NoDup_Permutation; [by apply sorted_lt_nodup..|done].
Qed.

Lemma node_list_unique P ns1 ns2 : node_list P ns1 -> node_list P ns2 -> ns1 = ns2.
Proof.
  intros [S1 H1] [S2 H2]. assert (n_ID <$> ns1 = n_ID <$> ns2) as E.
  { apply ids_unique; [done..|]. intros x. rewrite !list_elem_of_fmap.
    split; intros (y & -> & Hy); exists y; (split; [done|]); [by apply H2, H1|by apply H1, H2]. }
  clear S1 S2. assert (forall x, x ∈ ns1 -> nodes T (n_ID x) = Some (n_rec x)) as N1 by (intros x Hx; by apply H1).
  assert (forall x, x ∈ ns2 -> nodes T (n_ID x) = Some (n_rec x)) as N2 by (intros x Hx; by apply H2).
  clear H1 H2. revert ns2 E N2. induction ns1 as [|x ns1 IH]; intros [|y ns2] E N2; cbn in *; try done.
  injection E as Exy E. f_equal; [|apply IH; [set_solver|done|set_solver]].
  pose proof (N1 x ltac:(left)) as Ex. pose proof (N2 y ltac:(left)) as Ey. rewrite Exy, Ey in Ex. destruct x, y; cbn in *. congruence.
Qed.
(** ** The leaves *)
Lemma leaf_all v ns : node_list (fun _ => True) ns ->
  exists o, evaluates s (buildWith (Plan.AllNodesScan v) None) o /\ produces s o (node_rows v ns).
Proof.
  intros Hns. destruct (all_cursor T s HT Hc) as (c & ns' & Er & Hy & Hs & Hin).
  assert (ns = ns') as ->.
  { eapply node_list_unique; [exact Hns|]. split; [done|]. intros x. rewrite Hin. tauto. }
  eexists. split; [|by apply produces_cursor]. cbn. eapply evaluates_bind; [by apply evaluates_txn|apply evaluates_ret].
Qed.

Lemma node_list_none P ns : (forall r, ~ P r) -> node_list P ns -> ns = [].
Proof.
  intros HP [_ Hin]. destruct ns as [|x ns]; [done|]. destruct (HP (n_rec x)). by apply Hin; left.
Qed.

Lemma leaf_none v : produces s (nodeScan v None [] 0) (node_rows v []).
Proof. by apply (produces_ids s v [] []). Qed.

Lemma leaf_label v label ns arg : node_list (labelled label) ns ->
  exists o, evaluates s (buildWith (Plan.NodeByLabelScan v label) arg) o /\ produces s o (node_rows v ns).
Proof.
  intros Hns. cbn [buildWith]. destruct (fwd T (DLabel, label)) as [l|] eqn:El.
  - destruct (label_cursor T s l HT Hc (fwd_u32 _ _ _ El)) as (c & ns' & Er & Hy & Hs & Hin).
    assert (ns = ns') as ->.
    { eapply node_list_unique; [exact Hns|]. split; [done|]. intros x. rewrite Hin. unfold labelled. rewrite El.
      split; [intros [Hx Hl]; split; [done|by exists l]|intros [Hx (l' & [= <-] & Hl)]; done]. }
    eexists. split; [|by apply produces_cursor]. eapply evaluates_bind; [apply ev_LookupLabel|]. rewrite El.
    eapply evaluates_bind; [by apply evaluates_txn|apply evaluates_ret].
  - assert (ns = []) as ->.
    { eapply node_list_none; [|exact Hns]. intros r (l & E & _). congruence. }
    eexists. split; [|apply leaf_none]. eapply evaluates_bind; [apply ev_LookupLabel|]. rewrite El. apply evaluates_ret.
Qed.

(** *** Equality lookups *)
Lemma read_only_NodesByLabel l : read_only (NodesByLabel l).
Proof. unfold NodesByLabel, Scan. read_only_auto. Qed.
Lemma read_only_NodesByProperty l k v : read_only (NodesByProperty l k v).
Proof. unfold NodesByProperty, appendIndexMatches, HasIndex, Scan. cbv zeta. read_only_auto; apply read_only_NodesByLabel. Qed.
Lemma read_only_EdgesByProperty t k v : read_only (EdgesByProperty t k v).
Proof. unfold EdgesByProperty, edgesByScan, HasRelIndex, Scan. cbv zeta. read_only_auto. Qed.
Lemma read_only_edges_equal t k v : read_only (edges_equal t k v).
Proof. unfold edges_equal, Scan. read_only_auto. Qed.
Lemma read_only_nodes_equal l k v : read_only (nodesWithEqualProperty l k v).
Proof. unfold nodesWithEqualProperty. read_only_auto; apply read_only_NodesByLabel. Qed.

Lemma equals_indexable w v : IsIndexable v = true -> v <> VNull -> equals w v = QueryEqual w v.
Proof. unfold equals, QueryEqual. destruct w, v; cbn; done. Qed.
(** Picking identifiers out of a sorted list keeps it sorted. *)
Lemma picks {A : Type} (id : A -> Z) (p : A -> bool) (l : list A) : StronglySorted Z.lt (id <$> l) ->
  StronglySorted Z.lt (concat ((fun x => if p x then [id x] else []) <$> l)) /\
  forall z, z ∈ concat ((fun x => if p x then [id x] else []) <$> l) <-> exists x, x ∈ l /\ p x = true /\ z = id x.
Proof.
  induction l as [|x l IH]; cbn [fmap list_fmap concat].
  { intros _. split; [constructor|]. set_solver. }
  intros [Hs Hf]%StronglySorted_inv. destruct (IH Hs) as [IHs IHin]. destruct (p x) eqn:Ep; cbn [app]; split; try done.
  - constructor; [done|]. rewrite Forall_forall in *. intros z (y & Hy & _ & ->)%IHin. apply Hf, list_elem_of_fmap. by exists y.
  - intros z. rewrite elem_of_cons, IHin. split.
    + intros [->|(y & Hy & Hp & ->)]; [exists x|exists y]; (split; [set_solver|done]).
    + intros (y & [->|Hy]%elem_of_cons & Hp & ->); [by left|right; by exists y].
  - intros z. rewrite IHin. split; intros (y & Hy & Hp & ->); exists y; (split; [|done]); [set_solver|].
    apply elem_of_cons in Hy as [->|Hy]; [congruence|done].
Qed.

(** The test of one record of an unindexed lookup. *)
Definition holds_at (k : Z) (v : value) (props : gmap Z value) : bool :=
  match props !! k with Some w => equals w v | None => false end.

Lemma holds_at_true k v props : holds_at k v props = true <-> exists w, props !! k = Some w /\ equals w v = true.
Proof. unfold holds_at. destruct (props !! k) as [w|]; [|naive_solver]. split; [by exists w|by intros (? & [= <-] & ?)]. Qed.

Lemma run_nodes_equal l k v : u32 l -> exists ids, run (nodesWithEqualProperty l k v) s = (Ok ids, s) /\
  StronglySorted Z.lt ids /\ forall n, n ∈ ids <-> exists r, nodes T n = Some r /\ l ∈ Labels r /\ holds_at k v (Props r) = true.
Proof.
  intros Hl. destruct (wp_NodesByLabel T l (fun r _ => exists ids, r = Ok ids /\ StronglySorted Z.lt ids /\ (forall n, n ∈ ids <-> has_label T l n))
    Hc Hl (fun ids Hs Hin => ex_intro _ ids (conj eq_refl (conj Hs Hin))) s HT) as (_ & _ & ids & Eids & Hs & Hin).
  pose proof (read_only_run _ s (read_only_NodesByLabel l)) as Er. rewrite Eids in Er.
  set (p := fun id => match nodes T id with Some r => holds_at k v (Props r) | None => false end).
  destruct (picks (fun z => z) p ids) as [Ps Pin]; [by rewrite list_fmap_id|].
  exists (concat ((fun x => if p x then [x] else []) <$> ids)). split_and!; [|done|].
  - unfold nodesWithEqualProperty. rewrite run_bind, Er, run_bind. cbn iota beta.
    enough (forall l0, (forall n, n ∈ l0 -> has_label T l n) -> run (map_prog (fun id => node ← GetNode id;
      mret match Props (n_rec node) !! k with Some w => if equals w v then [id] else [] | None => [] end) l0) s =
      (Ok ((fun x => if p x then [x] else []) <$> l0), s)) as -> by (done || (intros n Hn; by apply Hin)).
    clear Pin Ps Er Eids Hs Hin ids. induction l0 as [|n l0 IH]; intros Hl0; [done|]. cbn [map_prog].
    destruct (Hl0 n ltac:(left)) as (r & Hr & _). rewrite !run_bind, (run_GetNode _ _ Hr), run_ret, run_bind, IH by set_solver.
    cbn [n_rec fmap list_fmap]. unfold p at 2. rewrite Hr. unfold holds_at.
    destruct (Props r !! k) as [w|]; [|done]. by destruct (equals w v).
  - intros n. rewrite Pin. split.
    + intros (x & Hx & Hp & ->). apply Hin in Hx as (r & Hr & Hl'). exists r. unfold p in Hp. by rewrite Hr in Hp.
    + intros (r & Hr & Hl' & Hp). exists n. split; [apply Hin; by exists r|]. unfold p. by rewrite Hr.
Qed.

Lemma run_lookup_nodes l k v : u32 l -> u32 k -> value_ok v -> v <> VNull -> exists ids,
  run (if IsIndexable v then NodesByProperty l k v else nodesWithEqualProperty l k v) s = (Ok ids, s) /\
  StronglySorted Z.lt ids /\ forall n, n ∈ ids <-> exists r, nodes T n = Some r /\ l ∈ Labels r /\ holds_at k v (Props r) = true.
Proof.
  intros Hl Hk Hv Hn. destruct (IsIndexable v) eqn:Ei; [|by apply run_nodes_equal].
  destruct (wp_NodesByProperty T l k Hc Hl Hk v
    (fun r _ => exists ids, r = Ok ids /\ StronglySorted Z.lt ids /\ (forall n, n ∈ ids <-> node_matches T l k v n))
    Hv (fun ids Hs Hin => ex_intro _ ids (conj eq_refl (conj Hs Hin))) s HT) as (_ & _ & ids & Eids & Hs & Hin).
  exists ids. rewrite (read_only_run _ s (read_only_NodesByProperty l k v)), Eids. split_and!; [done..|].
  intros n. rewrite Hin. unfold node_matches. setoid_rewrite holds_at_true. setoid_rewrite (equals_indexable _ v Ei Hn). naive_solver.
Qed.

(** Only a node that [ids] lists has the label and holds the value. *)
Lemma leaf_property v label key e val arg ns :
  evaluates s (eval e (default ∅ arg)) val -> value_ok val ->
  node_list (fun r => labelled label r /\ holds key (normalize val) r) ns ->
  exists o, evaluates s (buildWith (Plan.NodeByProperty v label key e) arg) o /\ produces s o (node_rows v ns).
Proof.
  intros He Hv Hns.
  enough (evaluates s (propertyScanIDs label key e (default ∅ arg)) (n_ID <$> ns)) as Hids.
  { eexists. split; [cbn; eapply evaluates_bind; [exact Hids|apply evaluates_ret]|].
    apply produces_ids. apply run_nodes. intros x Hx. by apply Hns. }
  unfold propertyScanIDs. eapply evaluates_bind; [apply ev_LookupLabel|].
  destruct (fwd T (DLabel, label)) as [l|] eqn:El; [eapply evaluates_bind; [apply ev_LookupKey|]; destruct (fwd T (DKey, key)) as [k|] eqn:Ek|].
  2: { assert (ns = []) as -> by (eapply node_list_none; [|exact Hns]; intros r [_ (? & ? & ? & _)]; congruence). apply evaluates_ret. }
  2: { assert (ns = []) as -> by (eapply node_list_none; [|exact Hns]; intros r [(? & ? & _) _]; congruence). apply evaluates_ret. }
  eapply evaluates_bind; [exact He|].
  assert (normalize val = VNull -> evaluates s (mret []) (n_ID <$> ns)) as Hnull.
  { intros En. assert (ns = []) as ->; [|apply evaluates_ret]. eapply node_list_none; [|exact Hns].
    intros r [_ (? & w & _ & _ & Hw)]. rewrite En in Hw. by destruct w. }
  assert (normalize val <> VNull -> evaluates s (txn (if IsIndexable (normalize val) then NodesByProperty l k (normalize val)
    else nodesWithEqualProperty l k (normalize val))) (n_ID <$> ns)) as Hfound.
  { intros Hn. apply evaluates_txn.
    destruct (run_lookup_nodes l k (normalize val) (fwd_u32 _ _ _ El) (fwd_u32 _ _ _ Ek) (proj1 (normalize_ok _ Hv)) Hn) as (ids & -> & Hs & Hin).
    do 2 f_equal. apply ids_unique; [done|apply Hns|]. intros n. rewrite Hin, list_elem_of_fmap. split.
    - intros (r & Hr & Hl & Hh). exists (mkNode n r). split; [done|]. apply Hns. split; [done|]. split; [by exists l|].
      apply holds_at_true in Hh as (w & Hw & Hq). by exists k, w.
    - intros (x & -> & Hx). apply Hns in Hx as [Hx [(l' & El' & Hl) (k' & w & Ek' & Hw & Hq)]]. simplify_eq.
      exists (n_rec x). split_and!; [done|done|]. apply holds_at_true. by exists w. }
  destruct (normalize val) eqn:En; [by apply Hnull|..]; by apply Hfound.
Qed.
(** *** Relationship lookups *)
Lemma run_lookup_edges t k v : u32 t -> u32 k -> value_ok v -> v <> VNull -> exists ids,
  run (if IsIndexable v then EdgesByProperty t k v else edges_equal t k v) s = (Ok ids, s) /\
  StronglySorted Z.lt ids /\ forall e, e ∈ ids <-> exists r, edges T e = Some r /\ Type_ r = t /\ holds_at k v (EProps r) = true.
Proof.
  intros Ht Hk Hv Hn. destruct (IsIndexable v) eqn:Ei.
  - destruct (wp_EdgesByProperty T t k Hc Ht Hk v
      (fun r _ => exists ids, r = Ok ids /\ StronglySorted Z.lt ids /\ (forall n, n ∈ ids <-> edge_matches T t k v n))
      Hv (fun ids Hs Hin => ex_intro _ ids (conj eq_refl (conj Hs Hin))) s HT) as (_ & _ & ids & Eids & Hs & Hin).
    exists ids. rewrite (read_only_run _ s (read_only_EdgesByProperty t k v)), Eids. split_and!; [done..|].
    intros n. rewrite Hin. unfold edge_matches. setoid_rewrite holds_at_true. setoid_rewrite (equals_indexable _ v Ei Hn). naive_solver.
  - set (out := fun es : list Edge => concat ((fun e => if holds_at k v (EProps (e_rec e)) then [e_ID e] else []) <$> es)).
    destruct (wp_edges_of_type T t (fun es => mret (concat ((fun e => match EProps (e_rec e) !! k with
        | Some w => if equals w v then [e_ID e] else [] | None => [] end) <$> es)))
      (fun r _ => exists es, r = Ok (out es) /\ edges_of_type T t es)
      ltac:(intros e r He; by eapply edge_u64)) with (m := s) as (_ & _ & es & Ees & Hes); [|done|].
    { intros es Hes. apply wp_ret. exists es. split; [|done]. f_equal. unfold out. f_equal. apply list_fmap_ext. intros i e _.
      unfold holds_at. by destruct (EProps (e_rec e) !! k). }
    destruct Hes as [Hs Hes]. destruct (picks e_ID (fun e => holds_at k v (EProps (e_rec e))) es Hs) as [Ps Pin].
    exists (out es). split_and!; [|done|].
    + rewrite (read_only_run _ s (read_only_edges_equal t k v)). f_equal. exact Ees.
    + intros e. unfold out. rewrite Pin. split.
      * intros (x & Hx & Hp & ->). apply Hes in Hx as (e & r & Hr & Hty & ->). by exists r.
      * intros (r & Hr & Hty & Hp). exists (mkEdge e r). split_and!; [apply Hes; by exists e, r|done|done].
Qed.

Lemma leaf_rel rel from to_ dir typ key e val arg es rss :
  evaluates s (eval e (default ∅ arg)) val -> value_ok val -> edge_list typ key (normalize val) es ->
  Forall2 (fun e rs => run (rel_rows rel from to_ dir e) s = (Ok rs, s)) es rss ->
  exists o, evaluates s (buildWith (Plan.RelByProperty rel from to_ dir typ key e) arg) o /\ produces s o (mjoin rss).
Proof.
  intros He Hv [Es Ein] Hrss. exists (relSeek rel from to_ dir es 0 []). split; [|by apply produces_relSeek].
  assert ((forall x, x ∉ es) -> es = []) as Hnone by (destruct es as [|x es']; [done|intros Hx; destruct (Hx x); left]).
  cbn [buildWith]. unfold buildRelSeek. eapply evaluates_bind; [apply ev_LookupType|].
  destruct (fwd T (DType, typ)) as [t|] eqn:Et; [eapply evaluates_bind; [apply ev_LookupKey|]; destruct (fwd T (DKey, key)) as [k|] eqn:Ek|].
  2: { rewrite Hnone; [apply evaluates_ret|]. intros x (? & ? & ? & ? & _ & _ & _ & ? & _)%Ein. congruence. }
  2: { rewrite Hnone; [apply evaluates_ret|]. intros x (? & ? & ? & ? & _ & ? & _)%Ein. congruence. }
  eapply evaluates_bind; [exact He|].
  assert (normalize val = VNull -> evaluates s (mret (relSeek rel from to_ dir [] 0 [])) (relSeek rel from to_ dir es 0 [])) as Hnull.
  { intros En. rewrite Hnone; [apply evaluates_ret|]. intros x (? & ? & ? & w & _ & _ & _ & _ & _ & Hw)%Ein. rewrite En in Hw. by destruct w. }
  assert (normalize val <> VNull -> evaluates s (ids ← txn (if IsIndexable (normalize val) then EdgesByProperty t k (normalize val)
    else edges_equal t k (normalize val)); mret (relSeek rel from to_ dir ids 0 [])) (relSeek rel from to_ dir es 0 [])) as Hfound.
  { intros Hn. destruct (run_lookup_edges t k (normalize val) (fwd_u32 _ _ _ Et) (fwd_u32 _ _ _ Ek) (proj1 (normalize_ok _ Hv)) Hn) as (ids & Er & Hs & Hin).
    eapply evaluates_bind; [by apply evaluates_txn|]. replace ids with es; [apply evaluates_ret|]. apply ids_unique; [done..|].
    intros x. rewrite Hin, Ein. setoid_rewrite holds_at_true. split.
    - intros (r & t' & k' & w & Hr & Et' & Hty & Ek' & Hw & Hq). simplify_eq. exists r. eauto.
    - intros (r & Hr & Hty & w & Hw & Hq). by exists r, t, k, w. }
  destruct (normalize val) eqn:En; [by apply Hnull|..]; by apply Hfound.
Qed.

(** *** Ranges *)
Lemma leaf_range v label key lo up li ui pre arg l k pv lov upv ns :
  fwd T (DLabel, label) = Some l -> fwd T (DKey, key) = Some k ->
  evaluates s (eval_opt pre (default ∅ arg)) pv -> evaluates s (eval_opt lo (default ∅ arg)) lov ->
  evaluates s (eval_opt up (default ∅ arg)) upv -> (forall w, pv = Some w -> exists t, w = VStr t) ->
  range_nodes l k (range_of pv lov upv li ui) ns ->
  exists o, evaluates s (buildWith (Plan.NodeByPropertyRange v label key lo up li ui pre) arg) o /\ produces s o (node_rows v ns).
Proof.
  intros El Ek Hp Hlo Hup Hstr Hr. cbn [buildWith]. unfold propertyRangeScan.
  assert (exists o, evaluates s (cur ← txn (RangeScan.ScanPropertyRange l k (range_of pv lov upv li ui));
    mret (match cur with None => nodeScan v None [] 0 | Some c => nodeScan v (Some c) [] 0 end)) o /\ produces s o (node_rows v ns))
    as (o & Ho & Hpr).
  { destruct Hr as [[Er ->]|(c & Er & Hy)]; eexists; (split; [eapply evaluates_bind; [by apply evaluates_txn|apply evaluates_ret]|]).
    - apply leaf_none.
    - by apply produces_cursor. }
  exists o. split; [|done]. eapply evaluates_bind; [apply ev_LookupLabel|]. rewrite El.
  eapply evaluates_bind; [apply ev_LookupKey|]. rewrite Ek. eapply evaluates_bind; [exact Hp|].
  destruct pv as [w|]; [destruct (Hstr w eq_refl) as [t ->]|];
    (eapply evaluates_bind; [exact Hlo|]; eapply evaluates_bind; [exact Hup|]; exact Ho).
Qed.

Lemma ev_resolve_types names : evaluates s (txn (resolve_types names)) (type_ids names).
Proof.
  apply evaluates_txn. unfold type_ids. induction names as [|name names IH]; [done|]. cbn [resolve_types].
  change (LookupType name) with (lookupDict (dict_tag DType) name). rewrite run_bind, (run_lookup DType), run_bind, IH.
  cbn [omap list_omap]. by destruct (fwd T (DType, name)).
Qed.
(** ** The refinement *)
Lemma build_union parts rss arg :
  Forall (fun p => forall arg rows, answers p arg rows -> exists o, evaluates s (buildWith p arg) o /\ produces s o rows) parts ->
  (fix parts_answer (parts : list Plan.Op) (rss : list (list binding)) : Prop :=
     match parts, rss with
     | [], [] => True
     | p :: parts', rs :: rss' => answers p arg rs /\ parts_answer parts' rss'
     | _, _ => False
     end) parts rss ->
  exists ops, evaluates s (mapM (fun p => buildWith p arg) parts) ops /\ Forall2 (produces s) ops rss.
Proof.
  intros Hall. revert rss. induction Hall as [|p parts Hp _ IH]; intros [|rs rss] Hrss; try done.
  { exists []. split; [apply evaluates_ret|constructor]. }
  destruct Hrss as [Hrs Hrss]. destruct (Hp arg rs Hrs) as (o & Ho & Hpr). destruct (IH rss Hrss) as (ops & Hops & Hall').
  exists (o :: ops). split; [|by constructor]. cbn [mapM]. eapply evaluates_bind; [exact Ho|].
  eapply evaluates_bind; [exact Hops|apply evaluates_ret].
Qed.

Ltac build_input :=
  match goal with
  | IH : forall arg rows, answers ?i arg rows -> _, Ha : answers ?i _ _ |- _ =>
      let o := fresh "o" in let Ho := fresh "Ho" in let Hp := fresh "Hp" in
      destruct (IH _ _ Ha) as (o & Ho & Hp); clear IH
  end.
Ltac built := eexists; split; [cbn [buildWith]; repeat (eapply evaluates_bind; [eassumption|]); apply evaluates_ret|].

Lemma sorted_by_evaluates keys ins rows : sorted_by keys ins rows -> evaluates s (SliceStable (sort_less keys) ins) rows.
Proof.
  intros (lt & Hsw & Hless & Hst).
  assert (Forall (fun b => b ∈ ins) ins) as HD by (by apply Forall_forall).
  destruct (SliceStable_evaluates (sort_less keys) s (fun b => b ∈ ins) lt Hless ins HD) as (out & Ho & Hso).
  by rewrite (stable_sort_unique (fun b => b ∈ ins) lt ins rows out HD Hst Hso).
Qed.

Lemma build_produces p : forall arg rows, answers p arg rows ->
  exists o, evaluates s (buildWith p arg) o /\ produces s o rows.
Proof.
  induction p using Plan.op_ind'; intros arg rows Ha; cbn [answers] in Ha; try done.
  - subst. built. apply produces_unit.
  - destruct Ha as (ns & Hns & ->). by apply leaf_all.
  - destruct Ha as (ns & Hns & ->). by apply leaf_label.
  - destruct Ha as (val & ns & He & Hv & Hns & ->). by eapply leaf_property.
  - destruct Ha as (l' & k' & pv & lov & upv & ns & El & Ek & Hp & Hlo & Hup & Hstr & Hr & ->). by eapply leaf_range.
  - destruct Ha as (val & es & rss & He & Hv & Hes & Hrss & ->). by eapply leaf_rel.
  - destruct Ha as (ins & rss & Hi & -> & Hrss). build_input. cbn [buildWith]. destruct vl.
    + eexists. split; [|by eapply produces_varExpand]. eapply evaluates_bind; [exact Ho|].
      eapply evaluates_bind; [apply ev_resolve_types|apply evaluates_ret].
    + eexists. split; [|by eapply produces_expand]. eapply evaluates_bind; [exact Ho|].
      eapply evaluates_bind; [apply ev_resolve_types|apply evaluates_ret].
  - destruct Ha as (ins & rss & Hi & -> & Hrss). build_input. cbn [buildWith].
    eexists. split; [|by eapply produces_shortest]. eapply evaluates_bind; [exact Ho|]. unfold buildShortestPath.
    eapply evaluates_bind; [|apply evaluates_ret]. destruct (any_type ts); [apply evaluates_ret|].
    eapply evaluates_bind; [apply ev_resolve_types|apply evaluates_ret].
  - destruct Ha as (ins & vs & Hi & Hvs & ->). build_input. built. by apply produces_filter.
  - destruct Ha as (ins & outs & Hi & Ho & ->). build_input. built. by apply produces_project with (rows := ins).
  - destruct Ha as (ins & specs & gs & Hi & Hsp & Hpl & ->). build_input. built. by eapply produces_aggregate.
  - destruct Ha as (ins & Hi & Hs). build_input. built. eapply produces_sort; [done|]. by apply sorted_by_evaluates.
  - destruct Ha as (ins & n & Hi & Hn & ->). build_input. built. pose proof (produces_skip s o n 0 ins Hp) as Hk. by rewrite Z.sub_0_r in Hk.
  - destruct Ha as (ins & n & Hi & Hn & ->). build_input. built. pose proof (produces_limit s o n 0 ins Hp) as Hk. by rewrite Z.sub_0_r in Hk.
  - destruct Ha as (ls & rs & Hl & Hr & ->). build_input. build_input. built. by apply produces_product.
  - destruct Ha as (ins & ls & Hi & Hls & ->). build_input. built. by apply produces_unwind.
  - destruct Ha as (b & -> & ->). built. apply produces_argument.
  - destruct Ha as (outs & rss & Hout & Hrss & ->). destruct (IHp1 _ _ Hout) as (o & Ho & Hp). built.
    eapply produces_apply; [exact Hp| |apply advances_fresh]. eapply Forall2_impl; [exact Hrss|]. intros b rs Hb. by apply IHp2.
  - destruct Ha as (outs & rss & Hout & Hrss & ->). destruct (IHp1 _ _ Hout) as (o & Ho & Hp). built.
    eapply produces_apply; [exact Hp| |apply advances_fresh]. eapply Forall2_impl; [exact Hrss|]. intros b rs Hb. by apply IHp2.
  - destruct Ha as (rss & Hrss & ->). destruct (build_union ps rss arg H1 Hrss) as (ops & Ho & Hp). built.
    pose proof (produces_union s ops rss cs (negb a) Hp [] ∅) as Hu. by destruct a.
Qed.
(** ** Run *)

(** [m] returns [r] from the context [c]. *)
Definition returns {A : Type} (c : Context) (m : M A) (r : res A) : Prop :=
  exists c', run (m c) s = (Ok (r, c'), s).

Lemma returns_bind {A B : Type} c (m : M A) (f : A -> M B) a r : live s c -> evaluates s m a ->
  (forall c', live s c' -> MaxRows c' = MaxRows c -> returns c' (f a) r) -> returns c (m ≫= f) r.
Proof.
  intros Hl Hm Hf. destruct (Hm c Hl) as (c1 & E1 & L1 & M1). destruct (Hf c1 L1 M1) as (c2 & E2).
  exists c2. by rewrite (run_M_bind _ _ _ _ _ _ E1).
Qed.

(** The rows, unless there are more than the query may return. *)
Definition within (max : Z) (rows : list (list value)) : res (list (list value)) :=
  if bool_decide (0 < max < len rows) then Err ErrResultLimit else Ok rows.

Lemma within_ok max rows : (0 < max -> len rows <= max) -> within max rows = Ok rows.
Proof. intros Hm. unfold within. case_bool_decide; [lia|done]. Qed.

Lemma run_loop_rows columns o rows : columns <> [] -> produces s o rows -> exists bound, forall fuel, (bound <= fuel)%nat ->
  forall acc c, live s c -> (0 < MaxRows c -> len acc < MaxRows c) ->
  returns c (run_loop fuel columns o acc) (within (MaxRows c) (acc ++ (output_row columns <$> rows))).
Proof.
  intros Hcol. induction 1 as [o o' [n Hs]|o b o' rows [n Hs] Hp (n' & IH)].
  - exists (S n). intros [|fuel] Hf acc c Hl Hacc; [lia|]. cbn [run_loop]. rewrite app_nil_r, within_ok by lia.
    eapply returns_bind; [done|apply evaluates_check|]. intros c1 L1 M1.
    eapply returns_bind; [done|apply Hs; lia|]. intros c2 L2 M2. by exists c2.
  - assert (exists k, forall fuel, (k <= fuel)%nat -> exists r o2, evaluates s (next fuel o') (r, o2) /\ (r = None <-> rows = [])) as [k Hk].
    { destruct Hp as [o' o2 [k Hk]|o' b2 o2 rows2 [k Hk] _]; exists k; intros fuel Hf; eexists _, o2; (split; [by apply Hk|done]). }
    exists (S (n + n' + k)). intros [|fuel] Hf acc c Hl Hacc; [lia|]. cbn [run_loop fmap list_fmap].
    eapply returns_bind; [done|apply evaluates_check|]. intros c1 L1 M1.
    eapply returns_bind; [done|apply Hs; lia|]. intros c2 L2 M2. rewrite M1 in M2. clear c1 L1 M1.
    destruct columns as [|col columns]; [done|]. cbv zeta. change (acc ++ output_row (col :: columns) b :: (output_row (col :: columns) <$> rows))
      with (acc ++ [output_row (col :: columns) b] ++ (output_row (col :: columns) <$> rows)). rewrite app_assoc.
    set (acc' := acc ++ [output_row (col :: columns) b]). set (cols := col :: columns) in *.
    assert (len acc' = len acc + 1) as La by (unfold acc', len; rewrite length_app; cbn; lia).
    match goal with |- returns _ ?m _ => assert (m = fun c => ((if (0 <? MaxRows c) && (MaxRows c <=? len acc')
      then '(more, _) ← next fuel o'; match more with Some _ => fail ErrResultLimit | None => mret acc' end
      else run_loop fuel cols o' acc') : M _) c) as -> by done end.
    unfold returns. cbv beta. rewrite M2. destruct ((0 <? MaxRows c) && (MaxRows c <=? len acc')) eqn:Emax.
    + apply andb_true_iff in Emax as [Em1 Em2]. destruct (Hk fuel ltac:(lia)) as (r & o2 & Hn & Hr).
      eapply (returns_bind c2); [done|exact Hn|]. intros c3 L3 M3. cbn beta iota. destruct r as [b2|].
      * destruct rows as [|b3 rows]; [discriminate (proj2 Hr eq_refl)|]. exists c3. unfold within. rewrite bool_decide_true; [done|].
        unfold len in *. rewrite length_app. cbn. rewrite length_fmap. lia.
      * rewrite (proj1 Hr eq_refl). cbn. rewrite app_nil_r, within_ok by lia. by exists c3.
    + rewrite <- M2. apply (IH fuel ltac:(lia) acc' c2 L2). rewrite M2. intros Hpos.
      apply andb_false_iff in Emax as [Em|Em]; lia.
Qed.

Lemma run_answers p columns rows c : answers p None rows -> columns <> [] -> live s c ->
  exists bound, forall fuel, (bound <= fuel)%nat -> returns c (Run fuel p columns) (within (MaxRows c) (output_row columns <$> rows)).
Proof.
  intros Ha Hcol Hl. destruct (build_produces p None rows Ha) as (o & Ho & Hp).
  destruct (run_loop_rows columns o rows Hcol Hp) as [bound Hb]. exists bound. intros fuel Hf. unfold Run.
  eapply returns_bind; [done|exact Ho|]. intros c1 L1 M1. rewrite <- M1. apply (Hb fuel Hf [] c1 L1). unfold len. cbn. lia.
Qed.
End queries.
End Queries.
