(* ===== verification/MatchPlan.v ===== *)
(** * MatchPlan: the plan of a node pattern finds the nodes that match

    MATCH (n:A:B {k: e}) WHERE w, planned by src/query/plan/plan.go with any
    catalog and run by src/internal/exec: whichever access method the planner
    picks (a full scan, a label scan, an index seek or an index range scan) and
    whichever conditions it takes out of the filter, the rows are the nodes
    with the labels on which all conditions hold. *)
From S2P Require Import Prelude Float64 FloatArith Values Ast Plan Scalars Text Keys Records Storage Catalog Graph Context Functions Eval Sema Planner FreeVars.
From S2P Require Import Shortest Aggregate Expand Write StableSort RangeScan Tables GraphInv NodeOps NodeUpdates Traversal Lookups Ranges Ddl Operators QueryLaws Queries.
Import Ast Scalars Text Context Functions Eval Planner FreeVars Operators QueryLaws Queries.

Module MatchPlan.
Section values.
Context `{Runtime, MapOrder} (T : tables) (s : store) (HT : Rep T s) (Hc : consistent T).

(** ** Reading a node *)
Lemma live_new : live s (new_context ∅ 0).
Proof.
  split; [|done]. split; cbn; try by intros ? ? E; rewrite lookup_empty in E. solve_width.
Qed.
Lemma evaluates_fun {A : Type} (m : M A) (a b : A) : evaluates s m a -> evaluates s m b -> a = b.
Proof.
  intros Ha Hb. destruct (Ha _ live_new) as (c1 & E1 & _). destruct (Hb _ live_new) as (c2 & E2 & _). congruence.
Qed.

Lemma ev_lookupKey name : evaluates s (lookupKey name) (fwd T (DKey, name)).
Proof.
  intros c [Hv Hcx]. destruct (run_cached keyIDs set_keyIDs LookupKey name s c (valid_keys _ _ Hv) (read_only_lookup _ _)) as (c' & E & Hc').
  rewrite (run_lookup T s HT Hc DKey name : run (LookupKey name) s = _) in E. exists c'. split; [exact E|].
  destruct Hc' as [->|(i & -> & Hi)]; [done|]. destruct Hv. by split; [split; [split|]|].
Qed.
Lemma ev_lookupLabel name : evaluates s (lookupLabel name) (fwd T (DLabel, name)).
Proof.
  intros c [Hv Hcx]. destruct (run_cached labelIDs set_labelIDs LookupLabel name s c (valid_labels _ _ Hv) (read_only_lookup _ _)) as (c' & E & Hc').
  rewrite (run_lookup T s HT Hc DLabel name : run (LookupLabel name) s = _) in E. exists c'. split; [exact E|].
  destruct Hc' as [->|(i & -> & Hi)]; [done|]. destruct Hv. by split; [split; [split|]|].
Qed.

Lemma prop_get_map (m : gmap Z value) k : prop_get (map_to_list m) k = default VNull (m !! k).
Proof.
  unfold prop_get. destruct (find _ (map_to_list m)) as [[k' v]|] eqn:E.
  - apply find_some in E as [Hin Hk%Z.eqb_eq]. cbn in Hk. subst k'. apply list_elem_of_In, elem_of_map_to_list in Hin. by rewrite Hin.
  - destruct (m !! k) as [v|] eqn:Ek; [|done]. apply elem_of_map_to_list, list_elem_of_In in Ek. pose proof (find_none _ _ E _ Ek) as Hn.
    cbn in Hn. by rewrite Z.eqb_refl in Hn.
Qed.

(** The value of property [key] on a node. *)
Definition prop_of (key : bytes) (x : Node) : value :=
  match fwd T (DKey, key) with Some k => default VNull (Props (n_rec x) !! k) | None => VNull end.

Variable n : bytes.
Definition row (x : Node) : binding := {[ n := node_value x ]}.

Lemma ev_prop key x : evaluates s (eval (PropertyAccess (Variable_ n) key) (row x)) (prop_of key x).
Proof.
  cbn [eval]. unfold evalProperty, row. rewrite lookup_singleton_eq. eapply evaluates_bind; [apply evaluates_ret|]. cbn [node_value].
  unfold propValue. eapply evaluates_bind; [apply ev_lookupKey|]. unfold prop_of. destruct (fwd T (DKey, key)); [|apply evaluates_ret].
  rewrite prop_get_map. apply evaluates_ret.
Qed.
Definition has_label (label : bytes) (x : Node) : bool :=
  match fwd T (DLabel, label) with Some l => bool_decide (l ∈ Labels (n_rec x)) | None => false end.
Lemma has_label_spec label x : has_label label x = true <-> labelled T label (n_rec x).
Proof.
  unfold has_label, labelled. destruct (fwd T (DLabel, label)) as [l|]; [|split; [done|by intros (? & ? & _)]].
  rewrite bool_decide_eq_true. split; [by exists l|by intros (? & [= <-] & ?)].
Qed.
Lemma ev_labels ls x : evaluates s (eval (LabelsPredicate (Variable_ n) ls) (row x)) (VBool (forallb (fun l => has_label l x) ls)).
Proof.
  cbn [eval]. unfold evalLabels, row. rewrite lookup_singleton_eq. eapply evaluates_bind; [apply evaluates_ret|]. cbn [node_value].
  induction ls as [|l ls IH]; cbn [labels_loop forallb]; [apply evaluates_ret|]. eapply evaluates_bind; [apply ev_lookupLabel|].
  unfold has_label at 1. destruct (fwd T (DLabel, l)) as [i|]; [|apply evaluates_ret].
  assert (hasLabel (Labels (n_rec x)) i = bool_decide (i ∈ Labels (n_rec x))) as ->.
  { unfold hasLabel. apply Bool.eq_true_iff_eq. rewrite bool_decide_eq_true, existsb_exists. split.
    - intros (y & Hy & <-%Z.eqb_eq). by apply list_elem_of_In.
    - intros Hi. exists i. by rewrite Z.eqb_refl, <- list_elem_of_In. }
  case_bool_decide; [exact IH|apply evaluates_ret].
Qed.

(** ** Conjunctions *)
Lemma and_truthy a b : truthy (bool_result false a b) = truthy a && truthy b.
Proof. unfold bool_result. destruct (truthy a) eqn:Ea, (truthy b) eqn:Eb, (is_null a) eqn:Na, (is_null b) eqn:Nb; try done; (by destruct a) || by destruct b. Qed.

(** A condition with its outcome on each node. *)
Definition decides (x : Node) (p : Expr * (Node -> bool)) : Prop := exists v, evaluates s (eval p.1 (row x)) v /\ truthy v = p.2 x.
Lemma ev_andAll x e f ps : decides x (e, f) -> Forall (decides x) ps ->
  exists v, evaluates s (eval (andAll e ps.*1) (row x)) v /\ truthy v = f x && forallb (fun p => p.2 x) ps.
Proof.
  intros He Hps. revert e f He. induction Hps as [|[e' f'] ps He' _ IH]; intros e f He.
  - destruct He as (v & Hv & Ht). exists v. cbn in *. by rewrite andb_true_r.
  - change (andAll e ((e', f') :: ps).*1) with (andAll (Binary (str "AND") e e') ps.*1).
    destruct (IH (Binary (str "AND") e e') (fun x => f x && f' x)) as (v & Hv & Ht).
    + destruct He as (a & Ha & Ta), He' as (b & Hb & Tb). exists (bool_result false a b). cbn [fst snd] in *. split; [|by rewrite and_truthy, Ta, Tb].
      cbn [eval]. unfold evalBinary, boolOp. change (str "AND" =s "AND") with true. cbv iota. eapply evaluates_bind; [exact Ha|].
      eapply evaluates_bind; [exact Hb|apply evaluates_ret].
    + exists v. split; [done|]. cbn [forallb snd] in *. by rewrite Ht, andb_assoc.
Qed.
End values.

(** ** Before anything is bound *)
Section fresh.
Context `{Runtime}.
Lemma isBound_new x : isBound new_planner x = false.
Proof. unfold isBound. rewrite (bool_decide_false (x ∈ _)) by (cbn; set_solver). apply andb_false_r. Qed.
Lemma seekable_new v : seekable new_planner v = true -> exprVars v = [].
Proof.
  unfold seekable. intros [_ Hv]%andb_true_iff. destruct (exprVars v) as [|x xs]; [done|]. cbn [forallb] in Hv. by rewrite isBound_new in Hv.
Qed.
End fresh.

(** ** The shape of the plan *)
Section shape.
Context `{Runtime} (n : bytes) (Hn : n <> []) (pv : bytes) (labels : list bytes) (props : list (bytes * Expr)) (where_ : option Expr) (cat : PlanCatalog).

Definition part : PatternPart := mkPatternPart pv (mkNodePattern n labels props) [] NotShortest.
Definition wconj : list Expr := match where_ with Some e => conjuncts e | None => [] end.
Definition inline_ : list Expr := (fun '(k, v) => eqExpr n k v) <$> Sema.by_key props.
Definition nd : pnode := mkPnode n false labels props false [] [].
Definition choice : Z * Plan.Op * option equality :=
  scoreNode cat new_planner nd (Planner.at_ (index_equalities wconj) n) (Planner.at_ (index_ranges wconj) n).
Definition residual_of (scan : Plan.Op) (eq : option equality) : list Expr :=
  residualPredicates [anchored scan eq nd] [] ++
  omap (fun '(i, e) => if bool_decide (i ∈ consume eq ∅) then None else Some e) (imap pair wconj).
Definition filtered (es : list Expr) (p : Plan.Op) : Plan.Op := match es with [] => p | e :: es => Plan.Filter p (andAll e es) end.

Lemma score_positive sc scan eq : choice = (sc, scan, eq) -> 0 < sc.
Proof. unfold choice, scoreNode. repeat case_match; intros [= <- <- <-]; lia. Qed.
Lemma chooseAnchor_single sc scan eq : choice = (sc, scan, eq) ->
  chooseAnchor cat new_planner [nd] (index_equalities wconj) (index_ranges wconj) = (0%nat, scan, eq).
Proof.
  intros E. pose proof (score_positive _ _ _ E) as Hs. unfold choice in E. unfold chooseAnchor. cbn [imap foldl compose nd_name nd]. fold nd. rewrite isBound_new.
  change (nd_name nd) with n. rewrite E. by rewrite (proj2 (Z.ltb_lt (-1) sc)) by lia.
Qed.
Lemma plan_shape sc scan eq : choice = (sc, scan, eq) ->
  exists pl, plan_pattern cat [part] where_ new_planner = Ok pl /\ pl_plan pl = filtered (residual_of scan eq) scan /\ pl_order pl = [n].
Proof.
  intros E. unfold plan_pattern. change (shortestLast [part]) with [part]. fold wconj. cbn [planParts].
  assert (planPart cat part (index_equalities wconj) (index_ranges wconj) ∅ new_planner
    = Ok (residualPredicates [anchored scan eq nd] [], consume eq ∅, mkPlanner ({[ n ]} ∪ ∅) [n] scan 0)) as ->.
  { unfold planPart. change (Sema.is_shortest part) with false. cbv iota. unfold buildPart, makeNode. cbn [part pp_Start np_Variable np_Labels np_Props pp_Chain foldl].
    rewrite (bool_decide_false (n = [])) by done. cbv beta iota. fold nd. cbn [foldl]. unfold first_bound. cbn [imap compose first_some]. rewrite isBound_new.
    assert (relAnchor cat new_planner [nd] [] (index_equalities wconj) (index_ranges wconj) = None) as ->.
    { unfold relAnchor. destruct (cat_HasRelIndex cat); [|done]. cbn [imap first_some]. destruct (chooseAnchor _ _ _ _ _) as [[i []] q]; done. }
    rewrite (chooseAnchor_single _ _ _ E). cbn [alter list_alter lookup list_lookup]. unfold join_scan. cbn [new_planner pl_plan is_nothing set_plan pl_bound pl_order pl_synth].
    change (nd_name (anchored scan eq nd)) with n. unfold bind. cbn [pl_bound]. rewrite (bool_decide_false (n = [])), (bool_decide_false (n ∈ _)) by (done || set_solver).
    cbn [orb pl_order pl_plan pl_synth app]. unfold expand_from. cbn [length seq foldl reverse rev_append Nat.sub]. unfold finish_part.
    case_bool_decide; [|done]. cbn [markUnused set_plan pl_plan pl_bound pl_order pl_synth length]. done. }
  change (mbind (M := res) ?f (Ok ?x)) with (f x). cbv beta iota. change (mbind (M := res) ?f (Ok ?x)) with (f x). cbv beta iota.
  unfold checkShortestFilters. assert (shortest_vars [part] = []) as -> by done.
  assert (forall l : list bytes, existsb (fun v => bool_decide (v ∈ @nil bytes)) l = false) as Hnone.
  { intros l. induction l as [|x l IH]; [done|]. cbn [existsb]. by rewrite bool_decide_false, IH by set_solver. }
  rewrite Hnone. change (mbind (M := res) ?f (Ok ?x)) with (f x). cbv beta iota. eexists. split; [done|].
  change ([] ++ residualPredicates [anchored scan eq nd] []) with (residualPredicates [anchored scan eq nd] []).
  fold (residual_of scan eq). unfold filter_plan, filtered. by destruct (residual_of scan eq).
Qed.
End shape.

(** ** Where the planner's predicates come from *)
Section predicates.
Context `{Runtime}.

Lemma first_some_in {A B : Type} (f : A -> option B) l y : first_some f l = Some y -> exists x, x ∈ l /\ f x = Some y.
Proof.
  induction l as [|x l IH]; cbn [first_some]; [done|]. destruct (f x) eqn:E; [intros [= <-]; exists x; split; [left|done]|].
  intros (x' & Hin & E')%IH. exists x'. split; [by right|done].
Qed.
Lemma foldl_inv {A B : Type} (I : A -> Prop) (f : A -> B -> A) l : forall a, I a -> (forall a x, x ∈ l -> I a -> I (f a x)) -> I (foldl f a l).
Proof.
  induction l as [|x l IH]; intros a Ha Hf; [done|]. cbn. apply IH; [apply Hf; [left|done]|]. intros a' y Hy. apply Hf. by right.
Qed.
Lemma push_in {A : Type} k (y : A) m v x : x ∈ Planner.at_ (push k y m) v -> x ∈ Planner.at_ m v \/ (k = v /\ x = y).
Proof.
  unfold Planner.at_, push. destruct (decide (k = v)) as [->|Hne]; [rewrite lookup_insert_eq|rewrite lookup_insert_ne by done; by left].
  cbn [default]. unfold id. rewrite elem_of_app. intros [Hx|Hx%list_elem_of_singleton]; [by left|by right].
Qed.
Lemma index_equalities_in conj v q : q ∈ Planner.at_ (index_equalities conj) v ->
  exists i e q0, conj !! i = Some e /\ q0 ∈ asEqualities e /\ eq_variable q0 = v /\ q = mkEquality (eq_variable q0) (eq_key q0) (eq_value q0) (Z.of_nat i).
Proof.
  revert v q. unfold index_equalities.
  apply (foldl_inv (fun m => forall v q, q ∈ Planner.at_ m v -> exists i e q0, conj !! i = Some e /\ q0 ∈ asEqualities e /\ eq_variable q0 = v /\
    q = mkEquality (eq_variable q0) (eq_key q0) (eq_value q0) (Z.of_nat i))); [intros v q Hq; by apply elem_of_nil in Hq|].
  intros m [i e] (j & e' & [= -> ->] & He)%elem_of_lookup_imap Hm.
  apply (foldl_inv (fun m => forall v q, q ∈ Planner.at_ m v -> exists i e q0, conj !! i = Some e /\ q0 ∈ asEqualities e /\ eq_variable q0 = v /\
    q = mkEquality (eq_variable q0) (eq_key q0) (eq_value q0) (Z.of_nat i))); [done|].
  intros m' q0 Hq0 Hm' v q [Hq|[<- ->]]%push_in; [by apply Hm'|]. by exists j, e', q0.
Qed.
Lemma index_ranges_in conj v r : r ∈ Planner.at_ (index_ranges conj) v -> exists e, e ∈ conj /\ asRange e = Some r /\ rp_variable r = v.
Proof.
  revert v r. unfold index_ranges. apply (foldl_inv (fun m => forall v r, r ∈ Planner.at_ m v -> exists e, e ∈ conj /\ asRange e = Some r /\ rp_variable r = v)).
  - intros v r Hr. by apply elem_of_nil in Hr.
  - intros m e He Hm v r. destruct (asRange e) as [r0|] eqn:E; [|apply Hm]. intros [Hr|[<- ->]]%push_in; [by apply Hm|]. by exists e.
Qed.
Lemma propOfVar_some e v k : propOfVar e = Some (v, k) -> e = PropertyAccess (Variable_ v) k.
Proof. destruct e as [| | |[] | | | | | | | | | | |]; try done. by intros [= -> ->]. Qed.
Lemma asEqualities_in e q : q ∈ asEqualities e -> eq_conjIdx q = -1 /\
  (e = Binary (str "=") (PropertyAccess (Variable_ (eq_variable q)) (eq_key q)) (eq_value q) \/
   e = Binary (str "=") (eq_value q) (PropertyAccess (Variable_ (eq_variable q)) (eq_key q))).
Proof.
  destruct e as [| | | | |op l r| | | | | | | | |]; try by intros ?%elem_of_nil. cbn [asEqualities].
  destruct (op =s "=") eqn:Eop; [|by intros ?%elem_of_nil]. apply bool_decide_eq_true in Eop as ->.
  intros [Hq|Hq]%elem_of_app; destruct (propOfVar _) as [[v k]|] eqn:E; try (by apply elem_of_nil in Hq);
    apply list_elem_of_singleton in Hq as ->; apply propOfVar_some in E as ->; cbn; auto.
Qed.
Definition comparisons : list bytes := str <$> ["<"; "<="; ">"; ">="]%string.
Lemma asRange_in e r : asRange e = Some r ->
  let p := PropertyAccess (Variable_ (rp_variable r)) (rp_key r) in
  (rp_op r ∈ comparisons /\ e = Binary (rp_op r) p (rp_value r)) \/
  (exists op, op ∈ comparisons /\ rp_op r = flipped op /\ e = Binary op (rp_value r) p) \/
  (rp_op r = str "STARTS WITH" /\ e = Binary (str "STARTS WITH") p (rp_value r)).
Proof.
  destruct e as [| | | | |op l r'| | | | | | | | |]; try done. cbn [asRange].
  match goal with |- context [if ?b then _ else _] => destruct b eqn:Ec end.
  - assert (op ∈ comparisons) as Hop.
    { unfold comparisons. cbn [fmap list_fmap]. rewrite !orb_true_iff, !bool_decide_eq_true in Ec. set_solver. }
    destruct (propOfVar l) as [[v k]|] eqn:E; [intros [= <-]; left; split; [done|cbn]; by rewrite (propOfVar_some _ _ _ E)|].
    destruct (propOfVar r') as [[v k]|] eqn:E'; [|done]. intros [= <-]. right. left. exists op. cbn. by rewrite (propOfVar_some _ _ _ E').
  - destruct (op =s "STARTS WITH") eqn:Eop; [|done]. apply bool_decide_eq_true in Eop as ->. destruct (propOfVar l) as [[v k]|] eqn:E; [|done]. intros [= <-]. right. right. cbn. by rewrite (propOfVar_some _ _ _ E).
Qed.

(** The bounds a range scan collects. *)
Record collected (pl : planner) (rs : list rangePred) (b : option Expr * option Expr * bool * bool * option Expr) : Prop := {
  co_lower e : b.1.1.1.1 = Some e -> exists r, r ∈ rs /\ rp_value r = e /\ seekable pl e = true /\ rp_op r = (if b.1.1.2 then str ">=" else str ">");
  co_upper e : b.1.1.1.2 = Some e -> exists r, r ∈ rs /\ rp_value r = e /\ seekable pl e = true /\ rp_op r = (if b.1.2 then str "<=" else str "<");
  co_prefix e : b.2 = Some e -> exists r, r ∈ rs /\ rp_value r = e /\ seekable pl e = true /\ rp_op r = str "STARTS WITH"
}.
Lemma add_range_collected pl rs b r : r ∈ rs -> collected pl rs b -> collected pl rs (add_range pl b r).
Proof.
  intros Hr [Hl Hu Hp]. destruct b as [[[[lo up] li] ui] pre]. cbn [fst snd] in *. unfold add_range.
  destruct (seekable pl (rp_value r)) eqn:Es; cbn [negb]; [|done].
  destruct (rp_op r =s "STARTS WITH") eqn:E1; [apply bool_decide_eq_true in E1; destruct pre as [|]; [done|split; cbn [fst snd]; [done|done|intros e [= <-]; by exists r]]|].
  match goal with |- collected _ _ (if ?b then _ else _) => destruct b eqn:E2 end.
  - destruct lo; [done|]. split; cbn [fst snd]; [|done|done]. intros e [= <-]. exists r. split_and!; [done..|].
    apply orb_true_iff in E2 as [E2|E2]; apply bool_decide_eq_true in E2; rewrite E2; [by rewrite bool_decide_false|by rewrite bool_decide_true].
  - match goal with |- collected _ _ (if ?b then _ else _) => destruct b eqn:E3 end; [|done]. destruct up; [done|]. split; cbn [fst snd]; [done| |done]. intros e [= <-]. exists r. split_and!; [done..|].
    apply orb_true_iff in E3 as [E3|E3]; apply bool_decide_eq_true in E3; rewrite E3; [by rewrite bool_decide_false|by rewrite bool_decide_true].
Qed.
Lemma rangeScan_in cat pl v label ranges p : rangeScan cat pl v label ranges = Some p ->
  exists k lo up li ui pre, cat_HasIndex cat label k = true /\ p = Plan.NodeByPropertyRange v label k lo up li ui pre /\
    collected pl (filter (fun r => rp_key r = k) ranges) (lo, up, li, ui, pre) /\ (is_Some lo \/ is_Some up \/ is_Some pre).
Proof.
  unfold rangeScan. intros (k & _ & E)%first_some_in. destruct (cat_HasIndex cat label k) eqn:Ei; cbn [negb] in E; [|done].
  assert (collected pl (filter (fun r => rp_key r = k) ranges)
    (foldl (add_range pl) (None, None, false, false, None) (filter (fun r => rp_key r = k) ranges))) as Hco.
  { apply foldl_inv; [by split|]. intros b r Hr Hb. by apply add_range_collected. }
  destruct (foldl _ _ _) as [[[[lo up] li] ui] pre]. destruct Hco as [Hl Hu Hp]. cbn [fst snd] in *.
  destruct pre as [e|]; [|destruct lo as [e|], up as [e'|]; try done]; injection E as <-; (eexists k, _, _, _, _, _; split_and!; [done|reflexivity| |eauto]);
    split; cbn [fst snd]; try done; eauto.
Qed.
End predicates.

(** ** From the access method to the matching nodes *)
Section match_.
Context `{Runtime, MapOrder} (T : tables) (s : store) (HT : Rep T s) (Hc : consistent T).
Context (n : bytes) (Hn : n <> []) (labels : list bytes) (props : list (bytes * Expr)) (where_ : option Expr) (cat : PlanCatalog).

(** The conditions of the pattern and of WHERE, and what they give on a node. *)
Definition conditions : list Expr := inline_ n props ++ wconj where_.
Context (truth : Expr -> Node -> value).
Definition is_node (x : Node) : Prop := nodes T (n_ID x) = Some (n_rec x).
Definition passes (e : Expr) (x : Node) : bool := truthy (truth e x).
Definition matches (x : Node) : Prop :=
  is_node x /\ (forall l, l ∈ labels -> has_label T l x = true) /\ (forall e, e ∈ conditions -> passes e x = true).

(** Names are not empty; keys are not repeated; every condition has a value. *)
Record pattern_ok : Prop := {
  pk_labels : [] ∉ labels;
  pk_keys : [] ∉ props.*1;
  pk_nodup : NoDup props.*1;
  pk_truth e x : e ∈ conditions -> is_node x -> evaluates s (eval e (row n x)) (truth e x)
}.
Context (Hok : pattern_ok).

(** What an access method has to give. *)
Record covers (scan : Plan.Op) (eq : option equality) (xs : list Node) : Prop := {
  cv_answers : answers T s scan None (node_rows n xs);
  cv_nodup : NoDup (n_ID <$> xs);
  cv_nodes x : x ∈ xs -> is_node x;
  cv_complete x : matches x -> x ∈ xs;
  cv_label x : x ∈ xs -> scanLabelOf scan <> [] -> has_label T (scanLabelOf scan) x = true;
  cv_inline x q : x ∈ xs -> eq = Some q -> eq_conjIdx q < 0 -> exists v, (eq_key q, v) ∈ props /\ passes (eqExpr n (eq_key q) v) x = true;
  cv_conj x q : x ∈ xs -> eq = Some q -> 0 <= eq_conjIdx q -> exists e, wconj where_ !! Z.to_nat (eq_conjIdx q) = Some e /\ passes e x = true
}.

(** *** The filter *)
Lemma filter_answers ps scan xs : (forall x, x ∈ xs -> Forall (decides s n x) ps) -> answers T s scan None (node_rows n xs) ->
  answers T s (filtered ps.*1 scan) None (node_rows n (filter (fun x => forallb (fun p => p.2 x) ps = true) xs)).
Proof.
  intros Hps Ha. destruct ps as [|[e f] ps].
  { assert (filter (fun x => forallb (fun p : Expr * (Node -> bool) => p.2 x) [] = true) xs = xs) as ->; [|done].
    clear. induction xs as [|x xs IH]; [done|]. by rewrite filter_cons_True, IH. }
  cbn [filtered fmap list_fmap fst answers]. 
  assert (exists vs, Forall2 (fun b v => evaluates s (eval (andAll e ps.*1) b) v) (node_rows n xs) vs /\
    node_rows n (filter (fun x => forallb (fun p => p.2 x) ((e, f) :: ps) = true) xs) = (filter (fun bv => truthy bv.2 = true) (zip (node_rows n xs) vs)).*1) as (vs & Hvs & E).
  { clear Ha. induction xs as [|x xs IH]; [by exists []|]. destruct IH as (vs & Hvs & E); [intros y Hy; apply Hps; by right|].
    specialize (Hps x ltac:(left)). apply Forall_cons in Hps as [He Hps]. destruct (ev_andAll s n x e f ps He Hps) as (v & Hv & Ht).
    exists (v :: vs). split; [by constructor|]. change (node_rows n (x :: xs)) with ({[ n := node_value x ]} :: node_rows n xs). cbn [zip_with].
    assert (forallb (fun p => p.2 x) ((e, f) :: ps) = truthy v) as Ef by done. destruct (truthy v) eqn:Et.
    - rewrite !filter_cons_True by done. cbn [fmap list_fmap fst]. by rewrite <- E.
    - rewrite !filter_cons_False by (by rewrite ?Ef, ?Et || (cbn; congruence)). done. }
  exists (node_rows n xs), vs. split_and!; [done|done|done].
Qed.

Definition pair_of (e : Expr) : Expr * (Node -> bool) := (e, passes e).
Definition enforced (scan : Plan.Op) : bytes := scanLabelOf scan.
Definition rest_labels (scan : Plan.Op) : list bytes := filter (fun l => l <> enforced scan) labels.
Definition consumed_key (eq : option equality) : bytes := match eq with Some q => if 0 <=? eq_conjIdx q then [] else eq_key q | None => [] end.
Definition kept_inline (eq : option equality) : list (bytes * Expr) := filter (fun e => e.1 <> consumed_key eq) (Sema.by_key props).
Definition kept_conj (eq : option equality) : list Expr :=
  omap (fun '(i, e) => if bool_decide (i ∈ consume eq ∅) then None else Some e) (imap pair (wconj where_)).
Definition tests (scan : Plan.Op) (eq : option equality) : list (Expr * (Node -> bool)) :=
  (match rest_labels scan with [] => [] | ls => [(LabelsPredicate (Variable_ n) ls, fun x => forallb (fun l => has_label T l x) ls)] end)
  ++ (pair_of <$> ((fun '(k, v) => eqExpr n k v) <$> kept_inline eq)) ++ (pair_of <$> kept_conj eq).
Lemma tests_residual scan eq : (tests scan eq).*1 = residual_of n labels props where_ scan eq.
Proof.
  assert (forall l, (pair_of <$> l).*1 = l) as Hid by (intros l; induction l as [|e l IH]; cbn; [done|by f_equal]).
  unfold tests, residual_of, residualPredicates. rewrite !fmap_app, !Hid. cbn [fmap list_fmap concat anchored nd nd_reachedByScan nd_scanLabel nd_labels nd_name nd_props nd_consumedInline].
  fold (enforced scan) (rest_labels scan) (consumed_key eq) (kept_inline eq) (kept_conj eq). rewrite !app_nil_r.
  destruct (rest_labels scan); cbn [fmap list_fmap fst]; by rewrite <- ?app_assoc.
Qed.
Lemma by_key_in {A : Type} (m : list (bytes * A)) e : e ∈ Sema.by_key m <-> e ∈ m.
Proof. unfold Sema.by_key. by rewrite merge_sort_Permutation. Qed.
Lemma nodup_fst {A B : Type} (l : list (A * B)) k v v' : NoDup l.*1 -> (k, v) ∈ l -> (k, v') ∈ l -> v = v'.
Proof.
  intros Hnd Hv Hv'. apply list_elem_of_lookup in Hv as [i Hi], Hv' as [j Hj].
  assert (i = j) as -> by (eapply (NoDup_lookup l.*1); [done| |]; rewrite list_lookup_fmap; [by rewrite Hi|by rewrite Hj]). congruence.
Qed.
Lemma kept_conj_in eq e : e ∈ kept_conj eq <-> exists i, wconj where_ !! i = Some e /\ i ∉ consume eq ∅.
Proof.
  unfold kept_conj. rewrite list_elem_of_omap. split.
  - intros ([i e'] & (j & e0 & [= -> ->] & He)%elem_of_lookup_imap & E). case_bool_decide; [done|]. injection E as <-. by exists j.
  - intros (i & He & Hi). exists (i, e). split; [apply elem_of_lookup_imap; by exists i, e|]. by rewrite bool_decide_false.
Qed.
Lemma inline_in k v : (k, v) ∈ props -> eqExpr n k v ∈ conditions.
Proof. intros Hin. unfold conditions, inline_. apply elem_of_app. left. apply list_elem_of_fmap. exists (k, v). by rewrite by_key_in. Qed.
Lemma conj_in i e : wconj where_ !! i = Some e -> e ∈ conditions.
Proof. intros E. unfold conditions. apply elem_of_app. right. by eapply list_elem_of_lookup_2. Qed.

(** The conditions that stay in the plan decide, and with what the access method
    ensures they are all the conditions. *)
Lemma tests_decide scan eq x : is_node x -> Forall (decides s n x) (tests scan eq).
Proof.
  intros Hx. assert (forall e, e ∈ conditions -> decides s n x (pair_of e)) as Hd.
  { intros e He. exists (truth e x). split; [by apply (pk_truth Hok)|done]. }
  unfold tests. rewrite !Forall_app. split_and!.
  - destruct (rest_labels scan) as [|l ls]; [constructor|]. repeat constructor. eexists. split; [by apply ev_labels|done].
  - apply Forall_fmap, Forall_fmap, Forall_forall. intros [k v] [_ Hin]%list_elem_of_filter. apply Hd, inline_in. by rewrite by_key_in in Hin.
  - apply Forall_fmap, Forall_forall. intros e (i & He & _)%kept_conj_in. by eapply Hd, conj_in.
Qed.
Lemma tests_matches scan eq xs x : covers scan eq xs -> x ∈ xs -> forallb (fun p => p.2 x) (tests scan eq) = true <-> matches x.
Proof.
  intros Hcv Hx. unfold tests. rewrite !forallb_app, !andb_true_iff, !forallb_forall. split.
  - intros (Hl & Hi & Hw). split_and!; [by apply (cv_nodes _ _ _ Hcv)| |].
    + intros l Hin. assert (l <> []) by (intros ->; by apply (pk_labels Hok)). destruct (decide (l = enforced scan)) as [->|Hne]; [by apply (cv_label _ _ _ Hcv)|].
      assert (l ∈ rest_labels scan) as Hr by (by apply list_elem_of_filter). destruct (rest_labels scan) as [|l0 ls]; [by apply elem_of_nil in Hr|].
      specialize (Hl _ (or_introl eq_refl)). cbn [snd] in Hl. rewrite forallb_forall in Hl.
      by apply Hl, list_elem_of_In.
    + intros e [He|He]%elem_of_app.
      * apply list_elem_of_fmap in He as ([k v] & -> & Hin). assert ((k, v) ∈ props) as Hp by by rewrite by_key_in in Hin.
        destruct (decide (k = consumed_key eq)) as [Hk|Hk].
        { assert (k <> []) as Hk0 by (intros ->; apply (pk_keys Hok); apply list_elem_of_fmap; by exists ([], v)). unfold consumed_key in Hk.
          destruct eq as [q|]; [|done]. destruct (Z.leb_spec 0 (eq_conjIdx q)); [done|]. subst k.
          destruct (cv_inline _ _ _ Hcv x q Hx eq_refl ltac:(lia)) as (v' & Hv' & Hpass).
          by assert (v = v') as -> by (eapply nodup_fst; [apply (pk_nodup Hok)|done|done]). }
        apply (Hi (pair_of (eqExpr n k v))). apply list_elem_of_In, list_elem_of_fmap. eexists. split; [done|]. apply list_elem_of_fmap. exists (k, v).
        split; [done|]. by apply list_elem_of_filter.
      * apply list_elem_of_lookup in He as [i He]. destruct (decide (i ∈ consume eq ∅)) as [Hin|Hin].
        { unfold consume in Hin. destruct eq as [q|]; [|set_solver]. destruct (Z.leb_spec 0 (eq_conjIdx q)); [|set_solver].
          destruct (cv_conj _ _ _ Hcv x q Hx eq_refl ltac:(lia)) as (e' & He' & Hpass). assert (i = Z.to_nat (eq_conjIdx q)) as -> by set_solver. congruence. }
        apply (Hw (pair_of e)). apply list_elem_of_In, list_elem_of_fmap. exists e. split; [done|]. apply kept_conj_in. by exists i.
  - intros (_ & Hl & Hcond). split_and!.
    + intros p Hp. assert (forall l, l ∈ rest_labels scan -> has_label T l x = true) as Hr by (intros l [_ Hin]%list_elem_of_filter; by apply Hl).
      destruct (rest_labels scan) as [|l0 ls] eqn:E; [done|]. destruct Hp as [<-|[]]. apply forallb_forall. intros l Hin. by apply Hr, list_elem_of_In.
    + intros p Hp. apply list_elem_of_In, list_elem_of_fmap in Hp as (e & -> & ([k v] & -> & [_ Hin]%list_elem_of_filter)%list_elem_of_fmap).
      apply Hcond, inline_in. by rewrite by_key_in in Hin.
    + intros p Hp. apply list_elem_of_In, list_elem_of_fmap in Hp as (e & -> & (i & He & _)%kept_conj_in). by eapply Hcond, conj_in.
Qed.
Lemma covers_filtered scan eq xs : covers scan eq xs -> exists ys, answers T s (filtered (residual_of n labels props where_ scan eq) scan) None (node_rows n ys) /\
  NoDup (n_ID <$> ys) /\ forall x, x ∈ ys <-> matches x.
Proof.
  intros Hcv. exists (filter (fun x => forallb (fun p => p.2 x) (tests scan eq) = true) xs). rewrite <- tests_residual. split_and!.
  - apply filter_answers; [intros x Hx; by apply tests_decide, (cv_nodes _ _ _ Hcv)|apply (cv_answers _ _ _ Hcv)].
  - eapply sublist_NoDup; [apply (cv_nodup _ _ _ Hcv)|]. apply fmap_sublist, sublist_filter.
  - intros x. rewrite list_elem_of_filter. split.
    + intros [Ht Hx]. by apply (tests_matches scan eq xs x Hcv Hx).
    + intros Hm. assert (x ∈ xs) as Hx by by apply (cv_complete _ _ _ Hcv). split; [|done]. by apply (tests_matches scan eq xs x Hcv Hx).
Qed.
End match_.
End MatchPlan.
