(* ===== verification/MatchAccess.v ===== *)
(** * MatchAccess: every access method covers the matching nodes

    The four ways plan.go finds the node of a pattern (full scan, label scan,
    index seek on an equality, index range scan), each with what it ensures of
    the nodes it gives. *)
From S2P Require Import Prelude Float64 FloatArith Values Ast Plan Scalars Text Keys Records Storage Catalog Graph Context Functions Eval Sema Planner FreeVars.
From S2P Require Import Shortest Aggregate Expand Write StableSort RangeScan Tables GraphInv NodeOps NodeUpdates Traversal Lookups Ranges Ddl Operators QueryLaws EvalClaims Queries MatchPlan.
Import Ast Scalars Text Context Functions Eval Planner FreeVars Operators QueryLaws Queries MatchPlan.

Module MatchAccess.
Section access.
Context `{Runtime, MapOrder} (T : tables) (s : store) (HT : Rep T s) (Hc : consistent T).

(** ** Lists of nodes *)
Lemma sorted_filter (P : Node -> Prop) `{!forall x, Decision (P x)} ns : StronglySorted Z.lt (n_ID <$> ns) -> StronglySorted Z.lt (n_ID <$> filter P ns).
Proof.
  induction ns as [|x ns IH]; [done|]. cbn [fmap list_fmap]. intros [Hs Hall]%StronglySorted_inv. rewrite filter_cons. case_decide; [|by apply IH].
  cbn [fmap list_fmap]. constructor; [by apply IH|]. rewrite Forall_fmap in *. rewrite Forall_forall in *. intros y [_ Hy]%list_elem_of_filter. by apply Hall.
Qed.
Lemma sorted_nodup ns : StronglySorted Z.lt ns -> NoDup ns.
Proof.
  induction 1 as [|x ns _ IH Hall]; constructor; [|done]. intros Hx. rewrite Forall_forall in Hall. specialize (Hall x Hx). lia.
Qed.
Lemma node_list_of (f : NodeRecord -> bool) : exists ns, node_list T (fun r => f r = true) ns.
Proof.
  destruct (all_cursor T s HT Hc) as (c & ns & _ & _ & Hs & Hin). exists (filter (fun x => f (n_rec x) = true) ns). split; [by apply sorted_filter|].
  intros x. rewrite list_elem_of_filter, Hin. tauto.
Qed.
Lemma node_list_iff P Q ns : (forall r, P r <-> Q r) -> node_list T P ns -> node_list T Q ns.
Proof. intros HPQ [Hs Hin]. split; [done|]. intros x. by rewrite Hin, HPQ. Qed.

(** ** Conditions on the property of the node *)
Variable n : bytes.
Lemma closed_value v x w : exprVars v = [] -> evaluates s (eval v ∅) w -> evaluates s (eval v (row n x)) w.
Proof. intros Hv. apply evaluates_agree. rewrite Hv. by intros y ?%elem_of_nil. Qed.
Lemma prop_ok key x : is_node T x -> value_ok (prop_of T key x).
Proof.
  intros Hx. pose proof (node_typed T _ _ Hc Hx) as Hv. apply value_ok_node in Hv as (_ & _ & Hp). unfold prop_of.
  destruct (fwd T (DKey, key)) as [k|]; [|done]. destruct (Props (n_rec x) !! k) as [w|] eqn:E; [|done].
  rewrite Forall_forall in Hp. apply elem_of_map_to_list in E. by apply (Hp _ E).
Qed.
Lemma truthy_equality a b : truthy (equalityOp a b false) = equals a b.
Proof. unfold equalityOp, equals. destruct (Scalars.equality a b) as [e []]; cbn; [by rewrite xorb_false_r|done]. Qed.
Lemma equals_sym a b : value_ok a -> value_ok b -> equals a b = equals b a.
Proof. intros Ha Hb. unfold equals. by rewrite equality_sym. Qed.
Lemma equals_normalize a w : equals a (normalize w) = equals a w.
Proof. destruct w; try done. by destruct a. Qed.

Definition eq_forms (k : bytes) (v e : Expr) : Prop :=
  e = Binary (str "=") (PropertyAccess (Variable_ n) k) v \/ e = Binary (str "=") v (PropertyAccess (Variable_ n) k).
Lemma ev_equality k v e x w : eq_forms k v e -> exprVars v = [] -> evaluates s (eval v ∅) w ->
  evaluates s (eval e (row n x)) (equalityOp (prop_of T k x) w false) \/ evaluates s (eval e (row n x)) (equalityOp w (prop_of T k x) false).
Proof.
  intros He Hv Hw. pose proof (closed_value v x w Hv Hw) as Hw'. pose proof (ev_prop T s HT Hc n k x) as Hp.
  destruct He as [->| ->]; [left|right]; cbn [eval]; unfold evalBinary; change (str "=" =s "AND") with false; change (str "=" =s "OR") with false;
    change (str "=" =s "=") with true; cbv iota.
  - eapply evaluates_bind; [exact Hp|]. eapply evaluates_bind; [exact Hw'|apply evaluates_ret].
  - eapply evaluates_bind; [exact Hw'|]. eapply evaluates_bind; [exact Hp|apply evaluates_ret].
Qed.
Lemma equality_passes k v e x w t : eq_forms k v e -> exprVars v = [] -> evaluates s (eval v ∅) w -> value_ok w -> is_node T x ->
  evaluates s (eval e (row n x)) t -> truthy t = equals (prop_of T k x) w.
Proof.
  intros He Hv Hw Hwok Hx Ht. destruct (ev_equality k v e x w He Hv Hw) as [E|E]; rewrite (evaluates_fun s _ _ _ Ht E), truthy_equality; [done|].
  apply equals_sym; [done|by apply prop_ok].
Qed.
Definition holds_b (key : bytes) (v : value) (r : NodeRecord) : bool :=
  match fwd T (DKey, key) with Some k => match Props r !! k with Some w => equals w v | None => false end | None => false end.
Lemma holds_b_spec key v r : holds_b key v r = true <-> holds T key v r.
Proof.
  unfold holds_b, holds. split.
  - destruct (fwd T (DKey, key)) as [k|]; [|done]. destruct (Props r !! k) as [w|] eqn:E; [|done]. intros Heq. by exists k, w.
  - intros (k & w & -> & -> & Heq). done.
Qed.
Lemma holds_prop key w x : holds_b key (normalize w) (n_rec x) = equals (prop_of T key x) w.
Proof.
  unfold holds_b, prop_of. destruct (fwd T (DKey, key)) as [k|]; [|done]. destruct (Props (n_rec x) !! k); [|done]. apply equals_normalize.
Qed.

(** ** The access methods *)
Context (labels : list bytes) (props : list (bytes * Expr)) (where_ : option Expr) (truth : Expr -> Node -> value).
Context (Hok : pattern_ok T s n labels props where_ truth).
#[local] Abbreviation matches := (matches T n labels props where_ truth).
#[local] Abbreviation covers := (covers T s n labels props where_ truth).

Lemma covers_all : exists xs, covers (Plan.AllNodesScan n) None xs.
Proof.
  destruct (node_list_of (fun _ => true)) as [ns Hns]. exists ns. assert (forall x, x ∈ ns <-> is_node T x) as Hin.
  { intros x. destruct Hns as [_ Hin]. rewrite Hin. unfold is_node. tauto. }
  split; try done.
  - exists ns. split; [|done]. eapply node_list_iff; [|exact Hns]. done.
  - by apply sorted_nodup, Hns.
  - intros x. apply Hin.
  - intros x [Hx _]. by apply Hin.
Qed.
Lemma covers_by_label label : label ∈ labels -> exists xs, covers (Plan.NodeByLabelScan n label) None xs.
Proof.
  intros Hl. destruct (node_list_of (fun r => has_label T label (mkNode 0 r))) as [ns Hns]. exists ns.
  assert (forall x, x ∈ ns <-> is_node T x /\ has_label T label x = true) as Hin by (intros x; apply Hns).
  split; try done.
  - exists ns. split; [|done]. eapply node_list_iff; [|exact Hns]. intros r. apply has_label_spec.
  - by apply sorted_nodup, Hns.
  - intros x. apply Hin.
  - intros x (Hx & Hls & _). apply Hin. auto.
  - intros x Hx _. by apply Hin.
Qed.
(** An index seek: the condition [e], one of those of the pattern, is ensured. *)
Lemma covers_by_property label k v e w q : label ∈ labels -> e ∈ conditions n props where_ -> eq_forms k v e -> exprVars v = [] ->
  evaluates s (eval v ∅) w -> value_ok w ->
  (eq_conjIdx q < 0 -> eq_key q = k /\ (k, v) ∈ props /\ e = eqExpr n k v) -> (0 <= eq_conjIdx q -> wconj where_ !! Z.to_nat (eq_conjIdx q) = Some e) ->
  exists xs, covers (Plan.NodeByProperty n label k v) (Some q) xs.
Proof.
  intros Hl He Hf Hv Hw Hwok Hneg Hpos. destruct (node_list_of (fun r => has_label T label (mkNode 0 r) && holds_b k (normalize w) r)) as [ns Hns]. exists ns.
  assert (forall x, x ∈ ns <-> is_node T x /\ has_label T label x = true /\ holds_b k (normalize w) (n_rec x) = true) as Hin.
  { intros x. destruct Hns as [_ Hin]. rewrite Hin, andb_true_iff. done. }
  assert (forall x, is_node T x -> passes truth e x = holds_b k (normalize w) (n_rec x)) as Hpass.
  { intros x Hx. rewrite holds_prop. eapply equality_passes; [exact Hf|exact Hv|exact Hw|exact Hwok|exact Hx|]. by apply (pk_truth _ _ _ _ _ _ _ Hok). }
  split; try done.
  - exists w, ns. split_and!; [done|done| |done]. eapply node_list_iff; [|exact Hns]. intros r. rewrite andb_true_iff, holds_b_spec. by rewrite <- (has_label_spec T label (mkNode 0 r)).
  - by apply sorted_nodup, Hns.
  - intros x. apply Hin.
  - intros x (Hx & Hls & Hcond). apply Hin. split_and!; [done|by apply Hls|]. rewrite <- Hpass by done. by apply Hcond.
  - intros x Hx _. by apply Hin.
  - intros x q' Hx [= <-] Hlt. destruct (Hneg Hlt) as (-> & Hkv & ->). exists v. split; [done|]. apply Hin in Hx as (Hx & _ & Hh). by rewrite Hpass.
  - intros x q' Hx [= <-] Hle. exists e. split; [by apply Hpos|]. apply Hin in Hx as (Hx & _ & Hh). by rewrite Hpass.
Qed.

(** *** Ranges *)
Lemma ev_compare op l r a b : op ∈ comparisons -> evaluates s l a -> evaluates s r b -> evaluates s (evalBinary op l r) (compareOp op a b).
Proof.
  intros Hop Hl Hr. enough (evalBinary op l r = (a ← l; b ← r; mret (compareOp op a b))) as ->.
  { eapply evaluates_bind; [exact Hl|]. eapply evaluates_bind; [exact Hr|apply evaluates_ret]. }
  unfold comparisons in Hop. cbn [fmap list_fmap] in Hop. set_unfold in Hop. by destruct_or! Hop; subst op.
Qed.
Lemma flipped_compare op a b : op ∈ comparisons -> value_ok a -> value_ok b -> compareOp op a b = compareOp (flipped op) b a.
Proof.
  intros Hop Ha Hb. destruct (comparison_laws a b Ha Hb) as (_ & E1 & E2 & _). destruct (comparison_laws b a Hb Ha) as (_ & E3 & E4 & _).
  unfold comparisons in Hop. cbn [fmap list_fmap] in Hop. set_unfold in Hop.
  destruct_or! Hop; subst op; [exact E1|exact E2|symmetry; exact E3|symmetry; exact E4].
Qed.
Lemma range_value e r x w t : asRange e = Some r -> rp_variable r = n -> is_node T x -> exprVars (rp_value r) = [] -> evaluates s (eval (rp_value r) ∅) w -> value_ok w ->
  evaluates s (eval e (row n x)) t ->
  (rp_op r ∈ comparisons /\ t = compareOp (rp_op r) (prop_of T (rp_key r) x) w) \/
  (rp_op r = str "STARTS WITH" /\ t = stringPredicate (prop_of T (rp_key r) x) w Scalars.HasPrefix).
Proof.
  intros Hr Hn Hx Hv Hw Hwok Ht. pose proof (closed_value (rp_value r) x w Hv Hw) as Hw'. pose proof (ev_prop T s HT Hc n (rp_key r) x) as Hp.
  pose proof (asRange_in e r Hr) as Hform. cbv zeta in Hform. rewrite Hn in Hform. destruct Hform as [[Hop ->]|[(op & Hop & Efl & ->)|[Eop ->]]].
  - left. split; [done|]. eapply evaluates_fun; [exact Ht|]. cbn [eval]. by apply ev_compare.
  - left. assert (rp_op r ∈ comparisons) as Hop'.
    { rewrite Efl. unfold comparisons in *. cbn [fmap list_fmap] in *. set_unfold in Hop. destruct_or! Hop; subst op; cbn; apply (bool_decide_unpack _); vm_compute; exact I. }
    split; [done|]. eapply evaluates_fun; [exact Ht|]. cbn [eval]. rewrite Efl, <- flipped_compare by (done || by apply prop_ok). by apply ev_compare.
  - right. split; [done|]. eapply evaluates_fun; [exact Ht|]. cbn [eval].
    change (evalBinary (str "STARTS WITH") ?l ?r) with (a ← l; b ← r; mret (stringPredicate a b Scalars.HasPrefix)).
    eapply evaluates_bind; [exact Hp|]. eapply evaluates_bind; [exact Hw'|apply evaluates_ret].
Qed.

(** Closed operands have values, prefixes are strings, and the catalog lists
    indexes that exist. *)
Context (cat : PlanCatalog).
Definition sides (e : Expr) : list Expr := match e with Binary _ l r => [l; r] | _ => [] end.
Definition operands : list Expr := props.*2 ++ concat (sides <$> wconj where_).
Record seeks_ok : Prop := {
  sk_value v : v ∈ operands -> exprVars v = [] -> exists w, evaluates s (eval v ∅) w /\ value_ok w;
  sk_prefix l r : Binary (str "STARTS WITH") l r ∈ wconj where_ -> exprVars r = [] -> exists t, evaluates s (eval r ∅) (VStr t);
  sk_catalog label key : cat_HasIndex cat label key = true -> exists l k, fwd T (DLabel, label) = Some l /\ fwd T (DKey, key) = Some k /\ is_Some (index T (l, k))
}.
Context (Hsk : seeks_ok).

Lemma range_operand e r : e ∈ wconj where_ -> asRange e = Some r -> rp_value r ∈ operands.
Proof.
  intros He Hr. unfold operands. apply elem_of_app. right. apply list_elem_of_In, in_concat. exists (sides e).
  split; [apply list_elem_of_In, list_elem_of_fmap; by exists e|]. apply list_elem_of_In.
  destruct (asRange_in e r Hr) as [[_ ->]|[(op & _ & _ & ->)|[_ ->]]]; cbn [sides]; set_solver.
Qed.
(** A range predicate of the pattern: its bound, and what a matching node has. *)
Lemma range_bound e r : e ∈ wconj where_ -> asRange e = Some r -> rp_variable r = n -> exprVars (rp_value r) = [] ->
  exists w, evaluates s (eval (rp_value r) ∅) w /\ value_ok w /\ (rp_op r = str "STARTS WITH" -> exists t, w = VStr t) /\
  forall x, matches x ->
    (rp_op r ∈ comparisons /\ compareOp (rp_op r) (prop_of T (rp_key r) x) w = VBool true) \/
    (rp_op r = str "STARTS WITH" /\ exists a b, prop_of T (rp_key r) x = VStr a /\ w = VStr b /\ has_prefix b a = true).
Proof.
  intros He Hr Hv Hcl. destruct (sk_value Hsk _ (range_operand e r He Hr) Hcl) as (w & Hw & Hwok). exists w. split_and!; [done|done| |].
  - intros Eop. destruct (asRange_in e r Hr) as [[Hop _]|[(op & Hop & Efl & _)|[_ Ee]]].
    + exfalso. revert Hop. rewrite Eop. apply (bool_decide_eq_false _). vm_compute. reflexivity.
    + exfalso. unfold comparisons in Hop. cbn [fmap list_fmap] in Hop. set_unfold in Hop. by destruct_or! Hop; subst op; rewrite Efl in Eop.
    + rewrite Ee in He. destruct (sk_prefix Hsk _ _ He Hcl) as (t & Et). exists t. exact (evaluates_fun s _ _ _ Hw Et).
  - intros x (Hx & _ & Hcond). assert (e ∈ conditions n props where_) as Hin by (unfold conditions; apply elem_of_app; by right).
    pose proof (pk_truth _ _ _ _ _ _ _ Hok e x Hin Hx) as Ht. specialize (Hcond e Hin). unfold passes in Hcond.
    destruct (range_value e r x w _ Hr Hv Hx Hcl Hw Hwok Ht) as [[Hop E]|[Hop E]]; rewrite E in Hcond; [left|right]; (split; [done|]).
    + destruct (compareOp _ _ _) as [|[]| | | | | | | | | |]; done.
    + unfold stringPredicate in Hcond. destruct (prop_of T (rp_key r) x) as [| | | | |a| | | | | |]; try done. destruct w as [| | | | |b| | | | | |]; try done. by exists a, b.
Qed.

(** A bound of the scan: its value, and what it says of a matching node. *)
Definition bounded (k opn : bytes) (w : value) (x : Node) : Prop :=
  (opn ∈ comparisons /\ compareOp opn (prop_of T k x) w = VBool true) \/
  (opn = str "STARTS WITH" /\ exists a b, prop_of T k x = VStr a /\ w = VStr b /\ has_prefix b a = true).
Lemma bound_of k o opn :
  (forall e, o = Some e -> exists r, r ∈ filter (fun r => rp_key r = k) (Planner.at_ (index_ranges (wconj where_)) n) /\ rp_value r = e /\
    seekable new_planner e = true /\ rp_op r = opn) ->
  exists ov, evaluates s (eval_opt o ∅) ov /\ (is_Some o <-> is_Some ov) /\
    forall w, ov = Some w -> value_ok w /\ (opn = str "STARTS WITH" -> exists t, w = VStr t) /\ forall x, matches x -> bounded k opn w x.
Proof.
  intros Ho. destruct o as [e|]; [|exists None; split; [apply evaluates_ret|split; [done|done]]].
  destruct (Ho e eq_refl) as (r & [Hk (e0 & He & Hr & Hv)%index_ranges_in]%list_elem_of_filter & Eval & Hseek & Eop). subst k opn e.
  destruct (range_bound e0 r He Hr Hv (seekable_new _ Hseek)) as (w & Hw & Hwok & Hstr & Hm). exists (Some w).
  split; [cbn [eval_opt]; eapply evaluates_bind; [exact Hw|apply evaluates_ret]|]. split; [by split|]. intros w' [= <-]. done.
Qed.
Lemma bounded_value k opn w x : bounded k opn w x -> exists i v, fwd T (DKey, k) = Some i /\ Props (n_rec x) !! i = Some v /\ prop_of T k x = v.
Proof.
  intros Hb. assert (prop_of T k x <> VNull) as Hne.
  { intros E. destruct Hb as [[_ Hb]|[_ (a & b & Ea & _)]]; [rewrite E in Hb; rewrite compareOp_sign in Hb; done|congruence]. }
  unfold prop_of in *. destruct (fwd T (DKey, k)) as [i|]; [|done]. destruct (Props (n_rec x) !! i) as [v|] eqn:E; [|done]. by exists i, v.
Qed.

Lemma range_accepts k li ui pv lov upv x :
  (forall w, lov = Some w -> bounded k (if li : bool then str ">=" else str ">") w x) ->
  (forall w, upv = Some w -> bounded k (if ui : bool then str "<=" else str "<") w x) ->
  (forall w, pv = Some w -> bounded k (str "STARTS WITH") w x) -> (is_Some lov \/ is_Some upv \/ is_Some pv) ->
  accepts (range_of pv lov upv li ui) (prop_of T k x).
Proof.
  intros Hl Hu Hp Hsome. split; cbn.
  - destruct pv as [w|]; [|done]. intros _. destruct (Hp w eq_refl) as [[Hop _]|[_ (a & b & Ea & -> & Hpre)]]; [|by exists a].
    exfalso. revert Hop. apply (bool_decide_eq_false _). vm_compute. reflexivity.
  - destruct lov as [w|]; [|done]. intros _. unfold accepts_lower. cbn. destruct (Hl w eq_refl) as [[_ E]|[Hop _]]; [by destruct li|by destruct li].
  - destruct upv as [w|]; [|done]. intros _. unfold accepts_upper. cbn. destruct (Hu w eq_refl) as [[_ E]|[Hop _]]; [by destruct ui|by destruct ui].
  - destruct Hsome as [[? ->]|[[? ->]|[? ->]]]; cbn; [|by destruct pv, lov|done]. by destruct pv.
Qed.
Lemma range_of_ok pv lov upv li ui : (forall w, pv = Some w -> value_ok w) -> (forall w, lov = Some w -> value_ok w) -> (forall w, upv = Some w -> value_ok w) ->
  range_ok (range_of pv lov upv li ui).
Proof.
  intros Hp Hl Hu. split; cbn.
  - destruct lov as [w|]; [by apply Hl|done].
  - destruct upv as [w|]; [by apply Hu|done].
  - destruct pv as [[| | | | |t| | | | | |]|]; try constructor. exact (Hp _ eq_refl).
Qed.

Lemma covers_by_range label p : label ∈ labels ->
  rangeScan cat new_planner n label (Planner.at_ (index_ranges (wconj where_)) n) = Some p -> exists xs, covers p None xs.
Proof.
  intros Hl (k & lo & up & li & ui & pre & Hix & -> & [Hlo Hup Hpre] & Hsome)%rangeScan_in. cbn [fst snd] in *.
  destruct (sk_catalog Hsk _ _ Hix) as (l & i & El & Ei & Hindex).
  destruct (bound_of k lo _ Hlo) as (lov & Elo & Slo & Blo). destruct (bound_of k up _ Hup) as (upv & Eup & Sup & Bup).
  destruct (bound_of k pre _ Hpre) as (pv & Epre & Spre & Bpre).
  assert (is_Some lov \/ is_Some upv \/ is_Some pv) as Hsome' by (rewrite <- Slo, <- Sup, <- Spre; done).
  assert (forall x, matches x -> accepts (range_of pv lov upv li ui) (prop_of T k x)) as Hacc.
  { intros x Hx. apply range_accepts; [intros w Ew; by apply Blo|intros w Ew; by apply Bup|intros w Ew; by apply Bpre|done]. }
  assert (forall x, matches x -> exists v, Props (n_rec x) !! i = Some v /\ prop_of T k x = v) as Hval.
  { intros x Hx. assert (exists opn w, bounded k opn w x) as (opn & w & Hb).
    { destruct Hsome' as [[w Ew]|[[w Ew]|[w Ew]]]; [eexists _, w; by apply Blo|eexists _, w; by apply Bup|eexists _, w; by apply Bpre]. }
    destruct (bounded_value _ _ _ _ Hb) as (i' & v & Ei' & Hv & E). assert (i' = i) as -> by congruence. by exists v. }
  assert (forall x, matches x -> l ∈ Labels (n_rec x)) as Hlab.
  { intros x (_ & Hls & _). specialize (Hls label Hl). unfold has_label in Hls. rewrite El in Hls. by apply bool_decide_eq_true in Hls. }
  assert (range_ok (range_of pv lov upv li ui)) as Hrok by (apply range_of_ok; intros w Ew; [by apply Bpre|by apply Blo|by apply Bup]).
  assert (forall ns, range_nodes s l i (range_of pv lov upv li ui) ns -> answers T s (Plan.NodeByPropertyRange n label k lo up li ui pre) None (node_rows n ns)) as Hans.
  { intros ns Hns. exists l, i, pv, lov, upv, ns. split_and!; try done. intros w Ew. by apply Bpre. }
  destruct (range_scan_yields T s l i _ HT Hc (fwd_u32 T Hc _ _ _ El) (fwd_u32 T Hc _ _ _ Ei) Hrok Hindex) as [[Er Hno]|(c & ns & Er & Hy & Hnd & Hin & Hcomp)].
  - exists []. split; try done; try (by intros x ?%elem_of_nil); try (by intros x q ?%elem_of_nil); [apply Hans; by left|constructor|].
    intros x Hx. destruct (Hval x Hx) as (v & Hv & E). exfalso. apply (Hno (n_ID x) (n_rec x) v (proj1 Hx) (Hlab x Hx) Hv). rewrite <- E. by apply Hacc.
  - exists ns. split; try done; [apply Hans; right; by exists c| | |].
    + intros x Hx. by apply Hin.
    + intros x Hx. destruct (Hval x Hx) as (v & Hv & E). destruct x as [id rec]. apply (Hcomp id rec v (proj1 Hx) (Hlab _ Hx) Hv). rewrite <- E. by apply Hacc.
    + intros x Hx _. cbn [scanLabelOf]. unfold has_label. rewrite El. apply bool_decide_eq_true. by apply Hin.
Qed.

(** ** The planner's choice *)
Lemma property_operand v k : (k, v) ∈ props -> v ∈ operands.
Proof. intros Hin. unfold operands. apply elem_of_app. left. apply list_elem_of_fmap. by exists (k, v). Qed.
Lemma equality_operand e q : e ∈ wconj where_ -> q ∈ asEqualities e -> eq_value q ∈ operands.
Proof.
  intros He Hq. unfold operands. apply elem_of_app. right. apply list_elem_of_In, in_concat. exists (sides e).
  split; [apply list_elem_of_In, list_elem_of_fmap; by exists e|]. apply list_elem_of_In.
  destruct (asEqualities_in e q Hq) as [_ [->| ->]]; cbn [sides]; set_solver.
Qed.
Lemma choice_covers sc scan eq : choice n labels props where_ cat = (sc, scan, eq) -> exists xs, covers scan eq xs.
Proof.
  unfold choice, scoreNode. cbn [nd nd_name nd_labels nd_props].
  destruct (first_some _ labels) as [[label q]|] eqn:Es.
  - intros [= <- <- <-]. apply first_some_in in Es as (label' & Hl & Es).
    destruct (first_some _ (Sema.by_key props)) as [q'|] eqn:Ep.
    + injection Es as -> ->. apply first_some_in in Ep as ([k v] & Hkv & Ep). destruct (cat_HasIndex cat label k && seekable new_planner v) eqn:E; [|done].
      injection Ep as <-. apply andb_true_iff in E as [_ Hseek]. cbn [eq_key eq_value eq_conjIdx]. assert ((k, v) ∈ props) as Hin by by rewrite by_key_in in Hkv.
      destruct (sk_value Hsk v (property_operand v k Hin) (seekable_new _ Hseek)) as (w & Hw & Hwok).
      eapply (covers_by_property label k v (eqExpr n k v) w); [done|by apply inline_in|by left|by apply seekable_new|done|done| |].
      * intros _. done.
      * cbn. lia.
    + apply first_some_in in Es as (q' & Hq & Es). destruct (cat_HasIndex cat label' (eq_key q') && seekable new_planner (eq_value q')) eqn:E; [|done].
      injection Es as -> ->. apply andb_true_iff in E as [_ Hseek]. apply index_equalities_in in Hq as (i & e & q0 & He & Hq0 & Hv0 & ->). cbn [eq_key eq_value] in *.
      assert (e ∈ wconj where_) as Hin by by eapply list_elem_of_lookup_2.
      destruct (sk_value Hsk _ (equality_operand e q0 Hin Hq0) (seekable_new _ Hseek)) as (w & Hw & Hwok).
      eapply (covers_by_property label (eq_key q0) (eq_value q0) e w); [done|by eapply conj_in| |by apply seekable_new|done|done| |].
      * destruct (asEqualities_in e q0 Hq0) as [_ Hform]. by rewrite Hv0 in Hform.
      * cbn. lia.
      * cbn. by rewrite Nat2Z.id.
  - clear Es. match goal with |- context [match ?o with Some _ => _ | None => _ end] => destruct o as [p|] eqn:Er end.
    + intros [= <- <- <-]. apply first_some_in in Er as (label & Hl & Er). by eapply covers_by_range.
    + assert (labels = [] \/ exists l ls, labels = l :: ls) as [El|(l & ls & El)] by (destruct labels; eauto).
      * rewrite El at 1. intros [= <- <- <-]. apply covers_all.
      * rewrite El at 1. intros [= <- <- <-]. apply covers_by_label. rewrite El. left.
Qed.
End access.
End MatchAccess.
