(* ===== verification/Trails.v ===== *)
(** * Trails: variable-length patterns

    The layered search of src/internal/exec/expand.go ([varExpand.bfs]) against
    its specification: a trail is a walk that uses no relationship twice, and a
    variable-length pattern matches exactly the trails from the start node whose
    number of relationships is within the bounds, shorter ones first. *)
From S2P Require Import Prelude Float64 FloatArith Values Ast Plan Scalars Text Keys Records Storage Catalog Graph Context Functions Eval.
From S2P Require Import Shortest Aggregate Expand Write StableSort RangeScan Tables GraphInv NodeOps NodeUpdates Traversal Lookups Ranges Ddl Operators QueryLaws.
Import Ast Scalars Text Context Functions Eval Shortest Aggregate Expand Write StableSort Operators QueryLaws.

Module Trails.
Section trails.
Context (T : tables) (dir : Direction) (types : list Z).

(** ** The specification *)

(** Edge [e] leads from [n] to [m], in the direction and with a type of the
    pattern; the type 0 stands for any. *)
Definition hop (n e m : Z) : Prop :=
  exists r, edges T e = Some r /\ (0 ∈ types \/ Type_ r ∈ types) /\
    ((addOut dir = true /\ Src r = n /\ Dst r = m) \/ (addIn dir = true /\ Dst r = n /\ Src r = m)).

Inductive trail (from : Z) : list Z -> Z -> Prop :=
| trail_nil : trail from [] from
| trail_snoc es n e m : trail from es n -> hop n e m -> e ∉ es -> trail from (es ++ [e]) m.

(** ** The relationships of a node *)
Context `{Runtime} (s : store) (HT : Rep T s) (Hc : consistent T) (Htypes : Forall u32 types).

Lemma run_OutEdges n t : u64 n -> u32 t ->
  exists refs, run (OutEdges n t) s = (Ok refs, s) /\ edge_refs T (fun r => Src r = n /\ (t = 0 \/ Type_ r = t)) refs.
Proof.
  intros Hn Ht. destruct (wp_OutEdges T n t (fun r _ => exists refs, r = Ok refs /\ edge_refs T (fun r => Src r = n /\ (t = 0 \/ Type_ r = t)) refs)
    Hc Hn Ht (fun refs Hr => ex_intro _ refs (conj eq_refl Hr)) s HT) as (_ & _ & refs & E & Hr).
  exists refs. split; [|done]. rewrite (read_only_run (OutEdges n t) s ltac:(unfold OutEdges, Scan; read_only_auto)). by rewrite E.
Qed.
Lemma run_InEdges n t : u64 n -> u32 t ->
  exists refs, run (InEdges n t) s = (Ok refs, s) /\ edge_refs T (fun r => Dst r = n /\ (t = 0 \/ Type_ r = t)) refs.
Proof.
  intros Hn Ht. destruct (wp_InEdges T n t (fun r _ => exists refs, r = Ok refs /\ edge_refs T (fun r => Dst r = n /\ (t = 0 \/ Type_ r = t)) refs)
    Hc Hn Ht (fun refs Hr => ex_intro _ refs (conj eq_refl Hr)) s HT) as (_ & _ & refs & E & Hr).
  exists refs. split; [|done]. rewrite (read_only_run (InEdges n t) s ltac:(unfold InEdges, Scan; read_only_auto)). by rewrite E.
Qed.

(** The references gathered type by type. *)
Lemma run_by_type (scan : Z -> prog (list EdgeRef)) (P : EdgeRecord -> Prop) (on : bool) :
  (forall t, u32 t -> exists refs, run (scan t) s = (Ok refs, s) /\ edge_refs T (fun r => P r /\ (t = 0 \/ Type_ r = t)) refs) ->
  exists rss, run (if on then map_prog scan types else mret []) s = (Ok rss, s) /\
    forall ref, ref ∈ mjoin (M := list) rss <->
      on = true /\ exists e r, edges T e = Some r /\ (0 ∈ types \/ Type_ r ∈ types) /\ P r /\ ref = ref_of e r.
Proof.
  intros Hscan. destruct on; [|exists []; split; [done|]; intros ref; cbn; rewrite elem_of_nil; naive_solver].
  induction Htypes as [|t ts Ht Hts IH]; cbn [map_prog].
  { exists []. split; [done|]. intros ref. cbn. setoid_rewrite elem_of_nil. naive_solver. }
  destruct (IH Hts) as (rss & Erss & Hrss). destruct (Hscan t Ht) as (refs & Erefs & _ & Hrefs).
  exists (refs :: rss). split; [by rewrite run_bind, Erefs, run_bind, Erss|].
  intros ref. cbn [mjoin list_join]. rewrite elem_of_app, Hrefs, Hrss. setoid_rewrite elem_of_cons. naive_solver.
Qed.

Lemma run_neighbors n : u64 n -> exists nbs, run (var_neighbors dir types n) s = (Ok nbs, s) /\
  forall nb, nb ∈ nbs <-> hop n (nh_edgeID nb) (nh_otherID nb).
Proof.
  intros Hn. destruct (run_by_type (OutEdges n) (fun r => Src r = n) (addOut dir) ltac:(intros; by apply run_OutEdges)) as (outs & Eo & Ho).
  destruct (run_by_type (InEdges n) (fun r => Dst r = n) (addIn dir) ltac:(intros; by apply run_InEdges)) as (ins & Ei & Hi).
  eexists. split; [unfold var_neighbors; rewrite run_bind, Eo, run_bind, Ei; reflexivity|].
  intros [e m]. rewrite elem_of_app, !list_elem_of_fmap. unfold hop. cbn. split.
  - intros [(ref & [= -> ->] & (Hd & x & r & Hr & Ht & Hs & ->)%Ho)|(ref & [= -> ->] & (Hd & x & r & Hr & Ht & Hs & ->)%Hi)];
      exists r; cbn; naive_solver.
  - intros (r & Hr & Ht & [(Hd & Hs & <-)|(Hd & Hs & <-)]); [left|right]; exists (ref_of e r); (split; [done|]); [apply Ho|apply Hi]; eauto 10.
Qed.

(** ** The search *)
Section search.
Context (from : Z) (Hfrom : u64 from).

Definition found (h : varHit) : Prop := trail from (vh_edges h) (vh_toID h).

Lemma trail_u64 es m : trail from es m -> u64 m.
Proof.
  destruct 1 as [|es n e m _ (r & Hr & _ & Hd) _]; [done|]. destruct (edge_u64 _ _ _ Hc Hr) as [_ [_ Hs Hds _]]. naive_solver.
Qed.

Lemma containsEdge_spec es e : containsEdge es e = true <-> e ∈ es.
Proof.
  unfold containsEdge. rewrite existsb_exists. setoid_rewrite Z.eqb_eq. rewrite list_elem_of_In. naive_solver.
Qed.

Lemma extend_found f nbs h : (forall nb, nb ∈ nbs <-> hop (vh_toID f) (nh_edgeID nb) (nh_otherID nb)) ->
  h ∈ extend_trail f nbs <-> exists e, vh_edges h = vh_edges f ++ [e] /\ hop (vh_toID f) e (vh_toID h) /\ e ∉ vh_edges f.
Proof.
  intros Hn. unfold extend_trail. rewrite list_elem_of_omap. split.
  - intros (nb & Hnb & E). destruct (containsEdge (vh_edges f) (nh_edgeID nb)) eqn:Ec; [done|]. injection E as <-. cbn.
    exists (nh_edgeID nb). split_and!; [done|by apply Hn|]. rewrite <- containsEdge_spec. congruence.
  - destruct h as [m es]. cbn. intros (e & -> & Hh & Hne). exists (mkNeighbor e m). split; [by apply Hn|]. cbn.
    rewrite <- containsEdge_spec in Hne. by destruct (containsEdge (vh_edges f) e).
Qed.

(** One layer: from the trails of length [d] to those of length [d + 1]. *)
Definition layer (d : Z) (hs : list varHit) : Prop := forall h, h ∈ hs <-> found h /\ len (vh_edges h) = d.

Lemma expand_layer d frontier : 0 <= d -> layer d frontier -> exists nexts,
  evaluates s (mapM (fun f => nbs ← txn (var_neighbors dir types (vh_toID f)); mret (extend_trail f nbs)) frontier) nexts /\
  layer (d + 1) (mjoin (M := list) nexts).
Proof.
  intros Hd0 Hl. assert (forall fs, (forall f, f ∈ fs -> found f) -> exists nexts,
    evaluates s (mapM (fun f => nbs ← txn (var_neighbors dir types (vh_toID f)); mret (extend_trail f nbs)) fs) nexts /\
    forall h, h ∈ mjoin (M := list) nexts <-> exists f e, f ∈ fs /\ vh_edges h = vh_edges f ++ [e] /\ hop (vh_toID f) e (vh_toID h) /\ e ∉ vh_edges f) as Hall.
  { induction fs as [|f fs IH]; intros Hf.
    { exists []. split; [apply evaluates_ret|]. intros h. cbn. setoid_rewrite elem_of_nil. naive_solver. }
    destruct (IH ltac:(intros; apply Hf; by right)) as (nexts & En & Hn).
    destruct (run_neighbors (vh_toID f)) as (nbs & Enb & Hnb); [eapply trail_u64, (Hf f); by left|].
    exists (extend_trail f nbs :: nexts). split.
    - cbn [mapM]. eapply evaluates_bind; [eapply evaluates_bind; [by apply evaluates_txn|apply evaluates_ret]|].
      eapply evaluates_bind; [exact En|apply evaluates_ret].
    - intros h. cbn [mjoin list_join]. rewrite elem_of_app, (extend_found f nbs h Hnb), Hn. setoid_rewrite elem_of_cons. naive_solver. }
  destruct (Hall frontier) as (nexts & En & Hn); [by intros f [Hf _]%Hl|]. exists nexts. split; [done|]. intros h. rewrite Hn. split.
  - intros (f & e & [Hf Hd]%Hl & Eh & Hh & Hne). unfold found. rewrite Eh. split; [by eapply trail_snoc|]. unfold len in *. rewrite length_app. cbn. lia.
  - intros [Hf Hd]. destruct h as [m es]. unfold found in Hf. cbn in *. destruct Hf as [|es n e m Ht Hh Hne]; [unfold len in Hd; cbn in Hd; lia|].
    exists (mkVarHit n es), e. split_and!; try done. apply Hl. split; [done|]. cbn. unfold len in *. rewrite length_app in Hd. cbn in Hd. lia.
Qed.

Lemma trail_prefix es m k : trail from es m -> (k <= length es)%nat -> exists n, trail from (take k es) n.
Proof.
  induction 1 as [|es n e m Ht IH Hh Hne]; intros Hk; [rewrite take_nil; by exists from; constructor|].
  rewrite length_app in Hk. cbn in Hk. destruct (decide (k <= length es)%nat) as [Hle|Hgt].
  - rewrite take_app_le by done. by apply IH.
  - rewrite take_ge by (rewrite length_app; cbn; lia). exists m. by econstructor.
Qed.

(** A layer without trails is the end. *)
Lemma layer_empty d h : 0 <= d -> layer d [] -> found h -> len (vh_edges h) < d.
Proof.
  intros Hd Hl Hf. destruct (Z.lt_ge_cases (len (vh_edges h)) d) as [|Hge]; [done|]. unfold len in Hge.
  destruct (trail_prefix _ _ (Z.to_nat d) Hf) as [n Hn]; [lia|].
  assert (mkVarHit n (take (Z.to_nat d) (vh_edges h)) ∈ []) as Hin; [|by apply elem_of_nil in Hin].
  apply Hl. split; [done|]. cbn. unfold len. rewrite length_take. lia.
Qed.

(** What the hits are once all lengths up to [top] are done. *)
Definition collected (lo top : Z) (hits : list varHit) : Prop :=
  (forall h, h ∈ hits <-> found h /\ lo <= len (vh_edges h) <= top) /\
  StronglySorted (fun h1 h2 => len (vh_edges h1) <= len (vh_edges h2)) hits.

Lemma strongly_sorted_app {A : Type} (R : A -> A -> Prop) l1 l2 :
  StronglySorted R l1 -> StronglySorted R l2 -> (forall x y, x ∈ l1 -> y ∈ l2 -> R x y) -> StronglySorted R (l1 ++ l2).
Proof.
  induction 1 as [|x l1 H1 IH Hx]; intros H2 Hxy; [done|]. cbn. constructor.
  - apply IH; [done|]. intros; apply Hxy; [by right|done].
  - apply Forall_app. split; [done|]. apply Forall_forall. intros y Hy. apply Hxy; [by left|done].
Qed.

Lemma collected_next lo d hits hs : layer d hs -> collected lo (d - 1) hits ->
  collected lo d (if lo <=? d then hits ++ hs else hits).
Proof.
  intros Hl [Hin Hs]. destruct (Z.leb_spec lo d); split.
  - intros h. rewrite elem_of_app, Hin, (Hl h). split; [intuition lia|].
    intros [Hf Hr]. destruct (decide (len (vh_edges h) = d)); [right|left]; (split; [done|lia]).
  - apply strongly_sorted_app; [done| |].
    + assert (forall h, h ∈ hs -> len (vh_edges h) = d) as Hd by (by intros h [_ ?]%Hl). clear -Hd.
      induction hs as [|h hs IH]; constructor; [apply IH; intros; apply Hd; by right|].
      apply Forall_forall. intros h' Hh'. rewrite (Hd h), (Hd h'); [lia|by right|by left].
    + intros x y [_ Hx]%Hin [_ Hy]%Hl. lia.
  - intros h. rewrite Hin. intuition lia.
  - done.
Qed.

Lemma bfs_loop_found lo hi k d frontier hits :
  1 <= d <= hi + 1 -> Z.to_nat (hi - d + 1) = k -> layer (d - 1) frontier -> collected lo (d - 1) hits ->
  exists hits', collected lo hi hits' /\
    forall fuel, (k < fuel)%nat -> evaluates s (bfs_loop fuel dir types lo hi d frontier hits) hits'.
Proof.
  revert d frontier hits. induction k as [|k IH]; intros d frontier hits Hd Hk Hl Hh.
  { exists hits. split; [by replace hi with (d - 1) by lia|]. intros [|fuel] Hf; [lia|]. cbn [bfs_loop].
    rewrite (proj2 (Z.ltb_lt hi d)) by lia. apply evaluates_ret. }
  destruct (expand_layer (d - 1) frontier ltac:(lia) Hl) as (nexts & En & Hn). replace (d - 1 + 1) with d in Hn by lia.
  pose proof (collected_next lo d hits _ Hn Hh) as Hc'. set (hits' := if lo <=? d then _ else _) in Hc'.
  assert (forall out, (forall fuel, (k < fuel)%nat -> evaluates s (match mjoin (M := list) nexts with
      | [] => mret hits' | _ => bfs_loop fuel dir types lo hi (d + 1) (mjoin (M := list) nexts) hits' end) out) ->
    forall fuel, (S k < fuel)%nat -> evaluates s (bfs_loop fuel dir types lo hi d frontier hits) out) as Hstep.
  { intros out Hout [|fuel] Hf; [lia|]. cbn [bfs_loop]. rewrite (proj2 (Z.ltb_ge hi d)) by lia.
    eapply evaluates_bind; [apply evaluates_check|]. eapply evaluates_bind; [exact En|]. apply Hout. lia. }
  destruct (mjoin (M := list) nexts) as [|h hs] eqn:Ej.
  - exists hits'. split; [|apply Hstep; intros; apply evaluates_ret].
    destruct Hc' as [Hin Hs]. split; [|done]. intros x. rewrite Hin. split; [intuition lia|]. intros [Hf Hx]. split; [done|].
    pose proof (layer_empty d x ltac:(lia) Hn Hf). lia.
  - destruct (IH (d + 1) (h :: hs) hits') as (out & Ho & Eo); [lia|lia|by replace (d + 1 - 1) with d by lia..|].
    exists out. split; [done|]. by apply Hstep.
Qed.

(** The bounds of a pattern: [-1] stands for no bound. *)
Definition min_of (minHops : Z) : Z := if minHops <? 0 then 1 else minHops.
Definition max_of (maxHops : Z) : Z := if maxHops <? 0 then varExpandMaxDepth else maxHops.

Lemma bfs_found minHops maxHops : exists hits, collected (min_of minHops) (max_of maxHops) hits /\
  forall fuel, (Z.to_nat (max_of maxHops) + 1 <= fuel)%nat -> evaluates s (bfs fuel dir types minHops maxHops from) hits.
Proof.
  assert (0 <= max_of maxHops) as Hhi by (unfold max_of, varExpandMaxDepth; destruct (Z.ltb_spec maxHops 0); lia).
  assert (layer 0 [mkVarHit from []]) as Hl0.
  { intros [m es]. rewrite list_elem_of_singleton. unfold found, len. cbn. split; [intros [= -> ->]; split; [constructor|done]|].
    intros [Ht Hlen]. destruct es; [|cbn in Hlen; lia]. inversion Ht as [|es n e m' _ _ _ E]; subst; [done|]. by destruct es. }
  assert (collected (min_of minHops) (-1) []) as Hstart.
  { split; [|constructor]. intros h. rewrite elem_of_nil. unfold len. intuition lia. }
  pose proof (collected_next _ 0 [] _ Hl0 Hstart) as H0. cbn [app] in H0.
  unfold bfs. fold (min_of minHops) (max_of maxHops). cbv zeta. rewrite (proj2 (Z.leb_le 0 (max_of maxHops))) by done. rewrite andb_true_r.
  destruct (Z.eqb_spec (max_of maxHops) 0) as [E0|Hne].
  - eexists. split; [rewrite E0; exact H0|]. intros. apply evaluates_ret.
  - destruct (bfs_loop_found (min_of minHops) (max_of maxHops) _ 1 _ _ ltac:(lia) eq_refl Hl0 H0) as (out & Ho & Eo).
    exists out. split; [done|]. intros fuel Hf. apply Eo. lia.
Qed.
End search.
End trails.
End Trails.
