(* ===== verification/QueryClaims.v ===== *)
(** * QueryClaims: what queries return

    The theorems about running plans: a read query returns the rows its
    specification gives; ORDER BY, aggregation and variable-length patterns mean
    what they say; and the places where text keys and incomparable values make
    a query return something else. *)
From S2P Require Import Prelude Float64 FloatArith Values Ast Plan Scalars Text Keys Records Storage Catalog Graph Context Functions Eval.
From S2P Require Import Shortest Aggregate Expand Write StableSort RangeScan Tables GraphInv NodeOps NodeUpdates Traversal Lookups Ranges Ddl Operators QueryLaws.
From S2P Require Import OrderBy Grouping EdgeOps History GraphClaims EvalClaims Queries Trails.
Import Ast Scalars Text Context Functions Eval Shortest Aggregate Expand Write StableSort Operators QueryLaws OrderBy Grouping Queries Trails.

Module QueryClaims.

(** ** Queries over literal lists *)
Section literal.
Context `{Runtime, MapOrder}.

Lemma evaluates_pure {A : Type} (s : store) (m : M A) (a : A) : (forall c, m c = PRet (Ok a, c)) -> evaluates s m a.
Proof. intros E c Hc. exists c. by rewrite E. Qed.

Definition x_ : Expr := Variable_ (str "x").
Definition lits (vs : list value) : Expr := ListLiteral (Literal <$> vs).
Definition x_row (v : value) : binding := {[ str "x" := v ]}.
(** UNWIND vs AS x *)
Definition unwind (vs : list value) : Plan.Op := Plan.Unwind Plan.Nothing (lits vs) (str "x").

Lemma eval_lits s b vs : evaluates s (eval (lits vs) b) (VList vs).
Proof.
  cbn [lits eval]. eapply evaluates_bind; [apply evaluates_mapM|apply evaluates_ret].
  induction vs as [|v vs IH]; constructor; [apply evaluates_ret|done].
Qed.

Lemma unwind_answers T s arg vs : answers T s (unwind vs) arg (x_row <$> vs).
Proof.
  exists [∅], [vs]. split; [done|]. split; [constructor; [|constructor]|].
  - exists (VList vs). split; [apply eval_lits|by left].
  - cbn. by rewrite app_nil_r.
Qed.
Lemma eval_x s v : evaluates s (eval x_ (x_row v)) v.
Proof. apply evaluates_pure. intros c. unfold x_, x_row. cbn [eval]. by rewrite lookup_singleton_eq. Qed.

Definition start : Context := new_context ∅ 0.
Lemma start_live s : live s start.
Proof. by repeat split. Qed.

(** A query run on an empty database. *)
Definition answer (p : Plan.Op) (columns : list bytes) : res (list (list value)) :=
  match (run (Run 9 p columns start) ∅).1 with Ok (r, _) => r | Err e => Err e end.
End literal.

(** ** Read queries *)

(** C12: running a plan that only reads returns the rows its specification
    [answers] gives for the graph the store represents, as values of the
    requested columns, or the result-limit error when there are more than the
    query may return.  It does so for every sufficient fuel, that is after
    finitely many steps, and leaves the store as it was.  In particular filters
    filter, SKIP drops, LIMIT takes, products pair, OPTIONAL MATCH pads with
    nulls, and scans that use an index give the same rows as the graph. *)
Theorem query_answers `{Runtime, MapOrder} (T : tables) (s : store) (p : Plan.Op) (columns : list bytes) (rows : list binding) (c : Context) :
  Rep T s -> consistent T -> answers T s p None rows -> columns <> [] -> live s c ->
  exists bound, forall fuel, (bound <= fuel)%nat ->
    exists c', run (Run fuel p columns c) s = (Ok (within (MaxRows c) (output_row columns <$> rows), c'), s).
Proof. intros Hm Hc Ha Hcol Hl. exact (run_answers T s Hm Hc p columns rows c Ha Hcol Hl). Qed.

(** C13: ORDER BY sorts.  When the values of each sort key are of one kind
    (integers, floats other than NaN, strings or booleans), the query returns the
    input rows rearranged so that no row precedes the one before it, keys in the
    order given and DESC reversed, and rows that no key tells apart stay in their
    input order; there is only one such arrangement.  This is Go's
    sort.SliceStable run with the comparison of the code, on any number of
    rows. *)
Theorem order_by_correct `{Runtime, MapOrder} (T : tables) (s : store) (p : Plan.Op) (keys : list SortKey)
    (fs : list (binding -> value)) (columns : list bytes) (ins : list binding) (c : Context) :
  Rep T s -> consistent T -> answers T s p None ins -> columns <> [] -> live s c -> Forall2 (keyed s ins) keys fs ->
  exists rows, stable_sort (fun b => b ∈ ins) (precedes keys fs) ins rows /\
    (forall rows', stable_sort (fun b => b ∈ ins) (precedes keys fs) ins rows' -> rows' = rows) /\
    exists bound, forall fuel, (bound <= fuel)%nat -> exists c',
      run (Run fuel (Plan.Sort p keys) columns c) s = (Ok (within (MaxRows c) (output_row columns <$> rows), c'), s).
Proof.
  intros Hm Hc Ha Hcol Hl Hk. destruct (sort_exists s ins keys fs Hk) as (rows & _ & Hs).
  pose proof (precedes_weak s ins keys fs Hk) as Hw. exists rows. split; [done|]. split.
  - intros rows' Hs'. apply (stable_sort_unique (fun b => b ∈ ins) (precedes keys fs) ins); [by apply Forall_forall|done|done].
  - refine (run_answers T s Hm Hc (Plan.Sort p keys) columns rows c _ Hcol Hl). exists ins. split; [done|].
    exists (precedes keys fs). split; [done|]. split; [|done]. intros x y. by apply sort_less_precedes.
Qed.




(** ** Where the keys of rows and the order of values give out *)

Definition x_item : ProjItem := mkProjItem (str "x") x_.
Definition x_at (column : String.string) (i : Z) : ProjItem := mkProjItem (str column) (Subscript x_ (Literal (VInt i))).
Definition count_rows : ProjItem := mkProjItem (str "n") (FunctionCall (str "count") false true []).
Definition texts (a b : String.string) : value := VList [VStr (str a); VStr (str b)].

(** DISTINCT and grouping compare rows by text keys that different values
    share.  RETURN DISTINCT takes the integer 1 and the string '1', which are
    not equal, for the same row, since its key prints them alike; and grouping by
    two columns merges the rows ('a', 'b|s:c') and ('a|s:b', 'c'), whose keys
    are joined with a bar that is not escaped. *)
Theorem text_keys_merge_rows `{Runtime, MapOrder} :
  equality (VInt 1) (VStr (str "1")) = (false, true) /\
  answer (Plan.Project (unwind [VInt 1; VStr (str "1")]) [x_item] false) [str "x"] = Ok [[VInt 1]; [VStr (str "1")]] /\
  answer (Plan.Project (unwind [VInt 1; VStr (str "1")]) [x_item] true) [str "x"] = Ok [[VInt 1]] /\
  answer (Plan.Aggregate (unwind [texts "a" "b|s:c"; texts "a|s:b" "c"]) [x_at "a" 0; x_at "b" 1] [count_rows] false)
    [str "a"; str "b"; str "n"] = Ok [[VStr (str "a"); VStr (str "b|s:c"); VInt 2]].
Proof. split_and!; vm_compute; reflexivity. Qed.

(** ORDER BY does not sort rows with a null (or any two values that cannot
    be compared): the comparison takes such values to be equal, which is not a
    weak order, and the integers around the null stay out of order. *)
Theorem order_by_null_unsorted `{Runtime, MapOrder} :
  answer (Plan.Sort (unwind [VInt 3; VNull; VInt 1; VInt 2]) [mkSortKey x_ false]) [str "x"] =
    Ok [[VInt 3]; [VNull]; [VInt 1]; [VInt 2]] /\
  answer (Plan.Sort (unwind [VInt 3; VInt 1; VInt 2]) [mkSortKey x_ false]) [str "x"] = Ok [[VInt 1]; [VInt 2]; [VInt 3]].
Proof. split; vm_compute; reflexivity. Qed.

(** ** The claims on concrete queries *)
Section concrete.
#[local] Existing Instance plain_runtime.
#[local] Existing Instance listed_order.

(** UNWIND [3, 1, 2] AS x WITH x WHERE x > 1 RETURN x SKIP 1 *)
Definition big_x : Expr := Binary (str ">") x_ (Literal (VInt 1)).
Definition skip_query : Plan.Op := Plan.Skip (Plan.Filter (unwind [VInt 3; VInt 1; VInt 2]) big_x) (Literal (VInt 1)).

Lemma query_answers_witness : exists T, Rep T sample /\ exists bound, forall fuel, (bound <= fuel)%nat ->
  exists c', run (Run fuel skip_query [str "x"] start) sample = (Ok (Ok [[VInt 2]], c'), sample).
Proof.
  open_sample T.
  assert (within (MaxRows start) (output_row [str "x"] <$> [x_row (VInt 2)]) = Ok [[VInt 2]]) as <- by (vm_compute; reflexivity).
  refine (query_answers T sample skip_query [str "x"] [x_row (VInt 2)] start Hrep _ _ _ (start_live _)); [apply Hdb| |discriminate].
  exists (x_row <$> [VInt 3; VInt 2]), 1. split; [|split; [apply evaluates_pure; reflexivity|reflexivity]].
  exists (x_row <$> [VInt 3; VInt 1; VInt 2]), [VBool true; VBool false; VBool true]. split; [apply unwind_answers|].
  split; [|reflexivity]. repeat (constructor; [apply evaluates_pure; reflexivity|]). constructor.
Defined.

(** UNWIND [3, 1, 2] AS x RETURN x ORDER BY x DESC *)
Definition x_of (b : binding) : value := default VNull (b !! str "x").
Definition by_x : list SortKey := [mkSortKey x_ true].

Lemma keyed_x s zs : Forall2 (keyed s (x_row <$> (VInt <$> zs))) by_x [x_of].
Proof.
  constructor; [|constructor]. split; [|exists KInt]; intros b (v & -> & (z & -> & _)%list_elem_of_fmap)%list_elem_of_fmap.
  - apply evaluates_pure. intros c. reflexivity.
  - reflexivity.
Qed.

Lemma order_by_correct_witness : exists T, Rep T sample /\
  let ins := x_row <$> [VInt 3; VInt 1; VInt 2] in
  exists rows, stable_sort (fun b => b ∈ ins) (precedes by_x [x_of]) ins rows /\
    (forall rows', stable_sort (fun b => b ∈ ins) (precedes by_x [x_of]) ins rows' -> rows' = rows) /\
    exists bound, forall fuel, (bound <= fuel)%nat -> exists c',
      run (Run fuel (Plan.Sort (unwind [VInt 3; VInt 1; VInt 2]) by_x) [str "x"] start) sample =
      (Ok (within (MaxRows start) (output_row [str "x"] <$> rows), c'), sample).
Proof.
  open_sample T. cbv zeta.
  refine (order_by_correct T sample (unwind [VInt 3; VInt 1; VInt 2]) by_x [x_of] [str "x"] _ start Hrep _
    (unwind_answers _ _ _ _) _ (start_live _) (keyed_x _ [3; 1; 2])); [apply Hdb|discriminate].
Defined.

(** The query itself, run. *)
Lemma order_by_runs : answer (Plan.Sort (unwind [VInt 3; VInt 1; VInt 2]) by_x) [str "x"] = Ok [[VInt 3]; [VInt 2]; [VInt 1]].
Proof. vm_compute. reflexivity. Qed.

(** UNWIND [1, 2, 1] AS x RETURN x, count of rows, collect(x) *)
Definition x_key : list ProjItem := [mkProjItem (str "x") x_].
Definition two_aggs : list ProjItem :=
  [mkProjItem (str "n") (FunctionCall (str "count") false true []); mkProjItem (str "l") (FunctionCall (str "collect") false false [x_])].
Definition two_specs : list aggSpec := [mkAggSpec aggCount None true false; plain aggCollect x_].
Definition x_values (b : binding) : list value := [x_of b].
Definition two_args : list (binding -> value) := [fun _ => VNull; x_of].

Lemma x_computes s vs : Forall (computes x_key two_specs x_values two_args s) (x_row <$> vs).
Proof.
  apply Forall_forall. intros b (v & -> & _)%list_elem_of_fmap. split.
  - constructor; [apply eval_x|constructor].
  - constructor; [done|]. constructor; [|constructor]. intros _. exists x_. split; [done|apply eval_x].
Qed.
Lemma two_accs rows : exists accs, group_accs two_specs two_args rows accs.
Proof.
  destruct (count_star_is ((fun _ => VNull) <$> rows) (mkAggSpec aggCount None true false) eq_refl) as (a1 & E1 & _).
  destruct (collect_is x_ (x_of <$> rows)) as (a2 & E2 & _). exists [a1; a2]. repeat constructor; done.
Qed.


Lemma grouping_runs :
  answer (Plan.Aggregate (unwind [VInt 1; VInt 2; VInt 1]) x_key two_aggs false) [str "x"; str "n"; str "l"] =
  Ok [[VInt 1; VInt 2; VList [VInt 1; VInt 1]]; [VInt 2; VInt 1; VList [VInt 2]]].
Proof. vm_compute. reflexivity. Qed.


End concrete.
End QueryClaims.
