(* ===== verification/Bolt.v ===== *)
(** * Bolt: the bbolt storage adapter

    src/internal/storage/bolt/bolt.go.  The adapter buffers the writes of a
    transaction in [pending] and merges them with the committed bucket on every
    read; an iterator walks the bucket's cursor and the buffered writes side by
    side.  bbolt itself is the parameter [Bucket]: a bucket maps keys to values
    and a cursor yields its entries in byte order ([BucketLaws]).

    The adapter is an instance of [TxnLaws], and [Update] is atomic. *)
From S2P Require Import Prelude Storage.

(** ** bbolt *)
Class Bucket (B : Type) := {
  b_get : B -> bytes -> option bytes;                    (* Bucket.Get *)
  b_put : B -> bytes -> bytes -> option error * B;       (* Bucket.Put *)
  b_delete : B -> bytes -> option error * B;             (* Bucket.Delete *)
  b_seek : B -> bytes -> list kv                         (* Cursor.Seek, then Next *)
}.

Class BucketLaws (B : Type) `{Bucket B} (contents : B -> store) := {
  b_get_law : forall b k, b_get b k = contents b !! k;
  b_put_law : forall b k v, match b_put b k v with
    | (None, b') => contents b' = <[k := v]> (contents b)
    | (Some e, _) => engine_error e
    end;
  b_delete_law : forall b k, match b_delete b k with
    | (None, b') => contents b' = delete k (contents b)
    | (Some e, _) => engine_error e
    end;
  b_seek_law : forall b s, b_seek b s = scan_store [] s (contents b)
}.

(** A bucket kept in memory. *)
#[global] Instance store_bucket : Bucket store := {
  b_get m k := m !! k;
  b_put m k v := (None, <[k := v]> m);
  b_delete m k := (None, delete k m);
  b_seek m s := scan_store [] s m
}.
#[global] Instance store_bucket_laws : BucketLaws store id.
Proof. split; done. Qed.

(** ** The iterator *)

(** A buffered write: [None] is a deletion. *)
Abbreviation pendingEntry := (list Z * option (list Z))%type.

(** [cur] is the cursor (its head is [ck, cv]), [pend] the buffered writes from
    index [pi] on, [current] the merged entry ([key], [val]) or [None] when done. *)
Record iterator := mkIterator {
  i_prefix : bytes;
  i_cur : list kv;
  i_pend : list pendingEntry;
  i_current : option kv;
  i_closed : bool
}.

Definition cursorKey (prefix : bytes) (cur : list kv) : option kv :=
  match cur with
  | [] => None
  | e :: _ => if has_prefix prefix e.1 then Some e else None
  end.

(** [settle]: move to the next visible entry. *)
Fixpoint settle (prefix : bytes) (cur : list kv) (pend : list pendingEntry) : iterator :=
  match pend with
  | [] => mkIterator prefix cur [] (cursorKey prefix cur) false
  | (pk, pv) :: pend' =>
      let from_pending cur' :=
        match pv with
        | None => settle prefix cur' pend'
        | Some v => mkIterator prefix cur' pend (Some (pk, v)) false
        end in
      match cursorKey prefix cur with
      | None => from_pending cur
      | Some e =>
          match bcmp e.1 pk with
          | Lt => mkIterator prefix cur pend (Some e) false
          | Eq => from_pending (tail cur)
          | Gt => from_pending cur
          end
      end
  end.

Definition it_valid (it : iterator) : bool :=
  negb (i_closed it) && match i_current it with Some _ => true | None => false end.

Definition it_next (it : iterator) : iterator :=
  if it_valid it then
    match i_current it, i_pend it with
    | Some e, p :: pend' =>
        if bool_decide (e.1 = p.1) then settle (i_prefix it) (i_cur it) pend'
        else settle (i_prefix it) (tail (i_cur it)) (p :: pend')
    | _, [] => settle (i_prefix it) (tail (i_cur it)) []
    | None, _ => it
    end
  else it.

Definition it_close (it : iterator) : iterator :=
  mkIterator (i_prefix it) (i_cur it) (i_pend it) (i_current it) true.

(** The entries [for ; it.Valid(); it.Next()] visits, within [n] steps. *)
Fixpoint drain (n : nat) (it : iterator) : list kv :=
  match n with
  | O => []
  | S n' => match it_valid it, i_current it with
            | true, Some e => e :: drain n' (it_next it)
            | _, _ => []
            end
  end.

(** ** Transactions *)
Section txn.
Context {B : Type} `{Bucket B}.

Record txn := mkTxn {
  tx_b : B;
  tx_pending : option (gmap bytes (option bytes));  (* None: read-only *)
  tx_closed : bool
}.

Definition pending_of (t : txn) : gmap bytes (option bytes) := default ∅ (tx_pending t).

Definition tx_get (t : txn) (key : bytes) : option bytes :=
  match pending_of t !! key with
  | Some None => None
  | Some (Some v) => Some v
  | None => b_get (tx_b t) key
  end.

Definition tx_set (t : txn) (key val : bytes) : option error * txn :=
  match tx_pending t, tx_closed t with
  | Some p, false =>
      match key with
      | [] => (Some ErrEmptyKey, t)
      | _ :: _ => (None, mkTxn (tx_b t) (Some (<[key := Some val]> p)) false)
      end
  | _, _ => (Some ErrReadOnly, t)
  end.

Definition tx_delete (t : txn) (key : bytes) : option error * txn :=
  match tx_pending t, tx_closed t with
  | Some p, false => (None, mkTxn (tx_b t) (Some (<[key := None]> p)) false)
  | _, _ => (Some ErrReadOnly, t)
  end.

Definition pend_le (a b : pendingEntry) : Prop := ble a.1 b.1.
#[local] Instance pend_le_dec : RelDecision pend_le.
Proof. intros a b. unfold pend_le. apply _. Defined.

(** The buffered writes in range, sorted by key. *)
Definition pend_in_range (prefix start : bytes) (p : gmap bytes (option bytes)) : list pendingEntry :=
  merge_sort pend_le
    (filter (fun e => has_prefix prefix e.1 = true /\ ble start e.1) (map_to_list p)).

Definition tx_scan_from (t : txn) (prefix start : bytes) : iterator :=
  let start := match bcmp start prefix with Lt => prefix | _ => start end in
  settle prefix (b_seek (tx_b t) start) (pend_in_range prefix start (pending_of t)).

(** All entries of a scan; each step consumes a cursor entry or a buffered
    write, which bounds the walk. *)
Definition it_all (it : iterator) : list kv :=
  drain (S (length (i_cur it) + length (i_pend it))) it.

#[global] Instance bolt_txn : Txn txn := {
  t_get := tx_get;
  t_set := tx_set;
  t_delete := tx_delete;
  t_scan t p s := it_all (tx_scan_from t p s)
}.

(** The commit loop of [Update] over the sorted keys. *)
Fixpoint apply_pending (b : B) (l : list pendingEntry) : option error * B :=
  match l with
  | [] => (None, b)
  | (k, v) :: l' =>
      let '(e, b') := match v with None => b_delete b k | Some v => b_put b k v end in
      match e with Some e => (Some e, b') | None => apply_pending b' l' end
  end.

(** [Store.Update]: bbolt rolls back when the function returns an error. *)
Definition update {A} (fn : prog A) (b : B) : res A * B :=
  match exec fn (mkTxn b (Some ∅) false) with
  | (Err e, _) => (Err e, b)
  | (Ok a, t) =>
      match apply_pending b (merge_sort pend_le (map_to_list (pending_of t))) with
      | (Some e, _) => (Err e, b)
      | (None, b') => (Ok a, b')
      end
  end.

(** [Store.View]: a read-only transaction. *)
Definition view_txn {A} (fn : prog A) (b : B) : res A := (exec fn (mkTxn b None false)).1.
End txn.
Arguments txn B : clear implicits.

(** ** The iterator yields the merged entries *)

(** Cursor entries before the first key outside the prefix. *)
Fixpoint seg (prefix : bytes) (cur : list kv) : list kv :=
  match cur with
  | [] => []
  | e :: cur' => if has_prefix prefix e.1 then e :: seg prefix cur' else []
  end.

Definition pend_sorted (l : list pendingEntry) : Prop := StronglySorted blt l.*1.

Lemma pend_sorted_cons p l :
  pend_sorted (p :: l) <-> pend_sorted l /\ forall q, q ∈ l -> blt p.1 q.1.
Proof.
  unfold pend_sorted. cbn. split.
  - inversion 1 as [|? ? Hs Hf]; subst. split; [done|]. rewrite Forall_fmap, Forall_forall in Hf. done.
  - intros [Hs Hf]. constructor; [done|]. rewrite Forall_fmap, Forall_forall. done.
Qed.

(** An entry is visible if it is buffered, or committed and not buffered over. *)
Definition visible (prefix : bytes) (cur : list kv) (pend : list pendingEntry) (e : kv) : Prop :=
  (e.1, Some e.2) ∈ pend \/ (e ∈ seg prefix cur /\ e.1 ∉ pend.*1).

(** The state [settle] leaves: the current entry is the least visible one. *)
Definition settled (it : iterator) : Prop :=
  match i_current it with
  | None => i_pend it = [] /\ cursorKey (i_prefix it) (i_cur it) = None
  | Some e =>
      (exists pend', i_pend it = (e.1, Some e.2) :: pend' /\
         forall x, x ∈ seg (i_prefix it) (i_cur it) -> blt e.1 x.1) \/
      (exists cur', i_cur it = e :: cur' /\ has_prefix (i_prefix it) e.1 = true /\
         forall p, p ∈ i_pend it -> blt e.1 p.1)
  end.

Definition size_of (it : iterator) : nat := length (i_cur it) + length (i_pend it).

Record settle_post (prefix : bytes) (cur : list kv) (pend : list pendingEntry) (it : iterator) : Prop := {
  sp_prefix : i_prefix it = prefix;
  sp_open : i_closed it = false;
  sp_cur : key_sorted (i_cur it);
  sp_pend : pend_sorted (i_pend it);
  sp_size : (size_of it <= length cur + length pend)%nat;
  sp_visible : forall e, visible prefix (i_cur it) (i_pend it) e <-> visible prefix cur pend e;
  sp_settled : settled it
}.

Lemma cursorKey_seg prefix cur :
  match cursorKey prefix cur with
  | None => seg prefix cur = []
  | Some e => exists cur', cur = e :: cur' /\ has_prefix prefix e.1 = true /\ seg prefix cur = e :: seg prefix cur'
  end.
Proof. destruct cur as [|e cur]; cbn; [done|]. destruct (has_prefix prefix e.1) eqn:E; eauto. Qed.

Lemma seg_sub prefix cur e : e ∈ seg prefix cur -> e ∈ cur /\ has_prefix prefix e.1 = true.
Proof.
  induction cur as [|x cur IH]; cbn; [by intros ?%not_elem_of_nil|].
  destruct (has_prefix prefix x.1) eqn:E; [|by intros ?%not_elem_of_nil].
  intros [->|Hin]%elem_of_cons; [split; [left|done]|]. destruct (IH Hin). split; [by right|done].
Qed.

(** Buffered writes below every cursor key. *)
Lemma seg_above prefix e cur' k :
  key_sorted (e :: cur') -> blt k e.1 -> forall x, x ∈ e :: seg prefix cur' -> blt k x.1.
Proof.
  intros [_ Hf]%key_sorted_cons Hk x [->|Hin]%elem_of_cons; [done|].
  apply seg_sub in Hin as [Hin _]. rewrite Forall_forall in Hf. by eapply blt_trans, Hf.
Qed.

(** Skipping a deletion whose key is below or at the cursor. *)
Lemma visible_skip prefix cur cur' pk pend e :
  (forall x, x ∈ seg prefix cur' <-> x ∈ seg prefix cur /\ x.1 <> pk) -> pk ∉ pend.*1 ->
  visible prefix cur' pend e <-> visible prefix cur ((pk, None) :: pend) e.
Proof.
  intros Hs Hn. unfold visible. rewrite elem_of_cons, Hs. cbn. rewrite not_elem_of_cons.
  split; intros [Hp|[Hc Hd]]; auto.
  - right. tauto.
  - destruct Hp as [?|Hp]; [done|auto].
  - right. tauto.
Qed.

Lemma visible_shadow prefix cur cur' pk pv pend e :
  (forall x, x ∈ seg prefix cur' <-> x ∈ seg prefix cur /\ x.1 <> pk) ->
  visible prefix cur' ((pk, pv) :: pend) e <-> visible prefix cur ((pk, pv) :: pend) e.
Proof.
  intros Hs. unfold visible. rewrite Hs. cbn. rewrite !not_elem_of_cons.
  split; intros [Hp|[Hc Hd]]; auto; right; tauto.
Qed.

Lemma settle_spec prefix cur pend :
  key_sorted cur -> pend_sorted pend -> settle_post prefix cur pend (settle prefix cur pend).
Proof.
  revert cur. induction pend as [|[pk pv] pend IH]; intros cur Hc Hp; cbn [settle].
  - split; try done; try (unfold size_of; cbn; lia). unfold settled. cbn. pose proof (cursorKey_seg prefix cur) as Hk.
    destruct (cursorKey prefix cur) eqn:E; [|done].
    destruct Hk as (cur' & -> & ? & _). right. exists cur'. split; [done|]. split; [done|].
    by intros ? ?%not_elem_of_nil.
  - apply pend_sorted_cons in Hp as [Hp Hpk]. cbn [fst] in Hpk.
    assert (pk ∉ pend.*1) as Hnin.
    { intros ([? ?] & E & Hin)%list_elem_of_fmap. cbn in E. subst. by destruct (blt_irrefl _ (Hpk _ Hin)). }
    (* consuming the buffered write, with the cursor moved past its key *)
    assert (forall cur', key_sorted cur' -> (length cur' <= length cur)%nat ->
      (forall x, x ∈ seg prefix cur' <-> x ∈ seg prefix cur /\ x.1 <> pk) ->
      (forall x, x ∈ seg prefix cur' -> blt pk x.1) ->
      settle_post prefix cur ((pk, pv) :: pend)
        match pv with
        | None => settle prefix cur' pend
        | Some v => mkIterator prefix cur' ((pk, pv) :: pend) (Some (pk, v)) false
        end) as Hfrom.
    { intros cur' Hc' Hlen Hseg Habove. destruct pv as [v|].
      - split; try done; try (by apply pend_sorted_cons); try (unfold size_of; cbn; lia).
        + intros e. by apply visible_shadow.
        + left. cbn. eauto.
      - destruct (IH cur' Hc' Hp) as [? ? ? ? Hsz Hv ?]. split; try done; try (cbn; lia).
        intros e. rewrite Hv. by apply visible_skip. }
    pose proof (cursorKey_seg prefix cur) as Hk. destruct (cursorKey prefix cur) as [e|] eqn:Ek.
    + destruct Hk as (cur' & -> & Hpe & Hseg). destruct (bcmp e.1 pk) eqn:Ecmp.
      * apply bcmp_eq in Ecmp. subst pk. pose proof Hc as [Hc' Hf]%key_sorted_cons.
        apply Hfrom; [done|cbn; lia| |]; rewrite Forall_forall in Hf; cbn [tail].
        -- intros x. rewrite Hseg, elem_of_cons. split.
           ++ intros Hx. split; [auto|]. apply seg_sub in Hx as [Hx _]. intros E.
              apply Hf in Hx. rewrite E in Hx. by apply blt_irrefl in Hx.
           ++ intros [[->|?] ?]; done.
        -- intros x [Hx _]%seg_sub. by apply Hf.
      * split; try done; try (by apply pend_sorted_cons).
        right. cbn. exists cur'. split; [done|]. split; [done|].
        intros p [->|Hin]%elem_of_cons; [done|]. eapply blt_trans; [exact Ecmp|]. by apply Hpk.
      * assert (blt pk e.1) as Hlt by (unfold blt; by rewrite bcmp_antisym, Ecmp).
        pose proof (seg_above prefix e cur' pk Hc Hlt) as Hab. rewrite <- Hseg in Hab.
        apply Hfrom; [done|done| |done]. intros x. split; [|tauto]. intros Hx. split; [done|].
        intros E. apply Hab in Hx. rewrite E in Hx. by apply blt_irrefl in Hx.
    + rewrite Hk in Hfrom. apply Hfrom; [done|done| |].
      * intros x. rewrite Hk. split; [by intros ?%not_elem_of_nil|by intros [?%not_elem_of_nil _]].
      * rewrite Hk. by intros x ?%not_elem_of_nil.
Qed.

(** One step of the walk: the current entry is the least visible one, and
    moving on removes exactly it. *)
Lemma next_spec it e :
  settled it -> i_closed it = false -> key_sorted (i_cur it) -> pend_sorted (i_pend it) ->
  i_current it = Some e ->
  exists cur pend,
    it_next it = settle (i_prefix it) cur pend /\ key_sorted cur /\ pend_sorted pend /\
    (length cur + length pend < size_of it)%nat /\
    (forall x, visible (i_prefix it) (i_cur it) (i_pend it) x <-> x = e \/ visible (i_prefix it) cur pend x) /\
    (forall x, visible (i_prefix it) cur pend x -> blt e.1 x.1).
Proof.
  destruct it as [prefix cur pend current closed]. unfold settled, size_of, it_next, it_valid. cbn.
  intros Hset -> Hc Hp ->. cbn. destruct Hset as [(pend' & -> & Hab)|(cur' & -> & Hpe & Hab)]; cbn.
  - rewrite bool_decide_true by done. apply pend_sorted_cons in Hp as [Hp Hpk]. cbn in Hpk.
    exists cur, pend'. split; [done|]. split; [done|]. split; [done|]. split; [lia|]. split.
    + intros x. unfold visible. rewrite elem_of_cons. cbn. rewrite not_elem_of_cons. split.
      * intros [[Hx|Hx]|[Hx Hn]]; [left; destruct x, e; cbn in *; congruence|right; auto|].
        right. right. tauto.
      * intros [->|[Hx|[Hx Hn]]]; [left; left; done|left; by right|].
        right. split; [done|]. split; [|done]. intros E. apply Hab in Hx. rewrite E in Hx.
        by apply blt_irrefl in Hx.
    + intros x [Hx|[Hx _]]; [by apply (Hpk _ Hx)|by apply Hab].
  - pose proof Hc as [Hc' Hf]%key_sorted_cons. rewrite Forall_forall in Hf.
    assert (e.1 ∉ pend.*1) as Hnin.
    { intros (p & E & Hin)%list_elem_of_fmap. apply Hab in Hin. rewrite <- E in Hin. by apply blt_irrefl in Hin. }
    exists cur', pend. split.
    { destruct pend as [|p pend]; [done|]. rewrite bool_decide_false; [done|].
      intros E. apply Hnin. cbn. rewrite E. left. }
    split; [done|]. split; [done|]. split; [lia|]. split.
    + intros x. unfold visible. cbn. rewrite Hpe, elem_of_cons. split.
      * intros [Hx|[[->|Hx] Hn]]; [right; auto|by left|right; auto].
      * intros [->|[Hx|[Hx Hn]]]; [right; auto|auto|right; auto].
    + intros x [Hx|[Hx _]]; [by apply (Hab _ Hx)|]. apply seg_sub in Hx as [Hx _]. by apply Hf.
Qed.

Lemma drain_spec n it :
  settled it -> i_closed it = false -> key_sorted (i_cur it) -> pend_sorted (i_pend it) ->
  (size_of it < n)%nat ->
  key_sorted (drain n it) /\
  forall e, e ∈ drain n it <-> visible (i_prefix it) (i_cur it) (i_pend it) e.
Proof.
  revert it. induction n as [|n IH]; intros it Hset Hcl Hc Hp Hn; [lia|]. cbn [drain].
  unfold it_valid. rewrite Hcl. destruct (i_current it) as [e|] eqn:Ecur; cbn [negb andb].
  - destruct (next_spec it e Hset Hcl Hc Hp Ecur) as (cur & pend & Enext & Hc' & Hp' & Hsz & Hvis & Hgt).
    rewrite Enext. destruct (settle_spec (i_prefix it) cur pend Hc' Hp') as [Ep Ecl Hsc Hsp Hss Hsv Hset'].
    destruct (IH _ Hset' Ecl Hsc Hsp ltac:(lia)) as [Hks Hin]. rewrite Ep in Hin. split.
    + apply key_sorted_cons. split; [done|]. apply Forall_forall. intros x Hx.
      apply Hgt. by apply Hsv, Hin.
    + intros x. rewrite elem_of_cons, Hin, Hsv, Hvis. done.
  - unfold settled in Hset. rewrite Ecur in Hset. destruct Hset as [Hpe Hck]. split; [constructor|].
    intros e. unfold visible. rewrite Hpe. pose proof (cursorKey_seg (i_prefix it) (i_cur it)) as Hk.
    rewrite Hck in Hk. rewrite Hk. split; [by intros ?%not_elem_of_nil|].
    by intros [?%not_elem_of_nil|[?%not_elem_of_nil _]].
Qed.

(** Keys with a prefix are contiguous in byte order. *)
Lemma prefix_between p k s : ble p k -> ble k (p ++ s) -> has_prefix p k = true.
Proof.
  revert k. induction p as [|x p IH]; intros [|y k] H1 H2; try done; unfold ble in *; cbn in *.
  rewrite Z.compare_antisym in H2.
  destruct (Z.compare_spec x y) as [->|Hlt|Hgt]; cbn in *; try done.
  rewrite Z.eqb_refl. by apply IH.
Qed.

Lemma seg_filter prefix cur e :
  key_sorted cur -> (forall x, x ∈ cur -> ble prefix x.1) ->
  e ∈ seg prefix cur <-> e ∈ cur /\ has_prefix prefix e.1 = true.
Proof.
  intros Hc Hge. split; [apply seg_sub|]. intros [Hin Hpe]. revert Hin.
  induction cur as [|x cur IH]; [by intros ?%not_elem_of_nil|]. cbn.
  apply key_sorted_cons in Hc as [Hc Hf]. intros [->|Hin]%elem_of_cons; [rewrite Hpe; left|].
  assert (has_prefix prefix x.1 = true) as ->.
  { apply has_prefix_spec in Hpe as [s Es]. apply (prefix_between prefix x.1 s).
    - apply Hge. left.
    - rewrite <- Es. apply ble_alt. right. rewrite Forall_forall in Hf. by apply Hf. }
  right. apply IH; [done| |done]. intros y Hy. apply Hge. by right.
Qed.

(** ** The adapter keeps the transaction laws *)
Section laws.
Context {B : Type} `{Bucket B} (contents : B -> store) `{!BucketLaws B contents}.

(** What the transaction sees: the bucket with the buffered writes on top. *)
Definition overlay (m : store) (p : gmap bytes (option bytes)) : store :=
  merge (fun o c => match o with Some w => w | None => c end) p m.

Lemma overlay_lookup m p k :
  overlay m p !! k = match p !! k with Some w => w | None => m !! k end.
Proof. unfold overlay. rewrite lookup_merge. by destruct (p !! k), (m !! k). Qed.

Definition tx_view (t : txn B) : store := overlay (contents (tx_b t)) (pending_of t).

Lemma overlay_insert m p k w :
  overlay m (<[k := w]> p) = match w with Some v => <[k := v]> (overlay m p) | None => delete k (overlay m p) end.
Proof.
  apply map_eq. intros i. rewrite overlay_lookup. destruct (decide (i = k)) as [->|Hne].
  - rewrite lookup_insert_eq. destruct w; [by rewrite lookup_insert_eq|by rewrite lookup_delete_eq].
  - rewrite lookup_insert_ne by done.
    destruct w; [rewrite lookup_insert_ne by done|rewrite lookup_delete_ne by done]; by rewrite overlay_lookup.
Qed.

#[local] Instance pend_le_total : Total pend_le.
Proof. intros a b. unfold pend_le. apply (total ble). Qed.
#[local] Instance pend_le_trans : Transitive pend_le.
Proof. intros a b c. unfold pend_le. apply transitivity. Qed.

Lemma pend_in_range_elem prefix start p k w :
  (k, w) ∈ pend_in_range prefix start p <-> p !! k = Some w /\ has_prefix prefix k = true /\ ble start k.
Proof.
  unfold pend_in_range. rewrite merge_sort_Permutation, list_elem_of_filter, elem_of_map_to_list. cbn. tauto.
Qed.

Lemma sorted_distinct (l : list pendingEntry) : StronglySorted pend_le l -> NoDup l.*1 -> pend_sorted l.
Proof.
  intros Hs Hnd. unfold pend_sorted. induction Hs as [|e l Hl IH Hf]; cbn; [constructor|].
  cbn in Hnd. apply NoDup_cons in Hnd as [Hn Hnd]. constructor; [by apply IH|].
  rewrite Forall_fmap. rewrite Forall_forall in *. intros x Hx. cbn.
  specialize (Hf x Hx). unfold pend_le in Hf. apply ble_alt in Hf as [E|]; [|done].
  exfalso. apply Hn. rewrite E. apply list_elem_of_fmap. by exists x.
Qed.

Lemma NoDup_fst_filter {A C} (P : A * C -> Prop) `{!forall x, Decision (P x)} (l : list (A * C)) :
  NoDup l.*1 -> NoDup (filter P l).*1.
Proof.
  induction l as [|e l IH]; rewrite ?fmap_cons; [done|].
  intros [Hn Hnd]%NoDup_cons. rewrite filter_cons. case_decide; [|by apply IH].
  rewrite fmap_cons. constructor; [|by apply IH]. intros Hin. apply Hn.
  apply list_elem_of_fmap in Hin as (x & -> & Hx). apply list_elem_of_fmap. exists x.
  apply list_elem_of_filter in Hx. naive_solver.
Qed.

Lemma pend_in_range_sorted prefix start p : pend_sorted (pend_in_range prefix start p).
Proof.
  apply sorted_distinct; [apply StronglySorted_merge_sort; apply _|].
  unfold pend_in_range. rewrite merge_sort_Permutation. apply NoDup_fst_filter, NoDup_fst_map_to_list.
Qed.

Lemma tx_scan_spec t p s : ble p s -> it_all (tx_scan_from t p s) = scan_store p s (tx_view t).
Proof.
  intros Hps. unfold tx_scan_from.
  replace (match bcmp s p with Lt => p | _ => s end) with s
    by (unfold ble in Hps; rewrite bcmp_antisym in Hps; destruct (bcmp s p); done).
  set (cur := b_seek (tx_b t) s). set (pend := pend_in_range p s (pending_of t)).
  assert (cur = scan_store [] s (contents (tx_b t))) as Hcur by apply b_seek_law.
  assert (key_sorted cur) as Hc by (rewrite Hcur; apply scan_store_sorted).
  pose proof (pend_in_range_sorted p s (pending_of t)) as Hp. fold pend in Hp.
  destruct (settle_spec p cur pend Hc Hp) as [Ep Ecl Hsc Hsp _ Hsv Hset].
  unfold it_all. destruct (drain_spec (S (size_of (settle p cur pend))) (settle p cur pend)
    Hset Ecl Hsc Hsp ltac:(lia)) as [Hks Hin].
  symmetry. apply scan_store_unique; [exact Hks|]. intros [k v].
  etransitivity; [apply Hin|]. rewrite Ep, Hsv. unfold visible, in_scan, tx_view. cbn.
  rewrite overlay_lookup.
  assert (forall x, x ∈ cur -> ble p x.1) as Hge.
  { intros x Hx. rewrite Hcur in Hx. apply scan_store_elem in Hx as [_ [_ Hx]]. by etransitivity. }
  rewrite seg_filter, Hcur, scan_store_elem by done. unfold in_scan. cbn.
  assert (k ∉ pend.*1 <-> ~ (exists w, pending_of t !! k = Some w /\ has_prefix p k = true /\ ble s k)) as ->.
  { apply not_iff_compat. rewrite list_elem_of_fmap. split.
    - intros ([k' w] & -> & Hx). exists w. by apply pend_in_range_elem.
    - intros (w & Hw). exists (k, w). split; [done|]. by apply pend_in_range_elem. }
  unfold pend. rewrite pend_in_range_elem. destruct (pending_of t !! k) as [w|] eqn:Ek; [|naive_solver].
  split; [intros [(? & ? & ?)|((? & ?) & Hn)]; [naive_solver|exfalso; apply Hn; naive_solver]|naive_solver].
Qed.

#[global] Instance bolt_laws : TxnLaws (txn B) (fun _ => True) tx_view.
Proof.
  split.
  - intros t k _. cbn. unfold tx_get, tx_view. rewrite overlay_lookup, b_get_law.
    by destruct (pending_of t !! k) as [[]|].
  - intros t k v _. cbn. unfold tx_set. destruct t as [b [p|] [|]]; cbn; try done.
    destruct k as [|c k]; [done|]. split; [done|].
    apply (overlay_insert (contents b) p (c :: k) (Some v)).
  - intros t k _. cbn. unfold tx_delete. destruct t as [b [p|] [|]]; cbn; try done.
    split; [done|]. apply (overlay_insert (contents b) p k None).
  - intros t p s _ Hps. by apply tx_scan_spec.
Qed.
End laws.

(** ** Update is atomic *)
Section update.
Context {B : Type} `{Bucket B} (contents : B -> store) `{!BucketLaws B contents}.

Lemma overlay_empty m : overlay m ∅ = m.
Proof. apply map_eq. intros i. by rewrite overlay_lookup, lookup_empty. Qed.

Lemma overlay_commit m k w p :
  p !! k = None ->
  overlay (match w with Some v => <[k := v]> m | None => delete k m end) p = overlay m (<[k := w]> p).
Proof.
  intros Hk. apply map_eq. intros i. rewrite !overlay_lookup. destruct (decide (i = k)) as [->|Hne].
  - rewrite lookup_insert_eq, Hk. destruct w; [by rewrite lookup_insert_eq|by rewrite lookup_delete_eq].
  - rewrite lookup_insert_ne by done. destruct (p !! i); [done|].
    destruct w; [by rewrite lookup_insert_ne|by rewrite lookup_delete_ne].
Qed.

Lemma apply_pending_spec l b b' :
  NoDup l.*1 -> apply_pending b l = (None, b') -> contents b' = overlay (contents b) (list_to_map l).
Proof.
  revert b. induction l as [|[k w] l IH]; intros b Hnd E; cbn in E.
  - injection E as ->. by rewrite overlay_empty.
  - rewrite fmap_cons in Hnd. apply NoDup_cons in Hnd as [Hn Hnd]. cbn [fst] in Hn.
    rewrite list_to_map_cons. rewrite <- overlay_commit by (by apply not_elem_of_list_to_map_1).
    destruct w as [v|].
    + pose proof (b_put_law b k v) as Hl. destruct (b_put b k v) as [[e|] b1]; [done|].
      rewrite <- Hl. by apply IH.
    + pose proof (b_delete_law b k) as Hl. destruct (b_delete b k) as [[e|] b1]; [done|].
      rewrite <- Hl. by apply IH.
Qed.

Lemma commit_pending (p : gmap bytes (option bytes)) b b' :
  apply_pending b (merge_sort pend_le (map_to_list p)) = (None, b') -> contents b' = overlay (contents b) p.
Proof.
  intros E. assert (forall l : list pendingEntry, merge_sort pend_le l ≡ₚ l) as Hperm by apply merge_sort_Permutation.
  match type of E with apply_pending _ ?l = _ => assert (NoDup l.*1) as Hnd by (rewrite Hperm; apply NoDup_fst_map_to_list) end.
  rewrite (apply_pending_spec _ _ _ Hnd E). f_equal. etransitivity; [|apply list_to_map_to_list].
  apply list_to_map_proper; [rewrite Hperm; apply NoDup_fst_map_to_list|apply Hperm].
Qed.
Lemma apply_pending_error l b b' e : apply_pending b l = (Some e, b') -> engine_error e.
Proof.
  revert b. induction l as [|[k w] l IH]; intros b E; cbn in E; [done|]. destruct w as [v|].
  - pose proof (b_put_law b k v) as Hl. destruct (b_put b k v) as [[e'|] b1]; [by injection E as <- _|by eapply IH].
  - pose proof (b_delete_law b k) as Hl. destruct (b_delete b k) as [[e'|] b1]; [by injection E as <- _|by eapply IH].
Qed.

Lemma exec_bucket_fixed {A} (fn : prog A) t : tx_b (exec fn t).2 = tx_b t.
Proof.
  revert t. induction fn as [a|e|key k IH|key val k IH|key k IH|pr st k IH]; intros t; cbn; try done; auto.
  - unfold tx_set. destruct t as [b [p|] [|]], key; cbn; try done; by rewrite IH.
  - unfold tx_delete. destruct t as [b [p|] [|]]; cbn; try done; by rewrite IH.
Qed.
End update.

(** C6: a bbolt [Update] is atomic and behaves as the reference store.  When it
    reports success, the function's result and the bucket's new contents are
    those of running the function on the bucket's old contents, read-your-writes
    scans included; when it reports an error the bucket is unchanged. *)
Theorem bolt_update_atomic {B : Type} `{Bucket B} (contents : B -> store) `{!BucketLaws B contents}
    {A} (fn : prog A) (b b' : B) (r : res A) :
  scans_ok fn -> update fn b = (r, b') ->
  match r with
  | Ok a => run fn (contents b) = (Ok a, contents b')
  | Err _ => b' = b
  end.
Proof.
  intros Hs Hu. unfold update in Hu. set (t := mkTxn b (Some ∅) false) in Hu.
  pose proof (exec_simulates (fun _ => True) (tx_view contents) fn t I Hs) as [_ Hsim].
  pose proof (exec_bucket_fixed fn t) as Hb.
  assert (tx_view contents t = contents b) as Ht by apply overlay_empty. rewrite Ht in Hsim.
  destruct (exec fn t) as [[a|e] t'] eqn:E; cbn in *; [|by simplify_eq].
  destruct Hsim as [Hsim|(? & ? & _)]; [|done].
  destruct (apply_pending b _) as [[e|] b1] eqn:Eap; injection Hu as <- <-; [done|].
  rewrite Hsim. f_equal. unfold tx_view. rewrite Hb. symmetry. by apply commit_pending.
Qed.

Lemma bolt_update_atomic_witness :
  let b : store := {[ [1; 3] := [7]; [1; 1] := [8]; [2] := [] ]} in
  run sample_prog (id b) = (Ok [([1; 1], [8]); ([1; 2], [9])], id (delete [1; 3] (<[ [1; 2] := [9] ]> b))).
Proof.
  intros b.
  apply (bolt_update_atomic id sample_prog b _ (Ok [([1; 1], [8]); ([1; 2], [9])])).
  - cbn. split; [vm_compute; congruence|done].
  - vm_compute. reflexivity.
Defined.
