(* ===== verification/WriteSet.v ===== *)
(** * WriteSet: recording transactions and their replay

    src/cluster/record.go.  On the leader a statement runs against a
    [recordTxn], which passes every call to the real transaction and records
    the mutations; the write-set is encoded, replicated, and replayed on each
    node by [applyWriteSet].

    Replaying the write-set of a statement that succeeded leaves a store
    exactly as running the statement on it would ([replay_lemma]). *)
From S2P Require Import Prelude Values Records Storage.

Definition opSet : Z := 1.
Definition opDel : Z := 2.

(** [op]: the value is absent for a deletion. *)
Inductive op : Type :=
| OpSet (key val : bytes)
| OpDel (key : bytes).

(** ** Recording *)
Section record.
Context {T : Type} `{Txn T}.

Record recordTxn := mkRecord { real : T; ops : list op }.

Definition newRecordTxn (t : T) : recordTxn := mkRecord t [].

Definition rec_set (r : recordTxn) (key val : bytes) : option error * recordTxn :=
  let ops' := ops r ++ [OpSet key val] in
  let '(e, t') := t_set (real r) key val in (e, mkRecord t' ops').

Definition rec_delete (r : recordTxn) (key : bytes) : option error * recordTxn :=
  let ops' := ops r ++ [OpDel key] in
  let '(e, t') := t_delete (real r) key in (e, mkRecord t' ops').

#[global] Instance record_txn : Txn recordTxn := {
  t_get r k := t_get (real r) k;
  t_set := rec_set;
  t_delete := rec_delete;
  t_scan r p s := t_scan (real r) p s
}.

Definition empty (r : recordTxn) : bool := match ops r with [] => true | _ => false end.
End record.
Arguments recordTxn T : clear implicits.

(** ** Encoding *)
Definition encode_op (o : op) : bytes :=
  match o with
  | OpSet k v => [opSet] ++ uvarint_bytes (len k) ++ k ++ uvarint_bytes (len v) ++ v
  | OpDel k => [opDel] ++ uvarint_bytes (len k) ++ k
  end.

Definition encode_ops (l : list op) : bytes := uvarint_bytes (len l) ++ concat (map encode_op l).

Definition encode {T} (r : recordTxn T) : bytes := encode_ops (ops r).

(** ** Decoding *)

(** [binary.ReadUvarint] accepts what [binary.Uvarint] does and stops after it. *)
Definition ReadUvarint : reader Z := fun r =>
  match uvarint_read r 0 0 0 with
  | Some (v, n) => Ok (v, drop n r)
  | None => Err ErrWriteSet
  end.

Definition ReadByte : reader Z := fun r =>
  match r with b :: r' => Ok (b, r') | [] => Err ErrWriteSet end.

(** [bytes.Reader.Read] into a buffer of [n] bytes: EOF at the end, else what is
    available. *)
Definition Read (n : Z) : reader bytes := fun r =>
  match r with
  | [] => Err ErrWriteSet
  | _ => Ok (take (Z.to_nat n) r, drop (Z.to_nat n) r)
  end.

(** [readFull]: [n] bytes still to read; every turn of the loop consumes input. *)
Fixpoint readFull_loop (fuel : nat) (n : Z) (acc : bytes) : reader bytes := fun r =>
  if n <=? 0 then Ok (acc, r) else
  match fuel with
  | O => Err ErrOutOfFuel
  | S fuel' => '(b, r') ← Read n r; readFull_loop fuel' (n - len b) (acc ++ b) r'
  end.
Definition readFull (n : Z) : reader bytes := fun r => readFull_loop (S (length r)) n [] r.

(** Largest allocation of the Go runtime on 64-bit platforms; [make] panics
    beyond it. *)
Definition maxAlloc : Z := 2 ^ 48.

Definition readBytes : reader bytes := fun r =>
  '(n, r1) ← ReadUvarint r;
  if maxAlloc <? n then Err ErrPanic else readFull n r1.

(** One turn of the loop of [applyWriteSet]; the result is the rest of the input. *)
Definition apply_op (r : bytes) : prog bytes :=
  '(kind, r) ← lift (ReadByte r);
  '(key, r) ← lift (readBytes r);
  if kind =? opSet then
    '(val, r) ← lift (readBytes r);
    Set_ key val ≫= fun _ => mret r
  else if kind =? opDel then Delete key ≫= fun _ => mret r
  else throw ErrWriteSet.

Fixpoint apply_loop (fuel : nat) (count : Z) (r : bytes) : prog unit :=
  if count <=? 0 then mret tt else
  match fuel with
  | O => throw ErrOutOfFuel
  | S fuel' => apply_op r ≫= apply_loop fuel' (count - 1)
  end.

(** [applyWriteSet]: every operation takes at least one byte of input, so the
    input's length bounds the loop whatever the count says. *)
Definition applyWriteSet (data : bytes) : prog unit :=
  '(count, r) ← lift (ReadUvarint data);
  apply_loop (S (length r)) count r.

(** ** Replay *)

(** The effect of a recorded mutation on a store. *)
Definition op_effect (m : store) (o : op) : store :=
  match o with OpSet k v => <[k := v]> m | OpDel k => delete k m end.

Definition op_ok (o : op) : Prop :=
  match o with
  | OpSet k v => len k <= maxAlloc /\ len v <= maxAlloc
  | OpDel k => len k <= maxAlloc
  end.
Definition ops_ok (l : list op) : Prop := len l < two63 /\ Forall op_ok l.

Lemma len_alloc {A} (l : list A) : len l <= maxAlloc -> u64 (len l).
Proof. intros H. apply len_u64. unfold maxAlloc, two63 in *. lia. Qed.

Lemma ReadUvarint_spec v rest : u64 v -> ReadUvarint (uvarint_bytes v ++ rest) = Ok (v, rest).
Proof. intros H. unfold ReadUvarint. rewrite uvarint_read_bytes by done. by rewrite drop_app_length. Qed.

Lemma readFull_spec s rest : readFull (len s) (s ++ rest) = Ok (s, rest).
Proof.
  unfold readFull. destruct s as [|b s]; [done|]. cbn [readFull_loop].
  assert (0 < len (b :: s)) by (unfold len; cbn [length]; lia).
  rewrite (proj2 (Z.leb_gt _ 0)) by done. unfold Read. cbn [app mbind res_bind].
  change (b :: (s ++ rest)) with ((b :: s) ++ rest). replace (Z.to_nat (len (b :: s))) with (length (b :: s)) by (unfold len; lia).
  rewrite take_app_length, drop_app_length, Z.sub_diag.
  by destruct (length ((b :: s) ++ rest)).
Qed.

Lemma readBytes_spec s rest :
  len s <= maxAlloc -> readBytes (uvarint_bytes (len s) ++ s ++ rest) = Ok (s, rest).
Proof.
  intros Hs. unfold readBytes. rewrite ReadUvarint_spec by (by apply len_alloc). cbn [mbind res_bind].
  rewrite (proj2 (Z.ltb_ge _ _)) by done. apply readFull_spec.
Qed.

Lemma run_apply_op o rest m :
  op_ok o -> run (apply_op (encode_op o ++ rest)) m = (Ok rest, op_effect m o).
Proof.
  intros Ho. destruct o as [k v|k]; cbn [op_ok encode_op] in *; rewrite <- !app_assoc; unfold apply_op;
    cbn [app ReadByte lift mbind prog_bind].
  - destruct Ho as [Hk Hv]. rewrite run_bind, run_lift, readBytes_spec by done.
    change (opSet =? opSet) with true. cbn iota beta.
    by rewrite run_bind, run_lift, readBytes_spec.
  - by rewrite run_bind, run_lift, readBytes_spec.
Qed.

Lemma encode_op_pos o : (1 <= length (encode_op o))%nat.
Proof. destruct o; cbn; lia. Qed.

Lemma run_apply_loop l rest fuel m :
  Forall op_ok l -> (length l <= fuel)%nat ->
  run (apply_loop fuel (len l) (concat (map encode_op l) ++ rest)) m = (Ok tt, fold_left op_effect l m).
Proof.
  revert fuel m. induction l as [|o l IH]; intros fuel m Hl Hf.
  - by destruct fuel.
  - inversion Hl as [|? ? Ho Hl']; subst. destruct fuel as [|fuel]; cbn [length] in Hf; [lia|].
    cbn [apply_loop]. rewrite (proj2 (Z.leb_gt _ 0)) by (unfold len; cbn [length]; lia).
    cbn [map concat]. rewrite <- app_assoc, run_bind, run_apply_op by done.
    replace (len (o :: l) - 1) with (len l) by (unfold len; cbn [length]; lia).
    cbn [fold_left]. apply IH; [done|lia].
Qed.

Lemma run_applyWriteSet l m : ops_ok l -> run (applyWriteSet (encode_ops l)) m = (Ok tt, fold_left op_effect l m).
Proof.
  intros [Hn Hl]. unfold applyWriteSet, encode_ops. rewrite ReadUvarint_spec by (by apply len_u64).
  cbn [lift mbind prog_bind]. rewrite <- (app_nil_r (concat (map encode_op l))).
  apply run_apply_loop; [done|]. rewrite app_nil_r. clear.
  induction l as [|o l IH]; cbn; [lia|]. rewrite length_app. pose proof (encode_op_pos o). lia.
Qed.

(** What a recording transaction has recorded is what it has done. *)
Section recorded.
Context {T : Type} `{Txn T} (ok : T -> Prop) (view : T -> store) `{!TxnLaws T ok view}.

Lemma exec_recorded {A} (p : prog A) r r' a :
  ok (real r) -> exec p r = (Ok a, r') ->
  exists new, ops r' = ops r ++ new /\ view (real r') = fold_left op_effect new (view (real r)).
Proof.
  revert r. induction p as [a0|e|key k IH|key val k IH|key k IH|pr st k IH]; intros r Hok E;
    cbn [exec t_get t_scan t_set t_delete record_txn] in E.
  - injection E as _ ->. exists []. by rewrite app_nil_r.
  - done.
  - by apply IH in E.
  - unfold rec_set in E. pose proof (set_law (real r) key val Hok) as Hl.
    destruct (t_set (real r) key val) as [[e|] t']; [done|]. destruct Hl as [Hok' Hv].
    apply IH in E as (new & -> & ->); [|done]. exists (OpSet key val :: new). cbn [ops real fold_left op_effect].
    by rewrite <- app_assoc, Hv.
  - unfold rec_delete in E. pose proof (delete_law (real r) key Hok) as Hl.
    destruct (t_delete (real r) key) as [[e|] t']; [done|]. destruct Hl as [Hok' Hv].
    apply IH in E as (new & -> & ->); [|done]. exists (OpDel key :: new). cbn [ops real fold_left op_effect].
    by rewrite <- app_assoc, Hv.
  - by apply IH in E.
Qed.

#[global] Instance record_laws : TxnLaws (recordTxn T) (fun r => ok (real r)) (fun r => view (real r)).
Proof.
  split; cbn [t_get t_set t_delete t_scan record_txn].
  - intros r k Hr. by apply get_law.
  - intros r k v Hr. unfold rec_set. pose proof (set_law (real r) k v Hr) as Hl.
    by destruct (t_set (real r) k v) as [[e|] t'].
  - intros r k Hr. unfold rec_delete. pose proof (delete_law (real r) k Hr) as Hl.
    by destruct (t_delete (real r) k) as [[e|] t'].
  - intros r p s Hr. by apply scan_law.
Qed.

Lemma replay_lemma {A} (fn : prog A) t a r :
  ok t -> scans_ok fn -> exec fn (newRecordTxn t) = (Ok a, r) -> ops_ok (ops r) ->
  run fn (view t) = (Ok a, fold_left op_effect (ops r) (view t)) /\
  run (applyWriteSet (encode r)) (view t) = (Ok tt, fold_left op_effect (ops r) (view t)).
Proof.
  intros Ht Hs E Hops. split; [|by apply run_applyWriteSet].
  pose proof (exec_recorded fn _ _ _ (Ht : ok (real (newRecordTxn t))) E) as (new & Eo & Ev).
  cbn [ops real newRecordTxn app] in Eo, Ev. rewrite Eo, <- Ev.
  pose proof (exec_simulates (fun r => ok (real r)) (fun r => view (real r)) fn (newRecordTxn t) Ht Hs) as [_ Hsim].
  rewrite E in Hsim. cbn in Hsim. by destruct Hsim as [?|(? & ? & _)].
Qed.
End recorded.

(** *** The decoder always terminates *)
Lemma readFull_loop_fuel fuel n acc r :
  (length r < fuel)%nat -> readFull_loop fuel n acc r <> Err ErrOutOfFuel.
Proof.
  revert n acc r. induction fuel as [|fuel IH]; intros n acc r Hf; [lia|].
  cbn [readFull_loop]. destruct (Z.leb_spec n 0); [done|]. unfold Read.
  destruct r as [|b r]; [done|]. cbn [mbind res_bind]. apply IH.
  rewrite length_drop. cbn [length] in *. lia.
Qed.

Lemma readFull_loop_length fuel n acc r s r' :
  readFull_loop fuel n acc r = Ok (s, r') -> (length r' <= length r)%nat.
Proof.
  revert n acc r. induction fuel as [|fuel IH]; intros n acc r E; cbn [readFull_loop] in E;
    destruct (n <=? 0); try done; try (injection E as _ ->; lia).
  unfold Read in E. destruct r as [|b r]; [done|]. cbn [mbind res_bind] in E.
  apply IH in E. rewrite length_drop in E. lia.
Qed.

Lemma ReadUvarint_length r v r' : ReadUvarint r = Ok (v, r') -> (length r' <= length r)%nat.
Proof.
  unfold ReadUvarint. destruct (uvarint_read r 0 0 0) as [[w n]|]; [|done].
  intros E. injection E as _ <-. rewrite length_drop. lia.
Qed.

Lemma readBytes_length r s r' : readBytes r = Ok (s, r') -> (length r' <= length r)%nat.
Proof.
  unfold readBytes. destruct (ReadUvarint r) as [[n r1]|] eqn:E; [|done]. cbn [mbind res_bind].
  apply ReadUvarint_length in E. destruct (maxAlloc <? n); [done|].
  intros Hr. apply readFull_loop_length in Hr. lia.
Qed.

Lemma readBytes_fuel r : readBytes r <> Err ErrOutOfFuel.
Proof.
  unfold readBytes, ReadUvarint. destruct (uvarint_read r 0 0 0) as [[n k]|]; [|done].
  cbn [mbind res_bind]. destruct (maxAlloc <? n); [done|]. apply readFull_loop_fuel. lia.
Qed.

Lemma run_apply_op_total r m r' m' :
  run (apply_op r) m = (r', m') ->
  r' <> Err ErrOutOfFuel /\ forall s, r' = Ok s -> (length s < length r)%nat.
Proof.
  unfold apply_op. destruct r as [|b r]; [by intros [= <- <-]|].
  cbn [ReadByte lift mbind prog_bind]. rewrite run_bind, run_lift.
  pose proof (readBytes_fuel r) as Hf. destruct (readBytes r) as [[key r1]|e] eqn:E1.
  2: { intros [= <- <-]. split; congruence. }
  apply readBytes_length in E1. destruct (b =? opSet); [|destruct (b =? opDel)].
  - rewrite run_bind, run_lift. pose proof (readBytes_fuel r1) as Hf1.
    destruct (readBytes r1) as [[val r2]|e] eqn:E2.
    2: { intros [= <- <-]. split; congruence. }
    apply readBytes_length in E2. intros [= <- <-]. split; [done|]. intros s [= ->]. cbn [length]. lia.
  - intros [= <- <-]. split; [done|]. intros s [= ->]. cbn [length]. lia.
  - by intros [= <- <-].
Qed.

Lemma run_apply_loop_total fuel n r m : (length r < fuel)%nat -> (run (apply_loop fuel n r) m).1 <> Err ErrOutOfFuel.
Proof.
  revert n r m. induction fuel as [|fuel IH]; intros n r m Hf; [lia|]. cbn [apply_loop].
  destruct (n <=? 0); [done|]. rewrite run_bind. destruct (run (apply_op r) m) as [[s|e] m'] eqn:E;
    apply run_apply_op_total in E as [Hne Hlt].
  - apply IH. specialize (Hlt s eq_refl). lia.
  - cbn. congruence.
Qed.

(** C27: a write-set is the statement it records.  If a statement succeeds in a
    recording transaction over any engine that keeps the transaction laws, then
    replaying its encoded write-set on a store with the same contents succeeds
    and leaves exactly the contents that running the statement there leaves. *)
Theorem write_set_replay {T : Type} `{Txn T} (ok : T -> Prop) (view : T -> store) `{!TxnLaws T ok view}
    {A} (fn : prog A) (t : T) (a : A) (r : recordTxn T) :
  ok t -> scans_ok fn -> exec fn (newRecordTxn t) = (Ok a, r) -> ops_ok (ops r) ->
  exists m', run fn (view t) = (Ok a, m') /\ run (applyWriteSet (encode r)) (view t) = (Ok tt, m').
Proof. intros Ht Hs E Hops. exists (fold_left op_effect (ops r) (view t)). by apply (replay_lemma ok view). Qed.

Lemma write_set_replay_witness :
  let m : store := {[ [1; 3] := [7]; [1; 1] := [8]; [2] := [] ]} in
  exists m', run sample_prog (id m) = (Ok [([1; 1], [8]); ([1; 2], [9])], m') /\
    run (applyWriteSet (encode (exec sample_prog (newRecordTxn m)).2)) (id m) = (Ok tt, m').
Proof.
  intros m. apply (write_set_replay (fun _ : store => True) id sample_prog m).
  - exact I.
  - cbn. split; [vm_compute; congruence|done].
  - vm_compute. reflexivity.
  - split; [vm_compute; congruence|]. repeat constructor; vm_compute; congruence.
Defined.

(** Replaying arbitrary bytes terminates: whatever count the input claims,
    the replay ends with success or an error after reading at most the input,
    never by exhausting the bound of the model's loops. *)
Theorem apply_write_set_total (data : bytes) (m : store) :
  (run (applyWriteSet data) m).1 <> Err ErrOutOfFuel.
Proof.
  unfold applyWriteSet, ReadUvarint. rewrite run_bind, run_lift.
  destruct (uvarint_read data 0 0 0) as [[n k]|]; [|done]. apply run_apply_loop_total. lia.
Qed.
