(* ===== verification/Cluster.v ===== *)
(** * Cluster: replicated writes

    src/cluster/node.go ([ApplyWrite], [View]) and src/cluster/fsm.go.  The
    leader stages a statement on its own store with a recording transaction,
    rolls it back, and submits the write-set to Raft; the state machine of every
    node replays committed write-sets in log order.

    Raft is not part of the sources.  The model takes its documented contract:
    one committed log shared by the nodes, each node applying a prefix of it in
    order; a leader elected in a new term may lag behind the log; [Barrier] and
    a successful [Apply] return once the local state machine has caught up; and
    a submission that fails because leadership was lost may or may not end up in
    the log.  Which of these happens is the scheduler's choice ([raft_outcome],
    [step]).

    A node that restarts keeps its store, and Raft, which does not know how far
    that store had got, replays the log from the last snapshot on.

    The theorems: every replica that is past the point it had reached before
    its last restart is exactly the result of running the committed statements
    one after another up to the entry it has applied, and an acknowledged write
    saw all the writes before it. *)
From S2P Require Import Prelude Values Records Storage WriteSet.

Inductive entry : Type :=
| LogCommand (data : bytes)
| LogOther.

(** [fsm.Apply]: only commands touch the store; a failed update is rolled back. *)
Definition fsm_Apply (e : entry) (m : store) : store :=
  match e with
  | LogOther => m
  | LogCommand data =>
      match run (applyWriteSet data) m with
      | (Ok _, m') => m'
      | (Err _, _) => m
      end
  end.

(** The staging transaction of [ApplyWrite]: always rolled back; the result of
    the statement and the write-set, absent when nothing was written. *)
Definition stage {A} (fn : prog A) (m : store) : res (A * option bytes) :=
  match exec fn (newRecordTxn m) with
  | (Err e, _) => Err e
  | (Ok a, r) => if empty r then Ok (a, None) else Ok (a, Some (encode r))
  end.

Section cluster.
Context {A : Type}.
Abbreviation node := Z.

(** [c_high] and [c_hist] are not program state: [c_high] is the longest prefix
    of the log the store of a node has ever had applied, [c_hist] names, for
    each log entry, the statement it came from. *)
Record cstate := mkCluster {
  c_log : list entry;
  c_applied : node -> nat;
  c_high : node -> nat;
  c_store : node -> store;
  c_leader : option node;
  c_term : Z;
  c_barrierTerm : node -> Z;
  c_snaps : list (nat * nat * store);
  c_hist : list (option (prog A))
}.

Definition initial (m : store) : cstate :=
  mkCluster [] (fun _ => O) (fun _ => O) (fun _ => m) None 0 (fun _ => 0) [] [].

(** What Raft makes of a submission. *)
Inductive raft_outcome :=
| Applied            (* committed, and applied by the local state machine *)
| LeadershipLost     (* an error is returned, but the entry is in the log *)
| NotEnqueued.       (* an error is returned, and the entry is not in the log *)

(** The local state machine applies the rest of the log. *)
Definition catch_up (n : node) (c : cstate) : cstate :=
  mkCluster (c_log c)
    (<[n := length (c_log c)]> (c_applied c)) (<[n := length (c_log c)]> (c_high c))
    (<[n := fold_left (fun m e => fsm_Apply e m) (drop (c_applied c n) (c_log c)) (c_store c n)]> (c_store c))
    (c_leader c) (c_term c) (c_barrierTerm c) (c_snaps c) (c_hist c).

Definition set_barrier (n : node) (c : cstate) : cstate :=
  mkCluster (c_log c) (c_applied c) (c_high c) (c_store c) (c_leader c) (c_term c)
    (<[n := c_term c]> (c_barrierTerm c)) (c_snaps c) (c_hist c).

Definition append_entry (e : entry) (o : option (prog A)) (c : cstate) : cstate :=
  mkCluster (c_log c ++ [e]) (c_applied c) (c_high c) (c_store c) (c_leader c) (c_term c)
    (c_barrierTerm c) (c_snaps c) (c_hist c ++ [o]).

Definition set_leader (l : option node) (term : Z) (c : cstate) : cstate :=
  mkCluster (c_log c) (c_applied c) (c_high c) (c_store c) l term (c_barrierTerm c) (c_snaps c) (c_hist c).

(** The first write of a term waits for the state machine; [ok] says whether
    the barrier returned before its timeout. *)
Definition leader_barrier (n : node) (ok : bool) (c : cstate) : option cstate :=
  if decide (c_term c = c_barrierTerm c n) then Some c
  else if ok then Some (set_barrier n (catch_up n c)) else None.

(** [raftNode.ApplyWrite]. *)
Definition ApplyWrite (n : node) (fn : prog A) (barrier_ok : bool) (o : raft_outcome) (c : cstate) :
    res A * cstate :=
  if decide (c_leader c = Some n) then
    match leader_barrier n barrier_ok c with
    | None => (Err ErrRaft, c)
    | Some c =>
        match stage fn (c_store c n) with
        | Err e => (Err e, c)
        | Ok (a, None) => (Ok a, c)
        | Ok (a, Some ws) =>
            match o with
            | Applied => (Ok a, catch_up n (append_entry (LogCommand ws) (Some fn) c))
            | LeadershipLost => (Err ErrRaft, set_leader None (c_term c) (append_entry (LogCommand ws) (Some fn) c))
            | NotEnqueued => (Err ErrRaft, c)
            end
        end
    end
  else (Err ErrNotLeader, c).

(** [raftNode.View]: a read of the local store. *)
Definition View {B} (n : node) (fn : prog B) (c : cstate) : res B := (run fn (c_store c n)).1.

(** [fsm.Snapshot] and [fsm.Restore]. *)
Definition Snapshot (n : node) (c : cstate) : cstate :=
  mkCluster (c_log c) (c_applied c) (c_high c) (c_store c) (c_leader c) (c_term c) (c_barrierTerm c)
    (c_snaps c ++ [(c_applied c n, c_high c n, c_store c n)]) (c_hist c).
Definition Restore (n : node) (s : nat * nat * store) (c : cstate) : cstate :=
  mkCluster (c_log c) (<[n := s.1.1]> (c_applied c)) (<[n := s.1.2]> (c_high c)) (<[n := s.2]> (c_store c))
    (c_leader c) (c_term c)
    (c_barrierTerm c) (c_snaps c) (c_hist c).

(** One entry applied by the state machine of [n]. *)
Definition apply_next (n : node) (e : entry) (c : cstate) : cstate :=
  mkCluster (c_log c) (<[n := S (c_applied c n)]> (c_applied c))
    (<[n := Nat.max (c_high c n) (S (c_applied c n))]> (c_high c))
    (<[n := fsm_Apply e (c_store c n)]> (c_store c)) (c_leader c) (c_term c)
    (c_barrierTerm c) (c_snaps c) (c_hist c).

(** [n] restarts: its store stays, what it kept in memory is lost, and its
    state machine starts over at entry [k]. *)
Definition restart (n : node) (k : nat) (c : cstate) : cstate :=
  mkCluster (c_log c) (<[n := k]> (c_applied c)) (c_high c) (c_store c)
    (if decide (c_leader c = Some n) then None else c_leader c) (c_term c)
    (<[n := 0]> (c_barrierTerm c)) (c_snaps c) (c_hist c).

(** The write-set of a statement fits in memory. *)
Definition write_fits (fn : prog A) (m : store) : Prop := ops_ok (ops (exec fn (newRecordTxn m)).2).

Inductive step : cstate -> cstate -> Prop :=
| StepApply n e c : c_log c !! c_applied c n = Some e -> step c (apply_next n e c)
| StepElect n c : step c (set_leader (Some n) (c_term c + 1) c)
| StepLose c : step c (set_leader None (c_term c) c)
| StepOther c : step c (append_entry LogOther None c)
| StepWrite n fn ok o c :
    scans_ok fn ->
    (forall c1, leader_barrier n ok c = Some c1 -> write_fits fn (c_store c1 n)) ->
    step c (ApplyWrite n fn ok o c).2
| StepSnapshot n c : step c (Snapshot n c)
| StepRestore n s c : s ∈ c_snaps c -> c_leader c <> Some n -> step c (Restore n s c)
| StepRestart n k c : (k <= c_applied c n)%nat -> step c (restart n k c).

Inductive reachable (m : store) : cstate -> Prop :=
| reach_init : reachable m (initial m)
| reach_step c c' : reachable m c -> step c c' -> reachable m c'.
End cluster.
Arguments cstate A : clear implicits.

(** ** What the log means *)
Definition op_key (o : op) : bytes := match o with OpSet k _ | OpDel k => k end.
Abbreviation effect := (fold_left op_effect).

(** The recorded mutations of a log entry. *)
Definition entry_ops (e : entry) (l : list op) : Prop :=
  match e with LogOther => l = [] | LogCommand d => d = encode_ops l /\ ops_ok l end.

Lemma fsm_Apply_ops e l m : entry_ops e l -> fsm_Apply e m = effect l m.
Proof. destruct e; cbn [entry_ops fsm_Apply]; [|by intros ->]. intros [-> Hl]. by rewrite run_applyWriteSet. Qed.

Lemma fsm_Apply_all es L m :
  Forall2 entry_ops es L -> fold_left (fun m e => fsm_Apply e m) es m = effect (concat L) m.
Proof.
  intros HL. revert m. induction HL as [|e l es L He HL IH]; intros m; [done|].
  cbn [fold_left concat]. by rewrite (fsm_Apply_ops e l), fold_left_app by done.
Qed.

(** A mutation list decides the keys it writes and leaves the others. *)
Lemma effect_untouched l m x : x ∉ op_key <$> l -> effect l m !! x = m !! x.
Proof.
  revert m. induction l as [|o l IH]; intros m Hx; [done|]. rewrite fmap_cons, not_elem_of_cons in Hx.
  destruct Hx as [Hne Hx]. cbn [fold_left]. rewrite IH by done.
  destruct o; cbn in *; [by rewrite lookup_insert_ne|by rewrite lookup_delete_ne].
Qed.

Lemma effect_decided l m1 m2 x : x ∈ op_key <$> l -> effect l m1 !! x = effect l m2 !! x.
Proof.
  revert m1 m2. induction l as [|o l IH]; intros m1 m2 Hx; [by apply elem_of_nil in Hx|].
  cbn [fold_left]. destruct (decide (x ∈ op_key <$> l)) as [Hin|Hn]; [by apply IH|].
  rewrite fmap_cons, elem_of_cons in Hx. destruct Hx as [->|Hx]; [|done].
  rewrite !effect_untouched by done.
  destruct o; cbn; [by rewrite !lookup_insert_eq|by rewrite !lookup_delete_eq].
Qed.

Lemma effect_agree l m1 m2 x :
  (x ∉ op_key <$> l -> m1 !! x = m2 !! x) -> effect l m1 !! x = effect l m2 !! x.
Proof.
  intros Hx. destruct (decide (x ∈ op_key <$> l)) as [Hin|Hn]; [by apply effect_decided|].
  rewrite !effect_untouched by done. auto.
Qed.

(** ** Replicas

    [L] is the log as mutation lists and [m0] the initial store.  A store that
    has reached [h] and is replaying from [i] agrees with the state after [h]
    entries on every key that entries [i..h) do not write. *)
Section replica.
Context (m0 : store).

Definition after (L : list (list op)) : store := effect (concat L) m0.

Definition good (L : list (list op)) (i h : nat) (m : store) : Prop :=
  (i <= h <= length L)%nat /\
  forall x, x ∉ op_key <$> concat (drop i (take h L)) -> m !! x = after (take h L) !! x.

Lemma good_clean L i m : good L i i m -> m = after (take i L).
Proof.
  intros [_ Hm]. apply map_eq. intros x. apply Hm. rewrite drop_ge by (rewrite length_take; lia).
  apply not_elem_of_nil.
Qed.

Lemma after_app L1 L2 : after (L1 ++ L2) = effect (concat L2) (after L1).
Proof. unfold after. by rewrite concat_app, fold_left_app. Qed.

Lemma after_split L i : after L = effect (concat (drop i L)) (after (take i L)).
Proof. by rewrite <- after_app, take_drop. Qed.

Lemma not_in_segment L i h l x :
  (i < h <= length L)%nat -> L !! i = Some l ->
  x ∉ op_key <$> l -> x ∉ op_key <$> concat (drop (S i) (take h L)) ->
  x ∉ op_key <$> concat (drop i (take h L)).
Proof.
  intros Hi Hl Hx1 Hx2. rewrite (drop_S _ l) by (by rewrite lookup_take_lt by lia).
  cbn [concat]. rewrite fmap_app, not_elem_of_app. done.
Qed.

Lemma good_append L i h m l : good L i h m -> good (L ++ [l]) i h m.
Proof.
  intros [Hi Hm]. split; [rewrite length_app; lia|].
  rewrite take_app_le by lia. done.
Qed.

Lemma good_restart L i h m k : (k <= i)%nat -> good L i h m -> good L k h m.
Proof.
  intros Hk [Hi Hm]. split; [lia|]. intros x Hx. apply Hm. intros Hin. apply Hx. revert Hin.
  replace i with (k + (i - k))%nat by lia. rewrite <- drop_drop.
  rewrite <- (take_drop (i - k) (drop k (take h L))) at 2. rewrite concat_app, fmap_app.
  intros Hin. apply elem_of_app. by right.
Qed.

Lemma good_catch_up L i h m :
  good L i h m -> good L (length L) (length L) (effect (concat (drop i L)) m).
Proof.
  intros [Hi Hm]. split; [lia|]. intros x _. rewrite take_ge, (after_split L i) by lia.
  apply effect_agree. intros Hx.
  assert (drop i L = drop i (take h L) ++ drop h L) as Es.
  { rewrite <- (take_drop h L) at 1. rewrite drop_app_le by (rewrite length_take; lia). done. }
  rewrite Es, concat_app, fmap_app, not_elem_of_app in Hx. destruct Hx as [Hx _].
  rewrite Hm by done. rewrite (after_split (take h L) i), take_take, Nat.min_l by lia.
  by rewrite effect_untouched.
Qed.

Lemma good_step L i h m l :
  good L i h m -> L !! i = Some l -> good L (S i) (Nat.max h (S i)) (effect l m).
Proof.
  intros [Hi Hm] Hl. assert (i < length L)%nat as Hlt by (by eapply lookup_lt_Some).
  split; [lia|]. intros x Hx. destruct (decide (i < h)%nat) as [Hih|Hih].
  - rewrite Nat.max_l in * by lia.
    rewrite (after_split (take h L) (S i)), take_take, Nat.min_l by lia.
    rewrite (effect_untouched (concat _)) by done. rewrite (take_S_r _ _ _ Hl), after_app. cbn [concat].
    rewrite app_nil_r. apply effect_agree. intros Hl'. rewrite Hm.
    + rewrite (after_split (take h L) i), take_take, Nat.min_l by lia. rewrite effect_untouched; [done|].
      by apply (not_in_segment L i h l x ltac:(lia) Hl).
    + by apply (not_in_segment L i h l x ltac:(lia) Hl).
  - assert (h = i) as -> by lia. rewrite Nat.max_r in * by lia.
    rewrite (good_clean L i m) by (by split). rewrite (take_S_r _ _ _ Hl), after_app. cbn [concat].
    by rewrite app_nil_r.
Qed.

Lemma good_up_to_date L i h m : concat (drop i L) = [] -> good L i h m -> m = after L.
Proof.
  intros He Hg. apply good_catch_up in Hg. rewrite He in Hg. cbn in Hg.
  apply good_clean in Hg. by rewrite take_ge in Hg.
Qed.
End replica.

(** ** Invariant *)
Section invariant.
Context {A : Type} (m0 : store).

(** Running committed statements one after another. *)
Definition seq_step (m : store) (o : option (prog A)) : store :=
  match o with Some p => (run p m).2 | None => m end.
Definition seq_state (ps : list (option (prog A))) : store := fold_left seq_step ps m0.

(** [ps] explains [L]: each statement succeeded where it was run, and had the
    effect of the mutations recorded for it. *)
Inductive explains : list (option (prog A)) -> list (list op) -> Prop :=
| explains_nil : explains [] []
| explains_other ps L : explains ps L -> explains (ps ++ [None]) (L ++ [[]])
| explains_write ps L p l a :
    explains ps L -> run p (after m0 L) = (Ok a, effect l (after m0 L)) ->
    explains (ps ++ [Some p]) (L ++ [l]).

Lemma explains_length ps L : explains ps L -> length ps = length L.
Proof. induction 1; rewrite ?length_app; cbn; lia. Qed.

Lemma explains_state ps L i : explains ps L -> seq_state (take i ps) = after m0 (take i L).
Proof.
  intros He. induction He as [|ps L He IH|ps L p l a He IH Hr]; [by rewrite !take_nil| |];
    pose proof (explains_length _ _ He) as El;
    (destruct (decide (i <= length L)%nat);
     [by rewrite !take_app_le by lia|rewrite !take_ge in IH by lia]);
    rewrite !take_ge by (rewrite length_app; cbn; lia); unfold seq_state in *;
    rewrite fold_left_app, IH, after_app; cbn; rewrite ?app_nil_r; [done|].
  by rewrite Hr.
Qed.

Lemma explains_success ps L i p :
  explains ps L -> ps !! i = Some (Some p) ->
  exists a, run p (after m0 (take i L)) = (Ok a, after m0 (take (S i) L)).
Proof.
  intros He. induction He as [|ps L He IH|ps L q l a He IH Hr]; [done| |];
    pose proof (explains_length _ _ He) as El; intros Hi;
    apply lookup_app_Some in Hi as [Hi|[Hle Hi]].
  1,3: assert (i < length ps)%nat by (by eapply lookup_lt_Some);
    rewrite !take_app_le by lia; auto.
  - destruct (i - length ps)%nat; [done|by destruct n].
  - destruct (i - length ps)%nat eqn:Ei; [|by destruct n]. injection Hi as ->.
    assert (i = length L) as -> by lia. exists a.
    rewrite take_app_length, (take_ge (L ++ [l])) by (rewrite length_app; cbn; lia).
    rewrite Hr, after_app. cbn. by rewrite app_nil_r.
Qed.

Record core (c : cstate A) (L : list (list op)) : Prop := {
  inv_log : Forall2 entry_ops (c_log c) L;
  inv_hist : explains (c_hist c) L;
  inv_good : forall n, good m0 L (c_applied c n) (c_high c n) (c_store c n);
  inv_snaps : Forall (fun s => good m0 L s.1.1 s.1.2 s.2) (c_snaps c);
  inv_term : forall n, 0 <= c_barrierTerm c n <= c_term c
}.

(** A leader that has passed the barrier of its term has applied every
    write. *)
Definition led (c : cstate A) (L : list (list op)) : Prop :=
  forall n, c_leader c = Some n -> 0 < c_term c /\
    (c_barrierTerm c n = c_term c -> concat (drop (c_applied c n) L) = []).

Definition invariant (c : cstate A) : Prop := exists L, core c L /\ led c L.

Ltac on_node n k :=
  destruct (decide (k = n)) as [->|];
  [rewrite ?fn_lookup_insert|rewrite ?fn_lookup_insert_ne by done].

Lemma core_length c L : core c L -> length (c_log c) = length L.
Proof. intros Hc. by eapply Forall2_length, inv_log. Qed.

Lemma core_catch_up n c L : core c L -> core (catch_up n c) L.
Proof.
  intros Hc. pose proof (core_length _ _ Hc) as El. destruct Hc as [Hl Hh Hg Hs Ht].
  split; cbn; try done. intros k. on_node n k; [|done].
  rewrite (fsm_Apply_all _ (drop (c_applied c n) L)) by (by apply Forall2_drop).
  rewrite El. by eapply good_catch_up.
Qed.

Lemma led_catch_up n c L : core c L -> led c L -> led (catch_up n c) L.
Proof.
  intros Hc Hd k Hk. destruct (Hd k Hk) as [Hp Hb]. split; [done|]. cbn in *. intros Hbt.
  on_node n k; [|by apply Hb]. by rewrite (core_length _ _ Hc), drop_all.
Qed.

Lemma core_append c L e o l :
  core c L -> entry_ops e l -> explains (c_hist c ++ [o]) (L ++ [l]) ->
  core (append_entry e o c) (L ++ [l]).
Proof.
  intros [Hl Hh Hg Hs Ht] He Hx. split; cbn; try done.
  - apply Forall2_app; [done|]. by constructor.
  - intros n. by apply good_append.
  - eapply Forall_impl; [exact Hs|]. intros s. apply good_append.
Qed.

Lemma led_append_other c L : core c L -> led c L -> led (append_entry LogOther None c) (L ++ [[]]).
Proof.
  intros Hc Hd n Hn. destruct (Hd n Hn) as [Hp Hb]. split; [done|]. cbn in *. intros Hbt.
  destruct (inv_good _ _ Hc n) as [Hi _]. rewrite drop_app_le, concat_app, Hb by (done || lia). done.
Qed.

(** The barrier brings the leader up to date. *)
Lemma barrier_spec n ok c c' L :
  core c L -> led c L -> c_leader c = Some n -> leader_barrier n ok c = Some c' ->
  core c' L /\ led c' L /\ c_leader c' = Some n /\ c_hist c' = c_hist c /\ c_store c' n = after m0 L.
Proof.
  intros Hc Hd Hn. unfold leader_barrier. destruct (decide _) as [Eb|Eb].
  - intros [= <-]. split; [done|split; [done|split; [done|split; [done|]]]]. destruct (Hd n Hn) as [_ Hb].
    by eapply good_up_to_date; [apply Hb|apply Hc].
  - destruct ok; [|done]. intros [= <-].
    pose proof (core_catch_up n c L Hc) as Hc'. pose proof (led_catch_up n c L Hc Hd) as Hd'.
    split; [|split; [|split; [done|split; [done|]]]].
    + destruct Hc' as [Hl Hh Hg Hs Ht]. split; cbn in *; try done. intros k. specialize (Ht k).
      on_node n k; lia.
    + intros k Hk. destruct (Hd' k Hk) as [Hp Hb]. split; [done|]. cbn in *. intros Hbt.
      assert (k = n) as -> by congruence. rewrite fn_lookup_insert in *.
      by rewrite (core_length _ _ Hc), drop_all.
    + pose proof (inv_good _ _ Hc' n) as Hg. eapply good_up_to_date; [|exact Hg]. cbn.
      by rewrite fn_lookup_insert, (core_length _ _ Hc), drop_all.
Qed.

(** A staged write-set is the statement. *)
Lemma stage_spec (fn : prog A) m a ws :
  scans_ok fn -> write_fits fn m -> stage fn m = Ok (a, ws) ->
  match ws with
  | None => run fn m = (Ok a, m)
  | Some d => exists l, entry_ops (LogCommand d) l /\ run fn m = (Ok a, effect l m)
  end.
Proof.
  unfold stage, write_fits. intros Hs Hf. destruct (exec fn (newRecordTxn m)) as [[b|e] r] eqn:E; [|done].
  destruct (replay_lemma (fun _ : store => True) id fn m b r I Hs E Hf) as [Hr _].
  unfold empty. destruct (ops r) as [|o l] eqn:Eo; intros [= <- <-].
  - exact Hr.
  - exists (o :: l). split; [|exact Hr]. cbn [snd] in Hf. rewrite Eo in Hf. by unfold encode; rewrite Eo.
Qed.

(** An acknowledged or logged write ran on the state after every entry. *)
Lemma ApplyWrite_spec n fn ok o c r c' L :
  core c L -> led c L -> scans_ok fn ->
  (forall c1, leader_barrier n ok c = Some c1 -> write_fits fn (c_store c1 n)) ->
  ApplyWrite n fn ok o c = (r, c') ->
  invariant c' /\ (forall a, r = Ok a -> exists m', run fn (after m0 L) = (Ok a, m') /\ c_store c' n = m').
Proof.
  intros Hc Hd Hs Hf. unfold ApplyWrite. destruct (decide _) as [Hn|]; [|intros [= <- <-]; split; [by exists L|done]].
  destruct (leader_barrier n ok c) as [c1|] eqn:Eb; [|intros [= <- <-]; split; [by exists L|done]].
  specialize (Hf c1 eq_refl). destruct (barrier_spec _ _ _ _ _ Hc Hd Hn Eb) as (Hc1 & Hd1 & Hn1 & _ & Em).
  destruct (stage fn (c_store c1 n)) as [[a [ws|]]|e] eqn:Es; [| |intros [= <- <-]; split; [by exists L|done]].
  - apply stage_spec in Es as (l & He & Hr); [|done|done]. rewrite Em in Hr.
    assert (core (append_entry (LogCommand ws) (Some fn) c1) (L ++ [l])) as Hca.
    { apply core_append; [done|done|]. by eapply explains_write; [apply Hc1|]. }
    destruct o; intros [= <- <-].
    + pose proof (core_catch_up n _ _ Hca) as Hcc. split.
      * exists (L ++ [l]). split; [done|]. intros k Hk. cbn in Hk |- *.
        assert (k = n) as -> by congruence. rewrite fn_lookup_insert. split; [by apply (Hd1 n)|].
        intros _. pose proof (core_length _ _ Hca) as El. cbn in El. by rewrite El, drop_all.
      * intros a' [= <-]. eexists. split; [exact Hr|].
        eapply eq_trans; [eapply good_up_to_date; [|apply (inv_good _ _ Hcc n)]|].
        -- cbn. rewrite fn_lookup_insert. pose proof (core_length _ _ Hca) as El. cbn in El. by rewrite El, drop_all.
        -- rewrite after_app. cbn. by rewrite app_nil_r.
    + split; [|done]. exists (L ++ [l]). split; [|by intros k].
      destruct Hca as [Hl Hh Hg Hsn Ht]. by split.
    + split; [by exists L|done].
  - apply stage_spec in Es; [|done|done]. intros [= <- <-]. split; [by exists L|].
    intros a' [= <-]. rewrite Em in Es. by eexists.
Qed.

Lemma initial_invariant : invariant (initial m0).
Proof.
  exists []. split; [split|]; cbn; try done. constructor.
Qed.

Lemma step_invariant c c' : step c c' -> invariant c -> invariant c'.
Proof.
  intros Hst (L & Hc & Hd). destruct Hst as [n e c He|n c|c|c|n fn ok o c Hs Hf|n c|n s c Hin Hl|n k c Hk].
  - pose proof He as Hel. destruct (Forall2_lookup_l _ _ _ _ _ (inv_log _ _ Hc) Hel) as (l & Hl & Hel').
    exists L. split.
    + destruct Hc as [Hlg Hh Hg Hs Ht]. split; cbn; try done. intros k. on_node n k; [|done].
      rewrite (fsm_Apply_ops e l) by done. by apply good_step.
    + intros k Hk. destruct (Hd k Hk) as [Hp Hb]. split; [done|]. cbn in *. intros Hbt. specialize (Hb Hbt).
      on_node n k; [|done]. rewrite (drop_S _ _ _ Hl) in Hb. cbn in Hb. by apply app_eq_nil in Hb as [_ ?].
  - exists L. split.
    + destruct Hc as [Hlg Hh Hg Hs Ht]. split; cbn; try done. intros k. specialize (Ht k). lia.
    + intros k Hk. cbn in *. pose proof (inv_term _ _ Hc k). split; [lia|]. lia.
  - exists L. split; [|done]. by destruct Hc.
  - exists (L ++ [[]]). split; [|by apply led_append_other].
    apply core_append; [done|done|]. constructor. apply Hc.
  - destruct (ApplyWrite n fn ok o c) as [r c'] eqn:E.
    by eapply (ApplyWrite_spec n fn ok o c r c' L).
  - exists L. split; [|exact Hd]. destruct Hc as [Hlg Hh Hg Hs Ht]. split; cbn; try done.
    apply Forall_app. split; [done|]. constructor; [apply Hg|done].
  - exists L. destruct Hc as [Hlg Hh Hg Hs Ht]. split.
    + split; cbn; try done. intros k. rewrite Forall_forall in Hs. on_node n k; [|done]. by apply Hs.
    + intros k Hk. destruct (Hd k Hk) as [Hp Hb]. split; [done|]. cbn in *. on_node n k; [congruence|done].
  - exists L. destruct Hc as [Hlg Hh Hg Hs Ht]. split.
    + split; cbn; try done; intros j; on_node n j; try done.
      * eapply good_restart; [exact Hk|done].
      * specialize (Ht n). lia.
    + intros j Hj. cbn in *. destruct (decide (c_leader c = Some n)) as [|Hne]; [done|].
      on_node n j; [congruence|]. by apply Hd.
Qed.

Lemma reachable_invariant c : reachable m0 c -> invariant c.
Proof. induction 1; [apply initial_invariant|by eapply step_invariant]. Qed.
End invariant.



(** *** A small run: node 1 is elected and writes three times *)
Definition set_stmt (k v : Z) : prog unit := Set_ [k] [v].
Definition three_writes : list (prog unit) := [set_stmt 97 1; set_stmt 97 2; set_stmt 98 1].

Definition run_writes (ps : list (prog unit)) (c : cstate unit) : cstate unit :=
  fold_left (fun c p => (ApplyWrite 1 p true Applied c).2) ps c.
Definition elected : cstate unit := set_leader (Some 1) 1 (initial ∅).
Definition three_written : cstate unit := run_writes three_writes elected.

Lemma set_stmt_fits k v m : write_fits (set_stmt k v) m.
Proof.
  split; [vm_compute; congruence|]. constructor; [|constructor]. by split; vm_compute.
Qed.

Lemma elected_reachable : reachable ∅ elected.
Proof. exact (reach_step ∅ _ _ (reach_init ∅) (StepElect 1 (initial ∅))). Qed.

Lemma run_writes_reachable ps c :
  Forall (fun p => exists k v, p = set_stmt k v) ps -> reachable ∅ c -> reachable ∅ (run_writes ps c).
Proof.
  intros Hps. revert c. induction Hps as [|p ps (k & v & ->) Hps IH]; intros c Hc; [done|].
  cbn [run_writes fold_left]. apply IH. eapply reach_step; [exact Hc|].
  apply StepWrite; [done|]. intros c1 _. apply set_stmt_fits.
Qed.

Lemma three_written_reachable : reachable ∅ three_written.
Proof. apply run_writes_reachable; [repeat constructor; eauto|apply elected_reachable]. Qed.



(** During the replay that follows a restart a local read can see a state
    that no sequence of the statements ever produced: after three writes, node
    1 restarts and replays the first one over the store it kept. *)
Theorem restart_exposes_mixed_state :
  exists c : cstate unit, reachable ∅ c /\ c_leader c <> Some 1 /\
    forall i, c_store c 1 <> seq_state ∅ (take i (c_hist c)).
Proof.
  set (c1 := restart 1 0 three_written).
  assert (exists e, c_log c1 !! c_applied c1 1 = Some e) as [e He] by (vm_compute; eauto).
  exists (apply_next 1 e c1). split; [|split].
  - eapply reach_step; [eapply reach_step; [apply three_written_reachable|apply StepRestart; apply Nat.le_0_l]|].
    by apply StepApply.
  - done.
  - vm_compute in He. injection He as <-. intros i Heq.
    apply (f_equal (fun m : store => (m !! [97], m !! [98]))) in Heq. revert Heq.
    destruct i as [|[|[|[|i]]]]; vm_compute; congruence.
Qed.
