(* ===== verification/Pool.v ===== *)
(** * Pool: the connections a node keeps to the others

    src/cluster/pool.go.  A connection is a number, in the order of dialing.
    The pool's own operations ([get], [put], [Close]) run under its mutex; a
    [call] is a small state machine around them (up to two attempts, each with a
    pooled or a dialed connection), and calls on any number of goroutines and
    the closing of the pool interleave ([step]).  What the network and the
    caller's context do is an [outcome]; the reply is of any type.

    The theorem [pool_ownership]: under every interleaving a connection that is
    open is either in one idle list, the one of its own address, or held by one
    call; so no connection is shared, leaked or reused after it was closed. *)
From S2P Require Import Prelude.

Module Pool.
Abbreviation conn := nat.

Record connPool := mkPool { maxIdle : Z; idle : gmap bytes (list conn); closed : bool }.
Definition defaultMaxIdleConns : Z := 4.
Definition newConnPool (max : Z) : connPool := mkPool (if max <=? 0 then defaultMaxIdleConns else max) ∅ false.

(** A Go map gives the nil slice for an address it does not have. *)
Definition idle_at (p : connPool) (addr : bytes) : list conn := default [] (idle p !! addr).
Definition set_idle (addr : bytes) (l : list conn) (p : connPool) : connPool := mkPool (maxIdle p) (<[addr := l]> (idle p)) (closed p).

(** [get]: the last idle connection, else one has to be dialed. *)
Inductive got := Pooled (c : conn) | Dials | PoolClosed.
Definition get (addr : bytes) (p : connPool) : got * connPool :=
  if closed p then (PoolClosed, p)
  else match last (idle_at p addr) with
  | Some c => (Pooled c, set_idle addr (take (length (idle_at p addr) - 1) (idle_at p addr)) p)
  | None => (Dials, p)
  end.

(** [put]: back into the pool, or ([true]) to be closed. *)
Definition put (addr : bytes) (c : conn) (p : connPool) : bool * connPool :=
  if closed p || (maxIdle p <=? Z.of_nat (length (idle_at p addr))) then (true, p)
  else (false, set_idle addr (idle_at p addr ++ [c]) p).

(** [Close]: the connections it closes, and the pool without them. *)
Definition Close (p : connPool) : list conn * connPool := (concat (map_to_list (idle p)).*2, mkPool (maxIdle p) ∅ true).

(** ** Calls *)
Section calls.
Context {R : Type}.

Inductive point :=
| Trying (attempt : nat)                  (* the top of the loop *)
| Dialing (attempt : nat)                 (* outside the lock *)
| Waiting (attempt : nat) (c : conn)      (* for the reply *)
| Done (r : res R).
Record thread := mkThread { t_addr : bytes; t_at : point }.

Inductive outcome :=
| Proceeds                                (* the context is not done *)
| ContextDone
| Dialed
| DialFailed
| Replied (rep : R)
| Broken.                                 (* call.Error *)

(** [s_open]: the connections not closed, with the address each goes to. *)
Record sys := mkSys { s_pool : connPool; s_calls : gmap nat thread; s_open : gmap conn bytes; s_next : conn }.
Definition init (max : Z) : sys := mkSys (newConnPool max) ∅ ∅ 0.

Definition goes (i : nat) (addr : bytes) (at_ : point) (p : connPool) (o : gmap conn bytes) (s : sys) : sys :=
  mkSys p (<[i := mkThread addr at_]> (s_calls s)) o (s_next s).

(** One step of [call] on goroutine [i]. *)
Definition call_step (i : nat) (h : outcome) (s : sys) : option sys :=
  match s_calls s !! i with
  | None => None
  | Some (mkThread addr at_) =>
      match at_, h with
      | Trying _, ContextDone => Some (goes i addr (Done (Err ErrCanceled)) (s_pool s) (s_open s) s)
      | Trying n, Proceeds =>
          let '(g, p) := get addr (s_pool s) in
          let at' := match g with Pooled c => Waiting n c | Dials => Dialing n | PoolClosed => Done (Err ErrForward) end in
          Some (goes i addr at' p (s_open s) s)
      | Dialing n, Dialed =>
          Some (mkSys (s_pool s) (<[i := mkThread addr (Waiting n (s_next s))]> (s_calls s)) (<[s_next s := addr]> (s_open s)) (S (s_next s)))
      | Dialing _, DialFailed => Some (goes i addr (Done (Err ErrForward)) (s_pool s) (s_open s) s)
      | Waiting n c, Broken =>
          let at' := match n with O => Trying 1 | S _ => Done (Err ErrForward) end in
          Some (goes i addr at' (s_pool s) (delete c (s_open s)) s)
      | Waiting _ c, Replied rep =>
          let '(close, p) := put addr c (s_pool s) in
          Some (goes i addr (Done (Ok rep)) p (if close then delete c (s_open s) else s_open s) s)
      | Waiting _ c, ContextDone => Some (goes i addr (Done (Err ErrCanceled)) (s_pool s) (delete c (s_open s)) s)
      | _, _ => None
      end
  end.
Definition call_begins (i : nat) (addr : bytes) (s : sys) : sys := goes i addr (Trying 0) (s_pool s) (s_open s) s.
Definition close_pool (s : sys) : sys :=
  let '(cs, p) := Close (s_pool s) in mkSys p (s_calls s) (foldr delete (s_open s) cs) (s_next s).

Inductive step : sys -> sys -> Prop :=
| StepBegin i addr s : s_calls s !! i = None -> step s (call_begins i addr s)
| StepCall i h s s' : call_step i h s = Some s' -> step s s'
| StepClose s : step s (close_pool s).

Definition holds (t : thread) : option conn := match t_at t with Waiting _ c => Some c | _ => None end.

(** ** The invariant *)
Record owned (s : sys) : Prop := {
  ow_idle addr c : c ∈ idle_at (s_pool s) addr -> s_open s !! c = Some addr;
  ow_nodup addr : NoDup (idle_at (s_pool s) addr);
  ow_held i t c : s_calls s !! i = Some t -> holds t = Some c -> s_open s !! c = Some (t_addr t);
  ow_single i j t u c : s_calls s !! i = Some t -> s_calls s !! j = Some u -> holds t = Some c -> holds u = Some c -> i = j;
  ow_apart i t c addr : s_calls s !! i = Some t -> holds t = Some c -> c ∉ idle_at (s_pool s) addr;
  ow_kept c addr : s_open s !! c = Some addr ->
    c ∈ idle_at (s_pool s) addr \/ exists i t, s_calls s !! i = Some t /\ holds t = Some c;
  ow_fresh c addr : s_open s !! c = Some addr -> (c < s_next s)%nat;
  ow_bound addr : Z.of_nat (length (idle_at (s_pool s) addr)) <= maxIdle (s_pool s);
  ow_closed : closed (s_pool s) = true -> idle (s_pool s) = ∅;
  ow_max : 0 < maxIdle (s_pool s)
}.

Lemma idle_set addr l p a : idle_at (set_idle addr l p) a = if decide (a = addr) then l else idle_at p a.
Proof. unfold idle_at, set_idle; cbn. destruct (decide (a = addr)) as [->|Hne]; [by rewrite lookup_insert_eq|by rewrite lookup_insert_ne]. Qed.

Lemma get_spec addr p :
  match get addr p with
  | (Pooled c, p') => closed p = false /\ exists l, idle_at p addr = l ++ [c] /\ p' = set_idle addr l p
  | (Dials, p') => closed p = false /\ idle_at p addr = [] /\ p' = p
  | (PoolClosed, p') => closed p = true /\ p' = p
  end.
Proof.
  unfold get. destruct (closed p) eqn:Ec; [done|]. destruct (last (idle_at p addr)) as [c|] eqn:El.
  - apply last_Some in El as [l El]. rewrite El. split; [done|]. exists l. rewrite length_app; cbn.
    replace (length l + 1 - 1)%nat with (length l) by lia. by rewrite take_app_length.
  - apply last_None in El. done.
Qed.

Lemma owned_init max : owned (init max).
Proof.
  assert (forall addr, idle_at (s_pool (init max)) addr = []) as Hidle by (intros addr; unfold idle_at; cbn; by rewrite lookup_empty).
  split; cbn [init s_calls s_open s_next newConnPool maxIdle closed]; intros *; rewrite ?Hidle, ?lookup_empty; try done.
  - by intros ?%elem_of_nil.
  - constructor.
  - cbn [length init s_pool newConnPool maxIdle]. unfold defaultMaxIdleConns. destruct (Z.leb_spec max 0); lia.
  - cbn [init s_pool newConnPool maxIdle]. unfold defaultMaxIdleConns. destruct (Z.leb_spec max 0); lia.
Qed.
(** *** Each kind of step keeps it *)
Ltac calls :=
  repeat match goal with
  | H : <[_ := _]> _ !! _ = Some _ |- _ => apply lookup_insert_Some in H as [[? ?]|[? ?]]; subst
  | H : delete _ _ !! _ = Some _ |- _ => apply lookup_delete_Some in H as [? ?]
  end.

(** A call that holds nothing before and after the step. *)
Lemma owned_idle_call s i addr at' :
  owned s -> (forall t, s_calls s !! i = Some t -> holds t = None) -> holds (mkThread addr at') = None ->
  owned (goes i addr at' (s_pool s) (s_open s) s).
Proof.
  intros [] Hi Hn. unfold goes. split; cbn [s_pool s_calls s_open s_next]; intros; calls; try congruence; eauto.
  destruct (ow_kept0 c addr0) as [?|(j & t & Hj & Ht)]; [done|by left|]. right. exists j, t.
  rewrite lookup_insert_ne; [done|]. intros ->. specialize (Hi _ Hj). congruence.
Qed.

(** A connection leaves the idle list for a call. *)
Lemma owned_pooled s i addr n c l :
  owned s -> (forall t, s_calls s !! i = Some t -> holds t = None) -> closed (s_pool s) = false -> idle_at (s_pool s) addr = l ++ [c] ->
  owned (goes i addr (Waiting n c) (set_idle addr l (s_pool s)) (s_open s) s).
Proof.
  intros [] Hi Hcl El. assert (NoDup (l ++ [c])) as Hnd by (rewrite <- El; auto).
  apply NoDup_app in Hnd as (Hnd & Hdis & _). assert (c ∈ idle_at (s_pool s) addr) as Hc by (rewrite El; set_solver).
  assert (forall a x, x ∈ idle_at (set_idle addr l (s_pool s)) a -> x ∈ idle_at (s_pool s) a /\ x <> c) as Hsub.
  { intros a x. rewrite idle_set. destruct (decide (a = addr)) as [->|Hne]; [rewrite El; set_solver|]. intros Hx. split; [done|].
    intros ->. apply ow_idle0 in Hx, Hc. congruence. }
  unfold goes. split; cbn [s_pool s_calls s_open s_next]; intros; calls; cbn [holds t_at t_addr] in *; simplify_eq; eauto.
  - by eapply ow_idle0, Hsub.
  - rewrite idle_set. destruct (decide _); auto.
  - exfalso. by eapply ow_apart0.
  - exfalso. by eapply ow_apart0.
  - intros Hx%Hsub. by destruct Hx.
  - intros Hx%Hsub. by eapply ow_apart0, Hx.
  - destruct (ow_kept0 _ _ H) as [Hx|(j & t & Hj & Ht)].
    + rewrite idle_set. destruct (decide (addr0 = addr)) as [->|]; [|auto]. rewrite El in Hx.
      apply elem_of_app in Hx as [Hx|Hx%list_elem_of_singleton]; [auto|subst]. right. exists i, (mkThread addr (Waiting n c)). by rewrite lookup_insert_eq.
    + right. exists j, t. rewrite lookup_insert_ne; [done|]. intros ->. specialize (Hi _ Hj). congruence.
  - rewrite idle_set. destruct (decide (addr0 = addr)) as [->|]; [|apply ow_bound0]. specialize (ow_bound0 addr). rewrite El, length_app in ow_bound0. cbn in *. lia.
  - cbn in *. congruence.
Qed.

(** A connection is dialed. *)
Lemma owned_dialed s i addr n :
  owned s -> (forall t, s_calls s !! i = Some t -> holds t = None) ->
  owned (mkSys (s_pool s) (<[i := mkThread addr (Waiting n (s_next s))]> (s_calls s)) (<[s_next s := addr]> (s_open s)) (S (s_next s))).
Proof.
  intros [] Hi. assert (s_open s !! s_next s = None) as Hnew.
  { destruct (s_open s !! s_next s) eqn:E; [|done]. apply ow_fresh0 in E. lia. }
  assert (forall x a, s_open s !! x = Some a -> <[s_next s := addr]> (s_open s) !! x = Some a) as Hopen.
  { intros x a Hx. rewrite lookup_insert_ne; congruence. }
  assert (forall j t, s_calls s !! j = Some t -> holds t <> Some (s_next s)) as Hno by (intros j t Hj Ht; eapply ow_held0 in Ht; [congruence|done]).
  split; cbn [s_pool s_calls s_open s_next]; intros; calls; cbn [holds t_at t_addr] in *; simplify_eq; eauto.
  - by rewrite lookup_insert_eq.
  - exfalso. by eapply Hno.
  - exfalso. by eapply Hno.
  - intros Hx%ow_idle0. congruence.
  - right. exists i, (mkThread addr0 (Waiting n (s_next s))). by rewrite lookup_insert_eq.
  - destruct (ow_kept0 _ _ H0) as [Hx|(j & t & Hj & Ht)]; [auto|]. right. exists j, t.
    rewrite lookup_insert_ne; [done|]. intros ->. specialize (Hi _ Hj). congruence.
  - apply ow_fresh0 in H0. lia.
Qed.

(** A call gives up its connection, which is closed. *)
Lemma owned_dropped s i addr n c at' :
  owned s -> s_calls s !! i = Some (mkThread addr (Waiting n c)) -> holds (mkThread addr at') = None ->
  owned (goes i addr at' (s_pool s) (delete c (s_open s)) s).
Proof.
  intros [] Hi Hn. assert (forall a x, x ∈ idle_at (s_pool s) a -> x <> c) as Hidle.
  { intros a x Hx ->. by eapply ow_apart0. }
  unfold goes. split; cbn [s_pool s_calls s_open s_next]; intros; calls; try congruence; eauto.
  - rewrite lookup_delete_ne; [auto|]. by eapply not_eq_sym, Hidle.
  - rewrite lookup_delete_ne; [by eapply ow_held0|]. intros ->. by apply H, (ow_single0 i i0 _ _ c0 Hi H1).
  - destruct (ow_kept0 _ _ H0) as [Hx|(j & t & Hj & Ht)]; [auto|]. right. exists j, t.
    rewrite lookup_insert_ne; [done|]. intros ->. rewrite Hi in Hj. simplify_eq. cbn in Ht. congruence.
Qed.

(** ... or goes back into the pool. *)
Lemma owned_returned s i addr n c at' :
  owned s -> s_calls s !! i = Some (mkThread addr (Waiting n c)) -> holds (mkThread addr at') = None ->
  closed (s_pool s) = false -> Z.of_nat (length (idle_at (s_pool s) addr)) < maxIdle (s_pool s) ->
  owned (goes i addr at' (set_idle addr (idle_at (s_pool s) addr ++ [c]) (s_pool s)) (s_open s) s).
Proof.
  intros [] Hi Hn Hcl Hlen. assert (s_open s !! c = Some addr) as Hc by (by apply (ow_held0 _ _ _ Hi)).
  assert (forall a x, x ∈ idle_at (set_idle addr (idle_at (s_pool s) addr ++ [c]) (s_pool s)) a <->
      x ∈ idle_at (s_pool s) a \/ (x = c /\ a = addr)) as Hin.
  { intros a x. rewrite idle_set. destruct (decide (a = addr)) as [->|]; [rewrite elem_of_app, list_elem_of_singleton|]; naive_solver. }
  unfold goes. split; cbn [s_pool s_calls s_open s_next]; intros; calls; try congruence; eauto.
  - apply Hin in H as [H|[-> ->]]; auto.
  - rewrite idle_set. destruct (decide _); [|auto]. apply NoDup_app. split_and!; [done| |by apply NoDup_singleton].
    intros x Hx ->%list_elem_of_singleton. by eapply ow_apart0.
  - rewrite Hin. intros [Hx|[-> ->]]; [by eapply ow_apart0|]. by apply H, (ow_single0 i i0 _ _ c Hi H1).
  - rewrite Hin. destruct (ow_kept0 _ _ H) as [Hx|(j & t & Hj & Ht)]; [auto|]. destruct (decide (j = i)) as [->|Hne].
    + rewrite Hi in Hj. simplify_eq. cbn in Ht. simplify_eq. auto.
    + right. exists j, t. by rewrite lookup_insert_ne.
  - rewrite idle_set. destruct (decide (addr0 = addr)) as [->|]; [|apply ow_bound0]. rewrite length_app. cbn in *. lia.
  - cbn in *. congruence.
Qed.

Lemma idle_open p c : c ∈ (Close p).1 <-> exists addr, c ∈ idle_at p addr.
Proof.
  unfold Close, idle_at; cbn [fst]. rewrite list_elem_of_In, in_concat. setoid_rewrite <- list_elem_of_In. split.
  - intros (l & Hl & Hc). apply list_elem_of_fmap in Hl as ([addr l'] & -> & Hl%elem_of_map_to_list). exists addr. by rewrite Hl.
  - intros [addr Hc]. destruct (idle p !! addr) as [l|] eqn:El; [|by apply elem_of_nil in Hc].
    exists l. split; [|done]. apply list_elem_of_fmap. exists (addr, l). by rewrite elem_of_map_to_list.
Qed.
Lemma foldr_delete_lookup (m : gmap conn bytes) cs c : foldr delete m cs !! c = if decide (c ∈ cs) then None else m !! c.
Proof.
  induction cs as [|x cs IH]; cbn [foldr]; [by destruct (decide (c ∈ [])) as [H%elem_of_nil|]|].
  destruct (decide (c = x)) as [->|Hne]; [rewrite lookup_delete_eq; by rewrite decide_True by set_solver|].
  rewrite lookup_delete_ne by done. rewrite IH. repeat destruct (decide _); set_solver.
Qed.
Lemma owned_closed s : owned s -> owned (close_pool s).
Proof.
  intros []. set (cs := (Close (s_pool s)).1).
  change (close_pool s) with (mkSys (mkPool (maxIdle (s_pool s)) ∅ true) (s_calls s) (foldr delete (s_open s) cs) (s_next s)).
  assert (forall a, idle_at (mkPool (maxIdle (s_pool s)) ∅ true) a = []) as Hnone by (intros a; unfold idle_at; cbn; by rewrite lookup_empty).
  assert (forall x a, foldr delete (s_open s) cs !! x = Some a <-> s_open s !! x = Some a /\ x ∉ cs) as Hopen.
  { intros x a. rewrite foldr_delete_lookup. destruct (decide (x ∈ cs)); naive_solver. }
  split; cbn [s_pool s_calls s_open s_next]; intros *; rewrite ?Hnone, ?Hopen; eauto; try done.
  - by intros ?%elem_of_nil.
  - constructor.
  - intros Hi Ht. split; [eauto|]. unfold cs. rewrite idle_open. intros [a Ha]. by eapply ow_apart0.
  - intros _ _. apply not_elem_of_nil.
  - intros [Hx Hn]. destruct (ow_kept0 _ _ Hx) as [Hin|]; [|auto]. exfalso. apply Hn, idle_open. eauto.
  - intros [Hx _]. eauto.
  - cbn. lia.
Qed.

Lemma owned_step s s' : owned s -> step s s' -> owned s'.
Proof.
  intros Hs Hstep. destruct Hstep as [i addr s Hi|i h s s' Hc|s]; [|unfold call_step in Hc|by apply owned_closed].
  - apply owned_idle_call; [done|congruence|done].
  - destruct (s_calls s !! i) as [[addr at_]|] eqn:Ei; [|done].
    destruct at_ as [n|n|n c|]; destruct h as [| | | |rep|]; try done.
    + pose proof (get_spec addr (s_pool s)) as Hg. destruct (get addr (s_pool s)) as [[c| |] p]; injection Hc as <-.
      * destruct Hg as (Hcl & l & El & ->). apply owned_pooled; try done. intros t Ht. by simplify_eq.
      * destruct Hg as (_ & _ & ->). apply owned_idle_call; try done. intros t Ht. by simplify_eq.
      * destruct Hg as (_ & ->). apply owned_idle_call; try done. intros t Ht. by simplify_eq.
    + injection Hc as <-. apply owned_idle_call; try done. intros t Ht. by simplify_eq.
    + injection Hc as <-. apply owned_dialed; try done. intros t Ht. by simplify_eq.
    + injection Hc as <-. apply owned_idle_call; try done. intros t Ht. by simplify_eq.
    + injection Hc as <-. by eapply owned_dropped.
    + unfold put in Hc. destruct (closed (s_pool s)) eqn:Ecl; cbn [orb] in Hc; [injection Hc as <-; by eapply owned_dropped|].
      destruct (Z.leb_spec (maxIdle (s_pool s)) (Z.of_nat (length (idle_at (s_pool s) addr)))); injection Hc as <-;
        [by eapply owned_dropped|by eapply owned_returned].
    + injection Hc as <-. eapply owned_dropped; try done. by destruct n.
Qed.
Lemma owned_reachable max s : rtc step (init max) s -> owned s.
Proof. intros Hr. refine (rtc_ind_r (fun s => owned s) (init max) _ _ s Hr); [apply owned_init|eauto using owned_step]. Qed.
(** ** Schedules, as data *)
Inductive action := Begin (i : nat) (addr : bytes) | Move (i : nat) (h : outcome) | Shut.
Definition perform (a : action) (s : sys) : option sys :=
  match a with
  | Begin i addr => match s_calls s !! i with None => Some (call_begins i addr s) | Some _ => None end
  | Move i h => call_step i h s
  | Shut => Some (close_pool s)
  end.
Definition schedule (l : list action) (s : sys) : option sys := foldl (fun acc a => acc ≫= perform a) (Some s) l.
Lemma perform_step a s s' : perform a s = Some s' -> step s s'.
Proof.
  destruct a as [i addr|i h|]; cbn [perform].
  - destruct (s_calls s !! i) eqn:Ei; [done|]. intros [= <-]. by constructor.
  - intros Hc. by econstructor.
  - intros [= <-]. constructor.
Qed.
Lemma schedule_none l : foldl (fun acc a => acc ≫= perform a) None l = None.
Proof. by induction l. Qed.
Lemma schedule_steps l : forall s s', schedule l s = Some s' -> rtc step s s'.
Proof.
  unfold schedule. induction l as [|a l IH]; intros s s'; cbn [foldl mbind option_bind]; [intros [= <-]; constructor|].
  destruct (perform a s) as [s1|] eqn:Ea; [|by rewrite schedule_none]. intros Hl. eapply rtc_l; [by eapply perform_step|]. by apply IH.
Qed.

(** ** A call on its own, when some connections have gone stale

    A voter that restarted has dropped the connections to it; those still in the
    pool break when they are used, a new one does not. *)
Fixpoint alone (fuel : nat) (stale : conn -> bool) (rep : R) (i : nat) (s : sys) : option (res R) :=
  match fuel, s_calls s !! i with
  | S fuel, Some (mkThread _ at_) =>
      let after h := match call_step i h s with Some s' => alone fuel stale rep i s' | None => None end in
      match at_ with
      | Trying _ => after Proceeds
      | Dialing _ => after Dialed
      | Waiting _ c => after (if stale c then Broken else Replied rep)
      | Done r => Some r
      end
  | _, _ => None
  end.

(** The retry is not always on a fresh connection: a call fails when the last
    two idle connections are both stale, and succeeds otherwise. *)
Lemma stale_pair_fails (stale : conn -> bool) (rep : R) (i : nat) (addr : bytes) (s : sys) :
  s_calls s !! i = None -> closed (s_pool s) = false -> stale (s_next s) = false ->
  alone 6 stale rep i (call_begins i addr s) =
    Some (match rev (idle_at (s_pool s) addr) with
          | c :: d :: _ => if stale c && stale d then Err ErrForward else Ok rep
          | _ => Ok rep
          end).
Proof.
  intros Hi Hcl Hnew. set (p := s_pool s) in *.
  assert (forall fuel n c calls p o k, stale c = false -> alone (2 + fuel) stale rep i (mkSys p (<[i := mkThread addr (Waiting n c)]> calls) o k) = Some (Ok rep)) as Hgood.
  { intros fuel n c calls p0 o k Hc. cbn [Nat.add alone s_calls]. rewrite lookup_insert_eq, Hc. unfold call_step. cbn [s_calls s_pool].
    rewrite lookup_insert_eq. destruct (put addr c p0) as [close p1]. unfold goes. cbn [s_calls]. by rewrite lookup_insert_eq. }
  assert (forall fuel n calls p o k, closed p = false -> idle_at p addr = [] -> stale k = false ->
      alone (4 + fuel) stale rep i (mkSys p (<[i := mkThread addr (Trying n)]> calls) o k) = Some (Ok rep)) as Hdial.
  { intros fuel n calls p0 o k H0 E0 Hk. cbn [Nat.add]. do 2 (cbn [alone s_calls]; rewrite lookup_insert_eq; unfold call_step at 1; cbn [s_calls s_pool s_next s_open]; rewrite lookup_insert_eq;
      unfold get; rewrite ?H0, ?E0; cbn [last]; unfold goes; cbn [s_calls s_next s_open s_pool]). exact (Hgood fuel n k _ p0 _ (S k) Hk). }
  assert (forall fuel n l c calls p o k, closed p = false -> idle_at p addr = l ++ [c] ->
      alone (S fuel) stale rep i (mkSys p (<[i := mkThread addr (Trying n)]> calls) o k) =
      alone fuel stale rep i (mkSys (set_idle addr l p) (<[i := mkThread addr (Waiting n c)]> (<[i := mkThread addr (Trying n)]> calls)) o k)) as Hpool.
  { intros fuel n l c calls p0 o k H0 E0. cbn [alone s_calls]. rewrite lookup_insert_eq. unfold call_step. cbn [s_calls s_pool]. rewrite lookup_insert_eq.
    pose proof (get_spec addr p0) as Hg. destruct (get addr p0) as [[c'| |] p1]; [|destruct Hg as (_ & E1 & _); rewrite E0 in E1; by destruct l|by destruct Hg; congruence].
    destruct Hg as (_ & l' & E1 & ->). rewrite E0 in E1. apply app_inj_2 in E1 as [-> [= ->]]; done. }
  assert (forall fuel c calls p o k, stale c = true ->
      alone (S fuel) stale rep i (mkSys p (<[i := mkThread addr (Waiting 0 c)]> calls) o k) =
      alone fuel stale rep i (mkSys p (<[i := mkThread addr (Trying 1)]> (<[i := mkThread addr (Waiting 0 c)]> calls)) (delete c o) k)) as Hbad.
  { intros fuel c calls p0 o k Hc. cbn [alone s_calls]. rewrite lookup_insert_eq, Hc. unfold call_step. cbn [s_calls]. by rewrite lookup_insert_eq. }
  unfold call_begins, goes. fold p.
  destruct (idle_at p addr) as [|c l _] eqn:El using rev_ind; [apply (Hdial 2%nat); done|]. rewrite rev_app_distr. cbn [rev app].
  rewrite (Hpool _ _ _ _ _ _ _ _ Hcl El). destruct (stale c) eqn:Ec; [|rewrite (Hgood 3%nat) by done; by destruct (rev l)].
  rewrite Hbad by done. assert (idle_at (set_idle addr l p) addr = l) as El' by (rewrite idle_set; by rewrite decide_True).
  assert (closed (set_idle addr l p) = false) as Hcl' by done. set (p' := set_idle addr l p) in *. clearbody p'. clear El.
  destruct l as [|d l _] using rev_ind; [by apply (Hdial 0%nat)|]. rewrite rev_app_distr. cbn [rev app andb].
  rewrite (Hpool _ _ _ _ _ _ _ _ Hcl' El'). destruct (stale d) eqn:Ed; [|by apply (Hgood 1%nat)].
  cbn [alone s_calls]. rewrite lookup_insert_eq, Ed. unfold call_step. cbn [s_calls]. rewrite lookup_insert_eq. unfold goes. cbn [s_calls]. by rewrite lookup_insert_eq.
Qed.
End calls.
End Pool.
Import Pool.

(** C8: the connections of a pool are never shared, leaked or used after they
    were closed: whatever the interleaving of calls, broken connections, expired
    contexts and the closing of the pool, the open connections are exactly those
    in the idle list of their own address and those a call to that address is
    waiting on; an idle list has no connection twice and at most [maxIdle] of them,
    a connection a call waits on is in no idle list and belongs to no other call;
    and once the pool is closed and no call is waiting, every connection that was
    ever dialed is closed. *)
Theorem pool_ownership {R : Type} (max : Z) (s : @sys R) :
  rtc step (init max) s ->
  (forall c addr, s_open s !! c = Some addr <->
     c ∈ idle_at (s_pool s) addr \/ exists i n, s_calls s !! i = Some (mkThread addr (Waiting n c))) /\
  (forall addr, NoDup (idle_at (s_pool s) addr) /\ Z.of_nat (length (idle_at (s_pool s) addr)) <= maxIdle (s_pool s)) /\
  (forall i n addr c, s_calls s !! i = Some (mkThread addr (Waiting n c)) ->
     (forall a, c ∉ idle_at (s_pool s) a) /\ forall j m a, s_calls s !! j = Some (mkThread a (Waiting m c)) -> j = i) /\
  (closed (s_pool s) = true -> (forall i t, s_calls s !! i = Some t -> holds t = None) -> s_open s = ∅).
Proof.
  intros Hr. destruct (owned_reachable max s Hr). split_and!.
  - intros c addr. split.
    + intros Hc. destruct (ow_kept0 _ _ Hc) as [Hin|(i & [a at_] & Hi & Ht)]; [auto|]. right.
      pose proof (ow_held0 _ _ _ Hi Ht) as Ha. destruct at_; [done|done| |done]. cbn in *. simplify_eq. eauto.
    + intros [Hin|(i & n & Hi)]; [auto|]. by apply (ow_held0 _ _ _ Hi).
  - auto.
  - intros i n addr c Hi. split; [intros a; by eapply ow_apart0|]. intros j m a Hj. by eapply (ow_single0 j i).
  - intros Hcl Hno. apply map_eq. intros c. rewrite lookup_empty. destruct (s_open s !! c) as [addr|] eqn:Ec; [|done].
    destruct (ow_kept0 _ _ Ec) as [Hin|(i & t & Hi & Ht)].
    + unfold idle_at in Hin. rewrite (ow_closed0 Hcl), lookup_empty in Hin. by apply elem_of_nil in Hin.
    + specialize (Hno _ _ Hi). congruence.
Qed.

(** Two calls to one voter, the second on the connection of the first; the pool
    is closed while it waits. *)
Definition two_calls : list (@action unit) :=
  let voter := str "a:1" in
  [Begin 0 voter; Move 0 Proceeds; Move 0 Dialed; Move 0 (Replied tt);
   Begin 1 voter; Begin 2 voter; Move 1 Proceeds; Move 2 Proceeds; Move 2 Dialed; Move 1 (Replied tt); Shut; Move 2 (Replied tt)].
Definition after_two_calls : @sys unit := default (init 2) (schedule two_calls (init 2)).
Lemma pool_ownership_witness : s_next after_two_calls = 2%nat /\ s_open after_two_calls = ∅.
Proof.
  split; [vm_compute; reflexivity|].
  refine (proj2 (proj2 (proj2 (pool_ownership 2 after_two_calls (schedule_steps two_calls _ _ _)))) _ _).
  - vm_compute. reflexivity.
  - vm_compute. reflexivity.
  - intros i t Hi. apply elem_of_map_to_list in Hi.
    assert (Forall (fun e => holds e.2 = None) (map_to_list (s_calls after_two_calls))) as Hall by (vm_compute; repeat constructor).
    rewrite Forall_forall in Hall. exact (Hall _ Hi).
Defined.
