(* ===== verification/Node.v ===== *)
(** * Node: starting and stopping a cluster node

    src/cluster/node.go ([newNode], [Close], [forwardAddrMap], [addVoters],
    [waitForLeader]), config.go and [startForwardServer] of forward.go.  Starting
    a node opens a store, a log, a transport and so on, and each step can fail;
    what the operating system, the TLS files and Raft answer is the [world].  A
    [ledger] keeps the resources that are open, and whether one was closed that
    was not.

    [node_resources]: a node that fails to start, at whatever step, leaves nothing
    open, and one that starts holds exactly what its Close releases. *)
From S2P Require Import Prelude.

Module Node.

(** ** Configuration *)
Inductive Role := RoleVoter | RoleClient.
Record Peer := mkPeer { p_ID : bytes; p_RaftAddr : bytes; p_ForwardAddr : bytes }.
Record Config := mkConfig {
  NodeID : bytes;
  DataDir : bytes;
  BindAddr : bytes;
  ForwardAddr : bytes;
  role : Role;
  Bootstrap : bool;
  Peers : list Peer;
  TLS : bool;                            (* a TLSConfig is given *)
  ApplyTimeout : Z;
  SnapshotThreshold : Z;
  TrailingLogs : Z;
  SnapshotInterval : Z
}.
(** What the node sets of Raft's configuration. *)
Record RaftConfig := mkRaftConfig { rc_LocalID : bytes; rc_SnapshotThreshold : Z; rc_TrailingLogs : Z; rc_SnapshotInterval : Z }.
Definition raft_config (cfg : Config) (dflt : RaftConfig) : RaftConfig :=
  mkRaftConfig (NodeID cfg)
    (if 0 <? SnapshotThreshold cfg then SnapshotThreshold cfg else rc_SnapshotThreshold dflt)
    (if 0 <? TrailingLogs cfg then TrailingLogs cfg else rc_TrailingLogs dflt)
    (if 0 <? SnapshotInterval cfg then SnapshotInterval cfg else rc_SnapshotInterval dflt).
Definition defaultApplyTimeout : Z := 10000000000.
Definition apply_timeout (cfg : Config) : Z := if ApplyTimeout cfg <=? 0 then defaultApplyTimeout else ApplyTimeout cfg.

(** [forwardAddrMap]: this node, then the peers, a later entry replacing an
    earlier one. *)
Definition forwardAddrMap (cfg : Config) : gmap bytes bytes :=
  foldl (fun m p => <[p_ID p := p_ForwardAddr p]> m) {[ NodeID cfg := ForwardAddr cfg ]} (Peers cfg).

(** ** Resources *)
Inductive resource := RStore | RLog | RTransport | RRaft | RPool | RListener | RVoters.
#[global] Instance role_eq_dec : EqDecision Role.
Proof. solve_decision. Defined.
#[global] Instance resource_eq_dec : EqDecision resource.
Proof. solve_decision. Defined.
Record ledger := mkLedger { l_open : list resource; l_stray : bool }.
Definition nothing_open : ledger := mkLedger [] false.
Definition acquire (r : resource) (l : ledger) : ledger := mkLedger (r :: l_open l) (l_stray l).
Definition release (r : resource) (l : ledger) : ledger :=
  mkLedger (list_difference (l_open l) [r]) (l_stray l || bool_decide (r ∉ l_open l)).
Definition release_all (rs : list resource) (l : ledger) : ledger := foldl (fun l r => release r l) l rs.

(** Starting code: it threads the ledger and stops at the first error. *)
Definition boot (A : Type) : Type := ledger -> res A * ledger.
#[global] Instance boot_ret : MRet boot := fun A a l => (Ok a, l).
#[global] Instance boot_bind : MBind boot := fun A B f p l => match p l with (Ok a, l) => f a l | (Err e, l) => (Err e, l) end.
Definition opens (r : resource) : boot unit := fun l => (Ok tt, acquire r l).
(** A step that can fail, after which these are closed and the error returned. *)
Definition attempt (ok : bool) (closing : list resource) : boot unit :=
  fun l => if ok then (Ok tt, l) else (Err ErrNode, release_all closing l).

Definition refuse {A : Type} (e : error) : boot A := fun l => (Err e, l).

(** What happens outside. *)
Inductive bootstrap_outcome := Bootstrapped | CantBootstrap | BootstrapFails.
Record world := mkWorld {
  w_mkdir : bool;
  w_tls : bool;
  w_store : bool;
  w_format : bool;
  w_log : bool;
  w_snaps : bool;
  w_resolve : bool;
  w_transport : bool;
  w_raft : bool;
  w_register : bool;
  w_listen : bool;
  w_bootstrap : bootstrap_outcome;
  w_clock : nat -> Z;                     (* time since the start of the wait, at poll [k] *)
  w_leader : nat -> bool                  (* poll [k] sees a leader *)
}.

(** [waitForLeader]: a poll every 20 ms until the deadline. *)
Definition leaderWaitTimeout : Z := 15000000000.
Definition poll_pause : Z := 20000000.
Fixpoint waitForLeader (fuel : nat) (timeout : Z) (w : world) (k : nat) : res unit :=
  match fuel with
  | O => Err ErrOutOfFuel
  | S fuel => if w_clock w k <? timeout then if w_leader w k then Ok tt else waitForLeader fuel timeout w (S k) else Err ErrNode
  end.
(** More polls than fit before the deadline. *)
Definition wait_fuel : nat := 751.

Record node := mkNode { n_cfg : Config; n_listener : bool; n_voters : bool; n_forwardAddr : gmap bytes bytes; n_applyTimeout : Z }.
Definition holdings (n : node) : list resource :=
  (if n_voters n then [RVoters] else []) ++ (if n_listener n then [RListener] else []) ++ [RPool; RRaft; RTransport; RLog; RStore].
(** [Close]: stops the background work, then closes what is there; [fails] is the
    error closing a resource gives, and the first of them is returned. *)
Definition Close (n : node) (fails : resource -> option error) (l : ledger) : option error * ledger :=
  let closes := (if n_listener n then [RListener] else []) ++ [RPool; RRaft; RTransport; RLog; RStore] in
  let l := if n_voters n then release RVoters l else l in
  (head (omap fails closes), release_all closes l).

Definition closing {A : Type} (n : node) (e : error) : boot A := fun l => (Err e, (Close n (fun _ => None) l).2).

(** [if err := ...; err != nil { _ = n.Close(); return nil, err }] *)
Definition or_close {A : Type} (n : node) (p : boot A) : boot A := fun l => match p l with (Err e, l) => closing n e l | (Ok a, l) => (Ok a, l) end.

(** [startForwardServer] sets the node's listener. *)
Definition startForwardServer (w : world) (n : node) : boot node :=
  _ ← attempt (w_register w) [];
  _ ← attempt (w_listen w) [];
  _ ← opens RListener;
  mret (mkNode (n_cfg n) true (n_voters n) (n_forwardAddr n) (n_applyTimeout n)).

Definition newNode (cfg : Config) (w : world) : boot node :=
  if bool_decide (role cfg <> RoleVoter) then refuse ErrNotImplemented
  else if bool_decide (NodeID cfg = []) || bool_decide (DataDir cfg = []) || bool_decide (BindAddr cfg = []) || bool_decide (ForwardAddr cfg = [])
  then refuse ErrNode
  else
    _ ← attempt (w_mkdir w) [];
    _ ← attempt (negb (TLS cfg) || w_tls w) [];
    _ ← attempt (w_store w) [];
    _ ← opens RStore;
    _ ← attempt (w_format w) [RStore];
    _ ← attempt (w_log w) [RStore];
    _ ← opens RLog;
    _ ← attempt (w_snaps w) [RLog; RStore];
    _ ← attempt (w_resolve w) [RLog; RStore];
    _ ← attempt (w_transport w) [RLog; RStore];
    _ ← opens RTransport;
    _ ← attempt (w_raft w) [RTransport; RLog; RStore];
    _ ← opens RRaft;
    _ ← opens RPool;
    let n := mkNode cfg false false (forwardAddrMap cfg) (apply_timeout cfg) in
    n ← or_close n (startForwardServer w n);
    n ← (if Bootstrap cfg then
           match w_bootstrap w with
           | Bootstrapped => _ ← opens RVoters; mret (mkNode cfg (n_listener n) true (n_forwardAddr n) (n_applyTimeout n))
           | CantBootstrap => mret n
           | BootstrapFails => closing n ErrNode
           end
         else mret n);
    _ ← or_close n (fun l => (waitForLeader wait_fuel leaderWaitTimeout w 0, l));
    mret n.

(** The wait ends: a clock that advances by the pause at each poll passes the
    deadline within the fuel. *)
Lemma waitForLeader_total (w : world) :
  (forall k, poll_pause * Z.of_nat k <= w_clock w k) -> waitForLeader wait_fuel leaderWaitTimeout w 0 <> Err ErrOutOfFuel.
Proof.
  intros Hclock. enough (forall fuel k, (wait_fuel <= fuel + k)%nat -> (0 < fuel)%nat -> waitForLeader fuel leaderWaitTimeout w k <> Err ErrOutOfFuel) as Hw by (apply Hw; unfold wait_fuel; lia).
  induction fuel as [|fuel IH]; intros k Hk Hf; [lia|]. cbn [waitForLeader].
  destruct (Z.ltb_spec (w_clock w k) leaderWaitTimeout) as [Hlt|]; [|done]. destruct (w_leader w k); [done|]. apply IH; [lia|].
  specialize (Hclock k). unfold poll_pause, leaderWaitTimeout, wait_fuel in *. lia.
Qed.

(** ** Adding the voters *)

(** A round of the loop of the bootstrapping node: whether it is stopped before
    it, the members Raft's configuration shows, and whether it is stopped while
    waiting for the next. *)
Record round := mkRound { rd_stopped : bool; rd_members : option (list bytes); rd_interrupted : bool }.
Inductive loop_end := Returned | Stopped | Going.
Definition missing (cfg : Config) (present : list bytes) : list Peer := filter (fun p => p_ID p <> NodeID cfg /\ p_ID p ∉ present) (Peers cfg).
(** How the loop stands after the rounds, and the peers it has asked Raft to add. *)
Fixpoint addVoters (cfg : Config) (rounds : list round) : loop_end * list Peer :=
  match rounds with
  | [] => (Going, [])
  | r :: rounds =>
      if rd_stopped r then (Stopped, [])
      else
        let miss := match rd_members r with Some present => missing cfg present | None => [] end in
        match miss with
        | [] => (Returned, [])
        | _ => if rd_interrupted r then (Stopped, miss) else let '(e, asked) := addVoters cfg rounds in (e, miss ++ asked)
        end
  end.
(** The loop returns on its own only in a round whose configuration has every
    peer, or could not be read. *)
Lemma addVoters_returns cfg rounds asked :
  addVoters cfg rounds = (Returned, asked) ->
  exists r, r ∈ rounds /\ (rd_members r = None \/ exists present, rd_members r = Some present /\ forall p, p ∈ Peers cfg -> p_ID p = NodeID cfg \/ p_ID p ∈ present).
Proof.
  revert asked. induction rounds as [|r rounds IH]; intros asked; cbn [addVoters]; [done|]. destruct (rd_stopped r); [done|].
  destruct (rd_members r) as [present|] eqn:Em; [|intros _; exists r; split; [left|by left]].
  destruct (missing cfg present) as [|p ps] eqn:Ep.
  - intros _. exists r. split; [left|]. right. exists present. split; [done|]. intros p Hp.
    destruct (decide (p_ID p = NodeID cfg)); [by left|]. destruct (decide (p_ID p ∈ present)); [by right|].
    assert (p ∈ missing cfg present) as Hin by (apply list_elem_of_filter; done). rewrite Ep in Hin. by apply elem_of_nil in Hin.
  - destruct (rd_interrupted r); [done|]. destruct (addVoters cfg rounds) as [e asked'] eqn:E. intros [= -> _].
    destruct (IH _ eq_refl) as (r' & Hr' & Hm). exists r'. split; [by right|done].
Qed.
(** A round that cannot read the configuration ends the loop, whoever is missing. *)
Lemma addVoters_gives_up cfg interrupted rounds : addVoters cfg (mkRound false None interrupted :: rounds) = (Returned, []).
Proof. done. Qed.

Lemma forwardAddrMap_peer cfg p : NoDup (p_ID <$> Peers cfg) -> p ∈ Peers cfg -> forwardAddrMap cfg !! p_ID p = Some (p_ForwardAddr p).
Proof.
  unfold forwardAddrMap. generalize ({[NodeID cfg := ForwardAddr cfg]} : gmap bytes bytes) as m. induction (Peers cfg) as [|q ps IH]; intros m Hnd Hp; [by apply elem_of_nil in Hp|].
  cbn [fmap list_fmap] in Hnd. apply NoDup_cons in Hnd as [Hq Hnd]. cbn [foldl]. apply elem_of_cons in Hp as [->|Hp]; [|by apply IH].
  clear IH Hnd. assert (<[p_ID q := p_ForwardAddr q]> m !! p_ID q = Some (p_ForwardAddr q)) as Hm by apply lookup_insert_eq.
  revert Hm. generalize (<[p_ID q := p_ForwardAddr q]> m) as m'. clear m. induction ps as [|r ps IH]; intros m' Hm; cbn [foldl]; [done|].
  cbn [fmap list_fmap] in Hq. apply not_elem_of_cons in Hq as [Hne Hq]. apply IH; [done|]. by rewrite lookup_insert_ne.
Qed.
End Node.
Import Node.

(** C37: starting a cluster node leaks nothing.  Whatever the configuration, the
    operating system, the TLS files and Raft answer: when the node does not start,
    at whichever step, everything opened on the way is closed again, nothing twice;
    when it starts, exactly the resources its Close releases are open, and Close
    releases all of them, once each, even when closing some of them fails. *)
Theorem node_resources (cfg : Config) (w : world) :
  match newNode cfg w nothing_open with
  | (Err _, l) => l = nothing_open
  | (Ok n, l) => l_open l ≡ₚ holdings n /\ l_stray l = false /\ forall fails, (Close n fails l).2 = nothing_open
  end.
Proof.
  unfold newNode. destruct (bool_decide (role cfg <> RoleVoter)); [done|]. destruct (_ || _); [done|].
  destruct w as [mk tls st fm lg sn rs tr rf rg ls bo ck ld]. cbn [w_mkdir w_tls w_store w_format w_log w_snaps w_resolve w_transport w_raft].
  unfold mbind, boot_bind. unfold attempt, opens.
  destruct mk; [|done]. destruct (negb (TLS cfg) || tls); [|done]. destruct st; [|done]. destruct fm; [|done]. destruct lg; [|done]. destruct sn; [|done].
  destruct rs; [|done]. destruct tr; [|done]. destruct rf; [|done].
  unfold or_close, startForwardServer, mbind, boot_bind, attempt, opens. cbn [w_register w_listen w_bootstrap].
  destruct rg; [|done]. destruct ls; [|done].
  destruct (Bootstrap cfg); [destruct bo|]; try done; cbv [mret boot_ret]; (destruct (waitForLeader _ _ _ _); [|done]); (split; [reflexivity|split; [done|done]]).
Qed.
