(* ===== verification/ScansOk.v ===== *)
(** * ScansOk: every scan of the program starts at or after its prefix

    An engine promises its scans only for a start that is not below the prefix
    (class TxnLaws of Storage.v).  Every transaction program of the graph layer
    and of the executor keeps to that, so the theorems that carry results from
    the reference store to an engine apply to whole queries. *)
From S2P Require Import Prelude Float64 FloatArith Values Ast Plan Scalars Text IndexCodec Keys Records Storage Catalog Graph Context Functions Eval.
From S2P Require Import Shortest Aggregate Expand Write StableSort RangeScan Tables Ddl Operators.
Import Ast Scalars Text Context Functions Eval Shortest Aggregate Expand Write StableSort Operators.

Module ScansOk.

(** ** Programs *)
Lemma scans_bind {A B : Type} (p : prog A) (f : A -> prog B) : scans_ok p -> (forall a, scans_ok (f a)) -> scans_ok (p ≫= f).
Proof. intros Hp Hf. induction p as [a|e|key k IH|key val k IH|key k IH|pr st k IH]; cbn in *; naive_solver. Qed.
Lemma scans_lift {A : Type} (r : res A) : scans_ok (lift r).
Proof. by destruct r. Qed.
Lemma scans_Scan prefix : scans_ok (Scan prefix).
Proof. split; [reflexivity|done]. Qed.
Lemma scans_ScanFrom prefix start : ble prefix start -> scans_ok (ScanFrom prefix start).
Proof. by split. Qed.
Lemma scans_for_each {A : Type} (f : A -> prog unit) l : (forall x, scans_ok (f x)) -> scans_ok (for_each f l).
Proof. intros Hf. induction l as [|x l IH]; [done|]. by apply scans_bind. Qed.
Lemma scans_map_prog {A B : Type} (f : A -> prog B) l : (forall x, scans_ok (f x)) -> scans_ok (map_prog f l).
Proof. intros Hf. induction l as [|x l IH]; [done|]. apply scans_bind; [done|]. intros y. by apply scans_bind. Qed.
Lemma scans_fold_prog {A B : Type} (f : B -> A -> prog B) b l : (forall b x, scans_ok (f b x)) -> scans_ok (fold_prog f b l).
Proof. intros Hf. revert b. induction l as [|x l IH]; intros b; [done|]. by apply scans_bind. Qed.
Lemma scans_try {A : Type} (p : prog A) : scans_ok p -> scans_ok (try p).
Proof. induction p as [a|e|key k IH|key val k IH|key k IH|pr st k IH]; cbn in *; naive_solver. Qed.

(** ** Computations *)
Section computations.
Context `{Runtime}.
Definition mscans {A : Type} (m : M A) : Prop := forall c, scans_ok (m c).
Lemma mscans_bind {A B : Type} (m : M A) (f : A -> M B) : mscans m -> (forall a, mscans (f a)) -> mscans (m ≫= f).
Proof. intros Hm Hf c. apply scans_bind; [apply Hm|]. intros [[a|e] c']; [apply Hf|done]. Qed.
Lemma mscans_txn {A : Type} (p : prog A) : scans_ok p -> mscans (txn p).
Proof. intros Hp c. apply scans_bind; [by apply scans_try|done]. Qed.
Lemma mscans_mapM {A B : Type} (f : A -> M B) l : (forall x, mscans (f x)) -> mscans (mapM f l).
Proof. intros Hf. induction l as [|x l IH]; [done|]. apply mscans_bind; [done|]. intros y. by apply mscans_bind. Qed.
Lemma mscans_foldM {A B : Type} (f : B -> A -> M B) b l : (forall b x, mscans (f b x)) -> mscans (foldM f b l).
Proof. intros Hf. revert b. induction l as [|x l IH]; intros b; [done|]. by apply mscans_bind. Qed.
End computations.
Create HintDb scans_db.
#[export] Hint Resolve scans_lift scans_Scan : scans_db.

(** Open a program: binds, loops and cases, and the definitions in the way. *)
Ltac head_of t := lazymatch t with ?f _ => head_of f | _ => t end.
Ltac unfold_head t := let h := head_of t in unfold h.
Ltac scans_step :=
  cbv beta iota zeta;
  lazymatch goal with
  | |- forall _, _ => intros ?
  | |- scans_ok (PRet _) => exact I
  | |- scans_ok (PThrow _) => exact I
  | |- scans_ok (mret _) => exact I
  | |- scans_ok (throw _) => exact I
  | |- scans_ok (PGet _ _) => intros ?
  | |- scans_ok (PSet _ _ ?k) => change (scans_ok k)
  | |- scans_ok (PDelete _ ?k) => change (scans_ok k)
  | |- scans_ok (_ ≫= _) => apply scans_bind
  | |- scans_ok (for_each _ _) => apply scans_for_each
  | |- scans_ok (map_prog _ _) => apply scans_map_prog
  | |- scans_ok (fold_prog _ _ _) => apply scans_fold_prog
  | |- scans_ok (match ?x with _ => _ end) => destruct x
  | |- scans_ok (?m ?c) => first [solve [eauto with scans_db nocore] | let T := type of c in unify T Context; refine ((_ : mscans m) c) | unfold_head m]
  | |- mscans (mret _) => intros ?; exact I
  | |- mscans (fail _) => intros ?; exact I
  | |- mscans (_ ≫= _) => apply mscans_bind
  | |- mscans (txn _) => apply mscans_txn
  | |- mscans (mapM _ _) => apply mscans_mapM
  | |- mscans (foldM _ _ _) => apply mscans_foldM
  | |- mscans (match ?x with _ => _ end) => destruct x
  | |- mscans (fun _ => _) => unfold mscans; intros ?
  | |- mscans ?m => first [solve [eauto with scans_db nocore] | unfold_head m]
  | |- scans_ok ?p => first [solve [eauto with scans_db nocore] | unfold_head p]
  end.
Ltac scans := repeat (first [assumption | scans_step]).

(** ** The catalog and the graph *)
Lemma scans_internDict fwd kind name : scans_ok (internDict fwd kind name).
Proof. scans. Qed.
Lemma scans_GetNode id : scans_ok (GetNode id).
Proof. scans. Qed.
Lemma scans_GetEdge id : scans_ok (GetEdge id).
Proof. scans. Qed.
#[export] Hint Resolve scans_internDict scans_GetNode scans_GetEdge : scans_db.
Lemma scans_putPropEntry label key v n : scans_ok (putPropEntry label key v n).
Proof. scans. Qed.
Lemma scans_delPropEntry label key v n : scans_ok (delPropEntry label key v n).
Proof. scans. Qed.
#[export] Hint Resolve scans_putPropEntry scans_delPropEntry : scans_db.
Lemma scans_intern_new names : forall existing added, scans_ok (intern_new existing added names).
Proof. induction names as [|x names IH]; intros existing added; [done|]. cbn [intern_new]. scans. Qed.
#[export] Hint Resolve scans_intern_new : scans_db.
Lemma scans_range_next fuel : forall segs c, scans_ok (RangeScan.range_next fuel segs c).
Proof. induction fuel as [|fuel IH]; intros segs c; cbn [RangeScan.range_next]; scans. Qed.
#[export] Hint Resolve scans_range_next : scans_db.
Lemma scans_find_constraint name defs : scans_ok (find_constraint name defs).
Proof. induction defs as [|d defs IH]; cbn [find_constraint]; scans. Qed.
#[export] Hint Resolve scans_find_constraint : scans_db.

Section updates.
Context `{MapOrder}.
Lemma scans_DeleteEdge id : scans_ok (DeleteEdge id).
Proof. scans. Qed.
Lemma scans_CreateNode labels props : scans_ok (CreateNode labels props).
Proof. scans. Qed.
Lemma scans_CreateEdge typ src dst props : scans_ok (CreateEdge typ src dst props).
Proof. scans. Qed.
Lemma scans_SetProperty n key v : scans_ok (SetProperty n key v).
Proof. scans. Qed.
Lemma scans_RemoveProperty n key : scans_ok (RemoveProperty n key).
Proof. scans. Qed.
Lemma scans_AddLabels n labels : scans_ok (AddLabels n labels).
Proof. scans. Qed.
Lemma scans_RemoveLabels n labels : scans_ok (RemoveLabels n labels).
Proof. scans. Qed.
Lemma scans_SetNodeProperties n props replace : scans_ok (SetNodeProperties n props replace).
Proof. scans. Qed.
Lemma scans_DeleteNode n : scans_ok (DeleteNode n).
Proof. scans. Qed.
Lemma scans_DetachDeleteNode n : scans_ok (DetachDeleteNode n).
Proof. scans. Qed.
Lemma scans_NodesByProperty l k v : scans_ok (NodesByProperty l k v).
Proof. scans. Qed.
Lemma scans_EdgesByProperty l k v : scans_ok (EdgesByProperty l k v).
Proof. scans. Qed.
Lemma scans_schema name label prop b : scans_ok (createIndex name label prop) /\ scans_ok (createRelIndex name label prop) /\ scans_ok (dropIndex name b) /\
  scans_ok (createConstraint name label prop) /\ scans_ok (dropConstraint name b).
Proof. split_and!; scans. Qed.
End updates.
#[export] Hint Resolve scans_CreateNode scans_CreateEdge scans_SetProperty scans_RemoveProperty scans_AddLabels scans_RemoveLabels
  scans_SetNodeProperties scans_DeleteEdge scans_DeleteNode scans_DetachDeleteNode scans_NodesByProperty scans_EdgesByProperty : scans_db.

(** ** Range scans: every band starts inside its prefix *)
Definition band_ok (p : RangeScan.bandPlan) : Prop := ble (RangeScan.bp_prefix p) (RangeScan.bp_start p).
Lemma band_prefix l k v p :
  match v with VInt _ | VFloat _ | VStr _ => True | _ => False end -> PropPrefix l k v = Ok p ->
  ble (PropBandPrefix l k (match v with VInt _ => BandInt | VFloat _ => BandFloat | _ => BandString end)) p.
Proof.
  unfold PropPrefix, PropBandPrefix, AppendIndexValue. destruct v; try done; intros _ [= <-].
  all: apply ble_prefix, has_prefix_spec; eexists; unfold appendOrderedString; rewrite <- !app_assoc; reflexivity.
Qed.
Lemma bounds_kind_keeps bs : forall kind s, kind <> [] -> RangeScan.bounds_kind kind bs = Some s -> s = kind.
Proof.
  induction bs as [|[v []] bs IH]; intros kind s Hk; cbn [RangeScan.bounds_kind negb]; [by intros [= <-]| |by apply IH].
  destruct (bool_decide (RangeScan.valueKind v = [])) eqn:E1; [done|]. rewrite (bool_decide_false (kind = [])) by done. cbn [orb andb negb].
  destruct (bool_decide (RangeScan.valueKind v = kind)) eqn:E2; [|done]. apply bool_decide_eq_true in E2 as ->. by apply IH.
Qed.
Lemma bounds_kind_first v bs s : RangeScan.bounds_kind [] ((v, true) :: bs) = Some s -> RangeScan.valueKind v = s.
Proof.
  cbn [RangeScan.bounds_kind negb]. destruct (bool_decide (RangeScan.valueKind v = [])) eqn:E1; [done|]. rewrite bool_decide_true by done. cbn [orb andb negb].
  intros E%bounds_kind_keeps; [done|]. by apply bool_decide_eq_false in E1.
Qed.
Lemma int_band_ok l k r lo hi b : RangeScan.intBand (PropBandPrefix l k BandInt) l k r lo hi = Ok b -> band_ok b.
Proof.
  unfold RangeScan.intBand. destruct (if RangeScan.HasLower r then _ else _) as [x|]; cbn [mbind res_bind]; [|intros [= <-]; unfold band_ok; cbn; reflexivity].
  destruct (PropPrefix l k (VInt x)) as [p|] eqn:Ep; [|done]. cbn [mbind res_bind]. intros [= <-]. by apply (band_prefix l k (VInt x)).
Qed.
Lemma float_band_ok l k r lo hi b : RangeScan.floatBand (PropBandPrefix l k BandFloat) l k r lo hi = Ok b -> band_ok b.
Proof.
  unfold RangeScan.floatBand. destruct (if RangeScan.HasLower r then _ else _) as [[x exact]|]; cbn [mbind res_bind]; [|intros [= <-]; unfold band_ok; cbn; reflexivity].
  match goal with |- context [if ?c then Ok _ else _] => destruct c end; cbn [mbind res_bind]; [intros [= <-]; unfold band_ok; cbn; reflexivity|].
  match goal with |- context [PropPrefix l k (VFloat ?y)] => destruct (PropPrefix l k (VFloat y)) as [p|] eqn:Ep; [|done]; cbn [mbind res_bind]; intros [= <-]; by apply (band_prefix l k (VFloat y)) end.
Qed.
Lemma bands_ok l k r plans : RangeScan.rangeBands l k r = Ok (Some plans) -> Forall band_ok plans.
Proof.
  unfold RangeScan.rangeBands. destruct (RangeScan.HasPrefix r); [intros [= <-]; repeat constructor; unfold band_ok; cbn; reflexivity|].
  destruct (RangeScan.bounds_kind _ _) as [kind|] eqn:Ek; [|done].
  destruct (kind =s "string") eqn:Es.
  - apply bool_decide_eq_true in Es as ->. destruct (RangeScan.HasLower r) eqn:Hl.
    + assert (exists t, normalize (RangeScan.Lower r) = VStr t) as [t Et].
      { apply bounds_kind_first in Ek. destruct (normalize (RangeScan.Lower r)); cbn in Ek; repeat case_match; try discriminate Ek; eauto. }
      rewrite Et. destruct (PropPrefix l k (VStr t)) as [p|] eqn:Ep; [|done]. cbn. intros [= <-]. repeat constructor. by apply (band_prefix l k (VStr t)).
    + cbn. intros [= <-]. repeat constructor. unfold band_ok. cbn. reflexivity.
  - destruct (kind =s "bool"); [intros [= <-]; repeat constructor; unfold band_ok; cbn; reflexivity|].
    destruct (RangeScan.intBand _ _ _ _ _ _) as [ib|] eqn:Ei; [|done]. destruct (RangeScan.floatBand _ _ _ _ _ _) as [fb|] eqn:Ef; [|done].
    cbn. intros [= <-]. repeat constructor; [by eapply int_band_ok|by eapply float_band_ok].
Qed.
Lemma scans_ScanPropertyRange l k r : scans_ok (RangeScan.ScanPropertyRange l k r).
Proof.
  unfold RangeScan.ScanPropertyRange. destruct (RangeScan.rangeBands l k r) as [[plans|]|] eqn:E; [|done|done].
  change (mbind ?f (lift (Ok ?x))) with (f x). cbv beta iota. apply scans_bind; [|done]. apply bands_ok in E.
  induction E as [|p plans Hp _ IH]; [done|]. cbn [map_prog]. apply scans_bind; [apply scans_bind; [by apply scans_ScanFrom|done]|].
  intros y. by apply scans_bind.
Qed.
#[export] Hint Resolve scans_ScanPropertyRange : scans_db.

Section lookups.
Context `{Runtime, MapOrder}.
Lemma scans_resolve_types names : scans_ok (resolve_types names).
Proof. induction names as [|x names IH]; cbn [resolve_types]; scans. Qed.
Lemma scans_resolveLabels names : scans_ok (resolveLabels names).
Proof. induction names as [|x names IH]; cbn [resolveLabels]; scans. Qed.
End lookups.
#[export] Hint Resolve scans_resolve_types scans_resolveLabels : scans_db.

(** ** Programs that only read *)
Fixpoint reads_only {A : Type} (p : prog A) : Prop :=
  match p with
  | PRet _ | PThrow _ => True
  | PGet _ k => forall o, reads_only (k o)
  | PScan _ _ k => forall l, reads_only (k l)
  | PSet _ _ _ | PDelete _ _ => False
  end.
Lemma reads_only_bind {A B : Type} (p : prog A) (f : A -> prog B) : reads_only p -> (forall a, reads_only (f a)) -> reads_only (p ≫= f).
Proof. intros Hp Hf. induction p as [a|e|key k IH|key val k IH|key k IH|pr st k IH]; cbn in *; auto. Qed.
Lemma reads_only_lift {A : Type} (r : res A) : reads_only (lift r).
Proof. by destruct r. Qed.
Lemma reads_only_for_each {A : Type} (f : A -> prog unit) l : (forall x, reads_only (f x)) -> reads_only (for_each f l).
Proof. intros Hf. induction l as [|x l IH]; [done|]. by apply reads_only_bind. Qed.
Lemma reads_only_map_prog {A B : Type} (f : A -> prog B) l : (forall x, reads_only (f x)) -> reads_only (map_prog f l).
Proof. intros Hf. induction l as [|x l IH]; [done|]. apply reads_only_bind; [done|]. intros y. by apply reads_only_bind. Qed.
Lemma reads_only_fold_prog {A B : Type} (f : B -> A -> prog B) b l : (forall b x, reads_only (f b x)) -> reads_only (fold_prog f b l).
Proof. intros Hf. revert b. induction l as [|x l IH]; intros b; [done|]. by apply reads_only_bind. Qed.
Lemma reads_only_try {A : Type} (p : prog A) : reads_only p -> reads_only (try p).
Proof. induction p as [a|e|key k IH|key val k IH|key k IH|pr st k IH]; cbn in *; auto. Qed.
Create HintDb reads_only_db.
Ltac reads_step :=
  lazymatch goal with
  | |- forall _, _ => intros ?
  | |- reads_only (mret _) => exact I
  | |- reads_only (lift _) => apply reads_only_lift
  | |- reads_only (_ ≫= _) => apply reads_only_bind
  | |- reads_only (match ?x with _ => _ end) => destruct x
  | |- reads_only (throw _) => exact I
  | |- reads_only (PRet _) => exact I
  | |- reads_only (PThrow _) => exact I
  | |- reads_only (PGet _ _) => intros ?
  | |- reads_only (PScan _ _ _) => intros ?
  | |- reads_only (for_each _ _) => apply reads_only_for_each
  | |- reads_only (map_prog _ _) => apply reads_only_map_prog
  | |- reads_only (fold_prog _ _ _) => apply reads_only_fold_prog
  | |- reads_only ?p => first [solve [eauto with reads_only_db nocore] | unfold_head p]
  end.
Ltac reads := repeat (first [assumption | progress cbv beta iota zeta | reads_step]).

Section read_lookups.
Context `{Runtime, MapOrder}.
Lemma reads_only_resolve_types names : reads_only (resolve_types names).
Proof. induction names as [|x names IH]; cbn [resolve_types]; reads. Qed.
Lemma reads_only_resolveLabels names : reads_only (resolveLabels names).
Proof. induction names as [|x names IH]; cbn [resolveLabels]; reads. Qed.
Lemma reads_only_range_next fuel : forall segs c, reads_only (RangeScan.range_next fuel segs c).
Proof. induction fuel as [|fuel IH]; intros segs c; cbn [RangeScan.range_next]; reads. Qed.
End read_lookups.
#[export] Hint Resolve reads_only_resolve_types reads_only_resolveLabels reads_only_range_next : reads_only_db.
End ScansOk.
