(* ===== verification/Effects.v ===== *)
(** * Effects: what a query can do to the database

    Everything the executor runs (src/internal/exec) is made of two things: reads,
    and the operations of the graph layer and the schema statements.  [quiet] are
    the computations that only read (expression evaluation, the read operators,
    building the operator tree); [Closed] is the interface of a property that holds
    of those and is kept by sequencing, and [Run_closed] carries such a property
    from the graph operations to whole queries.

    Two instances: the scans of a query are in order ([mscans], used to carry
    queries to storage engines), and the effect of a query is a sequence of graph
    operations ([acts]), from which a database that was built by operations stays
    one, whatever is asked of it (EffectClaims.v). *)
From S2P Require Import Prelude Float64 FloatArith Values Ast Plan Scalars Text IndexCodec Keys Records Storage Catalog Graph Context Functions Eval.
From S2P Require Import Shortest Aggregate Expand Write StableSort RangeScan Tables GraphInv NodeOps NodeUpdates EdgeOps Ddl History Operators ScansOk.
Import Ast Scalars Text Context Functions Eval Shortest Aggregate Expand Write StableSort Operators ScansOk.

Module Effects.

(** ** Computations that only read *)
Section computations.
Context `{Runtime}.
Definition quiet {A : Type} (m : M A) : Prop := forall c, scans_ok (m c) /\ reads_only (m c).
Lemma quiet_pure {A : Type} (f : Context -> res A * Context) : quiet (fun c => PRet (f c)).
Proof. by intros c. Qed.
Lemma quiet_bind {A B : Type} (m : M A) (f : A -> M B) : quiet m -> (forall a, quiet (f a)) -> quiet (m ≫= f).
Proof.
  intros Hm Hf c. split; [apply scans_bind|apply reads_only_bind]; try apply Hm; intros [[a|e] c']; try done; apply Hf.
Qed.
Lemma quiet_txn {A : Type} (p : prog A) : scans_ok p -> reads_only p -> quiet (txn p).
Proof. intros Hs Hr c. split; [apply scans_bind|apply reads_only_bind]; [by apply scans_try|done|by apply reads_only_try|done]. Qed.
Lemma quiet_mapM {A B : Type} (f : A -> M B) l : (forall x, quiet (f x)) -> quiet (mapM f l).
Proof. intros Hf. induction l as [|x l IH]; [done|]. apply quiet_bind; [done|]. intros y. by apply quiet_bind. Qed.
Lemma quiet_foldM {A B : Type} (f : B -> A -> M B) b l : (forall b x, quiet (f b x)) -> quiet (foldM f b l).
Proof. intros Hf. revert b. induction l as [|x l IH]; intros b; [done|]. by apply quiet_bind. Qed.
Lemma quiet_or_null (m : M value) : quiet m -> quiet (or_null m).
Proof. intros Hm c. split; [apply scans_bind|apply reads_only_bind]; try apply Hm; by intros [[a|e] c']. Qed.
End computations.
Create HintDb quiet_db.

Ltac quiets_step :=
  cbv beta iota zeta;
  lazymatch goal with
  | |- forall _, _ => intros ?
  | |- quiet (mret _) => intros ?; by split
  | |- quiet (fail _) => intros ?; by split
  | |- quiet (fun _ => PRet _) => apply quiet_pure
  | |- quiet (_ ≫= _) => apply quiet_bind
  | |- quiet (txn _) => apply quiet_txn; [solve [scans]|solve [reads]]
  | |- quiet (mapM _ _) => apply quiet_mapM
  | |- quiet (foldM _ _ _) => apply quiet_foldM
  | |- quiet (or_null _) => apply quiet_or_null
  | |- quiet (match ?x with _ => _ end) => destruct x
  | |- quiet ?m => first [solve [eauto with quiet_db nocore] | unfold_head m]
  end.
Ltac quiets := repeat (first [assumption | quiets_step]).

(** ** Expressions *)
Section queries.
Context `{Runtime, MapOrder}.

Lemma quiet_mapM_id {A : Type} (l : list (M A)) : Forall quiet l -> quiet (mapM id l).
Proof. induction 1 as [|m l Hm _ IH]; [done|]. apply quiet_bind; [done|]. intros y. by apply quiet_bind. Qed.
Lemma scalarFuncs_quiet : Forall (fun e => forall args, quiet (e.2 args)) scalarFuncs.
Proof. unfold scalarFuncs. repeat (constructor; [intros args; cbn [snd]; quiets|]). constructor. Qed.
Lemma quiet_call name args : Forall quiet args -> quiet (evalFunctionCall name args).
Proof.
  intros Hargs. unfold evalFunctionCall, lookup_func. destruct (isAggregateName name); [quiets|].
  destruct (find _ scalarFuncs) as [e|] eqn:E; cbn; [|quiets]. apply quiet_bind; [by apply quiet_mapM_id|]. intros vs.
  apply find_some in E as [Hin _]. pose proof scalarFuncs_quiet as Hf. rewrite Forall_forall in Hf. by apply Hf, list_elem_of_In.
Qed.
Lemma quiet_labels_loop ls names : quiet (labels_loop ls names).
Proof. induction names as [|x names IH]; cbn [labels_loop]; quiets. Qed.
Lemma quiet_whens test ws els : Forall (fun w : M value * M value => quiet w.1 /\ quiet w.2) ws -> quiet els -> quiet (whens_loop test ws els).
Proof. intros Hw He. induction Hw as [|[c r] ws [Hc Hr] _ IH]; cbn [whens_loop]; [done|]. cbn in *. quiets. Qed.
Lemma quiet_iter {A : Type} (fn : binding -> value -> A -> M (bool * A)) v items : (forall b x a, quiet (fn b x a)) ->
  forall row acc, quiet (iter_loop fn v row items acc).
Proof. intros Hf. induction items as [|x items IH]; intros row acc; cbn [iter_loop]; quiets. Qed.
Lemma quiet_iterList {A : Type} (l : M value) (v : bytes) (b : binding) (fn : binding -> value -> A -> M (bool * A)) acc : quiet l -> (forall b x a, quiet (fn b x a)) ->
  quiet (iterList l v b fn acc).
Proof. intros Hl Hf. unfold iterList. apply quiet_bind; [done|]. intros x. destruct x; quiets; by apply quiet_iter. Qed.
Lemma quiet_quantifier (kind : bytes) (l : M value) (v : bytes) (b : binding) (where_ : binding -> M value) : quiet l -> (forall b, quiet (where_ b)) -> quiet (evalQuantifier kind l v b where_).
Proof.
  intros Hl Hw. unfold evalQuantifier. apply quiet_bind; [apply quiet_iterList; [done|]|quiets]. intros b' x a. apply quiet_bind; [apply Hw|quiets].
Qed.
Definition opt_quiet (o : option (M value)) : Prop := forall m, o = Some m -> quiet m.
Definition fun_quiet (o : option (binding -> M value)) : Prop := forall f, o = Some f -> forall b, quiet (f b).
Lemma quiet_comprehension (l : M value) (v : bytes) (b : binding) w m : quiet l -> fun_quiet w -> fun_quiet m -> quiet (evalListComprehension l v b w m).
Proof.
  intros Hl Hw Hm. unfold evalListComprehension. apply quiet_bind; [apply quiet_iterList; [done|]|quiets]. intros b' x a.
  destruct w as [w|]; [pose proof (Hw w eq_refl)|]; (destruct m as [m|]; [pose proof (Hm m eq_refl)|]); quiets; auto.
Qed.
Lemma quiet_case o ws els : opt_quiet o -> Forall (fun w : M value * M value => quiet w.1 /\ quiet w.2) ws -> opt_quiet els -> quiet (evalCase o ws els).
Proof.
  intros Ho Hw He. assert (quiet (default (mret VNull) els)) as Hd by (destruct els as [m|]; [by apply He|quiets]).
  unfold evalCase. destruct o as [m|]; [apply quiet_bind; [by apply Ho|intros x]|]; by apply quiet_whens.
Qed.
Lemma quiet_slice t f o : quiet t -> opt_quiet f -> opt_quiet o -> quiet (evalSlice t f o).
Proof.
  intros Ht Hf Ho. destruct f as [f|]; [pose proof (Hf f eq_refl)|]; (destruct o as [o|]; [pose proof (Ho o eq_refl)|]); quiets.
Qed.
Lemma quiet_eval e : forall b, quiet (eval e b).
Proof.
  induction e using expr_ind'; intros b; cbn [eval].
  - quiets.
  - quiets.
  - quiets.
  - quiets; apply IHe.
  - quiets; apply IHe.
  - specialize (IHe1 b). specialize (IHe2 b). quiets.
  - apply quiet_call, Forall_fmap. eapply Forall_impl; [done|]. intros x Hx. apply Hx.
  - specialize (IHe b). unfold evalLabels. quiets; apply quiet_labels_loop.
  - apply quiet_bind; [|quiets]. apply quiet_mapM_id, Forall_fmap. eapply Forall_impl; [done|]. intros x Hx. apply Hx.
  - apply quiet_bind; [|quiets]. match goal with |- quiet (mapM ?f ?l) => assert (Forall (fun e : bytes * M value => quiet e.2) l) as Hl end.
    { apply Forall_forall. intros [k v] Hin%range_over_elem. apply list_elem_of_fmap in Hin as ([k' x] & [= -> ->] & Hin). rewrite Forall_forall in H1. by apply (H1 (k', x)). }
    revert Hl. generalize (range_over order_keys ((fun e => (e.1, eval e.2 b)) <$> m)). intros l Hl.
    induction Hl as [|[k v] l Hv _ IH]; [by intros c|]. cbn [mapM]. apply quiet_bind; [apply quiet_bind; [exact Hv|quiets]|]. intros y. apply quiet_bind; [exact IH|quiets].
  - apply quiet_case.
    + destruct o as [x|]; intros m [= <-]. by apply H1.
    + apply Forall_fmap. eapply Forall_impl; [done|]. intros w [H1' H2']. split; [apply H1'|apply H2'].
    + destruct e as [x|]; intros m [= <-]. by apply H3.
  - specialize (IHe1 b). specialize (IHe2 b). quiets.
  - apply quiet_comprehension; [apply IHe| |].
    + destruct w as [x|]; intros m' [= <-]. by apply H1.
    + destruct m as [x|]; intros m' [= <-]. by apply H2.
  - by apply quiet_quantifier.
  - apply quiet_slice; [apply IHe| |].
    + destruct f as [x|]; intros m' [= <-]. by apply H1.
    + destruct o as [x|]; intros m' [= <-]. by apply H2.
Qed.
End queries.
#[export] Hint Resolve quiet_eval : quiet_db.

(** ** Operators *)
Section operators.
Context `{Runtime, MapOrder}.
Lemma quiet_props_match (have : gmap Z value) (want : list (bytes * Expr)) (b : binding) : quiet (props_match have want b).
Proof. induction want as [|[k e] want IH]; cbn [props_match]; quiets. Qed.
Lemma quiet_bfs_loop fuel dir types minH maxH : forall d frontier hits, quiet (bfs_loop fuel dir types minH maxH d frontier hits).
Proof. induction fuel as [|fuel IH]; intros d frontier hits; cbn [bfs_loop]; quiets. Qed.
Lemma quiet_search fuel spec : forall fwd bwd, quiet (search fuel fwd bwd spec).
Proof. induction fuel as [|fuel IH]; intros fwd bwd; cbn [search]; quiets. Qed.
Lemma quiet_add_all (row : binding) (specs : list aggSpec) : forall accs, quiet (add_all row specs accs).
Proof. induction specs as [|s specs IH]; intros [|a accs]; cbn [add_all]; quiets. Qed.
Lemma quiet_sort_less (keys : list SortKey) (bi bj : binding) : quiet (sort_less keys bi bj).
Proof. induction keys as [|k keys IH]; cbn [sort_less]; quiets. Qed.
End operators.
#[export] Hint Resolve quiet_props_match quiet_bfs_loop quiet_search quiet_add_all quiet_sort_less : quiet_db.

Section sorting.
Context `{Runtime} {A : Type} (less : A -> A -> M bool) (Hless : forall x y, quiet (less x y)).
Lemma quiet_insert_back x prefix : quiet (insert_back less x prefix).
Proof. induction prefix as [|y prefix IH]; cbn [insert_back]; quiets. Qed.
Lemma quiet_bsearch fuel f : (forall n, quiet (f n)) -> forall i j, quiet (bsearch fuel f i j).
Proof. intros Hf. induction fuel as [|fuel IH]; intros i j; cbn [bsearch]; quiets. Qed.
Lemma quiet_symMerge fuel : forall xs ys, quiet (symMerge less fuel xs ys).
Proof.
  induction fuel as [|fuel IH]; intros xs ys; cbn [symMerge]; [quiets|].
  assert (forall o1 o2, quiet (less_at less o1 o2)) as Hat by (intros [x|] [y|]; quiets).
  assert (forall n f i j, (forall k, quiet (f k)) -> quiet (bsearch n f i j)) as Hb by (intros; by apply quiet_bsearch).
  destruct xs as [|x [|x' xs]], ys as [|y [|y' ys]];
    repeat first [assumption | apply Hb; intros ? | apply quiet_bind; [|intros ?] | apply IH | apply Hat
      | match goal with |- quiet (mret _) => by intros ? | |- quiet (if ?b then _ else _) => destruct b end | progress cbv zeta ].
Qed.
Lemma quiet_merge_pairs n : forall bs, (length bs <= n)%nat -> quiet (merge_pairs less bs).
Proof.
  induction n as [|n IH]; intros [|b1 [|b2 bs]] Hn; try (by intros c); [cbn in Hn; lia..|]. cbn [merge_pairs].
  apply quiet_bind; [apply quiet_symMerge|intros b]. apply quiet_bind; [apply IH; cbn in Hn; lia|]. by intros rest c.
Qed.
Lemma quiet_merge_rounds fuel : forall bs, quiet (merge_rounds less fuel bs).
Proof.
  induction fuel as [|fuel IH]; intros bs; cbn [merge_rounds]; [quiets|]. destruct bs as [|b [|b' bs]]; [by intros c..|].
  apply quiet_bind; [by eapply quiet_merge_pairs|done].
Qed.
Lemma quiet_SliceStable l : quiet (SliceStable less l).
Proof.
  unfold SliceStable. apply quiet_bind; [apply quiet_mapM; intros x|intros bs; apply quiet_merge_rounds].
  unfold insertionSort. apply quiet_bind; [apply quiet_foldM; intros; apply quiet_insert_back|]. by intros r c.
Qed.
End sorting.
#[export] Hint Resolve quiet_SliceStable : quiet_db.

Section run.
Context `{Runtime, MapOrder}.
Lemma quiet_buildWith : forall p arg, quiet (buildWith p arg).
Proof.
  fix IH 1. intros p arg. destruct p;
    lazymatch goal with
    | |- quiet (buildWith (Plan.Union ?ps _ _) _) =>
        cbn [buildWith]; apply quiet_bind; [|by intros ops c]; induction ps as [|q parts IHp]; [by intros c|]; cbn [mapM];
        apply quiet_bind; [apply IH|intros o; apply quiet_bind; [exact IHp|by intros os c]]
    | _ => cbn [buildWith]; quiets
    end.
Qed.
End run.
#[export] Hint Resolve quiet_buildWith : quiet_db.


(** ** Properties of whole queries *)
Section writes.
Context `{Runtime, MapOrder}.

(** The programs that write. *)
Inductive graph_op : forall A : Type, prog A -> Prop :=
| go_CreateNode labels props : graph_op Z (CreateNode labels props)
| go_CreateEdge typ src dst props : graph_op Z (CreateEdge typ src dst props)
| go_op o : graph_op unit (op_prog o).

(** A property of computations that reads have, that sequencing keeps and that
    holds of the graph operations. *)
Class Closed (Q : forall A : Type, M A -> Prop) : Prop := {
  cl_quiet (A : Type) (m : M A) : quiet m -> Q A m;
  cl_bind (A B : Type) (m : M A) (f : A -> M B) : Q A m -> (forall a, Q B (f a)) -> Q B (m ≫= f);
  cl_op (A : Type) (p : prog A) : graph_op A p -> Q A (txn p)
}.
Context (Q : forall A : Type, M A -> Prop) `{HQ : !Closed Q}.
Lemma of_quiet {A : Type} (m : M A) : quiet m -> Q A m.
Proof. apply HQ. Qed.
Lemma of_bind {A B : Type} (m : M A) (f : A -> M B) : Q A m -> (forall a, Q B (f a)) -> Q B (m ≫= f).
Proof. apply HQ. Qed.
Lemma of_op {A : Type} (p : prog A) : graph_op A p -> Q A (txn p).
Proof. apply HQ. Qed.

Lemma closed_mapM {A B : Type} (f : A -> M B) l : (forall x, Q B (f x)) -> Q (list B) (mapM f l).
Proof.
  intros Hf. induction l as [|x l IH]; [by apply of_quiet; intros c|]. apply of_bind; [done|]. intros y. apply of_bind; [done|]. intros ys. apply of_quiet. quiets.
Qed.
Lemma closed_foldM {A B : Type} (f : B -> A -> M B) b l : (forall b x, Q B (f b x)) -> Q B (foldM f b l).
Proof. intros Hf. revert b. induction l as [|x l IH]; intros b; [by apply of_quiet; intros c|]. by apply of_bind. Qed.

Ltac closes_step :=
  cbv beta iota zeta;
  lazymatch goal with
  | |- forall _, _ => intros ?
  | |- Q _ (mret _) => apply of_quiet; quiets
  | |- Q _ (fail _) => apply of_quiet; quiets
  | |- Q _ (fun _ => PRet _) => apply of_quiet, quiet_pure
  | |- Q _ (_ ≫= _) => apply of_bind
  | |- Q _ (txn (match ?x with _ => _ end)) => destruct x
  | |- Q _ (txn (CreateNode _ _)) => apply of_op, go_CreateNode
  | |- Q _ (txn (CreateEdge _ _ _ _)) => apply of_op, go_CreateEdge
  | |- Q _ (txn (SetProperty ?n ?k ?v)) => exact (of_op _ (go_op (OpSetProperty n k v)))
  | |- Q _ (txn (RemoveProperty ?n ?k)) => exact (of_op _ (go_op (OpRemoveProperty n k)))
  | |- Q _ (txn (AddLabels ?n ?ls)) => exact (of_op _ (go_op (OpAddLabels n ls)))
  | |- Q _ (txn (RemoveLabels ?n ?ls)) => exact (of_op _ (go_op (OpRemoveLabels n ls)))
  | |- Q _ (txn (SetNodeProperties ?n ?ps ?r)) => exact (of_op _ (go_op (OpSetNodeProperties n ps r)))
  | |- Q _ (txn (DeleteEdge ?e)) => exact (of_op _ (go_op (OpDeleteEdge e)))
  | |- Q _ (txn (DeleteNode ?n)) => exact (of_op _ (go_op (OpDeleteNode n)))
  | |- Q _ (txn (DetachDeleteNode ?n)) => exact (of_op _ (go_op (OpDetachDeleteNode n)))
  | |- Q _ (txn (createIndex ?n ?l ?p)) => exact (of_op _ (go_op (OpCreateIndex n l p)))
  | |- Q _ (txn (createRelIndex ?n ?l ?p)) => exact (of_op _ (go_op (OpCreateRelIndex n l p)))
  | |- Q _ (txn (dropIndex ?n ?b)) => exact (of_op _ (go_op (OpDropIndex n b)))
  | |- Q _ (txn (createConstraint ?n ?l ?p)) => exact (of_op _ (go_op (OpCreateConstraint n l p)))
  | |- Q _ (txn (dropConstraint ?n ?b)) => exact (of_op _ (go_op (OpDropConstraint n b)))
  | |- Q _ (txn _) => apply of_quiet; quiets
  | |- Q _ (mapM _ _) => apply closed_mapM
  | |- Q _ (foldM _ _ _) => apply closed_foldM
  | |- Q _ (match ?x with _ => _ end) => destruct x
  | |- Q _ ?m => first [apply of_quiet; solve [eauto with quiet_db nocore] | unfold_head m]
  end.
Ltac closes := repeat (first [assumption | closes_step]).

Lemma closed_create_chain (chain : list PatternChain) : forall (b : binding) prev, Q _ (create_chain b prev chain).
Proof. induction chain as [|ch chain IH]; intros b prev; cbn [create_chain]; closes; apply IH. Qed.
Lemma closed_createPart (b : binding) (part : PatternPart) : Q _ (createPart b part).
Proof. unfold createPart. closes; apply closed_create_chain. Qed.
Lemma closed_applySetClause (b : binding) (item : SetClause) : Q _ (applySetClause b item).
Proof. closes. Qed.
Lemma closed_merge_run (part : PatternPart) (oc om : list SetClause) (b : binding) : Q _ (merge_run part oc om b).
Proof. closes. Qed.

Lemma closed_next fuel : forall o, Q _ (next fuel o).
Proof.
  induction fuel as [|fuel IH]; intros o; cbn [next]; [closes|].
  pose proof closed_createPart. pose proof closed_merge_run. destruct o; closes; auto.
Qed.
Lemma closed_run_loop fuel columns : forall o rows, Q _ (run_loop fuel columns o rows).
Proof. induction fuel as [|fuel IH]; intros o rows; cbn [run_loop]; [closes|]. pose proof (closed_next fuel). closes; auto. Qed.
Lemma Run_closed fuel p columns : Q _ (Run fuel p columns).
Proof. pose proof (closed_run_loop fuel columns). closes; auto. Qed.
End writes.

(** ** Scans *)
Section instances.
Context `{Runtime, MapOrder}.
#[global] Instance mscans_closed : Closed (@mscans _).
Proof.
  split.
  - intros A m Hm c. apply Hm.
  - intros A B m f. apply mscans_bind.
  - intros A p Hp. apply mscans_txn. destruct Hp as [labels props|typ src dst props|o]; [apply scans_CreateNode|apply scans_CreateEdge|].
    destruct o; cbn [op_prog];
      first [by apply (scans_schema name label prop false) | by apply (scans_schema name typ prop false) | by apply (scans_schema name [] [] ifExists) | apply scans_bind; [|done]; (apply scans_CreateNode || apply scans_CreateEdge) | eauto with scans_db].
Qed.
Lemma mscans_Run fuel p columns : mscans (Run fuel p columns).
Proof. apply (Run_closed _). Qed.

(** ** Effects *)

(** [ops] carried out one after the other, each with success. *)
Inductive performed : list operation -> store -> store -> Prop :=
| performed_nil s : performed [] s s
| performed_cons o ops s s1 s2 : run (op_prog o) s = (Ok tt, s1) -> performed ops s1 s2 -> performed (o :: ops) s s2.
Lemma performed_app ops1 ops2 s s1 s2 : performed ops1 s s1 -> performed ops2 s1 s2 -> performed (ops1 ++ ops2) s s2.
Proof. induction 1 as [|o ops s s0 s3 E _ IH]; [done|]. intros Hrest. econstructor; [exact E|]. by apply IH. Qed.
Lemma performed_commits ops s s' : performed ops s s' -> s' = commits ops s.
Proof. induction 1 as [|o ops s s1 s2 E _ IH]; [done|]. cbn [commits foldl]. unfold commit at 2. by rewrite E. Qed.

Definition acts (A : Type) (m : M A) : Prop := forall c s,
  match run (m c) s with (Ok (Ok _, _), s') => exists ops, performed ops s s' | _ => True end.
Lemma reads_only_run {A : Type} (p : prog A) s : reads_only p -> (run p s).2 = s.
Proof. revert s. induction p as [a|e|key k IH|key val k IH|key k IH|pr st k IH]; intros s Hp; cbn in *; auto; done. Qed.
Lemma run_no_result {A : Type} (p : prog A) s a s' : run p s = (Ok a, s') -> run (no_result p) s = (Ok tt, s').
Proof. intros E. unfold no_result. by rewrite run_bind, E. Qed.
#[global] Instance acts_closed : Closed acts.
Proof.
  split.
  - intros A m Hm c s. pose proof (reads_only_run (m c) s (proj2 (Hm c))) as E. destruct (run (m c) s) as [[[[a|e] c']|e] s'] eqn:Er; try done.
    cbn in E. subst s'. exists []. constructor.
  - intros A B m f Hm Hf c s. unfold mbind, M_bind. rewrite run_bind. specialize (Hm c s). destruct (run (m c) s) as [[[[a|e] c']|e] s1]; try done.
    destruct Hm as [ops1 H1]. specialize (Hf a c' s1). destruct (run (f a c') s1) as [[[[b|e] c2]|e] s2]; try done.
    destruct Hf as [ops2 H2]. exists (ops1 ++ ops2). by eapply performed_app.
  - intros A p Hp c s. unfold txn. rewrite run_bind, run_try. cbn. destruct (run p s) as [[a|e] s'] eqn:E; cbn; [|done].
    destruct Hp as [labels props|typ src dst props|o].
    + exists [OpCreateNode labels props]. econstructor; [by eapply run_no_result|constructor].
    + exists [OpCreateEdge typ src dst props]. econstructor; [by eapply run_no_result|constructor].
    + exists [o]. destruct a. econstructor; [done|constructor].
Qed.
Lemma acts_Run fuel p columns : acts _ (Run fuel p columns).
Proof. apply (Run_closed _). Qed.
End instances.
End Effects.
