(* ===== verification/Engine.v ===== *)
(** * Engine: the public API

    src/intreccio.go and src/tx.go: a query text is parsed, analysed, planned
    against the indexes of the transaction and run in it; DB.Query, DB.Update
    and DB.View wrap that in transactions of a backend.  The storage engine is
    the interface [Store] (transactions of any [Txn] engine that can be opened
    and committed); a clustered backend adds the capabilities of
    [clusterBackend].  The function a caller passes to Update or View is a
    [tx_fn]: queries, each chosen by the results so far, and a final error. *)
From S2P Require Import Prelude Float64 FloatArith Values Ast Plan Scalars Text Keys Records Storage Catalog Graph Context Functions Params Eval Lexer Parser Sema Planner Bolt.
From S2P Require Import Shortest Aggregate Expand Write StableSort RangeScan Operators.
Import Ast Scalars Text Context Functions Params Eval Parser Planner Operators.

(** What the API needs of a storage engine: snapshots to read, transactions to
    write, and committing them. *)
Class Store (S T : Type) `{Txn T} := {
  begin_view : S -> T;
  begin_update : S -> T;
  commit : S -> T -> res S
}.
(** The reference store. *)
#[global] Instance reference_store : Store store store := {
  begin_view s := s;
  begin_update s := s;
  commit _ s := Ok s
}.
(** The bbolt engine: a write transaction buffers its writes and applies them in
    key order. *)
#[global] Instance bolt_store {B : Type} `{Bucket B} : Store B (Bolt.txn B) := {
  begin_view b := mkTxn b None false;
  begin_update b := mkTxn b (Some ∅) false;
  commit b t :=
    match apply_pending b (merge_sort pend_le (map_to_list (pending_of t))) with
    | (Some e, _) => Err e
    | (None, b') => Ok b'
    end
}.

Module Engine.
Section engine.
Context `{Runtime, Unicode, MapOrder}.

Record Result := mkResult { Columns : list bytes; Rows : list (list value) }.

(** The options of a query, and the cancellation context with it. *)
Record queryOptions := mkOptions { linearizable : bool; maxRows : Z; ctx : option nat }.
Definition no_options : queryOptions := mkOptions false 0 None.
Definition WithMaxRows (limit : Z) (o : queryOptions) : queryOptions :=
  if 0 <? limit then mkOptions (linearizable o) limit (ctx o) else o.
Definition canceled (o : queryOptions) : bool := bool_decide (ctx o = Some 0%nat).

(** ** Running a query in a transaction *)
Section transaction.
Context {T : Type} `{Txn T}.

(** A lookup of the planner: an error counts as no index. *)
Definition asks (p : prog bool) (t : T) : bool := match (exec p t).1 with Ok b => b | Err _ => false end.
Definition has_index (label propKey : bytes) : prog bool :=
  ol ← LookupLabel label;
  match ol with
  | None => mret false
  | Some labelID => ok ← LookupKey propKey; match ok with None => mret false | Some keyID => HasIndex labelID keyID end
  end.
Definition has_rel_index (relType propKey : bytes) : prog bool :=
  ot ← LookupType relType;
  match ot with
  | None => mret false
  | Some typeID => ok ← LookupKey propKey; match ok with None => mret false | Some keyID => HasRelIndex typeID keyID end
  end.
Definition planCatalog (t : T) : PlanCatalog :=
  mkCatalog (fun label key => asks (has_index label key) t) (Some (fun typ key => asks (has_rel_index typ key) t)).

Definition query_context (params : gmap (list Z) value) (o : queryOptions) : Context :=
  set_Ctx (ctx o) (new_context params (maxRows o)).
Definition runQuery (fuel : nat) (q : Query) (columns : list bytes) (params : gmap (list Z) value) (o : queryOptions) (t : T) : res Result * T :=
  match Plan_ q (planCatalog t) with
  | Err e => (Err e, t)
  | Ok p =>
      match exec (Run fuel p columns (query_context params o)) t with
      | (Ok (Ok rows, _), t') => (Ok (mkResult columns rows), t')
      | (Ok (Err e, _), t') => (Err e, t')
      | (Err e, t') => (Err e, t')
      end
  end.

(** ** Transactions over several queries *)
Record Tx := mkTx { tx_txn : T; tx_readOnly : bool; tx_done : bool }.
End transaction.
Arguments Tx T : clear implicits.

Definition writes (c : Clause) : bool :=
  match c with
  | CCreate _ | CMerge _ _ _ | CSet _ | CRemove _ | CDelete _ _
  | CCreateIndex _ _ _ _ | CDropIndex _ _ | CCreateConstraint _ _ _ | CDropConstraint _ _ => true
  | _ => false
  end.
Definition isWriteQuery (q : Query) : bool := existsb writes (q_Clauses q).

(** A query as the caller gives it. *)
Record request := mkRequest { rq_text : bytes; rq_params : list (bytes * goval); rq_options : queryOptions }.

(** Parsing and analysis: the query and its columns. *)
Definition prepare (r : request) : res (gmap (list Z) value * Query * list bytes) :=
  if canceled (rq_options r) then Err ErrCanceled
  else
    params ← normalizeParams (rq_params r);
    q ← Parse (rq_text r);
    columns ← Sema.Analyze q;
    Ok (params, q, columns).

Definition tx_Query {T : Type} `{Txn T} (fuel : nat) (r : request) (tx : Tx T) : res Result * Tx T :=
  if tx_done tx then (Err ErrTxDone, tx)
  else match prepare r with
  | Err e => (Err e, tx)
  | Ok (params, q, columns) =>
      if tx_readOnly tx && isWriteQuery q then (Err ErrReadOnlyTx, tx)
      else
        let '(res, t) := runQuery fuel q columns params (rq_options r) (tx_txn tx) in
        (res, mkTx t (tx_readOnly tx) (tx_done tx))
  end.

Inductive tx_fn :=
| Return (e : option error)
| Then (r : request) (k : res Result -> tx_fn).
Fixpoint run_fn {T : Type} `{Txn T} (fuel : nat) (fn : tx_fn) (tx : Tx T) : option error * Tx T :=
  match fn with
  | Return e => (e, mkTx (tx_txn tx) (tx_readOnly tx) true)
  | Then r k => let '(res, tx) := tx_Query fuel r tx in run_fn fuel (k res) tx
  end.

(** ** The local backend *)
Section local.
Context {S T : Type} `{Store S T}.

Definition local_View {A : Type} (fn : T -> res A * T) (s : S) : res A := (fn (begin_view s)).1.
Definition local_ApplyWrite {A : Type} (stage : T -> res A * T) (s : S) : res A * S :=
  match stage (begin_update s) with
  | (Err e, _) => (Err e, s)
  | (Ok r, t) => match commit s t with Ok s' => (Ok r, s') | Err e => (Err e, s) end
  end.
Definition ensureFormat (s : S) : res unit * S := local_ApplyWrite (exec EnsureFormat) s.

Definition runLocal (fuel : nat) (q : Query) (columns : list bytes) (params : gmap (list Z) value) (write : bool) (o : queryOptions) (s : S) : res Result * S :=
  if write then local_ApplyWrite (runQuery fuel q columns params (mkOptions (linearizable o) 0 (ctx o))) s
  else (local_View (runQuery fuel q columns params o) s, s).

(** The capabilities of a clustered backend; [None] is the local engine. *)
Record clusterBackend := mkClusterBackend {
  IsLeader : bool;
  Local : bool;
  ReadBarrier : option error;
  Forward : bytes -> gmap (list Z) value -> bool -> bool -> queryOptions -> res Result
}.
Definition forwards (cb : clusterBackend) (write lin : bool) : bool :=
  negb (Local cb) || (write && negb (IsLeader cb)) || (lin && negb write && negb (IsLeader cb)).
Definition Query_ (fuel : nat) (cb : option clusterBackend) (r : request) (s : S) : res Result * S :=
  match prepare r with
  | Err e => (Err e, s)
  | Ok (params, q, columns) =>
      let o := rq_options r in
      let write := isWriteQuery q in
      let run_ := runLocal fuel q columns params write o s in
      match cb with
      | None => run_
      | Some cb =>
          if forwards cb write (linearizable o) then (Forward cb (rq_text r) params write (linearizable o && negb write) o, s)
          else if linearizable o && negb write && IsLeader cb then
            match ReadBarrier cb with Some e => (Err e, s) | None => run_ end
          else run_
      end
  end.
(** [executeLocalText]: a query another node forwarded. *)
Definition executeLocalText (fuel : nat) (text : bytes) (params : gmap (list Z) value) (o : queryOptions) (s : S) : res Result * S :=
  match q ← Parse text; columns ← Sema.Analyze q; Ok (q, columns) with
  | Err e => (Err e, s)
  | Ok (q, columns) => runLocal fuel q columns params (isWriteQuery q) o s
  end.

Definition fn_result (r : option error) : res unit := match r with None => Ok tt | Some e => Err e end.
Definition Update (fuel : nat) (cb : option clusterBackend) (o : queryOptions) (fn : tx_fn) (s : S) : res unit * S :=
  if canceled o then (Err ErrCanceled, s)
  else if match cb with Some cb => negb (Local cb) || negb (IsLeader cb) | None => false end then (Err ErrTxNotOnLeader, s)
  else local_ApplyWrite (fun t => let '(e, tx) := run_fn fuel fn (mkTx t false false) in (fn_result e, tx_txn tx)) s.
Definition View (fuel : nat) (cb : option clusterBackend) (o : queryOptions) (fn : tx_fn) (s : S) : res unit :=
  if canceled o then Err ErrCanceled
  else if match cb with Some cb => negb (Local cb) | None => false end then Err ErrTxNotOnLeader
  else local_View (fun t => let '(e, tx) := run_fn fuel fn (mkTx t true false) in (fn_result e, tx_txn tx)) s.
End local.
End engine.
End Engine.
