(* ===== verification/EngineStore.v ===== *)
(** * EngineStore: queries on a storage engine

    What the public API (Engine.v) needs of a storage engine, as laws of the
    class [Store], and the refinement they give: DB.Query on the engine answers
    and writes what it would on the reference store, or fails and leaves the
    database as it was.  The bbolt engine satisfies the laws. *)
From S2P Require Import Prelude Float64 FloatArith Values Ast Plan Scalars Text Keys Records Storage Catalog Graph Context Functions Params Eval Lexer Parser ClauseText Sema Planner FreeVars PlannerClaims GraphClaims Bolt.
From S2P Require Import Shortest Aggregate Expand Write StableSort RangeScan Operators ScansOk Effects Engine.
Import Ast Scalars Text Context Functions Params Eval Parser Planner Operators ScansOk Effects Engine.

(** A transaction [t] of the store [s] satisfies [inv s t]; [view t] is what it
    sees and [contents s] what the store holds. *)
Class StoreLaws (S T : Type) `{Store S T} (contents : S -> store) (inv : S -> T -> Prop) (view : T -> store) := {
  st_txn :: forall s, TxnLaws T (inv s) view;
  st_view s : inv s (begin_view s) /\ view (begin_view s) = contents s;
  st_update s : inv s (begin_update s) /\ view (begin_update s) = contents s;
  st_commit s t : inv s t -> match commit s t with Ok s' => contents s' = view t | Err e => engine_error e end
}.

#[global] Instance reference_store_laws : StoreLaws store store id (fun _ _ => True) id.
Proof. split; [intros s; apply _|done..]. Qed.

(** bbolt: a transaction stays on the bucket it was opened on. *)
#[global] Instance bolt_store_laws {B : Type} `{Bucket B} (contents : B -> store) `{!BucketLaws B contents} :
  StoreLaws B (Bolt.txn B) contents (fun b t => tx_b t = b) (tx_view contents).
Proof.
  split.
  - intros b. split.
    + intros t k _. by apply (get_law t k).
    + intros t k v Ht. pose proof (set_law t k v I) as Hl.
      assert (tx_b (t_set t k v).2 = tx_b t) as Hb by (cbn; unfold tx_set; by destruct t as [b' [p|] [|]], k).
      destruct (t_set t k v) as [[e|] t']; cbn in Hb; (split; [congruence|]); apply Hl.
    + intros t k Ht. pose proof (delete_law t k I) as Hl.
      assert (tx_b (t_delete t k).2 = tx_b t) as Hb by (cbn; unfold tx_delete; by destruct t as [b' [p|] [|]]).
      destruct (t_delete t k) as [[e|] t']; cbn in Hb; (split; [congruence|]); apply Hl.
    + intros t p s _. by apply (scan_law t p s).
  - intros b. split; [done|]. apply overlay_empty.
  - intros b. split; [done|]. apply overlay_empty.
  - intros b t Ht. cbn [commit bolt_store]. destruct (apply_pending b _) as [[e|] b'] eqn:E.
    + by eapply apply_pending_error.
    + unfold tx_view. rewrite Ht. by apply commit_pending.
Qed.

Module EngineStore.

(** ** Programs that only read *)
Lemma exec_run {A : Type} (p : prog A) (s : store) : exec p s = run p s.
Proof. revert s. induction p; intros s; cbn; auto. Qed.
Lemma exec_reads {T : Type} `{Txn T} (ok : T -> Prop) (view : T -> store) `{!TxnLaws T ok view} {A : Type} (p : prog A) t :
  ok t -> scans_ok p -> reads_only p -> exec p t = ((run p (view t)).1, t).
Proof.
  intros Ht. induction p as [a|e|key k IH|key val k IH|key k IH|pr st k IH]; cbn; try done.
  - intros Hs Hr. rewrite (get_law t key Ht). by apply IH.
  - intros [Hb Hs] Hr. rewrite (scan_law t pr st Ht Hb). by apply IH.
Qed.

Section refinement.
Context `{Runtime, Unicode, MapOrder}.
Context {S T : Type} `{HS : Store S T} (contents : S -> store) (inv : S -> T -> Prop) (view : T -> store) `{!StoreLaws S T contents inv view}.

Lemma asks_view s p t : inv s t -> scans_ok p -> reads_only p -> asks p t = asks p (view t).
Proof. intros Ht Hs Hr. unfold asks. rewrite (exec_reads (inv s) view p t Ht Hs Hr). by rewrite (exec_reads (fun _ => True) id p (view t) I Hs Hr). Qed.
Lemma catalog_view s t : inv s t -> CatalogLaws.cat_same (planCatalog t) (planCatalog (view t)).
Proof.
  intros Ht. split; cbn [planCatalog cat_HasIndex cat_HasRelIndex]; intros; (eapply asks_view; [exact Ht|scans|reads]).
Qed.

(** ** Queries *)
Lemma runQuery_refines s fuel q columns params o t : inv s t ->
  match runQuery fuel q columns params o t with
  | (r, t') => inv s t' /\ (runQuery fuel q columns params o (view t) = (r, view t') \/ exists e, r = Err e /\ engine_error e)
  end.
Proof.
  intros Ht. unfold runQuery. assert (Plan_ q (planCatalog t) = Plan_ q (planCatalog (view t))) as -> by (by rewrite (catalog_view s t Ht)).
  destruct (Plan_ q (planCatalog (view t))) as [p|e]; [|by auto].
  pose proof (exec_simulates (inv s) view (Run fuel p columns (query_context params o)) t Ht (mscans_Run fuel p columns _)) as [Hi Hs].
  rewrite exec_run. destruct (exec (Run fuel p columns (query_context params o)) t) as [r t'] eqn:E. cbn [fst snd] in *.
  destruct Hs as [->|(e & -> & He)]; [|by split; [|right; exists e]].
  destruct r as [[[rows|e] c]|e]; (split; [done|by left]).
Qed.

Lemma read_refines s fuel q columns params o : match local_View (runQuery fuel q columns params o) s with
  | Ok x => local_View (runQuery fuel q columns params o) (contents s) = Ok x
  | Err e => local_View (runQuery fuel q columns params o) (contents s) = Err e \/ engine_error e
  end.
Proof.
  unfold local_View. destruct (st_view s) as [Hi Hv]. pose proof (runQuery_refines s fuel q columns params o _ Hi) as Hr. rewrite Hv in Hr.
  destruct (runQuery fuel q columns params o (begin_view s)) as [r t']. destruct Hr as [_ [Hr|(e & -> & He)]]; [|by right].
  cbn [begin_view reference_store]. rewrite Hr. cbn. destruct r; auto.
Qed.
Lemma write_refines s fuel q columns params o : match local_ApplyWrite (runQuery fuel q columns params o) s with
  | (Ok x, s') => local_ApplyWrite (runQuery fuel q columns params o) (contents s) = (Ok x, contents s')
  | (Err e, s') => s' = s /\ ((local_ApplyWrite (runQuery fuel q columns params o) (contents s)).1 = Err e \/ engine_error e)
  end.
Proof.
  unfold local_ApplyWrite. destruct (st_update s) as [Hi Hv]. pose proof (runQuery_refines s fuel q columns params o _ Hi) as Hr. rewrite Hv in Hr.
  destruct (runQuery fuel q columns params o (begin_update s)) as [r t']. destruct Hr as [Hi' Hr].
  cbn [begin_update commit reference_store]. pose proof (st_commit s t' Hi') as Hcm. destruct r as [x|e].
  - destruct Hr as [->|(e & [=] & _)]. destruct (commit s t') as [s'|e]; [by rewrite Hcm|by split; [|right]].
  - split; [done|]. destruct Hr as [->|(e' & [= <-] & He)]; [by left|by right].
Qed.
End refinement.
End EngineStore.
Import EngineStore.

(** C10: DB.Query on a storage engine is DB.Query on the reference store.  For any
    engine that keeps the laws of transactions and commits (bbolt does), any query
    text, parameters and options, embedded or as a cluster member: when the query
    succeeds, the reference store gives the same rows and ends with the contents
    the engine has; when it fails, the database is unchanged and the error is the
    reference's or one the engine itself raised.  Every statement about queries on
    the reference store thereby holds of the engine. *)
Theorem query_refines `{Runtime, Unicode, MapOrder} {S T : Type} `{HS : Store S T} (contents : S -> store) (inv : S -> T -> Prop) (view : T -> store)
    `{!StoreLaws S T contents inv view} (fuel : nat) (cb : option clusterBackend) (r : request) (s : S) :
  match Query_ fuel cb r s with
  | (Ok x, s') => Query_ fuel cb r (contents s) = (Ok x, contents s')
  | (Err e, s') => s' = s /\ ((Query_ fuel cb r (contents s)).1 = Err e \/ engine_error e)
  end.
Proof.
  unfold Query_. destruct (prepare r) as [[[params q] columns]|e]; [|by split; [|left]]. cbv zeta.
  assert (match runLocal fuel q columns params (isWriteQuery q) (rq_options r) s with
    | (Ok x, s') => runLocal fuel q columns params (isWriteQuery q) (rq_options r) (contents s) = (Ok x, contents s')
    | (Err e, s') => s' = s /\ ((runLocal fuel q columns params (isWriteQuery q) (rq_options r) (contents s)).1 = Err e \/ engine_error e)
    end) as Hrun.
  { unfold runLocal. destruct (isWriteQuery q); [by apply (write_refines contents inv view)|].
    pose proof (read_refines contents inv view s fuel q columns params (rq_options r)) as Hr. destruct (local_View _ s); [by rewrite Hr|done]. }
  destruct cb as [cb|]; [|exact Hrun]. destruct (forwards cb _ _); [by destruct (Forward cb _ _ _ _ _); [|split; [|left]]|].
  destruct (linearizable (rq_options r) && negb (isWriteQuery q) && IsLeader cb); [|exact Hrun].
  destruct (ReadBarrier cb); [by split; [|left]|exact Hrun].
Qed.

(** ** bbolt *)
Section concrete.
#[local] Existing Instance plain_runtime.
#[local] Existing Instance ClauseText.plain_unicode.
#[local] Existing Instance listed_order.

Definition on_bolt (text : String.string) : res Result * store :=
  Query_ (S := store) (T := Bolt.txn store) 40 None (mkRequest (str text) [] no_options) ∅.
Definition on_reference (text : String.string) : res Result * store := Query_ 40 None (mkRequest (str text) [] no_options) ∅.
Definition create_two : String.string := "CREATE (a:P {name: 'x'}) CREATE (b:P {name: 'y'}) RETURN a.name AS a, b.name AS b".
Lemma query_refines_witness :
  (on_bolt create_two).1 = Ok (mkResult [str "a"; str "b"] [[VStr (str "x"); VStr (str "y")]]) /\ on_reference create_two = ((on_bolt create_two).1, (on_bolt create_two).2).
Proof.
  split; [vm_compute; reflexivity|].
  pose proof (query_refines (S := store) (T := Bolt.txn store) id (fun b t => tx_b t = b) (tx_view id) 40 None (mkRequest (str create_two) [] no_options) ∅) as Hr.
  assert ((on_bolt create_two).1 = Ok (mkResult [str "a"; str "b"] [[VStr (str "x"); VStr (str "y")]])) as E by (vm_compute; reflexivity).
  unfold on_bolt in *. destruct (Query_ (S := store) (T := Bolt.txn store) 40 None (mkRequest (str create_two) [] no_options) ∅) as [[x|e] s']; [exact Hr|discriminate E].
Defined.
End concrete.
