(* ===== verification/EffectClaims.v ===== *)
(** * EffectClaims: databases under queries

    What DB.Query and DB.Update leave behind, for every query and every storage
    engine: the database they are given after a sequence of successful graph
    operations (Effects.v), or the database they were given.  So what holds of
    every database that was built by operations (History.v, GraphClaims.v) holds
    after any queries. *)
From S2P Require Import Prelude Float64 FloatArith Values Ast Plan Scalars Text Keys Records Storage Catalog Graph Context Functions Params Eval Lexer Parser ClauseText Sema Planner FreeVars PlannerClaims GraphClaims Bolt.
From S2P Require Import Shortest Aggregate Expand Write StableSort RangeScan Tables GraphInv NodeOps NodeUpdates EdgeOps Ddl History Operators ScansOk Effects Engine EngineStore.
Import Ast Scalars Text Context Functions Params Eval Parser Planner Operators Effects Engine EngineStore.

Module EffectClaims.
Section effects.
Context `{Runtime, Unicode, MapOrder}.
Context {S T : Type} `{HS : Store S T} (contents : S -> store) (inv : S -> T -> Prop) (view : T -> store) `{!StoreLaws S T contents inv view}.

(** A query that succeeds in a transaction. *)
Lemma runQuery_performed s fuel q columns params o t t' x : inv s t ->
  runQuery fuel q columns params o t = (Ok x, t') -> inv s t' /\ exists ops, performed ops (view t) (view t').
Proof.
  intros Ht E. pose proof (runQuery_refines contents inv view s fuel q columns params o t Ht) as Hr. rewrite E in Hr.
  destruct Hr as [Hi [Hr|(e & [=] & _)]]. split; [done|]. unfold runQuery in Hr. destruct (Plan_ q (planCatalog (view t))) as [p|]; [|done].
  rewrite exec_run in Hr. pose proof (acts_Run fuel p columns (query_context params o) (view t)) as Ha.
  destruct (run (Run fuel p columns (query_context params o)) (view t)) as [[[[rows|e] c]|e] s']; [|done..]. injection Hr as <- <-. done.
Qed.

(** A function that gives up when one of its queries fails. *)
Fixpoint strict (fn : tx_fn) : Prop :=
  match fn with
  | Return _ => True
  | Then _ k => (forall e, exists e', k (Err e) = Return (Some e')) /\ forall x, strict (k x)
  end.
Lemma run_fn_performed s fuel fn : strict fn -> forall tx tx', inv s (tx_txn tx) -> run_fn fuel fn tx = (None, tx') ->
  inv s (tx_txn tx') /\ exists ops, performed ops (view (tx_txn tx)) (view (tx_txn tx')).
Proof.
  induction fn as [e|r k IH]; intros Hst tx tx' Ht; cbn [run_fn].
  - intros [= -> <-]. cbn [tx_txn]. split; [done|]. exists []. constructor.
  - destruct Hst as [Herr Hst]. unfold tx_Query.
    assert (forall e tx1, run_fn fuel (k (Err e)) tx1 = (None, tx') -> False) as Hno.
    { intros e tx1. destruct (Herr e) as [e' ->]. cbn [run_fn]. by intros [=]. }
    destruct (tx_done tx); [by intros ?%Hno|]. destruct (prepare r) as [[[params q] columns]|e]; [|by intros ?%Hno].
    destruct (tx_readOnly tx && isWriteQuery q); [by intros ?%Hno|].
    destruct (runQuery fuel q columns params (rq_options r) (tx_txn tx)) as [[x|e] t] eqn:E; [|by intros ?%Hno].
    destruct (runQuery_performed s fuel q columns params (rq_options r) _ _ _ Ht E) as [Hi [ops1 Hp1]]. intros Hrest.
    destruct (IH (Ok x) (Hst _) (mkTx t (tx_readOnly tx) false) tx' Hi Hrest) as [Hi' [ops2 Hp2]]. cbn [tx_txn] in Hp2.
    split; [done|]. exists (ops1 ++ ops2). by eapply performed_app.
Qed.

(** A write of the local backend. *)
Lemma apply_performed {A : Type} (stage : T -> res A * T) s :
  (forall t t' a, inv s t -> stage t = (Ok a, t') -> inv s t' /\ exists ops, performed ops (view t) (view t')) ->
  match local_ApplyWrite stage s with
  | (Ok _, s') => exists ops, performed ops (contents s) (contents s')
  | (Err _, s') => s' = s
  end.
Proof.
  intros Hst. unfold local_ApplyWrite. destruct (st_update s) as [Hi Hv]. destruct (stage (begin_update s)) as [[a|e] t] eqn:E; [|done].
  destruct (Hst _ _ _ Hi E) as [Hi' Hops]. pose proof (st_commit s t Hi') as Hcm. destruct (commit s t) as [s'|e]; [|done]. by rewrite Hcm, <- Hv.
Qed.
Lemma performed_history ops h s s' : performed ops s s' -> history h s -> admissible ops s -> history (h ++ ops) s'.
Proof. intros Hp Hh Ha. rewrite (performed_commits _ _ _ Hp). by apply history_commits. Qed.
End effects.
End EffectClaims.
Import EffectClaims.


(** DB.Query and DB.Update, as far as the effect goes. *)
Lemma query_performed `{Runtime, Unicode, MapOrder} {S T : Type} `{HS : Store S T} (contents : S -> store) (inv : S -> T -> Prop) (view : T -> store)
    `{!StoreLaws S T contents inv view} (fuel : nat) (cb : option clusterBackend) (r : request) (s : S) :
  match Query_ fuel cb r s with (Ok _, s') => exists ops, performed ops (contents s) (contents s') | (Err _, s') => s' = s end.
Proof.
  unfold Query_. destruct (prepare r) as [[[params q] columns]|e]; [|done]. cbv zeta.
  assert (match runLocal fuel q columns params (isWriteQuery q) (rq_options r) s with (Ok _, s') => exists ops, performed ops (contents s) (contents s') | (Err _, s') => s' = s end) as Hrun.
  { unfold runLocal. destruct (isWriteQuery q).
    - apply (apply_performed contents inv view). intros t t' a Ht. by apply (runQuery_performed contents inv view).
    - destruct (local_View _ s); [exists []; constructor|done]. }
  assert (exists ops, performed ops (contents s) (contents s)) as Hnone by (exists []; constructor).
  destruct cb as [cb|]; [|exact Hrun]. destruct (forwards cb _ _); [by destruct (Forward cb _ _ _ _ _)|].
  destruct (linearizable (rq_options r) && negb (isWriteQuery q) && IsLeader cb); [|exact Hrun]. by destruct (ReadBarrier cb).
Qed.
Lemma update_performed `{Runtime, Unicode, MapOrder} {S T : Type} `{HS : Store S T} (contents : S -> store) (inv : S -> T -> Prop) (view : T -> store)
    `{!StoreLaws S T contents inv view} (fuel : nat) (cb : option clusterBackend) (o : queryOptions) (fn : tx_fn) (s : S) : strict fn ->
  match Update fuel cb o fn s with (Ok _, s') => exists ops, performed ops (contents s) (contents s') | (Err _, s') => s' = s end.
Proof.
  intros Hst. unfold Update. destruct (canceled o); [done|]. destruct (match cb with Some cb => _ | None => _ end); [done|].
  apply (apply_performed contents inv view). intros t t' [] Ht E.
  destruct (run_fn fuel fn (mkTx t false false)) as [[e|] tx'] eqn:Er; [done|]. injection E as <-.
  by apply (run_fn_performed contents inv view s fuel fn Hst (mkTx t false false)).
Qed.


Section concrete.
#[local] Existing Instance plain_runtime.
#[local] Existing Instance ClauseText.plain_unicode.
#[local] Existing Instance listed_order.

Definition ask (text : String.string) : request := mkRequest (str text) [] no_options.
(** A query of a transaction function: the function returns its error, or goes on. *)
Definition step_or_fail (text : String.string) (fn : tx_fn) : tx_fn := Then (ask text) (fun x => match x with Ok _ => fn | Err e => Return (Some e) end).
Definition step_anyway (text : String.string) (fn : tx_fn) : tx_fn := Then (ask text) (fun _ => fn).
Definition create_a : String.string := "CREATE (:P {name: 'a'})".
Definition create_b : String.string := "CREATE (:P {name: 'b'})".


End concrete.
