(* ===== verification/Badger.v ===== *)
(** * Badger: the BadgerDB storage adapter

    src/internal/storage/badger/badger.go.  Badger itself is the parameter
    [BadgerDB]: databases [D] with transactions [T] that read, write, iterate and
    commit, each call with Badger's own errors.  The adapter turns those into the
    engine-neutral errors, its iterator stops at the end of the prefix, and
    [Update] runs the function again when the commit lost against another
    transaction, with a jittered exponential backoff.

    [BadgerLaws] is what Badger documents: a transaction reads its snapshot and
    its own writes, iterates in byte order, commits atomically, and transactions
    are serializable: one that commits has the effect it would have had alone on
    the database it is committed to.  With them the adapter is a [Store] that
    keeps [StoreLaws], and [Update] is correct under contention. *)
From S2P Require Import Prelude Storage Bolt Engine EngineStore.

(** ** BadgerDB *)
Inductive berror := ErrKeyNotFound | ErrBadgerConflict | ErrTxnTooBig | ErrOther.

Class BadgerDB (D T : Type) := {
  bd_begin : bool -> D -> T;                             (* DB.NewTransaction(update) *)
  bd_commit : D -> T -> berror + D;                      (* Txn.Commit, on the database as it is then *)
  bt_get : T -> bytes -> berror + bytes;                 (* Txn.Get, Item.ValueCopy *)
  bt_set : T -> bytes -> bytes -> option berror * T;     (* Txn.Set *)
  bt_delete : T -> bytes -> option berror * T;           (* Txn.Delete *)
  bt_seek : T -> bytes -> bytes -> list kv               (* Txn.NewIterator with a prefix, Seek, then Next *)
}.

Module Badger.

(** ** The adapter *)

(** An error of Badger's that the adapter hands on as it is. *)
Definition plain (e : berror) : error := ErrEngine.

Section txn.
Context {D T : Type} `{BadgerDB D T}.

Definition txn_Get (t : T) (key : bytes) : res bytes :=
  match bt_get t key with
  | inl ErrKeyNotFound => Err ErrNotFound
  | inl e => Err (plain e)
  | inr v => Ok v
  end.
Definition mapWriteErr (e : option berror) : option error :=
  match e with
  | None => None
  | Some ErrTxnTooBig => Some ErrTxnTooLarge
  | Some e => Some (plain e)
  end.
Definition txn_Set (t : T) (key val : bytes) : option error * T := let '(e, t) := bt_set t key val in (mapWriteErr e, t).
Definition txn_Delete (t : T) (key : bytes) : option error * T := let '(e, t) := bt_delete t key in (mapWriteErr e, t).

(** The iterator: what Badger's own one has left, and the prefix. *)
Record iterator := mkIter { bi_it : list kv; bi_prefix : bytes }.
Definition it_Valid (i : iterator) : bool := match bi_it i with e :: _ => has_prefix (bi_prefix i) e.1 | [] => false end.
Definition it_Next (i : iterator) : iterator := mkIter (tail (bi_it i)) (bi_prefix i).
Definition txn_ScanFrom (t : T) (prefix start : bytes) : iterator := mkIter (bt_seek t prefix start) prefix.
(** What a loop over the iterator visits, within [n] steps. *)
Fixpoint visits (n : nat) (i : iterator) : list kv :=
  match n, bi_it i with
  | S n, e :: _ => if it_Valid i then e :: visits n (it_Next i) else []
  | _, _ => []
  end.
Definition visits_all (i : iterator) : list kv := visits (length (bi_it i)) i.

#[global] Instance badger_txn : Txn T := {
  t_get t k := match txn_Get t k with Ok v => Some v | Err _ => None end;
  t_set := txn_Set;
  t_delete := txn_Delete;
  t_scan t p s := visits_all (txn_ScanFrom t p s)
}.

Definition commit_result (r : berror + D) : res D :=
  match r with inr d => Ok d | inl ErrBadgerConflict => Err ErrConflict | inl e => Err (plain e) end.
#[global] Instance badger_store : Store D T := {
  begin_view := bd_begin false;
  begin_update := bd_begin true;
  commit d t := commit_result (bd_commit d t)
}.

(** ** Update *)

(** Durations are in nanoseconds; [jitter] is what rand.N(d/2) returns. *)
Definition maxRetries : nat := 100.
Definition retryBase : Z := 50000.
Definition retryCap : Z := 10000000.
Definition backoff (i : nat) : Z :=
  if (Z.of_nat i <? 20) && (Z.shiftl retryBase (Z.of_nat i) <? retryCap) then Z.shiftl retryBase (Z.of_nat i) else retryCap.
Definition retryDelay (i : nat) (jitter : Z) : Z := Z.quot (backoff i) 2 + jitter.

(** What other transactions commit before attempt [i] begins, and while it runs. *)
Record contention := mkContention { before : nat -> D -> D; during : nat -> D -> D }.

Record outcome (A : Type) := mkOutcome { o_result : res A; o_db : D; o_runs : nat; o_slept : Z }.
Arguments mkOutcome {A}.

(** The loop from attempt [i] on, with [more] retries left; [o_runs] counts the
    runs of the function and [o_slept] the time between them. *)
Fixpoint update_from {A : Type} (more : nat) (fn : prog A) (env : contention) (jitter : nat -> Z) (i : nat) (slept : Z) (d : D) : outcome A :=
  let d1 := before env i d in
  let '(r, t) := exec fn (bd_begin true d1) in
  let d2 := during env i d1 in
  match r with
  | Err e => mkOutcome (Err e) d2 (S i) slept
  | Ok a =>
      match bd_commit d2 t with
      | inr d3 => mkOutcome (Ok a) d3 (S i) slept
      | inl ErrBadgerConflict =>
          match more with
          | O => mkOutcome (Err ErrConflict) d2 (S i) slept
          | S more => update_from more fn env jitter (S i) (slept + retryDelay i (jitter i)) d2
          end
      | inl e => mkOutcome (Err (plain e)) d2 (S i) slept
      end
  end.
Definition Update {A : Type} (fn : prog A) (env : contention) (jitter : nat -> Z) (d : D) : outcome A :=
  update_from maxRetries fn env jitter 0 0 d.
Definition View {A : Type} (fn : prog A) (d : D) : res A := (exec fn (bd_begin false d)).1.

(** The database when attempt [i] takes its snapshot, if all attempts before it
    left no trace; and when it ends. *)
Fixpoint snapshot (env : contention) (i : nat) (d : D) : D :=
  before env i (match i with O => d | S i => during env i (snapshot env i d) end).
Definition others (env : contention) (i : nat) (d : D) : D := during env i (snapshot env i d).
End txn.
Arguments contention D : clear implicits.
Arguments outcome D A : clear implicits.
Arguments mkOutcome {D A}.
Arguments o_result {D A}.
Arguments o_db {D A}.
Arguments o_runs {D A}.
Arguments o_slept {D A}.
End Badger.
Import Badger.

(** ** What Badger documents *)
Class BadgerLaws (D T : Type) `{BadgerDB D T} (contents : D -> store) (open_on : D -> T -> Prop) (view : T -> store) := {
  bl_begin rw d : open_on d (bd_begin rw d) /\ view (bd_begin rw d) = contents d;
  bl_get d t k : open_on d t ->
    match bt_get t k with
    | inr v => view t !! k = Some v
    | inl ErrKeyNotFound => view t !! k = None
    | inl _ => k = [] /\ view t !! k = None                  (* the empty key is refused *)
    end;
  bl_set d t k v : open_on d t ->
    match bt_set t k v with
    | (None, t') => open_on d t' /\ view t' = <[k := v]> (view t)
    | (Some _, t') => open_on d t' /\ view t' = view t
    end;
  bl_delete d t k : open_on d t ->
    match bt_delete t k with
    | (None, t') => open_on d t' /\ view t' = delete k (view t)
    | (Some _, t') => open_on d t' /\ view t' = view t
    end;
  bl_seek d t p s : open_on d t -> bt_seek t p s = scan_store p s (view t);
  bl_commit d t : open_on d t ->
    match bd_commit d t with inr d' => contents d' = view t | inl e => e <> ErrBadgerConflict end;
  bl_serial {A : Type} (fn : prog A) d1 d2 d3 a t : scans_ok fn ->
    exec fn (bd_begin true d1) = (Ok a, t) -> bd_commit d2 t = inr d3 -> run fn (contents d2) = (Ok a, contents d3)
}.

Section laws.
Context {D T : Type} `{BadgerDB D T} (contents : D -> store) (open_on : D -> T -> Prop) (view : T -> store) `{!BadgerLaws D T contents open_on view}.

Lemma visits_prefix p l n : Forall (fun e : kv => has_prefix p e.1 = true) l -> (length l <= n)%nat -> visits n (mkIter l p) = l.
Proof.
  revert l. induction n as [|n IH]; intros [|e l] Hl Hn; cbn in *; try done; [lia|]. inversion Hl as [|? ? He Hl']; subst.
  unfold it_Valid; cbn. rewrite He. unfold it_Next; cbn. rewrite IH by (done || lia). done.
Qed.
Lemma mapWriteErr_engine e : match mapWriteErr e with None => e = None | Some e' => engine_error e' /\ exists b, e = Some b end.
Proof. destruct e as [[]|]; cbn; eauto. Qed.

#[global] Instance badger_txn_laws d : TxnLaws T (open_on d) view.
Proof.
  split.
  - intros t k Ht. pose proof (bl_get d t k Ht) as Hg. cbn. unfold txn_Get. destruct (bt_get t k) as [[]|v]; try done; symmetry; apply Hg.
  - intros t k v Ht. pose proof (bl_set d t k v Ht) as Hs. cbn. unfold txn_Set. destruct (bt_set t k v) as [e t'].
    pose proof (mapWriteErr_engine e) as He. destruct (mapWriteErr e); [destruct He as [He [b ->]]; by destruct Hs|by subst].
  - intros t k Ht. pose proof (bl_delete d t k Ht) as Hs. cbn. unfold txn_Delete. destruct (bt_delete t k) as [e t'].
    pose proof (mapWriteErr_engine e) as He. destruct (mapWriteErr e); [destruct He as [He [b ->]]; by destruct Hs|by subst].
  - intros t p s Ht _. cbn. unfold txn_ScanFrom, visits_all. cbn [bi_it]. rewrite (bl_seek d t p s Ht). apply visits_prefix; [|done].
    unfold scan_store. rewrite Forall_forall. intros e He. rewrite merge_sort_Permutation in He. apply list_elem_of_filter in He as [[Hp _] _]. done.
Qed.
#[global] Instance badger_store_laws : StoreLaws D T contents open_on view.
Proof.
  split.
  - apply _.
  - apply bl_begin.
  - apply bl_begin.
  - intros d t Ht. pose proof (bl_commit d t Ht) as Hc. cbn. unfold commit_result. by destruct (bd_commit d t) as [[]|d'].
Qed.

(** ** The retry loop *)
Lemma backoff_bounds i : retryBase <= backoff i <= retryCap.
Proof.
  unfold backoff. destruct (Z.ltb_spec (Z.of_nat i) 20); cbn [andb]; [|unfold retryBase, retryCap; lia].
  destruct (Z.ltb_spec (Z.shiftl retryBase (Z.of_nat i)) retryCap); [|unfold retryBase, retryCap; lia].
  rewrite Z.shiftl_mul_pow2 in * by lia. pose proof (Z.pow_pos_nonneg 2 (Z.of_nat i)). unfold retryBase, retryCap in *. nia.
Qed.

(** The longest the first [n] backoffs can take. *)
Fixpoint longest (n : nat) : Z := match n with O => 0 | S n => longest n + backoff n end.
Lemma longest_mono m n : (m <= n)%nat -> longest m <= longest n.
Proof. induction 1 as [|n Hn IH]; [lia|]. cbn [longest]. pose proof (backoff_bounds n) as Hb. unfold retryBase in Hb. lia. Qed.
Lemma retryDelay_bounds i j : 0 <= j < Z.quot (backoff i) 2 -> 0 < retryDelay i j < backoff i.
Proof.
  intros Hj. unfold retryDelay. pose proof (backoff_bounds i) as Hb. unfold retryBase in Hb. rewrite Z.quot_div_nonneg in * by lia.
  pose proof (Z.div_mod (backoff i) 2 ltac:(lia)). pose proof (Z.mod_pos_bound (backoff i) 2 ltac:(lia)). lia.
Qed.

Context {A : Type} (fn : prog A) (Hfn : scans_ok fn) (env : contention D) (jitter : nat -> Z) (d : D).
Hypothesis Hjitter : forall k, 0 <= jitter k < Z.quot (backoff k) 2.

(** The database attempt [i] finds. *)
Definition found (i : nat) : D := match i with O => d | S i => others env i d end.

Record update_post (i last : nat) (o : outcome D A) : Prop := {
  up_runs : (i < o_runs o <= S last)%nat;
  up_slept : 0 <= o_slept o <= longest (pred (o_runs o));
  up_quiet j : (i <= j <= last)%nat -> others env j d = snapshot env j d -> (o_runs o <= S j)%nat;
  up_result : match o_result o with
    | Ok a => run fn (contents (others env (pred (o_runs o)) d)) = (Ok a, contents (o_db o))
    | Err e => o_db o = others env (pred (o_runs o)) d /\
        ((e = ErrConflict /\ o_runs o = S last /\ forall j, (i <= j <= last)%nat -> others env j d <> snapshot env j d) \/
         (run fn (contents (snapshot env (pred (o_runs o)) d))).1 = Err e \/ engine_error e)
    end
}.

(** One attempt. *)
Lemma attempt_spec i :
  match exec fn (bd_begin true (snapshot env i d)) with
  | (Err e, _) => (run fn (contents (snapshot env i d))).1 = Err e \/ engine_error e
  | (Ok a, t) =>
      match bd_commit (others env i d) t with
      | inr d3 => run fn (contents (others env i d)) = (Ok a, contents d3)
      | inl ErrBadgerConflict => others env i d <> snapshot env i d
      | inl _ => True
      end
  end.
Proof.
  destruct (bl_begin true (snapshot env i d)) as [Hopen Hview].
  pose proof (exec_simulates (open_on (snapshot env i d)) view fn _ Hopen Hfn) as [Hopen' Hsim]. rewrite Hview in Hsim.
  destruct (exec fn (bd_begin true (snapshot env i d))) as [[a|e] t] eqn:Er; cbn [fst snd] in *.
  - pose proof (bl_commit _ t Hopen') as Hq. destruct (bd_commit (others env i d) t) as [[]|d3] eqn:Ec; try done.
    + intros Hsame. rewrite Hsame in Ec. by rewrite Ec in Hq.
    + by eapply bl_serial.
  - destruct Hsim as [->|(e' & [= <-] & He)]; auto.
Qed.

Lemma update_from_unfold more i slept :
  update_from more fn env jitter i slept (found i) =
  match exec fn (bd_begin true (snapshot env i d)) with
  | (Err e, _) => mkOutcome (Err e) (others env i d) (S i) slept
  | (Ok a, t) =>
      match bd_commit (others env i d) t with
      | inr d3 => mkOutcome (Ok a) d3 (S i) slept
      | inl ErrBadgerConflict =>
          match more with
          | O => mkOutcome (Err ErrConflict) (others env i d) (S i) slept
          | S more => update_from more fn env jitter (S i) (slept + retryDelay i (jitter i)) (found (S i))
          end
      | inl e => mkOutcome (Err (plain e)) (others env i d) (S i) slept
      end
  end.
Proof.
  assert (before env i (found i) = snapshot env i d) as E by (by destruct i).
  destruct more; cbn [update_from]; rewrite E; fold (others env i d); by destruct (exec fn _) as [[] ?].
Qed.

Lemma update_from_spec more : forall i slept, 0 <= slept <= longest i -> update_post i (i + more) (update_from more fn env jitter i slept (found i)).
Proof.
  induction more as [|more IH]; intros i slept Hsl; rewrite update_from_unfold; pose proof (attempt_spec i) as Ha.
  - destruct (exec fn _) as [[a|e] t]; [destruct (bd_commit _ t) as [[]|d3]|];
      (split; cbn [o_runs o_slept o_result o_db pred]; [lia|lia|intros; lia|auto]).
    split; [done|]. left. split; [done|]. split; [lia|]. intros j Hj. by replace j with i by lia.
  - destruct (exec fn _) as [[a|e] t]; [destruct (bd_commit _ t) as [[]|d3]|]; try (split; cbn [o_runs o_slept o_result o_db pred]; [lia|lia|intros; lia|auto]).
    pose proof (retryDelay_bounds i (jitter i) (Hjitter i)) as Hd.
    destruct (IH (S i) (slept + retryDelay i (jitter i))) as [Hr Hs Hq Hres]; [cbn [longest]; lia|].
    replace (i + S more)%nat with (S i + more)%nat by lia. split; [lia|done| |].
    + intros j Hj Hsame. destruct (decide (j = i)) as [->|]; [done|]. apply Hq; [lia|done].
    + destruct (o_result _) as [a'|e']; [done|]. destruct Hres as [Hdb [(He & Hn & Hall)|Hres]]; (split; [done|]); [left|by right].
      split; [done|]. split; [done|]. intros j Hj. destruct (decide (j = i)) as [->|]; [done|]. apply Hall. lia.
Qed.
End laws.


(** ** A database in memory *)

(** A transaction conflicts with anything committed since its snapshot. *)
Record mem_txn := mkMemTxn { m_snap : store; m_now : store; m_rw : bool }.
#[global] Instance mem_badger : BadgerDB store mem_txn := {
  bd_begin rw d := mkMemTxn d d rw;
  bd_commit d t := if decide (m_snap t = d) then inr (m_now t) else inl ErrBadgerConflict;
  bt_get t k := match m_now t !! k with Some v => inr v | None => inl ErrKeyNotFound end;
  bt_set t k v := if m_rw t then (None, mkMemTxn (m_snap t) (<[k := v]> (m_now t)) true) else (Some ErrOther, t);
  bt_delete t k := if m_rw t then (None, mkMemTxn (m_snap t) (delete k (m_now t)) true) else (Some ErrOther, t);
  bt_seek t p s := scan_store p s (m_now t)
}.
Lemma mem_exec {A : Type} (fn : prog A) : forall s m, scans_ok fn ->
  exec fn (mkMemTxn s m true) = ((run fn m).1, mkMemTxn s (run fn m).2 true).
Proof.
  induction fn as [a|e|key k IH|key val k IH|key k IH|pr st k IH]; intros s m Hs; cbn in *; auto.
  - unfold txn_Get. cbn. destruct (m !! key) eqn:E; cbn; auto.
  - destruct Hs as [_ Hs]. unfold visits_all, txn_ScanFrom. cbn [bi_it bt_seek mem_badger m_now]. rewrite visits_prefix; [auto| |done].
    unfold scan_store. rewrite Forall_forall. intros e He. rewrite merge_sort_Permutation in He. by apply list_elem_of_filter in He as [[Hp _] _].
Qed.
#[global] Instance mem_badger_laws : BadgerLaws store mem_txn id (fun d t => m_snap t = d) m_now.
Proof.
  split.
  - done.
  - intros d t k _. cbn. by destruct (m_now t !! k).
  - intros d t k v Ht. cbn. by destruct (m_rw t).
  - intros d t k Ht. cbn. by destruct (m_rw t).
  - done.
  - intros d t Ht. cbn. by rewrite decide_True.
  - intros A fn d1 d2 d3 a t Hs. cbn [bd_begin mem_badger]. rewrite mem_exec by done. destruct (run fn d1) as [r m] eqn:E. intros [= -> <-].
    cbn. destruct (decide (d1 = d2)) as [->|]; [|done]. intros [= <-]. done.
Qed.

(** A counter two other transactions increment first, each while an attempt runs. *)
Definition increment : prog Z := v ← Get [7]; let n := match v with Some [b] => b | _ => 0 end in Set_ [7] [n + 1] ≫= fun _ => mret (n + 1).
Definition bump (d : store) : store := (run increment d).2.
Definition overtaken : contention store := mkContention (fun _ d => d) (fun i d => if (i <? 2)%nat then bump d else d).

(** ** Backup and restore *)

(** Loading may panic on a damaged dump; what it has written by then stays. *)
Inductive load_outcome (D : Type) := Loaded (d : D) | LoadFailed (e : berror) (d : D) | LoadPanicked (d : D).
Arguments Loaded {D}.
Arguments LoadFailed {D}.
Arguments LoadPanicked {D}.
Class BadgerDump (D : Type) := {
  bd_backup : D -> berror + bytes;
  bd_dropAll : D -> berror + D;
  bd_load : bytes -> D -> load_outcome D
}.
Definition Backup {D : Type} `{BadgerDump D} (d : D) : res bytes := match bd_backup d with inl e => Err (plain e) | inr w => Ok w end.
Definition Load {D : Type} `{BadgerDump D} (r : bytes) (d : D) : res unit * D :=
  match bd_dropAll d with
  | inl e => (Err (plain e), d)
  | inr d =>
      match bd_load r d with
      | Loaded d => (Ok tt, d)
      | LoadFailed e d => (Err (plain e), d)
      | LoadPanicked d => (Err ErrEngine, d)            (* recovered *)
      end
  end.
Class DumpLaws (D : Type) `{BadgerDump D} (contents : D -> store) := {
  dl_drop d d' : bd_dropAll d = inr d' -> contents d' = ∅;
  dl_load d w e d' : bd_backup d = inr w -> contents e = ∅ -> bd_load w e = Loaded d' -> contents d' = contents d
}.
(** A restore that succeeds leaves exactly what was backed up, whatever was there
    before. *)
Lemma backup_load {D : Type} `{BadgerDump D} (contents : D -> store) `{!DumpLaws D contents} (d old d' : D) (w : bytes) :
  Backup d = Ok w -> Load w old = (Ok tt, d') -> contents d' = contents d.
Proof.
  unfold Backup, Load. destruct (bd_backup d) as [|w'] eqn:Eb; [done|]. intros [= ->]. destruct (bd_dropAll old) as [|e] eqn:Ed; [done|].
  destruct (bd_load w e) as [d1| |] eqn:El; intros [= <-]. by eapply dl_load; [|eapply dl_drop|].
Qed.
