(* ===== verification/Conformance.v ===== *)
(** * Conformance: the test suite of the storage engines

    src/internal/storage/storagetest/storagetest.go.  A test is a script of
    transactions ([script]) that ends with whether it saw what it expects; the
    functions it passes to Update and View are programs.  The tests about who
    owns a returned buffer and about reopening a directory have no counterpart:
    bytes are values here, and a store is what is in it.  Where a test drops the
    error of a write, the program here ends with it, which fails the test; lists
    are compared as lists, where the suite compares their printed text.

    [suite_passes]: an engine that keeps the laws of EngineStore.v, takes every
    write of an open transaction and refuses writes in a view passes the suite,
    so the suite asks for nothing the laws do not give; bbolt and Badger (over
    databases in memory) are such engines. *)
From S2P Require Import Prelude Storage Bolt ScansOk Engine EngineStore Badger.
Import Engine EngineStore.

Module Conformance.

(** ** Scripts *)
Inductive script :=
| Verdict (ok : bool)
| InUpdate (A : Type) (fn : prog A) (k : res A -> script)      (* s.Update *)
| InView (A : Type) (fn : prog A) (k : res A -> script).       (* s.View *)
Arguments InUpdate {A}.
Arguments InView {A}.

Fixpoint plays {S T : Type} `{Store S T} (t : script) (s : S) : bool :=
  match t with
  | Verdict ok => ok
  | InUpdate fn k => let '(r, s) := local_ApplyWrite (exec fn) s in plays (k r) s
  | InView fn k => plays (k (local_View (exec fn) s)) s
  end.

(** The helpers of the suite: [update] stops the test on an error. *)
Definition update {A : Type} (fn : prog A) (k : A -> script) : script := InUpdate fn (fun r => match r with Ok a => k a | Err _ => Verdict false end).
Definition view {A : Type} (fn : prog A) (k : A -> script) : script := InView fn (fun r => match r with Ok a => k a | Err _ => Verdict false end).
Definition get (key : bytes) (k : option bytes -> script) : script := view (Get key) k.
Definition keys (prefix start : bytes) : prog (list bytes) := l ← ScanFrom prefix start; mret ((fun e => e.1 ++ str "=" ++ e.2) <$> (l : list kv)).
Definition viewKeys (prefix start : bytes) (k : list bytes -> script) : script := view (keys prefix start) k.
Definition want {A : Type} `{EqDecision A} (got exp : A) : bool := bool_decide (got = exp).
(** A check that does not stop the test. *)
Fixpoint also (ok : bool) (t : script) : script :=
  match t with
  | Verdict b => Verdict (ok && b)
  | InUpdate fn k => InUpdate fn (fun r => also ok (k r))
  | InView fn k => InView fn (fun r => also ok (k r))
  end.
Definition set_all (ks : list bytes) (v : bytes) : prog unit := for_each (fun k => Set_ k v) ks.

(** ** The tests *)
Definition testSetGetDelete : script :=
  update (Set_ (str "a") (str "1") ≫= fun _ => Set_ (str "empty") []) (fun _ =>
  get (str "a") (fun a => also (want a (Some (str "1")))
  (get (str "empty") (fun e => also (want e (Some []))
  (get (str "missing") (fun m => also (want m None)
  (update (Delete (str "a")) (fun _ =>
  get (str "a") (fun a => also (want a None)
  (update (Delete (str "never-set")) (fun _ => Verdict true))))))))))).

(** [boom] is an error of the function's own. *)
Definition boom : error := ErrOutOfFuel.
Definition testRollback : script :=
  update (Set_ (str "k") (str "old")) (fun _ =>
  InUpdate (Set_ (str "k") (str "new") ≫= fun _ => Set_ (str "k2") (str "x") ≫= fun _ => throw (A := unit) boom) (fun r =>
  match r with
  | Err e =>
      if bool_decide (e = boom) then
        get (str "k") (fun k => also (want k (Some (str "old"))) (
        get (str "k2") (fun k2 => Verdict (want k2 None))))
      else Verdict false
  | Ok _ => Verdict false
  end)).

Definition p_keys : list bytes := [str "p0=n"; str "p1=c"; str "p2=u"; str "p4=n"].
Definition testReadYourWrites : script :=
  update (set_all [str "p1"; str "p2"; str "p3"] (str "c")) (fun _ =>
  update (Set_ (str "p2") (str "u") ≫= fun _ => Delete (str "p3") ≫= fun _ => Set_ (str "p0") (str "n") ≫= fun _ =>
          Set_ (str "p4") (str "n") ≫= fun _ => Set_ (str "p5") (str "n") ≫= fun _ => Delete (str "p5") ≫= fun _ =>
          v2 ← Get (str "p2"); v3 ← Get (str "p3"); l ← keys (str "p") (str "p");
          mret (want v2 (Some (str "u")) && want v3 None && want l p_keys)) (fun ok => also ok (
  viewKeys (str "p") (str "p") (fun l => Verdict (want l p_keys))))).

Definition testScanOrderAndBounds : script :=
  update (set_all [[97]; [98; 255]; [98; 0]; [98; 16]; [98]; [99]] (str "v")) (fun _ =>
  view (l ← Scan (str "b"); mret (l : list kv).*1) (fun got => also (want got [[98]; [98; 0]; [98; 16]; [98; 255]]) (
  viewKeys (str "z") (str "z") (fun l => Verdict (want l []))))).

Definition testScanFrom : script :=
  update (set_all [str "r1"; str "r3"; str "r5"; str "s1"] (str "c")) (fun _ =>
  viewKeys (str "r") (str "r3") (fun l => also (want l [str "r3=c"; str "r5=c"]) (
  viewKeys (str "r") (str "r4") (fun l => also (want l [str "r5=c"]) (
  viewKeys (str "r") (str "r9") (fun l => also (want l []) (
  update (Set_ (str "r2") (str "n") ≫= fun _ => Set_ (str "r4") (str "n") ≫= fun _ => Delete (str "r5") ≫= fun _ =>
          l ← keys (str "r") (str "r3"); mret (want l [str "r3=c"; str "r4=n"])) (fun ok => Verdict ok)))))))).

Definition testIteratorSnapshot : script :=
  update (Set_ (str "n1") (str "c") ≫= fun _ => Set_ (str "n2") (str "c")) (fun _ =>
  update (Set_ (str "n3") (str "before") ≫= fun _ => it ← Scan (str "n");
          got ← map_prog (fun e => Set_ (str "n9") (str "during") ≫= fun _ => mret e.1) it;
          mret (want got [str "n1"; str "n2"; str "n3"])) (fun ok => also ok (
  viewKeys (str "n") (str "n") (fun l => Verdict (want l [str "n1=c"; str "n2=c"; str "n3=before"; str "n9=during"]))))).

(** w00 to w49. *)
Definition w_key (i : nat) : bytes := str "w" ++ [48 + Z.of_nat i / 10; 48 + Z.of_nat i mod 10].
Definition testWriteWhileIterating : script :=
  update (set_all (w_key <$> seq 0 50) (str "c")) (fun _ =>
  update (it ← Scan (str "w");
          n ← fold_prog (fun n e => (if Nat.even n then Delete e.1 else Set_ e.1 (str "u")) ≫= fun _ => mret (S n)) O it;
          mret (want n 50%nat)) (fun ok => also ok (
  viewKeys (str "w") (str "w") (fun got => Verdict (want (length got) 25%nat && want (head got) (Some (str "w01=u")) && want (got !! 24%nat) (Some (str "w49=u"))))))).

Definition testWriteInView : script :=
  InView (Set_ (str "k") (str "v")) (fun r =>
  also (match r with Ok _ => false | Err _ => true end) (
  get (str "k") (fun k => Verdict (want k None)))).

Definition tests : list script :=
  [testSetGetDelete; testRollback; testReadYourWrites; testScanOrderAndBounds; testScanFrom; testIteratorSnapshot; testWriteWhileIterating; testWriteInView].
(** [Run]: each test on a store of its own, just opened. *)
Definition Run {S T : Type} `{Store S T} (open_ : S) : bool := forallb (fun t => plays t open_) tests.
End Conformance.
Import Conformance.

(** ** Engines that take every write *)
Class Reliable (S T : Type) `{Store S T} (contents : S -> store) (inv : S -> T -> Prop) (view : T -> store) (rw : T -> Prop) := {
  rl_laws :: StoreLaws S T contents inv view;
  rl_begin s : rw (begin_update s);
  rl_set s t k v : inv s t -> rw t -> k <> [] -> exists t', t_set t k v = (None, t') /\ rw t';
  rl_delete s t k : inv s t -> rw t -> k <> [] -> exists t', t_delete t k = (None, t') /\ rw t';
  rl_commit s t : inv s t -> rw t -> exists s', commit s t = Ok s';
  rl_view s k v : exists e t', t_set (begin_view s) k v = (Some e, t')
}.

Module ConformanceLaws.

(** A program as it runs on the reference store: its scans start at their prefix
    or later, and it writes only to keys that are not empty, if at all. *)
Fixpoint fine {A : Type} (may_write : bool) (p : prog A) (m : store) : bool :=
  match p with
  | PRet _ | PThrow _ => true
  | PGet key k => fine may_write (k (m !! key)) m
  | PSet key val k => may_write && bool_decide (key <> []) && fine may_write k (<[key := val]> m)
  | PDelete key k => may_write && bool_decide (key <> []) && fine may_write k (delete key m)
  | PScan prefix start k => bool_decide (ble prefix start) && fine may_write (k (scan_store prefix start m)) m
  end.
Fixpoint fine_script (t : script) (m : store) : bool :=
  match t with
  | Verdict _ => true
  | InUpdate fn k => let '(r, m') := run fn m in fine true fn m && fine_script (k r) (match r with Ok _ => m' | Err _ => m end)
  | InView fn k => fine false fn m && fine_script (k (run fn m).1) m
  end.

Section reliable.
Context {S T : Type} `{HS : Store S T} (contents : S -> store) (inv : S -> T -> Prop) (view : T -> store) (rw : T -> Prop) `{HR : !Reliable S T contents inv view rw}.

Lemma exec_fine {A : Type} (p : prog A) s : forall t, inv s t -> rw t -> fine true p (view t) = true ->
  exists t', exec p t = ((run p (view t)).1, t') /\ inv s t' /\ rw t' /\ view t' = (run p (view t)).2.
Proof.
  induction p as [a|e|key k IH|key val k IH|key k IH|pr st k IH]; intros t Hi Hw; cbn; try (by exists t).
  - intros Hf. rewrite (get_law t key Hi). by apply IH.
  - intros [Hk Hf]%andb_true_iff. apply bool_decide_eq_true in Hk. pose proof (set_law t key val Hi) as Hl.
    destruct (rl_set s t key val Hi Hw Hk) as (t' & E & Hw'). rewrite E in *. destruct Hl as [Hi' Hv]. rewrite <- Hv in *. by apply IH.
  - intros [Hk Hf]%andb_true_iff. apply bool_decide_eq_true in Hk. pose proof (delete_law t key Hi) as Hl.
    destruct (rl_delete s t key Hi Hw Hk) as (t' & E & Hw'). rewrite E in *. destruct Hl as [Hi' Hv]. rewrite <- Hv in *. by apply IH.
  - intros [Hb Hf]%andb_true_iff. apply bool_decide_eq_true in Hb. rewrite (scan_law t pr st Hi Hb). by apply IH.
Qed.
Lemma exec_fine_view {A : Type} (p : prog A) s : forall t, inv s t -> fine false p (view t) = true -> (exec p t).1 = (run p (view t)).1.
Proof.
  induction p as [a|e|key k IH|key val k IH|key k IH|pr st k IH]; intros t Hi; cbn; try done.
  - intros Hf. rewrite (get_law t key Hi). by apply IH.
  - intros [Hb Hf]%andb_true_iff. apply bool_decide_eq_true in Hb. rewrite (scan_law t pr st Hi Hb). by apply IH.
Qed.
(** A test gives the same verdict on the engine as on its contents. *)
Lemma plays_reference t : forall s, fine_script t (contents s) = true -> plays t s = plays t (contents s).
Proof.
  induction t as [ok|A fn k IH|A fn k IH]; intros s; [done| |]; cbn [fine_script plays].
  - unfold local_ApplyWrite. cbn [begin_update commit reference_store]. rewrite exec_run. destruct (st_update s) as [Hi Hv].
    destruct (run fn (contents s)) as [r m'] eqn:E. intros [Hf Hk]%andb_true_iff.
    destruct (exec_fine fn s (begin_update s) Hi (rl_begin s)) as (t' & Ex & Hi' & Hw' & Hv'); [by rewrite Hv|]. rewrite Hv, E in Ex, Hv'. cbn in Ex, Hv'. rewrite Ex.
    destruct r as [a|e]; [|by apply IH]. destruct (rl_commit s t' Hi' Hw') as [s' Ec]. rewrite Ec.
    pose proof (st_commit s t' Hi') as Hc. rewrite Ec in Hc. rewrite Hv' in Hc. rewrite <- Hc in Hk |- *. by apply IH.
  - unfold local_View. cbn [begin_view reference_store]. destruct (st_view s) as [Hi Hv]. intros [Hf Hk]%andb_true_iff. rewrite <- Hv in Hf at 1.
    rewrite (exec_fine_view fn s _ Hi Hf), Hv, exec_run. by apply IH.
Qed.
Lemma writeInView_passes s : contents s = ∅ -> plays testWriteInView s = true.
Proof.
  intros Hs. unfold testWriteInView. cbn [plays]. unfold local_View. cbn [Set_ exec]. destruct (rl_view s (str "k") (str "v")) as (e & t' & ->). cbn [fst].
  cbn [also get Conformance.view plays]. unfold local_View. destruct (st_view s) as [Hi Hv].
  rewrite (exec_fine_view (Get (str "k")) s _ Hi ltac:(done)), Hv, Hs. done.
Qed.
End reliable.
End ConformanceLaws.
Import ConformanceLaws.

(** Every engine that keeps the laws, takes the writes of an open transaction
    and refuses those of a view passes the conformance suite on an empty store. *)
Theorem suite_passes {S T : Type} `{HS : Store S T} (contents : S -> store) (inv : S -> T -> Prop) (view : T -> store) (rw : T -> Prop)
    `{!Reliable S T contents inv view rw} (s : S) : contents s = ∅ -> Run s = true.
Proof.
  intros Hs. unfold Run, tests. cbn [forallb].
  rewrite !(plays_reference contents inv view rw) by (rewrite Hs; vm_compute; reflexivity). rewrite (writeInView_passes contents inv view rw) by done.
  rewrite Hs. vm_compute. reflexivity.
Qed.

(** ** bbolt and Badger, over databases in memory *)
Lemma apply_pending_store l : forall b : store, exists b', apply_pending b l = (None, b').
Proof. induction l as [|[k [v|]] l IH]; intros b; cbn; [by exists b|apply IH..]. Qed.
#[global] Instance bolt_reliable : Reliable store (Bolt.txn store) id (fun b t => tx_b t = b) (tx_view id) (fun t => tx_closed t = false /\ is_Some (tx_pending t)).
Proof.
  split.
  - apply _.
  - done.
  - intros s [b p cl] k v _ [Hc [q Hq]] Hk. cbn in *. subst. destruct k; [done|]. eexists. split; [done|]. by split; [|eexists].
  - intros s [b p cl] k _ [Hc [q Hq]] Hk. cbn in *. subst. eexists. split; [done|]. by split; [|eexists].
  - intros s t _ _. cbn. destruct (apply_pending_store (merge_sort pend_le (map_to_list (pending_of t))) s) as [b' ->]. by exists b'.
  - intros s k v. cbn. eauto.
Qed.
#[global] Instance badger_reliable : Reliable store mem_txn id (fun d t => m_snap t = d) m_now (fun t => m_rw t = true).
Proof.
  split.
  - apply _.
  - done.
  - intros s t k v _ Hw _. cbn. unfold Badger.txn_Set. cbn. rewrite Hw. eexists. by split.
  - intros s t k _ Hw _. cbn. unfold Badger.txn_Delete. cbn. rewrite Hw. eexists. by split.
  - intros s t Ht _. cbn. rewrite decide_True by done. cbn. eauto.
  - intros s k v. cbn. unfold Badger.txn_Set. cbn. eauto.
Qed.
Lemma suite_passes_witness : Run (S := store) (T := Bolt.txn store) ∅ = true /\ Run (S := store) (T := mem_txn) ∅ = true.
Proof.
  split.
  - exact (suite_passes (S := store) (T := Bolt.txn store) id _ _ _ ∅ eq_refl).
  - exact (suite_passes (S := store) (T := mem_txn) id _ _ _ ∅ eq_refl).
Defined.
