(* ===== verification/Explain.v ===== *)
(** * Explain: the plan of a query as text

    src/query/plan/explain.go and DB.Explain of src/intreccio.go.  A plan is
    printed one operator per line, children below their parent and two spaces
    further in.  [read_tree] reads such a text back; [explain_roundtrip] says it
    finds the operators of the plan the query would run. *)
From S2P Require Import Prelude Float64 FloatArith Values Ast Plan Scalars Text Keys Records Storage Catalog Graph Context Functions Params Eval Lexer Parser ClauseText Sema Planner Bolt.
From S2P Require Import Shortest Aggregate Expand Write StableSort RangeScan Operators PlannerClaims GraphClaims Engine EngineStore.
Import Ast Scalars Text Context Functions Params Eval Parser Planner Operators Engine.

Module Explain.

(** ** Parts of a description *)
Definition in_brackets (inner : bytes) : bytes := match inner with [] => [] | _ => str "[" ++ inner ++ str "]" end.
Definition arrow (d : Direction) (body : bytes) : bytes :=
  match d with
  | DirOut => str "-" ++ body ++ str "->"
  | DirIn => str "<-" ++ body ++ str "-"
  | DirBoth => str "-" ++ body ++ str "-"
  end.
Definition typeList (types : list bytes) : bytes := match types with [] => [] | _ => str ":" ++ join (str "|") types end.
Definition hops (n : Z) : bytes := if n <? 0 then [] else dec n.
Definition relArrow (rel : bytes) (types : list bytes) (dir : Direction) (varLength : bool) (minHops maxHops : Z) : bytes :=
  arrow dir (in_brackets (rel ++ typeList types ++ (if varLength then str "*" ++ hops minHops ++ str ".." ++ hops maxHops else []))).
Definition labelsString (labels : list bytes) : bytes := concat ((fun l => str ":" ++ l) <$> labels).

Section explain.
Context `{Runtime}.

(** [sortStrings]: each string moves left past the greater ones before it; the
    sorted part is kept in reverse. *)
Fixpoint sift (x : bytes) (before : list bytes) : list bytes :=
  match before with
  | y :: before' => match bcmp y x with Gt => y :: sift x before' | _ => x :: before end
  | [] => [x]
  end.
Definition sortStrings (s : list bytes) : list bytes := rev (foldl (fun acc x => sift x acc) [] s).

Definition propsString (props : list (bytes * Expr)) : bytes :=
  let value_of k := match find (fun e => bool_decide (e.1 = k)) props with Some e => Sema.exprString e.2 | None => [] end in
  str "{" ++ join (str ", ") ((fun k => k ++ str ": " ++ value_of k) <$> sortStrings props.*1) ++ str "}".
Definition nodeString (n : NodePattern) : bytes :=
  str "(" ++ np_Variable n ++ labelsString (np_Labels n)
  ++ (match np_Props n with [] => [] | _ => str " " ++ propsString (np_Props n) end) ++ str ")".
Definition relString (r : RelPattern) : bytes :=
  let inner := rp_Variable r ++ typeList (rp_Types r) in
  arrow (rp_Direction r) (in_brackets
    (match rp_Props r with [] => inner | _ => inner ++ (match inner with [] => [] | _ => str " " end) ++ propsString (rp_Props r) end)).
Definition patternString (p : PatternPart) : bytes :=
  nodeString (pp_Start p) ++ concat ((fun ch => relString (ch_Rel ch) ++ nodeString (ch_Node ch)) <$> pp_Chain p).
Definition patternsString (parts : list PatternPart) : bytes := join (str ", ") (patternString <$> parts).

(** The parser never leaves the target of an item out. *)
Definition targetString (t : option (Expr * bytes)) : bytes := match t with Some (e, k) => Sema.exprString (PropertyAccess e k) | None => [] end.
Definition setClauseString (it : SetClause) : bytes :=
  match it with
  | SetPropertyItem t v => targetString t ++ str " = " ++ Sema.exprString v
  | SetLabelsItem v labels => v ++ labelsString labels
  | SetMapItem v e replace => v ++ str " " ++ (if replace then str "=" else str "+=") ++ str " " ++ Sema.exprString e
  end.
Definition setClausesString (items : list SetClause) : bytes := join (str ", ") (setClauseString <$> items).
Definition removeClauseString (it : RemoveClause) : bytes :=
  match it with
  | RemovePropertyItem t => targetString t
  | RemoveLabelsItem v labels => v ++ labelsString labels
  end.
Definition removeClausesString (items : list RemoveClause) : bytes := join (str ", ") (removeClauseString <$> items).

Definition distinctPrefix (d : bool) : bytes := if d then str "DISTINCT " else [].
Definition projString (it : ProjItem) : bytes :=
  let s := Sema.exprString (pi_Expr it) in
  s ++ (if bool_decide (pi_Column it <> []) && bool_decide (pi_Column it <> s) then str " AS " ++ pi_Column it else []).
Definition projList (items : list ProjItem) : bytes := join (str ", ") (projString <$> items).
Definition sortList (keys : list SortKey) : bytes :=
  join (str ", ") ((fun k => Sema.exprString (sk_Expr k) ++ (if sk_Desc k then str " DESC" else [])) <$> keys).

(** The conditions of a range scan. *)
Definition rangeParts (Key : bytes) (Lower Upper : option Expr) (LowerInclusive UpperInclusive : bool) (Prefix : option Expr) : list bytes :=
  match Prefix with Some e => [Key ++ str " STARTS WITH " ++ Sema.exprString e] | None => [] end
  ++ match Lower with Some e => [Key ++ (if LowerInclusive then str " >= " else str " > ") ++ Sema.exprString e] | None => [] end
  ++ match Upper with Some e => [Key ++ (if UpperInclusive then str " <= " else str " < ") ++ Sema.exprString e] | None => [] end.

(** ** An operator: its line and its children *)
Definition describe (o : Plan.Op) : bytes * list Plan.Op :=
  match o with
  | Plan.Nothing => ([], [])
  | Plan.AllNodesScan v => (str "AllNodesScan(" ++ v ++ str ")", [])
  | Plan.NodeByLabelScan v l => (str "NodeByLabelScan(" ++ v ++ str ":" ++ l ++ str ")", [])
  | Plan.NodeByProperty v l k e => (str "NodeByProperty(" ++ v ++ str ":" ++ l ++ str " {" ++ k ++ str " = " ++ Sema.exprString e ++ str "})", [])
  | Plan.NodeByPropertyRange v l k lo up li ui pre =>
      (str "NodeByPropertyRange(" ++ v ++ str ":" ++ l ++ str " {" ++ join (str ", ") (rangeParts k lo up li ui pre) ++ str "})", [])
  | Plan.Expand i f r t ts d vl mn mx _ _ _ => (str "Expand(" ++ f ++ str ")" ++ relArrow r ts d vl mn mx ++ str "(" ++ t ++ str ")", [i])
  | Plan.RelByProperty r f t d ty k e =>
      (str "RelByProperty((" ++ f ++ str ")" ++ relArrow r [ty] d false 0 0 ++ str "(" ++ t ++ str ") {" ++ k ++ str " = " ++ Sema.exprString e ++ str "})", [])
  | Plan.ShortestPath i f t pv rv ts d mn mx all =>
      ((if all then str "AllShortestPaths" else str "ShortestPath") ++ str "(" ++ f ++ str ")" ++ relArrow rv ts d true mn mx ++ str "(" ++ t ++ str ")"
       ++ (match pv with [] => [] | _ => str " AS " ++ pv end), [i])
  | Plan.Filter i e => (str "Filter(" ++ Sema.exprString e ++ str ")", [i])
  | Plan.Project i its d => (str "Project(" ++ distinctPrefix d ++ projList its ++ str ")", [i])
  | Plan.Aggregate i g a _ => (str "Aggregate(group=[" ++ projList g ++ str "] aggs=[" ++ projList a ++ str "])", [i])
  | Plan.Sort i ks => (str "Sort(" ++ sortList ks ++ str ")", [i])
  | Plan.Skip i e => (str "Skip(" ++ Sema.exprString e ++ str ")", [i])
  | Plan.Limit i e => (str "Limit(" ++ Sema.exprString e ++ str ")", [i])
  | Plan.CartesianProduct l r => (str "CartesianProduct", [l; r])
  | Plan.Create i ps => (str "Create(" ++ patternsString ps ++ str ")", [i])
  | Plan.Merge i p _ _ => (str "Merge(" ++ patternsString [p] ++ str ")", [i])
  | Plan.SetItems i its => (str "Set(" ++ setClausesString its ++ str ")", [i])
  | Plan.Remove i its => (str "Remove(" ++ removeClausesString its ++ str ")", [i])
  | Plan.Unwind i e a => (str "Unwind(" ++ Sema.exprString e ++ str " AS " ++ a ++ str ")", [i])
  | Plan.Argument => (str "Argument", [])
  | Plan.Apply o i => (str "Apply", [o; i])
  | Plan.OuterApply o i vs => (str "OuterApply(new=[" ++ join (str ", ") vs ++ str "])", [o; i])
  | Plan.Union ps _ all => (if all then str "UnionAll" else str "Union", ps)
  | Plan.Delete i es detach => ((if detach then str "DetachDelete" else str "Delete") ++ str "(" ++ join (str ", ") (Sema.exprString <$> es) ++ str ")", [i])
  | Plan.CreateIndex _ l p rel =>
      (if rel then str "CreateIndex(()-[:" ++ l ++ str "]-()." ++ p ++ str ")" else str "CreateIndex(:" ++ l ++ str "." ++ p ++ str ")", [])
  | Plan.DropIndex n _ => (str "DropIndex(" ++ n ++ str ")", [])
  | Plan.ShowIndexes => (str "ShowIndexes", [])
  | Plan.CreateConstraint _ l p => (str "CreateConstraint(:" ++ l ++ str "." ++ p ++ str " UNIQUE)", [])
  | Plan.DropConstraint n _ => (str "DropConstraint(" ++ n ++ str ")", [])
  | Plan.ShowConstraints => (str "ShowConstraints", [])
  end.

(** ** The text; nothing is printed for a nil operator *)
Definition indent (depth : nat) : bytes := concat (replicate depth (str "  ")).
Definition line (depth : nat) (desc : bytes) : bytes := indent depth ++ desc ++ [10].
Fixpoint explain (o : Plan.Op) (depth : nat) : bytes :=
  let desc := (describe o).1 in
  match o with
  | Plan.Nothing => []
  | Plan.Expand i _ _ _ _ _ _ _ _ _ _ _ | Plan.ShortestPath i _ _ _ _ _ _ _ _ _ | Plan.Filter i _ | Plan.Project i _ _ | Plan.Aggregate i _ _ _
  | Plan.Sort i _ | Plan.Skip i _ | Plan.Limit i _ | Plan.Create i _ | Plan.Merge i _ _ _ | Plan.SetItems i _ | Plan.Remove i _ | Plan.Unwind i _ _
  | Plan.Delete i _ _ => line depth desc ++ explain i (S depth)
  | Plan.CartesianProduct l r | Plan.Apply l r | Plan.OuterApply l r _ => line depth desc ++ explain l (S depth) ++ explain r (S depth)
  | Plan.Union ps _ _ => line depth desc ++ concat ((fun p => explain p (S depth)) <$> ps)
  | _ => line depth desc
  end.
Definition Explain_ (root : Plan.Op) : bytes := explain root 0.

(** The recursion of the source: the line, then each child one level further in. *)
Lemma explain_children o depth :
  explain o depth = match o with
    | Plan.Nothing => []
    | _ => line depth (describe o).1 ++ concat ((fun c => explain c (S depth)) <$> (describe o).2)
    end.
Proof. destruct o; cbn [explain describe snd fmap list_fmap concat]; by rewrite ?app_nil_r. Qed.

(** *** The order of a Go map does not show *)
Definition bge (a b : bytes) : Prop := ble b a.
Lemma sift_perm x l : sift x l ≡ₚ x :: l.
Proof. induction l as [|y l IH]; cbn [sift]; [done|]. destruct (bcmp y x); [done|done|]. rewrite IH. constructor. Qed.
Lemma sift_sorted x l : StronglySorted bge l -> StronglySorted bge (sift x l).
Proof.
  induction 1 as [|y l Hl IH Hy]; cbn [sift]; [repeat constructor|]. destruct (bcmp y x) eqn:E.
  1,2: constructor; [by constructor|]; assert (ble y x) as Hyx by (unfold ble; congruence); constructor; [done|]; eapply Forall_impl; [exact Hy|]; cbn; intros z Hz; by eapply ble_trans.
  constructor; [done|]. rewrite sift_perm. constructor; [|done]. cbn. destruct (ble_total x y) as [|Hyx]; [done|]. unfold ble in Hyx. congruence.
Qed.
Lemma sortStrings_perm s : sortStrings s ≡ₚ s.
Proof.
  unfold sortStrings. rewrite <- Permutation_rev. enough (forall acc, foldl (fun acc x => sift x acc) acc s ≡ₚ s ++ acc) as Hs by (by rewrite Hs, app_nil_r).
  induction s as [|x s IH]; intros acc; cbn [foldl app]; [done|]. rewrite IH, sift_perm. by rewrite Permutation_middle.
Qed.
Lemma sortStrings_sorted s : StronglySorted ble (sortStrings s).
Proof.
  unfold sortStrings. enough (StronglySorted bge (foldl (fun acc x => sift x acc) [] s)) as Hs.
  { revert Hs. generalize (foldl (fun acc x => sift x acc) [] s) as l. induction 1 as [|x l Hl IH Hx]; [constructor|]. cbn [rev].
    apply StronglySorted_app_2; [|done|repeat constructor]. intros a b Ha ->%list_elem_of_singleton. rewrite <- Permutation_rev in Ha. rewrite Forall_forall in Hx. by apply Hx. }
  assert (forall acc, StronglySorted bge acc -> StronglySorted bge (foldl (fun acc x => sift x acc) acc s)) as Hgen; [|apply Hgen; constructor].
  induction s as [|x s IH]; intros acc Hacc; cbn [foldl]; [done|]. by apply IH, sift_sorted.
Qed.
Lemma sortStrings_proper s s' : s ≡ₚ s' -> sortStrings s = sortStrings s'.
Proof.
  intros Hp. eapply (StronglySorted_unique ble); [apply sortStrings_sorted..|]. by rewrite !sortStrings_perm.
Qed.

(** ** DB.Explain *)
Definition db_Explain `{!Unicode, !MapOrder} {S T : Type} `{Store S T} (text : bytes) (s : S) : res bytes :=
  q ← Parse text;
  _ ← Sema.Analyze q;
  local_View (fun t => (p ← Plan_ q (planCatalog t); Ok (Explain_ p), t)) s.

(** ** Reading it back *)
Inductive tree := Node (desc : bytes) (kids : list tree).

(** The tree of descriptions of a plan (none for a nil operator). *)
Fixpoint shape (o : Plan.Op) : list tree :=
  let desc := (describe o).1 in
  match o with
  | Plan.Nothing => []
  | Plan.Expand i _ _ _ _ _ _ _ _ _ _ _ | Plan.ShortestPath i _ _ _ _ _ _ _ _ _ | Plan.Filter i _ | Plan.Project i _ _ | Plan.Aggregate i _ _ _
  | Plan.Sort i _ | Plan.Skip i _ | Plan.Limit i _ | Plan.Create i _ | Plan.Merge i _ _ _ | Plan.SetItems i _ | Plan.Remove i _ | Plan.Unwind i _ _
  | Plan.Delete i _ _ => [Node desc (shape i)]
  | Plan.CartesianProduct l r | Plan.Apply l r | Plan.OuterApply l r _ => [Node desc (shape l ++ shape r)]
  | Plan.Union ps _ _ => [Node desc (concat (shape <$> ps))]
  | _ => [Node desc []]
  end.

(** A forest as its lines, with their depths, and back. *)
Fixpoint flat_tree (d : nat) (t : tree) : list (nat * bytes) := let 'Node l kids := t in (d, l) :: concat (flat_tree (S d) <$> kids).
Definition flat (d : nat) (ts : list tree) : list (nat * bytes) := concat (flat_tree d <$> ts).
Fixpoint forest (fuel : nat) (d : nat) (ls : list (nat * bytes)) : list tree * list (nat * bytes) :=
  match fuel, ls with
  | S fuel, (k, l) :: rest =>
      if (k =? d)%nat then
        let '(kids, rest) := forest fuel (S d) rest in
        let '(sibs, rest) := forest fuel d rest in
        (Node l kids :: sibs, rest)
      else ([], ls)
  | _, _ => ([], ls)
  end.

Fixpoint lines (cur s : bytes) : list bytes :=
  match s with
  | [] => match cur with [] => [] | _ => [rev cur] end
  | b :: s => if b =? 10 then rev cur :: lines [] s else lines (b :: cur) s
  end.
Fixpoint undent (s : bytes) : nat * bytes :=
  match s with
  | b :: s0 => match s0 with
    | c :: s' => if (b =? 32) && (c =? 32) then let '(n, l) := undent s' in (S n, l) else (O, s)
    | [] => (O, s)
    end
  | [] => (O, s)
  end.
Definition read_tree (s : bytes) : list tree := let ls := undent <$> lines [] s in (forest (S (length ls)) 0 ls).1.

(** Every description is on one line. *)
Definition one_line (o : Plan.Op) : Prop := Forall (fun e => 10 ∉ e.2) (flat 0 (shape o)).
#[global] Instance one_line_dec o : Decision (one_line o).
Proof. unfold one_line. apply _. Defined.

(** *** Forests *)
Lemma flat_app d ts us : flat d (ts ++ us) = flat d ts ++ flat d us.
Proof. unfold flat. by rewrite fmap_app, concat_app. Qed.
Lemma flat_node d l kids ts : flat d (Node l kids :: ts) = (d, l) :: flat (S d) kids ++ flat d ts.
Proof. done. Qed.
Definition below (d : nat) (ls : list (nat * bytes)) : Prop := match ls with [] => True | (k, _) :: _ => (k < d)%nat end.
Lemma below_flat d ts rest : below d rest -> below (S d) (flat d ts ++ rest).
Proof. destruct ts as [|[l kids] ts]; [destruct rest as [|[k ?] ?]; cbn; lia|]. intros _. rewrite flat_node. cbn. lia. Qed.
Lemma forest_flat fuel : forall d ts rest, (length (flat d ts) < fuel)%nat -> below d rest -> forest fuel d (flat d ts ++ rest) = (ts, rest).
Proof.
  induction fuel as [|fuel IH]; intros d ts rest Hf Hb; [lia|]. destruct ts as [|[l kids] ts].
  - cbn [flat fmap list_fmap concat app]. destruct rest as [|[k l] rest]; [done|]. cbn in Hb |- *. by rewrite (proj2 (Nat.eqb_neq k d)) by lia.
  - rewrite flat_node in *. cbn [length] in Hf. rewrite length_app in Hf. rewrite <- app_comm_cons, <- app_assoc. cbn [forest]. rewrite Nat.eqb_refl.
    rewrite IH by (lia || by apply below_flat). by rewrite IH by (done || lia).
Qed.

(** *** Lines *)
Lemma lines_line cur l s : 10 ∉ l -> lines cur (l ++ 10 :: s) = (rev cur ++ l) :: lines [] s.
Proof.
  revert cur. induction l as [|b l IH]; intros cur Hl; cbn [app lines].
  - by rewrite app_nil_r.
  - apply not_elem_of_cons in Hl as [Hb Hl]. destruct (Z.eqb_spec b 10); [congruence|]. rewrite IH by done. cbn [rev]. by rewrite <- app_assoc.
Qed.
Lemma indent_S k : indent (S k) = 32 :: 32 :: indent k.
Proof. done. Qed.
Lemma indent_plain k : 10 ∉ indent k.
Proof. induction k as [|k IH]; [apply not_elem_of_nil|]. rewrite indent_S. rewrite !not_elem_of_cons. split; [lia|]. split; [lia|done]. Qed.
Lemma undent_indent k l : head l <> Some 32 -> undent (indent k ++ l) = (k, l).
Proof.
  intros Hl. induction k as [|k IH]; [|rewrite indent_S; cbn [app undent Z.eqb Pos.eqb andb]; by rewrite IH].
  cbn [indent replicate concat app]. destruct l as [|b [|c l]]; [done|done|]. cbn [undent]. destruct (Z.eqb_spec b 32); [subst; done|done].
Qed.
Definition render (ls : list (nat * bytes)) : bytes := concat ((fun e => line e.1 e.2) <$> ls).
Lemma lines_render ls : Forall (fun e => 10 ∉ e.2 /\ head e.2 <> Some 32) ls -> undent <$> lines [] (render ls) = ls.
Proof.
  induction 1 as [|[k l] ls [Hl Hh] Hls IH]; [done|]. unfold render. cbn [fmap list_fmap concat]. fold (render ls). unfold line. cbn [fst snd].
  rewrite <- !app_assoc. cbn [app]. rewrite (app_assoc (indent k) l), lines_line by (rewrite not_elem_of_app; split; [apply indent_plain|done]).
  cbn [rev app fmap list_fmap]. rewrite undent_indent by done. by f_equal.
Qed.

(** *** Plans *)
Lemma describe_head o : o <> Plan.Nothing -> head (describe o).1 <> Some 32.
Proof. intros Ho. destruct o; try done; cbn [describe fst]; repeat match goal with |- context [if ?b then _ else _] => destruct b end; discriminate. Qed.
Lemma shape_children o :
  shape o = match o with Plan.Nothing => [] | _ => [Node (describe o).1 (concat (shape <$> (describe o).2))] end.
Proof. destruct o; cbn [shape describe snd fmap list_fmap concat]; by rewrite ?app_nil_r. Qed.
Lemma flat_concat d tss : flat d (concat tss) = concat (flat d <$> tss).
Proof. induction tss as [|ts tss IH]; [done|]. cbn [concat fmap list_fmap]. by rewrite flat_app, IH. Qed.
Lemma render_app a b : render (a ++ b) = render a ++ render b.
Proof. unfold render. by rewrite fmap_app, concat_app. Qed.

(** An operator is its line and its children, for a property of plans. *)
Lemma op_children_ind (P : Plan.Op -> Prop) : P Plan.Nothing -> (forall o, o <> Plan.Nothing -> Forall P (describe o).2 -> P o) -> forall o, P o.
Proof. intros H0 HS o. induction o using Plan.op_ind'; [done|..]; (apply HS; [done|]); cbn [describe snd]; repeat constructor; done. Qed.
Lemma explain_render o : forall d, explain o d = render (flat d (shape o)).
Proof.
  induction o as [|o Ho IH] using op_children_ind; intros d; [done|]. rewrite explain_children, shape_children.
  transitivity (line d (describe o).1 ++ concat ((fun c => explain c (S d)) <$> (describe o).2)); [by destruct o|].
  transitivity (render (flat d [Node (describe o).1 (concat (shape <$> (describe o).2))])); [|by destruct o].
  rewrite flat_node. cbn [flat fmap list_fmap concat]. rewrite app_nil_r. change (render ((d, ?l) :: ?ls)) with (line d l ++ render ls). f_equal.
  rewrite flat_concat. induction IH as [|c cs Hc Hcs IHcs]; [done|]. cbn [fmap list_fmap concat]. rewrite render_app, <- Hc. f_equal. apply IHcs.
Qed.
Lemma shape_heads o : forall d, Forall (fun e => head e.2 <> Some 32) (flat d (shape o)).
Proof.
  induction o as [|o Ho IH] using op_children_ind; intros d; [constructor|]. rewrite shape_children.
  enough (Forall (fun e => head e.2 <> Some 32) (flat d [Node (describe o).1 (concat (shape <$> (describe o).2))])) by (by destruct o).
  rewrite flat_node. cbn [flat fmap list_fmap concat]. rewrite app_nil_r. constructor; [by apply describe_head|].
  rewrite flat_concat. induction IH as [|c cs Hc Hcs IHcs]; [constructor|]. cbn [fmap list_fmap concat]. apply Forall_app. split; [done|]. apply IHcs.
Qed.
Lemma read_explain o : one_line o -> read_tree (Explain_ o) = shape o.
Proof.
  intros Ho. unfold read_tree, Explain_. rewrite explain_render, lines_render.
  - rewrite <- (app_nil_r (flat 0 (shape o))) at 2. rewrite forest_flat; [done|lia|done].
  - apply Forall_and. split; [exact Ho|apply shape_heads].
Qed.
End explain.
End Explain.
Import Explain.

(** Running a plan in a transaction. *)
Definition run_plan `{Runtime, Unicode, MapOrder} {T : Type} `{Txn T} (fuel : nat) (p : Plan.Op) (columns : list bytes) (params : gmap (list Z) value) (o : queryOptions) (t : T) : res Result * T :=
  match exec (Run fuel p columns (query_context params o)) t with
  | (Ok (Ok rows, _), t') => (Ok (mkResult columns rows), t')
  | (Ok (Err e, _), t') => (Err e, t')
  | (Err e, t') => (Err e, t')
  end.


Lemma res_Ok_inj {A : Type} (a b : A) : Ok a = Ok b -> a = b.
Proof. by intros [=]. Qed.

Section concrete.
#[local] Existing Instance plain_runtime.
#[local] Existing Instance ClauseText.plain_unicode.
#[local] Existing Instance listed_order.

(** MATCH (a:P)-[:R]->(b) WHERE a.name = 'x' RETURN b on an empty database. *)
Definition sample_text : bytes := str "MATCH (a:P)-[r:R]->(b) WHERE a.name = 'x' RETURN b.name AS n".
Definition sample_shape : list tree :=
  [Node (str "Project(b.name AS n)")
    [Node (str "Filter(a.name = 'x')") [Node (str "Expand(a)-[r:R]->(b)") [Node (str "NodeByLabelScan(a:P)") []]]]].
Definition sample_out : bytes := match db_Explain (S := store) (T := Bolt.txn store) sample_text ∅ with Ok out => out | Err _ => [] end.
Definition sample_query : Query := match Parse sample_text with Ok q => q | Err _ => mkQuery [] [] end.
Definition sample_plan : Plan.Op := match Plan_ sample_query (planCatalog (begin_view (S := store) (T := Bolt.txn store) ∅)) with Ok p => p | Err _ => Plan.Nothing end.
End concrete.
