(* ===== verification/Cli.v ===== *)
(** * Cli: the command-line shell

    src/cmd/intreccio/main.go (the read-eval-print loop, batches from the editor,
    printing of results) and the peer list of src/cmd/intreccio/cluster.go.  The
    shell is a function of its whole input; what it shows is a list of [shown].
    Prompts on a terminal are left out, the editor is the parameter [edit], and a
    table is its cells, before text/tabwriter aligns them. *)
From S2P Require Import Prelude Float64 FloatArith Values Ast Plan Scalars Text Keys Records Storage Catalog Graph Context Functions Params Eval Lexer Parser ClauseText Sema Planner Bolt.
From S2P Require Import Shortest Aggregate Expand Write StableSort RangeScan Operators GraphClaims Node Engine.
Import Ast Scalars Text Context Functions Params Eval Parser Planner Operators Engine.

Module Cli.

(** ** Text *)
Definition HasSuffix (s suffix : bytes) : bool := has_prefix (rev suffix) (rev s).
(** [strings.TrimRight] with a set of ASCII characters. *)
Fixpoint drop_all (set s : bytes) : bytes := match s with b :: s' => if existsb (Z.eqb b) set then drop_all set s' else s | [] => [] end.
Definition TrimRight (s set : bytes) : bytes := rev (drop_all set (rev s)).

(** [bufio.Reader.ReadString('\n')] until the end: the lines with their line
    break, and what is left at the end of the input ([true]). *)
Fixpoint read_lines (cur s : bytes) : list (bytes * bool) :=
  match s with
  | [] => [(rev cur, true)]
  | b :: s => if b =? 10 then (rev (10 :: cur), false) :: read_lines [] s else read_lines (b :: cur) s
  end.

Section shell.
Context `{Runtime, Unicode, MapOrder} {S T : Type} `{Store S T} (fuel : nat) (edit : bytes -> res bytes).

(** ** Results *)
Definition renderValue (v : value) : bytes := match v with VNull => str "null" | VStr s => s | _ => sprint_v v end.
Inductive shown :=
| Table (cells : list (list bytes)) (footer : bytes)
| Done                                    (* OK *)
| Help
| Failed (e : error).
Definition printResult (r : Result) : shown :=
  match Columns r with
  | [] => Done
  | _ =>
      Table (Columns r :: ((fun c : bytes => replicate (length c) 45) <$> Columns r) :: ((fun row : list value => renderValue <$> row) <$> Rows r))
        (str "(" ++ dec (len (Rows r)) ++ str " row" ++ (if bool_decide (length (Rows r) = 1%nat) then [] else str "s") ++ str ")")
  end.

(** [execute]: a query without parameters, its table or its error. *)
Definition execute (query : bytes) (s : S) : shown * S :=
  match Query_ fuel None (mkRequest query [] no_options) s with
  | (Ok r, s) => (printResult r, s)
  | (Err e, s) => (Failed e, s)
  end.

(** [runBatch]: the pieces between semicolons. *)
Definition statements (content : bytes) : list bytes := filter (fun q => q <> []) (TrimSpace <$> Split content (str ";")).
Fixpoint run_all (queries : list bytes) (s : S) : list shown * S :=
  match queries with
  | [] => ([], s)
  | q :: queries => let '(o, s) := execute q s in let '(os, s) := run_all queries s in (o :: os, s)
  end.
Definition runBatch (content : bytes) (s : S) : list shown * S := run_all (statements content) s.

(** ** The loop *)
Definition is_edit (trimmed : bytes) : bool := bool_decide (trimmed ∈ [str ":edit"; str ":e"]).
Definition is_quit (trimmed : bytes) : bool := bool_decide (trimmed ∈ [str ":quit"; str ":exit"; str "quit"; str "exit"]).
(** The statement in the buffer, without its semicolons. *)
Definition clean (buf : bytes) : bytes := TrimSpace (TrimRight (TrimSpace buf) (str ";")).

(** What a line leads to: the end of the loop, or a new buffer, after some work. *)
Inductive reaction := Quit | Goes (buf : bytes) (work : list bytes) (out : list shown).
Definition react (buf text : bytes) (eof : bool) : reaction :=
  let line := TrimRight text [10; 13] in
  let trimmed := TrimSpace line in
  if is_edit trimmed then
    match edit buf with
    | Err e => Goes [] [] [Failed e]
    | Ok content => Goes [] (statements content) []
    end
  else if bool_decide (buf = []) && bool_decide (trimmed = []) then Goes [] [] []
  else if bool_decide (buf = []) && is_quit trimmed then Quit
  else if bool_decide (buf = []) && bool_decide (trimmed = str ":help") then Goes [] [] [Help]
  else
    let buf := if bool_decide (line <> []) || bool_decide (buf <> []) then buf ++ line ++ [10] else buf in
    if HasSuffix trimmed (str ";") || (eof && bool_decide (buf <> [])) then
      let query := clean buf in
      Goes [] (match query with [] => [] | _ => [query] end) []
    else Goes buf [] [].
Fixpoint loop (lines : list (bytes * bool)) (buf : bytes) (s : S) : list shown * S :=
  match lines with
  | [] => ([], s)
  | (text, eof) :: lines =>
      match react buf text eof with
      | Quit => ([], s)
      | Goes buf work out =>
          let '(done_, s) := run_all work s in
          if (eof : bool) then (out ++ done_, s) else let '(rest, s) := loop lines buf s in (out ++ done_ ++ rest, s)
      end
  end.
Definition repl (input : bytes) (s : S) : list shown * S := loop (read_lines [] input) [] s.
End shell.

(** ** The peer list: id=raftAddr=forwardAddr,... *)
Definition parsePeer (item : bytes) : res Node.Peer :=
  match Split item (str "=") with [id; raft; fwd] => Ok (Node.mkPeer id raft fwd) | _ => Err ErrNode end.
Fixpoint parse_items (items : list bytes) : res (list Node.Peer) :=
  match items with
  | [] => Ok []
  | item :: items => match TrimSpace item with [] => parse_items items | item => p ← parsePeer item; ps ← parse_items items; Ok (p :: ps) end
  end.
Definition parsePeers (s : bytes) : res (list Node.Peer) :=
  match TrimSpace s with [] => Ok [] | s => parse_items (Split s (str ",")) end.

(** The flags of a cluster binary, and the configuration [openCluster] opens a
    node with: none when the binary runs embedded. *)
Record flags := mkFlags {
  clusterID : bytes;
  clusterData : bytes;
  clusterBind : bytes;
  clusterForward : bytes;
  clusterRole : bytes;
  clusterBootstrap : bool;
  clusterPeers : bytes;
  clusterTLSCert : bytes;
  clusterTLSKey : bytes;
  clusterTLSCA : bytes
}.
Definition cluster_role (r : bytes) : res Node.Role :=
  if bool_decide (r = str "voter") then Ok Node.RoleVoter else if bool_decide (r = str "client") then Ok Node.RoleClient else Err ErrNode.
Definition openCluster (f : flags) : option (res Node.Config) :=
  match clusterID f with
  | [] => None
  | _ => Some (
      peers ← parsePeers (clusterPeers f);
      role ← cluster_role (clusterRole f);
      let tls := bool_decide (clusterTLSCert f <> []) || bool_decide (clusterTLSKey f <> []) || bool_decide (clusterTLSCA f <> []) in
      Ok (Node.mkConfig (clusterID f) (clusterData f) (clusterBind f) (clusterForward f) role (clusterBootstrap f) peers tls 0 0 0 0))
  end.

(** ** Statements come through

    A statement as it is typed: ASCII, without semicolons and carriage returns,
    from its first to its last character that is no space; its first line is no
    command of the shell and no line of it is :edit. *)
Definition plain_text (q : bytes) : Prop := is_ascii q = true /\ 59 ∉ q /\ 13 ∉ q.
Definition tight (q : bytes) : Prop := (forall b, head q = Some b -> IsSpace b = false) /\ (forall b, last q = Some b -> IsSpace b = false).
Record statement (ls : list bytes) : Prop := {
  st_lines : Forall (fun l => plain_text l /\ 10 ∉ l /\ is_edit (TrimSpace l) = false) ls;
  st_tight : tight (join [10] ls);
  st_first : match ls with
    | [] => False
    | l :: rest => TrimSpace l <> [] /\ (rest <> [] -> is_quit (TrimSpace l) = false /\ TrimSpace l <> str ":help")
    end
}.
Definition typed (ls : list bytes) : bytes := join [10] ls ++ [59; 10].

(** *** ASCII text *)
Fixpoint drop_blanks (s : bytes) : bytes := match s with b :: s' => if IsSpace b then drop_blanks s' else s | [] => [] end.
Lemma TrimSpace_ascii s : is_ascii s = true -> TrimSpace s = rev (drop_blanks (rev (drop_blanks s))).
Proof.
  intros Hs. unfold TrimSpace. rewrite pieces_ascii by done.
  assert (forall l : bytes, drop_spaces ((fun b => (b, [b])) <$> l) = (fun b => (b, [b])) <$> drop_blanks l) as Hd.
  { induction l as [|b l IH]; [done|]. cbn [fmap list_fmap drop_spaces drop_blanks]. by destruct (IsSpace b). }
  rewrite Hd, <- map_rev, Hd, <- map_rev. generalize (rev (drop_blanks (rev (drop_blanks s)))) as l.
  induction l as [|b l IH]; [done|]. cbn [fmap list_fmap map concat app]. f_equal. exact IH.
Qed.
Lemma drop_blanks_elem b s : b ∈ drop_blanks s -> b ∈ s.
Proof. induction s as [|c s IH]; cbn [drop_blanks]; [auto|]. destruct (IsSpace c); [|auto]. intros ?%IH. by right. Qed.
Lemma TrimSpace_elem b s : is_ascii s = true -> b ∈ TrimSpace s -> b ∈ s.
Proof. intros Hs. rewrite TrimSpace_ascii by done. rewrite <- Permutation_rev. intros Hb%drop_blanks_elem. rewrite <- Permutation_rev in Hb. by apply drop_blanks_elem. Qed.
Lemma drop_blanks_app s b t : IsSpace b = false -> drop_blanks (s ++ b :: t) = drop_blanks s ++ b :: t.
Proof. intros Hb. induction s as [|c s IH]; cbn; [by rewrite Hb|]. by destruct (IsSpace c). Qed.
Lemma drop_blanks_head s : (forall b, head s = Some b -> IsSpace b = false) -> drop_blanks s = s.
Proof. destruct s as [|b s]; [done|]. intros Hb. cbn. by rewrite (Hb b eq_refl). Qed.
Lemma is_ascii_app s t : is_ascii (s ++ t) = is_ascii s && is_ascii t.
Proof. apply forallb_app. Qed.
Lemma TrimSpace_semi s : is_ascii s = true -> TrimSpace (s ++ [59]) = drop_blanks s ++ [59].
Proof.
  intros Hs. rewrite TrimSpace_ascii by (by rewrite is_ascii_app, Hs). rewrite drop_blanks_app by done. rewrite rev_app_distr. cbn [rev app drop_blanks].
  change (IsSpace 59) with false. cbn iota. cbn [rev]. by rewrite rev_involutive.
Qed.
Lemma TrimSpace_tight q : is_ascii q = true -> tight q -> TrimSpace q = q.
Proof.
  intros Hq [Hh Hl]. rewrite TrimSpace_ascii by done. rewrite (drop_blanks_head q) by done. rewrite drop_blanks_head; [apply rev_involutive|].
  intros b Hb. apply Hl. rewrite <- head_reverse. unfold reverse. by rewrite <- rev_alt.
Qed.
Lemma TrimSpace_typed q : is_ascii q = true -> tight q -> TrimSpace (q ++ [59; 10]) = q ++ [59].
Proof.
  intros Hq [Hh _]. rewrite TrimSpace_ascii by (by rewrite is_ascii_app, Hq). rewrite (drop_blanks_head (q ++ [59; 10])).
  - rewrite rev_app_distr. cbn [rev app drop_blanks]. change (IsSpace 10) with true. change (IsSpace 59) with false. cbn iota. cbn [rev]. by rewrite rev_involutive.
  - intros b. destruct q as [|c q]; [by intros [= <-]|]. apply Hh.
Qed.
Lemma drop_all_none set s : Forall (fun b => existsb (Z.eqb b) set = false) s -> drop_all set s = s.
Proof. destruct 1 as [|b s Hb _]; cbn; [done|]. by rewrite Hb. Qed.
Lemma TrimRight_app s t set : Forall (fun b => existsb (Z.eqb b) set = true) t -> Forall (fun b => existsb (Z.eqb b) set = false) s -> TrimRight (s ++ t) set = s.
Proof.
  intros Ht Hs. unfold TrimRight. rewrite rev_app_distr. assert (forall t u, Forall (fun b => existsb (Z.eqb b) set = true) t -> drop_all set (t ++ u) = drop_all set u) as Hd.
  { induction 1 as [|b t' Hb _ IH]; [done|]. cbn. by rewrite Hb. }
  rewrite Hd by (by rewrite <- Permutation_rev). rewrite drop_all_none by (by rewrite <- Permutation_rev). apply rev_involutive.
Qed.
Lemma clean_typed q : is_ascii q = true -> tight q -> 59 ∉ q -> clean (q ++ [59; 10]) = q.
Proof.
  intros Hq Ht Hn. unfold clean. rewrite TrimSpace_typed by done. rewrite TrimRight_app; [by apply TrimSpace_tight|by repeat constructor|].
  apply Forall_forall. intros b Hb. change (str ";") with [59]. cbn [existsb]. destruct (Z.eqb_spec b 59) as [->|]; done.
Qed.
Lemma HasSuffix_semi s : HasSuffix (s ++ [59]) (str ";") = true.
Proof. unfold HasSuffix. rewrite rev_app_distr. done. Qed.
Lemma HasSuffix_none s : 59 ∉ s -> HasSuffix s (str ";") = false.
Proof.
  intros Hs. unfold HasSuffix. change (rev (str ";")) with [59]. destruct (rev s) as [|b t] eqn:E; [done|].
  cbn [has_prefix]. destruct (Z.eqb_spec 59 b) as [<-|]; [|done]. exfalso. apply Hs. rewrite (Permutation_rev s), E. left.
Qed.

(** *** The loop over a statement *)
Lemma read_line cur l s : 10 ∉ l -> read_lines cur (l ++ 10 :: s) = (rev cur ++ l ++ [10], false) :: read_lines [] s.
Proof.
  revert cur. induction l as [|b l IH]; intros cur Hl; cbn [app read_lines]; [done|]. apply not_elem_of_cons in Hl as [Hb Hl].
  destruct (Z.eqb_spec b 10); [congruence|]. rewrite IH by done. cbn [rev]. by rewrite <- app_assoc.
Qed.
Fixpoint typed_lines (ls : list bytes) : list (bytes * bool) :=
  match ls with [] => [] | [l] => [(l ++ [59; 10], false)] | l :: ls => (l ++ [10], false) :: typed_lines ls end.
Lemma read_typed ls s : ls <> [] -> Forall (fun l => 10 ∉ l) ls -> read_lines [] (typed ls ++ s) = typed_lines ls ++ read_lines [] s.
Proof.
  intros Hne Hls. induction Hls as [|l ls Hl Hls IH]; [done|]. unfold typed. destruct ls as [|l' ls].
  - cbn [join]. rewrite <- app_assoc. change ([59; 10] ++ s) with ([59] ++ 10 :: s). rewrite app_assoc, read_line by (rewrite not_elem_of_app, not_elem_of_cons; split_and!; [done|lia|apply not_elem_of_nil]).
    cbn [rev app typed_lines]. by rewrite <- app_assoc.
  - change (join [10] (l :: l' :: ls)) with (l ++ [10] ++ join [10] (l' :: ls)). rewrite <- !app_assoc. cbn [app]. rewrite read_line by done.
    change (typed_lines (l :: l' :: ls)) with ((l ++ [10], false) :: typed_lines (l' :: ls)). cbn [rev app]. f_equal. rewrite <- IH by done. unfold typed. by rewrite <- app_assoc.
Qed.
Lemma line_of l t : 13 ∉ l -> 10 ∉ l -> t = [] \/ t = [59] -> TrimRight (l ++ t ++ [10]) [10; 13] = l ++ t.
Proof.
  intros H13 H10 Ht. rewrite app_assoc. apply TrimRight_app; [by repeat constructor|]. apply Forall_app. split; [|destruct Ht as [->| ->]; by repeat constructor].
  apply Forall_forall. intros b Hb. cbn. destruct (Z.eqb_spec b 10) as [->|]; [done|]. by destruct (Z.eqb_spec b 13) as [->|].
Qed.

(** What a line that ends nothing does: it joins the buffer. *)
Lemma react_more edit buf l : plain_text l -> 10 ∉ l -> is_edit (TrimSpace l) = false ->
  buf <> [] \/ (TrimSpace l <> [] /\ is_quit (TrimSpace l) = false /\ TrimSpace l <> str ":help") ->
  react edit buf (l ++ [10]) false = Goes (buf ++ l ++ [10]) [] [].
Proof.
  intros (Ha & Hs & Hr) Hn He Hb. unfold react. change (TrimRight (l ++ [10])) with (TrimRight (l ++ [] ++ [10])).
  rewrite (line_of l [] Hr Hn (or_introl eq_refl)), app_nil_r, He.
  rewrite HasSuffix_none by (intros Hin; by apply Hs, TrimSpace_elem).
  destruct Hb as [Hb|(Ht & Hq & Hh)].
  - rewrite (bool_decide_false (buf = [])) by done. rewrite (bool_decide_true (buf <> [])) by done. by rewrite orb_true_r.
  - rewrite (bool_decide_false (TrimSpace l = [])), Hq, (bool_decide_false (TrimSpace l = str ":help")), !andb_false_r by done.
    rewrite (bool_decide_true (l <> [])) by (by intros ->). done.
Qed.
(** What the last line does: the statement in the buffer is run. *)
Lemma react_last edit buf l : plain_text l -> 10 ∉ l -> is_edit (TrimSpace l) = false -> is_ascii (buf ++ l) = true -> 59 ∉ buf ++ l -> tight (buf ++ l) ->
  buf ++ l <> [] -> react edit buf (l ++ [59; 10]) false = Goes [] [buf ++ l] [].
Proof.
  intros (Ha & Hs & Hr) Hn He Hba Hbs Ht Hne. unfold react. change (l ++ [59; 10]) with (l ++ [59] ++ [10]).
  rewrite (line_of l [59] Hr Hn (or_intror eq_refl)), TrimSpace_semi by done.
  assert (forall w, 59 ∉ w -> drop_blanks l ++ [59] <> w) as Hd. { intros w Hw E. apply Hw. rewrite <- E. apply elem_of_app. right. left. }
  assert (is_edit (drop_blanks l ++ [59]) = false) as ->.
  { apply bool_decide_eq_false. rewrite !elem_of_cons. intros [E|[E|E%elem_of_nil]]; [..|done]; revert E; apply Hd; by apply (bool_decide_unpack _). }
  rewrite (bool_decide_false (drop_blanks l ++ [59] = [])), (bool_decide_false (drop_blanks l ++ [59] = str ":help")) by (apply Hd; by apply (bool_decide_unpack _)).
  assert (is_quit (drop_blanks l ++ [59]) = false) as ->.
  { apply bool_decide_eq_false. rewrite !elem_of_cons. intros [E|[E|[E|[E|E%elem_of_nil]]]]; [..|done]; revert E; apply Hd; by apply (bool_decide_unpack _). }
  rewrite !andb_false_r, HasSuffix_semi. rewrite (bool_decide_true (l ++ [59] <> [])) by (by destruct l). cbn [orb].
  replace (buf ++ (l ++ [59]) ++ [10]) with ((buf ++ l) ++ [59; 10]) by (by rewrite <- !app_assoc). rewrite clean_typed by done.
  by destruct (buf ++ l).
Qed.

(** *** Splitting at one character *)
Lemma cut_at c l r : c ∉ l -> cut [c] (l ++ c :: r) = Some (l, r).
Proof.
  induction l as [|b l IH]; intros Hl; cbn [app cut has_prefix]; [by rewrite Z.eqb_refl|]. apply not_elem_of_cons in Hl as [Hb Hl].
  destruct (Z.eqb_spec c b); [done|]. by rewrite IH.
Qed.
Lemma cut_none c l : c ∉ l -> cut [c] l = None.
Proof.
  induction l as [|b l IH]; intros Hl; [done|]. cbn [cut has_prefix]. apply not_elem_of_cons in Hl as [Hb Hl]. destruct (Z.eqb_spec c b); [done|]. by rewrite IH.
Qed.
Lemma split_loop_join c ps n : ps <> [] -> Forall (fun q => c ∉ q) ps -> (length ps <= S n)%nat -> split_loop n [c] (join [c] ps) = ps.
Proof.
  intros Hne Hps. revert n. induction Hps as [|q ps Hq Hps IH]; intros n Hn; [done|]. destruct ps as [|q' ps].
  - destruct n; [done|]. cbn [join split_loop]. by rewrite cut_none.
  - destruct n as [|n]; [cbn in Hn; lia|]. change (join [c] (q :: q' :: ps)) with (q ++ c :: join [c] (q' :: ps)). cbn [split_loop].
    rewrite cut_at by done. f_equal. apply IH; [done|]. cbn in *. lia.
Qed.
Lemma Split_join c ps : ps <> [] -> Forall (fun q => c ∉ q) ps -> Split (join [c] ps) [c] = ps.
Proof.
  intros Hne Hps. apply split_loop_join; [done..|]. clear Hps. induction ps as [|q [|q' ps] IH]; [done|cbn; lia|].
  change (join [c] (q :: q' :: ps)) with (q ++ [c] ++ join [c] (q' :: ps)). rewrite !length_app. cbn [length] in *. specialize (IH ltac:(done)). lia.
Qed.

(** *** A text of statements, as a batch *)
Fixpoint semi_pieces (pre : bytes) (qs : list bytes) : list bytes := match qs with [] => [pre] | q :: qs => (pre ++ q) :: semi_pieces [10] qs end.
Lemma semi_pieces_join pre qs : pre ++ concat ((fun q => q ++ [59; 10]) <$> qs) = join [59] (semi_pieces pre qs).
Proof.
  revert pre. induction qs as [|q qs IH]; intros pre; [apply app_nil_r|]. cbn [fmap list_fmap concat semi_pieces].
  assert (forall x r, join [59] (x :: semi_pieces [10] r) = x ++ 59 :: join [59] (semi_pieces [10] r)) as -> by (by intros x [|]).
  rewrite <- IH, <- !app_assoc. done.
Qed.
Lemma statement_text ls : statement ls -> is_ascii (join [10] ls) = true /\ 59 ∉ join [10] ls /\ tight (join [10] ls) /\ join [10] ls <> [].
Proof.
  intros [Hls Ht Hf]. destruct ls as [|l ls]; [done|]. split_and!; [| |done|destruct ls; destruct l; done || (by destruct Hf as [Hf _])].
  - clear -Hls. induction Hls as [|x [|y ys] ((Hx & _) & _) Hls IH]; [done..|]. change (join [10] (x :: y :: ys)) with (x ++ [10] ++ join [10] (y :: ys)).
    by rewrite !is_ascii_app, Hx, IH.
  - clear -Hls. induction Hls as [|x [|y ys] ((_ & Hx & _) & _) Hls IH]; [apply not_elem_of_nil|done|]. change (join [10] (x :: y :: ys)) with (x ++ [10] ++ join [10] (y :: ys)).
    rewrite !not_elem_of_app. split_and!; [done| |done]. apply not_elem_of_cons. split; [lia|apply not_elem_of_nil].
Qed.
Lemma TrimSpace_newline q : is_ascii q = true -> TrimSpace (10 :: q) = TrimSpace q.
Proof. intros Hq. rewrite !TrimSpace_ascii by (cbn; by rewrite ?Hq). done. Qed.
(** The statements of a batch are the statements of the text. *)
Lemma statements_typed stmts : Forall statement stmts -> statements (concat (typed <$> stmts)) = join [10] <$> stmts.
Proof.
  intros Hs. unfold statements. change (str ";") with [59].
  pose proof (semi_pieces_join [] (join [10] <$> stmts)) as Hj. rewrite <- list_fmap_compose in Hj. cbn [app] in Hj.
  assert (Forall (fun q => is_ascii q = true /\ 59 ∉ q /\ tight q /\ q <> []) (join [10] <$> stmts)) as Hq.
  { apply Forall_fmap. by eapply Forall_impl, statement_text. }
  change (concat (typed <$> stmts)) with (concat (((fun q : bytes => q ++ [59; 10]) ∘ join [10]) <$> stmts)). rewrite Hj. clear Hj Hs.
  rewrite Split_join.
  - generalize (join [10] <$> stmts) as qs, Hq. clear. intros qs Hq. assert (forall pre, pre = [] \/ pre = [10] -> filter (fun q : bytes => q <> []) (TrimSpace <$> semi_pieces pre qs) = qs) as Hp; [|by apply Hp; left].
    induction Hq as [|q qs (Ha & _ & Ht & Hne) Hq IH]; intros pre Hp; cbn [semi_pieces fmap list_fmap]; [by destruct Hp as [->| ->]|].
    assert (TrimSpace (pre ++ q) = q) as -> by (destruct Hp as [->| ->]; cbn [app]; rewrite ?TrimSpace_newline by done; by apply TrimSpace_tight).
    rewrite filter_cons_True by done. f_equal. apply IH. by right.
  - by destruct (join [10] <$> stmts).
  - assert (forall pre, pre = [] \/ pre = [10] -> Forall (fun q => 59 ∉ q) (semi_pieces pre (join [10] <$> stmts))) as Hp; [|by apply Hp; left].
    induction Hq as [|q qs (_ & Hn & _) Hq IH]; intros pre Hp; cbn [semi_pieces]; (constructor; [|try apply IH; auto]); destruct Hp as [->| ->]; cbn [app];
      rewrite ?not_elem_of_cons; auto using not_elem_of_nil.
Qed.

(** *** A text of statements, line by line *)
Section runs.
Context `{Runtime, Unicode, MapOrder} {S T : Type} `{Store S T} (fuel : nat) (edit : bytes -> res bytes).
Definition shell_line (l : bytes) : Prop := plain_text l /\ 10 ∉ l /\ is_edit (TrimSpace l) = false.
Lemma loop_lines ls buf rest (s : S) : Forall shell_line ls -> ls <> [] -> is_ascii (buf ++ join [10] ls) = true -> 59 ∉ buf ++ join [10] ls ->
  tight (buf ++ join [10] ls) -> buf ++ join [10] ls <> [] ->
  buf <> [] \/ (forall l l' ls', ls = l :: l' :: ls' -> TrimSpace l <> [] /\ is_quit (TrimSpace l) = false /\ TrimSpace l <> str ":help") ->
  loop fuel edit (typed_lines ls ++ rest) buf s =
    (let '(o, s) := execute fuel (buf ++ join [10] ls) s in let '(os, s) := loop fuel edit rest [] s in (o :: os, s)).
Proof.
  intros Hls. revert buf s. induction Hls as [|l ls (Hp & Hn & He) Hls IH]; intros buf s Hne Ha Hs Ht Hq Hb; [done|]. destruct ls as [|l' ls].
  - cbn [join] in *. cbn [typed_lines app loop]. rewrite react_last by done. cbn [run_all].
    destruct (execute fuel (buf ++ l) s) as [o s1]. by destruct (loop fuel edit rest [] s1).
  - change (join [10] (l :: l' :: ls)) with (l ++ [10] ++ join [10] (l' :: ls)) in *. change (typed_lines (l :: l' :: ls)) with ((l ++ [10], false) :: typed_lines (l' :: ls)).
    cbn [app loop]. rewrite react_more by (done || (destruct Hb as [Hb|Hb]; [by left|right; by eapply Hb])). cbn [run_all app].
    cbn [app] in *.
    assert (buf ++ l ++ 10 :: join [10] (l' :: ls) = (buf ++ l ++ [10]) ++ join [10] (l' :: ls)) as E by (by rewrite <- !app_assoc). rewrite E in *.
    assert (buf ++ l ++ [10] <> []) as Hb' by (by destruct buf, l). rewrite IH by (done || by left).
    destruct (execute fuel _ s) as [o s1]. by destruct (loop fuel edit rest [] s1).
Qed.
Lemma loop_statement ls rest (s : S) : statement ls -> loop fuel edit (typed_lines ls ++ rest) [] s =
  (let '(o, s) := execute fuel (join [10] ls) s in let '(os, s) := loop fuel edit rest [] s in (o :: os, s)).
Proof.
  intros Hst. pose proof (statement_text ls Hst) as (Ha & Hs & Ht & Hq). destruct Hst as [Hls _ Hf].
  apply (loop_lines ls []); [done|by intros ->|done..|]. right. intros l l' ls' ->. destruct Hf as [Hf1 Hf2]. split; [done|]. by apply Hf2.
Qed.
End runs.
End Cli.


Section concrete.
#[local] Existing Instance plain_runtime.
#[local] Existing Instance ClauseText.plain_unicode.
#[local] Existing Instance listed_order.

Definition no_editor (_ : bytes) : res bytes := Err ErrNode.
Definition session : list (list bytes) :=
  [[str "CREATE (n:P {name: 'a'})"]; [str "MATCH (n:P)"; []; str "  RETURN n.name AS x"]; [str "RETURN"]; [str "MATCH (n) RETURN count(n) AS c"]].
Lemma session_statements : Forall Cli.statement session.
Proof.
  repeat (apply Forall_cons_2; [constructor; [|split; intros b [= <-]; reflexivity|split; [vm_compute; discriminate|intros _; split; [reflexivity|vm_compute; discriminate]]]|]); [..|constructor];
    apply (bool_decide_unpack (Forall (fun l => (is_ascii l = true /\ 59 ∉ l /\ 13 ∉ l) /\ 10 ∉ l /\ Cli.is_edit (TrimSpace l) = false) _)); vm_compute; exact I.
Qed.

(** ** Semicolons in string literals

    The help text says that a semicolon inside a string literal is not taken for
    the end of a statement; a batch is cut there all the same, and so is a
    statement whose line ends there. *)
Lemma batch_cuts_literals :
  Cli.statements (str "RETURN 'a;b' AS x") = [str "RETURN 'a"; str "b' AS x"] /\
  (exists e e', (Cli.runBatch (S := store) (T := Bolt.txn store) 20 (str "RETURN 'a;b' AS x") ∅).1 = [Cli.Failed e; Cli.Failed e']) /\
  (Cli.repl (S := store) (T := Bolt.txn store) 20 no_editor (str "RETURN 'a;b' AS x;") ∅).1 = [Cli.Table [[str "x"]; [str "-"]; [str "a;b"]] (str "(1 row)")] /\
  (exists e, head (Cli.repl (S := store) (T := Bolt.txn store) 20 no_editor (str "RETURN 'a;" ++ [10] ++ str "b' AS x;") ∅).1 = Some (Cli.Failed e)).
Proof. split_and!; [reflexivity|do 2 eexists; vm_compute; reflexivity|vm_compute; reflexivity|eexists; vm_compute; reflexivity]. Qed.
End concrete.

(** ** The peer list round trips *)
Definition peer_item (p : Node.Peer) : bytes := join (str "=") [Node.p_ID p; Node.p_RaftAddr p; Node.p_ForwardAddr p].
Definition peer_field (f : bytes) : Prop := is_ascii f = true /\ Forall (fun b => IsSpace b = false) f /\ 61 ∉ f /\ 44 ∉ f.
Definition peer_fields (p : Node.Peer) : Prop := peer_field (Node.p_ID p) /\ peer_field (Node.p_RaftAddr p) /\ peer_field (Node.p_ForwardAddr p).
Lemma TrimSpace_no_space q : is_ascii q = true -> Forall (fun b => IsSpace b = false) q -> TrimSpace q = q.
Proof.
  intros Ha Hq. apply Cli.TrimSpace_tight; [done|]. rewrite Forall_forall in Hq. split; intros b Hb; apply Hq; [by apply head_Some_elem_of|by apply last_Some_elem_of].
Qed.
Lemma peer_item_text p : peer_fields p -> peer_item p <> [] /\ is_ascii (peer_item p) = true /\ Forall (fun b => IsSpace b = false) (peer_item p) /\ 44 ∉ peer_item p.
Proof.
  intros ((A1 & S1 & _ & C1) & (A2 & S2 & _ & C2) & A3 & S3 & _ & C3). unfold peer_item. change (str "=") with [61]. cbn [join]. split_and!.
  - by destruct (Node.p_ID p).
  - by rewrite !Cli.is_ascii_app, A1, A2, A3.
  - rewrite !Forall_app. split_and!; try done; by repeat constructor.
  - rewrite !not_elem_of_app. split_and!; try done; apply not_elem_of_cons; split; [lia|apply not_elem_of_nil|lia|apply not_elem_of_nil].
Qed.
Lemma parsePeer_item p : peer_fields p -> Cli.parsePeer (peer_item p) = Ok p.
Proof.
  intros ((_ & _ & H1 & _) & (_ & _ & H2 & _) & _ & _ & H3 & _). unfold Cli.parsePeer, peer_item. change (str "=") with [61].
  rewrite Cli.Split_join by (done || by repeat constructor). by destruct p.
Qed.
Lemma parsePeers_list ps : ps <> [] -> Forall peer_fields ps -> Cli.parsePeers (join (str ",") (peer_item <$> ps)) = Ok ps.
Proof.
  intros Hne Hps. change (str ",") with [44]. unfold Cli.parsePeers.
  assert (is_ascii (join [44] (peer_item <$> ps)) = true /\ Forall (fun b => IsSpace b = false) (join [44] (peer_item <$> ps)) /\ join [44] (peer_item <$> ps) <> []) as (Ha & Hs & Hj).
  { clear -Hne Hps. induction Hps as [|p ps (Hi & Ha & Hs & _)%peer_item_text Hps IH]; [done|]. destruct ps as [|p' ps]; [done|].
    destruct (IH ltac:(done)) as (IH1 & IH2 & _). change (join [44] (peer_item <$> p :: p' :: ps)) with (peer_item p ++ [44] ++ join [44] (peer_item <$> p' :: ps)).
    rewrite !Cli.is_ascii_app, Ha, IH1. rewrite !Forall_app. split_and!; [done..|by repeat constructor|done|by destruct (peer_item p)]. }
  rewrite TrimSpace_no_space by done. destruct (join [44] (peer_item <$> ps)) eqn:E; [done|]. rewrite <- E. change (str ",") with [44]. rewrite Cli.Split_join.
  - clear -Hps. induction Hps as [|p ps Hp Hps IH]; [done|]. destruct (peer_item_text p Hp) as (Hi & Ha & Hs & _). cbn [fmap list_fmap Cli.parse_items].
    rewrite TrimSpace_no_space by done. destruct (peer_item p) eqn:E; [done|]. rewrite <- E, parsePeer_item by done. cbn [mbind res_bind]. by rewrite IH.
  - by destruct ps.
  - apply Forall_fmap. eapply Forall_impl; [exact Hps|]. by intros p (_ & _ & _ & Hc)%peer_item_text.
Qed.

(** The flags of a voter that is given its printed peers: the forwarding addresses
    of the node are its own and those of the peers. *)
Lemma openCluster_peers f ps : Cli.clusterID f <> [] -> Cli.clusterRole f = str "voter" -> ps <> [] -> Forall peer_fields ps ->
  Cli.clusterPeers f = join (str ",") (peer_item <$> ps) ->
  exists cfg, Cli.openCluster f = Some (Ok cfg) /\ Node.role cfg = Node.RoleVoter /\ Node.Peers cfg = ps /\
    Node.forwardAddrMap cfg = foldl (fun m p => <[Node.p_ID p := Node.p_ForwardAddr p]> m) {[ Cli.clusterID f := Cli.clusterForward f ]} ps.
Proof.
  intros Hid Hr Hne Hps Hp. unfold Cli.openCluster. destruct (Cli.clusterID f) eqn:E; [done|]. rewrite Hp, parsePeers_list, Hr by done. eexists. split_and!; reflexivity.
Qed.
