(* ===== verification/EngineClaims.v ===== *)
(** * EngineClaims: what a query answers, from its text to its rows

    The pipeline of src/intreccio.go on a consistent database: parsing, semantic
    analysis, planning against the indexes that exist, and execution. *)
From S2P Require Import Prelude Float64 FloatArith Values Ast Plan Scalars Text Keys Records Storage Catalog Graph Context Functions Params Eval Lexer LexerLaws Parser ParserLaws Printer Roundtrip QueryText ClauseText Sema Planner FreeVars.
From S2P Require Import Shortest Aggregate Expand Write StableSort RangeScan Tables GraphInv NodeOps NodeUpdates Traversal Lookups Ranges Ddl Operators QueryLaws EdgeOps History GraphClaims EvalClaims Queries MatchPlan MatchAccess Bolt Engine EngineStore.
Import Ast Scalars Text Context Functions Params Eval Parser Planner FreeVars Operators QueryLaws Queries MatchPlan MatchAccess Engine EngineStore.

Module EngineClaims.
Section pipeline.
Context `{Runtime, Unicode, MapOrder}.

(** ** The catalog of a transaction *)
Lemma catalog_sound (T : tables) (s : store) label key : Rep T s -> consistent T -> cat_HasIndex (planCatalog s) label key = true ->
  exists l k, fwd T (DLabel, label) = Some l /\ fwd T (DKey, key) = Some k /\ is_Some (index T (l, k)).
Proof.
  intros HT Hc. cbn [planCatalog cat_HasIndex]. unfold asks. rewrite exec_run. unfold has_index. rewrite run_bind.
  rewrite (run_lookup T s HT Hc DLabel label : run (LookupLabel label) s = _). destruct (fwd T (DLabel, label)) as [l|] eqn:El; [|done].
  rewrite run_bind, (run_lookup T s HT Hc DKey key : run (LookupKey key) s = _). destruct (fwd T (DKey, key)) as [k|] eqn:Ek; [|done].
  assert (wp (HasIndex l k) T (fun r T' => r = Ok (has (index T (l, k))))) as Hw by (apply wp_HasIndex; [by eapply fwd_u32|by eapply fwd_u32|done]).
  apply (wp_outcome _ _ _ _ HT) in Hw. rewrite Hw. intros Hi. exists l, k. split_and!; [done|done|]. by destruct (index T (l, k)).
Qed.

(** ** Projections *)
Section projection.
Context (s : store) (b : binding) (val : ReturnItem -> value).
Definition proj_item (it : ReturnItem) : ProjItem := mkProjItem (Sema.column it) (ri_Expr it).
Definition projected (items : list ReturnItem) (acc : binding) : binding := foldl (fun m it => <[Sema.column it := val it]> m) acc items.
Lemma ev_project items acc : (forall it, it ∈ items -> evaluates s (eval (ri_Expr it) b) (val it)) ->
  evaluates s (foldM (fun (out : binding) it => v ← eval (pi_Expr it) b; mret (<[pi_Column it := v]> out)) acc (proj_item <$> items)) (projected items acc).
Proof.
  revert acc. induction items as [|it items IH]; intros acc Hv; [apply evaluates_ret|]. cbn [fmap list_fmap foldM proj_item pi_Expr pi_Column projected foldl].
  eapply evaluates_bind; [eapply evaluates_bind; [apply Hv; left|apply evaluates_ret]|]. apply IH. intros it' Hin. apply Hv. by right.
Qed.
Lemma projected_other items acc c : c ∉ Sema.column <$> items -> projected items acc !! c = acc !! c.
Proof.
  revert acc. induction items as [|it items IH]; intros acc Hc; [done|]. cbn [fmap list_fmap] in Hc. apply not_elem_of_cons in Hc as [Hne Hc].
  cbn [projected foldl]. etrans; [by apply IH|]. by rewrite lookup_insert_ne by done.
Qed.
Lemma projected_column items acc it : NoDup (Sema.column <$> items) -> it ∈ items -> projected items acc !! Sema.column it = Some (val it).
Proof.
  revert acc. induction items as [|it' items IH]; intros acc Hnd Hin; [by apply elem_of_nil in Hin|]. cbn [fmap list_fmap] in Hnd. apply NoDup_cons in Hnd as [Hn Hnd].
  cbn [projected foldl]. apply elem_of_cons in Hin as [->|Hin]; [|by apply IH]. etrans; [by apply projected_other|]. by rewrite lookup_insert_eq.
Qed.
Lemma output_projected items : NoDup (Sema.column <$> items) -> output_row (Sema.column <$> items) (projected items ∅) = val <$> items.
Proof.
  intros Hnd. unfold output_row. rewrite <- list_fmap_compose. apply list_fmap_ext. intros i it Hi. cbn.
  rewrite projected_column; [done|done|by eapply list_elem_of_lookup_2].
Qed.
End projection.

(** ** MATCH (n ...) WHERE ... RETURN ... *)
Definition match_query (n : bytes) (labels : list bytes) (props : list (bytes * Expr)) (where_ : option Expr) (items : list ReturnItem) : Query :=
  mkQuery [CMatch false [MatchPlan.part n [] labels props] where_; CReturn false false items [] None None] [].

Lemma match_query_columns n labels props where_ items cols : Sema.Analyze (match_query n labels props where_ items) = Ok cols -> cols = Sema.column <$> items.
Proof.
  unfold Sema.Analyze. cbn [match_query q_Clauses q_Unions]. unfold Sema.analyzeArm. cbn [last existsb Sema.isSchemaCommand orb andb Sema.endsQuery].
  cbn [Sema.analyze_clauses Sema.is_return andb negb].
  destruct (Sema.clause Sema.newScope [] _) as [[sc cs]|]; [|done]. change (mbind (M := res) ?f (Ok ?x)) with (f x). cbv beta iota.
  cbn [Sema.analyze_clauses Sema.is_return length]. rewrite bool_decide_true by done. cbn [andb negb].
  cbn [Sema.clause]. destruct (Sema.analyze_return sc false items [] None None) as [cs'|] eqn:E; [|done].
  change (mbind (M := res) ?f (Ok ?x)) with (f x). cbv beta iota. cbn. intros [= <-]. revert E. unfold Sema.analyze_return.
  destruct (Sema.check_items sc items); [|done]. cbn. by intros [= <-].
Qed.

Lemma no_aggregates_filter items : Forall (fun it => containsAggregate (ri_Expr it) = false) items ->
  filter (fun pi => containsAggregate (pi_Expr pi) = true) (proj_item <$> items) = [].
Proof. induction 1 as [|it items Hit _ IH]; [done|]. cbn [fmap list_fmap]. rewrite filter_cons_False; [done|cbn; congruence]. Qed.
Lemma plan_match_return cat n labels props where_ items sc scan eq : n <> [] -> choice n labels props where_ cat = (sc, scan, eq) ->
  Forall (fun it => containsAggregate (ri_Expr it) = false) items ->
  Plan_ (match_query n labels props where_ items) cat
  = Ok (Plan.Project (filtered (residual_of n labels props where_ scan eq) scan) (proj_item <$> items) false).
Proof.
  intros Hn Hch Hagg. destruct (plan_shape n Hn [] labels props where_ cat sc scan eq Hch) as (pl & Epl & Ep & Eo).
  unfold Plan_. cbn [match_query q_Clauses q_Unions]. unfold planArm. cbn [clauses clause planMatch]. rewrite Epl.
  change (mbind (M := res) ?f (Ok ?x)) with (f x). cbv beta. cbn [planReturn]. unfold planReturn, projectOrAggregate, expandItems. cbn [app].
  change ((fun it => mkProjItem (match ri_Alias it with [] => Sema.exprString (ri_Expr it) | z :: l => z :: l end) (ri_Expr it)) <$> items) with (proj_item <$> items).
  rewrite no_aggregates_filter by done.
  assert (forall l p0, pl_plan (foldl (fun pl pi => bind (pi_Column pi) pl) p0 l) = pl_plan p0) as Hb.
  { intros l. induction l as [|x l IH]; intros p0; [done|]. cbn [foldl]. rewrite IH. unfold bind. by case_match. }
  unfold applyTail. cbn [pl_plan]. change (mbind (M := res) ?f (Ok ?x)) with (f x). cbv beta. cbn [set_plan pl_plan]. rewrite Hb. cbn [pl_plan is_nothing]. by rewrite Ep.
Qed.

(** The plan of the query, and the rows it gives. *)
Section answers.
Context (T : tables) (s : store) (HT : Rep T s) (Hc : consistent T).
Context (n : bytes) (labels : list bytes) (props : list (bytes * Expr)) (where_ : option Expr) (items : list ReturnItem).
Context (truth : Expr -> Node -> value) (out : ReturnItem -> Node -> value).

(** What an index seek relies on: the operands of the pattern that mention no
    variable have a value, and the prefix of a STARTS WITH is a string. *)
Record operands_ok : Prop := {
  op_value v : v ∈ operands props where_ -> exprVars v = [] -> exists w, evaluates s (eval v ∅) w /\ value_ok w;
  op_prefix l r : Binary (str "STARTS WITH") l r ∈ wconj where_ -> exprVars r = [] -> exists t, evaluates s (eval r ∅) (VStr t)
}.
(** The returned expressions have values, under distinct names, and none aggregates. *)
Record items_ok : Prop := {
  it_some : items <> [];
  it_columns : NoDup (Sema.column <$> items);
  it_plain : Forall (fun it => containsAggregate (ri_Expr it) = false) items;
  it_value it x : it ∈ items -> is_node T x -> evaluates s (eval (ri_Expr it) (row n x)) (out it x)
}.
Context (Hn : n <> []) (Hpat : pattern_ok T s n labels props where_ truth) (Hops : operands_ok) (Hitems : items_ok).

Definition result_row (x : Node) : list value := (fun it => out it x) <$> items.
Lemma match_plan_answers : exists p ys, Plan_ (match_query n labels props where_ items) (planCatalog s) = Ok p /\
  NoDup (n_ID <$> ys) /\ (forall x, x ∈ ys <-> matches T n labels props where_ truth x) /\
  answers T s p None ((fun x => projected (fun it => out it x) items ∅) <$> ys).
Proof.
  destruct (choice n labels props where_ (planCatalog s)) as [[sc scan] eq] eqn:Ech.
  assert (seeks_ok T s props where_ (planCatalog s)) as Hsk.
  { destruct Hops. split; [done|done|]. intros label key. by apply catalog_sound. }
  destruct (choice_covers T s HT Hc n labels props where_ truth Hpat _ Hsk sc scan eq Ech) as [xs Hxs].
  destruct (covers_filtered T s HT Hc n Hn labels props where_ truth Hpat scan eq xs Hxs) as (ys & Ha & Hnd & Hin).
  eexists _, ys. split_and!; [by eapply plan_match_return; [| |apply (it_plain Hitems)]|done|done|]. cbn [answers].
  exists (node_rows n ys), ((fun x => projected (fun it => out it x) items ∅) <$> ys). split_and!; [done| |done].
  unfold node_rows. apply Forall2_fmap, Forall_Forall2_diag, Forall_forall. intros x Hx. apply ev_project.
  intros it Hit. apply (it_value Hitems); [done|]. by apply Hin in Hx as [Hx _].
Qed.
Lemma result_rows (ys : list Node) : output_row (Sema.column <$> items) <$> ((fun x => projected (fun it => out it x) items ∅) <$> ys) = result_row <$> ys.
Proof. rewrite <- list_fmap_compose. apply list_fmap_ext. intros i x _. cbn. by apply output_projected, (it_columns Hitems). Qed.
End answers.
End pipeline.
End EngineClaims.
Import EngineClaims.


(** ** A query on the sample database *)
Section concrete.
#[local] Existing Instance plain_runtime.
#[local] Existing Instance ClauseText.plain_unicode.
#[local] Existing Instance listed_order.
Import ClauseText.

Definition ask (text : String.string) : request := mkRequest (str text) [] no_options.
Definition age_query : request := ask "MATCH (n:P {age: 1}) WHERE n.name >= 'a' RETURN n.name AS name".
Definition aged : list (bytes * Expr) := [(str "age", Literal (VInt 1))].
Definition from_a : option Expr := Some (Binary (str ">=") (prop_ "n" "name") (Literal (VStr (str "a")))).
Definition names : list ReturnItem := [mkReturnItem (prop_ "n" "name") (str "name")].
(** What a comparison of a property with a literal gives. *)
Definition compared (T : tables) (e : Expr) (x : Node) : value :=
  match e with
  | Binary op (PropertyAccess _ k) (Literal w) => if op =s "=" then equalityOp (prop_of T k x) w false else compareOp op (prop_of T k x) w
  | _ => VNull
  end.
Definition named (T : tables) (_ : ReturnItem) (x : Node) : value := prop_of T (str "name") x.

Lemma age_pattern T s : Rep T s -> consistent T -> pattern_ok T s (str "n") [str "P"] aged from_a (compared T).
Proof.
  intros HT Hc. split.
  - intros ?%list_elem_of_singleton. done.
  - intros ?%list_elem_of_singleton. done.
  - apply NoDup_singleton.
  - intros e x He Hx. change (e ∈ [eqExpr (str "n") (str "age") (Literal (VInt 1)); Binary (str ">=") (prop_ "n" "name") (Literal (VStr (str "a")))]) in He.
    apply elem_of_cons in He as [->|He%list_elem_of_singleton].
    + eapply evaluates_bind; [by apply ev_prop|]. eapply evaluates_bind; [apply evaluates_ret|apply evaluates_ret].
    + subst e. eapply evaluates_bind; [by apply ev_prop|]. eapply evaluates_bind; [apply evaluates_ret|apply evaluates_ret].
Qed.
Lemma age_operands s : operands_ok s aged from_a.
Proof.
  split.
  - intros v Hv Hv'. change (v ∈ [Literal (VInt 1); prop_ "n" "name"; Literal (VStr (str "a"))]) in Hv.
    apply elem_of_cons in Hv as [->|[->|Hv%list_elem_of_singleton]%elem_of_cons]; [|done|subst v]; [eexists; split; [apply evaluates_ret|]; cbn; solve_width|eexists; split; [apply evaluates_ret|]; cbn; repeat constructor; lia].
  - intros l r Hin%list_elem_of_singleton. done.
Qed.
Lemma names_ok T s : Rep T s -> consistent T -> items_ok T s (str "n") names (named T).
Proof.
  intros HT Hc. split; [done|apply NoDup_singleton|by repeat constructor|].
  intros it x ->%list_elem_of_singleton _. by apply ev_prop.
Qed.

Lemma age_query_runs : (Query_ 9 None age_query sample).1 = Ok (mkResult [str "name"] [[VStr (str "a")]]).
Proof. vm_compute. reflexivity. Qed.

(** ** Where the pipeline departs from the language *)

(** ORDER BY may name a variable that RETURN does not keep: the analysis
    accepts it, but the sort runs over the projected rows, in which every row
    lacks the variable, so that the rows come back in their input order; ordering
    by the returned column sorts. *)
Theorem order_by_dropped_variable_unsorted :
  (Query_ 9 None (ask "UNWIND [3, 1, 2] AS x RETURN x AS y ORDER BY x") sample).1 = Ok (mkResult [str "y"] [[VInt 3]; [VInt 1]; [VInt 2]]) /\
  (Query_ 9 None (ask "UNWIND [3, 1, 2] AS x RETURN x AS y ORDER BY y") sample).1 = Ok (mkResult [str "y"] [[VInt 1]; [VInt 2]; [VInt 3]]).
Proof. split; vm_compute; reflexivity. Qed.

(** A query whose only writes are in a UNION arm is taken for a read: on
    bbolt it runs in a read transaction and fails, while the same clauses alone,
    or as the first arm, write. *)
Theorem union_writes_refused :
  let query t := Query_ (S := store) (T := Bolt.txn store) 9 None (ask t) ∅ in
  let one := Ok (mkResult [str "x"] [[VInt 1]]) in
  query "RETURN 1 AS x UNION CREATE (n) RETURN 1 AS x" = (Err ErrReadOnly, ∅) /\
  (query "CREATE (n) RETURN 1 AS x").1 = one /\ (query "CREATE (n) RETURN 1 AS x UNION RETURN 1 AS x").1 = one.
Proof. split_and!; vm_compute; reflexivity. Qed.

(** The scans of a MATCH are opened when the plan is built, before any clause
    has run, so that a MATCH does not find what an earlier clause of the same
    query wrote: the node just created is not counted.  With an index and a
    condition on the row the same pattern is looked up row by row and finds it, so
    that creating an index changes the answer. *)
Theorem match_after_write_misses :
  let query := ask "CREATE (a:P {name: 'x'}) WITH a MATCH (n:P {name: a.name}) RETURN count(n) AS c" in
  let indexed := (Query_ 20 None (ask "CREATE INDEX FOR (n:P) ON (n.name)") ∅).2 in
  (Query_ 20 None query ∅).1 = Ok (mkResult [str "c"] [[VInt 0]]) /\
  (Query_ 20 None query indexed).1 = Ok (mkResult [str "c"] [[VInt 1]]).
Proof. split; vm_compute; reflexivity. Qed.

(** A condition on a property with an empty name is dropped by the planner. *)
Lemma empty_key_condition_dropped :
  (Query_ 9 None (ask "MATCH (n {``: 1}) RETURN count(n) AS c") sample).1 = Ok (mkResult [str "c"] [[VInt 2]]) /\
  (Query_ 9 None (ask "MATCH (n) WHERE n.`` = 1 RETURN count(n) AS c") sample).1 = Ok (mkResult [str "c"] [[VInt 0]]).
Proof. split; vm_compute; reflexivity. Qed.

(** The planner's name for an anonymous node can be a variable of the query, to
    which the node is then tied. *)
Lemma synthetic_name_captured :
  (Query_ 19 None (ask "MATCH (_n0) MATCH ()-->(m) RETURN count(*) AS c") sample).1
  <> (Query_ 19 None (ask "MATCH (a) MATCH ()-->(m) RETURN count(*) AS c") sample).1.
Proof. vm_compute. discriminate. Qed.

(** WITH ... ORDER BY ... LIMIT ... WHERE filters before the limit. *)
Lemma with_where_before_limit :
  (Query_ 19 None (ask "UNWIND [1, 2, 3] AS x WITH x ORDER BY x LIMIT 1 WHERE x > 1 RETURN x") sample).1 = Ok (mkResult [str "x"] [[VInt 2]]).
Proof. vm_compute. reflexivity. Qed.
End concrete.
