(* ===== verification/Forward.v ===== *)
(** * Forward: queries sent to another node

    src/cluster/forward.go, pool.go ([call]) and client.go ([Forward]): the
    messages, the sentinel errors that keep their identity on the wire, the
    service every voter runs, the follower's way to the leader and the failover
    of a client without data.

    The world [W] is the state of all nodes; a voter is what the service uses of
    its node ([voter]).  The network is a list of [event]s, one per attempt to
    call, and is reliable once the list has run out.  What encoding/gob can carry
    inside an interface is a parameter ([carries]); so is the text of an error. *)
From S2P Require Import Prelude Float64 FloatArith Values Ast Plan Scalars Text Keys Records Storage Catalog Graph Context Functions Params Eval Lexer Parser ClauseText Sema Planner Bolt.
From S2P Require Import Shortest Aggregate Expand Write StableSort RangeScan Operators GraphClaims Engine.
Import Context Engine.

Module Forward.

(** ** Values on the wire: [nullValue] stands for nil *)
Inductive wire := nullValue | Plain (v : value).
Definition sanitizeValue (v : value) : wire := match v with VNull => nullValue | _ => Plain v end.
Definition desanitizeValue (w : wire) : value := match w with nullValue => VNull | Plain v => v end.
Definition sanitizeRows (rows : list (list value)) : list (list wire) := (fun row : list value => sanitizeValue <$> row) <$> rows.
Definition desanitizeRows (rows : list (list wire)) : list (list value) := (fun row : list wire => desanitizeValue <$> row) <$> rows.
Definition sanitizeParams (params : gmap (list Z) value) : gmap (list Z) wire := sanitizeValue <$> params.
Definition desanitizeParams (params : gmap (list Z) wire) : gmap (list Z) value := desanitizeValue <$> params.

(** ** Messages *)
Record ForwardArgs := mkArgs {
  fa_Cypher : bytes;
  fa_Params : gmap (list Z) wire;
  fa_Write : bool;
  fa_Linearizable : bool;
  fa_MaxRows : Z;
  fa_Timeout : Z                          (* 0: no deadline *)
}.
Record ForwardReply := mkReply {
  fr_Columns : list bytes;
  fr_Rows : list (list wire);
  fr_Err : bytes;                         (* empty: no error *)
  fr_Code : bytes
}.
(** [remaining] is what is left of the caller's deadline. *)
Definition newForwardArgs (remaining : option Z) (cypher : bytes) (params : gmap (list Z) value) (write linearizable : bool) (maxRows : Z) : res ForwardArgs :=
  let args := mkArgs cypher (sanitizeParams params) write linearizable maxRows in
  match remaining with
  | None => Ok (args 0)
  | Some t => if t <=? 0 then Err ErrCanceled else Ok (args t)
  end.
(** The deadline a forwarded request runs under (0: none). *)
Definition args_context (a : ForwardArgs) (fallback : Z) : Z :=
  if 0 <? fa_Timeout a then fa_Timeout a else if 0 <? fallback then fallback else 0.
Definition needsLeader (a : ForwardArgs) : bool := fa_Write a || fa_Linearizable a.

(** ** Errors on the wire *)

(** A context that was cancelled and one past its deadline are one error here. *)
Definition wireErrors : list (bytes * error) :=
  [(str "result_limit", ErrResultLimit); (str "conflict", ErrConflict); (str "txn_too_large", ErrTxnTooLarge);
   (str "integer_overflow", ErrIntegerOverflow); (str "constraint_violation", ErrConstraintViolation);
   (str "deadline_exceeded", ErrCanceled); (str "canceled", ErrCanceled)].

Section wire.
Context (message : error -> bytes) (carries : wire -> bool).

Definition uncoded (e : error) : ForwardReply := mkReply [] [] (message e) [].
Definition setError (e : error) : ForwardReply :=
  mkReply [] [] (message e) (match find (fun w => bool_decide (w.2 = e)) wireErrors with Some w => w.1 | None => [] end).
(** The error a reply stands for: the sentinel its code names, else a message. *)
Definition reply_error (r : ForwardReply) : error :=
  match find (fun w => bool_decide (w.1 = fr_Code r)) wireErrors with Some w => w.2 | None => ErrRemote end.

Definition args_carried (a : ForwardArgs) : bool := forallb (fun e => carries e.2) (map_to_list (fa_Params a)).
Definition reply_carried (r : ForwardReply) : bool := forallb (forallb carries) (fr_Rows r).

(** ** The network *)
Inductive event :=
| Delivered                               (* the request arrives, the reply comes back if it can be encoded *)
| DialFails
| LostRequest                             (* the connection breaks before the request is served *)
| LostReply                               (* ... or after *)
| Expired (late : bool).                  (* the caller's context is done first, before or after serving *)

Context {W : Type}.

(** [connPool.call]: two attempts; [serve] is the service at the address. *)
Definition server := ForwardArgs -> W -> list event -> ForwardReply * W * list event.
Fixpoint attempts (n : nat) (serve : server) (args : ForwardArgs) (w : W) (net : list event) : res ForwardReply * W * list event :=
  match n with
  | O => (Err ErrForward, w, net)
  | S n =>
      let net' := drop 1 net in
      let served := args_carried args in
      match default Delivered (head net) with
      | DialFails => (Err ErrForward, w, net')
      | LostRequest => attempts n serve args w net'
      | LostReply =>
          if served then let '(_, w, net') := serve args w net' in attempts n serve args w net' else attempts n serve args w net'
      | Expired late =>
          if late && served then let '(_, w, net') := serve args w net' in (Err ErrCanceled, w, net') else (Err ErrCanceled, w, net')
      | Delivered =>
          if served then
            let '(rep, w, net') := serve args w net' in
            if reply_carried rep then (Ok rep, w, net') else attempts n serve args w net'
          else attempts n serve args w net'
      end
  end.
Definition call (serve : server) (args : ForwardArgs) (w : W) (net : list event) : res ForwardReply * W * list event := attempts 2 serve args w net.

(** ** The service of a voter *)
Record voter := mkVoter {
  v_isLeader : W -> bool;
  v_leader : W -> option bytes;           (* the leader's forwarding address, if known *)
  v_barrier : W -> option error;
  v_exec : option (Z -> bytes -> gmap (list Z) value -> Z -> W -> res Result * W)
}.
Context (at_address : bytes -> option voter).

Definition call_address (serve : voter -> server) (addr : bytes) (args : ForwardArgs) (w : W) (net : list event) : res ForwardReply * W * list event :=
  match at_address addr with
  | None => (Err ErrForward, w, net)
  | Some v => call (serve v) args w net
  end.
Definition callLeader (serve : voter -> server) (v : voter) (args : ForwardArgs) (w : W) (net : list event) : res ForwardReply * W * list event :=
  match v_leader v w with
  | None => (Err ErrNoLeader, w, net)
  | Some addr => call_address serve addr args w net
  end.

(** [forwardService.Query]; the fuel bounds the chain of voters that each take
    another one for the leader. *)
Fixpoint service (fuel : nat) (v : voter) (args : ForwardArgs) (w : W) (net : list event) : ForwardReply * W * list event :=
  if needsLeader args && negb (v_isLeader v w) then
    match fuel with
    | O => (uncoded ErrOutOfFuel, w, net)
    | S fuel =>
        match callLeader (service fuel) v args w net with
        | (Ok rep, w, net) => (rep, w, net)
        | (Err e, w, net) => (if 0 <? fa_Timeout args then setError e else uncoded e, w, net)
        end
    end
  else
    match (if fa_Linearizable args then v_barrier v w else None) with
    | Some e => (uncoded e, w, net)
    | None =>
        match v_exec v with
        | None => (uncoded ErrForward, w, net)
        | Some exec =>
            match exec (args_context args 0) (fa_Cypher args) (desanitizeParams (fa_Params args)) (fa_MaxRows args) w with
            | (Err e, w) => (setError e, w, net)
            | (Ok r, w) => (mkReply (Columns r) (sanitizeRows (Rows r)) [] [], w, net)
            end
        end
    end.

Definition of_reply (rep : ForwardReply) : res Result :=
  match fr_Err rep with [] => Ok (mkResult (fr_Columns rep) (desanitizeRows (fr_Rows rep))) | _ => Err (reply_error rep) end.

(** [raftNode.forward]: from a follower to the leader. *)
Definition forward (fuel : nat) (v : voter) (remaining : option Z) (cypher : bytes) (params : gmap (list Z) value) (write linearizable : bool)
    (maxRows : Z) (w : W) (net : list event) : res Result * W * list event :=
  match newForwardArgs remaining cypher params write linearizable maxRows with
  | Err e => (Err e, w, net)
  | Ok args =>
      match callLeader (service fuel) v args w net with
      | (Err e, w, net) => (Err e, w, net)
      | (Ok rep, w, net) => (of_reply rep, w, net)
      end
  end.

(** ** A client without data: the voters in turn, from the next one on *)
Record client := mkClient { c_peers : list bytes; c_next : Z }.
Definition newClient (nodeID : bytes) (forwardAddrs : list bytes) : res client :=
  match nodeID, filter (fun a => a <> []) forwardAddrs with
  | [], _ | _, [] => Err ErrForward
  | _, peers => Ok (mkClient peers 0)
  end.
Definition pick (c : client) (start : Z) (i : nat) : option bytes :=
  let k := Z.rem (start + Z.of_nat i) (Z.of_nat (length (c_peers c))) in
  if k <? 0 then None else c_peers c !! Z.to_nat k.
Fixpoint client_loop (n : nat) (i : nat) (fuel : nat) (c : client) (start : Z) (args : ForwardArgs) (last : error) (w : W) (net : list event)
    : res Result * W * list event :=
  match n with
  | O => (Err last, w, net)
  | S n =>
      match pick c start i with
      | None => (Err ErrPanic, w, net)
      | Some addr =>
          match call_address (service fuel) addr args w net with
          | (Err e, w, net) =>
              if bool_decide (e = ErrCanceled) then (Err e, w, net) else client_loop n (S i) fuel c start args e w net
          | (Ok rep, w, net) =>
              match fr_Err rep with
              | [] => (of_reply rep, w, net)
              | _ =>
                  match fr_Code rep with
                  | [] => client_loop n (S i) fuel c start args (reply_error rep) w net
                  | _ => (Err (reply_error rep), w, net)
                  end
              end
          end
      end
  end.
Definition client_Forward (fuel : nat) (c : client) (remaining : option Z) (cypher : bytes) (params : gmap (list Z) value) (write linearizable : bool)
    (maxRows : Z) (w : W) (net : list event) : res Result * client * W * list event :=
  match newForwardArgs remaining cypher params write linearizable maxRows with
  | Err e => (Err e, c, w, net)
  | Ok args =>
      let next := (c_next c + 1) mod two64 in
      let '(r, w, net) := client_loop (length (c_peers c)) 0 fuel c (i64_of_u64 next) args ErrNoVoters w net in
      (r, mkClient (c_peers c) next, w, net)
  end.
End wire.

(** ** What comes back *)
Definition remote_error (e : error) : error := if bool_decide (e ∈ wireErrors.*2) then e else ErrRemote.
Definition remote (r : res Result) : res Result := match r with Ok x => Ok x | Err e => Err (remote_error e) end.

Lemma desanitize_value v : desanitizeValue (sanitizeValue v) = v.
Proof. by destruct v. Qed.
Lemma desanitize_rows rows : desanitizeRows (sanitizeRows rows) = rows.
Proof.
  unfold desanitizeRows, sanitizeRows. induction rows as [|row rows IH]; [done|]. cbn [fmap list_fmap] in *. rewrite IH. f_equal. clear.
  induction row as [|v row IH]; [done|]. cbn [fmap list_fmap]. by rewrite desanitize_value, IH.
Qed.
Lemma desanitize_params params : desanitizeParams (sanitizeParams params) = params.
Proof. apply map_eq. intros k. unfold desanitizeParams, sanitizeParams. rewrite !lookup_fmap. destruct (params !! k); cbn; [by rewrite desanitize_value|done]. Qed.

Section laws.
Context (message : error -> bytes) (Hmessage : forall e, message e <> []) (carries : wire -> bool).

Lemma reply_error_set e : reply_error (setError message e) = remote_error e.
Proof.
  unfold reply_error, setError, remote_error. cbn [fr_Code]. destruct e; try reflexivity.
Qed.
Definition reply_of (r : res Result) : ForwardReply :=
  match r with Ok x => mkReply (Columns x) (sanitizeRows (Rows x)) [] [] | Err e => setError message e end.
Lemma of_reply_of r : of_reply (reply_of r) = remote r.
Proof.
  destruct r as [[cols rows]|e]; unfold of_reply; cbn [reply_of fr_Err fr_Columns fr_Rows Columns Rows]; [by rewrite desanitize_rows|].
  cbn [setError fr_Err]. pose proof (Hmessage e). unfold remote. rewrite <- reply_error_set. by destruct (message e).
Qed.

(** *** The leader's side *)
Context {W : Type} (at_address : bytes -> option (@voter W)) (l : @voter W).
Context (exec : Z -> bytes -> gmap (list Z) value -> Z -> W -> res Result * W).
Record serving : Prop := {
  se_exec : v_exec l = Some exec;
  se_leader w : v_isLeader l w = true;
  se_barrier w : v_barrier l w = None
}.
Context (Hl : serving).
Definition run_args (args : ForwardArgs) (w : W) : res Result * W :=
  exec (args_context args 0) (fa_Cypher args) (desanitizeParams (fa_Params args)) (fa_MaxRows args) w.
Lemma service_leader fuel args w net :
  service message carries at_address fuel l args w net = (reply_of (run_args args w).1, (run_args args w).2, net).
Proof.
  destruct fuel; cbn [service]; rewrite (se_leader Hl), andb_false_r, (se_barrier Hl), (se_exec Hl);
    (replace (if fa_Linearizable args then None else None) with (@None error) by (by destruct (fa_Linearizable args)));
    unfold run_args; by destruct (exec _ _ _ _ w) as [[] ?].
Qed.
Lemma attempts_spec fuel n args : forall w net,
  match attempts carries n (service message carries at_address fuel l) args w net with
  | (r, w', _) => exists k, (k <= n)%nat /\ w' = Nat.iter k (fun w => (run_args args w).2) w /\
      match r with
      | Ok rep => exists j, k = S j /\ rep = reply_of (run_args args (Nat.iter j (fun w => (run_args args w).2) w)).1
      | Err e => e = ErrForward \/ e = ErrCanceled
      end
  end.
Proof.
  set (step := fun w => (run_args args w).2). induction n as [|n IH]; intros w net; cbn [attempts]; [exists 0%nat; auto|].
  assert (forall w' net', match attempts carries n (service message carries at_address fuel l) args w' net' with
    | (r, w2, _) => (w' = w \/ w' = step w) -> exists k, (k <= S n)%nat /\ w2 = Nat.iter k step w /\
      match r with Ok rep => exists j, k = S j /\ rep = reply_of (run_args args (Nat.iter j step w)).1 | Err e => e = ErrForward \/ e = ErrCanceled end end) as Hagain.
  { intros w' net'. specialize (IH w' net'). destruct (attempts _ _ _ _ _ _) as [[r w2] net2]. destruct IH as (k & Hk & -> & Hr).
    intros [->| ->]; [exists k; split; [lia|done]|]. exists (S k). rewrite Nat.iter_succ_r. split; [lia|]. split; [done|].
    destruct r as [rep|]; [|done]. destruct Hr as (j & -> & ->). exists (S j). by rewrite Nat.iter_succ_r. }
  rewrite service_leader. cbv beta iota. fold (step w).
  destruct (default Delivered (head net)) as [| | | |late].
  - destruct (args_carried carries args).
    + destruct (reply_carried carries _); [exists 1%nat; split; [lia|]; split; [done|]; by exists 0%nat|].
      specialize (Hagain (step w) (drop 1 net)). destruct (attempts _ _ _ _ _ _) as [[r w2] net2]. by apply Hagain; right.
    + specialize (Hagain w (drop 1 net)). destruct (attempts _ _ _ _ _ _) as [[r w2] net2]. by apply Hagain; left.
  - exists 0%nat. split; [lia|auto].
  - specialize (Hagain w (drop 1 net)). destruct (attempts _ _ _ _ _ _) as [[r w2] net2]. by apply Hagain; left.
  - destruct (args_carried carries args).
    + specialize (Hagain (step w) (drop 1 net)). destruct (attempts _ _ _ _ _ _) as [[r w2] net2]. by apply Hagain; right.
    + specialize (Hagain w (drop 1 net)). destruct (attempts _ _ _ _ _ _) as [[r w2] net2]. by apply Hagain; left.
  - destruct (late && args_carried carries args); [exists 1%nat|exists 0%nat]; (split; [lia|auto]).
Qed.
End laws.
End Forward.
Import Forward.


(** ** A cluster with one leader and one follower *)
Section concrete.
#[local] Existing Instance plain_runtime.
#[local] Existing Instance ClauseText.plain_unicode.
#[local] Existing Instance listed_order.

(** The types forward.go registers with gob; an element of a list or of a map
    must not be nil. *)
Fixpoint registered (v : value) : bool :=
  match v with
  | VBool _ | VGoInt _ | VInt _ | VFloat _ | VStr _ => true
  | VList l => forallb id (registered <$> l)
  | VMap m => forallb id ((fun e => registered e.2) <$> m)
  | _ => false
  end.
Definition gob (w : wire) : bool := match w with nullValue => true | Plain v => registered v end.

Definition said (e : error) : bytes := str "query failed".
Definition on_leader (t : Z) (cypher : bytes) (params : gmap (list Z) value) (maxRows : Z) (s : store) : res Result * store :=
  executeLocalText 9 cypher params (mkOptions false maxRows None) s.
Definition the_leader : @voter store := mkVoter (fun _ => true) (fun _ => Some (str "a:1")) (fun _ => None) (Some on_leader).
Definition the_follower : @voter store := mkVoter (fun _ => false) (fun _ => Some (str "a:1")) (fun _ => None) (Some on_leader).
Definition cluster_of (addr : bytes) : option (@voter store) := if bool_decide (addr = str "a:1") then Some the_leader else None.
Definition send (text : String.string) (net : list event) : res Result * store * list event :=
  forward said gob cluster_of 3 the_follower None (str text) ∅ true false 0 ∅ net.

Lemma leader_serving : serving the_leader on_leader.
Proof. by split. Qed.

Lemma triple {A B C : Type} (p : A * B * C) : p = (p.1.1, p.1.2, p.2).
Proof. by destruct p as [[a b] c]. Qed.

Definition create_one : String.string := "CREATE (n) RETURN 1 AS x, null AS y".

(** A forwarded write can be applied twice and reported as failed: when the
    reply cannot be encoded (nodes and relationships are not among the types
    registered with gob) or is lost, the pool sends the request again.  CREATE (n)
    RETURN n, forwarded over a network that delivers everything, creates two nodes
    and returns an error; the same statement returning a scalar creates one. *)
Theorem forwarded_write_applied_twice :
  let nodes_after text := (executeLocalText 9 (str "MATCH (n) RETURN count(n) AS c") ∅ no_options (send text []).1.2).1 in
  (send "CREATE (n) RETURN n" []).1.1 = Err ErrForward /\
  nodes_after "CREATE (n) RETURN n"%string = Ok (mkResult [str "c"] [[VInt 2]]) /\
  nodes_after "CREATE (n) RETURN 1 AS x"%string = Ok (mkResult [str "c"] [[VInt 1]]).
Proof. cbv zeta. split_and!; vm_compute; reflexivity. Qed.
End concrete.
